(* ===== verification/_CoqProject ===== *)
-Q . S2P
Prelude.v
FixedPoint.v
Env.v
Kernel.v
Thread.v
Sample.v
Mlfqs.v
Donation.v
Ready.v
Sched.v
SampleSched.v
SchedSpec.v
Wait.v
Synch.v
SemaSpec.v
LockSpec.v
CondSpec.v
CondWait.v
Lifecycle.v
Timer.v
TimerSpec.v
Delay.v
Boot.v
Paging.v
Init.v
Places.v
Roster.v
Machine.v
Calls.v
LifeCalls.v
Tally.v
MachineInv.v
MachineSpec.v
Wakeups.v
Births.v
Counters.v
Stats.v
Priority.v
Sleepers.v
BootSpec.v
