(* ===== verification/Prelude.v ===== *)
(** Verification of the Pintos kernel's threads, synchronisation and timer
    subsystems.

    * The program

    The kernel runs threads on one processor.  src/src/threads/thread.c holds the
    scheduler: a thread is running, ready, blocked or dying; ready threads wait
    in a priority-ordered list or, with the option -mlfqs, in 64 feedback
    queues whose priorities are recomputed from usage statistics kept in the
    fixed-point numbers of threads/fixed_point.h.  src/src/threads/synch.c
    builds semaphores, locks and condition variables on [thread_block] and
    [thread_unblock]; a thread that waits for a lock donates its priority to the
    holder.  src/src/devices/timer.c counts ticks, lets threads sleep, and its
    interrupt handler drives both schedulers.  src/src/threads/init.c parses the
    kernel command line.

    * The files and what they model

    Prelude       outcomes, machine integers, ordered insertion, sorted lists
    FixedPoint    threads/fixed_point.h
    Env           addresses; the interfaces of code outside the repository
    Kernel        struct thread, the static variables, the monads, the logics
    Thread        thread.c: thread_current, comparison functions, thread_foreach
    Mlfqs         thread.c: the feedback queues and their statistics
    Donation      thread.c: donate_priority, refresh_priority
    Ready         thread.c: the two ready queues behind one interface
    Sched         thread.c: schedule, thread_block, thread_unblock, thread_yield,
                  the preemption checks, thread_tick, priority and niceness
    SchedSpec     the properties of Sched
    Wait          the logic of code that sleeps repeatedly
    Synch         synch.c, all of it except the self-test
    SemaSpec, LockSpec, CondSpec, CondWait   the properties of Synch
    Lifecycle     thread.c: thread_init, thread_create, thread_exit, idle,
                  kernel_thread; the self-test of synch.c
    Timer         devices/timer.c
    TimerSpec     sleeping threads and the timer interrupt
    Delay         calibration and busy waiting
    Boot          init.c: command line, options, actions, in every build
    Paging        init.c: paging_init
    Init          init.c: main, bss_init, the choice of block devices
    Places        where a thread can be: running, ready, asleep, waiting, being
                  made, ended
    Roster        the list of all threads, their pages and locks, and the lock
                  of allocate_tid
    Machine       all threads at once: runs that interleave their calls of the
                  kernel with each other and with timer interrupts
    Calls, LifeCalls   every call of the machine keeps the threads in their
                  places; the calls that create and end threads
    Tally         all code but the tick and allocate_tid spares the counters
    MachineInv    the invariant of the machine, and what each of its steps does
    MachineSpec   what follows for its runs
    Wakeups       no wake-up is lost in the machine's runs
    Births        created threads begin, exited ones are freed, none is forgotten
    Counters      what ticks, idle_ticks, kernel_ticks and next_tid count
    Stats         thread_print_stats, timer_print_stats
    Priority      between ticks the running thread has the highest priority
    Sleepers      sleepers wake on time in the machine's runs
    BootSpec      main, and the idle thread, up to a state of the machine
    Sample, SampleSched   concrete states on which the witnesses run the code

    Definitions have the names of the C functions they translate.  The witness
    of a theorem [t] is [t_witness], at the end of the file of [t].

    * State and effects

    The state [Kernel.kst] is the kernel's memory: a map from pages to
    [struct thread], the values of semaphores, the holders of locks, the static
    variables, the identity of the running thread (the page the stack pointer is
    in), and the states of three interfaces: the list library <list.h>, the
    interrupt control of threads/interrupt.h and the page allocator of
    threads/palloc.h.  These are not in the repository.  Each is a class of
    operations in Env, and a class of laws that says what its documentation
    promises through a view of its state; list elements are addresses, so that
    an element in two lists at once, which the C code does not rule out, can be
    spoken of.  Env also gives a concrete instance of each, which shows that the
    laws can be met.

    Code that keeps the processor is in the state and error monad [Kernel.K].
    Code that may lose it is a resumption [Kernel.prog]: [switch_threads] ends
    the current stretch, and the rest continues from whatever state the thread
    is switched back to in.  An unsatisfied ASSERT, a PANIC, a NULL dereference,
    an array subscript out of range and a division by zero are the errors of
    Prelude.  Integers wrap at the width they have in C: [int32], [uint32],
    [int64].

    Specifications are in three total-correctness logics over views of the
    state: [awp] for [K]; [apwp] for one stretch of a [prog], up to its end, a
    switch or a fault; and [Wait.swp] for code that sleeps any number of times,
    where every stretch terminates without fault: [swp G C s p Q] says that the
    code gives up the processor in states related by [G] to the one its stretch
    began in, [s], ends in states so related by [Q], and is owed the condition
    [C] by the other threads whenever they switch back.  A specification such as
    [Sched.scheduled] says both what the state is when the processor is handed
    over and what the thread does when it is resumed.

    * The properties

    Scheduler: both ready queues refine one priority queue ([ReadyQueue] and its
    instances); [thread_yield], [thread_block], [thread_unblock], the switch and
    the preemption check do what they promise on every branch, and after a check
    the running thread has the highest priority.  Feedback scheduler: the
    formulas, with error bounds and absence of overflow; the reorganisation
    loses no thread and keeps the order.  Donation: termination on every
    waits-for graph, the chain it raises, the maximum it falls back to, and that
    donations once in place stay in place.
    Semaphores, locks, conditions: who is woken and when, ownership, the effect
    of a release on priorities; [cond_wait] from its first instruction to the
    lock, however often it gives up the processor on the way.  Life cycle: creation, exit and the state after
    boot.  Timer: sleeping threads stay in wake-up order and exactly the due
    ones are woken; the interrupt preserves the invariants of the scheduler;
    calibration is right to ten bits.  Boot: the stored command line is read
    back, options mean what the reference says (in every build, down to the roles
    given to block devices), the page tables are those of the reference, and
    [main] either runs out of memory or gets to a state of the machine, with its
    invariant.

    * The machine

    [Machine.step] runs all threads.  Its state is the memory, the suspended
    threads, each with the rest of the call it is in, and what the processor
    does next.  A running thread makes any call it is allowed to make
    ([Machine.allowed]): what the threads compute between two calls is not
    fixed, so the runs of the machine contain those of all client programs.  A
    call proceeds to its end or to a switch, at which the thread switched to
    goes on where it was, or begins with the function on its stack; a timer
    interrupt may come between two calls, and the thread it interrupts is made
    to yield if the handler asked for it.  The calls are [thread_yield],
    [sema_down], [sema_try_down], [sema_up], [timer_sleep],
    [thread_set_priority], [thread_exit], the rounds of [idle], and
    [thread_create] in three parts ([Machine.thread_create_calls]: the record is
    made, [allocate_tid], the thread is started), between which other threads
    run, since [allocate_tid] may yield.

    The invariant [MachineInv.machine_ok] is what [Places.placed] and
    [Roster.roster] say of the memory, the books of the threads that have not
    started or have ended, and that every suspended thread will go on correctly
    whenever it is resumed in a state in which it is in its place, which is what
    the [swp] specification of its call says ([Calls.call_ok]): the condition
    each thread owes the others is the one they rely on.
    [MachineInv.step_keeps] is the proof that every step keeps it, and
    [MachineInv.event_change] what a step changes; the theorems on runs are
    inductions that use these two.  It follows for all interleavings of calls
    and interrupts that nothing faults or gets stuck, that each thread is in
    exactly one place and the ready and waiting ones are in order, that
    semaphores count, and that time slices end, but not early.  A second invariant,
    [Wakeups.wakes_ok], relates the waiters of a semaphore to the suspended
    calls: whoever is on the list is in [sema_down], and as long as the list is
    not empty, at least as many threads as the value says have been taken off it
    and have yet to go on; so no wake-up is lost.  [Sleepers.sleepers_on_time]
    follows a sleeping thread through the calls and ticks of the others: it is
    asleep until its tick and ready from then on.  Births follows a thread from
    its start until it begins, and one that exits until its page is free.
    Counters does not look at the states at all: [Tally.spares] is a property of
    code that its structure shows, so that the ticks and the thread identifiers
    are counted by looking at the events of a run only.
    [Priority.highest_runs] puts together what the calls promise when they
    return ([Calls.outranks]) and the time slice: only the ticks let a ready
    thread get ahead of the running one.
    [BootSpec.main_boots] shows that the invariants hold of the kernel that
    [main] has booted.

    Two hypotheses occur throughout: [Env.EnvLaws], the documented behaviour of
    the three interfaces, and [Machine.frames_aligned], that the sizes of the
    two frames of switch.h are multiples of 4.

    Under the machine the scheduler is the priority scheduler, and the only lock
    is that of [allocate_tid], which is always free when it is taken.  In the code
    the interrupt may also come between two instructions of a call with
    interrupts on; the model has no interrupts there, and what is proved of its
    runs does not extend to those.  Most such instructions read the tick counter
    ([timer_sleep]), set the thread's own priority, or fill in the record of a
    thread that is not linked anywhere yet.  In two places an interrupt can do
    harm: [check_preemption] looks at the ready list twice, and the list may
    have become empty in between; and a thread that is preempted in
    [allocate_tid] leaves its lock held, so that the next caller contends for
    it, with the consequences described below.

    * Bounds and fuel

    Loops over lists are bounded by the length of the list on entry, which the
    specifications prove enough.  [donate_priority] recurs along the waits-for
    graph with the number of threads as fuel; each level raises a thread that
    was below the donated priority, so this is always enough.  Loops that may
    wait (in [sema_down], [idle], the delay loops) are [Kernel.Loop], without
    fuel.  The load average and [recent_cpu] are shown not to overflow for up to
    545 threads.

    * What is not modelled

    Console output other than the statistics; the frames of switch.h on a new
    thread's stack, of which only the sizes are used; what thread.c has for
    USERPROG kernels only (page directories, the ticks of users).  init.c is
    modelled for every build ([Boot.Build]).
    The page tables are not part of the kernel's state, since no other modelled
    code reads them.  Interrupts occur in the model where a specification lets the
    other threads or the hardware act: at a switch, at the [barrier] of the
    delay loops, and in the machine between two calls.

    Other locks, condition variables and the feedback scheduler are not in the
    machine; their specifications follow one thread from switch to switch.  For
    locks there is a reason in the code: [lock_acquire] links the element of the
    waiting thread into a second list while [sema_down] links it into the
    waiters of the semaphore, and [lock_try_acquire] does not link the lock that
    [lock_release] will unlink, so that a machine with contended locks has runs
    in which lists are corrupted, about which no invariant can be stated. *)
From Stdlib Require Export ZArith Lia Sorted Permutation.
From stdpp Require Export base list list_numbers strings gmap.

#[global] Open Scope Z_scope.

(** * Outcomes of kernel code *)

(** Why a run of kernel code stops short.  [EAssert] and [EPanic] are the
    kernel's own checks (ASSERT and PANIC of <debug.h>); the others are C
    behaviours the source never guards against. *)
Inductive error : Type :=
  | EAssert (site : string)      (* ASSERT (...) failed *)
  | EPanic (msg : string)        (* PANIC (...) *)
  | EBadPtr                      (* dereference of NULL or of a freed page *)
  | EOutOfBounds                 (* array subscript outside the array *)
  | EDivide                      (* divide error: zero divisor, or INT_MIN / -1 *)
  | EPowerOff                    (* the machine was switched off *)
  | EOutOfFuel.                  (* a bounded loop of the model ran out *)

#[global] Instance error_eq_dec : EqDecision error.
Proof. solve_decision. Defined.

Inductive res (A : Type) : Type :=
  | Ok (a : A)
  | Err (e : error).
Arguments Ok {A} a.
Arguments Err {A} e.

#[global] Instance res_ret : MRet res := λ A a, Ok a.
#[global] Instance res_bind : MBind res :=
  λ A B f m, match m with Ok a => f a | Err e => Err e end.

Definition res_of_option {A} (e : error) (o : option A) : res A :=
  match o with Some a => Ok a | None => Err e end.

(** * Machine integers *)

(** [int] of the 32-bit target: two's complement, wrapping. *)
Definition int32 (z : Z) : Z := (z + 2147483648) mod 4294967296 - 2147483648.
(** [int64_t]. *)
Definition int64 (z : Z) : Z :=
  (z + 9223372036854775808) mod 18446744073709551616 - 9223372036854775808.
(** [unsigned] and [uint32_t]. *)
Definition uint32 (z : Z) : Z := z mod 4294967296.

Definition INT_MIN : Z := -2147483648.
Definition INT_MAX : Z := 2147483647.
Definition UINT_MAX : Z := 4294967295.
Definition INT64_MIN : Z := -9223372036854775808.
Definition INT64_MAX : Z := 9223372036854775807.

(** The values an [int] and an [int64_t] can hold. *)
Definition in_int32 (z : Z) : Prop := INT_MIN ≤ z ≤ INT_MAX.
Definition in_int64 (z : Z) : Prop := INT64_MIN ≤ z ≤ INT64_MAX.

Lemma int32_id z : in_int32 z → int32 z = z.
Proof.
  unfold in_int32, int32, INT_MIN, INT_MAX. intros.
  rewrite Z.mod_small; lia.
Qed.

Lemma int32_range z : in_int32 (int32 z).
Proof.
  unfold in_int32, int32, INT_MIN, INT_MAX.
  pose proof (Z.mod_pos_bound (z + 2147483648) 4294967296). lia.
Qed.

Lemma int64_id z : in_int64 z → int64 z = z.
Proof.
  unfold in_int64, int64, INT64_MIN, INT64_MAX. intros.
  rewrite Z.mod_small; lia.
Qed.

Lemma int64_range z : in_int64 (int64 z).
Proof.
  unfold in_int64, int64, INT64_MIN, INT64_MAX.
  pose proof (Z.mod_pos_bound (z + 9223372036854775808) 18446744073709551616). lia.
Qed.

Lemma uint32_id z : 0 ≤ z < 4294967296 → uint32 z = z.
Proof. intros. unfold uint32. apply Z.mod_small. lia. Qed.

Lemma uint32_range z : 0 ≤ uint32 z < 4294967296.
Proof. apply Z.mod_pos_bound. lia. Qed.

(** Bound side conditions of the machine integers. *)
Ltac bounds :=
  unfold in_int32, in_int64, INT_MIN, INT_MAX, INT64_MIN, INT64_MAX in *; lia.

(** C's [/] truncates towards zero: it is [Z.quot]. *)
Lemma quot_bounds a b :
  0 < b →
  (0 ≤ a → 0 ≤ a - b * (a ÷ b) < b) ∧ (a ≤ 0 → - b < a - b * (a ÷ b) ≤ 0).
Proof.
  intros Hb. pose proof (Z.quot_rem' a b) as E. split; intros Ha.
  - pose proof (Z.rem_bound_pos_pos a b). lia.
  - pose proof (Z.rem_bound_pos_neg a b). lia.
Qed.

(** Truncation error, in absolute value. *)
Lemma quot_error a b : 0 < b → Z.abs (a - b * (a ÷ b)) < b.
Proof.
  intros Hb. pose proof (quot_bounds a b Hb) as [H1 H2].
  destruct (Z.le_gt_cases 0 a); [specialize (H1 H) | specialize (H2 ltac:(lia))]; lia.
Qed.

(** Truncated division by a positive number, characterised without [quot]. *)
Lemma quot_unique_pos a b q :
  0 < b → 0 ≤ a → b * q ≤ a < b * q + b → a ÷ b = q.
Proof.
  intros Hb Ha Hq. pose proof (proj1 (quot_bounds a b Hb) Ha). nia.
Qed.

Lemma quot_le_mono a b c : 0 < c → a ≤ b → a ÷ c ≤ b ÷ c.
Proof. intros. apply Z.quot_le_mono; lia. Qed.

(** * Ordered insertion

    What [list_insert_ordered] does to the sequence of elements: the new
    element goes in front of the first one it is less than. *)
Section insert_before.
Context {A : Type}.
Implicit Types (p : A → bool) (x e : A) (xs : list A).

Fixpoint insert_before (p : A → bool) (e : A) (xs : list A) : list A :=
  match xs with
  | [] => [e]
  | x :: xs' => if p x then e :: x :: xs' else x :: insert_before p e xs'
  end.

Lemma insert_before_perm p e xs : Permutation (insert_before p e xs) (e :: xs).
Proof.
  induction xs as [|x xs IH]; simpl; [done|].
  destruct (p x); [done|]. rewrite IH. apply perm_swap.
Qed.

Lemma elem_of_insert_before p e x xs :
  x ∈ insert_before p e xs ↔ x = e ∨ x ∈ xs.
Proof. rewrite insert_before_perm. apply elem_of_cons. Qed.

Lemma length_insert_before p e xs :
  length (insert_before p e xs) = S (length xs).
Proof. by rewrite insert_before_perm. Qed.

Lemma NoDup_insert_before p e xs :
  e ∉ xs → NoDup xs → NoDup (insert_before p e xs).
Proof. intros. rewrite insert_before_perm. by constructor. Qed.

(** The position: everything in front fails the test, the next passes it. *)
Lemma insert_before_split p e xs :
  ∃ l r, xs = l ++ r ∧ insert_before p e xs = l ++ e :: r ∧
    Forall (λ x, p x = false) l ∧
    match r with [] => True | x :: _ => p x = true end.
Proof.
  induction xs as [|x xs (l & r & -> & E & Hl & Hr)]; simpl.
  { exists [], []. done. }
  destruct (p x) eqn:Hp.
  - exists [], (x :: l ++ r). simpl. done.
  - exists (x :: l), r. simpl. rewrite E. split_and!; [done..|by constructor|done].
Qed.

Lemma insert_before_all_false p e xs :
  Forall (λ x, p x = false) xs → insert_before p e xs = xs ++ [e].
Proof. induction 1 as [|x xs Hx _ IH]; simpl; [done|]. by rewrite Hx, IH. Qed.

Lemma insert_before_skip p e xs ys :
  Forall (λ x, p x = false) xs → insert_before p e (xs ++ ys) = xs ++ insert_before p e ys.
Proof. induction 1 as [|x xs Hx _ IH]; simpl; [done|]. by rewrite Hx, IH. Qed.

Lemma insert_before_ext p q e xs :
  (∀ x, x ∈ xs → p x = q x) → insert_before p e xs = insert_before q e xs.
Proof.
  induction xs as [|x xs IH]; simpl; intros H; [done|].
  rewrite (H x) by set_solver. destruct (q x); [done|].
  f_equal. apply IH. set_solver.
Qed.
End insert_before.

Lemma insert_before_fmap {A B} (f : A → B) (p : B → bool) (x : A) (xs : list A) :
  insert_before p (f x) (f <$> xs) = f <$> insert_before (λ y, p (f y)) x xs.
Proof.
  induction xs as [|y xs IH]; [done|]. csimpl. destruct (p (f y)); csimpl; [done|].
  by rewrite IH.
Qed.

(** Lists sorted by a key, smallest first. *)
Definition sorted_on {A} (k : A → Z) : list A → Prop :=
  StronglySorted (λ x y, k x ≤ k y).

Section sorted_on.
Context {A : Type} (k : A → Z).

Lemma sorted_on_cons x xs :
  sorted_on k (x :: xs) ↔ (∀ y, y ∈ xs → k x ≤ k y) ∧ sorted_on k xs.
Proof.
  unfold sorted_on. split.
  - inversion 1; subst. split; [|done]. by apply Forall_forall.
  - intros [H1 H2]. constructor; [done|]. by apply Forall_forall.
Qed.

Lemma sorted_on_app_r l r : sorted_on k (l ++ r) → sorted_on k r.
Proof.
  induction l as [|x l IH]; simpl; [done|].
  intros Hs. by apply IH, (sorted_on_cons x).
Qed.

(** Ordered insertion keeps a sorted list sorted ... *)
Lemma insert_before_sorted e xs :
  sorted_on k xs → sorted_on k (insert_before (λ x, k e <? k x) e xs).
Proof.
  induction xs as [|x xs IH]; simpl; intros Hs.
  { apply sorted_on_cons. split; [set_solver|done]. }
  destruct (Z.ltb_spec (k e) (k x)).
  - apply sorted_on_cons. split; [|done].
    intros y [->|Hy]%elem_of_cons; [lia|].
    apply sorted_on_cons in Hs as [Hs _]. specialize (Hs _ Hy). lia.
  - apply sorted_on_cons in Hs as [Hx Hs]. apply sorted_on_cons. split; [|auto].
    intros y [->|Hy]%elem_of_insert_before; [lia|auto].
Qed.

(** ... and puts the new element after every element of the same key. *)
Lemma insert_before_stable e xs :
  sorted_on k xs →
  ∃ l r, xs = l ++ r ∧ insert_before (λ x, k e <? k x) e xs = l ++ e :: r ∧
    (∀ x, x ∈ l → k x ≤ k e) ∧ (∀ x, x ∈ r → k e < k x).
Proof.
  intros Hs. destruct (insert_before_split (λ x, k e <? k x) e xs)
    as (l & r & -> & E & Hl & Hr). exists l, r. split_and!; [done..| |].
  - intros x Hx. rewrite Forall_forall in Hl. specialize (Hl x Hx). simpl in Hl. lia.
  - intros x Hx. destruct r as [|y r]; [by apply elem_of_nil in Hx|].
    apply sorted_on_app_r, sorted_on_cons in Hs as [Hy _].
    apply elem_of_cons in Hx as [->|Hx]; [lia|]. specialize (Hy _ Hx). lia.
Qed.

Lemma sorted_on_ext (k' : A → Z) xs :
  (∀ x, x ∈ xs → k x = k' x) → sorted_on k xs → sorted_on k' xs.
Proof.
  induction xs as [|x xs IH]; intros He Hs; [constructor|].
  apply sorted_on_cons in Hs as [Hx Hs].
  assert (Hx' : k x = k' x) by set_solver.
  constructor; [apply IH; set_solver|].
  apply Forall_forall. intros y Hy.
  rewrite <- Hx', <- (He y) by set_solver. auto.
Qed.
End sorted_on.

(** A sorted list splits at a threshold into the keys at most it and the rest. *)
Lemma sorted_on_span {A} (k : A → Z) xs t :
  sorted_on k xs →
  ∃ l r, xs = l ++ r ∧ (∀ x, x ∈ l → k x ≤ t) ∧ (∀ x, x ∈ r → t < k x).
Proof.
  induction xs as [|x xs IH]; intros Hs; [by exists [], []; set_solver|].
  apply sorted_on_cons in Hs as [Hx Hs].
  destruct (Z.le_gt_cases (k x) t).
  - destruct (IH Hs) as (l & r & -> & Hl & Hr). exists (x :: l), r.
    split_and!; [done| |done]. intros y [->|Hy]%elem_of_cons; auto.
  - exists [], (x :: xs). split_and!; [done|set_solver|].
    intros y [->|Hy]%elem_of_cons; [lia|]. specialize (Hx _ Hy). lia.
Qed.

(** Earliest maximum of a key: what [list_max] promises. *)
Definition first_max {A} (k : A → Z) (xs : list A) (m : A) : Prop :=
  ∃ i, xs !! i = Some m ∧
    ∀ j x, xs !! j = Some x → k x ≤ k m ∧ (k x = k m → (i ≤ j)%nat).

Lemma first_max_split {A} (k : A → Z) xs m :
  first_max k xs m →
  ∃ l r, xs = l ++ m :: r ∧ (∀ x, x ∈ l → k x < k m) ∧ (∀ x, x ∈ r → k x ≤ k m).
Proof.
  intros (i & Hi & Hmax). exists (take i xs), (drop (S i) xs).
  split_and!; [by rewrite take_drop_middle| |].
  - intros x (j & Hj)%list_elem_of_lookup. apply lookup_take_Some in Hj as [Hj Hlt].
    destruct (Hmax j x Hj) as [Hle Heq]. destruct (Z.eq_dec (k x) (k m)); [|lia].
    specialize (Heq e). lia.
  - intros x (j & Hj)%list_elem_of_lookup. rewrite lookup_drop in Hj. by destruct (Hmax _ x Hj).
Qed.

(** Sorting a list into buckets by a key and concatenating them permutes it. *)
Lemma concat_filter_perm {A} (k : A → Z) (bs : list Z) (xs : list A) :
  NoDup bs → (∀ x, x ∈ xs → k x ∈ bs) →
  Permutation (concat ((λ i, filter (λ x, k x = i) xs) <$> bs)) xs.
Proof.
  intros Hnd. induction xs as [|x xs IH]; intros Hk.
  - clear. induction bs as [|b bs IH]; [done|]. csimpl. done.
  - transitivity (x :: concat ((λ i, filter (λ x, k x = i) xs) <$> bs));
      [|constructor; apply IH; set_solver]. clear IH.
    assert (Hx : k x ∈ bs) by set_solver. clear Hk.
    induction bs as [|b bs IHb]; [by apply elem_of_nil in Hx|].
    apply NoDup_cons in Hnd as [Hb Hnd]. csimpl. rewrite filter_cons.
    destruct (decide (k x = b)) as [<-|Hne].
    + simpl. constructor. apply eq_subrelation; [apply _|]. do 2 f_equal.
      apply list_fmap_ext. intros i b Hi%list_elem_of_lookup_2.
      rewrite filter_cons_False; [done|]. by intros Heq; rewrite Heq in Hb.
    + apply elem_of_cons in Hx as [Hx|Hx]; [by destruct Hne|]. rewrite (IHb Hnd Hx).
      by rewrite Permutation_middle.
Qed.
