(* ===== verification/FixedPoint.v ===== *)
(** threads/fixed_point.h: 17.14 fixed-point arithmetic on [int].

    Every operation is written with the width of the C expression it
    translates: [int32] where the result is an [int], [int64] where an operand
    was widened to [int64_t].  Divisions are in the error type [res], because a
    zero divisor traps.  The theorems bound the rounding error of every
    conversion and of the two products of fixed-point numbers, and give the
    ranges in which no wrap-around happens. *)
From S2P Require Import Prelude.

Module FixedPoint.

(** The scale: one unit of an integer in fixed-point representation. *)
Definition F : Z := Z.shiftl 1 14.

Definition int_to_fp (n : Z) : Z := int32 (n * F).
Definition fp_to_int (x : Z) : Z := x ÷ F.

Definition fp_to_int_nearest (x : Z) : Z :=
  if x >=? 0 then int32 (x + F ÷ 2) ÷ F
  else int32 (x - F ÷ 2) ÷ F.

Definition fp_add (x y : Z) : Z := int32 (x + y).
Definition fp_sub (x y : Z) : Z := int32 (x - y).
Definition fp_add_int (x n : Z) : Z := int32 (x + int32 (n * F)).
Definition fp_sub_int (x n : Z) : Z := int32 (x - int32 (n * F)).

Definition fp_mul (x y : Z) : Z := int32 (int64 (x * y) ÷ F).
Definition fp_mul_int (x n : Z) : Z := int32 (x * n).
Definition fp_div (x y : Z) : res Z :=
  if y =? 0 then Err EDivide else Ok (int32 (int64 (x * F) ÷ y)).
Definition fp_div_int (x n : Z) : res Z :=
  if (n =? 0) || ((x =? INT_MIN) && (n =? -1)) then Err EDivide
  else Ok (x ÷ n).

(** ** Lemmas *)

Lemma F_val : F = 16384.
Proof. reflexivity. Qed.

(** The integers whose fixed-point representation fits in an [int]. *)
Definition fp_int_range (n : Z) : Prop := -131072 ≤ n ≤ 131071.

Lemma int_to_fp_exact n : fp_int_range n → int_to_fp n = n * F.
Proof.
  unfold fp_int_range, int_to_fp. rewrite F_val. intros.
  apply int32_id. bounds.
Qed.

Lemma fp_add_int_exact x n :
  fp_int_range n → in_int32 (x + n * F) → fp_add_int x n = x + n * F.
Proof.
  intros Hn Hx. unfold fp_add_int. rewrite (int32_id (n * F)).
  - by apply int32_id.
  - unfold fp_int_range in Hn. rewrite F_val in *. bounds.
Qed.

(** The widened product never wraps, so only the final narrowing can. *)
Lemma fp_mul_wide x y :
  in_int32 x → in_int32 y → fp_mul x y = int32 ((x * y) ÷ F).
Proof.
  intros Hx Hy. unfold fp_mul. rewrite (int64_id (x * y)); [done|].
  unfold in_int32, in_int64, INT_MIN, INT_MAX, INT64_MIN, INT64_MAX in *. nia.
Qed.

Lemma fp_div_wide x y :
  in_int32 x → y ≠ 0 → fp_div x y = Ok (int32 ((x * F) ÷ y)).
Proof.
  intros Hx Hy. unfold fp_div. rewrite (proj2 (Z.eqb_neq y 0) Hy).
  rewrite int64_id; [done|]. rewrite F_val. bounds.
Qed.

Lemma fp_div_int_exact x n :
  0 < n → fp_div_int x n = Ok (x ÷ n).
Proof.
  intros Hn. unfold fp_div_int.
  rewrite (proj2 (Z.eqb_neq n 0)), (proj2 (Z.eqb_neq n (-1))) by lia.
  by rewrite andb_false_r.
Qed.

Lemma fp_mul_nonneg x y :
  in_int32 x → in_int32 y → 0 ≤ x → 0 ≤ y → in_int32 ((x * y) ÷ F) →
  fp_mul x y = (x * y) ÷ F.
Proof. intros. rewrite fp_mul_wide by done. by apply int32_id. Qed.

(** ** Properties *)

(** An integer that fits the 17-bit integer part survives the conversion
    to fixed point and back by truncation; by rounding too, except for the
    least one, whose rounding step wraps around to the greatest. *)
Theorem fp_int_roundtrip n :
  fp_int_range n →
  fp_to_int (int_to_fp n) = n ∧
  fp_to_int_nearest (int_to_fp n) = (if n =? -131072 then 131071 else n).
Proof.
  intros Hn. rewrite int_to_fp_exact by done.
  unfold fp_int_range, fp_to_int, fp_to_int_nearest in *.
  change (F ÷ 2) with 8192. rewrite F_val. split; [apply Z.quot_mul; lia|].
  destruct (Z.eqb_spec n (-131072)) as [->|Hm]; [done|].
  destruct (Z.geb_spec (n * 16384) 0) as [H|H]; rewrite int32_id by bounds.
  - apply quot_unique_pos; lia.
  - pose proof (quot_bounds (n * 16384 - 8192) 16384 ltac:(lia)). lia.
Qed.

Lemma fp_int_roundtrip_witness :
  fp_to_int (int_to_fp (-7)) = -7 ∧
  fp_to_int_nearest (int_to_fp (-7)) = (if -7 =? -131072 then 131071 else -7).
Proof. apply (fp_int_roundtrip (-7)). unfold fp_int_range. lia. Defined.

(** [fp_to_int_nearest] returns a nearest integer, ties away from zero,
    for every value whose rounding step does not overflow. *)
Lemma fp_to_int_nearest_rounds x :
  Z.abs x ≤ INT_MAX - F ÷ 2 →
  2 * Z.abs (F * fp_to_int_nearest x - x) ≤ F ∧
  (2 * Z.abs (F * fp_to_int_nearest x - x) = F →
   Z.abs x < F * Z.abs (fp_to_int_nearest x)).
Proof.
  intros Hx. unfold fp_to_int_nearest. change (F ÷ 2) with 8192 in *.
  rewrite F_val. destruct (Z.geb_spec x 0) as [H|H]; rewrite int32_id by bounds.
  - pose proof (quot_bounds (x + 8192) 16384 ltac:(lia)). lia.
  - pose proof (quot_bounds (x - 8192) 16384 ltac:(lia)). lia.
Qed.

Lemma fp_to_int_nearest_rounds_witness :
  2 * Z.abs (F * fp_to_int_nearest (-24576) - -24576) ≤ F ∧
  (2 * Z.abs (F * fp_to_int_nearest (-24576) - -24576) = F →
   Z.abs (-24576) < F * Z.abs (fp_to_int_nearest (-24576))).
Proof. apply (fp_to_int_nearest_rounds (-24576)). vm_compute. discriminate. Defined.

(** C40: Multiplying and dividing fixed-point numbers is exact up to one unit in
    the last place whenever the exact result fits: the product is within one
    unit of [x*y/F], the quotient [q] satisfies [|q*y - x*F| < |y|], and a zero
    divisor is an error. *)
Theorem fp_mul_div_error x y :
  in_int32 x → in_int32 y →
  (in_int32 ((x * y) ÷ F) → Z.abs (F * fp_mul x y - x * y) < F) ∧
  (y = 0 → fp_div x y = Err EDivide) ∧
  (y ≠ 0 → in_int32 ((x * F) ÷ y) →
   ∃ q, fp_div x y = Ok q ∧ Z.abs (q * y - x * F) < Z.abs y).
Proof.
  intros Hx Hy. split_and!.
  - intros Hr. rewrite fp_mul_wide, int32_id by done.
    pose proof (quot_error (x * y) F ltac:(done)). lia.
  - intros ->. done.
  - intros Hy0 Hr. rewrite fp_div_wide by done. eexists; split; [done|].
    rewrite int32_id by done.
    pose proof (Z.quot_rem' (x * F) y). pose proof (Z.rem_bound_abs (x * F) y Hy0). lia.
Qed.

Lemma fp_mul_div_error_witness :
  (in_int32 ((24576 * -16385) ÷ F) →
   Z.abs (F * fp_mul 24576 (-16385) - 24576 * -16385) < F) ∧
  (-16385 = 0 → fp_div 24576 (-16385) = Err EDivide) ∧
  (-16385 ≠ 0 → in_int32 ((24576 * F) ÷ -16385) →
   ∃ q, fp_div 24576 (-16385) = Ok q ∧ Z.abs (q * -16385 - 24576 * F) < Z.abs (-16385)).
Proof. apply (fp_mul_div_error 24576 (-16385)); vm_compute; split; discriminate. Defined.

End FixedPoint.
