(* ===== verification/Env.v ===== *)
(** The kernel's addresses and the interfaces of the code outside src/.

    Addresses: the objects the source points to are named by inductive types,
    one constructor per static object, embedded member or stack variable, so
    that [&lock->semaphore] or [&t->elem] is a constructor application and
    [list_entry] its inverse.

    Interfaces: the linked-list library <list.h>, the interrupt control of
    threads/interrupt.h and the page allocator of threads/palloc.h are not part
    of the repository.  Each is a class of operations over an abstract state
    and a class of laws which state what their documentation promises, through
    a view of that state.  The last section gives one concrete instance of each,
    on which the witnesses of the development run. *)
From S2P Require Import Prelude.

(** * Addresses *)

(** [struct thread *]: a thread is named by the page it lives in. *)
Definition tptr : Type := positive.
Bind Scope positive_scope with tptr.

(** [struct lock *]: the static [tid_lock] of thread.c, or some other lock. *)
Inductive lock_ptr : Type :=
  | tid_lock
  | lock_at (n : positive).

(** [struct semaphore *]: a free-standing semaphore, the one inside a lock, the
    one inside the [struct semaphore_elem] on the stack of a thread that is in
    [cond_wait], or [idle_started] of [thread_start]. *)
Inductive sema_ptr : Type :=
  | sema_at (n : positive)
  | sema_of_lock (l : lock_ptr)
  | sema_of_waiter (t : tptr)
  | idle_started.

(** [struct condition *]. *)
Definition cond_ptr : Type := positive.
Bind Scope positive_scope with cond_ptr.

(** [struct list_elem *]: the list elements embedded in the structures. *)
Inductive elem_ptr : Type :=
  | thread_elem (t : tptr)         (* t->elem *)
  | thread_allelem (t : tptr)      (* t->allelem *)
  | thread_sleep_elem (t : tptr)   (* t->sleep_elem *)
  | lock_elem (l : lock_ptr)       (* l->elem *)
  | waiter_elem (t : tptr).        (* waiter.elem on t's stack, in cond_wait *)

(** [struct list *]. *)
Inductive list_ptr : Type :=
  | ready_list
  | all_list
  | sleep_list
  | mlfqs_list (i : Z)
  | temp_list                      (* local of mlfqs_reorganize_queues *)
  | sema_waiters (s : sema_ptr)
  | lock_waiters (l : lock_ptr)
  | cond_waiters (c : cond_ptr)
  | locks_held (t : tptr).

#[global] Instance lock_ptr_eq_dec : EqDecision lock_ptr.
Proof. solve_decision. Defined.
#[global] Instance sema_ptr_eq_dec : EqDecision sema_ptr.
Proof. solve_decision. Defined.
#[global] Instance elem_ptr_eq_dec : EqDecision elem_ptr.
Proof. solve_decision. Defined.
#[global] Instance list_ptr_eq_dec : EqDecision list_ptr.
Proof. solve_decision. Defined.

#[global] Instance lock_ptr_countable : Countable lock_ptr.
Proof.
  refine (inj_countable' (λ l, match l with tid_lock => None | lock_at n => Some n end)
            (λ o, match o with None => tid_lock | Some n => lock_at n end) _).
  by intros [].
Defined.

#[global] Instance sema_ptr_countable : Countable sema_ptr.
Proof.
  refine (inj_countable'
    (λ s, match s with
          | sema_at n => inl (inl n) | sema_of_lock l => inl (inr l)
          | sema_of_waiter t => inr (inl t) | idle_started => inr (inr ())
          end)
    (λ o, match o with
          | inl (inl n) => sema_at n | inl (inr l) => sema_of_lock l
          | inr (inl t) => sema_of_waiter t | inr (inr _) => idle_started
          end) _).
  by intros [].
Defined.

#[global] Instance list_ptr_countable : Countable list_ptr.
Proof.
  refine (inj_countable'
    (λ l, match l with
          | ready_list => inl (inl 0%nat) | all_list => inl (inl 1%nat)
          | sleep_list => inl (inl 2%nat) | temp_list => inl (inl 3%nat)
          | mlfqs_list i => inl (inr i)
          | sema_waiters s => inr (inl (inl s)) | lock_waiters k => inr (inl (inr k))
          | cond_waiters c => inr (inr (inl c)) | locks_held t => inr (inr (inr t))
          end)
    (λ o, match o with
          | inl (inl 0%nat) => ready_list | inl (inl 1%nat) => all_list
          | inl (inl 2%nat) => sleep_list | inl (inl _) => temp_list
          | inl (inr i) => mlfqs_list i
          | inr (inl (inl s)) => sema_waiters s | inr (inl (inr k)) => lock_waiters k
          | inr (inr (inl c)) => cond_waiters c | inr (inr (inr t)) => locks_held t
          end) _).
  by intros [].
Defined.

(** [list_entry (e, struct thread, elem)] and its variants; a list element of
    another kind would yield a pointer into the wrong structure. *)
Definition entry_elem (e : elem_ptr) : option tptr :=
  match e with thread_elem t => Some t | _ => None end.
Definition entry_allelem (e : elem_ptr) : option tptr :=
  match e with thread_allelem t => Some t | _ => None end.
Definition entry_sleep_elem (e : elem_ptr) : option tptr :=
  match e with thread_sleep_elem t => Some t | _ => None end.
Definition entry_lock (e : elem_ptr) : option lock_ptr :=
  match e with lock_elem l => Some l | _ => None end.
Definition entry_waiter (e : elem_ptr) : option tptr :=
  match e with waiter_elem t => Some t | _ => None end.

(** * <list.h> *)

Class ListOps : Type := {
  lstore : Type;                   (* the prev/next links of all elements *)
  list_init : list_ptr → lstore → lstore;
  list_empty : list_ptr → lstore → bool;
  list_size : list_ptr → lstore → nat;
  list_front : list_ptr → lstore → elem_ptr;
  list_begin : list_ptr → lstore → option elem_ptr;  (* None is list_end *)
  list_next : elem_ptr → lstore → option elem_ptr;   (* None is list_end *)
  list_pop_front : list_ptr → lstore → elem_ptr * lstore;
  list_push_back : list_ptr → elem_ptr → lstore → lstore;
  list_insert_ordered :
    list_ptr → elem_ptr → (elem_ptr → elem_ptr → bool) → lstore → lstore;
  list_remove : elem_ptr → lstore → lstore;
  list_max : list_ptr → (elem_ptr → elem_ptr → bool) → lstore → elem_ptr
}.

(** What a list store looks like from outside: the initialised lists with their
    elements in order.  An element is in at most one list, at most once. *)
Abbreviation lview := (gmap list_ptr (list elem_ptr)).

Definition lists_wf (v : lview) : Prop :=
  map_Forall (λ _ xs, NoDup xs) v ∧
  map_Forall (λ l1 xs, map_Forall (λ l2 ys, l1 = l2 ∨ Forall (λ e, e ∉ ys) xs) v) v.

#[global] Instance lists_wf_dec v : Decision (lists_wf v).
Proof. apply _. Defined.

(** [e] is in no list. *)
Definition unlinked (v : lview) (e : elem_ptr) : Prop :=
  map_Forall (λ _ xs, e ∉ xs) v.

#[global] Instance unlinked_dec v e : Decision (unlinked v e).
Proof. apply _. Defined.

Lemma lists_wf_NoDup v l xs : lists_wf v → v !! l = Some xs → NoDup xs.
Proof. intros [H _] ?. by eapply H. Qed.

Lemma lists_wf_unique v l1 l2 xs ys e :
  lists_wf v → v !! l1 = Some xs → v !! l2 = Some ys → e ∈ xs → e ∈ ys → l1 = l2.
Proof.
  intros [_ H] H1 H2 He1 He2. destruct (H _ _ H1 _ _ H2) as [?|Hf]; [done|].
  rewrite Forall_forall in Hf. by destruct (Hf e).
Qed.

Lemma lists_wf_intro v :
  (∀ l xs, v !! l = Some xs → NoDup xs) →
  (∀ l1 l2 xs ys e, v !! l1 = Some xs → v !! l2 = Some ys →
     e ∈ xs → e ∈ ys → l1 = l2) →
  lists_wf v.
Proof.
  intros Hd Hu. split; [done|]. intros l1 xs H1 l2 ys H2.
  destruct (decide (l1 = l2)); [by left|right].
  apply Forall_forall. intros e He He'. eauto.
Qed.

(** Changing one list keeps the view well formed when its new elements are its
    own old ones or were in no list. *)
Lemma lists_wf_insert v l xs ys :
  lists_wf v → default [] (v !! l) = xs → NoDup ys →
  (∀ e, e ∈ ys → e ∈ xs ∨ unlinked v e) → lists_wf (<[l:=ys]> v).
Proof.
  intros Hwf Hl Hd Hys.
  assert (Hother : ∀ l2 zs e, l ≠ l2 → v !! l2 = Some zs → e ∈ ys → e ∈ zs → False).
  { intros l2 zs e Hne Hv He Hz. destruct (Hys e He) as [Hx|Hu].
    - destruct (v !! l) as [xs'|] eqn:E; simpl in Hl; subst; [|by apply elem_of_nil in Hx].
      apply Hne. by eapply lists_wf_unique.
    - by eapply Hu. }
  apply lists_wf_intro.
  - intros l' zs [[<- <-]|[? ?]]%lookup_insert_Some; [done|]. by eapply lists_wf_NoDup.
  - intros l1 l2 zs1 zs2 e [[<- <-]|[? ?]]%lookup_insert_Some
      [[<- <-]|[? ?]]%lookup_insert_Some ? ?; [done|exfalso..|]; eauto.
    by eapply lists_wf_unique.
Qed.

Class ListLaws (L : ListOps) : Type := {
  view : lstore → lview;
  view_wf s : lists_wf (view s);
  view_init l s : view (list_init l s) = <[l := []]> (view s);
  view_empty l xs s :
    view s !! l = Some xs → list_empty l s = bool_decide (xs = []);
  view_size l xs s : view s !! l = Some xs → list_size l s = length xs;
  view_front l e xs s : view s !! l = Some (e :: xs) → list_front l s = e;
  view_begin l xs s : view s !! l = Some xs → list_begin l s = head xs;
  view_next l xs ys e s :
    view s !! l = Some (xs ++ e :: ys) → list_next e s = head ys;
  view_pop_front l e xs s :
    view s !! l = Some (e :: xs) →
    (list_pop_front l s).1 = e ∧
    view (list_pop_front l s).2 = <[l := xs]> (view s);
  view_push_back l xs e s :
    view s !! l = Some xs → unlinked (view s) e →
    view (list_push_back l e s) = <[l := xs ++ [e]]> (view s);
  view_insert_ordered l xs e less s :
    view s !! l = Some xs → unlinked (view s) e →
    view (list_insert_ordered l e less s) =
      <[l := insert_before (less e) e xs]> (view s);
  view_remove l xs ys e s :
    view s !! l = Some (xs ++ e :: ys) →
    view (list_remove e s) = <[l := xs ++ ys]> (view s);
  view_max l xs (k : elem_ptr → Z) less s :
    view s !! l = Some xs → xs ≠ [] →
    (∀ x y, x ∈ xs → y ∈ xs → less x y = (k x <? k y)) →
    first_max k xs (list_max l less s)
}.

(** * threads/interrupt.h *)

Inductive intr_level : Type := INTR_OFF | INTR_ON.

#[global] Instance intr_level_eq_dec : EqDecision intr_level.
Proof. solve_decision. Defined.

Class IntrOps : Type := {
  istate : Type;
  intr_get_level : istate → intr_level;
  intr_set_level : intr_level → istate → istate;
  intr_disable : istate → intr_level * istate;   (* returns the old level *)
  intr_enable : istate → intr_level * istate;
  intr_context : istate → bool;                  (* in an external interrupt? *)
  intr_yield_on_return : istate → istate
}.

(** The processor's interrupt flag, whether an external interrupt is being
    handled, and whether its handler asked to yield before returning. *)
Record iview : Type := IView {
  iv_level : intr_level;
  iv_context : bool;
  iv_yield : bool
}.

Definition iv_set_level (l : intr_level) (v : iview) : iview :=
  IView l (iv_context v) (iv_yield v).

Class IntrLaws (I : IntrOps) : Type := {
  iv : istate → iview;
  iv_get s : intr_get_level s = iv_level (iv s);
  iv_ctx s : intr_context s = iv_context (iv s);
  iv_set l s : iv (intr_set_level l s) = iv_set_level l (iv s);
  iv_disable s :
    (intr_disable s).1 = iv_level (iv s) ∧
    iv (intr_disable s).2 = iv_set_level INTR_OFF (iv s);
  iv_enable s :
    iv_context (iv s) = false →
    (intr_enable s).1 = iv_level (iv s) ∧
    iv (intr_enable s).2 = iv_set_level INTR_ON (iv s);
  iv_yield_on_return s :
    iv_context (iv s) = true →
    iv (intr_yield_on_return s) = IView (iv_level (iv s)) true true
}.

(** * threads/palloc.h *)

Class PallocOps : Type := {
  pstate : Type;
  palloc_get_page : pstate → option tptr * pstate;   (* PAL_ZERO; None is NULL *)
  palloc_free_page : tptr → pstate → pstate
}.

Class PallocLaws (P : PallocOps) : Type := {
  pages_in_use : pstate → gset tptr;
  palloc_get_fresh s t s' :
    palloc_get_page s = (Some t, s') →
    (t ∉ pages_in_use s) ∧ pages_in_use s' = {[t]} ∪ pages_in_use s;
  palloc_get_null s s' :
    palloc_get_page s = (None, s') → pages_in_use s' = pages_in_use s;
  palloc_free_use t s :
    t ∈ pages_in_use s →
    pages_in_use (palloc_free_page t s) = pages_in_use s ∖ {[t]}
}.

(** The three of them, as one parameter. *)
Class Env : Type := {
  env_list :: ListOps;
  env_intr :: IntrOps;
  env_palloc :: PallocOps
}.

Class EnvLaws (E : Env) : Type := {
  env_list_laws :: ListLaws env_list;
  env_intr_laws :: IntrLaws env_intr;
  env_palloc_laws :: PallocLaws env_palloc
}.

(** * A concrete instance *)
Module Concrete.

(** The list store is its own view; a store that is not well formed counts as
    empty, and an operation outside its contract does nothing. *)
Definition norm (s : lview) : lview := if decide (lists_wf s) then s else ∅.

Definition at_list (l : list_ptr) (s : lview) : list elem_ptr := default [] (norm s !! l).

Definition put (ok : bool) (l : list_ptr) (xs : list elem_ptr) (s : lview) : lview :=
  if ok then <[l := xs]> (norm s) else norm s.

Definition free_elem (l : list_ptr) (e : elem_ptr) (s : lview) : bool :=
  bool_decide (is_Some (norm s !! l) ∧ unlinked (norm s) e).

(** The list [e] is in, and the elements after [e]. *)
Definition find_list (e : elem_ptr) (s : lview) : option (list_ptr * list elem_ptr) :=
  head (filter (λ p, e ∈ p.2) (map_to_list (norm s))).

Fixpoint after (e : elem_ptr) (xs : list elem_ptr) : option elem_ptr :=
  match xs with
  | [] => None
  | x :: xs' => if decide (x = e) then head xs' else after e xs'
  end.

Fixpoint max_by (less : elem_ptr → elem_ptr → bool) (m : elem_ptr) (xs : list elem_ptr)
    : elem_ptr :=
  match xs with
  | [] => m
  | x :: xs' => max_by less (if less m x then x else m) xs'
  end.

#[local] Instance map_lists : ListOps := {
  lstore := lview;
  list_init l s := put true l [] s;
  list_empty l s := bool_decide (at_list l s = []);
  list_size l s := length (at_list l s);
  list_front l s := default (thread_elem 1) (head (at_list l s));
  list_begin l s := head (at_list l s);
  list_next e s := '(_, xs) ← find_list e s; after e xs;
  list_pop_front l s :=
    (default (thread_elem 1) (head (at_list l s)),
     put (bool_decide (is_Some (norm s !! l))) l (tail (at_list l s)) s);
  list_push_back l e s := put (free_elem l e s) l (at_list l s ++ [e]) s;
  list_insert_ordered l e less s :=
    put (free_elem l e s) l (insert_before (less e) e (at_list l s)) s;
  list_remove e s :=
    match find_list e s with
    | Some (l, xs) => put true l (filter (.≠ e) xs) s
    | None => norm s
    end;
  list_max l less s :=
    match at_list l s with [] => thread_elem 1 | x :: xs => max_by less x xs end
}.

#[local] Instance flag_intr : IntrOps := {
  istate := iview;
  intr_get_level := iv_level;
  intr_set_level := iv_set_level;
  intr_disable v := (iv_level v, iv_set_level INTR_OFF v);
  intr_enable v := (iv_level v, iv_set_level INTR_ON v);
  intr_context := iv_context;
  intr_yield_on_return v := IView (iv_level v) (iv_context v) true
}.

(** Pages are handed out in order, never reused, up to a fixed number. *)
Record page_pool : Type := PagePool { pg_next : positive; pg_limit : positive; pg_used : gset tptr }.

Definition get_page (s : page_pool) : option tptr * page_pool :=
  if bool_decide (pg_next s < pg_limit s)%positive && bool_decide (pg_next s ∉ pg_used s)
  then (Some (pg_next s),
        PagePool (Pos.succ (pg_next s)) (pg_limit s) ({[pg_next s]} ∪ pg_used s))
  else (None, s).

#[local] Instance pool_palloc : PallocOps := {
  pstate := page_pool;
  palloc_get_page := get_page;
  palloc_free_page t s := PagePool (pg_next s) (pg_limit s) (pg_used s ∖ {[t]})
}.

#[local] Instance concrete_env : Env := {}.

Lemma norm_wf s : lists_wf (norm s).
Proof.
  unfold norm. case_decide; [done|]. split; apply map_Forall_empty.
Qed.

Lemma norm_id s : lists_wf s → norm s = s.
Proof. intros. unfold norm. by rewrite decide_True. Qed.

Lemma norm_put l xs ys s :
  default [] (norm s !! l) = xs → NoDup ys →
  (∀ e, e ∈ ys → e ∈ xs ∨ unlinked (norm s) e) →
  norm (put true l ys s) = <[l := ys]> (norm s).
Proof.
  intros. apply norm_id. simpl. eapply lists_wf_insert; eauto using norm_wf.
Qed.

Lemma at_list_Some l xs s : norm s !! l = Some xs → at_list l s = xs.
Proof. unfold at_list. by intros ->. Qed.

Lemma at_list_NoDup l xs s : norm s !! l = Some xs → NoDup xs.
Proof. apply lists_wf_NoDup, norm_wf. Qed.

Lemma free_elem_true l e xs s :
  norm s !! l = Some xs → unlinked (norm s) e → free_elem l e s = true.
Proof. intros E ?. apply bool_decide_eq_true. rewrite E. eauto. Qed.

Lemma unlinked_not_in l e xs s : norm s !! l = Some xs → unlinked (norm s) e → e ∉ xs.
Proof. intros ? Hu. by eapply Hu. Qed.

Lemma find_list_Some l xs ys e s :
  norm s !! l = Some (xs ++ e :: ys) → find_list e s = Some (l, xs ++ e :: ys).
Proof.
  intros E. unfold find_list.
  destruct (filter _ (map_to_list (norm s))) as [|[l' zs] rest] eqn:F; simpl.
  - exfalso. eapply (elem_of_nil (l, xs ++ e :: ys)). rewrite <- F.
    apply list_elem_of_filter. split; [simpl; set_solver|]. by apply elem_of_map_to_list.
  - assert (Hin : (l', zs) ∈ (l', zs) :: rest) by set_solver. rewrite <- F in Hin.
    apply list_elem_of_filter in Hin as [He Hm]. apply elem_of_map_to_list in Hm.
    assert (l' = l) as ->.
    { eapply lists_wf_unique; [apply (norm_wf s)|done|done|done|]. set_solver. }
    congruence.
Qed.

Lemma after_split e xs ys : e ∉ xs → after e (xs ++ e :: ys) = head ys.
Proof.
  induction xs as [|x xs IH]; simpl; intros H.
  - by rewrite decide_True.
  - rewrite decide_False by set_solver. apply IH. set_solver.
Qed.

Lemma filter_remove e (xs ys : list elem_ptr) :
  NoDup (xs ++ e :: ys) → filter (.≠ e) (xs ++ e :: ys) = xs ++ ys.
Proof.
  intros (? & Hd & [He ?]%NoDup_cons)%NoDup_app.
  assert (Hk : ∀ zs : list elem_ptr, e ∉ zs → filter (.≠ e) zs = zs).
  { induction zs as [|z zs IH]; intros; [done|].
    rewrite filter_cons_True by set_solver. f_equal. apply IH. set_solver. }
  rewrite filter_app, filter_cons_False by naive_solver.
  rewrite !Hk; [done|done|]. intros Hx. apply (Hd e Hx). set_solver.
Qed.

(** The scan of [max_by] keeps the earliest maximum of what it has seen. *)
Lemma max_by_first (k : elem_ptr → Z) less pre m i xs :
  (∀ x y, x ∈ pre ++ xs → y ∈ pre ++ xs → less x y = (k x <? k y)) →
  pre !! i = Some m →
  (∀ j x, pre !! j = Some x → k x ≤ k m ∧ (k x = k m → (i ≤ j)%nat)) →
  first_max k (pre ++ xs) (max_by less m xs).
Proof.
  revert pre m i. induction xs as [|x xs IH]; intros pre m i Hless Hi Hm; simpl.
  { rewrite app_nil_r. by exists i. }
  assert (Hmin : m ∈ pre ++ x :: xs).
  { apply elem_of_app. left. by eapply list_elem_of_lookup_2. }
  rewrite (Hless m x) by set_solver.
  rewrite (cons_middle x pre xs), (assoc_L (++)) in Hless |- *.
  pose proof (lookup_lt_Some _ _ _ Hi) as Hlt.
  destruct (Z.ltb_spec (k m) (k x)) as [Hlt'|Hge].
  - apply (IH _ x (length pre)); [done|by apply list_lookup_middle|].
    intros j y [Hj|[? Hj]]%lookup_app_Some.
    + destruct (Hm _ _ Hj). split; lia.
    + apply list_lookup_singleton_Some in Hj as [? <-]. lia.
  - apply (IH _ m i); [done|by apply lookup_app_l_Some|].
    intros j y [Hj|[? Hj]]%lookup_app_Some; [by eapply Hm|].
    apply list_lookup_singleton_Some in Hj as [? <-]. lia.
Qed.

#[local] Instance map_lists_laws : ListLaws map_lists.
Proof.
  refine {| view := norm |}; simpl.
  - apply norm_wf.
  - intros l s. eapply norm_put; [done|constructor|set_solver].
  - intros l xs s E. by rewrite (at_list_Some _ _ _ E).
  - intros l xs s E. by rewrite (at_list_Some _ _ _ E).
  - intros l e xs s E. by rewrite (at_list_Some _ _ _ E).
  - intros l xs s E. by rewrite (at_list_Some _ _ _ E).
  - intros l xs ys e s E. rewrite (find_list_Some _ _ _ _ _ E). simpl.
    apply after_split. apply at_list_NoDup in E.
    apply NoDup_app in E as (_ & Hd & _). intros Hx. apply (Hd e Hx). set_solver.
  - intros l e xs s E. rewrite (at_list_Some _ _ _ E). split; [done|].
    rewrite bool_decide_true by (rewrite E; eauto). simpl.
    pose proof (at_list_NoDup _ _ _ E) as Hd. apply NoDup_cons in Hd as [??].
    eapply (norm_put _ (e :: xs)); [by rewrite E|done|set_solver].
  - intros l xs e s E Hu. rewrite (free_elem_true _ _ _ _ E Hu), (at_list_Some _ _ _ E).
    pose proof (at_list_NoDup _ _ _ E). pose proof (unlinked_not_in _ _ _ _ E Hu).
    eapply (norm_put _ xs); [by rewrite E| |set_solver].
    apply NoDup_app. split_and!; [done|set_solver|apply NoDup_singleton].
  - intros l xs e less s E Hu.
    rewrite (free_elem_true _ _ _ _ E Hu), (at_list_Some _ _ _ E).
    pose proof (at_list_NoDup _ _ _ E). pose proof (unlinked_not_in _ _ _ _ E Hu).
    eapply (norm_put _ xs); [by rewrite E|by apply NoDup_insert_before|].
    intros x [->|?]%elem_of_insert_before; auto.
  - intros l xs ys e s E. rewrite (find_list_Some _ _ _ _ _ E).
    pose proof (at_list_NoDup _ _ _ E) as Hd. rewrite filter_remove by done.
    eapply (norm_put _ (xs ++ e :: ys)); [by rewrite E| |set_solver].
    apply NoDup_app in Hd as (? & Hd & [??]%NoDup_cons).
    apply NoDup_app. split_and!; [done|set_solver|done].
  - intros l xs k less s E Hne Hless. rewrite (at_list_Some _ _ _ E).
    destruct xs as [|x xs]; [done|].
    apply (max_by_first k less [x] x 0); [done|done|].
    intros j y [? <-]%list_lookup_singleton_Some. lia.
Defined.

#[local] Instance flag_intr_laws : IntrLaws flag_intr.
Proof.
  refine {| iv := λ v : istate, v |}; simpl; [done..|]. by intros [? c ?] [= ->].
Defined.

#[local] Instance pool_palloc_laws : PallocLaws pool_palloc.
Proof.
  refine {| pages_in_use := pg_used |}; simpl; unfold get_page.
  - intros s t s'. case_match eqn:E; [|done]. intros [= <- <-].
    apply andb_true_iff in E as [_ E%bool_decide_eq_true]. done.
  - intros s s'. case_match; [done|]. by intros [= <-].
  - done.
Defined.

#[local] Instance concrete_env_laws : EnvLaws concrete_env.
Proof. constructor; apply _. Defined.

End Concrete.
