(* ===== verification/Kernel.v ===== *)
(** The kernel state, the code that runs on it, and the program logic.

    [kst]: the memory of the kernel (struct thread of threads/thread.h, the
    static variables of thread.c and timer.c, the semaphores and locks), with
    the states of the three interfaces of Env.v.
    [K]: code that runs to completion without giving up the processor, a state
    and error monad.
    [prog]: code that may switch to another thread, a resumption: it performs
    [K] actions one after the other and at [Switch] leaves the processor, to
    continue when some thread switches back to it.
    [exec] runs a [prog] up to its end, a switch or a fault; [awp] and [apwp]
    are the total-correctness logics of [K] and [prog] over the views of the
    interfaces, so that a specification speaks of list contents and of the
    interrupt flag and holds in every environment that satisfies the laws. *)
From S2P Require Import Prelude Env.
From Stdlib Require Import FunctionalExtensionality.

(** * Data *)

Inductive thread_status : Type :=
  | THREAD_RUNNING
  | THREAD_READY
  | THREAD_BLOCKED
  | THREAD_DYING.

#[global] Instance thread_status_eq_dec : EqDecision thread_status.
Proof. solve_decision. Defined.

Definition TID_ERROR : Z := -1.
Definition PRI_MIN : Z := 0.
Definition PRI_DEFAULT : Z := 31.
Definition PRI_MAX : Z := 63.
Definition NICE_MIN : Z := -20.
Definition NICE_DEFAULT : Z := 0.
Definition NICE_MAX : Z := 20.
Definition RECENT_CPU_DEFAULT : Z := 0.
Definition THREAD_MAGIC : Z := 0xcd6abf4b.

(** Function pointers ([thread_func *]) and their [void *aux]. *)
Inductive fn_ptr : Type :=
  | fn_idle
  | fn_sema_test_helper
  | fn_user (n : positive).

Inductive aux_ptr : Type :=
  | aux_null
  | aux_sema (s : sema_ptr)
  | aux_val (z : Z).

(** The frame [kernel_thread] starts from, at the top of the stack page. *)
Record kernel_thread_frame : Type := KFrame {
  kf_function : fn_ptr;
  kf_aux : aux_ptr
}.

(** [struct thread].  Its list elements and its list [locks_held] live in the
    list store, under [thread_elem t], [thread_allelem t], [thread_sleep_elem t]
    and [locks_held t]; [stack] is the offset of the saved stack pointer from
    the start of the page. *)
Record thread : Type := Thread {
  wakeup_tick : Z;
  tid : Z;
  status : thread_status;
  name : string;
  stack : Z;
  priority : Z;
  base_priority : Z;
  effective_priority : Z;
  waiting_lock : option lock_ptr;
  nice : Z;
  recent_cpu : Z;
  magic : Z;
  kframe : option kernel_thread_frame
}.

(** Field assignments [t->f = x]. *)
Definition with_wakeup_tick (x : Z) (t : thread) : thread :=
  Thread x (tid t) (status t) (name t) (stack t) (priority t) (base_priority t)
    (effective_priority t) (waiting_lock t) (nice t) (recent_cpu t) (magic t) (kframe t).
Definition with_tid (x : Z) (t : thread) : thread :=
  Thread (wakeup_tick t) x (status t) (name t) (stack t) (priority t) (base_priority t)
    (effective_priority t) (waiting_lock t) (nice t) (recent_cpu t) (magic t) (kframe t).
Definition with_status (x : thread_status) (t : thread) : thread :=
  Thread (wakeup_tick t) (tid t) x (name t) (stack t) (priority t) (base_priority t)
    (effective_priority t) (waiting_lock t) (nice t) (recent_cpu t) (magic t) (kframe t).
Definition with_stack (x : Z) (t : thread) : thread :=
  Thread (wakeup_tick t) (tid t) (status t) (name t) x (priority t) (base_priority t)
    (effective_priority t) (waiting_lock t) (nice t) (recent_cpu t) (magic t) (kframe t).
Definition with_priority (x : Z) (t : thread) : thread :=
  Thread (wakeup_tick t) (tid t) (status t) (name t) (stack t) x (base_priority t)
    (effective_priority t) (waiting_lock t) (nice t) (recent_cpu t) (magic t) (kframe t).
Definition with_base_priority (x : Z) (t : thread) : thread :=
  Thread (wakeup_tick t) (tid t) (status t) (name t) (stack t) (priority t) x
    (effective_priority t) (waiting_lock t) (nice t) (recent_cpu t) (magic t) (kframe t).
Definition with_effective_priority (x : Z) (t : thread) : thread :=
  Thread (wakeup_tick t) (tid t) (status t) (name t) (stack t) (priority t)
    (base_priority t) x (waiting_lock t) (nice t) (recent_cpu t) (magic t) (kframe t).
Definition with_waiting_lock (x : option lock_ptr) (t : thread) : thread :=
  Thread (wakeup_tick t) (tid t) (status t) (name t) (stack t) (priority t)
    (base_priority t) (effective_priority t) x (nice t) (recent_cpu t) (magic t) (kframe t).
Definition with_nice (x : Z) (t : thread) : thread :=
  Thread (wakeup_tick t) (tid t) (status t) (name t) (stack t) (priority t)
    (base_priority t) (effective_priority t) (waiting_lock t) x (recent_cpu t) (magic t)
    (kframe t).
Definition with_recent_cpu (x : Z) (t : thread) : thread :=
  Thread (wakeup_tick t) (tid t) (status t) (name t) (stack t) (priority t)
    (base_priority t) (effective_priority t) (waiting_lock t) (nice t) x (magic t) (kframe t).
Definition with_kframe (x : option kernel_thread_frame) (t : thread) : thread :=
  Thread (wakeup_tick t) (tid t) (status t) (name t) (stack t) (priority t)
    (base_priority t) (effective_priority t) (waiting_lock t) (nice t) (recent_cpu t)
    (magic t) x.

(** The kernel's memory.  [L], [I] and [P] are the states of the list store, of
    the interrupt flag and of the page allocator: the operations' own states
    when the code runs, their views in specifications.  [running] is the thread
    whose page the stack pointer is in. *)
Record kst (L I P : Type) : Type := KSt {
  lists : L;
  intr : I;
  pages : P;
  threads : gmap tptr thread;
  semas : gmap sema_ptr Z;                       (* struct semaphore: value *)
  holders : gmap lock_ptr (option tptr);         (* struct lock: holder *)
  running : tptr;
  idle_thread : option tptr;
  initial_thread : option tptr;
  idle_ticks : Z;
  kernel_ticks : Z;
  user_ticks : Z;
  thread_ticks : Z;
  thread_mlfqs : bool;
  load_avg : Z;
  next_tid : Z;
  ticks : Z;
  loops_per_tick : Z
}.
Arguments KSt {L I P}.
Arguments lists {L I P}.
Arguments intr {L I P}.
Arguments pages {L I P}.
Arguments threads {L I P}.
Arguments semas {L I P}.
Arguments holders {L I P}.
Arguments running {L I P}.
Arguments idle_thread {L I P}.
Arguments initial_thread {L I P}.
Arguments idle_ticks {L I P}.
Arguments kernel_ticks {L I P}.
Arguments user_ticks {L I P}.
Arguments thread_ticks {L I P}.
Arguments thread_mlfqs {L I P}.
Arguments load_avg {L I P}.
Arguments next_tid {L I P}.
Arguments ticks {L I P}.
Arguments loops_per_tick {L I P}.

(** Assignments to the state's components. *)
Definition set_lists {L I P X} (x : X) (s : kst L I P) : kst X I P :=
  KSt x (intr s) (pages s) (threads s) (semas s) (holders s) (running s) (idle_thread s)
    (initial_thread s) (idle_ticks s) (kernel_ticks s) (user_ticks s) (thread_ticks s)
    (thread_mlfqs s) (load_avg s) (next_tid s) (ticks s) (loops_per_tick s).
Definition set_intr {L I P X} (x : X) (s : kst L I P) : kst L X P :=
  KSt (lists s) x (pages s) (threads s) (semas s) (holders s) (running s)
    (idle_thread s) (initial_thread s) (idle_ticks s) (kernel_ticks s) (user_ticks s)
    (thread_ticks s) (thread_mlfqs s) (load_avg s) (next_tid s) (ticks s)
    (loops_per_tick s).
Definition set_pages {L I P X} (x : X) (s : kst L I P) : kst L I X :=
  KSt (lists s) (intr s) x (threads s) (semas s) (holders s) (running s) (idle_thread s)
    (initial_thread s) (idle_ticks s) (kernel_ticks s) (user_ticks s) (thread_ticks s)
    (thread_mlfqs s) (load_avg s) (next_tid s) (ticks s) (loops_per_tick s).
Definition set_threads {L I P} (x : gmap tptr thread) (s : kst L I P) : kst L I P :=
  KSt (lists s) (intr s) (pages s) x (semas s) (holders s) (running s) (idle_thread s)
    (initial_thread s) (idle_ticks s) (kernel_ticks s) (user_ticks s) (thread_ticks s)
    (thread_mlfqs s) (load_avg s) (next_tid s) (ticks s) (loops_per_tick s).
Definition set_semas {L I P} (x : gmap sema_ptr Z) (s : kst L I P) : kst L I P :=
  KSt (lists s) (intr s) (pages s) (threads s) x (holders s) (running s) (idle_thread s)
    (initial_thread s) (idle_ticks s) (kernel_ticks s) (user_ticks s) (thread_ticks s)
    (thread_mlfqs s) (load_avg s) (next_tid s) (ticks s) (loops_per_tick s).
Definition set_holders {L I P} (x : gmap lock_ptr (option tptr)) (s : kst L I P) : kst L I P :=
  KSt (lists s) (intr s) (pages s) (threads s) (semas s) x (running s) (idle_thread s)
    (initial_thread s) (idle_ticks s) (kernel_ticks s) (user_ticks s) (thread_ticks s)
    (thread_mlfqs s) (load_avg s) (next_tid s) (ticks s) (loops_per_tick s).
Definition set_running {L I P} (x : tptr) (s : kst L I P) : kst L I P :=
  KSt (lists s) (intr s) (pages s) (threads s) (semas s) (holders s) x (idle_thread s)
    (initial_thread s) (idle_ticks s) (kernel_ticks s) (user_ticks s) (thread_ticks s)
    (thread_mlfqs s) (load_avg s) (next_tid s) (ticks s) (loops_per_tick s).
Definition set_idle_thread {L I P} (x : option tptr) (s : kst L I P) : kst L I P :=
  KSt (lists s) (intr s) (pages s) (threads s) (semas s) (holders s) (running s) x
    (initial_thread s) (idle_ticks s) (kernel_ticks s) (user_ticks s) (thread_ticks s)
    (thread_mlfqs s) (load_avg s) (next_tid s) (ticks s) (loops_per_tick s).
Definition set_initial_thread {L I P} (x : option tptr) (s : kst L I P) : kst L I P :=
  KSt (lists s) (intr s) (pages s) (threads s) (semas s) (holders s) (running s)
    (idle_thread s) x (idle_ticks s) (kernel_ticks s) (user_ticks s) (thread_ticks s)
    (thread_mlfqs s) (load_avg s) (next_tid s) (ticks s) (loops_per_tick s).
Definition set_idle_ticks {L I P} (x : Z) (s : kst L I P) : kst L I P :=
  KSt (lists s) (intr s) (pages s) (threads s) (semas s) (holders s) (running s)
    (idle_thread s) (initial_thread s) x (kernel_ticks s) (user_ticks s)
    (thread_ticks s) (thread_mlfqs s) (load_avg s) (next_tid s) (ticks s)
    (loops_per_tick s).
Definition set_kernel_ticks {L I P} (x : Z) (s : kst L I P) : kst L I P :=
  KSt (lists s) (intr s) (pages s) (threads s) (semas s) (holders s) (running s)
    (idle_thread s) (initial_thread s) (idle_ticks s) x (user_ticks s) (thread_ticks s)
    (thread_mlfqs s) (load_avg s) (next_tid s) (ticks s) (loops_per_tick s).
Definition set_user_ticks {L I P} (x : Z) (s : kst L I P) : kst L I P :=
  KSt (lists s) (intr s) (pages s) (threads s) (semas s) (holders s) (running s)
    (idle_thread s) (initial_thread s) (idle_ticks s) (kernel_ticks s) x
    (thread_ticks s) (thread_mlfqs s) (load_avg s) (next_tid s) (ticks s)
    (loops_per_tick s).
Definition set_thread_ticks {L I P} (x : Z) (s : kst L I P) : kst L I P :=
  KSt (lists s) (intr s) (pages s) (threads s) (semas s) (holders s) (running s)
    (idle_thread s) (initial_thread s) (idle_ticks s) (kernel_ticks s) (user_ticks s) x
    (thread_mlfqs s) (load_avg s) (next_tid s) (ticks s) (loops_per_tick s).
Definition set_thread_mlfqs {L I P} (x : bool) (s : kst L I P) : kst L I P :=
  KSt (lists s) (intr s) (pages s) (threads s) (semas s) (holders s) (running s)
    (idle_thread s) (initial_thread s) (idle_ticks s) (kernel_ticks s) (user_ticks s)
    (thread_ticks s) x (load_avg s) (next_tid s) (ticks s) (loops_per_tick s).
Definition set_load_avg {L I P} (x : Z) (s : kst L I P) : kst L I P :=
  KSt (lists s) (intr s) (pages s) (threads s) (semas s) (holders s) (running s)
    (idle_thread s) (initial_thread s) (idle_ticks s) (kernel_ticks s) (user_ticks s)
    (thread_ticks s) (thread_mlfqs s) x (next_tid s) (ticks s) (loops_per_tick s).
Definition set_next_tid {L I P} (x : Z) (s : kst L I P) : kst L I P :=
  KSt (lists s) (intr s) (pages s) (threads s) (semas s) (holders s) (running s)
    (idle_thread s) (initial_thread s) (idle_ticks s) (kernel_ticks s) (user_ticks s)
    (thread_ticks s) (thread_mlfqs s) (load_avg s) x (ticks s) (loops_per_tick s).
Definition set_ticks {L I P} (x : Z) (s : kst L I P) : kst L I P :=
  KSt (lists s) (intr s) (pages s) (threads s) (semas s) (holders s) (running s)
    (idle_thread s) (initial_thread s) (idle_ticks s) (kernel_ticks s) (user_ticks s)
    (thread_ticks s) (thread_mlfqs s) (load_avg s) (next_tid s) x (loops_per_tick s).
Definition set_loops_per_tick {L I P} (x : Z) (s : kst L I P) : kst L I P :=
  KSt (lists s) (intr s) (pages s) (threads s) (semas s) (holders s) (running s)
    (idle_thread s) (initial_thread s) (idle_ticks s) (kernel_ticks s) (user_ticks s)
    (thread_ticks s) (thread_mlfqs s) (load_avg s) (next_tid s) (ticks s) x.

(** * Code that keeps the processor *)

Abbreviation kstate := (kst lstore istate pstate).
Abbreviation aview := (kst lview iview (gset tptr)).

Definition K `{E : Env} (A : Type) : Type := kstate → res (A * kstate).

#[global] Instance K_ret `{E : Env} : MRet K := λ A a s, Ok (a, s).
#[global] Instance K_bind `{E : Env} : MBind K :=
  λ A B f m s, match m s with Ok (a, s') => f a s' | Err e => Err e end.

Section primitives.
Context {E : Env}.

Definition fail {A} (e : error) : K A := λ _, Err e.
Definition ASSERT (b : bool) (site : string) : K unit :=
  if b then mret () else fail (EAssert site).
Definition lift_res {A} (r : res A) : K A := λ s, match r with Ok a => Ok (a, s) | Err e => Err e end.
Definition lift_opt {A} (e : error) (o : option A) : K A :=
  match o with Some a => mret a | None => fail e end.

Definition gets {A} (f : kstate → A) : K A := λ s, Ok (f s, s).
Definition modify (f : kstate → kstate) : K unit := λ s, Ok ((), f s).

(** [*t], [t->field = ...]; a freed or NULL page is not mapped. *)
Definition deref (t : tptr) : K thread :=
  λ s, match threads s !! t with Some th => Ok (th, s) | None => Err EBadPtr end.
Definition store (t : tptr) (f : thread → thread) : K unit :=
  λ s, match threads s !! t with
       | Some th => Ok ((), set_threads (<[t := f th]> (threads s)) s)
       | None => Err EBadPtr
       end.
Definition sema_value (sm : sema_ptr) : K Z :=
  λ s, match semas s !! sm with Some v => Ok (v, s) | None => Err EBadPtr end.
Definition set_sema_value (sm : sema_ptr) (v : Z) : K unit :=
  modify (λ s, set_semas (<[sm := v]> (semas s)) s).
Definition lock_holder (l : lock_ptr) : K (option tptr) :=
  λ s, match holders s !! l with Some h => Ok (h, s) | None => Err EBadPtr end.
Definition set_lock_holder (l : lock_ptr) (h : option tptr) : K unit :=
  modify (λ s, set_holders (<[l := h]> (holders s)) s).

(** Calls of the list library. *)
Definition k_list_init (l : list_ptr) : K unit :=
  modify (λ s, set_lists (list_init l (lists s)) s).
Definition k_list_empty (l : list_ptr) : K bool := gets (λ s, list_empty l (lists s)).
Definition k_list_size (l : list_ptr) : K nat := gets (λ s, list_size l (lists s)).
Definition k_list_front (l : list_ptr) : K elem_ptr := gets (λ s, list_front l (lists s)).
Definition k_list_begin (l : list_ptr) : K (option elem_ptr) :=
  gets (λ s, list_begin l (lists s)).
Definition k_list_next (e : elem_ptr) : K (option elem_ptr) :=
  gets (λ s, list_next e (lists s)).
Definition k_list_pop_front (l : list_ptr) : K elem_ptr :=
  λ s, let '(e, ls) := list_pop_front l (lists s) in Ok (e, set_lists ls s).
Definition k_list_push_back (l : list_ptr) (e : elem_ptr) : K unit :=
  modify (λ s, set_lists (list_push_back l e (lists s)) s).
Definition k_list_remove (e : elem_ptr) : K unit :=
  modify (λ s, set_lists (list_remove e (lists s)) s).
(** A comparison function reads the structures its arguments are part of. *)
Definition k_list_insert_ordered (l : list_ptr) (e : elem_ptr)
    (less : gmap tptr thread → elem_ptr → elem_ptr → bool) : K unit :=
  modify (λ s, set_lists (list_insert_ordered l e (less (threads s)) (lists s)) s).
Definition k_list_max (l : list_ptr) (less : kstate → elem_ptr → elem_ptr → bool)
    : K elem_ptr :=
  gets (λ s, list_max l (less s) (lists s)).

(** [for (e = list_begin (l); e != list_end (l); e = list_next (e))], with the
    number of iterations bounded by the size the list has on entry. *)
Fixpoint list_for_from (n : nat) (e : option elem_ptr) (body : elem_ptr → K unit)
    : K unit :=
  match e with
  | None => mret ()
  | Some e =>
      match n with
      | O => fail EOutOfFuel
      | S n => body e;; e' ← k_list_next e; list_for_from n e' body
      end
  end.

Definition list_for (l : list_ptr) (body : elem_ptr → K unit) : K unit :=
  n ← k_list_size l; e ← k_list_begin l; list_for_from n e body.

(** The same with [e = list_next (e)] before the body, which may remove [e]. *)
Fixpoint list_for_safe_from (n : nat) (e : option elem_ptr) (body : elem_ptr → K unit)
    : K unit :=
  match e with
  | None => mret ()
  | Some e =>
      match n with
      | O => fail EOutOfFuel
      | S n => e' ← k_list_next e; body e;; list_for_safe_from n e' body
      end
  end.

Definition list_for_safe (l : list_ptr) (body : elem_ptr → K unit) : K unit :=
  n ← k_list_size l; e ← k_list_begin l; list_for_safe_from n e body.

(** [while (!list_empty (l)) body], where the body takes elements off [l]. *)
Fixpoint while_nonempty (n : nat) (l : list_ptr) (body : K unit) : K unit :=
  b ← k_list_empty l;
  if (b : bool) then mret ()
  else match n with O => fail EOutOfFuel | S n => body;; while_nonempty n l body end.

(** [for (i = ...; ...; ...) body] over a fixed range of subscripts. *)
Fixpoint for_each {A} (xs : list A) (body : A → K unit) : K unit :=
  match xs with [] => mret () | x :: xs => body x;; for_each xs body end.

(** Calls of the interrupt library. *)
Definition k_intr_get_level : K intr_level := gets (λ s, intr_get_level (intr s)).
Definition k_intr_set_level (l : intr_level) : K unit :=
  modify (λ s, set_intr (intr_set_level l (intr s)) s).
Definition k_intr_disable : K intr_level :=
  λ s, let '(l, i) := intr_disable (intr s) in Ok (l, set_intr i s).
Definition k_intr_enable : K intr_level :=
  λ s, let '(l, i) := intr_enable (intr s) in Ok (l, set_intr i s).
Definition k_intr_context : K bool := gets (λ s, intr_context (intr s)).
Definition k_intr_yield_on_return : K unit :=
  modify (λ s, set_intr (intr_yield_on_return (intr s)) s).

(** Calls of the page allocator. *)
Definition k_palloc_get_page : K (option tptr) :=
  λ s, let '(t, p) := palloc_get_page (pages s) in Ok (t, set_pages p s).
Definition k_palloc_free_page (t : tptr) : K unit :=
  modify (λ s, set_threads (delete t (threads s)) (set_pages (palloc_free_page t (pages s)) s)).

(** Static variables. *)
Definition get_running : K tptr := gets running.
Definition get_idle_thread : K (option tptr) := gets idle_thread.
Definition get_initial_thread : K (option tptr) := gets initial_thread.
Definition get_thread_mlfqs : K bool := gets thread_mlfqs.
Definition get_load_avg : K Z := gets load_avg.
Definition get_thread_ticks : K Z := gets thread_ticks.
Definition get_next_tid : K Z := gets next_tid.
Definition get_ticks : K Z := gets ticks.
Definition get_loops_per_tick : K Z := gets loops_per_tick.
Definition put_load_avg (x : Z) : K unit := modify (set_load_avg x).
Definition put_thread_ticks (x : Z) : K unit := modify (set_thread_ticks x).
Definition put_next_tid (x : Z) : K unit := modify (set_next_tid x).
Definition put_ticks (x : Z) : K unit := modify (set_ticks x).
Definition put_loops_per_tick (x : Z) : K unit := modify (set_loops_per_tick x).
Definition put_idle_thread (x : option tptr) : K unit := modify (set_idle_thread x).
Definition put_initial_thread (x : option tptr) : K unit := modify (set_initial_thread x).
End primitives.

(** * The logic of [K] *)

Section awp.
Context {E : Env} {EL : EnvLaws E}.

(** What a kernel state looks like through the views. *)
Definition obs (s : kstate) : aview :=
  set_lists (view (lists s)) (set_intr (iv (intr s)) (set_pages (pages_in_use (pages s)) s)).

(** [m] run in state [s] does not fault, and [Q] holds of its result and of
    what the state then looks like. *)
Definition holds_at {A} (m : K A) (Q : A → aview → Prop) (s : kstate) : Prop :=
  match m s with Ok (x, s') => Q x (obs s') | Err _ => False end.

(** The same in every state that looks like [a]. *)
Definition awp {A} (m : K A) (Q : A → aview → Prop) (a : aview) : Prop :=
  ∀ s, obs s = a → holds_at m Q s.

Lemma holds_mono {A} (m : K A) (Q Q' : A → aview → Prop) s :
  holds_at m Q s → (∀ x a', Q x a' → Q' x a') → holds_at m Q' s.
Proof. unfold holds_at. intros H HQ. destruct (m s) as [[]|]; auto. Qed.

Lemma awp_holds {A} (m : K A) Q s : awp m Q (obs s) → holds_at m Q s.
Proof. intros H. by apply H. Qed.

Lemma awp_mono {A} (m : K A) (Q Q' : A → aview → Prop) a :
  awp m Q a → (∀ x a', Q x a' → Q' x a') → awp m Q' a.
Proof. intros H HQ s Hs. eapply holds_mono; eauto. Qed.

Lemma awp_ret {A} (x : A) Q a : Q x a → awp (mret x) Q a.
Proof. by intros ? ? <-. Qed.

Lemma awp_bind {A B} (m : K A) (k : A → K B) Q a :
  awp m (λ x a', awp (k x) Q a') a → awp (m ≫= k) Q a.
Proof.
  intros H s Hs. specialize (H s Hs). unfold holds_at, mbind, K_bind in *.
  destruct (m s) as [[x s']|]; [by apply H|done].
Qed.

Lemma awp_gets {A} (f : kstate → A) x Q a :
  (∀ s, obs s = a → f s = x) → Q x a → awp (gets f) Q a.
Proof. intros Hf HQ s Hs. unfold holds_at. simpl. by rewrite (Hf s Hs), Hs. Qed.

Lemma awp_modify (f : kstate → kstate) a' Q a :
  (∀ s, obs s = a → obs (f s) = a') → Q () a' → awp (modify f) Q a.
Proof. intros Hf HQ s Hs. unfold holds_at. simpl. by rewrite (Hf s Hs). Qed.

Lemma awp_ASSERT b site Q a : b = true → Q () a → awp (ASSERT b site) Q a.
Proof. intros ->. apply awp_ret. Qed.

Lemma awp_lift_res {A} (r : res A) x Q a : r = Ok x → Q x a → awp (lift_res r) Q a.
Proof. by intros -> ? ? <-. Qed.

Lemma awp_lift_opt {A} e (o : option A) x Q a : o = Some x → Q x a → awp (lift_opt e o) Q a.
Proof. intros ->. apply awp_ret. Qed.

Lemma awp_deref t th Q a : threads a !! t = Some th → Q th a → awp (deref t) Q a.
Proof. intros Ht HQ s <-. unfold holds_at, deref. simpl in Ht. by rewrite Ht. Qed.

Lemma awp_store t f th Q a :
  threads a !! t = Some th →
  Q () (set_threads (<[t := f th]> (threads a)) a) → awp (store t f) Q a.
Proof. intros Ht HQ s <-. unfold holds_at, store. simpl in Ht. by rewrite Ht. Qed.

Lemma awp_sema_value sm v Q a : semas a !! sm = Some v → Q v a → awp (sema_value sm) Q a.
Proof. intros Ht HQ s <-. unfold holds_at, sema_value. simpl in Ht. by rewrite Ht. Qed.

Lemma awp_set_sema_value sm v Q a :
  Q () (set_semas (<[sm := v]> (semas a)) a) → awp (set_sema_value sm v) Q a.
Proof. by intros ? ? <-. Qed.

Lemma awp_lock_holder l h Q a :
  holders a !! l = Some h → Q h a → awp (lock_holder l) Q a.
Proof. intros Ht HQ s <-. unfold holds_at, lock_holder. simpl in Ht. by rewrite Ht. Qed.

Lemma awp_set_lock_holder l h Q a :
  Q () (set_holders (<[l := h]> (holders a)) a) → awp (set_lock_holder l h) Q a.
Proof. by intros ? ? <-. Qed.

Lemma obs_lists_wf s : lists_wf (lists (obs s)).
Proof. apply view_wf. Qed.

Lemma awp_wf {A} (m : K A) Q a : (lists_wf (lists a) → awp m Q a) → awp m Q a.
Proof. intros H s Hs. apply H; [|done]. rewrite <- Hs. apply obs_lists_wf. Qed.

(** The list library. *)
Lemma awp_list_init l Q a :
  Q () (set_lists (<[l := []]> (lists a)) a) → awp (k_list_init l) Q a.
Proof. apply awp_modify. intros s <-. unfold obs. simpl. by rewrite view_init. Qed.

Lemma awp_list_empty l xs Q a :
  lists a !! l = Some xs → Q (bool_decide (xs = [])) a → awp (k_list_empty l) Q a.
Proof. intros Hl. apply awp_gets. intros s <-. by apply view_empty. Qed.

Lemma awp_list_size l xs Q a :
  lists a !! l = Some xs → Q (length xs) a → awp (k_list_size l) Q a.
Proof. intros Hl. apply awp_gets. intros s <-. by apply view_size. Qed.

Lemma awp_list_front l e xs Q a :
  lists a !! l = Some (e :: xs) → Q e a → awp (k_list_front l) Q a.
Proof. intros Hl. apply awp_gets. intros s <-. by eapply view_front. Qed.

Lemma awp_list_begin l xs Q a :
  lists a !! l = Some xs → Q (head xs) a → awp (k_list_begin l) Q a.
Proof. intros Hl. apply awp_gets. intros s <-. by apply view_begin. Qed.

Lemma awp_list_next l xs ys e Q a :
  lists a !! l = Some (xs ++ e :: ys) → Q (head ys) a → awp (k_list_next e) Q a.
Proof. intros Hl. apply awp_gets. intros s <-. by eapply view_next. Qed.

Lemma awp_list_pop_front l e xs Q a :
  lists a !! l = Some (e :: xs) →
  Q e (set_lists (<[l := xs]> (lists a)) a) → awp (k_list_pop_front l) Q a.
Proof.
  intros Hl HQ s <-. unfold holds_at, k_list_pop_front.
  destruct (view_pop_front l e xs (lists s) Hl) as [H1 H2].
  destruct (list_pop_front l (lists s)) as [e' ls]. simpl in *. subst e'.
  unfold obs. simpl. by rewrite H2.
Qed.

Lemma awp_list_push_back l xs e Q a :
  lists a !! l = Some xs → unlinked (lists a) e →
  Q () (set_lists (<[l := xs ++ [e]]> (lists a)) a) → awp (k_list_push_back l e) Q a.
Proof.
  intros Hl Hu. apply awp_modify. intros s <-. unfold obs. simpl.
  by rewrite (view_push_back _ xs).
Qed.

Lemma awp_list_insert_ordered l xs e less Q a :
  lists a !! l = Some xs → unlinked (lists a) e →
  Q () (set_lists (<[l := insert_before (less (threads a) e) e xs]> (lists a)) a) →
  awp (k_list_insert_ordered l e less) Q a.
Proof.
  intros Hl Hu. apply awp_modify. intros s <-. unfold obs. simpl.
  by rewrite (view_insert_ordered _ xs).
Qed.

Lemma awp_list_remove l xs ys e Q a :
  lists a !! l = Some (xs ++ e :: ys) →
  Q () (set_lists (<[l := xs ++ ys]> (lists a)) a) → awp (k_list_remove e) Q a.
Proof.
  intros Hl. apply awp_modify. intros s <-. unfold obs. simpl.
  by rewrite (view_remove _ _ _ _ _ Hl).
Qed.

Lemma awp_list_max l xs k less Q a :
  lists a !! l = Some xs → xs ≠ [] →
  (∀ s, obs s = a → ∀ x y, x ∈ xs → y ∈ xs → less s x y = (k x <? k y)) →
  (∀ m, first_max k xs m → Q m a) → awp (k_list_max l less) Q a.
Proof.
  intros Hl Hne Hless HQ s Hs. unfold holds_at. simpl. rewrite Hs. apply HQ.
  apply view_max; [by subst a|done|by apply Hless].
Qed.

(** Iteration over a list whose elements the body leaves in place: [Inv]
    holds of the elements visited so far. *)
Lemma awp_list_for_from l xs body (Inv : list elem_ptr → aview → Prop) Q n pre post a :
  xs = pre ++ post → (length post ≤ n)%nat → lists a !! l = Some xs → Inv pre a →
  (∀ pre' e post' a', xs = pre' ++ e :: post' → lists a' !! l = Some xs → Inv pre' a' →
     awp (body e) (λ _ a'', lists a'' !! l = Some xs ∧ Inv (pre' ++ [e]) a'') a') →
  (∀ a', lists a' !! l = Some xs → Inv xs a' → Q () a') →
  awp (list_for_from n (head post) body) Q a.
Proof.
  revert n pre a. induction post as [|e post IH]; intros n pre a Hxs Hn Hl Hpre Hbody HQ.
  { destruct n; apply awp_ret, HQ; auto; by rewrite Hxs, app_nil_r. }
  destruct n as [|n]; simpl in Hn; [lia|]. simpl.
  apply awp_bind. eapply awp_mono; [by eapply Hbody|].
  intros [] a' [Hl' Hinv]. apply awp_bind. eapply awp_list_next; [by rewrite Hl', Hxs|].
  eapply (IH n (pre ++ [e])); eauto; [by rewrite <- (assoc_L (++))|lia].
Qed.

Lemma awp_list_for l xs body (Inv : list elem_ptr → aview → Prop) Q a :
  lists a !! l = Some xs → Inv [] a →
  (∀ pre' e post' a', xs = pre' ++ e :: post' → lists a' !! l = Some xs → Inv pre' a' →
     awp (body e) (λ _ a'', lists a'' !! l = Some xs ∧ Inv (pre' ++ [e]) a'') a') →
  (∀ a', lists a' !! l = Some xs → Inv xs a' → Q () a') →
  awp (list_for l body) Q a.
Proof.
  intros Hl H0 Hbody HQ. unfold list_for.
  apply awp_bind. eapply awp_list_size; [done|].
  apply awp_bind. eapply awp_list_begin; [done|].
  by eapply (awp_list_for_from l xs _ Inv _ _ []).
Qed.

(** Iteration that may remove the current element. *)
Lemma awp_list_for_safe_from l body (Inv : list elem_ptr → list elem_ptr → aview → Prop)
    Q n kept post a :
  (length post ≤ n)%nat → lists a !! l = Some (kept ++ post) → Inv kept post a →
  (∀ kept' e post' a', lists a' !! l = Some (kept' ++ e :: post') →
     Inv kept' (e :: post') a' →
     awp (body e) (λ _ a'', ∃ kept'', lists a'' !! l = Some (kept'' ++ post') ∧
                                      Inv kept'' post' a'') a') →
  (∀ kept' a', lists a' !! l = Some kept' → Inv kept' [] a' → Q () a') →
  awp (list_for_safe_from n (head post) body) Q a.
Proof.
  revert n kept a. induction post as [|e post IH]; intros n kept a Hn Hl Hinv Hbody HQ.
  { rewrite app_nil_r in Hl. destruct n; apply awp_ret; eauto. }
  destruct n as [|n]; simpl in Hn; [lia|]. simpl.
  apply awp_bind. eapply awp_list_next; [done|].
  apply awp_bind. eapply awp_mono; [by eapply Hbody|].
  intros [] a' (kept'' & Hl' & Hinv'). eapply (IH n kept''); eauto. lia.
Qed.

Lemma awp_list_for_safe l xs body (Inv : list elem_ptr → list elem_ptr → aview → Prop) Q a :
  lists a !! l = Some xs → Inv [] xs a →
  (∀ kept e post a', lists a' !! l = Some (kept ++ e :: post) → Inv kept (e :: post) a' →
     awp (body e) (λ _ a'', ∃ kept', lists a'' !! l = Some (kept' ++ post) ∧
                                     Inv kept' post a'') a') →
  (∀ kept a', lists a' !! l = Some kept → Inv kept [] a' → Q () a') →
  awp (list_for_safe l body) Q a.
Proof.
  intros Hl H0 Hbody HQ. unfold list_for_safe.
  apply awp_bind. eapply awp_list_size; [done|].
  apply awp_bind. eapply awp_list_begin; [done|].
  by eapply (awp_list_for_safe_from l _ Inv _ _ []).
Qed.

(** A loop that empties [l]: each round takes one element off the front. *)
Lemma awp_while_nonempty l xs body (Inv : list elem_ptr → aview → Prop) Q n a :
  (length xs ≤ n)%nat → lists a !! l = Some xs → Inv xs a →
  (∀ e xs' a', lists a' !! l = Some (e :: xs') → Inv (e :: xs') a' →
     awp body (λ _ a'', lists a'' !! l = Some xs' ∧ Inv xs' a'') a') →
  (∀ a', lists a' !! l = Some [] → Inv [] a' → Q () a') →
  awp (while_nonempty n l body) Q a.
Proof.
  revert xs a. induction n as [|n IH]; intros xs a Hn Hl Hinv Hbody HQ;
    simpl; apply awp_bind; (eapply awp_list_empty; [done|]);
    destruct xs as [|e xs]; simpl in Hn; try (by apply awp_ret; auto).
  - lia.
  - apply awp_bind. eapply awp_mono; [by apply (Hbody e xs)|].
    intros [] a' [Hl' Hinv']. eapply (IH xs); eauto. lia.
Qed.

Lemma awp_for_each {A} (xs : list A) body (Inv : list A → aview → Prop) Q a :
  Inv [] a →
  (∀ pre x post a', xs = pre ++ x :: post → Inv pre a' →
     awp (body x) (λ _ a'', Inv (pre ++ [x]) a'') a') →
  (∀ a', Inv xs a' → Q () a') →
  awp (for_each xs body) Q a.
Proof.
  intros H0 Hbody HQ.
  assert (Hgen : ∀ post pre a', xs = pre ++ post → Inv pre a' →
    awp (for_each post body) Q a'); [|by eapply (Hgen xs [])].
  induction post as [|x post IH]; intros pre a' Hxs Hinv; simpl.
  - rewrite app_nil_r in Hxs. subst. by apply awp_ret, HQ.
  - apply awp_bind. eapply awp_mono; [by eapply Hbody|].
    intros [] a'' Hinv'. eapply IH; [|exact Hinv']. by rewrite <- (assoc_L (++)).
Qed.

(** The interrupt library. *)
Lemma awp_intr_get_level Q a : Q (iv_level (intr a)) a → awp k_intr_get_level Q a.
Proof. apply awp_gets. intros s <-. apply iv_get. Qed.

Lemma awp_intr_context Q a : Q (iv_context (intr a)) a → awp k_intr_context Q a.
Proof. apply awp_gets. intros s <-. apply iv_ctx. Qed.

Lemma awp_intr_set_level l Q a :
  Q () (set_intr (iv_set_level l (intr a)) a) → awp (k_intr_set_level l) Q a.
Proof. apply awp_modify. intros s <-. unfold obs. simpl. by rewrite iv_set. Qed.

Lemma awp_intr_disable Q a :
  Q (iv_level (intr a)) (set_intr (iv_set_level INTR_OFF (intr a)) a) →
  awp k_intr_disable Q a.
Proof.
  intros HQ s <-. unfold holds_at, k_intr_disable. destruct (iv_disable (intr s)) as [H1 H2].
  destruct (intr_disable (intr s)) as [l i]. simpl in *. subst l.
  unfold obs. simpl. by rewrite H2.
Qed.

Lemma awp_intr_enable Q a :
  iv_context (intr a) = false →
  Q (iv_level (intr a)) (set_intr (iv_set_level INTR_ON (intr a)) a) →
  awp k_intr_enable Q a.
Proof.
  intros Hc HQ s <-. unfold holds_at, k_intr_enable. destruct (iv_enable (intr s) Hc) as [H1 H2].
  destruct (intr_enable (intr s)) as [l i]. simpl in *. subst l.
  unfold obs. simpl. by rewrite H2.
Qed.

Lemma awp_intr_yield_on_return Q a :
  iv_context (intr a) = true →
  Q () (set_intr (IView (iv_level (intr a)) true true) a) →
  awp k_intr_yield_on_return Q a.
Proof.
  intros Hc. apply awp_modify. intros s <-. unfold obs. simpl.
  by rewrite iv_yield_on_return.
Qed.

(** The page allocator. *)
Lemma awp_palloc_get_page Q a :
  (Q None a) →
  (∀ t, t ∉ pages a → Q (Some t) (set_pages ({[t]} ∪ pages a) a)) →
  awp k_palloc_get_page Q a.
Proof.
  intros H0 H1 s <-. unfold holds_at, k_palloc_get_page.
  destruct (palloc_get_page (pages s)) as [[t|] p] eqn:Ep.
  - destruct (palloc_get_fresh _ _ _ Ep) as [Hf Hu]. specialize (H1 t Hf).
    unfold obs in *. simpl in *. by rewrite Hu.
  - apply palloc_get_null in Ep. unfold obs in *. simpl in *. by rewrite Ep.
Qed.

Lemma awp_palloc_free_page t Q a :
  t ∈ pages a →
  Q () (set_threads (delete t (threads a)) (set_pages (pages a ∖ {[t]}) a)) →
  awp (k_palloc_free_page t) Q a.
Proof.
  intros Ht. apply awp_modify. intros s <-. unfold obs. simpl.
  by rewrite palloc_free_use.
Qed.

(** Static variables. *)
Lemma awp_get_running Q a : Q (running a) a → awp get_running Q a.
Proof. apply awp_gets. by intros s <-. Qed.
Lemma awp_get_idle_thread Q a : Q (idle_thread a) a → awp get_idle_thread Q a.
Proof. apply awp_gets. by intros s <-. Qed.
Lemma awp_get_initial_thread Q a : Q (initial_thread a) a → awp get_initial_thread Q a.
Proof. apply awp_gets. by intros s <-. Qed.
Lemma awp_get_thread_mlfqs Q a : Q (thread_mlfqs a) a → awp get_thread_mlfqs Q a.
Proof. apply awp_gets. by intros s <-. Qed.
Lemma awp_get_load_avg Q a : Q (load_avg a) a → awp get_load_avg Q a.
Proof. apply awp_gets. by intros s <-. Qed.
Lemma awp_get_thread_ticks Q a : Q (thread_ticks a) a → awp get_thread_ticks Q a.
Proof. apply awp_gets. by intros s <-. Qed.
Lemma awp_get_next_tid Q a : Q (next_tid a) a → awp get_next_tid Q a.
Proof. apply awp_gets. by intros s <-. Qed.
Lemma awp_get_ticks Q a : Q (ticks a) a → awp get_ticks Q a.
Proof. apply awp_gets. by intros s <-. Qed.
Lemma awp_get_loops_per_tick Q a : Q (loops_per_tick a) a → awp get_loops_per_tick Q a.
Proof. apply awp_gets. by intros s <-. Qed.
Lemma awp_put_load_avg x Q a : Q () (set_load_avg x a) → awp (put_load_avg x) Q a.
Proof. apply awp_modify. by intros s <-. Qed.
Lemma awp_put_thread_ticks x Q a : Q () (set_thread_ticks x a) → awp (put_thread_ticks x) Q a.
Proof. apply awp_modify. by intros s <-. Qed.
Lemma awp_put_next_tid x Q a : Q () (set_next_tid x a) → awp (put_next_tid x) Q a.
Proof. apply awp_modify. by intros s <-. Qed.
Lemma awp_put_ticks x Q a : Q () (set_ticks x a) → awp (put_ticks x) Q a.
Proof. apply awp_modify. by intros s <-. Qed.
Lemma awp_put_loops_per_tick x Q a :
  Q () (set_loops_per_tick x a) → awp (put_loops_per_tick x) Q a.
Proof. apply awp_modify. by intros s <-. Qed.
Lemma awp_put_idle_thread x Q a : Q () (set_idle_thread x a) → awp (put_idle_thread x) Q a.
Proof. apply awp_modify. by intros s <-. Qed.
Lemma awp_put_initial_thread x Q a :
  Q () (set_initial_thread x a) → awp (put_initial_thread x) Q a.
Proof. apply awp_modify. by intros s <-. Qed.
End awp.

(** * Code that may switch threads *)

(** A resumption.  [Act] performs an action, [Switch next] is
    [switch_threads (cur, next)]: it hands the processor to [next], and returns
    the thread that was running before when some thread switches back.  [Loop]
    repeats its body from a loop state until it yields a result. *)
Inductive prog {E : Env} (A : Type) : Type :=
  | Ret (a : A)
  | Act {B : Type} (f : K B) (k : B → prog A)
  | Switch (next : tptr) (k : tptr → prog A)
  | Loop {X B : Type} (body : X → prog (X + B)) (x : X) (k : B → prog A).
Arguments Ret {E A} a.
Arguments Act {E A B} f k.
Arguments Switch {E A} next k.
Arguments Loop {E A X B} body x k.

Fixpoint prog_bind {E : Env} {A B} (p : prog A) (f : A → prog B) : prog B :=
  match p with
  | Ret a => f a
  | Act g k => Act g (λ b, prog_bind (k b) f)
  | Switch n k => Switch n (λ t, prog_bind (k t) f)
  | Loop body x k => Loop body x (λ b, prog_bind (k b) f)
  end.

#[global] Instance prog_ret {E : Env} : MRet prog := λ A, Ret.
#[global] Instance prog_mbind {E : Env} : MBind prog := λ A B f p, prog_bind p f.

Definition act {E : Env} {A} (m : K A) : prog A := Act m Ret.
Definition switch_threads {E : Env} (cur next : tptr) : prog tptr := Switch next Ret.
Definition loop {E : Env} {X B} (body : X → prog (X + B)) (x : X) : prog B :=
  Loop body x Ret.

Section prog.
Context {E : Env}.

Lemma prog_bind_ret_r {A} (p : prog A) : prog_bind p Ret = p.
Proof.
  induction p; simpl; f_equal; try done; by apply functional_extensionality.
Qed.

Lemma prog_bind_assoc {A B C} (p : prog A) (f : A → prog B) (g : B → prog C) :
  prog_bind (prog_bind p f) g = prog_bind p (λ a, prog_bind (f a) g).
Proof.
  induction p; simpl; f_equal; try done; apply functional_extensionality; auto.
Qed.

(** How a run of a thread ends: it returns, it switches to another thread, or
    it stops at a fault. *)
Inductive out (A : Type) : Type :=
  | ODone (a : A)
  | OSwitch (next : tptr) (k : tptr → prog A)
  | OFault (e : error).
Arguments ODone {A} a.
Arguments OSwitch {A} next k.
Arguments OFault {A} e.

Definition unroll {A X B} (body : X → prog (X + B)) (k : B → prog A) (r : X + B) : prog A :=
  match r with inl x => Loop body x k | inr b => k b end.

(** A run without interrupts, up to its end. *)
Inductive exec {A} : prog A → kstate → out A → kstate → Prop :=
  | exec_ret a s : exec (Ret a) s (ODone a) s
  | exec_act B (f : K B) k s b s' o s'' :
      f s = Ok (b, s') → exec (k b) s' o s'' → exec (Act f k) s o s''
  | exec_fault B (f : K B) k s e : f s = Err e → exec (Act f k) s (OFault e) s
  | exec_switch n k s : exec (Switch n k) s (OSwitch n k) s
  | exec_loop X B (body : X → prog (X + B)) x k s o s' :
      exec (prog_bind (body x) (unroll body k)) s o s' → exec (Loop body x k) s o s'.

(** The same as a function, with fuel. *)
Fixpoint run {A} (n : nat) (p : prog A) (s : kstate) : option (out A * kstate) :=
  match n with
  | O => None
  | S n =>
      match p with
      | Ret a => Some (ODone a, s)
      | Act f k => match f s with
                   | Ok (b, s') => run n (k b) s'
                   | Err e => Some (OFault e, s)
                   end
      | Switch t k => Some (OSwitch t k, s)
      | Loop body x k => run n (prog_bind (body x) (unroll body k)) s
      end
  end.

Lemma run_exec {A} n (p : prog A) s o s' : run n p s = Some (o, s') → exec p s o s'.
Proof.
  revert p s. induction n as [|n IH]; intros p s; simpl; [done|].
  destruct p as [a|B f k|t k|X B body x k].
  - intros [= <- <-]. constructor.
  - destruct (f s) as [[b s1]|e] eqn:Ef; [intros; eapply exec_act; eauto|].
    intros [= <- <-]. by constructor.
  - intros [= <- <-]. constructor.
  - intros. constructor. eauto.
Qed.

Lemma exec_run {A} (p : prog A) s o s' :
  exec p s o s' → ∃ n, ∀ m, (n ≤ m)%nat → run m p s = Some (o, s').
Proof.
  induction 1 as [a s|B f k s b s1 o s2 Hf _ [n IH]|B f k s e Hf|t k s
                 |X B body x k s o s1 _ [n IH]].
  - exists 1%nat. intros [|m]; [lia|done].
  - exists (S n). intros [|m] ?; [lia|]. simpl. rewrite Hf. apply IH. lia.
  - exists 1%nat. intros [|m] ?; [lia|]. simpl. by rewrite Hf.
  - exists 1%nat. intros [|m]; [lia|done].
  - exists (S n). intros [|m] ?; [lia|]. simpl. apply IH. lia.
Qed.

(** A run has one outcome only. *)
Lemma exec_det {A} (p : prog A) s o1 s1 o2 s2 :
  exec p s o1 s1 → exec p s o2 s2 → o1 = o2 ∧ s1 = s2.
Proof.
  intros [n1 H1]%exec_run [n2 H2]%exec_run.
  specialize (H1 (max n1 n2) ltac:(lia)). specialize (H2 (max n1 n2) ltac:(lia)).
  rewrite H1 in H2. by simplify_eq.
Qed.

Definition out_bind {A B} (o : out A) (k : A → prog B) : out B + A :=
  match o with
  | ODone a => inr a
  | OSwitch n c => inl (OSwitch n (λ t, prog_bind (c t) k))
  | OFault e => inl (OFault e)
  end.

Lemma exec_bind {A B} (p : prog A) (k : A → prog B) s o s' o' s'' :
  exec p s o s' →
  match out_bind o k with
  | inr a => exec (k a) s' o' s''
  | inl o1 => o' = o1 ∧ s'' = s'
  end →
  exec (prog_bind p k) s o' s''.
Proof.
  induction 1 as [a s|C f c s b s1 o s2 Hf _ IH|C f c s e Hf|t c s|X C body x c s o s1 _ IH];
    simpl in *; intros H.
  - done.
  - eapply exec_act; eauto.
  - destruct H as [-> ->]. by constructor.
  - destruct H as [-> ->]. constructor.
  - apply exec_loop. specialize (IH H). rewrite prog_bind_assoc in IH.
    erewrite (functional_extensionality (unroll body _)); [exact IH|]. by intros [].
Qed.
End prog.
Arguments ODone {E A} a.
Arguments OSwitch {E A} next k.
Arguments OFault {E A} e.

(** * The logic of [prog] *)
Section apwp.
Context {E : Env} {EL : EnvLaws E}.

(** [p] run without interrupts from [s] ends, and [Q] holds of how it ends and
    of what the state then looks like. *)
Definition ends_at {A} (p : prog A) (Q : out A → aview → Prop) (s : kstate) : Prop :=
  ∃ o s', exec p s o s' ∧ Q o (obs s').

(** The same from every state that looks like [a]. *)
Definition apwp {A} (p : prog A) (Q : out A → aview → Prop) (a : aview) : Prop :=
  ∀ s, obs s = a → ends_at p Q s.

Lemma ends_mono {A} (p : prog A) (Q Q' : out A → aview → Prop) s :
  ends_at p Q s → (∀ o a', Q o a' → Q' o a') → ends_at p Q' s.
Proof. intros (o & s' & ? & ?) HQ. exists o, s'. auto. Qed.

Lemma apwp_ends {A} (p : prog A) Q s : apwp p Q (obs s) → ends_at p Q s.
Proof. intros H. by apply H. Qed.

Lemma apwp_mono {A} (p : prog A) (Q Q' : out A → aview → Prop) a :
  apwp p Q a → (∀ o a', Q o a' → Q' o a') → apwp p Q' a.
Proof. intros H HQ s Hs. eapply ends_mono; eauto. Qed.

Lemma apwp_ret {A} (x : A) Q a : Q (ODone x) a → apwp (Ret x) Q a.
Proof. intros HQ s <-. exists (ODone x), s. split; [constructor|done]. Qed.

Lemma apwp_Act {A B} (f : K B) (k : B → prog A) Q a :
  awp f (λ b a', apwp (k b) Q a') a → apwp (Act f k) Q a.
Proof.
  intros H s Hs. specialize (H s Hs). unfold holds_at in H.
  destruct (f s) as [[b s1]|] eqn:Ef; [|done].
  destruct (H s1 eq_refl) as (o & s' & ? & ?). exists o, s'. split; [|done].
  by eapply exec_act.
Qed.

Lemma apwp_ASSERT_fault {A} b site (k : unit → prog A) Q a :
  b = false → Q (OFault (EAssert site)) a → apwp (act (ASSERT b site) ≫= k) Q a.
Proof.
  intros -> HQ s <-. exists (OFault (EAssert site)), s. split; [|done]. by constructor.
Qed.

Lemma apwp_Switch {A} n (k : tptr → prog A) Q a : Q (OSwitch n k) a → apwp (Switch n k) Q a.
Proof. intros HQ s <-. exists (OSwitch n k), s. split; [constructor|done]. Qed.

Lemma apwp_bind {A B} (p : prog A) (k : A → prog B) Q a :
  apwp p (λ o a', match out_bind o k with
                  | inr x => apwp (k x) Q a'
                  | inl o' => Q o' a'
                  end) a →
  apwp (p ≫= k) Q a.
Proof.
  intros H s Hs. destruct (H s Hs) as (o & s1 & He & HQ).
  destruct (out_bind o k) as [o'|x] eqn:Eo.
  - exists o', s1. split; [|done]. eapply exec_bind; [done|]. by rewrite Eo.
  - destruct (HQ s1 eq_refl) as (o' & s2 & He2 & HQ2). exists o', s2. split; [|done].
    eapply exec_bind; [done|]. by rewrite Eo.
Qed.

Lemma apwp_assoc {A B C} (p : prog A) (f : A → prog B) (g : B → prog C) Q a :
  apwp (p ≫= λ x, f x ≫= g) Q a → apwp ((p ≫= f) ≫= g) Q a.
Proof. unfold mbind, prog_mbind. by rewrite prog_bind_assoc. Qed.

Lemma apwp_act {A} (f : K A) Q a :
  awp f (λ x a', Q (ODone x) a') a → apwp (act f) Q a.
Proof. intros H. apply apwp_Act. eapply awp_mono; [done|]. intros. by apply apwp_ret. Qed.

Lemma apwp_act_bind {A B} (f : K A) (k : A → prog B) Q a :
  awp f (λ x a', apwp (k x) Q a') a → apwp (act f ≫= k) Q a.
Proof. apply apwp_Act. Qed.

Lemma apwp_Loop {A X B} (body : X → prog (X + B)) x (k : B → prog A) Q a :
  apwp (body x ≫= unroll body k) Q a → apwp (Loop body x k) Q a.
Proof.
  intros H s Hs. destruct (H s Hs) as (o & s' & ? & ?).
  exists o, s'. split; [by constructor|done].
Qed.

Lemma apwp_loop {X B} (body : X → prog (X + B)) x Q a :
  apwp (body x ≫= unroll body Ret) Q a → apwp (loop body x) Q a.
Proof. apply apwp_Loop. Qed.
End apwp.

(** * Proof automation

    [kstep] performs the next primitive of a goal [awp ...] or [apwp ...],
    leaving the side conditions that the context does not settle. *)
(** Reduces field accesses and updates, and nothing else. *)
Ltac ksimpl :=
  cbn [
    lists intr pages threads semas holders running idle_thread initial_thread
    idle_ticks kernel_ticks user_ticks thread_ticks thread_mlfqs load_avg next_tid
    ticks loops_per_tick set_lists set_intr set_pages set_threads set_semas
    set_holders set_running set_idle_thread set_initial_thread set_idle_ticks
    set_kernel_ticks set_user_ticks set_thread_ticks set_thread_mlfqs set_load_avg
    set_next_tid set_ticks set_loops_per_tick wakeup_tick tid status name stack
    priority base_priority effective_priority waiting_lock nice recent_cpu magic
    kframe with_wakeup_tick with_tid with_status with_stack with_priority
    with_base_priority with_effective_priority with_waiting_lock with_nice
    with_recent_cpu with_kframe iv_set_level iv_level iv_context iv_yield out_bind
    prog_bind unroll fst snd negb].

Ltac kside := ksimpl; first [eassumption | reflexivity | done | idtac].

Ltac kprim :=
  lazymatch goal with
  | |- awp (mbind _ _) _ _ => apply awp_bind
  | |- awp (mret _) _ _ => apply awp_ret
  | |- awp (ASSERT _ _) _ _ => apply awp_ASSERT; [kside|]
  | |- awp (lift_res _) _ _ => eapply awp_lift_res; [kside|]
  | |- awp (lift_opt _ _) _ _ => eapply awp_lift_opt; [kside|]
  | |- awp (deref _) _ _ => eapply awp_deref; [kside|]
  | |- awp (store _ _) _ _ => eapply awp_store; [kside|]
  | |- awp (sema_value _) _ _ => eapply awp_sema_value; [kside|]
  | |- awp (set_sema_value _ _) _ _ => apply awp_set_sema_value
  | |- awp (lock_holder _) _ _ => eapply awp_lock_holder; [kside|]
  | |- awp (set_lock_holder _ _) _ _ => apply awp_set_lock_holder
  | |- awp (k_list_init _) _ _ => apply awp_list_init
  | |- awp (k_list_empty _) _ _ => eapply awp_list_empty; [kside|]
  | |- awp (k_list_size _) _ _ => eapply awp_list_size; [kside|]
  | |- awp (k_list_front _) _ _ => eapply awp_list_front; [kside|]
  | |- awp (k_list_pop_front _) _ _ => eapply awp_list_pop_front; [kside|]
  | |- awp (k_list_push_back _ _) _ _ => eapply awp_list_push_back; [kside|kside|]
  | |- awp (k_list_insert_ordered _ _ _) _ _ =>
      eapply awp_list_insert_ordered; [kside|kside|]
  | |- awp k_intr_get_level _ _ => apply awp_intr_get_level
  | |- awp (k_intr_set_level _) _ _ => apply awp_intr_set_level
  | |- awp k_intr_disable _ _ => apply awp_intr_disable
  | |- awp k_intr_enable _ _ => apply awp_intr_enable; [kside|]
  | |- awp k_intr_context _ _ => apply awp_intr_context
  | |- awp k_intr_yield_on_return _ _ => apply awp_intr_yield_on_return; [kside|]
  | |- awp get_running _ _ => apply awp_get_running
  | |- awp get_idle_thread _ _ => apply awp_get_idle_thread
  | |- awp get_initial_thread _ _ => apply awp_get_initial_thread
  | |- awp get_thread_mlfqs _ _ => apply awp_get_thread_mlfqs
  | |- awp get_load_avg _ _ => apply awp_get_load_avg
  | |- awp get_thread_ticks _ _ => apply awp_get_thread_ticks
  | |- awp get_next_tid _ _ => apply awp_get_next_tid
  | |- awp get_ticks _ _ => apply awp_get_ticks
  | |- awp get_loops_per_tick _ _ => apply awp_get_loops_per_tick
  | |- awp (put_load_avg _) _ _ => apply awp_put_load_avg
  | |- awp (put_thread_ticks _) _ _ => apply awp_put_thread_ticks
  | |- awp (put_next_tid _) _ _ => apply awp_put_next_tid
  | |- awp (put_ticks _) _ _ => apply awp_put_ticks
  | |- awp (put_loops_per_tick _) _ _ => apply awp_put_loops_per_tick
  | |- awp (put_idle_thread _) _ _ => apply awp_put_idle_thread
  | |- awp (put_initial_thread _) _ _ => apply awp_put_initial_thread
  | |- apwp (mbind _ (act _)) _ _ => apply apwp_act_bind
  | |- apwp (mbind _ _) _ _ => apply apwp_bind
  | |- apwp (act _) _ _ => apply apwp_act
  | |- apwp (mret _) _ _ => apply apwp_ret
  | |- apwp (Ret _) _ _ => apply apwp_ret
  end.

(** Arrays indexed by priority. *)
Definition priorities : list Z := seqZ PRI_MIN (PRI_MAX - PRI_MIN + 1).

#[global] Arguments priorities : simpl never.

Lemma elem_of_priorities i : i ∈ priorities ↔ PRI_MIN ≤ i ≤ PRI_MAX.
Proof. unfold priorities. rewrite elem_of_seqZ. unfold PRI_MIN, PRI_MAX. lia. Qed.

(** Facts about the view that list operations need and establish. *)
Lemma unlinked_insert v l xs e :
  unlinked v e → e ∉ xs → unlinked (<[l := xs]> v) e.
Proof. intros. by apply map_Forall_insert_2. Qed.

Lemma unlinked_pop v l e xs :
  lists_wf v → v !! l = Some (e :: xs) → unlinked (<[l := xs]> v) e.
Proof.
  intros Hwf Hl l' ys [[<- <-]|[Hne Hy]]%lookup_insert_Some He.
  - pose proof (lists_wf_NoDup _ _ _ Hwf Hl) as [? _]%NoDup_cons. done.
  - apply Hne. by eapply (lists_wf_unique v l l' (e :: xs) ys e); [..|left|].
Qed.

Ltac kstep := kprim; ksimpl; cbv beta.
Ltac ksteps := repeat kstep.
