(* ===== verification/Thread.v ===== *)
(** threads/thread.c: the running thread, comparison by priority, iteration
    over all threads, and the queries of the thread interface. *)
From S2P Require Import Prelude FixedPoint Env Kernel.

Section thread.
Context {E : Env}.

(** The page the stack pointer is in. *)
Definition running_thread : K tptr := get_running.

Definition is_thread (t : option tptr) : K bool :=
  match t with
  | None => mret false
  | Some t => th ← deref t; mret (magic th =? THREAD_MAGIC)
  end.

Definition thread_current : K tptr :=
  t ← running_thread;
  b ← is_thread (Some t);
  ASSERT b "thread_current: is_thread (t)";;
  th ← deref t;
  ASSERT (bool_decide (status th = THREAD_RUNNING))
    "thread_current: t->status == THREAD_RUNNING";;
  mret t.

Definition thread_tid : K Z := t ← thread_current; th ← deref t; mret (tid th).
Definition thread_name : K string := t ← thread_current; th ← deref t; mret (name th).

(** Invokes [func] on every thread of [all_list]. *)
Definition thread_foreach (func : tptr → K unit) : K unit :=
  l ← k_intr_get_level;
  ASSERT (bool_decide (l = INTR_OFF)) "thread_foreach: intr_get_level () == INTR_OFF";;
  list_for all_list (λ e, t ← lift_opt EBadPtr (entry_allelem e); func t).

Definition thread_get_priority : K Z := t ← thread_current; th ← deref t; mret (priority th).
Definition thread_get_nice : K Z := t ← thread_current; th ← deref t; mret (nice th).

Definition thread_get_load_avg : K Z :=
  la ← get_load_avg;
  mret (FixedPoint.fp_to_int_nearest (FixedPoint.fp_mul_int la 100)).

Definition thread_get_recent_cpu : K Z :=
  cur ← thread_current;
  th ← deref cur;
  let temp := FixedPoint.fp_mul_int (recent_cpu th) 100 in
  mret (FixedPoint.fp_to_int_nearest temp).
End thread.

(** The comparison functions of the ordered lists.  Despite its name,
    [less_priority] holds when [a] has the higher priority, so that lists
    ordered by it are highest-first. *)
Definition thread_priority (ts : gmap tptr thread) (t : tptr) : Z :=
  match ts !! t with Some th => priority th | None => PRI_MIN end.

Lemma thread_priority_at ts t th : ts !! t = Some th → thread_priority ts t = priority th.
Proof. unfold thread_priority. by intros ->. Qed.

Definition less_priority (ts : gmap tptr thread) (a b : elem_ptr) : bool :=
  match entry_elem a, entry_elem b with
  | Some threadA, Some threadB => thread_priority ts threadA >? thread_priority ts threadB
  | _, _ => false
  end.

Definition more_priority (ts : gmap tptr thread) (a b : elem_ptr) : bool :=
  match entry_elem a, entry_elem b with
  | Some threadA, Some threadB => thread_priority ts threadA <? thread_priority ts threadB
  | _, _ => false
  end.

(** The list elements of a sequence of threads. *)
Abbreviation elems ts := (thread_elem <$> ts).

#[global] Instance thread_elem_inj : Inj (=) (=) thread_elem.
Proof. by intros ?? [= ->]. Qed.

#[global] Instance thread_allelem_inj : Inj (=) (=) thread_allelem.
Proof. by intros ?? [= ->]. Qed.

#[global] Instance thread_sleep_elem_inj : Inj (=) (=) thread_sleep_elem.
Proof. by intros ?? [= ->]. Qed.

(** Where a thread of priority [p] goes in a queue ordered highest-first: after
    every thread of at least its priority. *)
Definition enqueue (ts : gmap tptr thread) (t : tptr) (q : list tptr) : list tptr :=
  insert_before (λ u, - thread_priority ts t <? - thread_priority ts u) t q.

(** Highest priority first. *)
Definition queue_sorted (ts : gmap tptr thread) : list tptr → Prop :=
  sorted_on (λ t, - thread_priority ts t).

Lemma insert_before_elems ts t q :
  insert_before (less_priority ts (thread_elem t)) (thread_elem t) (elems q) =
  elems (enqueue ts t q).
Proof.
  rewrite insert_before_fmap. unfold enqueue. f_equal.
  apply insert_before_ext. intros u _. unfold less_priority. simpl.
  destruct (Z.ltb_spec (- thread_priority ts t) (- thread_priority ts u)); lia.
Qed.

Lemma enqueue_sorted ts t q : queue_sorted ts q → queue_sorted ts (enqueue ts t q).
Proof. apply (insert_before_sorted (λ t, - thread_priority ts t)). Qed.

Lemma elem_of_enqueue ts t u q : u ∈ enqueue ts t q ↔ u = t ∨ u ∈ q.
Proof. apply elem_of_insert_before. Qed.

Lemma enqueue_perm ts t q : Permutation (enqueue ts t q) (t :: q).
Proof. apply insert_before_perm. Qed.

(** Changing the priority of no queued thread changes nothing. *)
Lemma queue_sorted_ext ts ts' q :
  (∀ t, t ∈ q → thread_priority ts t = thread_priority ts' t) →
  queue_sorted ts q → queue_sorted ts' q.
Proof. intros H. apply sorted_on_ext. intros t Ht. by rewrite (H t Ht). Qed.

(** The running thread passes the checks of [thread_current]. *)
Definition thread_ok (th : thread) : Prop := magic th = THREAD_MAGIC.

Definition current_ok {L I P} (a : kst L I P) (cur : thread) : Prop :=
  threads a !! running a = Some cur ∧ thread_ok cur ∧ status cur = THREAD_RUNNING.

Section awp_thread.
Context {E : Env} {EL : EnvLaws E}.

Lemma awp_is_thread t th Q a :
  threads a !! t = Some th → thread_ok th → Q true a → awp (is_thread (Some t)) Q a.
Proof. intros Ht Hm HQ. unfold is_thread. ksteps. by rewrite Hm. Qed.

Lemma awp_thread_current cur Q a :
  current_ok a cur → Q (running a) a → awp thread_current Q a.
Proof.
  intros (Ht & Hm & Hs) HQ. unfold thread_current, running_thread. do 2 kstep.
  kstep. eapply awp_is_thread; [done..|]. simpl. ksteps; [|done]. by rewrite Hs.
Qed.

Lemma awp_thread_foreach ts func (Inv : list tptr → aview → Prop) Q a :
  iv_level (intr a) = INTR_OFF →
  lists a !! all_list = Some (thread_allelem <$> ts) → Inv [] a →
  (∀ pre t post a', ts = pre ++ t :: post → Inv pre a' →
     lists a' !! all_list = Some (thread_allelem <$> ts) →
     awp (func t) (λ _ a'', lists a'' !! all_list = Some (thread_allelem <$> ts) ∧
                            Inv (pre ++ [t]) a'') a') →
  (∀ a', Inv ts a' → Q () a') →
  awp (thread_foreach func) Q a.
Proof.
  intros Hoff Hall H0 Hf HQ. unfold thread_foreach. ksteps; [by rewrite Hoff|].
  eapply (awp_list_for _ _ _
    (λ es a', ∃ pre, es = thread_allelem <$> pre ∧ Inv pre a')); [done|by exists []| |].
  - intros es e post a' Hes Hl (pre & -> & Hinv).
    assert (∃ t post', ts = pre ++ t :: post' ∧ e = thread_allelem t)
      as (t & post' & -> & ->).
    { apply fmap_app_inv in Hes as (pre' & ts2 & Hpre & Hpost & ->).
      apply (inj (fmap thread_allelem)) in Hpre as <-.
      symmetry in Hpost. apply fmap_cons_inv in Hpost as (t & post' & -> & -> & ->).
      by exists t, post'. }
    ksteps. eapply awp_mono; [by eapply Hf|].
    intros [] a'' [? ?]. split; [done|]. exists (pre ++ [t]). by rewrite fmap_app.
  - intros a' _ (pre & Hpre & Hinv). apply (inj (fmap thread_allelem)) in Hpre as <-.
    by apply HQ.
Qed.
End awp_thread.
