(* ===== verification/Sample.v ===== *)
(** Concrete kernel states, in the concrete environment of Env.v, on which the
    witnesses of the other files run the definitions. *)
From S2P Require Import Prelude Env Kernel Thread.
Export Concrete.

#[local] Existing Instances concrete_env concrete_env_laws.

(** A thread with the given status and priority. *)
Definition sample_thread (id : Z) (st : thread_status) (p : Z) : thread :=
  Thread 0 id st "sample" 4096 p p p None 0 0 THREAD_MAGIC None.

(** A kernel in which thread 1 runs, with the given threads and lists.  Thread 9
    is the idle thread; interrupts are off. *)
Definition sample_state (mlfqs : bool) (ts : list (tptr * thread))
    (ls : list (list_ptr * list elem_ptr)) : kstate :=
  KSt (list_to_map ls : lview) (IView INTR_OFF false false)
    (PagePool 20 40 (list_to_set ts.*1))
    (list_to_map ts) ∅ ∅ 1%positive (Some 9%positive) (Some 1%positive)
    0 0 0 0 mlfqs 0 10 0 0.

(** The feedback queues, with the given contents. *)
Definition sample_queues (Q : Z → list tptr) : list (list_ptr * list elem_ptr) :=
  (λ i, (mlfqs_list i, elems (Q i))) <$> priorities.
