(* ===== verification/Mlfqs.v ===== *)
(** threads/thread.c: the multi-level feedback queue scheduler.

    The 64 queues [mlfqs_list], the statistics [recent_cpu], [nice] and
    [load_avg] in the fixed-point arithmetic of FixedPoint.v, and the
    recomputation of priorities.  [mlfqs_check_preemption], which may yield, is
    in Sched.v. *)
From S2P Require Import Prelude FixedPoint Env Kernel Thread Sample.
Import FixedPoint.

Section mlfqs.
Context {E : Env}.

Definition mlfqs_init : K unit :=
  for_each priorities (λ i, k_list_init (mlfqs_list i));;
  put_load_avg 0.

Fixpoint mlfqs_next_from (js : list Z) : K (option tptr) :=
  match js with
  | [] => get_idle_thread
  | i :: js =>
      b ← k_list_empty (mlfqs_list i);
      if negb b then
        e ← k_list_pop_front (mlfqs_list i);
        t ← lift_opt EBadPtr (entry_elem e);
        mret (Some t)
      else mlfqs_next_from js
  end.

(** [for (int i = PRI_MAX; i >= PRI_MIN; i--)] *)
Definition mlfqs_next_thread_to_run : K (option tptr) := mlfqs_next_from (rev priorities).

(** The subscript of [mlfqs_list] is the thread's priority, unchecked in C. *)
Definition mlfqs_insert (t : tptr) : K unit :=
  th ← deref t;
  let t_priority := priority th in
  if (PRI_MIN <=? t_priority) && (t_priority <=? PRI_MAX)
  then k_list_push_back (mlfqs_list t_priority) (thread_elem t)
  else fail EOutOfBounds.

Definition mlfqs_update_recent_cpu (t : tptr) : K unit :=
  idle ← get_idle_thread;
  if bool_decide (Some t = idle) then mret () else
  th ← deref t;
  let old_cpu := recent_cpu th in
  la ← get_load_avg;
  let two_load := fp_mul_int la 2 in
  let denom := fp_add_int two_load 1 in
  coef ← lift_res (fp_div two_load denom);
  let new_cpu := fp_mul coef old_cpu in
  let new_cpu := fp_add_int new_cpu (nice th) in
  store t (with_recent_cpu new_cpu).

Definition mlfqs_update_priority (t : tptr) : K unit :=
  idle ← get_idle_thread;
  if bool_decide (Some t = idle) then mret () else
  th ← deref t;
  quarter ← lift_res (fp_div_int (recent_cpu th) 4);
  let middle := fp_to_int quarter in
  let new_priority := int32 (int32 (PRI_MAX - middle) - int32 (nice th * 2)) in
  let new_priority :=
    if new_priority >? PRI_MAX then PRI_MAX
    else if new_priority <? PRI_MIN then PRI_MIN
    else new_priority in
  store t (with_priority new_priority).

(** The sum of the sizes of the queues, as an [int]. *)
Fixpoint mlfqs_count (js : list Z) (counter : Z) : K Z :=
  match js with
  | [] => mret counter
  | i :: js =>
      count ← k_list_size (mlfqs_list i);
      mlfqs_count js (int32 (counter + int32 (Z.of_nat count)))
  end.

Definition mlfqs_ready_threads : K Z :=
  counter ← mlfqs_count priorities 0;
  cur ← thread_current;
  idle ← get_idle_thread;
  mret (if bool_decide (Some cur ≠ idle) then int32 (counter + 1) else counter).

Definition mlfqs_update_load_avg : K unit :=
  ready_threads ← mlfqs_ready_threads;
  coef ← lift_res (fp_div_int (int_to_fp 59) 60);
  la ← get_load_avg;
  let a := fp_mul coef la in
  sec_coef ← lift_res (fp_div_int (int_to_fp 1) 60);
  let b := fp_mul_int sec_coef ready_threads in
  put_load_avg (fp_add a b).

Definition mlfqs_update_rcpu_la : K unit :=
  thread_foreach mlfqs_update_recent_cpu;;
  mlfqs_update_load_avg.

(** [while (!list_empty (l)) body], at most as often as [l] is long. *)
Definition drain (l : list_ptr) (body : K unit) : K unit :=
  n ← k_list_size l; while_nonempty n l body.

Definition mlfqs_reorganize_queues : K unit :=
  k_list_init temp_list;;
  for_each priorities (λ i,
    drain (mlfqs_list i)
      (e ← k_list_pop_front (mlfqs_list i);
       k_list_push_back temp_list e));;
  drain temp_list
    (e ← k_list_pop_front temp_list;
     t ← lift_opt EBadPtr (entry_elem e);
     mlfqs_insert t).

Definition mlfqs_update_priority_all : K unit :=
  thread_foreach mlfqs_update_priority;;
  mlfqs_reorganize_queues.
End mlfqs.

(** * Reference functions *)

(** The priority formula of the header of the source, in integers:
    [PRI_MAX - (recent_cpu / 4) - (nice * 2)], clamped. *)
Definition mlfqs_priority (th : thread) : Z :=
  Z.max PRI_MIN (Z.min PRI_MAX (PRI_MAX - (recent_cpu th ÷ 4) ÷ F - nice th * 2)).

(** The two constants of the load average, [59/60] and [1/60] in fixed point. *)
Definition coef_59_60 : Z := 16110.
Definition coef_1_60 : Z := 273.

Definition load_avg_step (la ready : Z) : Z := (coef_59_60 * la) ÷ F + coef_1_60 * ready.

(** The decay factor [2*load_avg / (2*load_avg + 1)] in fixed point. *)
Definition decay_coef (la : Z) : Z := (2 * la * F) ÷ (2 * la + F).

Definition recent_cpu_step (la : Z) (th : thread) : Z :=
  (decay_coef la * recent_cpu th) ÷ F + nice th * F.

(** Ranges in which the statistics do not overflow: values of [nice] that
    [thread_set_nice] admits, and a load average of at most [n] threads. *)
Definition nice_ok (th : thread) : Prop := NICE_MIN ≤ nice th ≤ NICE_MAX.
Definition load_ok (n la : Z) : Prop := 0 ≤ la ≤ n * F.

(** A bound on [recent_cpu] that the update every second and the 100 ticks in
    between re-establish, for a load of at most [n]. *)
Definition recent_cpu_bound (n : Z) : Z := 120 * F * (2 * n + 1).

Lemma decay_coef_bounds n la : 0 ≤ n → load_ok n la → 0 ≤ decay_coef la < F ∧
  decay_coef la * (2 * n + 1) ≤ 2 * n * F.
Proof.
  unfold load_ok, decay_coef. rewrite F_val. intros Hn Hla.
  pose proof (proj1 (quot_bounds (2 * la * 16384) (2 * la + 16384) ltac:(lia)) ltac:(lia)).
  set (c := (2 * la * 16384) ÷ (2 * la + 16384)) in *.
  split; [nia|]. nia.
Qed.

Lemma fp_coefs :
  fp_div_int (int_to_fp 59) 60 = Ok coef_59_60 ∧ fp_div_int (int_to_fp 1) 60 = Ok coef_1_60.
Proof. done. Qed.

Lemma load_avg_step_bounds n la ready :
  load_ok n la → 0 ≤ ready ≤ n → load_ok n (load_avg_step la ready).
Proof.
  unfold load_ok, load_avg_step, coef_59_60, coef_1_60. rewrite F_val. intros Hla Hr.
  pose proof (proj1 (quot_bounds (16110 * la) 16384 ltac:(lia)) ltac:(lia)). lia.
Qed.

(** The scaled error of one update against [59/60*la + 1/60*ready]: it never
    overshoots, and undershoots by less than one part in 16384 of the average
    (56/60 of that) plus 1 and 4/60 per ready thread. *)
Lemma load_avg_step_error la ready :
  0 ≤ la → 0 ≤ ready →
  0 ≤ (59 * la + ready * F) - 60 * load_avg_step la ready ∧
  F * ((59 * la + ready * F) - 60 * load_avg_step la ready) ≤ 56 * la + F * (60 + 4 * ready).
Proof.
  unfold load_avg_step, coef_59_60, coef_1_60. rewrite F_val. intros Hla Hr.
  pose proof (proj1 (quot_bounds (16110 * la) 16384 ltac:(lia)) ltac:(lia)). lia.
Qed.

(** * The queues *)

(** The queues hold the elements of [Q i] for each priority [i]. *)
Definition queues {I P} (a : kst lview I P) (Q : Z → list tptr) : Prop :=
  ∀ i, i ∈ priorities → lists a !! mlfqs_list i = Some (elems (Q i)).

Definition queued (Q : Z → list tptr) : list tptr := concat (Q <$> priorities).

(** The threads [mlfqs_ready_threads] counts. *)
Definition ready_count {I P} (a : kst lview I P) (Q : Z → list tptr) : Z :=
  Z.of_nat (length (queued Q)) +
  (if bool_decide (Some (running a) ≠ idle_thread a) then 1 else 0).

Lemma ready_count_nonneg {I P} (a : kst lview I P) Q : 0 ≤ ready_count a Q.
Proof. unfold ready_count. case_match; lia. Qed.

(** The queue thread [t] belongs to after a reorganisation. *)
Definition requeued (ts : gmap tptr thread) (Q : Z → list tptr) (i : Z) : list tptr :=
  filter (λ t, thread_priority ts t = i) (queued Q).

Section awp_mlfqs.
Context {E : Env} {EL : EnvLaws E}.

(** The value the code assigns, with the C arithmetic. *)
Definition mlfqs_priority_raw (th : thread) : Z :=
  let p := int32 (int32 (PRI_MAX - (recent_cpu th ÷ 4) ÷ F) - int32 (nice th * 2)) in
  if p >? PRI_MAX then PRI_MAX else if p <? PRI_MIN then PRI_MIN else p.

Lemma mlfqs_priority_raw_range th : PRI_MIN ≤ mlfqs_priority_raw th ≤ PRI_MAX.
Proof. unfold mlfqs_priority_raw, PRI_MIN, PRI_MAX. repeat case_match; lia. Qed.

Lemma mlfqs_priority_raw_exact th :
  in_int32 (recent_cpu th) → nice_ok th → mlfqs_priority_raw th = mlfqs_priority th.
Proof.
  intros Hr Hn. unfold mlfqs_priority_raw, mlfqs_priority, nice_ok in *.
  assert (Hm : -32768 ≤ (recent_cpu th ÷ 4) ÷ F ≤ 32768).
  { rewrite F_val. pose proof (quot_bounds (recent_cpu th) 4 ltac:(lia)).
    pose proof (quot_bounds (recent_cpu th ÷ 4) 16384 ltac:(lia)). bounds. }
  unfold PRI_MAX, PRI_MIN, NICE_MIN, NICE_MAX in *.
  rewrite !int32_id; try bounds; [|rewrite !int32_id; bounds].
  repeat case_match; lia.
Qed.

Lemma awp_mlfqs_update_priority t th Q a :
  threads a !! t = Some th →
  Q () (if bool_decide (Some t = idle_thread a) then a
        else set_threads (<[t := with_priority (mlfqs_priority_raw th) th]> (threads a)) a) →
  awp (mlfqs_update_priority t) Q a.
Proof.
  intros Ht HQ. unfold mlfqs_update_priority. do 2 kstep.
  case_bool_decide; [by apply awp_ret|]. ksteps; [|exact HQ].
  by apply fp_div_int_exact.
Qed.

Lemma awp_mlfqs_insert t th q Q a :
  threads a !! t = Some th → PRI_MIN ≤ priority th ≤ PRI_MAX →
  lists a !! mlfqs_list (priority th) = Some (elems q) → unlinked (lists a) (thread_elem t) →
  Q () (set_lists (<[mlfqs_list (priority th) := elems (q ++ [t])]> (lists a)) a) →
  awp (mlfqs_insert t) Q a.
Proof.
  intros Ht Hp Hq Hu HQ. unfold mlfqs_insert. do 2 kstep.
  rewrite (proj2 (andb_true_iff _ _)) by lia. kstep. by rewrite fmap_app in HQ.
Qed.

Lemma awp_mlfqs_count js c QS Q a :
  (∀ i, i ∈ js → lists a !! mlfqs_list i = Some (elems (QS i))) →
  0 ≤ c → c + Z.of_nat (length (concat (QS <$> js))) ≤ INT_MAX →
  Q (c + Z.of_nat (length (concat (QS <$> js)))) a →
  awp (mlfqs_count js c) Q a.
Proof.
  revert c. induction js as [|i js IH]; intros c Hq Hc Hmax HQ; csimpl in *.
  { apply awp_ret. by rewrite Z.add_0_r in HQ. }
  rewrite length_app in *. kstep.
  eapply awp_list_size; [apply Hq; set_solver|]. rewrite length_fmap.
  rewrite (int32_id (Z.of_nat _)), int32_id by bounds.
  apply IH; [set_solver|lia|lia|]. by rewrite <- Z.add_assoc, <- Nat2Z.inj_add.
Qed.

Lemma awp_mlfqs_ready_threads QS cur Q a :
  queues a QS → current_ok a cur → ready_count a QS ≤ INT_MAX →
  Q (ready_count a QS) a → awp mlfqs_ready_threads Q a.
Proof.
  intros Hq Hc Hmax HQ. unfold mlfqs_ready_threads, ready_count in *. kstep.
  assert (Z.of_nat (length (queued QS)) ≤ INT_MAX) by (case_bool_decide; lia).
  eapply awp_mlfqs_count; [exact Hq|lia|done|]. rewrite Z.add_0_l. kstep.
  eapply awp_thread_current; [done|]. ksteps. fold (queued QS).
  case_bool_decide; [|by rewrite Z.add_0_r in HQ].
  rewrite int32_id by bounds. done.
Qed.

(** The C expression of the update, and where it is exact. *)
Lemma decay_coef_exact n la :
  0 ≤ n ≤ 65535 → load_ok n la →
  fp_div (fp_mul_int la 2) (fp_add_int (fp_mul_int la 2) 1) = Ok (decay_coef la).
Proof.
  intros Hn Hla. pose proof (decay_coef_bounds n la ltac:(lia) Hla) as [Hc _].
  unfold load_ok in Hla. rewrite F_val in *.
  assert (H2 : fp_mul_int la 2 = 2 * la) by (unfold fp_mul_int; rewrite int32_id; bounds).
  assert (H3 : fp_add_int (2 * la) 1 = 2 * la + 16384).
  { rewrite fp_add_int_exact; rewrite ?F_val; unfold fp_int_range; bounds. }
  rewrite H2, H3, fp_div_wide by bounds. f_equal. rewrite F_val. apply int32_id. bounds.
Qed.

Lemma decayed_abs n la rc :
  0 ≤ n → load_ok n la → Z.abs ((decay_coef la * rc) ÷ F) * (2 * n + 1) ≤ 2 * n * Z.abs rc.
Proof.
  intros Hn Hla. destruct (decay_coef_bounds n la Hn Hla) as [Hc Hc2].
  rewrite F_val in *. set (c := decay_coef la) in *.
  pose proof (quot_bounds (c * rc) 16384 ltac:(lia)) as [Hp Hm].
  assert (Hle : 16384 * Z.abs ((c * rc) ÷ 16384) ≤ c * Z.abs rc) by nia.
  nia.
Qed.

Lemma awp_mlfqs_update_recent_cpu n t th Q a :
  threads a !! t = Some th → 0 ≤ n ≤ 65535 → load_ok n (load_avg a) →
  in_int32 (recent_cpu th) → nice_ok th → in_int32 (recent_cpu_step (load_avg a) th) →
  Q () (if bool_decide (Some t = idle_thread a) then a
        else set_threads
          (<[t := with_recent_cpu (recent_cpu_step (load_avg a) th) th]> (threads a)) a) →
  awp (mlfqs_update_recent_cpu t) Q a.
Proof.
  intros Ht Hn Hla Hr Hni Hstep HQ. unfold mlfqs_update_recent_cpu. do 2 kstep.
  case_bool_decide; [by apply awp_ret|]. do 2 kstep. do 2 kstep. do 1 kstep.
  eapply awp_lift_res; [by eapply decay_coef_exact|]. kstep.
  destruct (decay_coef_bounds n (load_avg a) ltac:(lia) Hla) as [Hc _].
  pose proof (decayed_abs n _ (recent_cpu th) ltac:(lia) Hla) as Habs.
  assert (Hd : in_int32 ((decay_coef (load_avg a) * recent_cpu th) ÷ F)).
  { unfold in_int32, INT_MIN, INT_MAX in *. nia. }
  rewrite F_val in Hc.
  rewrite fp_mul_wide, (int32_id _ Hd) by first [done|bounds].
  rewrite fp_add_int_exact; [exact HQ| |exact Hstep].
  unfold nice_ok, fp_int_range, NICE_MIN, NICE_MAX in *. lia.
Qed.

(** Taking the first thread of the highest queue that is not empty. *)
Lemma awp_mlfqs_next_from js QS Q a :
  (∀ i, i ∈ js → lists a !! mlfqs_list i = Some (elems (QS i))) →
  ((∀ i, i ∈ js → QS i = []) → Q (idle_thread a) a) →
  (∀ pre i post t q, js = pre ++ i :: post → (∀ j, j ∈ pre → QS j = []) → QS i = t :: q →
     Q (Some t) (set_lists (<[mlfqs_list i := elems q]> (lists a)) a)) →
  awp (mlfqs_next_from js) Q a.
Proof.
  induction js as [|i js IH]; intros Hq Hnone Hsome.
  { apply awp_get_idle_thread, Hnone. set_solver. }
  cbn [mlfqs_next_from]. kstep. eapply awp_list_empty; [apply Hq; set_solver|].
  destruct (QS i) as [|t q] eqn:Eq.
  - rewrite bool_decide_true by done. ksimpl. apply IH; [set_solver|set_solver|].
    intros pre i' post t q -> Hpre Hi'. apply (Hsome (i :: pre) i' post); [done|set_solver|done].
  - rewrite bool_decide_false by done. ksimpl. kstep.
    eapply awp_list_pop_front; [rewrite (Hq i), Eq by set_solver; done|].
    ksteps. eapply (Hsome [] i js); [done|set_solver|done].
Qed.

(** Where every list is: the local list of the reorganisation holds [T], the
    queues hold [R], all else is as in [a]. *)
Definition laid (a : aview) (T : list tptr) (R : Z → list tptr) (a' : aview) : Prop :=
  a' = set_lists (lists a') a ∧
  ∀ l, lists a' !! l =
    match l with
    | temp_list => Some (elems T)
    | mlfqs_list i => if decide (i ∈ priorities) then Some (elems (R i)) else lists a !! l
    | _ => lists a !! l
    end.

Lemma laid_update a T R a' l xs T' R' :
  laid a T R a' →
  (∀ l', (if decide (l = l') then Some xs else lists a' !! l') =
    match l' with
    | temp_list => Some (elems T')
    | mlfqs_list i => if decide (i ∈ priorities) then Some (elems (R' i)) else lists a !! l'
    | _ => lists a !! l'
    end) →
  laid a T' R' (set_lists (<[l := xs]> (lists a')) a').
Proof.
  intros [Ha _] Hl. split; [by rewrite Ha|]. intros l'. cbn [lists set_lists].
  rewrite <- Hl. apply lookup_insert.
Qed.

Definition upd (R : Z → list tptr) (i : Z) (q : list tptr) (j : Z) : list tptr :=
  if decide (j = i) then q else R j.

Lemma laid_queue a T R a' i :
  laid a T R a' → i ∈ priorities → lists a' !! mlfqs_list i = Some (elems (R i)).
Proof. intros [_ Hl] Hi. rewrite Hl. by case_decide. Qed.

Lemma laid_temp a T R a' : laid a T R a' → lists a' !! temp_list = Some (elems T).
Proof. intros [_ Hl]. apply Hl. Qed.

Lemma laid_set_temp a T R a' T' :
  laid a T R a' → laid a T' R (set_lists (<[temp_list := elems T']> (lists a')) a').
Proof.
  intros HL. eapply laid_update; [done|]. destruct HL as [_ Hl]. intros l'.
  rewrite Hl. by destruct l'; case_decide.
Qed.

Lemma laid_set_queue a T R a' i q :
  laid a T R a' → i ∈ priorities →
  laid a T (upd R i q) (set_lists (<[mlfqs_list i := elems q]> (lists a')) a').
Proof.
  intros HL Hi. eapply laid_update; [done|]. destruct HL as [_ Hl]. intros l'.
  rewrite Hl. unfold upd. destruct l' as [| | |j| | | | |]; try by rewrite decide_False.
  destruct (decide (j = i)) as [->|Hne].
  - rewrite !decide_True by done. done.
  - rewrite (decide_False (P := mlfqs_list i = mlfqs_list j)) by congruence. done.
Qed.

Lemma laid_ext a T R R' a' : (∀ i, i ∈ priorities → R i = R' i) → laid a T R a' → laid a T R' a'.
Proof.
  intros HR [Ha Hl]. split; [done|]. intros l. rewrite Hl. destruct l; try done.
  case_decide; [|done]. by rewrite HR.
Qed.

Lemma laid_threads a T R a' : laid a T R a' → threads a' = threads a.
Proof. by intros [-> _]. Qed.

(** Draining one queue into the local list. *)
Lemma awp_drain_queue a T R a' i Q :
  laid a T R a' → i ∈ priorities →
  (∀ a'', laid a (T ++ R i) (upd R i []) a'' → Q () a'') →
  awp (drain (mlfqs_list i)
         (e ← k_list_pop_front (mlfqs_list i); k_list_push_back temp_list e)) Q a'.
Proof.
  intros HL Hi HQ. unfold drain. kstep. eapply awp_list_size; [by eapply laid_queue|].
  eapply (awp_while_nonempty _ _ _
    (λ es b, ∃ T1 q, es = elems q ∧ R i = T1 ++ q ∧ laid a (T ++ T1) (upd R i q) b));
    [done|by eapply laid_queue| | |].
  - exists [], (R i). split_and!; [done..|]. rewrite app_nil_r.
    eapply laid_ext; [|done]. intros j _. unfold upd. by case_decide; subst.
  - intros e es b Hb (T1 & q & Hes & HR & HLb).
    destruct q as [|t q]; [done|]. injection Hes as -> ->.
    apply awp_wf. intros Hwf. kstep. eapply awp_list_pop_front; [done|].
    eapply (awp_list_push_back _ (elems (T ++ T1))).
    + ksimpl. rewrite lookup_insert_ne by done. by eapply laid_temp.
    + ksimpl. by apply unlinked_pop.
    + ksimpl. assert (HL' : laid a (T ++ T1 ++ [t]) (upd (upd R i (t :: q)) i q)
        (set_lists (<[temp_list := elems (T ++ T1 ++ [t])]>
           (<[mlfqs_list i := elems q]> (lists b))) b)).
      { pose proof (laid_set_queue _ _ _ _ i q HLb Hi) as HL1.
        exact (laid_set_temp _ _ _ _ (T ++ T1 ++ [t]) HL1). }
      rewrite (assoc_L (++)), fmap_app in HL'. split.
      * rewrite lookup_insert_ne by done. apply lookup_insert_eq.
      * exists (T1 ++ [t]), q. split_and!; [done|by rewrite <- (assoc_L (++))|].
        rewrite (assoc_L (++)). eapply laid_ext; [|exact HL'].
        intros j _. unfold upd. by case_decide.
  - intros b _ (T1 & q & Hes & HR & HLb). symmetry in Hes. apply fmap_nil_inv in Hes as ->.
    rewrite app_nil_r in HR. apply HQ. by rewrite HR.
Qed.

(** Collecting all queues. *)
Lemma awp_collect a QS a' Q :
  laid a [] QS a' →
  (∀ a'', laid a (queued QS) (λ _, []) a'' → Q () a'') →
  awp (for_each priorities (λ i, drain (mlfqs_list i)
    (e ← k_list_pop_front (mlfqs_list i); k_list_push_back temp_list e))) Q a'.
Proof.
  intros HL HQ.
  apply (awp_for_each _ _ (λ pre b,
    laid a (concat (QS <$> pre)) (λ i, if decide (i ∈ pre) then [] else QS i) b)).
  - eapply laid_ext; [|exact HL]. intros i _. by rewrite decide_False by set_solver.
  - intros pre i post b Hp HLb.
    assert (Hi : i ∈ priorities) by (rewrite Hp; set_solver).
    assert (Hni : i ∉ pre).
    { pose proof (NoDup_seqZ PRI_MIN (PRI_MAX - PRI_MIN + 1)) as Hnd.
      fold priorities in Hnd. rewrite Hp in Hnd. apply NoDup_app in Hnd as (_ & Hd & _).
      intros Hin. apply (Hd i Hin). set_solver. }
    eapply awp_drain_queue; [exact HLb|done|]. intros b' HLb'.
    cbv beta in HLb'. rewrite decide_False in HLb' by done.
    rewrite fmap_app, concat_app. csimpl. rewrite app_nil_r.
    eapply laid_ext; [|exact HLb']. intros j _. unfold upd. cbv beta.
    destruct (decide (j = i)) as [->|Hne]; [by rewrite decide_True by set_solver|].
    destruct (decide (j ∈ pre)); [by rewrite decide_True by set_solver|].
    by rewrite decide_False by set_solver.
  - intros b HLb. apply HQ. eapply laid_ext; [|exact HLb].
    intros i Hi. cbv beta. by rewrite decide_True.
Qed.

(** Putting the collected threads back by their current priority. *)
Lemma awp_reinsert a T a' Q :
  laid a T (λ _, []) a' →
  (∀ t, t ∈ T → ∃ th, threads a !! t = Some th ∧ PRI_MIN ≤ priority th ≤ PRI_MAX) →
  (∀ a'', laid a [] (λ i, filter (λ t, thread_priority (threads a) t = i) T) a'' → Q () a'') →
  awp (drain temp_list
    (e ← k_list_pop_front temp_list; t ← lift_opt EBadPtr (entry_elem e); mlfqs_insert t))
    Q a'.
Proof.
  intros HL HT HQ. unfold drain. kstep. eapply awp_list_size; [by eapply laid_temp|].
  eapply (awp_while_nonempty _ _ _
    (λ es b, ∃ T1 T2, es = elems T2 ∧ T = T1 ++ T2 ∧
      laid a T2 (λ i, filter (λ t, thread_priority (threads a) t = i) T1) b));
    [done|by eapply laid_temp|by exists [], T| |].
  - intros e es b Hb (T1 & T2 & Hes & -> & HLb).
    destruct T2 as [|t T2]; [done|]. injection Hes as -> ->.
    destruct (HT t) as (th & Ht & Hp); [set_solver|].
    assert (Hpt : thread_priority (threads a) t = priority th)
      by (unfold thread_priority; by rewrite Ht).
    apply elem_of_priorities in Hp as Hpp.
    apply awp_wf. intros Hwf. kstep. eapply awp_list_pop_front; [done|]. kstep. kstep.
    eapply (awp_mlfqs_insert _ th (filter (λ u, thread_priority (threads a) u = priority th) T1)).
    + ksimpl. by rewrite (laid_threads _ _ _ _ HLb).
    + done.
    + ksimpl. rewrite lookup_insert_ne by done.
      exact (laid_queue _ _ _ _ _ HLb Hpp).
    + ksimpl. by apply unlinked_pop.
    + ksimpl. split.
      { rewrite lookup_insert_ne by done. apply lookup_insert_eq. }
      exists (T1 ++ [t]), T2. split_and!; [done|by rewrite <- (assoc_L (++))|].
      eapply laid_ext;
        [|exact (laid_set_queue _ _ _ _ (priority th) _
            (laid_set_temp _ _ _ _ T2 HLb) Hpp)].
      intros i _. unfold upd. rewrite filter_app.
      destruct (decide (i = priority th)) as [->|Hne].
      * by rewrite filter_cons_True.
      * rewrite filter_cons_False by congruence. by rewrite app_nil_r.
  - intros b _ (T1 & T2 & Hes & -> & HLb). symmetry in Hes. apply fmap_nil_inv in Hes as ->.
    rewrite app_nil_r in HQ. by apply HQ.
Qed.
End awp_mlfqs.

Lemma priorities_rev_sorted : sorted_on Z.opp (rev priorities).
Proof.
  unfold priorities. generalize (PRI_MAX - PRI_MIN + 1). intros n.
  destruct (Z.le_gt_cases n 0); [rewrite seqZ_nil by lia; constructor|].
  rewrite <- (Z2Nat.id n) by lia. generalize (Z.to_nat n). clear. intros n.
  induction n as [|n IH]; [constructor|].
  rewrite seqZ_S, rev_app_distr. apply sorted_on_cons. split; [|done].
  intros j Hj%list_elem_of_In%in_rev%list_elem_of_In%elem_of_seqZ. lia.
Qed.

Lemma elem_of_rev_priorities i : i ∈ rev priorities ↔ i ∈ priorities.
Proof. rewrite !list_elem_of_In. symmetry. apply in_rev. Qed.

(** The loops over [i = PRI_MAX .. PRI_MIN] have seen every larger subscript. *)
Lemma rev_priorities_above pre i post j :
  rev priorities = pre ++ i :: post → j ∈ priorities → i < j → j ∈ pre.
Proof.
  intros Hjs Hj%elem_of_rev_priorities Hij. rewrite Hjs in Hj.
  apply elem_of_app in Hj as [?|Hj]; [done|exfalso].
  pose proof priorities_rev_sorted as Hs. rewrite Hjs in Hs.
  apply sorted_on_app_r, sorted_on_cons in Hs as [Hs _].
  apply elem_of_cons in Hj as [->|Hj]; [lia|]. specialize (Hs _ Hj). lia.
Qed.

(** * Recomputing the statistics of every thread *)

(** [f] applied to the threads of [ts]. *)
Definition update_all (f : tptr → thread → thread) (ts : list tptr) (m : gmap tptr thread)
    : gmap tptr thread :=
  map_imap (λ t th, Some (if bool_decide (t ∈ ts) then f t th else th)) m.

Lemma update_all_nil f m : update_all f [] m = m.
Proof.
  apply map_eq. intros t. unfold update_all. rewrite map_lookup_imap.
  by destruct (m !! t).
Qed.

Lemma update_all_lookup f ts m t th :
  m !! t = Some th →
  update_all f ts m !! t = Some (if bool_decide (t ∈ ts) then f t th else th).
Proof. intros Ht. unfold update_all. by rewrite map_lookup_imap, Ht. Qed.

Lemma update_all_snoc f pre t m th :
  m !! t = Some th → t ∉ pre →
  update_all f (pre ++ [t]) m = <[t := f t th]> (update_all f pre m).
Proof.
  intros Ht Hn. apply map_eq. intros u. destruct (decide (u = t)) as [->|Hne].
  - rewrite lookup_insert_eq, (update_all_lookup _ _ _ _ th) by done.
    by rewrite bool_decide_true by set_solver.
  - rewrite lookup_insert_ne by done. unfold update_all. rewrite !map_lookup_imap.
    destruct (m !! u) as [uth|]; [|done]. simpl. f_equal.
    rewrite (bool_decide_ext (u ∈ pre ++ [t]) (u ∈ pre)); [done|]. set_solver.
Qed.

(** What the two updates assign: the idle thread has no statistics. *)
Definition reprioritise (idle : option tptr) (t : tptr) (th : thread) : thread :=
  if bool_decide (Some t = idle) then th else with_priority (mlfqs_priority_raw th) th.

Definition decay (idle : option tptr) (la : Z) (t : tptr) (th : thread) : thread :=
  if bool_decide (Some t = idle) then th else with_recent_cpu (recent_cpu_step la th) th.

(** Statistics within the bounds under which an update is exact. *)
Definition stats_ok (n la : Z) (th : thread) : Prop :=
  in_int32 (recent_cpu th) ∧ nice_ok th ∧ in_int32 (recent_cpu_step la th).

Lemma recent_cpu_step_bound n la th :
  0 ≤ n ≤ 545 → load_ok n la → nice_ok th → Z.abs (recent_cpu th) ≤ recent_cpu_bound n →
  Z.abs (recent_cpu_step la th) + 100 * F ≤ recent_cpu_bound n ∧ in_int32 (recent_cpu_bound n).
Proof.
  intros Hn Hla Hni Hrc. pose proof (decayed_abs n _ (recent_cpu th) ltac:(lia) Hla) as Hd.
  unfold recent_cpu_step, recent_cpu_bound, nice_ok, NICE_MIN, NICE_MAX in *.
  rewrite F_val in *. split; [|bounds]. set (d := (decay_coef _ * _) ÷ _) in *.
  assert (Z.abs d ≤ 2 * n * (120 * 16384)) by nia. lia.
Qed.

Lemma stats_ok_bound n la th :
  0 ≤ n ≤ 545 → load_ok n la → nice_ok th → Z.abs (recent_cpu th) ≤ recent_cpu_bound n →
  stats_ok n la th.
Proof.
  intros Hn Hla Hni Hrc. destruct (recent_cpu_step_bound n la th) as [Hs Hb]; [done..|].
  rewrite F_val in Hs. split_and!; [bounds|done|bounds].
Qed.

Section awp_update_all.
Context {E : Env} {EL : EnvLaws E}.

Lemma awp_foreach_update f func ts Q (a : aview) :
  iv_level (intr a) = INTR_OFF → lists a !! all_list = Some (thread_allelem <$> ts) →
  (∀ t, t ∈ ts → is_Some (threads a !! t)) →
  (∀ t th m (Q' : unit → aview → Prop), t ∈ ts → threads a !! t = Some th → m !! t = Some th →
     Q' () (set_threads (<[t := f t th]> m) a) → awp (func t) Q' (set_threads m a)) →
  Q () (set_threads (update_all f ts (threads a)) a) →
  awp (thread_foreach func) Q a.
Proof.
  intros Hoff Hall Hts Hf HQ. apply awp_wf. intros Hwf.
  pose proof (lists_wf_NoDup _ _ _ Hwf Hall) as Hnd. rewrite NoDup_fmap in Hnd by apply _.
  eapply (awp_thread_foreach ts _ (λ pre a', a' = set_threads (update_all f pre (threads a)) a));
    [done|done| | |by intros a' ->].
  { rewrite update_all_nil. by destruct a. }
  intros pre t post a' Hpre -> _.
  assert (Hin : t ∈ ts) by (rewrite Hpre; set_solver).
  assert (Hn : t ∉ pre).
  { rewrite Hpre in Hnd. apply NoDup_app in Hnd as (_ & Hd & _). intros Hp.
    apply (Hd t Hp). by left. }
  destruct (Hts t Hin) as [th Ht]. apply (Hf t th); [done..| |].
  - rewrite (update_all_lookup _ _ _ _ th) by done. by rewrite bool_decide_false.
  - split; [done|]. by rewrite (update_all_snoc _ _ _ _ th).
Qed.

Lemma awp_mlfqs_update_load_avg n QS cur Q (a : aview) :
  queues a QS → current_ok a cur → load_ok n (load_avg a) →
  ready_count a QS ≤ n ≤ 131071 →
  Q () (set_load_avg (load_avg_step (load_avg a) (ready_count a QS)) a) →
  awp mlfqs_update_load_avg Q a.
Proof.
  intros Hq Hc Hla Hn HQ. pose proof (ready_count_nonneg a QS) as H0.
  pose proof (load_avg_step_bounds n _ _ Hla (conj H0 (proj1 Hn))) as Hok.
  unfold mlfqs_update_load_avg. kstep.
  eapply awp_mlfqs_ready_threads; [done..|bounds|]. kstep.
  eapply awp_lift_res; [apply fp_coefs|]. do 3 kstep.
  eapply awp_lift_res; [apply fp_coefs|]. kstep.
  assert (Heq : fp_add (fp_mul coef_59_60 (load_avg a)) (fp_mul_int coef_1_60 (ready_count a QS))
                = load_avg_step (load_avg a) (ready_count a QS)).
  { unfold load_ok in *. rewrite F_val in *.
    unfold fp_add, fp_mul_int, load_avg_step, coef_59_60, coef_1_60 in *. rewrite F_val in *.
    pose proof (proj1 (quot_bounds (16110 * load_avg a) 16384 ltac:(lia)) ltac:(lia)).
    rewrite fp_mul_nonneg; rewrite ?F_val; try bounds.
    rewrite (int32_id (273 * _)), int32_id by bounds. done. }
  rewrite Heq. done.
Qed.

Lemma awp_mlfqs_reorganize QS Q (a : aview) :
  queues a QS →
  (∀ t, t ∈ queued QS → ∃ th, threads a !! t = Some th ∧ PRI_MIN ≤ priority th ≤ PRI_MAX) →
  (∀ a', laid a [] (requeued (threads a) QS) a' → Q () a') →
  awp mlfqs_reorganize_queues Q a.
Proof.
  intros Hq HT HQ. unfold mlfqs_reorganize_queues. do 3 kstep.
  apply (awp_collect a QS).
  { split; [done|]. intros l. cbn [lists set_lists]. rewrite lookup_insert.
    destruct l; try by rewrite decide_False.
    - rewrite decide_False by done. case_decide; [by apply Hq|done].
    - by rewrite decide_True. }
  intros a1 HL1. eapply awp_reinsert; [done|exact HT|exact HQ].
Qed.

Lemma requeued_perm QS (ts : gmap tptr thread) :
  (∀ t, t ∈ queued QS → ∃ th, ts !! t = Some th ∧ PRI_MIN ≤ priority th ≤ PRI_MAX) →
  Permutation (queued (requeued ts QS)) (queued QS).
Proof.
  intros HT. apply concat_filter_perm; [apply NoDup_seqZ|]. intros t Ht.
  destruct (HT t Ht) as (th & Hth & Hp). apply elem_of_priorities.
  by rewrite (thread_priority_at _ _ th).
Qed.

(** Every 4 ticks. *)
Lemma awp_mlfqs_update_priority_all QS ts Q (a : aview) :
  iv_level (intr a) = INTR_OFF → lists a !! all_list = Some (thread_allelem <$> ts) →
  (∀ t, t ∈ ts → is_Some (threads a !! t)) → queues a QS →
  (∀ t, t ∈ queued QS → ∃ th, threads a !! t = Some th ∧ PRI_MIN ≤ priority th ≤ PRI_MAX) →
  (∀ a', let m := update_all (reprioritise (idle_thread a)) ts (threads a) in
     laid (set_threads m a) [] (requeued m QS) a' →
     Permutation (queued (requeued m QS)) (queued QS) → Q () a') →
  awp mlfqs_update_priority_all Q a.
Proof.
  intros Hoff Hall Hts Hq HT HQ. unfold mlfqs_update_priority_all. kstep.
  eapply (awp_foreach_update (reprioritise (idle_thread a))); [done..| |].
  { intros t th m Q' Hin Ht Hm HQ'. eapply awp_mlfqs_update_priority; [exact Hm|].
    unfold reprioritise in HQ'. cbn in *. case_bool_decide; [|done].
    by rewrite insert_id in HQ'. }
  set (m := update_all _ _ _).
  assert (HT' : ∀ t, t ∈ queued QS →
    ∃ th, m !! t = Some th ∧ PRI_MIN ≤ priority th ≤ PRI_MAX).
  { intros t Ht. destruct (HT t Ht) as (th & Hth & Hp). eexists.
    split; [by apply update_all_lookup|]. unfold reprioritise.
    repeat case_bool_decide; [done|apply mlfqs_priority_raw_range|done]. }
  apply (awp_mlfqs_reorganize QS); [exact Hq|exact HT'|].
  intros a' HL. apply HQ; [exact HL|by apply requeued_perm].
Qed.

(** Every second. *)
Lemma awp_mlfqs_update_rcpu_la n QS ts cur Q (a : aview) :
  iv_level (intr a) = INTR_OFF → lists a !! all_list = Some (thread_allelem <$> ts) →
  0 ≤ n ≤ 65535 → load_ok n (load_avg a) →
  (∀ t, t ∈ ts → ∃ th, threads a !! t = Some th ∧ stats_ok n (load_avg a) th) →
  queues a QS → current_ok a cur → ready_count a QS ≤ n →
  Q () (set_load_avg (load_avg_step (load_avg a) (ready_count a QS))
         (set_threads (update_all (decay (idle_thread a) (load_avg a)) ts (threads a)) a)) →
  awp mlfqs_update_rcpu_la Q a.
Proof.
  intros Hoff Hall Hn Hla Hts Hq Hc Hr HQ. unfold mlfqs_update_rcpu_la. kstep.
  eapply (awp_foreach_update (decay (idle_thread a) (load_avg a))); [done..| | |].
  { intros t Hin. by destruct (Hts t Hin) as (th & -> & _). }
  { intros t th m Q' Hin Ht Hm HQ'. destruct (Hts t Hin) as (th' & Ht' & Hrc & Hni & Hst).
    rewrite Ht in Ht'. injection Ht' as <-.
    eapply (awp_mlfqs_update_recent_cpu n); [exact Hm|exact Hn|exact Hla|done..|].
    unfold decay in HQ'. cbn in *. case_bool_decide; [|done]. by rewrite insert_id in HQ'. }
  destruct Hc as (Hcur & Hok & Hst).
  eapply (awp_mlfqs_update_load_avg n QS
    (if bool_decide (running a ∈ ts) then decay (idle_thread a) (load_avg a) (running a) cur else cur));
    [exact Hq| |exact Hla|split; [exact Hr|lia]|exact HQ].
  unfold current_ok. cbn. rewrite (update_all_lookup _ _ _ _ cur) by done.
  split; [done|]. unfold decay. repeat case_bool_decide; done.
Qed.
End awp_update_all.

(** * Properties *)
Section properties.
Context {E : Env} {EL : EnvLaws E}.

(** C33: A priority update assigns the clamped formula
    [PRI_MAX - recent_cpu/4 - nice*2] to the thread and changes nothing else;
    the idle thread is left alone; and whatever the statistics, even if the
    arithmetic wraps, the new priority is between [PRI_MIN] and [PRI_MAX]. *)
Theorem mlfqs_update_priority_spec t th (a : aview) :
  threads a !! t = Some th →
  awp (mlfqs_update_priority t)
    (λ _ a', (Some t = idle_thread a → a' = a) ∧
             (Some t ≠ idle_thread a → ∃ p,
                a' = set_threads (<[t := with_priority p th]> (threads a)) a ∧
                PRI_MIN ≤ p ≤ PRI_MAX ∧
                (in_int32 (recent_cpu th) → nice_ok th → p = mlfqs_priority th))) a.
Proof.
  intros Ht. eapply awp_mlfqs_update_priority; [done|]. case_bool_decide as Hi.
  - by split.
  - split; [done|]. intros _. eexists. split_and!; [done|apply mlfqs_priority_raw_range..|].
    apply mlfqs_priority_raw_exact.
Qed.

(** C27: The load average moves to [59/60*load_avg + 1/60*ready_threads] in
    fixed point, where the ready threads are the queued ones and the running
    one if it is not the idle thread.  A load average that never exceeded [n]
    threads does not exceed [n] afterwards, no operation overflows, and the
    error against the exact formula is bounded. *)
Theorem mlfqs_update_load_avg_spec n Q cur (a : aview) :
  queues a Q → current_ok a cur → load_ok n (load_avg a) →
  ready_count a Q ≤ n ≤ 131071 →
  awp mlfqs_update_load_avg
    (λ _ a', a' = set_load_avg (load_avg_step (load_avg a) (ready_count a Q)) a ∧
             load_ok n (load_avg a') ∧
             0 ≤ 59 * load_avg a + ready_count a Q * F - 60 * load_avg a' ∧
             F * (59 * load_avg a + ready_count a Q * F - 60 * load_avg a') ≤
               56 * load_avg a + F * (60 + 4 * ready_count a Q)) a.
Proof.
  intros Hq Hc Hla Hn. pose proof (ready_count_nonneg a Q) as H0.
  eapply (awp_mlfqs_update_load_avg n Q); [done..|]. split_and!; [done| |..].
  - apply (load_avg_step_bounds n (load_avg a)); [done|lia].
  - by apply (load_avg_step_error (load_avg a)); [apply Hla|].
  - by apply (load_avg_step_error (load_avg a)); [apply Hla|].
Qed.

(** C26: A recent_cpu update assigns [coef*recent_cpu + nice], with the decay
    factor computed from the load average, and changes nothing else.  With a
    load of at most [n <= 545] threads and admissible [nice], a [recent_cpu]
    within [recent_cpu_bound n] stays within it even after the 100 ticks that
    follow, so that in the long run the statistics never overflow. *)
Theorem mlfqs_update_recent_cpu_spec n t th (a : aview) :
  threads a !! t = Some th → 0 ≤ n ≤ 545 → load_ok n (load_avg a) → nice_ok th →
  Z.abs (recent_cpu th) ≤ recent_cpu_bound n →
  awp (mlfqs_update_recent_cpu t)
    (λ _ a', (Some t = idle_thread a → a' = a) ∧
             (Some t ≠ idle_thread a →
                let rc := recent_cpu_step (load_avg a) th in
                a' = set_threads (<[t := with_recent_cpu rc th]> (threads a)) a ∧
                Z.abs rc + 100 * F ≤ recent_cpu_bound n ∧
                in_int32 (recent_cpu_bound n))) a.
Proof.
  intros Ht Hn Hla Hni Hrc.
  destruct (recent_cpu_step_bound n (load_avg a) th) as [Hs Hb]; [done..|].
  destruct (stats_ok_bound n (load_avg a) th) as (? & ? & ?); [done..|].
  eapply (awp_mlfqs_update_recent_cpu n); [done|lia|done..|].
  case_bool_decide as Hi; [by split|]. by split.
Qed.

(** The next thread to run is the first one of the highest queue that is
    not empty, taken off that queue; when all queues are empty it is the idle
    thread, and nothing changes. *)
Theorem mlfqs_next_thread_to_run_spec Q (a : aview) :
  queues a Q →
  awp mlfqs_next_thread_to_run
    (λ r a', ((∀ i, i ∈ priorities → Q i = []) ∧ r = idle_thread a ∧ a' = a) ∨
             ∃ i t q, i ∈ priorities ∧ Q i = t :: q ∧
               (∀ j, j ∈ priorities → i < j → Q j = []) ∧ r = Some t ∧
               a' = set_lists (<[mlfqs_list i := elems q]> (lists a)) a) a.
Proof.
  intros Hq. apply (awp_mlfqs_next_from _ Q).
  - intros i Hi. by apply Hq, elem_of_rev_priorities.
  - intros Hnone. left. split_and!; [|done..]. intros i Hi.
    by apply Hnone, elem_of_rev_priorities.
  - intros pre i post t q Hjs Hpre Hi. right. exists i, t, q.
    split_and!; [|done| |done..].
    { apply elem_of_rev_priorities. rewrite Hjs. set_solver. }
    intros j Hj Hij. by eapply Hpre, rev_priorities_above.
Qed.

(** C28: A reorganisation leaves in each queue exactly the queued threads of
    that priority, in the order they had in the concatenation of the queues
    from the lowest to the highest; nothing is lost or duplicated, and no
    other list and no other part of the state changes. *)
Theorem mlfqs_reorganize_queues_spec Q (a : aview) :
  queues a Q →
  (∀ t, t ∈ queued Q → ∃ th, threads a !! t = Some th ∧ PRI_MIN ≤ priority th ≤ PRI_MAX) →
  awp mlfqs_reorganize_queues
    (λ _ a', laid a [] (requeued (threads a) Q) a' ∧
             Permutation (queued (requeued (threads a) Q)) (queued Q)) a.
Proof.
  intros Hq HT. eapply (awp_mlfqs_reorganize Q); [done..|]. intros a' HL.
  split; [exact HL|by apply requeued_perm].
Qed.
End properties.

(** * Witnesses *)
Section witnesses.
#[local] Existing Instances concrete_env concrete_env_laws.

(** Two threads queued at their old priority 40, one of which has dropped to
    20, where another one waits; thread 2 has used the processor. *)
Definition wit_queues (i : Z) : list tptr :=
  if i =? 40 then [2; 3]%positive else if i =? 20 then [4]%positive else [].

Definition wit_thread : thread :=
  with_recent_cpu 1638400 (with_nice 5 (sample_thread 2 THREAD_READY 40)).

Definition wit_state : kstate :=
  sample_state true
    [(1%positive, sample_thread 1 THREAD_RUNNING 31); (2%positive, wit_thread);
     (3%positive, sample_thread 3 THREAD_READY 20); (4%positive, sample_thread 4 THREAD_READY 20)]
    (sample_queues wit_queues).

Lemma wit_queues_ok : queues (obs wit_state) wit_queues.
Proof.
  assert (H : Forall (λ i, lists (obs wit_state) !! mlfqs_list i = Some (elems (wit_queues i)))
                priorities).
  { apply (bool_decide_eq_true_1 _). vm_compute. reflexivity. }
  intros i Hi. by apply (proj1 (Forall_forall _ _) H).
Qed.

Lemma mlfqs_update_priority_spec_witness :
  holds_at (mlfqs_update_priority 2)
    (λ _ a', thread_priority (threads a') 2 = 28) wit_state.
Proof.
  eapply holds_mono.
  - apply awp_holds, (mlfqs_update_priority_spec 2 wit_thread). reflexivity.
  - intros [] a' [_ H]. destruct H as (p & -> & _ & Hp); [discriminate|].
    rewrite Hp; [reflexivity|vm_compute; split; discriminate..].
Defined.

Lemma mlfqs_update_load_avg_spec_witness :
  holds_at mlfqs_update_load_avg (λ _ a', load_avg a' = 4 * coef_1_60) wit_state.
Proof.
  eapply holds_mono.
  - apply awp_holds, (mlfqs_update_load_avg_spec 4 wit_queues
      (sample_thread 1 THREAD_RUNNING 31));
      [apply wit_queues_ok|repeat split|vm_compute; split; discriminate..].
  - intros [] a' [-> _]. reflexivity.
Defined.

Lemma mlfqs_update_recent_cpu_spec_witness :
  holds_at (mlfqs_update_recent_cpu 2)
    (λ _ a', recent_cpu <$> threads a' !! 2%positive = Some (5 * F)) wit_state.
Proof.
  eapply holds_mono.
  - apply awp_holds, (mlfqs_update_recent_cpu_spec 4 2 wit_thread);
      [reflexivity|vm_compute; try split; discriminate..].
  - intros [] a' [_ H]. destruct H as (-> & _); [discriminate|]. reflexivity.
Defined.

Lemma mlfqs_next_thread_to_run_spec_witness :
  holds_at mlfqs_next_thread_to_run (λ r _, r = Some 2%positive) wit_state.
Proof.
  eapply holds_mono.
  - apply awp_holds, (mlfqs_next_thread_to_run_spec wit_queues), wit_queues_ok.
  - intros r a' [(H & _)|(i & t & q & _ & Hq & Hj & -> & _)].
    + specialize (H 40 ltac:(by apply elem_of_priorities)). discriminate.
    + unfold wit_queues in Hq. destruct (Z.eqb_spec i 40); [by injection Hq as <- _|].
      destruct (Z.eqb_spec i 20) as [->|]; [|discriminate].
      specialize (Hj 40 ltac:(by apply elem_of_priorities) eq_refl). discriminate.
Defined.

Lemma mlfqs_reorganize_queues_spec_witness :
  holds_at mlfqs_reorganize_queues
    (λ _ a', lists a' !! mlfqs_list 20 = Some (elems [4; 3]%positive)) wit_state.
Proof.
  eapply holds_mono.
  - apply awp_holds, (mlfqs_reorganize_queues_spec wit_queues); [apply wit_queues_ok|].
    intros t Ht. change (queued wit_queues) with [4; 2; 3]%positive in Ht.
    apply elem_of_cons in Ht as [->|[->|[->|[]%elem_of_nil]%elem_of_cons]%elem_of_cons];
      (eexists; split; [reflexivity|vm_compute; split; discriminate]).
  - intros [] a' [[_ H] _]. rewrite H. rewrite decide_True by (by apply elem_of_priorities).
    reflexivity.
Defined.
End witnesses.
