(* ===== verification/Donation.v ===== *)
(** threads/thread.c: priority donation along chains of lock holders
    ([donate_priority]) and its recomputation ([refresh_priority]). *)
From S2P Require Import Prelude Env Kernel Thread Sample.

Section donation.
Context {E : Env}.

(** The recursion, with fuel. *)
Fixpoint donate_priority_from (n : nat) (from to : option tptr) : K unit :=
  match n with
  | O => fail EOutOfFuel
  | S n =>
      ASSERT (bool_decide (is_Some from)) "donate_priority: from != NULL";;
      ASSERT (bool_decide (is_Some to)) "donate_priority: to != NULL";;
      from_ ← lift_opt EBadPtr from;
      to_ ← lift_opt EBadPtr to;
      f ← deref from_;
      t ← deref to_;
      if priority f >? priority t then
        store to_ (with_priority (priority f));;
        match waiting_lock t with
        | None => mret ()
        | Some lock =>
            holder ← lock_holder lock;
            match holder with
            | None => mret ()
            | Some _ => donate_priority_from n to holder
            end
        end
      else mret ()
  end.

(** Each recursive call raises the priority of one more thread to that of the
    first donor, so one call per thread and a last one are enough. *)
Definition donate_priority (from to : option tptr) : K unit :=
  n ← gets (λ s, size (threads s));
  donate_priority_from (S n) from to.

(** Sets the priority to the maximum of the base priority and the priorities of
    the threads waiting for the locks the thread holds: the body of the inner
    loop, of the outer loop, and the whole. *)
Definition refresh_waiter (t : tptr) (w : elem_ptr) : K unit :=
  waiter ← lift_opt EBadPtr (entry_elem w);
  wth ← deref waiter;
  th ← deref t;
  if priority wth >? priority th then store t (with_priority (priority wth)) else mret ().

Definition refresh_lock (t : tptr) (e : elem_ptr) : K unit :=
  lock ← lift_opt EBadPtr (entry_lock e);
  b ← k_list_empty (lock_waiters lock);
  if negb b then list_for (lock_waiters lock) (refresh_waiter t) else mret ().

Definition refresh_priority (t : option tptr) : K unit :=
  ASSERT (bool_decide (is_Some t)) "refresh_priority: t != NULL";;
  t_ ← lift_opt EBadPtr t;
  th ← deref t_;
  store t_ (with_priority (base_priority th));;
  list_for (locks_held t_) (refresh_lock t_).
End donation.

(** * Chains of waiting threads *)

(** The holder of the lock that [u] waits for. *)
Definition waits_for {L I P} (a : kst L I P) (u : tptr) : option tptr :=
  th ← threads a !! u; l ← waiting_lock th; h ← holders a !! l; h.

(** Locks waited for exist, and holders and donors are live threads. *)
Definition waits_ok {L I P} (a : kst L I P) : Prop :=
  ∀ u th l, threads a !! u = Some th → waiting_lock th = Some l →
    ∃ h, holders a !! l = Some h ∧
      match h with None => True | Some v => is_Some (threads a !! v) end.

(** The same as a test. *)
Definition waits_check {L I P} (a : kst L I P) : bool :=
  bool_decide (map_Forall (λ _ th, Is_true (
    match waiting_lock th with
    | None => true
    | Some l =>
        match holders a !! l with
        | None => false
        | Some None => true
        | Some (Some v) => bool_decide (is_Some (threads a !! v))
        end
    end)) (threads a)).

Lemma waits_check_ok {L I P} (a : kst L I P) : waits_check a = true → waits_ok a.
Proof.
  intros H%bool_decide_eq_true u th l Hu Hl. specialize (H u th Hu). simpl in H.
  rewrite Hl in H. destruct (holders a !! l) as [[v|]|]; [|eauto|done].
  exists (Some v). split; [done|]. by apply bool_decide_spec in H.
Qed.

(** [c] follows the waits-for relation from [t]. *)
Fixpoint wait_path (next : tptr → option tptr) (t : tptr) (c : list tptr) : Prop :=
  match c with
  | [] => True
  | u :: c' => u = t ∧ match c' with [] => True | v :: _ => next u = Some v ∧ wait_path next v c' end
  end.

Lemma wait_path_ext next next' t c :
  (∀ u, next u = next' u) → wait_path next t c → wait_path next' t c.
Proof.
  intros Hn. revert t. induction c as [|u c IH]; simpl; [done|].
  intros t [-> Hc]. split; [done|]. destruct c as [|v c]; [done|].
  destruct Hc as [Huv Hc]. rewrite Hn in Huv. auto.
Qed.

(** The threads of [c] get priority [p]. *)
Definition raise (p : Z) (c : list tptr) (ts : gmap tptr thread) : gmap tptr thread :=
  foldr (alter (with_priority p)) ts c.

Lemma lookup_raise p c ts u :
  raise p c ts !! u = (if decide (u ∈ c) then with_priority p else id) <$> ts !! u.
Proof.
  induction c as [|v c IH]; simpl.
  - by destruct (ts !! u).
  - destruct (decide (u = v)) as [->|Hne].
    + rewrite lookup_alter_eq, IH, (decide_True (P := v ∈ v :: c)) by left.
      destruct (ts !! v); [|done]. simpl. by case_decide.
    + rewrite lookup_alter_ne, IH by done.
      destruct (decide (u ∈ c)); [by rewrite decide_True by by right|].
      rewrite decide_False; [done|]. by intros [?|?]%elem_of_cons.
Qed.

Lemma thread_priority_raise p c ts u :
  is_Some (ts !! u) →
  thread_priority (raise p c ts) u = if decide (u ∈ c) then p else thread_priority ts u.
Proof.
  intros [th Hu]. unfold thread_priority. rewrite lookup_raise, Hu. by case_decide.
Qed.

(** The threads below priority [p]: the measure of the recursion. *)
Definition below (p : Z) (ts : gmap tptr thread) : nat :=
  size (filter (λ x : tptr * thread, priority x.2 < p) ts).

Lemma below_size p ts : (below p ts ≤ size ts)%nat.
Proof. apply map_size_filter. Qed.

Lemma below_raise p ts t th :
  ts !! t = Some th → priority th < p →
  (below p (<[t := with_priority p th]> ts) < below p ts)%nat.
Proof.
  intros Ht Hp. unfold below.
  rewrite map_filter_insert_False by (simpl; lia).
  rewrite map_filter_delete.
  assert (Hf : filter (λ x : tptr * thread, priority x.2 < p) ts !! t = Some th)
    by (by apply map_lookup_filter_Some).
  rewrite map_size_delete_Some by eauto.
  assert (size (filter (λ x : tptr * thread, priority x.2 < p) ts) ≠ 0%nat); [|lia].
  rewrite map_size_ne_0_lookup. eauto.
Qed.

Lemma raise_cons p t th c ts :
  ts !! t = Some th → t ∉ c →
  raise p c (<[t := with_priority p th]> ts) = raise p (t :: c) ts.
Proof.
  intros Ht Hc. apply map_eq. intros u. rewrite !lookup_raise.
  destruct (decide (u = t)) as [->|Hne].
  - by rewrite lookup_insert_eq, decide_False, decide_True, Ht by (done || by left).
  - rewrite lookup_insert_ne by done. destruct (decide (u ∈ c)).
    + by rewrite decide_True by by right.
    + rewrite decide_False; [done|]. by intros [?|?]%elem_of_cons.
Qed.

(** What a donation of priority [p] to [t] does: it raises a chain of distinct
    waiting threads of lower priority, as long as it can be. *)
Definition donated {L I P} (p : Z) (a : kst L I P) (t : tptr) (c : list tptr) : Prop :=
  NoDup c ∧ wait_path (waits_for a) t c ∧
  (∀ u, u ∈ c → is_Some (threads a !! u) ∧ (thread_priority (threads a) u < p)) ∧
  (∀ v, v = t ∨ (∃ u, u ∈ c ∧ waits_for a u = Some v) →
     p ≤ thread_priority (raise p c (threads a)) v).

Lemma raise_le p c ts :
  (∀ u, u ∈ c → is_Some (ts !! u) ∧ (thread_priority ts u < p)) →
  ∀ u, thread_priority ts u ≤ thread_priority (raise p c ts) u.
Proof.
  intros Hc u. destruct (ts !! u) as [th|] eqn:Hu.
  - rewrite thread_priority_raise by eauto. case_decide as Hin; [|done].
    destruct (Hc u Hin). lia.
  - unfold thread_priority. by rewrite lookup_raise, Hu.
Qed.

Lemma waits_for_raise {L I P} p c (a : kst L I P) u :
  waits_for (set_threads (raise p c (threads a)) a) u = waits_for a u.
Proof.
  unfold waits_for. cbn [threads set_threads holders]. rewrite lookup_raise.
  destruct (threads a !! u); [|done]. by destruct (decide (u ∈ c)).
Qed.

(** Donations are in place: nobody waits for a thread of lower priority. *)
Definition donations_made {L I P} (a : kst L I P) : Prop :=
  ∀ u v, waits_for a u = Some v → thread_priority (threads a) u ≤ thread_priority (threads a) v.

(** If they are, but for the donor, a donation puts its own in place too. *)
Lemma donated_made {L I P} p (a : kst L I P) f t c :
  donated p a t c → waits_for a f = Some t → thread_priority (threads a) f = p →
  (∀ u v, u ≠ f → waits_for a u = Some v →
     thread_priority (threads a) u ≤ thread_priority (threads a) v) →
  donations_made (set_threads (raise p c (threads a)) a).
Proof.
  intros (_ & _ & Hc & Hv) Hf Hp Hm u v Hu. rewrite waits_for_raise in Hu.
  cbn [threads set_threads]. destruct (threads a !! u) as [th|] eqn:Hth.
  2:{ unfold waits_for in Hu. by rewrite Hth in Hu. }
  rewrite thread_priority_raise by eauto. case_decide as Hin; [by apply Hv; right; exists u|].
  destruct (decide (u = f)) as [->|Hne].
  - rewrite Hp. apply Hv. left. congruence.
  - etrans; [by apply Hm|]. by apply raise_le.
Qed.

(** Then every thread somebody waits for, directly or not, has at least the
    priority of the one that waits. *)
Lemma donations_chain {L I P} (a : kst L I P) u v :
  donations_made a → rtc (λ x y, waits_for a x = Some y) u v →
  thread_priority (threads a) u ≤ thread_priority (threads a) v.
Proof. intros Hm. induction 1 as [|x y z Hxy _ IH]; [done|]. etrans; [by apply Hm|done]. Qed.

Section awp_donation.
Context {E : Env} {EL : EnvLaws E}.

Lemma waits_for_priority (a : aview) t th p u :
  threads a !! t = Some th →
  waits_for (set_threads (<[t := with_priority p th]> (threads a)) a) u = waits_for a u.
Proof.
  intros Ht. unfold waits_for. cbn [threads set_threads holders].
  destruct (decide (u = t)) as [->|]; [|by rewrite lookup_insert_ne].
  by rewrite lookup_insert_eq, Ht.
Qed.

Lemma waits_ok_priority (a : aview) t th p :
  threads a !! t = Some th → waits_ok a →
  waits_ok (set_threads (<[t := with_priority p th]> (threads a)) a).
Proof.
  intros Ht Hok u uth l. cbn [threads set_threads holders].
  assert (Hdom : ∀ v, is_Some (threads a !! v) →
    is_Some (<[t := with_priority p th]> (threads a) !! v)).
  { intros v Hv. apply lookup_insert_is_Some. destruct (decide (t = v)); auto. }
  intros [[<- <-]|[? Hu]]%lookup_insert_Some Hl.
  - destruct (Hok t th l Ht Hl) as (h & Hh & Hd). exists h. split; [done|].
    destruct h; [by apply Hdom|done].
  - destruct (Hok u uth l Hu Hl) as (h & Hh & Hd). exists h. split; [done|].
    destruct h; [by apply Hdom|done].
Qed.

(** The chain below a raised thread extends to the chain from it. *)
Lemma donated_cons (a : aview) p t th c :
  threads a !! t = Some th → priority th < p →
  let a1 := set_threads (<[t := with_priority p th]> (threads a)) a in
  match waits_for a t with Some v => donated p a1 v c | None => c = [] end →
  t ∉ c ∧ donated p a t (t :: c).
Proof.
  intros Ht Hp a1 Hc.
  assert (Ha1 : ∀ u, u ≠ t → thread_priority (threads a1) u = thread_priority (threads a) u).
  { intros u Hne. unfold thread_priority. cbn [a1 threads set_threads].
    by rewrite lookup_insert_ne. }
  assert (Htp : thread_priority (threads a1) t = p).
  { unfold thread_priority. cbn [a1 threads set_threads]. by rewrite lookup_insert_eq. }
  assert (Hw : ∀ u, waits_for a1 u = waits_for a u) by (intros; by apply waits_for_priority).
  assert (Hnt : t ∉ c).
  { destruct (waits_for a t); [|subst c; apply not_elem_of_nil].
    destruct Hc as (_ & _ & Hc & _). intros Hin. destruct (Hc t Hin). lia. }
  split; [done|]. unfold donated.
  assert (Hend : ∀ v, v = t ∨ (∃ u, u ∈ t :: c ∧ waits_for a u = Some v) →
    p ≤ thread_priority (raise p (t :: c) (threads a)) v).
  { intros v Hv. rewrite <- (raise_cons p t th) by done.
    change (<[t := with_priority p th]> (threads a)) with (threads a1).
    destruct (decide (v = t)) as [->|Hvt].
    { rewrite thread_priority_raise by (cbn; rewrite lookup_insert_eq; eauto).
      case_decide; lia. }
    destruct Hv as [?|(u & [->|Hu]%elem_of_cons & Huv)]; [done|..].
    - rewrite Huv in Hc. destruct Hc as (_ & _ & _ & Hc). apply Hc. by left.
    - destruct (waits_for a t); [|subst c; by apply elem_of_nil in Hu].
      destruct Hc as (_ & _ & _ & Hc). apply Hc. right. exists u. by rewrite Hw. }
  assert (Htt : thread_priority (threads a) t = priority th)
    by (unfold thread_priority; by rewrite Ht).
  destruct (waits_for a t) as [v|] eqn:Hv; [|subst c].
  - destruct Hc as (Hnd & Hpath & Hlow & _). split_and!; [by constructor| | |exact Hend].
    + apply (wait_path_ext _ _ _ _ Hw) in Hpath. simpl. split; [done|].
      destruct c as [|u c]; [done|]. destruct Hpath as [-> Hpath]. done.
    + intros u [->|Hu]%elem_of_cons; [split; [eauto|lia]|].
      destruct (Hlow u Hu) as [Hd Hlt].
      assert (u ≠ t) by (intros ->; done). rewrite Ha1 in Hlt by done. split; [|done].
      cbn [a1 threads set_threads] in Hd. by rewrite lookup_insert_ne in Hd.
  - split_and!; [apply NoDup_singleton|done| |exact Hend].
    intros u ->%list_elem_of_singleton. split; [eauto|lia].
Qed.

Lemma awp_donate_priority_from n f fth t (a : aview) Q :
  threads a !! f = Some fth → is_Some (threads a !! t) → waits_ok a →
  (below (priority fth) (threads a) < n)%nat →
  (∀ c, donated (priority fth) a t c →
     Q () (set_threads (raise (priority fth) c (threads a)) a)) →
  awp (donate_priority_from n (Some f) (Some t)) Q a.
Proof.
  revert f fth t a. induction n as [|n IH]; intros f fth t a Hf [th Ht] Hok Hn HQ; [lia|].
  cbn [donate_priority_from]. ksteps.
  assert (Htp : thread_priority (threads a) t = priority th)
    by (unfold thread_priority; by rewrite Ht).
  destruct (Z.gtb_spec (priority fth) (priority th)) as [Hlt|Hge].
  2:{ apply awp_ret. replace a with (set_threads (raise (priority fth) [] (threads a)) a)
        by by destruct a.
      apply HQ. split_and!; [constructor|done|by intros ? ?%elem_of_nil|].
      intros v [->|(? & ?%elem_of_nil & _)]; simpl; [lia|done]. }
  set (p := priority fth) in *. kstep. eapply awp_store; [done|].
  set (a1 := set_threads (<[t := with_priority p th]> (threads a)) a).
  pose proof (donated_cons a p t th) as Hcons. cbn zeta in Hcons. fold a1 in Hcons.
  assert (Hend : waits_for a t = None → Q () a1).
  { intros Hnone. destruct (Hcons [] Ht ltac:(lia)) as [_ Hd]; [by rewrite Hnone|].
    specialize (HQ _ Hd). by rewrite <- (raise_cons p t th) in HQ by (done || apply not_elem_of_nil). }
  destruct (waiting_lock th) as [l|] eqn:Hl.
  2:{ apply awp_ret, Hend. unfold waits_for. rewrite Ht. simpl. by rewrite Hl. }
  destruct (Hok t th l Ht Hl) as (h & Hh & Hd). kstep.
  eapply awp_lock_holder; [exact Hh|].
  assert (Hw : waits_for a t = h).
  { unfold waits_for. rewrite Ht. simpl. rewrite Hl. simpl. by rewrite Hh. }
  destruct h as [v|]; [|by apply awp_ret, Hend].
  eapply (IH t (with_priority p th) v a1); cbn [priority with_priority].
  - cbn. apply lookup_insert_eq.
  - cbn. apply lookup_insert_is_Some. destruct (decide (t = v)); auto.
  - by apply waits_ok_priority.
  - pose proof (below_raise p (threads a) t th Ht ltac:(lia)). cbn in *. lia.
  - intros c Hc. destruct (Hcons c Ht ltac:(lia)) as [Hnc Hdc]; [by rewrite Hw|].
    specialize (HQ _ Hdc). by rewrite <- (raise_cons p t th) in HQ by done.
Qed.
End awp_donation.

(** * Recomputation *)

#[global] Instance lock_elem_inj : Inj (=) (=) lock_elem.
Proof. by intros ?? [= ->]. Qed.

(** The priority [refresh_priority] computes for thread [t], which is not counted
    as a waiter of its own locks. *)
Definition refreshed (ts : gmap tptr thread) (t : tptr) (base : Z) (ws : list tptr) : Z :=
  foldr (λ w p, Z.max p (thread_priority ts w)) base (filter (.≠ t) ws).

Lemma refreshed_app ts t base ws vs :
  refreshed ts t base (ws ++ vs) = refreshed ts t (refreshed ts t base vs) ws.
Proof. unfold refreshed. by rewrite filter_app, foldr_app. Qed.

Lemma refreshed_max ts t base ws w :
  base ≤ refreshed ts t base ws ∧
  (w ∈ ws → w ≠ t → thread_priority ts w ≤ refreshed ts t base ws) ∧
  (refreshed ts t base ws = base ∨
   ∃ v, v ∈ ws ∧ v ≠ t ∧ refreshed ts t base ws = thread_priority ts v).
Proof.
  unfold refreshed. induction ws as [|v ws (IH1 & IH2 & IH3)].
  { split_and!; [simpl; lia|by intros ?%elem_of_nil|by left]. }
  rewrite filter_cons. destruct (decide (v ≠ t)) as [Hv|Hv]; simpl.
  - split_and!; [lia| |].
    + intros [->|Hw]%elem_of_cons ?; [lia|]. specialize (IH2 Hw ltac:(done)). lia.
    + match goal with |- Z.max ?x ?y = _ ∨ _ => destruct (Z.max_spec x y) as [[? ->]|[? ->]] end.
      * right. exists v. split_and!; [by left|done|done].
      * destruct IH3 as [->|(u & ? & ? & ->)]; [by left|]. right. exists u.
        split_and!; [by right|done|done].
  - split_and!; [done| |].
    + intros [->|Hw]%elem_of_cons ?; [by destruct Hv|auto].
    + destruct IH3 as [->|(u & ? & ? & ->)]; [by left|]. right. exists u.
      split_and!; [by right|done|done].
Qed.

Section awp_refresh.
Context {E : Env} {EL : EnvLaws E}.

(** The state after the waiters [seen], latest first, have been looked at. *)
Definition refreshing (a : aview) (t : tptr) (th : thread) (seen : list tptr) : aview :=
  set_threads (<[t := with_priority
    (refreshed (threads a) t (base_priority th) seen) th]> (threads a)) a.

Lemma refreshed_cons ts t base w wth seen :
  ts !! w = Some wth →
  refreshed ts t base (w :: seen) =
    if decide (w = t) then refreshed ts t base seen
    else Z.max (refreshed ts t base seen) (priority wth).
Proof.
  intros Hw. unfold refreshed. rewrite filter_cons.
  destruct (decide (w ≠ t)), (decide (w = t)); try done. simpl.
  f_equal. unfold thread_priority. by rewrite Hw.
Qed.

Lemma awp_refresh_waiter (a : aview) t th w seen Q :
  threads a !! t = Some th → is_Some (threads a !! w) →
  Q () (refreshing a t th (w :: seen)) →
  awp (refresh_waiter t (thread_elem w)) Q (refreshing a t th seen).
Proof.
  intros Ht [wth Hw] HQ. unfold refresh_waiter, refreshing in *.
  rewrite (refreshed_cons _ _ _ _ wth) in HQ by done.
  set (r := refreshed _ _ _ _) in *. kstep. kstep. kstep.
  destruct (decide (w = t)) as [->|Hne].
  - eapply awp_deref; [cbn; apply lookup_insert_eq|]. kstep.
    eapply awp_deref; [cbn; apply lookup_insert_eq|]. cbn [priority with_priority].
    destruct (Z.gtb_spec r r); [lia|]. by apply awp_ret.
  - eapply awp_deref; [cbn; rewrite lookup_insert_ne by done; exact Hw|]. kstep.
    eapply awp_deref; [cbn; apply lookup_insert_eq|]. cbn [priority with_priority].
    destruct (Z.gtb_spec (priority wth) r) as [Hgt|Hle].
    + eapply awp_store; [cbn; apply lookup_insert_eq|]. cbn.
      rewrite insert_insert_eq. by rewrite Z.max_r in HQ by lia.
    + apply awp_ret. by rewrite Z.max_l in HQ by lia.
Qed.

Lemma awp_refresh_lock (a : aview) t th l ws seen Q :
  threads a !! t = Some th → lists a !! lock_waiters l = Some (elems ws) →
  (∀ w, w ∈ ws → is_Some (threads a !! w)) →
  Q () (refreshing a t th (rev ws ++ seen)) →
  awp (refresh_lock t (lock_elem l)) Q (refreshing a t th seen).
Proof.
  intros Ht Hl Hws HQ. unfold refresh_lock. do 3 kstep.
  eapply awp_list_empty; [exact Hl|].
  destruct ws as [|w0 ws0]; [by apply awp_ret|].
  set (ws := w0 :: ws0) in *. rewrite bool_decide_false by done. cbn [negb].
  eapply (awp_list_for _ _ _
    (λ es b, ∃ pre, es = elems pre ∧ b = refreshing a t th (rev pre ++ seen)));
    [exact Hl|by exists []| |].
  - intros es e post b Hes _ (pre & -> & ->).
    apply fmap_app_inv in Hes as (pre' & ws2 & Hpre & Hpost & Hws2).
    apply (inj (fmap thread_elem)) in Hpre as <-.
    symmetry in Hpost. apply fmap_cons_inv in Hpost as (w & post' & -> & -> & ->).
    eapply awp_refresh_waiter; [done|apply Hws; rewrite Hws2; set_solver|].
    split; [exact Hl|]. exists (pre ++ [w]). by rewrite fmap_app, rev_app_distr.
  - intros b _ (pre & Hpre & ->). apply (inj (fmap thread_elem)) in Hpre as <-. exact HQ.
Qed.

Lemma awp_refresh_priority (a : aview) t th ls (W : lock_ptr → list tptr) Q :
  threads a !! t = Some th → lists a !! locks_held t = Some (lock_elem <$> ls) →
  (∀ l, l ∈ ls → lists a !! lock_waiters l = Some (elems (W l))) →
  (∀ l w, l ∈ ls → w ∈ W l → is_Some (threads a !! w)) →
  Q () (refreshing a t th (rev (concat (W <$> ls)))) →
  awp (refresh_priority (Some t)) Q a.
Proof.
  intros Ht Hls HW Hw HQ. unfold refresh_priority. do 8 kstep.
  change (KSt _ _ _ _ _ _ _ _ _ _ _ _ _ _ _ _ _ _) with (refreshing a t th []).
  eapply (awp_list_for _ _ _
    (λ es b, ∃ pre, es = lock_elem <$> pre ∧
               b = refreshing a t th (rev (concat (W <$> pre)))));
    [exact Hls|by exists []| |].
  - intros es e post b Hes _ (pre & -> & ->).
    apply fmap_app_inv in Hes as (pre' & ws2 & Hpre & Hpost & ->).
    apply (inj (fmap lock_elem)) in Hpre as <-.
    symmetry in Hpost. apply fmap_cons_inv in Hpost as (l & post' & -> & -> & ->).
    eapply awp_refresh_lock; [done|apply HW; set_solver|intros w; apply Hw; set_solver|].
    split; [exact Hls|]. exists (pre ++ [l]). rewrite !fmap_app, concat_app. csimpl.
    by rewrite app_nil_r, rev_app_distr.
  - intros b _ (pre & Hpre & ->). apply (inj (fmap lock_elem)) in Hpre as <-. exact HQ.
Qed.

(** [p] is the maximum of the base priority of [t] and the priorities of the
    other threads that wait for the locks [ls]. *)
Definition fresh (ts : gmap tptr thread) (t : tptr) (th : thread) (ls : list lock_ptr)
    (W : lock_ptr → list tptr) (p : Z) : Prop :=
  base_priority th ≤ p ∧
  (∀ l w, l ∈ ls → w ∈ W l → w ≠ t → thread_priority ts w ≤ p) ∧
  (p = base_priority th ∨ ∃ l w, l ∈ ls ∧ w ∈ W l ∧ w ≠ t ∧ p = thread_priority ts w).

Lemma awp_refresh_fresh t th ls (W : lock_ptr → list tptr) Q (a : aview) :
  threads a !! t = Some th → lists a !! locks_held t = Some (lock_elem <$> ls) →
  (∀ l, l ∈ ls → lists a !! lock_waiters l = Some (elems (W l))) →
  (∀ l w, l ∈ ls → w ∈ W l → is_Some (threads a !! w)) →
  (∀ p, fresh (threads a) t th ls W p →
     Q () (set_threads (<[t := with_priority p th]> (threads a)) a)) →
  awp (refresh_priority (Some t)) Q a.
Proof.
  intros Ht Hls HW Hw HQ. eapply awp_refresh_priority; [done..|]. apply HQ.
  set (ws := rev (concat (W <$> ls))).
  assert (Hin : ∀ w, w ∈ ws ↔ ∃ l, l ∈ ls ∧ w ∈ W l).
  { intros w. unfold ws. rewrite list_elem_of_In, <- in_rev, <- list_elem_of_In.
    rewrite list_elem_of_In, in_concat. split.
    - intros (q & (l & <- & Hl)%in_map_iff & Hq). exists l.
      by rewrite !list_elem_of_In.
    - intros (l & Hl & Hq). exists (W l). rewrite !list_elem_of_In in *.
      split; [by apply in_map|done]. }
  pose proof (refreshed_max (threads a) t (base_priority th) ws) as Hmax.
  split_and!; [apply (Hmax t)| |].
  - intros l w Hl Hww Hne. apply (Hmax w); [|done]. apply Hin. eauto.
  - destruct (Hmax t) as (_ & _ & [->|(v & (l & ? & ?)%Hin & ? & ->)]); [by left|].
    right. eauto 10.
Qed.
End awp_refresh.

(** * Properties *)
Section properties.
Context {E : Env} {EL : EnvLaws E}.

(** C14: A donation from [f] to [t] always terminates, whatever the waits-for
    relation looks like, cycles included.  It raises to [f]'s priority exactly
    a duplicate-free chain of threads of lower priority that starts at [t] and
    follows the lock holders; afterwards [t] and whoever a raised thread waits
    for have at least [f]'s priority.  Nothing else changes: no priority goes
    down, and base priorities stay. *)
Theorem donate_priority_spec f fth t (a : aview) :
  threads a !! f = Some fth → is_Some (threads a !! t) → waits_ok a →
  awp (donate_priority (Some f) (Some t))
    (λ _ a', ∃ c, donated (priority fth) a t c ∧
       a' = set_threads (raise (priority fth) c (threads a)) a ∧
       ∀ u, thread_priority (threads a) u ≤ thread_priority (threads a') u) a.
Proof.
  intros Hf Ht Hok. unfold donate_priority. kstep.
  apply (awp_gets _ (size (threads a))); [by intros s <-|].
  eapply awp_donate_priority_from; [done..| |].
  - pose proof (below_size (priority fth) (threads a)). lia.
  - intros c Hc. exists c. split_and!; [done..|]. by apply raise_le, Hc.
Qed.

(** C32: [refresh_priority] sets the priority of [t] to the maximum of its base
    priority and of the priorities of the other threads on the waiting lists
    of the locks it holds: it is at least each of them, and equal to one. *)
Theorem refresh_priority_spec t th ls (W : lock_ptr → list tptr) (a : aview) :
  threads a !! t = Some th → lists a !! locks_held t = Some (lock_elem <$> ls) →
  (∀ l, l ∈ ls → lists a !! lock_waiters l = Some (elems (W l))) →
  (∀ l w, l ∈ ls → w ∈ W l → is_Some (threads a !! w)) →
  awp (refresh_priority (Some t))
    (λ _ a', ∃ p, a' = set_threads (<[t := with_priority p th]> (threads a)) a ∧
       base_priority th ≤ p ∧
       (∀ l w, l ∈ ls → w ∈ W l → w ≠ t → thread_priority (threads a) w ≤ p) ∧
       (p = base_priority th ∨ ∃ l w, l ∈ ls ∧ w ∈ W l ∧ w ≠ t ∧
          p = thread_priority (threads a) w)) a.
Proof.
  intros Ht Hls HW Hw. eapply awp_refresh_fresh; [done..|]. intros p Hp. by exists p.
Qed.
End properties.

(** * Witnesses *)
Section witnesses.
#[local] Existing Instances concrete_env concrete_env_laws.

(** Thread 1, of high priority, is about to wait for lock 1; its holder 2 waits
    for lock 2, which thread 3 holds. *)
Definition wit_state : kstate :=
  set_holders (<[lock_at 1 := Some 2%positive]> {[lock_at 2 := Some 3%positive]})
    (sample_state false
      [(1%positive, sample_thread 1 THREAD_RUNNING 50);
       (2%positive, with_waiting_lock (Some (lock_at 2)) (sample_thread 2 THREAD_BLOCKED 20));
       (3%positive, sample_thread 3 THREAD_READY 10)]
      [(ready_list, elems [3%positive]); (locks_held 2, [lock_elem (lock_at 1)]);
       (lock_waiters (lock_at 1), elems [1%positive])]).

Lemma donate_priority_spec_witness :
  holds_at (donate_priority (Some 1%positive) (Some 2%positive))
    (λ _ a', 50 ≤ thread_priority (threads a') 2) wit_state.
Proof.
  eapply holds_mono.
  - apply awp_holds, (donate_priority_spec 1 (sample_thread 1 THREAD_RUNNING 50) 2);
      [reflexivity|eexists; reflexivity|]. apply waits_check_ok. vm_compute. reflexivity.
  - intros [] a' (c & (_ & _ & _ & Hc) & -> & _). apply Hc. by left.
Defined.

Lemma refresh_priority_spec_witness :
  holds_at (refresh_priority (Some 2%positive))
    (λ _ a', 50 ≤ thread_priority (threads a') 2) wit_state.
Proof.
  eapply holds_mono.
  - apply awp_holds, (refresh_priority_spec 2
      (with_waiting_lock (Some (lock_at 2)) (sample_thread 2 THREAD_BLOCKED 20))
      [lock_at 1] (λ _, [1%positive])); [reflexivity..| |].
    + intros l ->%list_elem_of_singleton. reflexivity.
    + intros l w _ ->%list_elem_of_singleton. eexists. reflexivity.
  - intros [] a' (p & -> & _ & Hp & _).
    apply (Hp (lock_at 1) 1%positive); [by left..|discriminate].
Defined.
End witnesses.
