(* ===== verification/Ready.v ===== *)
(** threads/thread.c: the two ready queues behind one interface.

    [ReadyQueue] says what the scheduler relies on: a sequence of ready threads
    that [push] inserts a thread into by priority, behind its equals, and [pop]
    takes the first thread of.  The ordered list [ready_list] of the priority
    scheduler and the 64 queues [mlfqs_list] of the feedback scheduler both
    implement it, and so does the code of thread.c that chooses between them by
    [thread_mlfqs]. *)
From S2P Require Import Prelude Env Kernel Thread Mlfqs.

Section code.
Context {E : Env}.

(** The statements of [thread_unblock], [thread_yield] and [next_thread_to_run]
    for the priority scheduler. *)
Definition ready_list_insert (t : tptr) : K unit :=
  k_list_insert_ordered ready_list (thread_elem t) less_priority.

Definition ready_list_next : K (option tptr) :=
  b ← k_list_empty ready_list;
  if (b : bool) then get_idle_thread
  else e ← k_list_pop_front ready_list; t ← lift_opt EBadPtr (entry_elem e); mret (Some t).

(** [if(!thread_mlfqs) ... else mlfqs_insert(cur)] *)
Definition ready_insert (t : tptr) : K unit :=
  m ← get_thread_mlfqs;
  if negb m then ready_list_insert t else mlfqs_insert t.

Definition next_thread_to_run : K (option tptr) :=
  m ← get_thread_mlfqs;
  if (m : bool) then mlfqs_next_thread_to_run else ready_list_next.
End code.

(** The lists the schedulers own. *)
Definition sched_list (l : list_ptr) : bool :=
  match l with ready_list | mlfqs_list _ => true | _ => false end.

(** [a'] differs from [a] in the schedulers' lists only. *)
Definition sched_frame (a a' : aview) : Prop :=
  a' = set_lists (lists a') a ∧ ∀ l, sched_list l = false → lists a' !! l = lists a !! l.

#[global] Instance sched_frame_preorder : PreOrder sched_frame.
Proof.
  split; [by intros []|]. intros a b c [Ha Hl] [Hb Hl']. split; [by rewrite Hb, Ha|].
  intros l H. by rewrite Hl', Hl.
Qed.

Lemma sched_frame_insert (a : aview) l xs :
  sched_list l = true → sched_frame a (set_lists (<[l := xs]> (lists a)) a).
Proof.
  intros Hl. split; [done|]. intros l' Hl'. cbn. apply lookup_insert_ne. intros ->. congruence.
Qed.

(** The ready queue for the scheduler that [rq] describes, with [t] added, and
    with its first thread removed. *)
Definition pushed (a : aview) (t : tptr) (a' : aview) : Prop :=
  sched_frame a a' ∧
  ∀ e, unlinked (lists a) e → e ≠ thread_elem t → unlinked (lists a') e.

Definition popped (a : aview) (t : tptr) (a' : aview) : Prop :=
  sched_frame a a' ∧
  ∀ e, unlinked (lists a) e ∨ e = thread_elem t → unlinked (lists a') e.

(** Priorities that index [mlfqs_list]. *)
Definition priority_ok (th : thread) : Prop := PRI_MIN ≤ priority th ≤ PRI_MAX.

Class ReadyQueue {E : Env} {EL : EnvLaws E} (rq : aview → list tptr → Prop)
    (push : tptr → K unit) (pop : K (option tptr)) : Prop := {
  rq_push a q t th Q :
    rq a q → threads a !! t = Some th → priority_ok th → unlinked (lists a) (thread_elem t) →
    (∀ a', rq a' (enqueue (threads a) t q) → pushed a t a' → Q () a') →
    awp (push t) Q a;
  rq_pop a q Q :
    rq a q → (q = [] → Q (idle_thread a) a) →
    (∀ t q' a', q = t :: q' → rq a' q' → popped a t a' → Q (Some t) a') →
    awp pop Q a;
  rq_ext a b q :
    rq a q → thread_mlfqs b = thread_mlfqs a →
    (∀ l, sched_list l = true → lists b !! l = lists a !! l) →
    (∀ t, t ∈ q → thread_priority (threads b) t = thread_priority (threads a) t) → rq b q;
  rq_linked a q t : rq a q → t ∈ q → ¬ unlinked (lists a) (thread_elem t)
}.

(** * The ordered list *)

Definition prio_ready (a : aview) (q : list tptr) : Prop :=
  thread_mlfqs a = false ∧ lists a !! ready_list = Some (elems q).

#[global] Instance prio_ready_queue {E : Env} {EL : EnvLaws E} :
  ReadyQueue prio_ready ready_list_insert ready_list_next.
Proof.
  split.
  - intros a q t th Q [Hm Hq] _ _ Hu HQ. unfold ready_list_insert. kstep.
    rewrite insert_before_elems. apply HQ.
    + split; [done|]. apply lookup_insert_eq.
    + split; [by apply sched_frame_insert|]. intros e He Hne. apply unlinked_insert; [done|].
      intros (u & -> & [->|Hu']%elem_of_enqueue)%list_elem_of_fmap; [done|].
      eapply He; [exact Hq|]. by apply list_elem_of_fmap_2.
  - intros a q Q [Hm Hq] H0 H1. unfold ready_list_next. ksteps.
    destruct q as [|t q]; simpl; [by apply awp_get_idle_thread, H0|].
    apply awp_wf. intros Hwf. ksteps. eapply (H1 t q); [done| |].
    + split; [done|]. apply lookup_insert_eq.
    + split; [by apply sched_frame_insert|]. intros e [He| ->]; [|by apply unlinked_pop].
      apply unlinked_insert; [done|]. intros He'. eapply He; [exact Hq|]. by right.
  - intros a b q [Hm Hq] Hm' Hl _. split; [congruence|]. by rewrite Hl.
  - intros a q t [_ Hq] Ht Hu. eapply Hu; [exact Hq|]. by apply list_elem_of_fmap_2.
Qed.

(** * The feedback queues *)

(** Each thread is in the queue of its priority. *)
Definition queues_ok (ts : gmap tptr thread) (QS : Z → list tptr) : Prop :=
  ∀ i t, i ∈ priorities → t ∈ QS i → thread_priority ts t = i.

(** The threads in the order in which [mlfqs_next_thread_to_run] takes them. *)
Definition mlfqs_order (QS : Z → list tptr) : list tptr := concat (QS <$> rev priorities).

Definition mlfqs_ready (a : aview) (q : list tptr) : Prop :=
  thread_mlfqs a = true ∧
  ∃ QS, queues a QS ∧ queues_ok (threads a) QS ∧ q = mlfqs_order QS.

Lemma elem_of_concat_queues (QS : Z → list tptr) js t :
  t ∈ concat (QS <$> js) ↔ ∃ i, i ∈ js ∧ t ∈ QS i.
Proof.
  induction js as [|j js IH]; csimpl.
  - split; [by intros ?%elem_of_nil|]. intros (i & []%elem_of_nil & _).
  - rewrite elem_of_app, IH. set_solver.
Qed.

Lemma concat_queues_ext (QS QS' : Z → list tptr) js :
  (∀ i, i ∈ js → QS i = QS' i) → concat (QS <$> js) = concat (QS' <$> js).
Proof.
  induction js as [|j js IH]; intros H; csimpl; [done|].
  rewrite (H j) by set_solver. f_equal. apply IH. set_solver.
Qed.

(** At the back of its queue is behind the threads of at least its priority. *)
Lemma enqueue_block ts t p QS js :
  thread_priority ts t = p → sorted_on Z.opp js → NoDup js → p ∈ js →
  (∀ i u, i ∈ js → u ∈ QS i → thread_priority ts u = i) →
  enqueue ts t (concat (QS <$> js)) = concat (upd QS p (QS p ++ [t]) <$> js).
Proof.
  intros Ht. induction js as [|i js IH]; intros Hs Hd Hp HQ; [by apply elem_of_nil in Hp|].
  apply sorted_on_cons in Hs as [Hle Hs]. apply NoDup_cons in Hd as [Hi Hd]. csimpl.
  assert (Hskip : ∀ ys, p ≤ i → enqueue ts t (QS i ++ ys) = QS i ++ enqueue ts t ys).
  { intros ys Hpi. apply insert_before_skip, Forall_forall. intros u Hu.
    rewrite (HQ i u), Ht by set_solver. lia. }
  destruct (decide (p = i)) as [->|Hne].
  - rewrite Hskip by lia. unfold upd at 1. rewrite decide_True by done.
    rewrite (concat_queues_ext (upd _ _ _) QS).
    2:{ intros j Hj. unfold upd. rewrite decide_False; [done|]. by intros ->. }
    rewrite <- (assoc_L (++)). f_equal. unfold enqueue.
    destruct (concat (QS <$> js)) as [|u us] eqn:Hc; [done|]. simpl.
    assert (Hu : u ∈ concat (QS <$> js)) by (rewrite Hc; by left).
    apply elem_of_concat_queues in Hu as (j & Hj & Hu).
    rewrite (HQ j u), Ht by set_solver. destruct (Z.ltb_spec (- i) (- j)); [done|].
    specialize (Hle j Hj). assert (i = j) by lia. by subst.
  - apply elem_of_cons in Hp as [?|Hp]; [done|]. specialize (Hle p Hp).
    rewrite Hskip by lia. unfold upd at 1. rewrite decide_False by congruence.
    f_equal. apply IH; [done..|set_solver].
Qed.

Lemma priorities_rev_NoDup : NoDup (rev priorities).
Proof.
  apply NoDup_ListNoDup. apply List.NoDup_rev. apply NoDup_ListNoDup, NoDup_seqZ.
Qed.

Lemma mlfqs_order_upd_nil QS i t q :
  QS i = t :: q → i ∈ priorities → (∀ j, j ∈ priorities → i < j → QS j = []) →
  mlfqs_order QS = t :: mlfqs_order (upd QS i q).
Proof.
  intros Hi Hin Hj. unfold mlfqs_order.
  pose proof priorities_rev_sorted as Hs. pose proof priorities_rev_NoDup as Hd.
  assert (Hj' : ∀ j, j ∈ rev priorities → i < j → QS j = []).
  { intros j ?%elem_of_rev_priorities. by apply Hj. }
  apply elem_of_rev_priorities in Hin. clear Hj. revert Hs Hd Hj' Hin.
  generalize (rev priorities). intros js. induction js as [|j js IH]; intros Hs Hd Hj Hin;
    [by apply elem_of_nil in Hin|].
  apply sorted_on_cons in Hs as [Hle Hs]. apply NoDup_cons in Hd as [Hnj Hd]. csimpl.
  destruct (decide (j = i)) as [->|Hne].
  - rewrite Hi. unfold upd at 1. rewrite decide_True by done. simpl. f_equal. f_equal.
    apply concat_queues_ext. intros k Hk. unfold upd. rewrite decide_False; [done|].
    by intros ->.
  - apply elem_of_cons in Hin as [?|Hin]; [done|]. specialize (Hle i Hin).
    unfold upd at 1. rewrite decide_False by done. rewrite (Hj j); [|by left|lia]. simpl.
    apply IH; [done..| |done]. intros k Hk. apply Hj. by right.
Qed.

Lemma mlfqs_order_nil QS : (∀ i, i ∈ rev priorities → QS i = []) → mlfqs_order QS = [].
Proof.
  intros Hnone. apply elem_of_nil_inv. intros t Ht.
  apply elem_of_concat_queues in Ht as (i & Hi & Ht). rewrite Hnone in Ht by done.
  by apply elem_of_nil in Ht.
Qed.

Lemma queues_upd (a : aview) QS i q :
  queues a QS → queues (set_lists (<[mlfqs_list i := elems q]> (lists a)) a) (upd QS i q).
Proof.
  intros Hq j Hj. cbn. unfold upd. destruct (decide (j = i)) as [->|Hne].
  - apply lookup_insert_eq.
  - rewrite lookup_insert_ne by congruence. by apply Hq.
Qed.

#[global] Instance mlfqs_ready_queue {E : Env} {EL : EnvLaws E} :
  ReadyQueue mlfqs_ready mlfqs_insert mlfqs_next_thread_to_run.
Proof.
  split.
  - intros a q t th Q (Hm & QS & Hq & Hok & ->) Ht Hp Hu HQ.
    assert (Hpt : thread_priority (threads a) t = priority th)
      by (unfold thread_priority; by rewrite Ht).
    apply elem_of_priorities in Hp as Hpp.
    eapply awp_mlfqs_insert; [done..|by apply Hq|done|]. apply HQ.
    + split; [done|]. exists (upd QS (priority th) (QS (priority th) ++ [t])).
      split_and!; [by apply queues_upd| |].
      * intros i u Hi. cbn. unfold upd. case_decide as Hc; [subst i|by apply Hok].
        rewrite elem_of_app, list_elem_of_singleton. intros [?| ->]; [by apply Hok|done].
      * apply enqueue_block; [done|apply priorities_rev_sorted|apply priorities_rev_NoDup|
          by apply elem_of_rev_priorities|].
        intros i u Hi%elem_of_rev_priorities. by apply Hok.
    + split; [by apply sched_frame_insert|]. intros e He Hne. apply unlinked_insert; [done|].
      intros (u & -> & [Hu'| ->%list_elem_of_singleton]%elem_of_app)%list_elem_of_fmap; [|done].
      eapply He; [by apply (Hq (priority th))|]. by apply list_elem_of_fmap_2.
  - intros a q Q (Hm & QS & Hq & Hok & ->) H0 H1. apply awp_wf. intros Hwf.
    apply (awp_mlfqs_next_from _ QS).
    + intros i Hi%elem_of_rev_priorities. by apply Hq.
    + intros Hnone. by apply H0, mlfqs_order_nil.
    + intros pre i post t q Hjs Hpre Hi.
      assert (Hip : i ∈ priorities).
      { apply elem_of_rev_priorities. rewrite Hjs. set_solver. }
      eapply (H1 t (mlfqs_order (upd QS i q))).
      * apply mlfqs_order_upd_nil; [done..|]. intros j Hj Hij.
        by eapply Hpre, rev_priorities_above.
      * split; [done|]. exists (upd QS i q). split_and!; [by apply queues_upd| |done].
        intros j u Hj. cbn. unfold upd. case_decide; [subst j|by apply Hok].
        intros Hu. apply Hok; [done|]. rewrite Hi. by right.
      * split; [by apply sched_frame_insert|].
        assert (Hin : ∀ e, e ∈ elems q → e ∈ elems (QS i)).
        { intros e He. rewrite Hi. by right. }
        pose proof (Hq i Hip) as Hqi. intros e [He| ->].
        -- apply unlinked_insert; [done|]. intros He'%Hin. by eapply He.
        -- apply unlinked_pop; [done|]. by rewrite Hqi, Hi.
  - intros a b q (Hm & QS & Hq & Hok & ->) Hm' Hl Hp. split; [congruence|]. exists QS.
    split_and!; [|intros i t Hi Ht|done].
    + intros i Hi. rewrite Hl by done. by apply Hq.
    + rewrite Hp; [by apply Hok|]. apply elem_of_concat_queues. exists i.
      by rewrite elem_of_rev_priorities.
  - intros a q t (_ & QS & Hq & _ & ->) Ht Hu.
    apply elem_of_concat_queues in Ht as (i & Hi%elem_of_rev_priorities & Ht).
    eapply Hu; [by apply Hq|]. by apply list_elem_of_fmap_2.
Qed.

(** The scheduler's order lists the same threads as the loops over the queues. *)
Lemma concat_queues_perm (QS : Z → list tptr) js js' :
  Permutation js js' → Permutation (concat (QS <$> js)) (concat (QS <$> js')).
Proof.
  induction 1 as [|j js js' _ IH|i j js|js1 js2 js3 _ IH1 _ IH2]; csimpl.
  - done.
  - by rewrite IH.
  - by rewrite !(assoc_L (++)), (comm (++) (QS j)).
  - by etrans.
Qed.

Lemma mlfqs_order_perm QS : Permutation (mlfqs_order QS) (queued QS).
Proof. apply concat_queues_perm. symmetry. apply Permutation_rev. Qed.

Lemma mlfqs_order_sorted ts QS : queues_ok ts QS → queue_sorted ts (mlfqs_order QS).
Proof.
  intros Hok. unfold mlfqs_order.
  assert (Hok' : ∀ i t, i ∈ rev priorities → t ∈ QS i → thread_priority ts t = i).
  { intros i t ?%elem_of_rev_priorities. by apply Hok. }
  pose proof priorities_rev_sorted as Hs. revert Hs Hok'.
  generalize (rev priorities). intros js. induction js as [|j js IH]; intros Hs Hq; csimpl.
  { constructor. }
  apply sorted_on_cons in Hs as [Hle Hs].
  assert (Hrec : queue_sorted ts (concat (QS <$> js))) by (apply IH; set_solver).
  assert (Hj : ∀ t, t ∈ QS j → thread_priority ts t = j) by set_solver.
  assert (Hjs : ∀ t, t ∈ concat (QS <$> js) → - j ≤ - thread_priority ts t).
  { intros t (i & Hi & Ht)%elem_of_concat_queues. rewrite (Hq i t) by set_solver. auto. }
  revert Hj. generalize (QS j). intros q. induction q as [|t q IHq]; intros Hj; [done|].
  simpl. apply sorted_on_cons. split.
  - rewrite (Hj t) by set_solver. intros u [Hu|Hu]%elem_of_app; [|auto].
    rewrite (Hj u); [done|]. by right.
  - apply IHq. set_solver.
Qed.

(** * Either scheduler *)

(** The threads that are ready to run, in the order in which they will. *)
Definition ready (a : aview) (q : list tptr) : Prop := prio_ready a q ∨ mlfqs_ready a q.

#[global] Instance ready_queue {E : Env} {EL : EnvLaws E} :
  ReadyQueue ready ready_insert next_thread_to_run.
Proof.
  split.
  - intros a q t th Q Hr Ht Hp Hu HQ. unfold ready_insert. ksteps.
    destruct Hr as [Hr|Hr]; pose proof (proj1 Hr) as ->; ksimpl.
    + eapply (rq_push (rq := prio_ready)); [done..|]. intros a' ? ?. apply HQ; [by left|done].
    + eapply (rq_push (rq := mlfqs_ready)); [done..|]. intros a' ? ?. apply HQ; [by right|done].
  - intros a q Q Hr H0 H1. unfold next_thread_to_run. ksteps.
    destruct Hr as [Hr|Hr]; pose proof (proj1 Hr) as ->.
    + eapply (rq_pop (rq := prio_ready)); [done..|]. intros t q' a' ? ? ?.
      eapply H1; [done|by left|done].
    + eapply (rq_pop (rq := mlfqs_ready)); [done..|]. intros t q' a' ? ? ?.
      eapply H1; [done|by right|done].
  - intros a b q [Hr|Hr] Hm Hl Hp.
    + left. by eapply (rq_ext (rq := prio_ready) a).
    + right. by eapply (rq_ext (rq := mlfqs_ready) a).
  - intros a q t [Hr|Hr] Ht.
    + by eapply (rq_linked (rq := prio_ready)).
    + by eapply (rq_linked (rq := mlfqs_ready)).
Qed.

Lemma ready_insert_other (a : aview) q l xs :
  ready a q → sched_list l = false → ready (set_lists (<[l := xs]> (lists a)) a) q.
Proof.
  intros Hr Hl. destruct Hr as [[Hm Hr]|(Hm & QS & HQ & Hok & ->)].
  - left. split; [done|]. cbn. rewrite lookup_insert_ne; [done|]. by intros ->.
  - right. split; [done|]. exists QS. split_and!; [|done..]. intros i Hi. cbn.
    rewrite lookup_insert_ne; [by apply HQ|]. by intros ->.
Qed.
