(* ===== verification/Sched.v ===== *)
(** threads/thread.c: switching threads.

    [schedule] and the operations that call it, the preemption checks, and the
    timer tick.  The specifications are proved against the interface of
    Ready.v, so that they hold for both schedulers. *)
From S2P Require Import Prelude FixedPoint Env Kernel Thread Mlfqs Ready.

Definition TIME_SLICE : Z := 4.

Section code.
Context {E : Env}.

Definition assert_not_intr_context (site : string) : K unit :=
  b ← k_intr_context; ASSERT (negb b) site.

Definition assert_intr_off (site : string) : K unit :=
  l ← k_intr_get_level; ASSERT (bool_decide (l = INTR_OFF)) site.

Definition thread_schedule_tail (prev : option tptr) : K unit :=
  cur ← running_thread;
  assert_intr_off "thread_schedule_tail: intr_get_level () == INTR_OFF";;
  store cur (with_status THREAD_RUNNING);;
  put_thread_ticks 0;;
  match prev with
  | None => mret ()
  | Some prev_ =>
      pth ← deref prev_;
      initial ← get_initial_thread;
      if bool_decide (status pth = THREAD_DYING) && bool_decide (prev ≠ initial) then
        ASSERT (bool_decide (prev_ ≠ cur)) "thread_schedule_tail: prev != cur";;
        k_palloc_free_page prev_
      else mret ()
  end.

Definition schedule : prog unit :=
  cur ← act running_thread;
  next ← act next_thread_to_run;
  act (assert_intr_off "schedule: intr_get_level () == INTR_OFF");;
  cth ← act (deref cur);
  act (ASSERT (bool_decide (status cth ≠ THREAD_RUNNING)) "schedule: cur->status != THREAD_RUNNING");;
  b ← act (is_thread next);
  act (ASSERT b "schedule: is_thread (next)");;
  next ← act (lift_opt EBadPtr next);
  prev ← (if bool_decide (cur ≠ next) then p ← switch_threads cur next; mret (Some p)
          else mret None);
  act (thread_schedule_tail prev).

Definition thread_block : prog unit :=
  act (assert_not_intr_context "thread_block: !intr_context ()");;
  act (assert_intr_off "thread_block: intr_get_level () == INTR_OFF");;
  cur ← act thread_current;
  act (store cur (with_status THREAD_BLOCKED));;
  schedule.

Definition thread_unblock (t : tptr) : K unit :=
  b ← is_thread (Some t);
  ASSERT b "thread_unblock: is_thread (t)";;
  old_level ← k_intr_disable;
  th ← deref t;
  ASSERT (bool_decide (status th = THREAD_BLOCKED)) "thread_unblock: t->status == THREAD_BLOCKED";;
  store t (with_status THREAD_READY);;
  m ← get_thread_mlfqs;
  (if negb m then ready_list_insert t else mlfqs_update_priority t;; mlfqs_insert t);;
  k_intr_set_level old_level.

Definition thread_yield : prog unit :=
  cur ← act thread_current;
  act (assert_not_intr_context "thread_yield: !intr_context ()");;
  old_level ← act k_intr_disable;
  idle ← act get_idle_thread;
  (if bool_decide (Some cur ≠ idle) then act (ready_insert cur) else mret ());;
  act (store cur (with_status THREAD_READY));;
  schedule;;
  act (k_intr_set_level old_level).

Definition check_preemption : prog unit :=
  b ← act (k_list_empty ready_list);
  if negb b then
    e ← act (k_list_front ready_list);
    t ← act (lift_opt EBadPtr (entry_elem e));
    th ← act (deref t);
    cur ← act thread_current;
    cth ← act (deref cur);
    if priority th >? priority cth then
      c ← act k_intr_context;
      if (c : bool) then act k_intr_yield_on_return else thread_yield
    else mret ()
  else mret ().

Definition thread_yield_if_necessary : prog unit :=
  b ← act (k_list_empty ready_list);
  if negb b then
    e ← act (k_list_front ready_list);
    highest ← act (lift_opt EBadPtr (entry_elem e));
    th ← act (deref highest);
    cur ← act thread_current;
    cth ← act (deref cur);
    if priority th >? priority cth then thread_yield else mret ()
  else mret ().

(** [for (int i = PRI_MAX; i >= PRI_MIN; i--)], with -1 when no queue has a
    thread. *)
Fixpoint mlfqs_highest (js : list Z) : prog Z :=
  match js with
  | [] => mret (-1)
  | i :: js =>
      b ← act (k_list_empty (mlfqs_list i));
      if negb b then mret i else mlfqs_highest js
  end.

Definition mlfqs_check_preemption : prog unit :=
  highest_priority ← mlfqs_highest (rev priorities);
  cur ← act thread_current;
  cth ← act (deref cur);
  if highest_priority >? priority cth then
    c ← act k_intr_context;
    if (c : bool) then act k_intr_yield_on_return else thread_yield
  else mret ().

(** [if(thread_mlfqs) mlfqs_check_preemption(); else check_preemption();] *)
Definition preempt : prog unit :=
  m ← act get_thread_mlfqs;
  if (m : bool) then mlfqs_check_preemption else check_preemption.

Definition thread_set_priority (new_priority : Z) : prog unit :=
  cur ← act thread_current;
  act (store cur (with_priority new_priority));;
  check_preemption.

Definition thread_set_nice (new_nice : Z) : prog unit :=
  let new_nice := if new_nice >? NICE_MAX then NICE_MAX else new_nice in
  let new_nice := if new_nice <? NICE_MIN then NICE_MIN else new_nice in
  cur ← act thread_current;
  act (store cur (with_nice new_nice));;
  cur ← act thread_current;
  act (mlfqs_update_priority cur);;
  mlfqs_check_preemption.

(** The counters are [long long]; [++thread_ticks] is on an [unsigned]. *)
Definition thread_tick : K unit :=
  t ← thread_current;
  idle ← get_idle_thread;
  (if bool_decide (Some t = idle)
   then modify (λ s, set_idle_ticks (int64 (idle_ticks s + 1)) s)
   else modify (λ s, set_kernel_ticks (int64 (kernel_ticks s + 1)) s));;
  m ← get_thread_mlfqs;
  (if m && bool_decide (Some t ≠ idle) then
     th ← deref t;
     store t (with_recent_cpu (FixedPoint.fp_add_int (recent_cpu th) 1))
   else mret ());;
  n ← get_thread_ticks;
  put_thread_ticks (uint32 (n + 1));;
  if uint32 (n + 1) >=? TIME_SLICE then k_intr_yield_on_return else mret ().
End code.

(** * What scheduling does *)

(** Updating a thread without touching its priority keeps every order. *)
Lemma thread_priority_insert ts t th th' u :
  ts !! t = Some th → priority th' = priority th →
  thread_priority (<[t := th']> ts) u = thread_priority ts u.
Proof.
  intros Ht Hp. unfold thread_priority. destruct (decide (u = t)) as [->|].
  - by rewrite lookup_insert_eq, Ht.
  - by rewrite lookup_insert_ne.
Qed.

Lemma enqueue_ext ts ts' t q :
  (∀ u, thread_priority ts u = thread_priority ts' u) → enqueue ts t q = enqueue ts' t q.
Proof. intros H. apply insert_before_ext. intros u _. by rewrite !H. Qed.

(** The state [thread_schedule_tail prev] leaves. *)
Definition reaps (a : aview) (prev : tptr) : bool :=
  match threads a !! prev with
  | Some pth => bool_decide (status pth = THREAD_DYING) &&
                bool_decide (Some prev ≠ initial_thread a)
  | None => false
  end.

Definition resumed (prev : option tptr) (a : aview) : aview :=
  let a1 := set_thread_ticks 0
    (set_threads (alter (with_status THREAD_RUNNING) (running a) (threads a)) a) in
  match prev with
  | Some p => if reaps a1 p
              then set_threads (delete p (threads a1)) (set_pages (pages a1 ∖ {[p]}) a1)
              else a1
  | None => a1
  end.

(** A switch from [prev] to the running thread has just happened. *)
Definition can_resume (prev : tptr) (a : aview) : Prop :=
  iv_level (intr a) = INTR_OFF ∧
  (∃ cur, threads a !! running a = Some cur ∧ thread_ok cur) ∧
  is_Some (threads a !! prev) ∧ prev ≠ running a ∧
  (reaps a prev = true → prev ∈ pages a).

(** The thread the scheduler takes when the ready threads are [q]. *)
Definition next_of (a : aview) (q : list tptr) : option tptr :=
  match q with [] => idle_thread a | t :: _ => Some t end.

(** A computation that gave up the processor goes on, once some thread switches
    back to it, as [R] says from the state [b] in which it is running again,
    provided the other threads have kept [C]. *)
Definition resumes `{E : Env} {EL : EnvLaws E} {A} (C : aview → Prop)
    (R : aview → out A → aview → Prop) (k : tptr → prog A) : Prop :=
  ∀ prev b, can_resume prev b → C (resumed (Some prev) b) →
    apwp (k prev) (R (resumed (Some prev) b)) b.

Definition anything (a : aview) : Prop := True.

(** [a] with the running thread's status set to [st]. *)
Definition marked (st : thread_status) (a : aview) : aview :=
  set_threads (alter (with_status st) (running a) (threads a)) a.

Definition valid (a : aview) (t : tptr) : Prop := ∃ th, threads a !! t = Some th ∧ thread_ok th.

(** The scheduler ran in state [a] with ready threads [q]: it took the first of
    them (or else the idle thread).  If that is the running thread, it goes on
    as [R] says; if not, the processor is handed over. *)
Definition scheduled `{E : Env} {EL : EnvLaws E} {A} (C : aview → Prop) (a : aview)
    (q : list tptr) (R : aview → out A → aview → Prop) (o : out A) (a' : aview) : Prop :=
  ∃ n a1, next_of a q = Some n ∧ ready a1 (tail q) ∧ sched_frame a a1 ∧
    (∀ e, unlinked (lists a) e ∨ e ∈ elems q → e ∉ elems (tail q) → unlinked (lists a1) e) ∧
    if decide (n = running a) then R (resumed None a1) o a'
    else ∃ k, o = OSwitch n k ∧ a' = a1 ∧ resumes C R k.

Section awp_sched.
Context {E : Env} {EL : EnvLaws E}.

Lemma awp_assert_not_intr_context site Q (a : aview) :
  iv_context (intr a) = false → Q () a → awp (assert_not_intr_context site) Q a.
Proof. intros Hc HQ. unfold assert_not_intr_context. kstep. kstep. rewrite Hc. by kstep. Qed.

Lemma awp_assert_intr_off site Q (a : aview) :
  iv_level (intr a) = INTR_OFF → Q () a → awp (assert_intr_off site) Q a.
Proof. intros Hc HQ. unfold assert_intr_off. kstep. kstep. rewrite Hc. by kstep. Qed.

Lemma lookup_alter_insert (ts : gmap tptr thread) t th f :
  ts !! t = Some th → alter f t ts = <[t := f th]> ts.
Proof.
  intros Ht. apply map_eq. intros u. destruct (decide (u = t)) as [->|].
  - by rewrite lookup_alter_eq, lookup_insert_eq, Ht.
  - by rewrite lookup_alter_ne, lookup_insert_ne.
Qed.

Lemma awp_thread_schedule_tail_none Q a cur :
  iv_level (intr a) = INTR_OFF → threads a !! running a = Some cur →
  Q () (resumed None a) → awp (thread_schedule_tail None) Q a.
Proof.
  intros Hl Ht HQ. unfold thread_schedule_tail, running_thread. do 3 kstep.
  apply awp_assert_intr_off; [done|]. ksteps. unfold resumed in HQ.
  by rewrite (lookup_alter_insert _ _ cur) in HQ.
Qed.

Lemma awp_thread_schedule_tail prev Q a :
  can_resume prev a → Q () (resumed (Some prev) a) →
  awp (thread_schedule_tail (Some prev)) Q a.
Proof.
  intros (Hl & (cur & Ht & _) & (pth & Hp) & Hne & Hpg) HQ.
  unfold thread_schedule_tail, running_thread. do 3 kstep.
  apply awp_assert_intr_off; [done|]. do 5 kstep. kstep.
  { rewrite lookup_insert_ne by done. exact Hp. }
  ksteps. unfold resumed, reaps in HQ. rewrite (lookup_alter_insert _ _ cur) in HQ by done.
  cbn [threads set_thread_ticks set_threads initial_thread] in HQ.
  rewrite lookup_insert_ne, Hp in HQ by done. unfold reaps in Hpg. rewrite Hp in Hpg.
  destruct (_ && _) eqn:Hr; [|by kstep].
  ksteps; [by apply bool_decide_eq_true|]. apply awp_palloc_free_page; [by apply Hpg|exact HQ].
Qed.

Lemma resumed_intr prev a : intr (resumed prev a) = intr a.
Proof. unfold resumed. repeat case_match; done. Qed.

Lemma resumed_lists prev a : lists (resumed prev a) = lists a.
Proof. unfold resumed. repeat case_match; done. Qed.

Lemma resumed_running prev a : running (resumed prev a) = running a.
Proof. unfold resumed. repeat case_match; done. Qed.

(** The running thread after [thread_schedule_tail]. *)
Lemma resumed_current prev a cur :
  threads a !! running a = Some cur → thread_ok cur → prev ≠ Some (running a) →
  current_ok (resumed prev a) (with_status THREAD_RUNNING cur).
Proof.
  intros Ht Hok Hp. unfold current_ok. rewrite resumed_running. split_and!; [|done..].
  unfold resumed. rewrite (lookup_alter_insert _ _ cur) by done.
  destruct prev as [p|]; [case_match|]; cbn; [rewrite lookup_delete_ne by congruence|..];
    by rewrite lookup_insert_eq.
Qed.

(** The last statements of [schedule]. *)
Definition schedule_switch (cur next : tptr) : prog unit :=
  prev ← (if bool_decide (cur ≠ next) then p ← switch_threads cur next; mret (Some p)
          else mret None);
  act (thread_schedule_tail prev).

Definition goes_on {A} (l : intr_level) (C : aview → Prop) (k : unit → prog A)
    (R : aview → out A → aview → Prop) : Prop :=
  ∀ b bcur, current_ok b bcur → iv_level (intr b) = l → C b → apwp (k ()) (R b) b.

Lemma resumes_tail {A} (k : unit → prog A) C R :
  goes_on INTR_OFF C k R → resumes C R (λ p, act (thread_schedule_tail (Some p)) ≫= k).
Proof.
  intros Hk prev b Hb HC. ksteps. apply awp_thread_schedule_tail; [done|].
  destruct Hb as (Hl & (cur & Hc & Hok) & _ & Hne & _).
  eapply Hk; [eapply resumed_current; [done..|congruence]|by rewrite resumed_intr|done].
Qed.

Lemma apwp_schedule_switch {A} (k : unit → prog A) C R a q cur n a1 :
  iv_level (intr a1) = INTR_OFF → threads a1 !! running a1 = Some cur → thread_ok cur →
  next_of a q = Some n → ready a1 (tail q) → sched_frame a a1 →
  (∀ e, unlinked (lists a) e ∨ e ∈ elems q → e ∉ elems (tail q) → unlinked (lists a1) e) →
  goes_on INTR_OFF C k R → (n = running a1 → C (resumed None a1)) →
  apwp (schedule_switch (running a1) n ≫= k) (scheduled C a q R) a1.
Proof.
  intros Hl Hc Hok Hn Hr Hf Hu Hk HC. pose proof (proj1 Hf) as Ha1.
  assert (Hrun : running a1 = running a) by by rewrite Ha1. unfold schedule_switch.
  destruct (decide (n = running a1)) as [->|Hne].
  - rewrite bool_decide_false by tauto. apply apwp_bind. ksteps.
    eapply awp_thread_schedule_tail_none; [done..|]. ksteps.
    eapply apwp_mono; [eapply Hk; [by eapply resumed_current|by rewrite resumed_intr|by apply HC]|].
    intros o a' HR. exists (running a1), a1. split_and!; try done. by rewrite decide_True.
  - rewrite bool_decide_true by done.
    change (apwp (Switch n (λ p, act (thread_schedule_tail (Some p)) ≫= k))
              (scheduled C a q R) a1).
    apply apwp_Switch.
    exists n, a1. split_and!; try done. rewrite decide_False by congruence.
    eexists. split_and!; [done..|]. by apply resumes_tail.
Qed.

(** The code after [schedule ()] is verified once, for whatever state the thread
    finds itself running in again. *)
Lemma apwp_schedule_bind {A} (k : unit → prog A) C R a q cur n nth :
  iv_level (intr a) = INTR_OFF → threads a !! running a = Some cur → thread_ok cur →
  status cur ≠ THREAD_RUNNING → ready a q → next_of a q = Some n →
  threads a !! n = Some nth → thread_ok nth → goes_on INTR_OFF C k R →
  (n = running a → ∀ a1, sched_frame a a1 → C (resumed None a1)) →
  apwp (schedule ≫= k) (scheduled C a q R) a.
Proof.
  intros Hl Hcur Hcok Hst Hr Hn Hnth Hnok Hk HC.
  assert (Htail : ∀ a1, ready a1 (tail q) → sched_frame a a1 →
    (∀ e, unlinked (lists a) e ∨ e ∈ elems q → e ∉ elems (tail q) → unlinked (lists a1) e) →
    apwp ((act (assert_intr_off "schedule: intr_get_level () == INTR_OFF");;
      cth ← act (deref (running a));
      act (ASSERT (bool_decide (status cth ≠ THREAD_RUNNING))
        "schedule: cur->status != THREAD_RUNNING");;
      b ← act (is_thread (Some n)); act (ASSERT b "schedule: is_thread (next)");;
      next ← act (lift_opt EBadPtr (Some n));
      schedule_switch (running a) next) ≫= k) (scheduled C a q R) a1).
  { intros a1 Hr1 Hf1 Hu1. pose proof (proj1 Hf1) as Ha1.
    assert (Hs : threads a1 = threads a ∧ running a1 = running a ∧ intr a1 = intr a)
      by (by rewrite Ha1). destruct Hs as (Hts & Hrun & Hin).
    apply apwp_Act, awp_assert_intr_off; [by rewrite Hin|].
    apply apwp_Act. eapply awp_deref; [by rewrite Hts|].
    apply apwp_Act, awp_ASSERT; [by apply bool_decide_eq_true|].
    apply apwp_Act. eapply awp_is_thread; [by rewrite Hts|done|].
    apply apwp_Act, awp_ASSERT; [done|]. apply apwp_Act, awp_ret. rewrite <- Hrun.
    eapply apwp_schedule_switch; [by rewrite Hin|by rewrite Hrun, Hts|done..|].
    intros Hn1. apply HC; [congruence|done]. }
  apply apwp_Act. unfold running_thread. kstep. apply apwp_Act.
  eapply (rq_pop (rq := ready)); [done|..].
  - intros ->. simpl in Hn. rewrite Hn. apply Htail; [done|done|].
    by intros e [?|?%elem_of_nil].
  - intros t q' a1 -> Hr1 [Hf1 Hu1]. injection Hn as ->. apply Htail; [done..|].
    intros e [He|[->|He]%elem_of_cons] Hnin; [apply Hu1; by left|apply Hu1; by right|done].
Qed.

Lemma scheduled_frame {A} C a b q (R : aview → out A → aview → Prop) o a' :
  sched_frame a b → (∀ e, unlinked (lists a) e → e ∉ elems q → unlinked (lists b) e) →
  scheduled C b q R o a' → scheduled C a q R o a'.
Proof.
  intros Hf Hu (n & a1 & Hn & Hr & Hf1 & Hu1 & HR). pose proof (proj1 Hf) as Hb.
  exists n, a1. split_and!; [|done|by etrans| |].
  - rewrite <- Hn. unfold next_of. by rewrite Hb.
  - intros e He Hne. apply Hu1; [|done].
    destruct (decide (e ∈ elems q)); [by right|left]. destruct He; [by apply Hu|done].
  - replace (running a) with (running b) by (by rewrite Hb). done.
Qed.

Lemma valid_marked st a n : valid a n → valid (marked st a) n.
Proof.
  intros (th & Ht & Hok). unfold valid, marked. cbn.
  destruct (decide (n = running a)) as [->|Hne].
  - rewrite lookup_alter_eq, Ht. by eexists.
  - rewrite lookup_alter_ne by done. by exists th.
Qed.

Lemma thread_priority_marked st a u :
  thread_priority (threads (marked st a)) u = thread_priority (threads a) u.
Proof.
  unfold thread_priority, marked. cbn. destruct (decide (u = running a)) as [->|Hne].
  - rewrite lookup_alter_eq. by destruct (threads a !! running a).
  - by rewrite lookup_alter_ne.
Qed.

Lemma apwp_thread_block_bind {A} (k : unit → prog A) C R a q cur n :
  current_ok a cur → iv_context (intr a) = false → iv_level (intr a) = INTR_OFF →
  ready a q → next_of a q = Some n → valid a n → goes_on INTR_OFF C k R →
  (n = running a → ∀ a1, sched_frame (marked THREAD_BLOCKED a) a1 → C (resumed None a1)) →
  apwp (thread_block ≫= k) (scheduled C (marked THREAD_BLOCKED a) q R) a.
Proof.
  intros Hc Hctx Hl Hr Hn Hv Hk HC. pose proof Hc as (Ht & Hok & Hst).
  apply apwp_Act, awp_assert_not_intr_context; [done|].
  apply apwp_Act, awp_assert_intr_off; [done|].
  apply apwp_Act. eapply awp_thread_current; [done|]. apply apwp_Act. kstep.
  rewrite <- (lookup_alter_insert _ _ cur) by done.
  apply (valid_marked THREAD_BLOCKED) in Hv as (nth & Hnth & Hnok).
  eapply (apwp_schedule_bind k C R _ q (with_status THREAD_BLOCKED cur));
    [done|cbn; by rewrite lookup_alter_eq, Ht|done..| |done|exact Hnth|done|done|exact HC].
  eapply (rq_ext (rq := ready)); [done..|]. intros u _. by rewrite thread_priority_marked.
Qed.

(** What [thread_yield] adds the running thread to: the idle thread is never
    queued. *)
Definition requeue (a : aview) (q : list tptr) : list tptr :=
  if bool_decide (Some (running a) = idle_thread a) then q
  else enqueue (threads a) (running a) q.

Definition intr_off (a : aview) : aview := set_intr (iv_set_level INTR_OFF (intr a)) a.

Lemma apwp_thread_yield_bind {A} (k : unit → prog A) C R a q cur n :
  current_ok a cur → priority_ok cur → iv_context (intr a) = false → ready a q →
  unlinked (lists a) (thread_elem (running a)) →
  next_of a (requeue a q) = Some n → valid a n →
  goes_on INTR_OFF C (λ _, act (k_intr_set_level (iv_level (intr a))) ≫= k) R →
  (n = running a → ∀ a1, sched_frame (marked THREAD_READY (intr_off a)) a1 →
     C (resumed None a1)) →
  apwp (thread_yield ≫= k) (scheduled C (marked THREAD_READY (intr_off a)) (requeue a q) R) a.
Proof.
  intros Hc Hp Hctx Hr Hu Hn Hv Hk HC. pose proof Hc as (Ht & Hok & Hst).
  apply apwp_Act. eapply awp_thread_current; [done|].
  apply apwp_Act, awp_assert_not_intr_context; [done|].
  apply apwp_Act, awp_intr_disable. fold (intr_off a). apply apwp_Act, awp_get_idle_thread.
  assert (Hsched : ∀ a1, sched_frame (intr_off a) a1 → ready a1 (requeue a q) →
    (∀ e, unlinked (lists a) e → e ∉ elems (requeue a q) → unlinked (lists a1) e) →
    apwp (act (store (running a) (with_status THREAD_READY)) ≫= λ _,
          (schedule ≫= λ _, act (k_intr_set_level (iv_level (intr a)))) ≫= k)
      (scheduled C (marked THREAD_READY (intr_off a)) (requeue a q) R) a1).
  { intros a1 Hf1 Hr1 Hu1. pose proof (proj1 Hf1) as Ha1.
    assert (Hts : threads a1 = threads a ∧ running a1 = running a) by (by rewrite Ha1).
    destruct Hts as [Hts Hrun]. apply apwp_Act. eapply awp_store; [by rewrite Hts|].
    apply apwp_assoc. rewrite <- (lookup_alter_insert _ _ cur), <- Hrun by (by rewrite Hts).
    apply (valid_marked THREAD_READY) in Hv as (nth & Hnth & Hnok).
    eapply apwp_mono; [|intros o a'; apply (scheduled_frame _ _ (marked THREAD_READY a1))].
    - eapply (apwp_schedule_bind _ C R _ _ (with_status THREAD_READY cur));
        [by rewrite Ha1|cbn; by rewrite lookup_alter_eq, Hrun, Hts, Ht|done..| |
         |cbn; rewrite Hrun, Hts; exact Hnth|done|done|].
      + eapply (rq_ext (rq := ready)); [done..|]. intros u _. by rewrite thread_priority_marked.
      + by rewrite Ha1.
      + intros Hn' a2 Hf2. apply HC; [by rewrite <- Hrun|]. etrans; [|exact Hf2].
        split; [by rewrite Ha1|]. apply Hf1.
    - split; [by rewrite Ha1|]. apply Hf1.
    - exact Hu1. }
  case_bool_decide as Hi.
  - apply apwp_Act. eapply (rq_push (rq := ready)); [|exact Ht|done|exact Hu|].
    + eapply (rq_ext (rq := ready)); [exact Hr|done..].
    + intros a1 Hr1 [Hf1 Hu1]. unfold requeue in *. rewrite bool_decide_false in * by done.
      refine (Hsched a1 Hf1 Hr1 _). intros e He Hne. apply Hu1; [done|]. intros ->.
      apply Hne. apply list_elem_of_fmap_2, elem_of_enqueue. by left.
  - assert (Hq : requeue a q = q).
    { unfold requeue. by rewrite bool_decide_true. }
    rewrite Hq in *.
    refine (Hsched (intr_off a) _ _ _); [done| |done]. eapply (rq_ext (rq := ready)); [exact Hr|done..].
Qed.

Lemma pushed_intr a t a2 :
  pushed (intr_off a) t a2 →
  pushed a t (set_intr (iv_set_level (iv_level (intr a)) (intr a2)) a2).
Proof.
  intros [[Ha2 Hl] Hu]. split; [|exact Hu]. split; [|exact Hl].
  rewrite Ha2. destruct a as [? []]. done.
Qed.

(** [mlfqs_update_priority], which only the feedback scheduler calls. *)
Definition reprioritised (a : aview) (t : tptr) (th : thread) : thread :=
  if thread_mlfqs a && bool_decide (Some t ≠ idle_thread a)
  then with_priority (mlfqs_priority_raw th) th else th.

Lemma awp_unblock_insert a t th q Q :
  threads a !! t = Some th → priority_ok th → ready a q →
  unlinked (lists a) (thread_elem t) →
  (∀ a1 a', a1 = set_threads (<[t := reprioritised a t th]> (threads a)) a →
     ready a' (enqueue (threads a1) t q) → pushed a1 t a' → Q () a') →
  awp (if negb (thread_mlfqs a) then ready_list_insert t
       else mlfqs_update_priority t;; mlfqs_insert t) Q a.
Proof.
  intros Ht Hp Hr Hu HQ.
  assert (Hnq : t ∉ q) by (intros Hin; by eapply (rq_linked (rq := ready)) in Hu).
  assert (Hid : ∀ x, x = th → set_threads (<[t := x]> (threads a)) a = a).
  { intros x ->. rewrite insert_id by done. by destruct a. }
  unfold reprioritised in HQ. destruct Hr as [Hr|Hr]; pose proof (proj1 Hr) as Hm;
    rewrite Hm in *; cbn [negb andb] in *.
  - rewrite Hid in HQ by done. eapply (rq_push (rq := prio_ready)); [done..|].
    intros a' ? ?. apply (HQ _ a' eq_refl); [by left|done].
  - kstep. eapply awp_mlfqs_update_priority; [done|].
    destruct (decide (Some t = idle_thread a)) as [Hi|Hi].
    + rewrite (bool_decide_false (_ ≠ _)), Hid in HQ by tauto. rewrite bool_decide_true by done.
      eapply (rq_push (rq := mlfqs_ready)); [done..|].
      intros a' ? ?. apply (HQ _ a' eq_refl); [by right|done].
    + rewrite (bool_decide_true (_ ≠ _)) in HQ by done. rewrite bool_decide_false by done.
      eapply (rq_push (rq := mlfqs_ready)); [|apply lookup_insert_eq| |done|].
      * eapply (rq_ext (rq := mlfqs_ready)); [exact Hr|done..|]. intros u Hu'. cbn.
        unfold thread_priority. rewrite lookup_insert_ne; [done|]. by intros ->.
      * apply mlfqs_priority_raw_range.
      * intros a' ? ?. apply (HQ _ a' eq_refl); [by right|done].
Qed.

(** The thread [thread_unblock] makes of a blocked one. *)
Definition unblocked (a : aview) (t : tptr) (th : thread) : thread :=
  reprioritised a t (with_status THREAD_READY th).

Lemma awp_thread_unblock a t th q Q :
  threads a !! t = Some th → thread_ok th → status th = THREAD_BLOCKED → priority_ok th →
  ready a q → unlinked (lists a) (thread_elem t) →
  (∀ a1 a', a1 = set_threads (<[t := unblocked a t th]> (threads a)) a →
     ready a' (enqueue (threads a1) t q) → pushed a1 t a' → Q () a') →
  awp (thread_unblock t) Q a.
Proof.
  intros Ht Hok Hst Hp Hr Hu HQ. unfold thread_unblock. kstep.
  eapply awp_is_thread; [done..|]. do 8 kstep; [by rewrite Hst|]. do 5 kstep.
  eapply (awp_unblock_insert
    (set_threads (<[t := with_status THREAD_READY th]> (threads a)) (intr_off a)) t
    (with_status THREAD_READY th) q); [apply lookup_insert_eq|done| |done|].
  { eapply (rq_ext (rq := ready)); [exact Hr|done..|]. intros u _. cbn.
    by apply (thread_priority_insert _ _ th). }
  cbn. rewrite insert_insert_eq. intros a1 a2 -> Hr2 Hp2. kstep. eapply HQ; [done| |].
  - eapply (rq_ext (rq := ready)); [exact Hr2|done..].
  - eapply (pushed_intr (set_threads _ a)). exact Hp2.
Qed.

(** * Preemption *)

(** The first ready thread has a higher priority than the running one. *)
Definition preempts (a : aview) (q : list tptr) : bool :=
  match q with
  | [] => false
  | t :: _ => thread_priority (threads a) t >? thread_priority (threads a) (running a)
  end.

(** The tail of both checks: yield now, or when the interrupt returns. *)
Definition yield_or_return : prog unit :=
  c ← act k_intr_context;
  if (c : bool) then act k_intr_yield_on_return else thread_yield.

Lemma apwp_check_preemption_bind {A} (k : unit → prog A) Q a q cur :
  current_ok a cur → lists a !! ready_list = Some (elems q) →
  (∀ t, t ∈ q → valid a t) →
  apwp ((if preempts a q then yield_or_return else mret ()) ≫= k) Q a →
  apwp (check_preemption ≫= k) Q a.
Proof.
  intros Hc Hq Hv Hk. pose proof Hc as (Ht & _ & _).
  apply apwp_Act. eapply awp_list_empty; [done|]. destruct q as [|t q]; [exact Hk|].
  destruct (Hv t) as (th & Hth & _); [by left|].
  apply apwp_Act. eapply awp_list_front; [done|]. apply apwp_Act. kstep. apply apwp_Act. kstep.
  apply apwp_Act. eapply awp_thread_current; [done|]. apply apwp_Act. kstep.
  unfold preempts, thread_priority in Hk. rewrite Hth, Ht in Hk.
  destruct (_ >? _); exact Hk.
Qed.

Lemma apwp_mlfqs_highest {A} js QS (k : Z → prog A) Q a :
  (∀ i, i ∈ js → lists a !! mlfqs_list i = Some (elems (QS i))) →
  ((∀ i, i ∈ js → QS i = []) → apwp (k (-1)) Q a) →
  (∀ pre i post, js = pre ++ i :: post → (∀ j, j ∈ pre → QS j = []) → QS i ≠ [] →
     apwp (k i) Q a) →
  apwp (mlfqs_highest js ≫= k) Q a.
Proof.
  revert k. induction js as [|i js IH]; intros k Hq Hnone Hsome.
  { apply Hnone. by intros ? ?%elem_of_nil. }
  apply apwp_Act. eapply awp_list_empty; [apply Hq; by left|].
  destruct (QS i) as [|t q] eqn:Hi.
  - rewrite bool_decide_true by done. apply IH.
    + intros j Hj. apply Hq. by right.
    + intros Hn. apply Hnone. by intros j [->|?]%elem_of_cons; auto.
    + intros pre j post -> Hpre Hj. apply (Hsome (i :: pre) j post); [done| |done].
      by intros ? [->|?]%elem_of_cons; auto.
  - rewrite bool_decide_false by done. apply (Hsome [] i js); [done|set_solver|by rewrite Hi].
Qed.

Lemma apwp_mlfqs_check_preemption_bind {A} (k : unit → prog A) Q a q cur :
  current_ok a cur → mlfqs_ready a q → -1 ≤ priority cur →
  apwp ((if preempts a q then yield_or_return else mret ()) ≫= k) Q a →
  apwp (mlfqs_check_preemption ≫= k) Q a.
Proof.
  intros Hc (Hm & QS & Hq & Hok & ->) Hp Hk. pose proof Hc as (Ht & _ & _).
  apply apwp_assoc. apply (apwp_mlfqs_highest _ QS).
  - intros i Hi%elem_of_rev_priorities. by apply Hq.
  - intros Hnone. rewrite mlfqs_order_nil in Hk by done.
    apply apwp_Act. eapply awp_thread_current; [done|]. apply apwp_Act. kstep.
    destruct (Z.gtb_spec (-1) (priority cur)); [lia|exact Hk].
  - intros pre i post Hjs Hpre Hi. destruct (QS i) as [|t q] eqn:Hq'; [done|].
    assert (Hip : i ∈ priorities) by (apply elem_of_rev_priorities; rewrite Hjs; set_solver).
    rewrite (mlfqs_order_upd_nil _ i t q) in Hk;
      [|done..|intros j Hj Hij; by eapply Hpre, rev_priorities_above].
    unfold preempts in Hk. rewrite (Hok i t), (thread_priority_at _ _ cur) in Hk
      by (done || (rewrite Hq'; by left)).
    apply apwp_Act. eapply awp_thread_current; [done|]. apply apwp_Act. kstep.
    destruct (_ >? _); exact Hk.
Qed.

(** The check after an operation that made a thread ready, for both schedulers. *)
Lemma apwp_preempt_bind {A} (k : unit → prog A) Q a q cur :
  current_ok a cur → priority_ok cur → ready a q → (∀ t, t ∈ q → valid a t) →
  apwp ((if preempts a q then yield_or_return else mret ()) ≫= k) Q a →
  apwp (preempt ≫= k) Q a.
Proof.
  intros Hc Hp Hr Hv Hk. apply apwp_Act, awp_get_thread_mlfqs.
  destruct Hr as [[Hm Hr]|Hr]; [|pose proof (proj1 Hr) as Hm]; rewrite Hm.
  - by eapply apwp_check_preemption_bind.
  - eapply apwp_mlfqs_check_preemption_bind; [done..| |done].
    unfold priority_ok, PRI_MIN in Hp. lia.
Qed.

(** ** The outcome of a check

    If the first ready thread has a higher priority than the running one, an
    interrupt handler asks for a yield on its return, and a thread yields; what
    follows then happens in the state the thread is running in again. *)
Definition yield_requested (a : aview) : aview :=
  set_intr (IView (iv_level (intr a)) true true) a.

Definition restored (l : intr_level) (a : aview) : aview :=
  set_intr (iv_set_level l (intr a)) a.

Definition yielded {A} (C : aview → Prop) (a : aview) (q : list tptr)
    (R : aview → out A → aview → Prop) (o : out A) (a' : aview) : Prop :=
  scheduled C (marked THREAD_READY (intr_off a)) (requeue a q)
    (λ b, R (restored (iv_level (intr a)) b)) o a'.

Definition checked {A} (C : aview → Prop) (a : aview) (q : list tptr)
    (R : aview → out A → aview → Prop) (o : out A) (a' : aview) : Prop :=
  if preempts a q then
    if iv_context (intr a) then R (yield_requested a) o a' else yielded C a q R o a'
  else R a o a'.

(** Whoever is first, unless it is the running thread, gets the processor. *)
Lemma scheduled_switches {A} C a q (R : aview → out A → aview → Prop) o a' n :
  next_of a q = Some n → n ≠ running a → scheduled C a q R o a' → ∃ k, o = OSwitch n k.
Proof.
  intros Hn Hne (n' & a1 & Hn' & _ & _ & _ & HR). rewrite Hn in Hn'. injection Hn' as <-.
  rewrite decide_False in HR by done. destruct HR as (k & -> & _). by exists k.
Qed.

Lemma checked_switches {A} C a q (R : aview → out A → aview → Prop) o a' n :
  preempts a q = true → iv_context (intr a) = false → next_of a (requeue a q) = Some n →
  n ≠ running a → checked C a q R o a' → ∃ k, o = OSwitch n k.
Proof.
  unfold checked, yielded. intros -> -> Hn Hne. by apply scheduled_switches.
Qed.

(** What a preemption check relies on. *)
Definition sched_ok (a : aview) (q : list tptr) (cur : thread) : Prop :=
  current_ok a cur ∧ priority_ok cur ∧ ready a q ∧
  unlinked (lists a) (thread_elem (running a)) ∧ (∀ t, t ∈ q → valid a t).

Lemma requeue_valid a q cur n :
  sched_ok a q cur → next_of a (requeue a q) = Some n → valid a n.
Proof.
  intros (Hc & _ & _ & _ & Hv) Hn.
  assert (Hself : valid a (running a)) by (destruct Hc as (? & ? & _); by exists cur).
  unfold requeue in Hn. case_bool_decide as Hi.
  - destruct q as [|t q]; simpl in Hn; [by rewrite Hn in Hi; injection Hi as <-|].
    injection Hn as <-. apply Hv. by left.
  - destruct (enqueue _ _ q) as [|t q1] eqn:He; simpl in Hn.
    + pose proof (enqueue_perm (threads a) (running a) q) as Hp. rewrite He in Hp.
      by apply Permutation_nil_cons in Hp.
    + injection Hn as <-. assert (t ∈ enqueue (threads a) (running a) q) by (rewrite He; by left).
      by apply elem_of_enqueue in H as [->|?]; auto.
Qed.

Lemma requeue_next a q cur :
  sched_ok a q cur → ∃ n, next_of a (requeue a q) = Some n.
Proof.
  intros _. unfold requeue. case_bool_decide as Hi.
  - destruct q; simpl; eauto.
  - destruct (enqueue _ _ q) as [|t q1] eqn:He; simpl; [|eauto].
    pose proof (enqueue_perm (threads a) (running a) q) as Hp. rewrite He in Hp.
    by apply Permutation_nil_cons in Hp.
Qed.

(** [k] meets [R] wherever the running thread goes on with interrupt level [l]. *)
Lemma apwp_yielded_bind {A} (k : unit → prog A) C R a q cur :
  sched_ok a q cur → iv_context (intr a) = false →
  (next_of a (requeue a q) = Some (running a) →
     ∀ a1, sched_frame (marked THREAD_READY (intr_off a)) a1 → C (resumed None a1)) →
  (∀ b bcur, current_ok b bcur → iv_level (intr b) = iv_level (intr a) →
     C (intr_off b) → apwp (k ()) (R b) b) →
  apwp (thread_yield ≫= k) (yielded C a q R) a.
Proof.
  intros Hs Hctx HC Hk. pose proof Hs as (Hc & Hp & Hr & Hu & Hv).
  destruct (requeue_next a q cur Hs) as [n Hn].
  eapply apwp_thread_yield_bind; [done..| | |]; [by eapply requeue_valid| |by intros ->; auto].
  intros b bcur Hb Hl HCb. apply apwp_Act, awp_intr_set_level.
  apply (Hk (restored (iv_level (intr a)) b) bcur); [done..|].
  replace (intr_off _) with b; [done|]. destruct b as [? [l ? ?]]. simpl in *. by subst l.
Qed.

(** Preemption is never by the running thread itself. *)
Lemma preempts_next a q cur :
  sched_ok a q cur → preempts a q = true →
  ∃ n, next_of a (requeue a q) = Some n ∧ n ≠ running a ∧ n ∈ q ∧
    thread_priority (threads a) (running a) < thread_priority (threads a) n.
Proof.
  intros (_ & _ & Hr & Hu & _) Hp. unfold preempts in Hp. destruct q as [|t q]; [done|].
  assert (Hne : t ≠ running a).
  { intros ->. by eapply (rq_linked (rq := ready)) in Hu; [|done|left]. }
  exists t. split_and!; [|done|by left|lia]. unfold requeue. case_bool_decide; [done|].
  unfold enqueue. simpl. destruct (Z.ltb_spec (- thread_priority (threads a) (running a))
    (- thread_priority (threads a) t)); [lia|done].
Qed.

Lemma apwp_checked_bind {A} (k : unit → prog A) C R a q cur :
  sched_ok a q cur → C (intr_off a) →
  (iv_context (intr a) = true → C (intr_off (yield_requested a))) →
  (∀ b bcur, current_ok b bcur → iv_level (intr b) = iv_level (intr a) →
     C (intr_off b) → apwp (k ()) (R b) b) →
  apwp ((if preempts a q then yield_or_return else mret ()) ≫= k) (checked C a q R) a.
Proof.
  intros Hs Ha Hx Hk. unfold checked. pose proof Hs as (Hc & _).
  destruct (preempts a q) eqn:Hpre; [|by eapply Hk].
  apply apwp_assoc, apwp_Act, awp_intr_context. destruct (iv_context (intr a)) eqn:Hctx.
  - apply apwp_Act, awp_intr_yield_on_return; [done|].
    eapply (Hk (yield_requested a)); [done|done|auto].
  - eapply apwp_yielded_bind; [done..| |done]. intros Hn.
    destruct (preempts_next a q cur Hs Hpre) as (n & Hn' & Hne & _). congruence.
Qed.

(** [a] with the running thread replaced. *)
Definition with_current (th : thread) (a : aview) : aview :=
  set_threads (<[running a := th]> (threads a)) a.

Lemma sched_ok_with_current a q cur th :
  sched_ok a q cur → magic th = magic cur → status th = status cur → priority_ok th →
  sched_ok (with_current th a) q th.
Proof.
  intros ((Ht & Hok & Hst) & Hp & Hr & Hu & Hv) Hm Hs Hp'.
  assert (Hnq : running a ∉ q) by (intros Hin; by eapply (rq_linked (rq := ready)) in Hu).
  split_and!; [|done| |done|].
  - split_and!; [apply lookup_insert_eq|unfold thread_ok in *; congruence|congruence].
  - eapply (rq_ext (rq := ready)); [exact Hr|done..|]. intros t Hin. unfold thread_priority. cbn.
    rewrite lookup_insert_ne; [done|]. by intros <-.
  - intros t Hin. destruct (Hv t Hin) as (x & Hx & ?). exists x. cbn.
    rewrite lookup_insert_ne; [done|]. by intros <-.
Qed.

(** [thread_yield_if_necessary] is a check that must not be made in an
    interrupt handler. *)
Lemma apwp_yield_if_necessary {A} (k : unit → prog A) Q a q cur :
  current_ok a cur → lists a !! ready_list = Some (elems q) → (∀ t, t ∈ q → valid a t) →
  apwp ((if preempts a q then thread_yield else mret ()) ≫= k) Q a →
  apwp (thread_yield_if_necessary ≫= k) Q a.
Proof.
  intros Hc Hq Hv Hk. pose proof Hc as (Ht & _ & _).
  apply apwp_Act. eapply awp_list_empty; [done|]. destruct q as [|t q]; [exact Hk|].
  destruct (Hv t) as (th & Hth & _); [by left|].
  apply apwp_Act. eapply awp_list_front; [done|]. apply apwp_Act. kstep. apply apwp_Act. kstep.
  apply apwp_Act. eapply awp_thread_current; [done|]. apply apwp_Act. kstep.
  unfold preempts, thread_priority in Hk. rewrite Hth, Ht in Hk. destruct (_ >? _); exact Hk.
Qed.

Lemma apwp_yield_if_necessary_bind {A} (k : unit → prog A) C R a q cur :
  sched_ok a q cur → lists a !! ready_list = Some (elems q) → iv_context (intr a) = false →
  C (intr_off a) →
  (∀ b bcur, current_ok b bcur → iv_level (intr b) = iv_level (intr a) →
     C (intr_off b) → apwp (k ()) (R b) b) →
  apwp (thread_yield_if_necessary ≫= k) (checked C a q R) a.
Proof.
  intros Hs Hq Hctx HC Hk. unfold checked. rewrite Hctx. pose proof Hs as (Hc & _ & _ & _ & Hv).
  eapply apwp_yield_if_necessary; [done..|]. destruct (preempts a q) eqn:Hpre; [|by eapply Hk].
  eapply apwp_yielded_bind; [done..| |done]. intros Hn.
  destruct (preempts_next a q cur Hs Hpre) as (n & Hn' & Hne & _). congruence.
Qed.
End awp_sched.

(** The thread returns from the call and changes nothing else. *)
Definition returns `{E : Env} (b : aview) (o : out unit) (b' : aview) : Prop :=
  o = ODone () ∧ b' = b.
