(* ===== verification/SampleSched.v ===== *)
(** Concrete scheduler states for the witnesses, and the tests that discharge
    their side conditions. *)
From S2P Require Import Prelude Env Kernel Thread Mlfqs Ready Sched.
From S2P Require Export Sample.

#[local] Existing Instances concrete_env concrete_env_laws.

Definition valid_check {L I P} (a : kst L I P) (q : list tptr) : bool :=
  forallb (λ t, match threads a !! t with Some th => magic th =? THREAD_MAGIC | None => false end) q.

Lemma valid_check_ok (a : aview) q : valid_check a q = true → ∀ t, t ∈ q → valid a t.
Proof.
  unfold valid_check. rewrite forallb_forall. intros H t Ht%list_elem_of_In.
  specialize (H t Ht). simpl in H.
  destruct (threads a !! t) as [th|] eqn:E; [|done]. exists th. split; [done|].
  by apply Z.eqb_eq in H.
Qed.

(** Thread 1 runs at priority [p]; threads 2 (priority 31) and 3 (priority 20)
    are ready, 4 is blocked and 9 is the idle thread. *)
Definition sched_threads (p : Z) : list (tptr * thread) :=
  [(1%positive, sample_thread 1 THREAD_RUNNING p); (2%positive, sample_thread 2 THREAD_READY 31);
   (3%positive, sample_thread 3 THREAD_READY 20); (4%positive, sample_thread 4 THREAD_BLOCKED 31);
   (9%positive, sample_thread 9 THREAD_BLOCKED 0)].

Definition sched_state (p : Z) : kstate :=
  sample_state false (sched_threads p) [(ready_list, elems [2; 3]%positive)].

(** The same ready threads under the feedback scheduler. *)
Definition sched_queues (i : Z) : list tptr :=
  if i =? 31 then [2%positive] else if i =? 20 then [3%positive] else [].

Definition mlfqs_state (p : Z) : kstate :=
  sample_state true (sched_threads p) (sample_queues sched_queues).

(** In a timer interrupt. *)
Definition in_interrupt (s : kstate) : kstate := set_intr (IView INTR_OFF true false : istate) s.

Lemma sample_queues_ok (s : kstate) (QS : Z → list tptr) :
  bool_decide (Forall (λ i, lists (obs s) !! mlfqs_list i = Some (elems (QS i))) priorities)
    = true → queues (obs s) QS.
Proof. intros H%bool_decide_eq_true_1 i Hi. by apply (proj1 (Forall_forall _ _) H). Qed.

Lemma sample_queues_sorted ts (QS : Z → list tptr) :
  bool_decide (Forall (λ i, Forall (λ t, thread_priority ts t = i) (QS i)) priorities) = true →
  queues_ok ts QS.
Proof.
  intros H%bool_decide_eq_true_1 i t Hi Ht. rewrite Forall_forall in H.
  specialize (H i Hi). rewrite Forall_forall in H. by apply H.
Qed.

Lemma mlfqs_state_ready p : ready (obs (mlfqs_state p)) [2; 3]%positive.
Proof.
  right. split; [done|]. exists sched_queues. split_and!.
  - apply sample_queues_ok. vm_compute. reflexivity.
  - apply sample_queues_sorted. vm_compute. reflexivity.
  - vm_compute. reflexivity.
Defined.

(** Decides the side conditions of the scheduler's specifications. *)
Ltac by_test :=
  lazymatch goal with
  | |- unlinked _ _ => apply (bool_decide_eq_true_1 _); vm_compute; reflexivity
  | |- _ ∈ _ => apply (bool_decide_eq_true_1 _); vm_compute; reflexivity
  | |- ready _ _ => first [left; split; reflexivity | apply mlfqs_state_ready]
  | |- ∀ t, t ∈ _ → valid _ t => apply valid_check_ok; vm_compute; reflexivity
  | |- _ => first
      [ reflexivity | discriminate | vm_compute; repeat split; first [reflexivity | discriminate]
      | repeat split; reflexivity ]
  end.
Ltac sched_by_test :=
  lazymatch goal with
  | |- sched_ok _ _ _ => refine (conj _ (conj _ (conj _ (conj _ _)))); by_test
  | _ => by_test
  end.
