(* ===== verification/SchedSpec.v ===== *)
(** threads/thread.c: the properties of the scheduler of Sched.v. *)
From S2P Require Import Prelude FixedPoint Env Kernel Thread Mlfqs Ready Sched SampleSched.

(** * Properties *)
Section properties.
Context {E : Env} {EL : EnvLaws E}.

(** C23: Whichever scheduler is active, taking the next thread to run is taking
    the front of one queue: the first ready thread is returned and removed, the
    idle thread is returned when there is none, and nothing but the schedulers'
    lists changes.  In a sorted queue no ready thread has a higher priority
    than the one taken, and the feedback queues are always sorted. *)
Theorem next_thread_to_run_spec a q :
  ready a q →
  awp next_thread_to_run
    (λ r a', r = next_of a q ∧ ready a' (tail q) ∧ sched_frame a a' ∧
       (thread_mlfqs a = true ∨ queue_sorted (threads a) q → ∀ t u, r = Some t → u ∈ q →
          thread_priority (threads a) u ≤ thread_priority (threads a) t)) a.
Proof.
  intros Hr. eapply (rq_pop (rq := ready)); [done| |].
  - intros ->. split_and!; [done..|]. by intros _ t u _ ?%elem_of_nil.
  - intros t q' a' -> Hr' [Hf _]. split_and!; [done..|]. intros Hs t' u [= <-] Hu.
    assert (Hsorted : queue_sorted (threads a) (t :: q')).
    { destruct Hs as [Hm|]; [|done]. destruct Hr as [[? _]|(_ & QS & _ & Hok & ->)]; [congruence|].
      by apply mlfqs_order_sorted. }
    apply sorted_on_cons in Hsorted as [Hle _].
    apply elem_of_cons in Hu as [->|Hu]; [done|]. specialize (Hle u Hu). lia.
Qed.

(** Unblocking makes a blocked thread ready and puts it into the queue behind
    every thread of at least its priority, whichever scheduler is active (the
    feedback scheduler first recomputes its priority).  The interrupt level is
    restored, nothing else changes, and in particular the running thread keeps
    the processor.  A sorted queue stays sorted. *)
Lemma thread_unblock_spec a t th q :
  threads a !! t = Some th → thread_ok th → status th = THREAD_BLOCKED → priority_ok th →
  ready a q → unlinked (lists a) (thread_elem t) →
  awp (thread_unblock t)
    (λ _ a', let a1 := set_threads (<[t := unblocked a t th]> (threads a)) a in
       ready a' (enqueue (threads a1) t q) ∧ pushed a1 t a' ∧
       status (unblocked a t th) = THREAD_READY ∧ priority_ok (unblocked a t th) ∧
       (queue_sorted (threads a1) q → queue_sorted (threads a') (enqueue (threads a1) t q))) a.
Proof.
  intros Ht Hok Hst Hp Hr Hu. eapply awp_thread_unblock; [done..|].
  intros a1 a' -> Hr' Hp'. cbv zeta. split_and!; [done..| | |].
  - unfold unblocked, reprioritised. by case_match.
  - unfold unblocked, reprioritised. case_match; [apply mlfqs_priority_raw_range|done].
  - intros Hs. destruct Hp' as [[-> _] _]. by apply enqueue_sorted.
Qed.

(** C15: A yield makes the running thread ready (unless it is the idle thread) and
    hands the processor to the first thread of the queue; when it is resumed,
    or if it is itself first, it runs again with a fresh time slice and returns
    with the interrupt level it had.  It stays on the processor exactly when
    every ready thread has a lower priority: equals take turns. *)
Theorem thread_yield_spec a q cur :
  sched_ok a q cur → iv_context (intr a) = false →
  apwp thread_yield (yielded anything a q returns) a ∧
  (Some (running a) ≠ idle_thread a → queue_sorted (threads a) q →
     (next_of a (requeue a q) = Some (running a) ↔
      ∀ t, t ∈ q → thread_priority (threads a) t < thread_priority (threads a) (running a))).
Proof.
  intros Hs Hctx. split.
  - rewrite <- (prog_bind_ret_r thread_yield).
    eapply (apwp_yielded_bind Ret); [done..|]. intros b bcur _ _ _. by apply apwp_ret.
  - intros Hi Hsort. unfold requeue. rewrite bool_decide_false by done. unfold enqueue.
    destruct q as [|t q]; simpl.
    { split; [|done]. by intros _ ? ?%elem_of_nil. }
    apply sorted_on_cons in Hsort as [Hle _].
    destruct (Z.ltb_spec (- thread_priority (threads a) (running a))
      (- thread_priority (threads a) t)); simpl; split; try done.
    + intros _ u [->|Hu]%elem_of_cons; [lia|]. specialize (Hle u Hu). lia.
    + intros [= ->]. destruct Hs as (_ & _ & Hr & Hu & _). exfalso.
      by eapply (rq_linked (rq := ready)) in Hu; [|done|left].
    + intros Hall. specialize (Hall t). set_solver by lia.
Qed.

(** Blocking takes the running thread out of scheduling: it is marked blocked,
    put into no queue, and the processor goes to the first ready thread, or to
    the idle thread; once resumed, it returns with interrupts still off. *)
Lemma thread_block_spec a q cur n :
  current_ok a cur → iv_context (intr a) = false → iv_level (intr a) = INTR_OFF →
  ready a q → next_of a q = Some n → valid a n →
  apwp thread_block (scheduled anything (marked THREAD_BLOCKED a) q returns) a.
Proof.
  intros. rewrite <- (prog_bind_ret_r thread_block).
  eapply (apwp_thread_block_bind Ret); [done..| |done].
  intros b bcur _ _ _. by apply apwp_ret.
Qed.

Lemma preempts_spec a q :
  queue_sorted (threads a) q →
  if preempts a q
  then ∃ t q', q = t :: q' ∧
       thread_priority (threads a) (running a) < thread_priority (threads a) t ∧
       ∀ u, u ∈ q → thread_priority (threads a) u ≤ thread_priority (threads a) t
  else ∀ u, u ∈ q → thread_priority (threads a) u ≤ thread_priority (threads a) (running a).
Proof.
  intros Hs. unfold preempts. destruct q as [|t q]; [by intros ? ?%elem_of_nil|].
  apply sorted_on_cons in Hs as [Hle _].
  destruct (Z.gtb_spec (thread_priority (threads a) t) (thread_priority (threads a) (running a))).
  - exists t, q. split_and!; [done|lia|]. intros u [->|Hu]%elem_of_cons; [lia|].
    specialize (Hle u Hu). lia.
  - intros u [->|Hu]%elem_of_cons; [lia|]. specialize (Hle u Hu). lia.
Qed.

(** C22: The check made after a thread has become ready, under either scheduler.
    If no ready thread has a higher priority than the running one, nothing
    happens.  If one has, an interrupt handler only requests a yield; a thread
    yields, to a thread which no ready thread and not the caller exceeds.  So
    wherever the check returns without a request, the running thread has the
    highest priority. *)
Theorem preempt_spec a q cur :
  sched_ok a q cur → queue_sorted (threads a) q →
  apwp preempt (λ o a',
    checked anything a q returns o a' ∧
    (preempts a q = false →
       ∀ u, u ∈ q → thread_priority (threads a) u ≤ thread_priority (threads a) (running a)) ∧
    (preempts a q = true →
       ∃ n, next_of a (requeue a q) = Some n ∧ n ≠ running a ∧
         thread_priority (threads a) (running a) < thread_priority (threads a) n ∧
         ∀ u, u ∈ q → thread_priority (threads a) u ≤ thread_priority (threads a) n)) a.
Proof.
  intros Hs Hsort. pose proof (preempts_spec a q Hsort) as Hpre.
  rewrite <- (prog_bind_ret_r preempt). pose proof Hs as (Hc & Hp & Hr & Hu & Hv).
  eapply (apwp_preempt_bind Ret); [done..|].
  eapply apwp_mono; [eapply (apwp_checked_bind Ret anything returns); [done..|]|].
  { intros b bcur _ _ _. by apply apwp_ret. }
  intros o a' HR. split; [done|]. split; intros Hb; rewrite Hb in Hpre; [done|].
  destruct Hpre as (t & q' & -> & Hlt & Hmax). exists t. split_and!; [|intros ->; lia|done..].
  unfold requeue. case_bool_decide; [done|]. unfold enqueue. simpl.
  destruct (Z.ltb_spec (- thread_priority (threads a) (running a))
    (- thread_priority (threads a) t)); [lia|done].
Qed.

(** After a switch the new thread is running with a fresh time slice.  If the
    previous thread was dying, its page is freed and it exists no more, except
    that the initial thread is never freed; a thread that is not dying is left
    as it was. *)
Lemma thread_schedule_tail_spec prev (a : aview) :
  can_resume prev a →
  awp (thread_schedule_tail (Some prev))
    (λ _ a', a' = resumed (Some prev) a ∧
       status <$> threads a' !! running a' = Some THREAD_RUNNING ∧ thread_ticks a' = 0 ∧
       (reaps a prev = true → threads a' !! prev = None ∧ pages a' = pages a ∖ {[prev]}) ∧
       (reaps a prev = false → threads a' !! prev = threads a !! prev ∧ pages a' = pages a)) a.
Proof.
  intros Hr. apply awp_thread_schedule_tail; [done|]. split; [done|].
  destruct Hr as (_ & (cur & Hc & Hok) & (pth & Hp) & Hne & _).
  destruct (resumed_current (Some prev) a cur Hc Hok ltac:(congruence)) as (-> & _ & Hs).
  split; [done|]. unfold resumed.
  assert (Hreap : reaps (set_thread_ticks 0
    (set_threads (alter (with_status THREAD_RUNNING) (running a) (threads a)) a)) prev
    = reaps a prev).
  { unfold reaps. cbn. by rewrite lookup_alter_ne. }
  rewrite Hreap. destruct (reaps a prev); split_and!; try done; intros _; cbn.
  - by rewrite lookup_delete_eq.
  - by rewrite lookup_alter_ne.
Qed.

Lemma awp_count_tick Q (a : aview) (idle : bool) :
  in_int64 (idle_ticks a + 1) → in_int64 (kernel_ticks a + 1) →
  Q () (set_idle_ticks (idle_ticks a + if idle then 1 else 0)
         (set_kernel_ticks (kernel_ticks a + if idle then 0 else 1) a)) →
  awp (if idle then modify (λ s, set_idle_ticks (int64 (idle_ticks s + 1)) s)
       else modify (λ s, set_kernel_ticks (int64 (kernel_ticks s + 1)) s)) Q a.
Proof.
  intros Hi Hk HQ. destruct idle; (eapply awp_modify; [|exact HQ]); intros s <-;
    cbn in Hi, Hk |- *; rewrite int64_id by done; destruct s; unfold obs; cbn;
    by rewrite Z.add_0_r.
Qed.

Lemma awp_charge_tick t th Q (a : aview) (b : bool) :
  threads a !! t = Some th →
  Q () (set_threads (if b then
      <[t := with_recent_cpu (FixedPoint.fp_add_int (recent_cpu th) 1) th]> (threads a)
      else threads a) a) →
  awp (if b then th ← deref t;
         store t (with_recent_cpu (FixedPoint.fp_add_int (recent_cpu th) 1))
       else mret ()) Q a.
Proof.
  intros Ht HQ. destruct b; [by ksteps|]. kstep. by destruct a.
Qed.

(** What a timer tick does. *)
Definition ticked (a : aview) (cur : thread) : aview :=
  let idle := bool_decide (Some (running a) = idle_thread a) in
  set_intr (IView (iv_level (intr a)) true
              (iv_yield (intr a) || (TIME_SLICE <=? thread_ticks a + 1)))
  (set_thread_ticks (thread_ticks a + 1)
  (set_threads (if thread_mlfqs a && negb idle
     then <[running a := with_recent_cpu (FixedPoint.fp_add_int (recent_cpu cur) 1) cur]>
            (threads a)
     else threads a)
  (set_idle_ticks (idle_ticks a + if idle then 1 else 0)
  (set_kernel_ticks (kernel_ticks a + if idle then 0 else 1) a)))).

(** The counters do not wrap. *)
Definition can_tick (a : aview) : Prop :=
  0 ≤ thread_ticks a < 4294967295 ∧ in_int64 (idle_ticks a + 1) ∧ in_int64 (kernel_ticks a + 1).

Lemma awp_thread_tick cur Q (a : aview) :
  current_ok a cur → iv_context (intr a) = true → can_tick a →
  Q () (ticked a cur) → awp thread_tick Q a.
Proof.
  intros Hc Hctx (Ht & Hi & Hk) HQ. unfold thread_tick, ticked in *. kstep.
  eapply awp_thread_current; [done|]. kstep. kstep. kstep.
  pose proof Hc as (Hcur & _ & _).
  assert (Hticks : uint32 (thread_ticks a + 1) = thread_ticks a + 1) by (apply uint32_id; lia).
  apply awp_count_tick; [done..|]. kstep. kstep. kstep.
  eapply awp_charge_tick; [exact Hcur|]. ksteps. rewrite Hticks.
  rewrite bool_decide_not, Z.geb_leb. destruct (TIME_SLICE <=? _).
  - kstep. by rewrite orb_true_r in HQ.
  - kstep. destruct a as [? [? ? ?]]. simpl in *. subst. by rewrite orb_false_r in HQ.
Qed.

(** A timer tick counts one tick for the idle thread or for the kernel, and
    one in the time slice; the running thread is asked to yield on return from
    the interrupt exactly when the slice of [TIME_SLICE] ticks is used up.  The
    feedback scheduler charges the tick to a running thread that is not idle.
    No other thread, no list and no other counter is touched. *)
Lemma thread_tick_spec (a : aview) cur :
  current_ok a cur → iv_context (intr a) = true → iv_yield (intr a) = false → can_tick a →
  awp thread_tick
    (λ _ a', a' = ticked a cur ∧
       (iv_yield (intr a') = true ↔ TIME_SLICE ≤ thread_ticks a + 1) ∧
       idle_ticks a' + kernel_ticks a' = idle_ticks a + kernel_ticks a + 1) a.
Proof.
  intros Hc Hctx Hy Ht. eapply awp_thread_tick; [done..|]. split; [done|]. unfold ticked. cbn.
  rewrite Hy. cbn [orb]. split; [apply Z.leb_le|]. case_bool_decide; lia.
Qed.

Lemma apwp_thread_set_priority p a q cur :
  sched_ok a q cur → thread_mlfqs a = false → PRI_MIN ≤ p ≤ PRI_MAX →
  apwp (thread_set_priority p)
    (checked anything (with_current (with_priority p cur) a) q returns) a.
Proof.
  intros Hs Hm Hp. pose proof Hs as (Hc & _ & Hr & _). pose proof Hc as (Ht & _ & _).
  apply apwp_Act. eapply awp_thread_current; [done|]. apply apwp_Act. kstep.
  change (set_threads _ a) with (with_current (with_priority p cur) a).
  pose proof (sched_ok_with_current a q cur (with_priority p cur) Hs eq_refl eq_refl Hp) as Hs1.
  rewrite <- (prog_bind_ret_r check_preemption).
  destruct Hr as [[_ Hr]|[? _]]; [|congruence].
  eapply (apwp_check_preemption_bind Ret); [apply Hs1|exact Hr|apply Hs1|].
  eapply (apwp_checked_bind Ret); [done..|]. intros b bcur _ _ _. by apply apwp_ret.
Qed.

(** Setting the priority of the running thread changes its [priority] field
    and no other field, then hands the processor over if a ready thread now has
    a higher priority (under the priority scheduler). *)
Lemma thread_set_priority_spec p a q cur :
  sched_ok a q cur → thread_mlfqs a = false → PRI_MIN ≤ p ≤ PRI_MAX →
  apwp (thread_set_priority p) (λ o a', let b := with_current (with_priority p cur) a in
    sched_ok b q (with_priority p cur) ∧ thread_priority (threads b) (running b) = p ∧
    checked anything b q returns o a') a.
Proof.
  intros Hs Hm Hp. eapply apwp_mono; [by apply apwp_thread_set_priority|]. intros o a' Ho.
  pose proof (sched_ok_with_current a q cur (with_priority p cur) Hs eq_refl eq_refl Hp) as Hs1.
  split_and!; [done| |done]. by eapply (thread_priority_at _ _ (with_priority p cur)), Hs1.
Qed.

Definition clamp_nice (n : Z) : Z := Z.max NICE_MIN (Z.min NICE_MAX n).

(** Setting the niceness under the feedback scheduler clamps it to
    [NICE_MIN..NICE_MAX], recomputes the priority of the running thread from
    it, and hands the processor over if a ready thread now has a higher one. *)
Lemma thread_set_nice_spec n a q cur :
  sched_ok a q cur → thread_mlfqs a = true → Some (running a) ≠ idle_thread a →
  in_int32 (recent_cpu cur) →
  let cur1 := with_nice (clamp_nice n) cur in
  apwp (thread_set_nice n)
    (checked anything (with_current (with_priority (mlfqs_priority cur1) cur1) a) q returns) a.
Proof.
  intros Hs Hm Hi Hrc cur1. pose proof Hs as (Hc & _). pose proof Hc as (Ht & Hok & Hst).
  assert (Hn : nice_ok cur1) by (unfold nice_ok, cur1, clamp_nice, NICE_MIN, NICE_MAX; cbn; lia).
  unfold thread_set_nice.
  replace (if _ <? NICE_MIN then _ else _) with (clamp_nice n)
    by (unfold clamp_nice, NICE_MIN, NICE_MAX; repeat case_match; lia).
  apply apwp_Act. eapply awp_thread_current; [done|]. apply apwp_Act. kstep. fold cur1.
  apply apwp_Act. eapply (awp_thread_current cur1).
  { split_and!; [apply lookup_insert_eq|done..]. }
  apply apwp_Act. eapply awp_mlfqs_update_priority; [apply lookup_insert_eq|].
  rewrite bool_decide_false by done. ksimpl. rewrite insert_insert_eq.
  rewrite mlfqs_priority_raw_exact by done.
  set (cur2 := with_priority (mlfqs_priority cur1) cur1).
  change (set_threads _ _) with (with_current cur2 a).
  assert (Hp : priority_ok cur2).
  { unfold priority_ok, cur2. cbn. rewrite <- mlfqs_priority_raw_exact by done.
    apply mlfqs_priority_raw_range. }
  pose proof (sched_ok_with_current a q cur cur2 Hs eq_refl eq_refl Hp) as Hs1.
  rewrite <- (prog_bind_ret_r mlfqs_check_preemption).
  pose proof Hs1 as (Hc1 & _ & Hr1 & _).
  destruct Hr1 as [[? _]|Hr1]; [cbn in *; congruence|].
  eapply (apwp_mlfqs_check_preemption_bind Ret); [done..| |].
  { unfold priority_ok, PRI_MIN in Hp. lia. }
  eapply (apwp_checked_bind Ret); [done..|]. intros b bcur _ _ _. by apply apwp_ret.
Qed.
End properties.

(** * Witnesses *)
Section witnesses.
#[local] Existing Instances concrete_env concrete_env_laws.

Lemma next_thread_to_run_spec_witness :
  holds_at next_thread_to_run (λ r _, r = Some 2%positive) (mlfqs_state 31).
Proof.
  eapply holds_mono; [apply awp_holds, (next_thread_to_run_spec _ [2; 3]%positive); by_test|].
  by intros r a' [-> _].
Defined.

Lemma thread_unblock_spec_witness :
  holds_at (thread_unblock 4) (λ _ a', ready a' [2; 4; 3]%positive) (sched_state 31).
Proof.
  eapply holds_mono.
  - apply awp_holds, (thread_unblock_spec _ 4 (sample_thread 4 THREAD_BLOCKED 31) [2; 3]%positive);
      by_test.
  - by intros [] a' [Hr _].
Defined.

(** Thread 2 has the priority of the running thread 1: they take turns. *)
Lemma thread_yield_spec_witness :
  ends_at thread_yield (λ o a', ∃ k, o = OSwitch 2 k) (sched_state 31).
Proof.
  eapply ends_mono.
  - apply apwp_ends, (thread_yield_spec _ [2; 3]%positive (sample_thread 1 THREAD_RUNNING 31));
      sched_by_test.
  - intros o a'. apply scheduled_switches; by vm_compute.
Defined.

Lemma thread_block_spec_witness :
  ends_at thread_block (λ o a', ∃ k, o = OSwitch 2 k) (mlfqs_state 31).
Proof.
  eapply ends_mono.
  - apply apwp_ends, (thread_block_spec _ [2; 3]%positive (sample_thread 1 THREAD_RUNNING 31) 2);
      try by_test. eexists. by split.
  - intros o a'. apply scheduled_switches; by vm_compute.
Defined.

(** Thread 1 has priority 25, thread 2 has 31. *)
Lemma preempt_spec_witness :
  ends_at preempt (λ o a', ∃ k, o = OSwitch 2 k) (sched_state 25).
Proof.
  eapply ends_mono.
  - apply apwp_ends, (preempt_spec _ [2; 3]%positive (sample_thread 1 THREAD_RUNNING 25)).
    + sched_by_test.
    + apply sorted_on_cons. split; [|apply sorted_on_cons; split; [by intros ? ?%elem_of_nil|constructor]].
      intros u ->%list_elem_of_singleton. vm_compute. discriminate.
  - intros o a' [H _]. revert H. apply checked_switches; by vm_compute.
Defined.

(** Thread 4 was dying when it switched to thread 1. *)
Definition wit_dying : kstate :=
  set_threads (<[4%positive := sample_thread 4 THREAD_DYING 31]> (threads (sched_state 31)))
    (sched_state 31).

Lemma thread_schedule_tail_spec_witness :
  holds_at (thread_schedule_tail (Some 4%positive))
    (λ _ a', threads a' !! 4%positive = None) wit_dying.
Proof.
  eapply holds_mono.
  - apply awp_holds, (thread_schedule_tail_spec 4).
      split_and!; first [by_test | eexists; by split | by eexists | intros _; by_test].
  - intros [] a' (_ & _ & _ & H & _). by apply H.
Defined.

Lemma thread_tick_spec_witness :
  holds_at thread_tick (λ _ a', iv_yield (intr a') = true ∧ kernel_ticks a' = 1)
    (set_thread_ticks 3 (in_interrupt (sched_state 31))).
Proof.
  eapply holds_mono.
  - apply awp_holds, (thread_tick_spec _ (sample_thread 1 THREAD_RUNNING 31)); by_test.
  - by intros [] a' (-> & _).
Defined.

Lemma thread_set_priority_spec_witness :
  ends_at (thread_set_priority 10) (λ o a', ∃ k, o = OSwitch 2 k) (sched_state 31).
Proof.
  eapply ends_mono.
  - apply apwp_ends, (thread_set_priority_spec 10 _ [2; 3]%positive
      (sample_thread 1 THREAD_RUNNING 31)); sched_by_test.
  - intros o a' (_ & _ & Ho). revert Ho. apply checked_switches; by vm_compute.
Defined.

(** A niceness of 25 counts as 20; the priority becomes 63 - 40 = 23 < 31. *)
Lemma thread_set_nice_spec_witness :
  ends_at (thread_set_nice 25) (λ o a', ∃ k, o = OSwitch 2 k) (mlfqs_state 31).
Proof.
  eapply ends_mono.
  - apply apwp_ends, (thread_set_nice_spec 25 _ [2; 3]%positive
      (sample_thread 1 THREAD_RUNNING 31)); sched_by_test.
  - intros o a'. apply checked_switches; by vm_compute.
Defined.
End witnesses.
