(* ===== verification/Wait.v ===== *)
(** Total correctness of code that may sleep any number of times.

    [swp G C s p Q a]: run from [a], [p] never faults; each stretch of it between
    two switches terminates; if a stretch that began in state [s] gives up the
    processor to a thread [n] in state [b], then [G s n b]; and if each time it
    is resumed the other threads have established [C], then whenever it returns
    [x] in state [b], in a stretch that began in [s], [Q s x b] holds.  The
    current stretch began in the [s] given to [swp]; a later one begins where
    the thread is running again.  It is the greatest such predicate, so that a
    thread may also sleep forever. *)
From S2P Require Import Prelude Env Kernel Thread Mlfqs Ready Sched.

(** The scheduler, run in state [a] with ready threads [q], has handed the
    processor to [n]. *)
Definition handed `{E : Env} {EL : EnvLaws E} (a : aview) (q : list tptr) (n : tptr)
    (a1 : aview) : Prop :=
  next_of a q = Some n ∧ n ≠ running a ∧ ready a1 (tail q) ∧ sched_frame a a1 ∧
  (∀ e, unlinked (lists a) e ∨ e ∈ elems q → e ∉ elems (tail q) → unlinked (lists a1) e).

Section swp.
Context {E : Env} {EL : EnvLaws E} (G : aview → tptr → aview → Prop) (C : aview → Prop).

(** The end of a stretch: [X] has to hold of the rest whenever it is resumed. *)
Definition stretch {A} (X : aview → prog A → aview → Prop) (Q : aview → A → aview → Prop)
    (s : aview) (o : out A) (a : aview) : Prop :=
  match o with
  | ODone x => Q s x a
  | OSwitch n k => G s n a ∧ ∀ prev b, can_resume prev b → C (resumed (Some prev) b) →
      X (resumed (Some prev) b) (k prev) b
  | OFault _ => False
  end.

Definition swp {A} (s : aview) (p : prog A) (Q : aview → A → aview → Prop) (a : aview) : Prop :=
  ∃ X, X s p a ∧ ∀ s' p' a', X s' p' a' → apwp p' (stretch X Q s') a'.

Lemma stretch_mono {A} (X Y : aview → prog A → aview → Prop) (Q R : aview → A → aview → Prop)
    s o a :
  (∀ s p b, X s p b → Y s p b) → (∀ s x b, Q s x b → R s x b) → stretch X Q s o a → stretch Y R s o a.
Proof. intros HX HQ. destruct o; simpl; [auto| |done]. intros [? ?]. split; eauto. Qed.

Lemma swp_coind {A} (X : aview → prog A → aview → Prop) Q s p a :
  (∀ s' p' a', X s' p' a' → apwp p' (stretch X Q s') a') → X s p a → swp s p Q a.
Proof. intros HX H. by exists X. Qed.

Lemma swp_unfold {A} s (p : prog A) Q a : swp s p Q a → apwp p (stretch (λ s p, swp s p Q) Q s) a.
Proof.
  intros (X & Hp & HX). eapply apwp_mono; [by apply HX|]. intros o a'.
  apply stretch_mono; [|done]. intros s' p' b Hp'. by exists X.
Qed.

Lemma swp_fold {A} s (p : prog A) Q a : apwp p (stretch (λ s p, swp s p Q) Q s) a → swp s p Q a.
Proof.
  intros H. apply (swp_coind (λ s' p' a', apwp p' (stretch (λ s p, swp s p Q) Q s') a')); [|done].
  intros s' p' a' H'. eapply apwp_mono; [exact H'|]. intros o b. apply stretch_mono; [|done].
  intros s'' p'' b'. apply swp_unfold.
Qed.

Lemma swp_mono {A} s (p : prog A) (Q R : aview → A → aview → Prop) a :
  swp s p Q a → (∀ s x b, Q s x b → R s x b) → swp s p R a.
Proof.
  intros (X & Hp & HX) HQ. exists X. split; [done|]. intros s' p' a' Hp'.
  eapply apwp_mono; [by apply HX|]. intros o b. by apply stretch_mono.
Qed.

(** What is promised from a later start of the stretch is promised from [s]. *)
Lemma swp_start {A} s s' (p : prog A) Q a :
  (∀ n b, G s' n b → G s n b) → (∀ x b, Q s' x b → Q s x b) → swp s' p Q a → swp s p Q a.
Proof.
  intros HG HQ H. apply swp_fold. eapply apwp_mono; [by apply swp_unfold|].
  intros [x|n k|e] b; simpl; [auto| |done]. intros [? ?]. split; auto.
Qed.

Lemma swp_ret {A} s (x : A) Q a : Q s x a → swp s (Ret x) Q a.
Proof. intros HQ. apply swp_fold. by apply apwp_ret. Qed.

Lemma swp_act_bind {A B} s (f : K A) (k : A → prog B) Q a :
  awp f (λ x a', swp s (k x) Q a') a → swp s (act f ≫= k) Q a.
Proof.
  intros H. apply swp_fold, apwp_act_bind. eapply awp_mono; [exact H|].
  intros x b. apply swp_unfold.
Qed.

Lemma swp_act {A} s (f : K A) Q a : awp f (Q s) a → swp s (act f) Q a.
Proof.
  intros H. apply (swp_act_bind s f Ret). eapply awp_mono; [exact H|]. intros. by apply swp_ret.
Qed.

Lemma stretch_bind {A B} (f : A → prog B) X (Q : aview → A → aview → Prop)
    (R : aview → B → aview → Prop) s o a :
  (∀ x b, Q s x b → apwp (f x) (stretch X R s) b) →
  stretch (λ s p b, X s (p ≫= f) b) Q s o a →
  match out_bind o f with
  | inr x => apwp (f x) (stretch X R s) a
  | inl o' => stretch X R s o' a
  end.
Proof. intros Hf. destruct o; simpl; auto. Qed.

Lemma swp_bind {A B} s (p : prog A) (f : A → prog B) Q a :
  swp s p (λ s' x a', swp s' (f x) Q a') a → swp s (p ≫= f) Q a.
Proof.
  intros H. apply (swp_coind (λ s' p' a', swp s' p' Q a' ∨
    ∃ p0, p' = p0 ≫= f ∧ swp s' p0 (λ s x a', swp s (f x) Q a') a')); [|right; by exists p].
  assert (Hl : ∀ X s' p' a', (∀ s q b, swp s q Q b → X s q b) → swp s' p' Q a' →
    apwp p' (stretch X Q s') a').
  { intros X s' p' a' HX Hp'. eapply apwp_mono; [by apply swp_unfold|]. intros o b.
    by apply stretch_mono. }
  intros s' p' a' [Hp'|(p0 & -> & Hp0)]; [apply Hl; [by left|done]|].
  apply apwp_bind. eapply apwp_mono; [by apply swp_unfold|]. intros o b Ho.
  eapply stretch_bind; [|eapply stretch_mono; [|done|exact Ho]].
  - intros x c Hx. apply Hl; [by left|exact Hx].
  - intros s1 p1 c Hp1. right. by exists p1.
Qed.

Lemma swp_assoc {A B D} s (p : prog A) (f : A → prog B) (g : B → prog D) Q a :
  swp s (p ≫= λ x, f x ≫= g) Q a → swp s ((p ≫= f) ≫= g) Q a.
Proof. unfold mbind, prog_mbind. by rewrite prog_bind_assoc. Qed.

(** One round of a loop. *)
Lemma swp_unroll {A X B} s (body : X → prog (X + B)) x (k : B → prog A) Q a :
  swp s (body x ≫= unroll body k) Q a → swp s (Loop body x k) Q a.
Proof. intros H. apply swp_fold, apwp_Loop. by apply swp_unfold. Qed.

(** A loop whose body goes round again only after it has slept. *)
Definition round {A X} (Inv : aview → X → aview → Prop) (Q : aview → A → aview → Prop)
    (s : aview) (r : X + A) (a : aview) : Prop :=
  match r with inl x => Inv s x a | inr y => Q s y a end.

Lemma swp_loop {A X} (body : X → prog (X + A)) (Inv : aview → X → aview → Prop) Q s x a :
  (∀ s x b, Inv s x b →
     apwp (body x) (stretch (λ s p, swp s p (round Inv Q)) (round (λ _ _ _, False) Q) s) b) →
  Inv s x a → swp s (loop body x) Q a.
Proof.
  intros Hbody Hx. apply (swp_coind (λ s p b, (∃ y, p = loop body y ∧ Inv s y b) ∨
    (∃ p0, p = p0 ≫= unroll body Ret ∧ swp s p0 (round Inv Q) b))); [|left; by exists x].
  set (Y := λ s (p : prog A) b, _ ∨ _).
  assert (Hloop : ∀ s y b, Inv s y b → apwp (loop body y) (stretch Y Q s) b).
  { intros s1 y b Hy. apply apwp_loop, apwp_bind. eapply apwp_mono; [by apply Hbody|].
    intros o c Ho. eapply stretch_bind; [|eapply stretch_mono; [|done|exact Ho]].
    - intros [z|z] d Hz; [done|]. by apply apwp_ret.
    - intros s2 p d Hp. right. by exists p. }
  intros s1 p b [(y & -> & Hy)|(p0 & -> & Hp0)]; [by apply Hloop|].
  apply apwp_bind. eapply apwp_mono; [by apply swp_unfold|]. intros o c Ho.
  eapply stretch_bind; [|eapply stretch_mono; [|done|exact Ho]].
  - intros [z|z] d Hz; [by apply Hloop|by apply apwp_ret].
  - intros s2 p d Hp. right. by exists p.
Qed.

End swp.

(** Every stretch begins in [C]. *)
Lemma swp_guarantee `{E : Env} {EL : EnvLaws E} {A} G G' C s (p : prog A) Q a :
  (∀ s n b, C s → G s n b → G' s n b) → C s → swp G C s p Q a → swp G' C s p Q a.
Proof.
  intros HG Hs Hp. apply (swp_coind G' C (λ s p a, C s ∧ swp G C s p Q a)); [|done].
  intros s' p' a' [Hs' Hp']. eapply apwp_mono; [by apply swp_unfold|]. intros [x|n k|e] b; [done| |done].
  intros [Hn Hk]. split; [by apply HG|]. intros prev c Hc HC. split; [done|]. by apply Hk.
Qed.

(** Code that hands the processor over at most once. *)
Lemma stretch_scheduled `{E : Env} {EL : EnvLaws E} {A} G0 G (C0 C : aview → Prop) s a q
    (R : aview → out A → aview → Prop) (Q0 Q : aview → A → aview → Prop) o a' :
  (∀ a1, next_of a q = Some (running a) → ready a1 (tail q) → sched_frame a a1 →
     (∀ e, unlinked (lists a) e ∨ e ∈ elems q → e ∉ elems (tail q) → unlinked (lists a1) e) →
     R (resumed None a1) o a' → ∃ x, o = ODone x ∧ Q0 s x a') →
  (∀ b o b', R b o b' → ∃ x, o = ODone x ∧ (C b → Q b x b')) →
  (∀ n a1, handed a q n a1 → G0 s n a1) → (∀ c, C c → C0 c) →
  scheduled C0 a q R o a' → stretch G0 C (λ s p, swp G C s p Q) Q0 s o a'.
Proof.
  intros Hself HR HG HC (n & a1 & Hn & Hr & Hf & Hu & Ho). case_decide as Hd.
  - subst n. by destruct (Hself a1) as (x & -> & HQ).
  - destruct Ho as (k & -> & -> & Hk). split; [by apply HG; split_and!|]. intros prev b Hb HCb.
    apply swp_fold. eapply apwp_mono; [by apply Hk; auto|]. intros o b' HRb.
    destruct (HR _ _ _ HRb) as (x & -> & HQ). by apply HQ.
Qed.
