(* ===== verification/Synch.v ===== *)
(** threads/synch.c: semaphores, locks and condition variables.

    The assertions that a pointer argument is not NULL have no counterpart: the
    types [sema_ptr], [lock_ptr] and [cond_ptr] name objects.  The
    [struct semaphore_elem] of [cond_wait] is on the stack of the waiting
    thread [t]: its list element is [waiter_elem t], its semaphore
    [sema_of_waiter t]. *)
From S2P Require Import Prelude Env Kernel Thread Mlfqs Ready Sched Donation.

Section code.
Context {E : Env}.

(** * Semaphores *)

Definition sema_init (sema : sema_ptr) (value : Z) : K unit :=
  set_sema_value sema value;;
  k_list_init (sema_waiters sema).

(** [while (sema->value == 0) ...] *)
Definition sema_wait (sema : sema_ptr) (_ : unit) : prog (unit + unit) :=
  value ← act (sema_value sema);
  if value =? 0 then
    cur ← act thread_current;
    act (k_list_insert_ordered (sema_waiters sema) (thread_elem cur) less_priority);;
    thread_block;;
    mret (inl ())
  else mret (inr ()).

Definition sema_down (sema : sema_ptr) : prog unit :=
  act (assert_not_intr_context "sema_down: !intr_context ()");;
  old_level ← act k_intr_disable;
  loop (sema_wait sema) ();;
  value ← act (sema_value sema);
  act (set_sema_value sema (uint32 (value - 1)));;
  act (k_intr_set_level old_level).

Definition sema_try_down (sema : sema_ptr) : K bool :=
  old_level ← k_intr_disable;
  value ← sema_value sema;
  success ← (if value >? 0 then set_sema_value sema (uint32 (value - 1));; mret true
             else mret false);
  k_intr_set_level old_level;;
  mret success.

Definition sema_up (sema : sema_ptr) : prog unit :=
  old_level ← act k_intr_disable;
  b ← act (k_list_empty (sema_waiters sema));
  (if negb b then
     e ← act (k_list_pop_front (sema_waiters sema));
     to_unblock ← act (lift_opt EBadPtr (entry_elem e));
     act (thread_unblock to_unblock)
   else mret ());;
  value ← act (sema_value sema);
  act (set_sema_value sema (uint32 (value + 1)));;
  act (k_intr_set_level old_level);;
  preempt.

(** * Locks *)

Definition lock_init (lock : lock_ptr) : K unit :=
  set_lock_holder lock None;;
  sema_init (sema_of_lock lock) 1;;
  k_list_init (lock_waiters lock).

Definition lock_held_by_current_thread (lock : lock_ptr) : K bool :=
  holder ← lock_holder lock;
  cur ← thread_current;
  mret (bool_decide (holder = Some cur)).

(** "We need to wait and donate priority": up to the call of [sema_down]. *)
Definition lock_donate (lock : lock_ptr) (cur : tptr) : prog unit :=
  act (store cur (with_waiting_lock (Some lock)));;
  act (k_list_insert_ordered (lock_waiters lock) (thread_elem cur) less_priority);;
  act (holder ← lock_holder lock; donate_priority (Some cur) holder).

Definition lock_acquire (lock : lock_ptr) : prog unit :=
  act (assert_not_intr_context "lock_acquire: !intr_context ()");;
  held ← act (lock_held_by_current_thread lock);
  act (ASSERT (negb held) "lock_acquire: !lock_held_by_current_thread (lock)");;
  old_level ← act k_intr_disable;
  cur ← act thread_current;
  holder ← act (lock_holder lock);
  old_level ←
    match holder with
    | None =>
        sema_down (sema_of_lock lock);;
        act (set_lock_holder lock (Some cur));;
        act (k_list_push_back (locks_held cur) (lock_elem lock));;
        mret old_level
    | Some _ =>
        lock_donate lock cur;;
        act (k_intr_set_level old_level);;
        sema_down (sema_of_lock lock);;
        old_level ← act k_intr_disable;
        act (set_lock_holder lock (Some cur));;
        act (k_list_push_back (locks_held cur) (lock_elem lock));;
        act (store cur (with_waiting_lock None));;
        mret old_level
    end;
  act (k_intr_set_level old_level).

Definition lock_try_acquire (lock : lock_ptr) : prog bool :=
  held ← act (lock_held_by_current_thread lock);
  act (ASSERT (negb held) "lock_try_acquire: !lock_held_by_current_thread (lock)");;
  success ← act (sema_try_down (sema_of_lock lock));
  (if (success : bool) then
     cur ← act thread_current; act (set_lock_holder lock (Some cur))
   else mret ());;
  mret success.

(** The loop that takes the current thread off [lock->waiters]. *)
Definition forget_waiter (cur : tptr) (e : elem_ptr) : K unit :=
  t ← lift_opt EBadPtr (entry_elem e);
  if bool_decide (t = cur) then k_list_remove (thread_elem t) else mret ().

Definition lock_release (lock : lock_ptr) : prog unit :=
  held ← act (lock_held_by_current_thread lock);
  act (ASSERT held "lock_release: lock_held_by_current_thread (lock)");;
  old_level ← act k_intr_disable;
  cur ← act thread_current;
  act (k_list_remove (lock_elem lock));;
  act (list_for_safe (lock_waiters lock) (forget_waiter cur));;
  act (set_lock_holder lock None);;
  sema_up (sema_of_lock lock);;
  act (refresh_priority (Some cur));;
  thread_yield_if_necessary;;
  act (k_intr_set_level old_level).

(** * Condition variables *)

Definition cond_init (cond : cond_ptr) : K unit := k_list_init (cond_waiters cond).

Definition cond_sema_priority_cmp (s : kstate) (a b : elem_ptr) : bool :=
  match entry_waiter a, entry_waiter b with
  | Some sa, Some sb =>
      match entry_elem (list_front (sema_waiters (sema_of_waiter sa)) (lists s)),
            entry_elem (list_front (sema_waiters (sema_of_waiter sb)) (lists s)) with
      | Some ta, Some tb => thread_priority (threads s) ta <? thread_priority (threads s) tb
      | _, _ => false
      end
  | _, _ => false
  end.

Definition cond_wait (cond : cond_ptr) (lock : lock_ptr) : prog unit :=
  self ← act running_thread;
  act (assert_not_intr_context "cond_wait: !intr_context ()");;
  held ← act (lock_held_by_current_thread lock);
  act (ASSERT held "cond_wait: lock_held_by_current_thread (lock)");;
  act (sema_init (sema_of_waiter self) 0);;
  act (k_list_push_back (cond_waiters cond) (waiter_elem self));;
  lock_release lock;;
  sema_down (sema_of_waiter self);;
  lock_acquire lock;;
  check_preemption.

Definition cond_signal (cond : cond_ptr) (lock : lock_ptr) : prog unit :=
  act (assert_not_intr_context "cond_signal: !intr_context ()");;
  held ← act (lock_held_by_current_thread lock);
  act (ASSERT held "cond_signal: lock_held_by_current_thread (lock)");;
  b ← act (k_list_empty (cond_waiters cond));
  if negb b then
    max_e ← act (k_list_max (cond_waiters cond) cond_sema_priority_cmp);
    act (k_list_remove max_e);;
    w ← act (lift_opt EBadPtr (entry_waiter max_e));
    sema_up (sema_of_waiter w)
  else mret ().

Definition cond_broadcast (cond : cond_ptr) (lock : lock_ptr) : prog unit :=
  loop (λ _ : unit,
    b ← act (k_list_empty (cond_waiters cond));
    if (b : bool) then mret (inr ()) else cond_signal cond lock;; mret (inl ())) ().
End code.
