(* ===== verification/SemaSpec.v ===== *)
(** threads/synch.c: the properties of semaphores. *)
From S2P Require Import Prelude Env Kernel Thread Mlfqs Ready Sched Wait Synch SampleSched.

(** What the running thread needs to wait on [sm]. *)
Definition can_wait (sm : sema_ptr) (q ws : list tptr) (v : Z) (cur : thread) (a : aview) : Prop :=
  sched_ok a q cur ∧ iv_context (intr a) = false ∧ Some (running a) ≠ idle_thread a ∧
  (q = [] → ∃ i, idle_thread a = Some i ∧ valid a i) ∧
  semas a !! sm = Some v ∧ 0 ≤ v ≤ UINT_MAX ∧ lists a !! sema_waiters sm = Some (elems ws).

Definition waitable (sm : sema_ptr) (a : aview) : Prop :=
  iv_level (intr a) = INTR_OFF ∧ ∃ q ws v cur, can_wait sm q ws v cur a.

(** The running thread has just been added to the waiters. *)
Definition queued_on (sm : sema_ptr) (ws : list tptr) (a : aview) : aview :=
  set_lists (<[sema_waiters sm := elems (enqueue (threads a) (running a) ws)]> (lists a)) a.

(** A thread that sleeps on [sm] and has handed the processor to [n]. *)
Definition asleep (sm : sema_ptr) (n : tptr) (a : aview) : Prop :=
  n ≠ running a ∧ status <$> threads a !! running a = Some THREAD_BLOCKED ∧
  semas a !! sm = Some 0 ∧ iv_level (intr a) = INTR_OFF ∧
  ∃ ws, lists a !! sema_waiters sm = Some (elems ws) ∧ running a ∈ ws.

(** What [sema_up] needs: the first waiter, if any, is a blocked thread. *)
Definition can_up (sm : sema_ptr) (q ws : list tptr) (v : Z) (cur : thread) (a : aview) : Prop :=
  sched_ok a q cur ∧ semas a !! sm = Some v ∧ 0 ≤ v < UINT_MAX - 1 ∧
  lists a !! sema_waiters sm = Some (elems ws) ∧
  match ws with
  | [] => True
  | t :: _ => ∃ th, threads a !! t = Some th ∧ thread_ok th ∧ status th = THREAD_BLOCKED ∧
                    priority_ok th
  end.

(** The state and the ready threads when [sema_up] makes its preemption check:
    the value is incremented and the first waiter is ready. *)
Definition upped (a : aview) (sm : sema_ptr) (v : Z) (ws q : list tptr)
    (a1 : aview) (q1 : list tptr) : Prop :=
  let a0 := set_semas (<[sm := v + 1]> (semas a)) a in
  match ws with
  | [] => a1 = a0 ∧ q1 = q
  | t :: ws' => ∃ th, threads a !! t = Some th ∧
      a1 = set_lists (lists a1) (set_threads (<[t := unblocked a t th]> (threads a)) a0) ∧
      q1 = enqueue (threads a1) t q ∧ ready a1 q1 ∧
      lists a1 !! sema_waiters sm = Some (elems ws') ∧
      (∀ l, sched_list l = false → l ≠ sema_waiters sm → lists a1 !! l = lists a !! l) ∧
      (∀ e, unlinked (lists a) e → unlinked (lists a1) e)
  end.

Section awp_sema.
Context {E : Env} {EL : EnvLaws E}.

Lemma awp_sema_init sm v Q a :
  Q () (set_lists (<[sema_waiters sm := []]> (lists a)) (set_semas (<[sm := v]> (semas a)) a)) →
  awp (sema_init sm v) Q a.
Proof. intros HQ. unfold sema_init. by ksteps. Qed.

Lemma awp_sema_try_down sm v Q a :
  semas a !! sm = Some v → 0 ≤ v ≤ UINT_MAX →
  Q (0 <? v) (if 0 <? v then set_semas (<[sm := v - 1]> (semas a)) a else a) →
  awp (sema_try_down sm) Q a.
Proof.
  intros Hv Hr HQ. unfold sema_try_down. do 4 kstep. kstep.
  assert (Hid : ∀ b : aview, intr b = iv_set_level INTR_OFF (intr a) →
    set_intr (iv_set_level (iv_level (intr a)) (intr b)) b = set_intr (intr a) b).
  { intros b ->. by destruct (intr a). }
  destruct (Z.gtb_spec v 0), (Z.ltb_spec 0 v); try lia; ksteps.
  - rewrite uint32_id by (unfold UINT_MAX in *; lia). by destruct a as [? []].
  - by destruct a as [? []].
Qed.

(** The waiting list's states before and after adding the running thread look
    the same to the scheduler. *)
Lemma can_wait_next sm q ws v cur a :
  can_wait sm q ws v cur a → ∃ n, next_of a q = Some n ∧ valid a n ∧ n ≠ running a.
Proof.
  intros ((Hc & _ & Hr & Hu & Hv) & _ & Hi & Hq & _). destruct q as [|t q].
  - destruct (Hq eq_refl) as (i & Hii & Hvi). exists i. split_and!; [done..|]. intros ->. congruence.
  - exists t. split_and!; [done|apply Hv; by left|]. intros ->.
    by eapply (rq_linked (rq := ready)) in Hu; [|done|left].
Qed.

(** One round: the thread queues up and sleeps. *)
Lemma awp_sema_enqueue sm ws Q a :
  lists a !! sema_waiters sm = Some (elems ws) → unlinked (lists a) (thread_elem (running a)) →
  Q () (queued_on sm ws a) →
  awp (k_list_insert_ordered (sema_waiters sm) (thread_elem (running a)) less_priority) Q a.
Proof.
  intros Hws Hu HQ. eapply awp_list_insert_ordered; [done|done|]. by rewrite insert_before_elems.
Qed.

Lemma apwp_sema_block {A} (k : unit → prog A) C R sm q ws v cur a :
  can_wait sm q ws v cur a → iv_level (intr a) = INTR_OFF → goes_on INTR_OFF C k R →
  apwp (thread_block ≫= k)
    (scheduled C (marked THREAD_BLOCKED (queued_on sm ws a)) q R) (queued_on sm ws a).
Proof.
  intros Hw Hl Hk. destruct (can_wait_next _ _ _ _ _ _ Hw) as (n & Hn & Hvn & Hne).
  destruct Hw as ((Hc & Hp & Hr & Hu & Hv) & Hctx & Hi & Hq & Hval & Hrange & Hws).
  eapply (apwp_thread_block_bind k C R (queued_on sm ws a) q cur n); try done.
  by apply ready_insert_other.
Qed.

Lemma asleep_scheduled sm q ws v cur a n a1 :
  can_wait sm q ws v cur a → v = 0 → iv_level (intr a) = INTR_OFF → n ≠ running a →
  sched_frame (marked THREAD_BLOCKED (queued_on sm ws a)) a1 → asleep sm n a1.
Proof.
  intros ((Hc & _) & _ & _ & _ & Hval & _) -> Hl Hne [Ha Hls]. rewrite Ha. split_and!; cbn.
  - done.
  - destruct Hc as (Ht & _). by rewrite lookup_alter_eq, Ht.
  - done.
  - done.
  - exists (enqueue (threads a) (running a) ws). split; [|apply elem_of_enqueue; by left].
    rewrite Hls by done. cbn. apply lookup_insert_eq.
Qed.

(** [while (sema->value == 0)] ends with a positive value.  The rounds begin in
    the state [intr_off s] of a stretch that began in [s]. *)
Lemma swp_sema_wait G (C : aview → Prop) sm Q s0 :
  (∀ s q ws cur n b, s = s0 ∨ C s → can_wait sm q ws 0 cur (intr_off s) →
     handed (marked THREAD_BLOCKED (queued_on sm ws (intr_off s))) q n b → G s n b) →
  (∀ c, C c → waitable sm c) → waitable sm (intr_off s0) →
  (∀ s v, s = s0 ∨ C s → waitable sm (intr_off s) → semas s !! sm = Some v → 0 < v ≤ UINT_MAX →
     Q s () (intr_off s)) →
  swp G C s0 (loop (sema_wait sm) ()) Q (intr_off s0).
Proof.
  intros HG HC Ha HQ.
  apply (swp_loop _ _ _ (λ s _ b, (s = s0 ∨ C s) ∧ b = intr_off s ∧ waitable sm b)); [|by auto].
  intros s [] b (Hb & -> & Hw). pose proof Hw as (Hl & q & ws & v & cur & Hcw).
  pose proof Hcw as ((Hc & _ & _ & Hu & _) & _ & _ & _ & Hval & Hrange & Hws).
  apply apwp_Act. eapply awp_sema_value; [done|]. destruct (Z.eqb_spec v 0) as [Hv|Hv].
  - subst v. apply apwp_Act. eapply awp_thread_current; [done|].
    apply apwp_Act, (awp_sema_enqueue sm ws); [done..|].
    eapply apwp_mono; [eapply (apwp_sema_block (λ _, Ret (inl ()))
      C (λ b o b', o = ODone (inl ()) ∧ b' = b ∧ iv_level (intr b) = INTR_OFF));
      [exact Hcw|exact Hl|]|].
    + intros c ccur _ Hlc HCc. by apply apwp_ret.
    + destruct (can_wait_next _ _ _ _ _ _ Hcw) as (n & Hn & _ & Hne).
      intros o c. apply stretch_scheduled.
      * intros a1 Hn'. change (next_of (intr_off s) q = Some (running s)) in Hn'.
        rewrite Hn in Hn'. injection Hn' as ->. by destruct Hne.
      * intros d o' d' (-> & -> & Hld). exists (inl ()). split; [done|]. intros HCd.
        refine (conj (or_intror HCd) (conj _ (HC d HCd))). unfold intr_off.
        destruct d as [? [lv ? ?]]. cbn in Hld. by subst lv.
      * intros n' b. by eapply HG.
      * done.
  - apply apwp_ret. simpl. eapply HQ; [done..|lia].
Qed.

Lemma swp_sema_down G (C : aview → Prop) sm Q s0 :
  (∀ s q ws cur n b, s = s0 ∨ C s → can_wait sm q ws 0 cur (intr_off s) →
     handed (marked THREAD_BLOCKED (queued_on sm ws (intr_off s))) q n b → G s n b) →
  (∀ c, C c → waitable sm c) → waitable sm (intr_off s0) →
  (∀ s v, s = s0 ∨ C s → waitable sm (intr_off s) → semas s !! sm = Some v → 0 < v →
     Q s () (restored (iv_level (intr s0)) (set_semas (<[sm := v - 1]> (semas s)) s))) →
  swp G C s0 (sema_down sm) Q s0.
Proof.
  intros HG HC Ha HQ. pose proof Ha as (_ & q & ws & v0 & cur & _ & Hctx & _).
  apply swp_act_bind. apply awp_assert_not_intr_context; [done|].
  apply swp_act_bind. apply awp_intr_disable. apply swp_bind.
  eapply swp_sema_wait; [done..|]. intros s v Hs Hw Hv Hr.
  apply swp_act_bind. eapply awp_sema_value; [done|].
  apply swp_act_bind, awp_set_sema_value. apply swp_act, awp_intr_set_level.
  rewrite uint32_id by (unfold UINT_MAX in *; lia).
  exact (HQ s v Hs Hw Hv ltac:(lia)).
Qed.

Lemma unblocked_fields a t th :
  magic (unblocked a t th) = magic th ∧ status (unblocked a t th) = THREAD_READY ∧
  base_priority (unblocked a t th) = base_priority th ∧
  waiting_lock (unblocked a t th) = waiting_lock th.
Proof. unfold unblocked, reprioritised. by case_match. Qed.

Lemma upped_running a sm v ws q a1 q1 : upped a sm v ws q a1 q1 → running a1 = running a.
Proof. destruct ws; [by intros [-> _]|]. by intros (? & _ & -> & _). Qed.

Lemma upped_intr a sm v ws q a1 q1 : upped a sm v ws q a1 q1 → intr a1 = intr a.
Proof. destruct ws; [by intros [-> _]|]. by intros (? & _ & -> & _). Qed.

Lemma upped_sched_ok sm q ws v cur a a1 q1 :
  can_up sm q ws v cur a → upped a sm v ws q a1 q1 → sched_ok a1 q1 cur.
Proof.
  intros (Hs & Hv & Hr & Hws & Hw) Hup. destruct ws as [|t ws]; [destruct Hup as [-> ->]|].
  - destruct Hs as (Hc & Hp & Hrd & Hu & Hval). split_and!; done.
  - destruct Hup as (th & Ht & Ha1 & -> & Hrd & Hws' & Hls & Hu).
    destruct Hw as (th' & Ht' & Hok & Hst & _). rewrite Ht in Ht'. injection Ht' as <-.
    destruct Hs as (Hc & Hp & _ & Hself & Hval). pose proof Hc as (Hcur & Hcok & Hcst).
    assert (Hne : t ≠ running a) by (intros ->; congruence).
    split_and!; [|done|done|..].
    + rewrite Ha1. split_and!; cbn; [by rewrite lookup_insert_ne|done..].
    + replace (running a1) with (running a) by (by rewrite Ha1). auto.
    + intros u [->|Hu']%elem_of_enqueue; rewrite Ha1; unfold valid; cbn.
      * rewrite lookup_insert_eq. eexists. split; [done|]. unfold thread_ok.
        by destruct (unblocked_fields a t th) as [-> _].
      * destruct (decide (u = t)) as [->|]; [|rewrite lookup_insert_ne by done; by apply Hval].
        rewrite lookup_insert_eq. eexists. split; [done|]. unfold thread_ok.
        by destruct (unblocked_fields a t th) as [-> _].
Qed.

(** The critical section of [sema_up]. *)
Lemma apwp_sema_wake {A} (k : unit → prog A) Q sm q ws v cur a :
  can_up sm q ws v cur a → iv_level (intr a) = INTR_OFF →
  (∀ a1 q1, upped a sm v ws q (set_semas (<[sm := v + 1]> (semas a1)) a1) q1 →
     semas a1 !! sm = Some v → intr a1 = intr a → apwp (k ()) Q a1) →
  apwp ((if negb (bool_decide (elems ws = [])) then
           e ← act (k_list_pop_front (sema_waiters sm));
           to_unblock ← act (lift_opt EBadPtr (entry_elem e));
           act (thread_unblock to_unblock)
         else mret ()) ≫= k) Q a.
Proof.
  intros (Hs & Hv & Hr & Hws & Hw) Hl HQ.
  destruct ws as [|t ws]; [by eapply (HQ a q)|]. apply apwp_Act.
  apply awp_wf. intros Hwf. eapply awp_list_pop_front; [done|]. apply apwp_Act. kstep.
  destruct Hw as (th & Ht & Hok & Hst & Hp). destruct Hs as (Hc & Hpc & Hrd & Hself & Hval).
  apply apwp_Act. set (a0 := set_lists _ a).
  assert (Hrd0 : ready a0 q) by by apply ready_insert_other.
  eapply (awp_thread_unblock a0 t th q); [done..|by apply unlinked_pop|].
  intros b a1 -> Hrd1 [[Ha1 Hls1] Hu1]. eapply HQ; [|by rewrite Ha1|by rewrite Ha1].
  exists th. split_and!; [done| | |..].
  - cbn. rewrite Ha1. done.
  - done.
  - eapply (rq_ext (rq := ready)); [|done..]. by rewrite Ha1 in Hrd1 |- *.
  - cbn. rewrite Hls1 by done. cbn. apply lookup_insert_eq.
  - intros l Hl1 Hl2. cbn. rewrite Hls1 by done. cbn. by rewrite lookup_insert_ne.
  - intros e He. cbn. apply Hu1; [|intros ->; eapply He; [exact Hws|by left]].
    cbn. apply unlinked_insert; [done|]. intros Hin. eapply He; [exact Hws|by right].
Qed.

Lemma upped_restored a sm v ws q b q1 :
  upped (intr_off a) sm v ws q b q1 → intr b = intr (intr_off a) →
  upped a sm v ws q (restored (iv_level (intr a)) b) q1.
Proof.
  intros Hup Hin.
  assert (Hid : iv_set_level (iv_level (intr a)) (intr b) = intr a)
    by (rewrite Hin; by destruct a as [? []]).
  unfold restored. rewrite Hid. destruct ws as [|t ws].
  - destruct Hup as [-> ->]. split; [|done]. by destruct a.
  - destruct Hup as (th & Ht & Hb & Hq & Hr & Hl). exists th. split_and!; try done.
    + rewrite Hb. by destruct a.
    + apply Hl.
    + apply Hl.
    + apply Hl.
Qed.

(** [sema_up] up to its check for preemption. *)
Lemma apwp_sema_up_start {A} (k : unit → prog A) Q sm q ws v cur a :
  can_up sm q ws v cur a →
  (∀ a1 q1, upped a sm v ws q a1 q1 → sched_ok a1 q1 cur → apwp (preempt ≫= k) Q a1) →
  apwp (sema_up sm ≫= k) Q a.
Proof.
  intros Hcu HQ. apply apwp_Act, awp_intr_disable. fold (intr_off a).
  apply apwp_Act. eapply awp_list_empty; [apply Hcu|]. apply apwp_assoc.
  eapply (apwp_sema_wake _ _ sm q ws v cur (intr_off a)); [exact Hcu|done|].
  intros b q1 Hup Hv Hin. pose proof Hcu as (_ & _ & Hr & _).
  apply apwp_Act. eapply awp_sema_value; [done|]. apply apwp_Act, awp_set_sema_value.
  apply apwp_Act, awp_intr_set_level.
  rewrite uint32_id by (unfold UINT_MAX in *; lia).
  set (a1 := set_intr _ _).
  assert (Hup1 : upped a sm v ws q a1 q1) by exact (upped_restored _ _ _ _ _ _ _ Hup Hin).
  exact (HQ a1 q1 Hup1 (upped_sched_ok _ _ _ _ _ _ _ _ Hcu Hup1)).
Qed.

Lemma apwp_sema_up_bind {A} (k : unit → prog A) C R sm q ws v cur a :
  can_up sm q ws v cur a →
  (∀ a1 q1, upped a sm v ws q a1 q1 →
     C (intr_off a1) ∧ (iv_context (intr a1) = true → C (intr_off (yield_requested a1)))) →
  (∀ b bcur, current_ok b bcur → iv_level (intr b) = iv_level (intr a) →
     C (intr_off b) → apwp (k ()) (R b) b) →
  apwp (sema_up sm ≫= k)
    (λ o a', ∃ a1 q1, upped a sm v ws q a1 q1 ∧ checked C a1 q1 R o a') a.
Proof.
  intros Hcu HC Hk. eapply apwp_sema_up_start; [exact Hcu|].
  intros a1 q1 Hup1 Hs1. pose proof Hs1 as (Hc1 & Hp1 & Hr1 & Hu1 & Hv1).
  destruct (HC a1 q1 Hup1) as (HC1 & HC2).
  eapply apwp_mono with (Q := checked C a1 q1 R); [|by eauto].
  eapply apwp_preempt_bind; [done..|]. eapply apwp_checked_bind; [exact Hs1|done..|].
  intros c ccur Hc Hl. apply (Hk c ccur); [done|]. by rewrite Hl, (upped_intr _ _ _ _ _ _ _ Hup1).
Qed.
End awp_sema.

(** * Properties *)
Section properties.
Context {E : Env} {EL : EnvLaws E}.

(** A down on a positive semaphore decrements it and returns, with the
    interrupt level it was called with and nothing else changed.  On a zero
    semaphore the thread joins the waiters, behind those of at least its
    priority, is blocked, and hands the processor to the next ready thread with
    interrupts off. *)
Lemma sema_down_spec sm q ws v cur (a : aview) :
  can_wait sm q ws v cur a →
  apwp (sema_down sm) (λ o a',
    if decide (v = 0)
    then scheduled (λ _, False) (marked THREAD_BLOCKED (queued_on sm ws (intr_off a))) q
           (λ _ _ _, False) o a'
    else o = ODone () ∧ a' = set_semas (<[sm := v - 1]> (semas a)) a) a.
Proof.
  intros Hw. pose proof Hw as ((Hc & _ & _ & Hu & _) & Hctx & _ & _ & Hv & Hr & Hws).
  apply apwp_Act, awp_assert_not_intr_context; [done|]. apply apwp_Act, awp_intr_disable.
  fold (intr_off a). apply apwp_Loop. apply apwp_assoc, apwp_Act.
  eapply awp_sema_value; [done|]. case_decide as Hd.
  - subst v. apply apwp_assoc, apwp_Act. eapply awp_thread_current; [exact Hc|].
    apply apwp_assoc, apwp_Act, (awp_sema_enqueue sm ws); [exact Hws|exact Hu|]. apply apwp_assoc.
    eapply (apwp_sema_block _ (λ _, False) _ sm q ws 0 cur (intr_off a)); [exact Hw|done|].
    by intros ? ? ? ? ?.
  - destruct (Z.eqb_spec v 0); [done|].
    apply apwp_Act. eapply awp_sema_value; [done|]. apply apwp_Act, awp_set_sema_value.
    apply apwp_act, awp_intr_set_level. split; [done|].
    rewrite uint32_id by (unfold UINT_MAX in *; lia). by destruct a as [? []].
Qed.

(** C12: However often a thread in [sema_down] has to sleep (another thread may
    take the semaphore between its being woken and its running), it never
    faults, it gives up the processor only as a blocked thread among the
    waiters of a zero semaphore, having changed no semaphore, and if it returns
    it has decremented a positive value and changed nothing else, with the
    interrupt level it was called with.  What the other threads owe it each time
    it is resumed is a state in which it could wait again. *)
Theorem sema_down_waits sm (a : aview) :
  waitable sm (intr_off a) →
  swp (λ s n b, asleep sm n b ∧ semas b = semas s) (waitable sm) a (sema_down sm)
    (λ s _ b, (s = a ∨ waitable sm s) ∧ ∃ v, semas s !! sm = Some v ∧ 0 < v ∧
       b = restored (iv_level (intr a)) (set_semas (<[sm := v - 1]> (semas s)) s)) a.
Proof.
  intros Hw. apply swp_sema_down; [|done..|].
  - intros s q ws cur n b _ Hcw (_ & Hne & _ & Hf & _).
    split; [by eapply asleep_scheduled|]. by destruct Hf as [-> _].
  - intros s v Hs _ Hv Hp. eauto.
Qed.

(** [sema_try_down] never sleeps: it decrements a positive semaphore and
    reports success, or reports failure and changes nothing; the interrupt
    level is restored, also in an interrupt handler. *)
Lemma sema_try_down_spec sm v (a : aview) :
  semas a !! sm = Some v → 0 ≤ v ≤ UINT_MAX →
  awp (sema_try_down sm)
    (λ r a', (r = true ↔ 0 < v) ∧
       a' = if r then set_semas (<[sm := v - 1]> (semas a)) a else a) a.
Proof.
  intros Hv Hr. eapply awp_sema_try_down; [done..|].
  destruct (Z.ltb_spec 0 v); split; [split; lia|done|split; [done|lia]|done].
Qed.

(** C16: An up increments the semaphore; if threads wait on it, exactly the first
    of them leaves the waiters and becomes ready, behind the ready threads of
    at least its priority; with the interrupt level restored, the processor is
    then handed over if a ready thread has a higher priority than the caller
    (in an interrupt handler, a yield is requested). *)
Theorem sema_up_spec sm q ws v cur (a : aview) :
  can_up sm q ws v cur a →
  apwp (sema_up sm)
    (λ o a', ∃ a1 q1, upped a sm v ws q a1 q1 ∧ sched_ok a1 q1 cur ∧
       checked anything a1 q1 returns o a') a.
Proof.
  intros Hcu. rewrite <- (prog_bind_ret_r (sema_up sm)).
  eapply apwp_mono; [eapply (apwp_sema_up_bind Ret anything returns); [exact Hcu|done|]|].
  { intros b bcur _ _ _. by apply apwp_ret. }
  intros o a' (a1 & q1 & Hup & Hch). exists a1, q1. split_and!; [done| |done].
  by eapply upped_sched_ok.
Qed.
End properties.

(** * Witnesses *)
Section witnesses.
#[local] Existing Instances concrete_env concrete_env_laws.

(** Thread 1 (priority [p]) runs, thread 4 (priority 31) waits on semaphore 1,
    thread 3 is ready. *)
Definition wit_sema (p v : Z) (ws : list tptr) : kstate :=
  set_semas {[sema_at 1 := v]}
    (sample_state false (sched_threads p)
      [(ready_list, elems [3]%positive); (sema_waiters (sema_at 1), elems ws)]).

Lemma wit_can_wait v : 0 ≤ v ≤ UINT_MAX →
  can_wait (sema_at 1) [3]%positive [4]%positive v (sample_thread 1 THREAD_RUNNING 31)
    (obs (wit_sema 31 v [4]%positive)).
Proof. intros Hv. split; [sched_by_test|]. split_and!; [by_test..|apply Hv|apply Hv|by_test]. Defined.

Lemma sema_down_spec_witness :
  ends_at (sema_down (sema_at 1)) (λ o a', ∃ k, o = OSwitch 3 k) (wit_sema 31 0 [4]%positive).
Proof.
  eapply ends_mono.
  - apply apwp_ends, (sema_down_spec (sema_at 1) [3]%positive [4]%positive 0
      (sample_thread 1 THREAD_RUNNING 31)), wit_can_wait. split; discriminate.
  - intros o a'. cbv beta. rewrite decide_True by done. apply scheduled_switches; by vm_compute.
Defined.

Lemma sema_down_waits_witness :
  ends_at (sema_down (sema_at 1)) (λ o a', (∃ n k, o = OSwitch n k ∧ asleep (sema_at 1) n a') ∨
     o = ODone ()) (wit_sema 31 0 [4]%positive).
Proof.
  eapply ends_mono.
  - apply apwp_ends, swp_unfold, (sema_down_waits (sema_at 1)). split; [reflexivity|].
    exists [3]%positive, [4]%positive, 0, (sample_thread 1 THREAD_RUNNING 31).
    apply wit_can_wait. split; discriminate.
  - intros [[]|n k|e] a' Ho; simpl in Ho; [by right| |done]. left. exists n, k.
    split; [done|]. apply Ho.
Defined.

Lemma sema_try_down_spec_witness :
  holds_at (sema_try_down (sema_at 1)) (λ r _, r = true) (wit_sema 31 2 []).
Proof.
  eapply holds_mono.
  - apply awp_holds, (sema_try_down_spec (sema_at 1) 2); by_test.
  - intros r a' [Hr _]. by apply Hr.
Defined.

(** Thread 4, once ready, has a higher priority than thread 1. *)
Lemma sema_up_spec_witness :
  ends_at (sema_up (sema_at 1)) (λ o a', ∃ a1 q1, q1 = [4; 3]%positive ∧
     checked anything a1 q1 returns o a') (wit_sema 25 0 [4]%positive).
Proof.
  eapply ends_mono.
  - apply apwp_ends, (sema_up_spec (sema_at 1) [3]%positive [4]%positive 0
      (sample_thread 1 THREAD_RUNNING 25)).
    split; [sched_by_test|]. split_and!; try by_test. eexists. split_and!; by_test.
  - intros o a' (a1 & q1 & (th & Ht & Ha1 & -> & _) & _ & Hch). exists a1.
    eexists. split; [|exact Hch]. rewrite Ha1. vm_compute in Ht. injection Ht as <-.
    reflexivity.
Defined.
End witnesses.
