(* ===== verification/LockSpec.v ===== *)
(** threads/synch.c: the properties of locks. *)
From S2P Require Import Prelude Env Kernel Thread Mlfqs Ready.
From S2P Require Import Sched Donation Wait Synch SemaSpec SampleSched.

Section awp_lock.
Context {E : Env} {EL : EnvLaws E}.

Lemma awp_lock_held l h cur Q a :
  current_ok a cur → holders a !! l = Some h →
  Q (bool_decide (h = Some (running a))) a → awp (lock_held_by_current_thread l) Q a.
Proof.
  intros Hc Hh HQ. unfold lock_held_by_current_thread. kstep. kstep. kstep.
  eapply awp_thread_current; [done|]. by kstep.
Qed.

(** The state in which a free lock has been taken. *)
Definition locked (l : lock_ptr) (v : Z) (ls : list lock_ptr) (a : aview) : aview :=
  set_lists (<[locks_held (running a) := (lock_elem <$> ls) ++ [lock_elem l]]> (lists a))
    (set_holders (<[l := Some (running a)]> (holders a))
      (set_semas (<[sema_of_lock l := v - 1]> (semas a)) a)).

Definition lock_free (l : lock_ptr) (v : Z) (ls : list lock_ptr) (cur : thread) (a : aview) : Prop :=
  current_ok a cur ∧ iv_context (intr a) = false ∧ holders a !! l = Some None ∧
  semas a !! sema_of_lock l = Some v ∧ 0 < v ≤ UINT_MAX ∧
  lists a !! locks_held (running a) = Some (lock_elem <$> ls) ∧
  unlinked (lists a) (lock_elem l).

Lemma apwp_sema_down_pos {A} (k : unit → prog A) Q sm v a :
  iv_context (intr a) = false → semas a !! sm = Some v → 0 < v ≤ UINT_MAX →
  apwp (k ()) Q (set_semas (<[sm := v - 1]> (semas a)) a) →
  apwp (sema_down sm ≫= k) Q a.
Proof.
  intros Hctx Hv Hr HQ.
  apply apwp_Act, awp_assert_not_intr_context; [done|]. apply apwp_Act, awp_intr_disable.
  apply apwp_Loop. apply apwp_assoc, apwp_Act.
  eapply awp_sema_value; [done|]. destruct (Z.eqb_spec v 0); [lia|].
  apply apwp_Act. eapply awp_sema_value; [done|]. apply apwp_Act, awp_set_sema_value.
  apply apwp_Act, awp_intr_set_level.
  rewrite uint32_id by (unfold UINT_MAX in *; lia). destruct a as [? []]. exact HQ.
Qed.

Lemma apwp_lock_acquire_free l v ls cur (a : aview) Q :
  lock_free l v ls cur a → Q (ODone ()) (locked l v ls a) → apwp (lock_acquire l) Q a.
Proof.
  intros (Hc & Hctx & Hh & Hv & Hr & Hls & Hu) HQ.
  apply apwp_Act, awp_assert_not_intr_context; [done|].
  apply apwp_Act. eapply awp_lock_held; [done..|]. rewrite bool_decide_false by done.
  apply apwp_Act, awp_ASSERT; [done|]. apply apwp_Act, awp_intr_disable. fold (intr_off a).
  apply apwp_Act. eapply awp_thread_current; [exact Hc|].
  apply apwp_Act. eapply awp_lock_holder; [exact Hh|]. apply apwp_assoc.
  eapply apwp_sema_down_pos; [exact Hctx|exact Hv|done|].
  apply apwp_Act, awp_set_lock_holder. apply apwp_Act.
  eapply awp_list_push_back; [exact Hls|exact Hu|].
  apply apwp_act, awp_intr_set_level. unfold locked in HQ. by destruct a as [? []].
Qed.

(** ** Waiting for a held lock *)

(** The state in which the donation starts. *)
Definition waiting (l : lock_ptr) (W : list tptr) (cur : thread) (a : aview) : aview :=
  set_lists (<[lock_waiters l := elems (enqueue (threads a) (running a) W)]> (lists a))
    (set_threads (<[running a := with_waiting_lock (Some l) cur]> (threads a)) a).

(** It waits for the holder; the others, and all priorities, are as before. *)
Lemma waiting_for l W cur holder (a : aview) :
  threads a !! running a = Some cur → holders a !! l = Some (Some holder) →
  let a1 := waiting l W cur a in
  waits_for a1 (running a) = Some holder ∧
  (∀ u, thread_priority (threads a1) u = thread_priority (threads a) u) ∧
  ∀ u, u ≠ running a → waits_for a1 u = waits_for a u ∧ threads a1 !! u = threads a !! u.
Proof.
  intros Ht Hh a1. split_and!.
  - unfold waits_for. cbn. rewrite lookup_insert_eq. cbn. by rewrite Hh.
  - intros u. by apply (thread_priority_insert _ _ cur).
  - intros u Hne. unfold waits_for. cbn. by rewrite lookup_insert_ne.
Qed.

Lemma apwp_lock_donate l W cur holder (a : aview) Q :
  threads a !! running a = Some cur → holders a !! l = Some (Some holder) →
  is_Some (threads a !! holder) → waits_ok a →
  lists a !! lock_waiters l = Some (elems W) → unlinked (lists a) (thread_elem (running a)) →
  (∀ c, let a1 := waiting l W cur a in donated (priority cur) a1 holder c →
     Q (ODone ()) (set_threads (raise (priority cur) c (threads a1)) a1)) →
  apwp (lock_donate l (running a)) Q a.
Proof.
  intros Ht Hh Hd Hok HW Hu HQ. apply apwp_Act. kstep. apply apwp_Act.
  eapply awp_list_insert_ordered; [exact HW|exact Hu|]. rewrite insert_before_elems. ksimpl.
  rewrite (enqueue_ext _ (threads a)) by (intros u; by apply (thread_priority_insert _ _ cur)).
  apply apwp_act. kstep. kstep. unfold donate_priority. kstep.
  eapply (awp_gets _ (size (threads (waiting l W cur a)))); [intros s Hs; change (threads s) with (threads (obs s)); by rewrite Hs|].
  eapply (awp_donate_priority_from _ _ (with_waiting_lock (Some l) cur) _ (waiting l W cur a));
    [apply lookup_insert_eq| | | |].
  - cbn. apply lookup_insert_is_Some. destruct (decide (running a = holder)); auto.
  - intros u th l' Hu' Hl'. cbn in Hu'. apply lookup_insert_Some in Hu' as [[<- <-]|[Hne Hu']].
    + injection Hl' as <-. exists (Some holder). split; [done|]. cbn.
      apply lookup_insert_is_Some. destruct (decide (running a = holder)); auto.
    + destruct (Hok u th l' Hu' Hl') as (h & Hh' & Hd'). exists h. split; [done|].
      destruct h as [w|]; [|done]. cbn. apply lookup_insert_is_Some.
      destruct (decide (running a = w)); auto.
  - pose proof (below_size (priority (with_waiting_lock (Some l) cur))
      (threads (waiting l W cur a))). lia.
  - intros c Hc. by apply HQ.
Qed.

(** ** Releasing *)

Lemma filter_ne (t : tptr) (W : list tptr) : t ∉ W → filter (.≠ t) W = W.
Proof.
  induction W as [|w W IH]; intros Hn; [done|].
  rewrite filter_cons_True by set_solver. f_equal. apply IH. set_solver.
Qed.

(** The loop over [lock->waiters] takes the current thread off it, if it is
    there. *)
Lemma awp_forget_waiters l W t (a : aview) Q :
  lists a !! lock_waiters l = Some (elems W) →
  Q () (set_lists (<[lock_waiters l := elems (filter (.≠ t) W)]> (lists a)) a) →
  awp (list_for_safe (lock_waiters l) (forget_waiter t)) Q a.
Proof.
  intros HW HQ.
  eapply (awp_list_for_safe _ _ _ (λ kept post b, ∃ U V, post = elems V ∧ W = U ++ V ∧
    kept = elems (filter (.≠ t) U) ∧
    b = set_lists (<[lock_waiters l := kept ++ post]> (lists a)) a)); [done| | |].
  - exists [], W. split_and!; [done..|]. simpl. rewrite insert_id by done. by destruct a.
  - intros kept e post b Hb (U & V & HV & -> & -> & Hbeq). destruct V as [|u V]; [done|].
    injection HV as -> ->. unfold forget_waiter. kstep. kstep. case_bool_decide as Hut.
    + subst u. eapply awp_list_remove; [done|]. eexists. ksimpl. split; [apply lookup_insert_eq|].
      exists (U ++ [t]), V. split_and!; [done|by rewrite <- (assoc_L (++))| |].
      * rewrite filter_app, filter_cons_False by (by intros []). by rewrite app_nil_r.
      * rewrite Hbeq. ksimpl. by rewrite insert_insert_eq.
    + apply awp_ret. exists (elems (filter (.≠ t) (U ++ [u]))).
      assert (Hk : elems (filter (.≠ t) (U ++ [u])) = elems (filter (.≠ t) U) ++ [thread_elem u])
        by (by rewrite filter_app, filter_cons_True, fmap_app by done).
      rewrite Hk, <- (assoc_L (++)). split; [done|]. exists (U ++ [u]), V.
      split_and!; [done|by rewrite <- (assoc_L (++))|done|done].
  - intros kept b Hb (U & V & HV & -> & -> & ->). symmetry in HV. apply fmap_nil_inv in HV as ->.
    by rewrite !app_nil_r in *.
Qed.

(** The waiting threads of the locks [ls] that the running thread holds. *)
Definition held_waiters (ls : list lock_ptr) (W : lock_ptr → list tptr) (a : aview) : Prop :=
  lists a !! locks_held (running a) = Some (lock_elem <$> ls) ∧
  (∀ l, l ∈ ls → lists a !! lock_waiters l = Some (elems (W l))) ∧
  (∀ l w, l ∈ ls → w ∈ W l → ∃ wth, threads a !! w = Some wth ∧ priority_ok wth).

(** What [lock_release] relies on after its call of [sema_up], for a thread [t]:
    it is running, and its locks and their waiters are in order. *)
Definition release_ok (t : tptr) (a : aview) : Prop :=
  running a = t ∧ ∃ q cur ls W, sched_ok a q cur ∧ thread_mlfqs a = false ∧ iv_context (intr a) = false ∧
    PRI_MIN ≤ base_priority cur ≤ PRI_MAX ∧ held_waiters ls W a.

(** The rest of [lock_release], from state [b]: the priority is recomputed, and
    the processor is handed over if a ready thread now has a higher one. *)
Definition refreshes (l : intr_level) (b : aview) (o : out unit) (b' : aview) : Prop :=
  ∃ q cur ls W p, sched_ok b q cur ∧ held_waiters ls W b ∧
    fresh (threads b) (running b) cur ls W p ∧
    checked anything (with_current (with_priority p cur) b) q
      (λ c, returns (restored l c)) o b'.

Lemma fresh_priority_ok ls W p cur a :
  held_waiters ls W a → PRI_MIN ≤ base_priority cur ≤ PRI_MAX →
  fresh (threads a) (running a) cur ls W p → PRI_MIN ≤ p ≤ PRI_MAX.
Proof.
  intros (_ & _ & Hw) Hb (Hle & _ & [->|(l & w & Hl & Hin & _ & ->)]); [done|].
  destruct (Hw l w Hl Hin) as (wth & Hwth & Hok). by rewrite (thread_priority_at _ _ wth).
Qed.

Lemma apwp_refresh_tail t lvl (b : aview) :
  release_ok t b →
  apwp (act (refresh_priority (Some t));; thread_yield_if_necessary;;
        act (k_intr_set_level lvl)) (refreshes lvl b) b.
Proof.
  intros (<- & q & cur & ls & W & Hs & Hm & Hctx & Hb & Hh). pose proof Hh as (Hls & HW & Hw).
  pose proof Hs as ((Ht & _) & _ & Hr & _). apply apwp_Act.
  eapply awp_refresh_fresh; [done..| |].
  { intros l w Hl Hin. destruct (Hw l w Hl Hin) as (? & ? & _). eauto. }
  intros p Hp. fold (with_current (with_priority p cur) b).
  pose proof (fresh_priority_ok _ _ _ _ _ Hh Hb Hp) as Hpr.
  pose proof (sched_ok_with_current b q cur (with_priority p cur) Hs eq_refl eq_refl Hpr) as Hs1.
  destruct Hr as [[_ Hr]|[? _]]; [|congruence].
  eapply apwp_mono; [eapply (apwp_yield_if_necessary_bind (λ _, act (k_intr_set_level lvl)) anything
    (λ c, returns (restored lvl c))); [exact Hs1|exact Hr|done|done|]|].
  - intros c ccur _ _ _. by apply apwp_act, awp_intr_set_level.
  - intros o b' Ho. by exists q, cur, ls, W, p.
Qed.

(** The state in which [lock_release] calls [sema_up]. *)
Definition released (l : lock_ptr) (ls : list lock_ptr) (a : aview) : aview :=
  set_holders (<[l := None]> (holders a))
    (set_lists (<[locks_held (running a) := lock_elem <$> ls]> (lists a)) a).

Lemma released_can_up l ls1 ls2 sm q ws v cur a :
  lists a !! locks_held (running a) = Some (lock_elem <$> (ls1 ++ l :: ls2)) →
  can_up sm q ws v cur a → can_up sm q ws v cur (released l (ls1 ++ ls2) a).
Proof.
  intros Hls ((Hc & Hp & Hr & Hu & Hv) & Hval & Hrange & Hws & Hw).
  split_and!; [split_and!; [done..| | |done]|done|apply Hrange|apply Hrange| |done].
  - by apply ready_insert_other.
  - cbn. apply unlinked_insert; [done|]. by intros (x & [=] & _)%list_elem_of_fmap.
  - cbn. by rewrite lookup_insert_ne.
Qed.

(** A lock that the running thread holds, and what its release needs. *)
Definition release_pre (l : lock_ptr) (ls1 ls2 : list lock_ptr) (W : lock_ptr → list tptr)
    (q ws : list tptr) (v : Z) (cur : thread) (a : aview) : Prop :=
  holders a !! l = Some (Some (running a)) ∧ thread_mlfqs a = false ∧
  iv_context (intr a) = false ∧ can_up (sema_of_lock l) q ws v cur a ∧
  PRI_MIN ≤ base_priority cur ≤ PRI_MAX ∧ held_waiters (ls1 ++ l :: ls2) W a.

Lemma upped_release_ok l ls1 ls2 W q ws v cur a a1 q1 :
  release_pre l ls1 ls2 W q ws v cur a →
  upped (released l (ls1 ++ ls2) a) (sema_of_lock l) v ws q a1 q1 → release_ok (running a) a1.
Proof.
  intros (Hh & Hm & Hctx & Hcu & Hb & (Hls & HW & Hw)) Hup.
  apply (released_can_up l ls1 ls2) in Hcu; [|done].
  assert (Hsub : ∀ l', l' ∈ ls1 ++ ls2 → l' ∈ ls1 ++ l :: ls2) by (intros l'; set_solver).
  split; [exact (upped_running _ _ _ _ _ _ _ Hup)|].
  exists q1, cur, (ls1 ++ ls2), W. split; [by eapply upped_sched_ok|].
  destruct ws as [|t ws].
  - destruct Hup as [-> ->]. split_and!; [done|done|apply Hb|apply Hb|].
    unfold held_waiters. split_and!; cbn; [apply lookup_insert_eq| |].
    + intros l' Hl'. rewrite lookup_insert_ne by done. auto.
    + intros l' w Hl'. exact (Hw l' w (Hsub l' Hl')).
  - destruct Hup as (th & Ht & Ha1 & -> & Hr & Hws & Hlists & Hu).
    assert (Hf : thread_mlfqs a1 = thread_mlfqs a ∧ intr a1 = intr a ∧ running a1 = running a ∧
      threads a1 = <[t := unblocked (released l (ls1 ++ ls2) a) t th]> (threads a))
      by (rewrite Ha1; done).
    destruct Hf as (-> & -> & Hrun & Hts). split_and!; [done|done|apply Hb|apply Hb|].
    unfold held_waiters. rewrite Hrun, Hts. split_and!.
    + rewrite Hlists by done. cbn. apply lookup_insert_eq.
    + intros l' Hl'. rewrite Hlists by done. cbn. rewrite lookup_insert_ne by done. auto.
    + intros l' w Hl' Hin. destruct (Hw l' w) as (wth & Hwth & Hok); [auto..|].
      destruct (decide (w = t)) as [->|]; [|rewrite lookup_insert_ne by done; by exists wth].
      rewrite lookup_insert_eq. eexists. split; [done|]. cbn in Ht.
      rewrite Hwth in Ht. injection Ht as <-. unfold unblocked, reprioritised. cbn.
      by rewrite Hm.
Qed.

(** What [lock_release] does after its call of [sema_up]. *)
Definition release_rest (t : tptr) (lvl : intr_level) : prog unit :=
  act (refresh_priority (Some t));; thread_yield_if_necessary;; act (k_intr_set_level lvl).

(** And before. *)
Lemma apwp_lock_release_start {A} (k : unit → prog A) l ls1 ls2 W q ws v cur (a : aview) Q :
  release_pre l ls1 ls2 W q ws v cur a →
  (can_up (sema_of_lock l) q ws v cur (released l (ls1 ++ ls2) (intr_off a)) →
   apwp (sema_up (sema_of_lock l) ≫= λ _, release_rest (running a) (iv_level (intr a)) ≫= k) Q
     (released l (ls1 ++ ls2) (intr_off a))) →
  apwp (lock_release l ≫= k) Q a.
Proof.
  intros Hpre HQ. pose proof Hpre as (Hh & Hm & Hctx & Hcu & Hb & (Hls & HW & Hw)).
  pose proof Hcu as ((Hc & _ & _ & Hu & _) & _).
  apply apwp_Act. eapply awp_lock_held; [done..|]. rewrite bool_decide_true by done.
  apply apwp_Act, awp_ASSERT; [done|]. apply apwp_Act, awp_intr_disable. fold (intr_off a).
  apply apwp_Act. eapply awp_thread_current; [exact Hc|].
  apply apwp_Act. eapply (awp_list_remove _ (lock_elem <$> ls1) (lock_elem <$> ls2)).
  { cbn. by rewrite Hls, fmap_app. }
  rewrite <- fmap_app. apply apwp_Act.
  assert (HWl : lists a !! lock_waiters l = Some (elems (W l))) by (apply HW; set_solver).
  eapply (awp_forget_waiters l (W l)); [cbn; by rewrite lookup_insert_ne|].
  assert (Hself : running a ∉ W l).
  { intros Hin. eapply Hu; [exact HWl|]. by apply list_elem_of_fmap_2. }
  rewrite filter_ne by done. apply apwp_Act, awp_set_lock_holder. ksimpl.
  rewrite (insert_id _ (lock_waiters l)) by (rewrite lookup_insert_ne; done).
  apply apwp_assoc, HQ. by apply (released_can_up l ls1 ls2 _ _ _ _ _ (intr_off a)).
Qed.

Lemma apwp_lock_release l ls1 ls2 W q ws v cur (a : aview) :
  release_pre l ls1 ls2 W q ws v cur a →
  apwp (lock_release l) (λ o a', ∃ a1 q1,
    upped (released l (ls1 ++ ls2) (intr_off a)) (sema_of_lock l) v ws q a1 q1 ∧
    checked (release_ok (running a)) a1 q1 (refreshes (iv_level (intr a))) o a') a.
Proof.
  intros Hpre. pose proof Hpre as (_ & _ & Hctx & _).
  set (b := released l (ls1 ++ ls2) (intr_off a)).
  rewrite <- (prog_bind_ret_r (lock_release l)).
  eapply (apwp_lock_release_start Ret); [exact Hpre|]. intros Hcub.
  eapply (apwp_sema_up_bind _ (release_ok (running a)) (refreshes (iv_level (intr a))) _ q ws v cur b);
    [exact Hcub| |].
  - intros a1 q1 Hup.
    assert (Hok : release_ok (running (intr_off a)) a1).
    { eapply (upped_release_ok l ls1 ls2 W); [|exact Hup]. exact Hpre. }
    split; [exact Hok|]. rewrite (upped_intr _ _ _ _ _ _ _ Hup). unfold b. cbn. congruence.
  - intros c ccur Hcc Hl Hok. unfold mbind, prog_mbind. rewrite prog_bind_ret_r.
    apply apwp_refresh_tail. exact Hok.
Qed.
End awp_lock.

(** ** Critical sections that disturb nobody *)
Section quiet.
Context {E : Env} {EL : EnvLaws E}.

Lemma with_current_id (a : aview) cur :
  threads a !! running a = Some cur → with_current cur a = a.
Proof. intros Ht. unfold with_current. rewrite insert_id by done. by destruct a. Qed.

(** What is left of a release when there is no reason to switch. *)
Lemma refreshes_quiet lvl q cur (b : aview) o b' :
  sched_ok b q cur → thread_mlfqs b = false → preempts b q = false →
  lists b !! locks_held (running b) = Some [] → base_priority cur = priority cur →
  refreshes lvl b o b' → o = ODone () ∧ b' = restored lvl b.
Proof.
  intros ((Ht & _) & _ & Hr & _) Hm Hpre Hls Hbase
    (q' & cur' & ls & W & p & ((Ht' & _) & _ & Hr' & _) & (Hls' & _) & Hfresh & Hch).
  rewrite Ht in Ht'. injection Ht' as <-. rewrite Hls in Hls'. injection Hls' as Hls'.
  symmetry in Hls'. apply fmap_nil_inv in Hls' as ->.
  assert (q' = q) as ->.
  { destruct Hr as [[_ Hr]|[? _]]; [|congruence]. destruct Hr' as [[_ Hr']|[? _]]; [|congruence].
    rewrite Hr in Hr'. injection Hr' as Hr'. symmetry. by apply (inj (fmap thread_elem)). }
  assert (p = priority cur) as ->.
  { destruct Hfresh as (_ & _ & [->|(l & w & Hl & _)]); [done|]. by apply elem_of_nil in Hl. }
  replace (with_priority (priority cur) cur) with cur in Hch by (by destruct cur).
  rewrite with_current_id in Hch by done. unfold checked in Hch. by rewrite Hpre in Hch.
Qed.

Lemma apwp_lock_release_quiet {A} (k : unit → prog A) l W q v cur Q (a : aview) :
  release_pre l [] [] W q [] v cur a → preempts a q = false →
  base_priority cur = priority cur →
  apwp (k ()) Q (set_semas (<[sema_of_lock l := v + 1]> (semas a)) (released l [] a)) →
  apwp (lock_release l ≫= k) Q a.
Proof.
  intros Hpre Hq Hb HQ. apply apwp_bind.
  eapply apwp_mono; [by eapply apwp_lock_release|]. intros o a' (a1 & q1 & Hup & Hch).
  pose proof Hpre as (_ & Hm & Hctx & Hcu & _ & (Hls & _)).
  pose proof (released_can_up l [] [] _ _ _ _ _ (intr_off a) Hls Hcu) as Hcu1.
  pose proof (upped_sched_ok _ _ _ _ _ _ _ _ Hcu1 Hup) as Hs1.
  destruct Hup as [-> ->]. unfold checked in Hch. cbn in Hch.
  change (preempts _ q) with (preempts a q) in Hch. rewrite Hq in Hch.
  eapply refreshes_quiet in Hch as [-> ->]; [|exact Hs1|exact Hm|exact Hq| |done].
  - cbn. unfold restored. cbn. destruct a as [? []]. exact HQ.
  - cbn. apply lookup_insert_eq.
Qed.
End quiet.

(** * Properties *)
Section properties.
Context {E : Env} {EL : EnvLaws E}.

(** C24: Taking a free lock never sleeps: the lock gets the caller as its holder,
    its semaphore goes down by one, it is appended to the locks the caller
    holds, the interrupt level is restored and nothing else changes.  A lock
    that [lock_init] has just initialised is free. *)
Theorem lock_acquire_spec l v ls cur (a : aview) :
  lock_free l v ls cur a →
  apwp (lock_acquire l) (λ o a', o = ODone () ∧ a' = locked l v ls a ∧
    holders a' !! l = Some (Some (running a)) ∧
    semas a' !! sema_of_lock l = Some (v - 1) ∧
    lists a' !! locks_held (running a) = Some (lock_elem <$> (ls ++ [l]))) a ∧
  awp (lock_init l) (λ _ a', holders a' !! l = Some None ∧
    semas a' !! sema_of_lock l = Some 1 ∧ lists a' !! lock_waiters l = Some []) a.
Proof.
  intros Hf. split.
  - eapply apwp_lock_acquire_free; [done|]. split_and!; try done; cbn.
    + apply lookup_insert_eq.
    + apply lookup_insert_eq.
    + rewrite fmap_app. apply lookup_insert_eq.
  - unfold lock_init. kstep. kstep. kstep. apply awp_sema_init. ksteps.
    by rewrite !lookup_insert_eq.
Qed.

(** Locks are not recursive and only their holder may release them: acquiring
    (or trying to acquire) a lock one holds and releasing a lock one does not
    hold fail the assertions of synch.c, before anything has changed. *)
Lemma lock_ownership l h cur (a : aview) :
  current_ok a cur → iv_context (intr a) = false → holders a !! l = Some h →
  if decide (h = Some (running a))
  then apwp (lock_acquire l) (λ o a', o =
         OFault (EAssert "lock_acquire: !lock_held_by_current_thread (lock)") ∧ a' = a) a ∧
       apwp (lock_try_acquire l) (λ o a', o =
         OFault (EAssert "lock_try_acquire: !lock_held_by_current_thread (lock)") ∧ a' = a) a
  else apwp (lock_release l) (λ o a', o =
         OFault (EAssert "lock_release: lock_held_by_current_thread (lock)") ∧ a' = a) a.
Proof.
  intros Hc Hctx Hh. case_decide as Hd.
  - split; [apply apwp_Act, awp_assert_not_intr_context; [done|]|];
      (apply apwp_Act; eapply awp_lock_held; [done..|]);
      (rewrite bool_decide_true by done); by apply apwp_ASSERT_fault.
  - apply apwp_Act. eapply awp_lock_held; [done..|]. rewrite bool_decide_false by done.
    by apply apwp_ASSERT_fault.
Qed.

(** C25: A thread that finds a lock held joins the lock's waiters, by priority,
    records what it waits for, and donates: afterwards the holder, and whoever a
    thread that was raised waits for, has at least its priority.  If the earlier
    donations were in place they all are, this one included, and so everyone it
    waits for, directly or not, has at least its priority before it goes to
    sleep.  The list element it is queued by is the one [sema_down] is going to
    insert into the waiters of the lock's semaphore as well. *)
Theorem lock_donate_spec l W cur holder (a : aview) :
  threads a !! running a = Some cur → holders a !! l = Some (Some holder) →
  is_Some (threads a !! holder) → waits_ok a →
  lists a !! lock_waiters l = Some (elems W) → unlinked (lists a) (thread_elem (running a)) →
  apwp (lock_donate l (running a)) (λ o a', o = ODone () ∧
    (∃ c, let a1 := waiting l W cur a in donated (priority cur) a1 holder c ∧
       a' = set_threads (raise (priority cur) c (threads a1)) a1) ∧
    priority cur ≤ thread_priority (threads a') holder ∧
    waits_for a' (running a) = Some holder ∧
    (donations_made a → donations_made a' ∧
       ∀ v, rtc (λ x y, waits_for a' x = Some y) (running a) v →
         priority cur ≤ thread_priority (threads a') v) ∧
    ¬ unlinked (lists a') (thread_elem (running a))) a.
Proof.
  intros Ht Hh Hd Hok HW Hu. eapply apwp_lock_donate; [done..|]. intros c a1 Hc.
  destruct (waiting_for l W cur holder a Ht Hh) as (Hself & Hp & Hrest). fold a1 in Hself, Hp, Hrest.
  assert (Hcur : thread_priority (threads a1) (running a) = priority cur)
    by (by rewrite Hp, (thread_priority_at _ _ cur)).
  split_and!; [done|by exists c| | | |].
  - apply Hc. by left.
  - rewrite waits_for_raise. exact Hself.
  - intros Hm. assert (Hm' : donations_made (set_threads (raise (priority cur) c (threads a1)) a1)).
    { apply (donated_made _ _ (running a) holder); [done..|]. intros u v Hne Hw.
      destruct (Hrest u Hne) as [Hwu _]. rewrite !Hp. apply Hm. congruence. }
    split; [done|]. intros v Hv. etrans; [|exact (donations_chain _ _ _ Hm' Hv)].
    rewrite <- Hcur at 1. by apply raise_le, Hc.
  - intros Hul. eapply Hul; [cbn; apply lookup_insert_eq|].
    apply list_elem_of_fmap_2, elem_of_enqueue. by left.
Qed.

(** C34: [lock_try_acquire] never sleeps.  It succeeds exactly when the semaphore
    is positive and then makes the caller the holder; on failure nothing
    changes.  Unlike [lock_acquire] it never puts the lock on the list of the
    locks its holder holds. *)
Theorem lock_try_acquire_spec l v h cur (a : aview) :
  current_ok a cur → holders a !! l = Some h → h ≠ Some (running a) →
  semas a !! sema_of_lock l = Some v → 0 ≤ v ≤ UINT_MAX →
  apwp (lock_try_acquire l) (λ o a', o = ODone (0 <? v) ∧
    a' = if 0 <? v then set_holders (<[l := Some (running a)]> (holders a))
                          (set_semas (<[sema_of_lock l := v - 1]> (semas a)) a)
         else a) a.
Proof.
  intros Hc Hh Hne Hv Hr. apply apwp_Act. eapply awp_lock_held; [done..|].
  rewrite bool_decide_false by done. apply apwp_Act, awp_ASSERT; [done|].
  apply apwp_Act. eapply awp_sema_try_down; [done..|]. destruct (0 <? v).
  - apply apwp_Act. eapply awp_thread_current; [exact Hc|].
    apply apwp_Act, awp_set_lock_holder. by apply apwp_ret.
  - by apply apwp_ret.
Qed.

(** C11: Releasing a lock takes it off the list of held locks, frees it and ups
    its semaphore (which wakes its first waiter and may hand the processor
    over at once); when the caller goes on, its priority becomes the maximum
    of its base priority and of the waiters of the locks it still holds, so
    that donations received for the released lock are given back; finally the
    processor is handed over if that leaves a ready thread with a higher
    priority, and the interrupt level is restored on return. *)
Theorem lock_release_spec l ls1 ls2 W q ws v cur (a : aview) :
  release_pre l ls1 ls2 W q ws v cur a →
  apwp (lock_release l) (λ o a', ∃ a1 q1,
    upped (released l (ls1 ++ ls2) (intr_off a)) (sema_of_lock l) v ws q a1 q1 ∧
    holders a1 !! l = Some None ∧
    lists a1 !! locks_held (running a) = Some (lock_elem <$> (ls1 ++ ls2)) ∧
    checked (release_ok (running a)) a1 q1 (refreshes (iv_level (intr a))) o a') a.
Proof.
  intros Hpre. eapply apwp_mono; [by eapply apwp_lock_release|].
  intros o a' (a1 & q1 & Hup & Hch). exists a1, q1. split_and!; [done| | |done].
  - destruct ws as [|t ws]; [destruct Hup as [-> _]|destruct Hup as (? & _ & -> & _)];
      apply lookup_insert_eq.
  - destruct ws as [|t ws]; [destruct Hup as [-> _]; apply lookup_insert_eq|].
    destruct Hup as (? & _ & _ & _ & _ & _ & Hl & _). rewrite Hl by done.
    apply lookup_insert_eq.
Qed.
End properties.

(** * Witnesses *)
Section witnesses.
#[local] Existing Instances concrete_env concrete_env_laws.

(** Lock 1 is free; lock 2 is held by thread 1 (base priority 25, donated 40),
    and thread 4 waits for its semaphore; thread 3 holds lock 3. *)
Definition wit_cur : thread := with_priority 40 (sample_thread 1 THREAD_RUNNING 25).

Definition wit_locks : kstate :=
  set_semas (<[sema_of_lock (lock_at 1) := 1]> (<[sema_of_lock (lock_at 2) := 0]>
    {[sema_of_lock (lock_at 3) := 0]}))
  (set_holders (<[lock_at 1 := None]> (<[lock_at 2 := Some 1%positive]>
    {[lock_at 3 := Some 3%positive]}))
  (set_threads (<[1%positive := wit_cur]> (list_to_map (sched_threads 25)))
    (sample_state false []
      [(ready_list, elems [3]%positive); (locks_held 1, [lock_elem (lock_at 2)]);
       (locks_held 3, [lock_elem (lock_at 3)]);
       (lock_waiters (lock_at 2), []); (lock_waiters (lock_at 3), []);
       (sema_waiters (sema_of_lock (lock_at 2)), elems [4]%positive)]))).

Lemma lock_acquire_spec_witness :
  ends_at (lock_acquire (lock_at 1)) (λ o a', o = ODone ()) wit_locks.
Proof.
  eapply ends_mono.
  - apply apwp_ends, (lock_acquire_spec (lock_at 1) 1 [lock_at 2] wit_cur).
    split_and!; by_test.
  - by intros o a' [-> _].
Defined.

Lemma lock_ownership_witness :
  ends_at (lock_acquire (lock_at 2)) (λ o a', ∃ e, o = OFault e) wit_locks ∧
  ends_at (lock_release (lock_at 3)) (λ o a', ∃ e, o = OFault e) wit_locks.
Proof.
  split.
  - pose proof (lock_ownership (lock_at 2) (Some 1%positive) wit_cur (obs wit_locks)
      ltac:(by_test) ltac:(by_test) ltac:(by_test)) as H.
    rewrite decide_True in H by done. destruct H as [H _].
    eapply ends_mono; [by apply apwp_ends|]. intros o a' [-> _]. by eexists.
  - pose proof (lock_ownership (lock_at 3) (Some 3%positive) wit_cur (obs wit_locks)
      ltac:(by_test) ltac:(by_test) ltac:(by_test)) as H.
    rewrite decide_False in H by done.
    eapply ends_mono; [by apply apwp_ends|]. intros o a' [-> _]. by eexists.
Defined.

Lemma lock_donate_spec_witness :
  ends_at (lock_donate (lock_at 3) 1)
    (λ o a', 40 ≤ thread_priority (threads a') 3) wit_locks.
Proof.
  eapply ends_mono.
  - apply apwp_ends, (lock_donate_spec (lock_at 3) [] wit_cur 3); try by_test.
    + by eexists.
    + apply waits_check_ok. by vm_compute.
  - by intros o a' (_ & _ & Hp & _).
Defined.

Lemma lock_try_acquire_spec_witness :
  ends_at (lock_try_acquire (lock_at 1)) (λ o a', o = ODone true) wit_locks.
Proof.
  eapply ends_mono.
  - apply apwp_ends, (lock_try_acquire_spec (lock_at 1) 1 None wit_cur); by_test.
  - by intros o a' [-> _].
Defined.

Lemma lock_release_spec_witness :
  ends_at (lock_release (lock_at 2)) (λ o a', ∃ a1 q1,
    q1 = [4; 3]%positive ∧ holders a1 !! lock_at 2 = Some None ∧
    checked (release_ok 1) a1 q1 (refreshes INTR_OFF) o a') wit_locks.
Proof.
  eapply ends_mono.
  - apply apwp_ends, (lock_release_spec (lock_at 2) [] [] (λ _, []) [3]%positive [4]%positive 0
      wit_cur). split_and!; try by_test.
    + split_and!; try by_test. split_and!; by_test. eexists. split_and!; by_test.
    + split_and!; [by_test| |]; [intros l ->%list_elem_of_singleton; by_test|].
      by intros l w _ ?%elem_of_nil.
  - intros o a' (a1 & q1 & (th & Ht & Ha1 & -> & _) & Hh & _ & Hch). exists a1.
    eexists. split; [|split; [exact Hh|exact Hch]]. rewrite Ha1. vm_compute in Ht.
    injection Ht as <-. reflexivity.
Defined.
End witnesses.
