(* ===== verification/CondSpec.v ===== *)
(** threads/synch.c: the properties of condition variables. *)
From S2P Require Import Prelude Env Kernel Thread Mlfqs Ready.
From S2P Require Import Sched Wait Synch SemaSpec LockSpec SampleSched.

#[global] Instance waiter_elem_inj : Inj (=) (=) waiter_elem.
Proof. by intros ?? [= ->]. Qed.

(** The threads [ts] wait on [cond], each of them asleep on its own semaphore. *)
Definition cond_sleepers (cond : cond_ptr) (ts : list tptr) (a : aview) : Prop :=
  lists a !! cond_waiters cond = Some (waiter_elem <$> ts) ∧
  ∀ t, t ∈ ts → lists a !! sema_waiters (sema_of_waiter t) = Some (elems [t]) ∧
    semas a !! sema_of_waiter t = Some 0 ∧
    ∃ th, threads a !! t = Some th ∧ thread_ok th ∧ status th = THREAD_BLOCKED ∧ priority_ok th.

(** The running thread may signal [cond]: it holds [lock], and [ts] wait. *)
Definition can_signal (cond : cond_ptr) (lock : lock_ptr) (ts q : list tptr) (cur : thread)
    (a : aview) : Prop :=
  sched_ok a q cur ∧ iv_context (intr a) = false ∧
  holders a !! lock = Some (Some (running a)) ∧ cond_sleepers cond ts a.

(** [t] is no longer among the waiters. *)
Definition unwaiting (cond : cond_ptr) (l r : list tptr) (a : aview) : aview :=
  set_lists (<[cond_waiters cond := waiter_elem <$> (l ++ r)]> (lists a)) a.

Section awp_cond.
Context {E : Env} {EL : EnvLaws E}.

(** The comparison orders the waiters by the priorities of their threads. *)
Lemma cond_cmp_priority s a cond ts x y :
  obs s = a → cond_sleepers cond ts a → x ∈ waiter_elem <$> ts → y ∈ waiter_elem <$> ts →
  let k e := match entry_waiter e with Some t => thread_priority (threads a) t | None => 0 end in
  cond_sema_priority_cmp s x y = (k x <? k y).
Proof.
  intros Hs [_ Hw] (t & -> & Ht)%list_elem_of_fmap (u & -> & Hu)%list_elem_of_fmap. simpl.
  unfold cond_sema_priority_cmp. simpl. subst a.
  destruct (Hw t Ht) as [Ht' _], (Hw u Hu) as [Hu' _].
  by erewrite (view_front _ _ _ _ Ht'), (view_front _ _ _ _ Hu').
Qed.

Lemma first_max_fmap {A B} (f : A → B) (k : B → Z) xs m :
  first_max k (f <$> xs) m → ∃ x, m = f x ∧ first_max (λ x, k (f x)) xs x.
Proof.
  intros (i & Hi & Hmax). rewrite list_lookup_fmap in Hi.
  destruct (xs !! i) as [x|] eqn:Hx; [|done]. injection Hi as <-. exists x. split; [done|].
  exists i. split; [done|]. intros j y Hj. apply Hmax. by rewrite list_lookup_fmap, Hj.
Qed.

Lemma awp_cond_max cond ts Q a :
  cond_sleepers cond ts a → ts ≠ [] →
  (∀ l t r, ts = l ++ t :: r →
     (∀ u, u ∈ l → thread_priority (threads a) u < thread_priority (threads a) t) →
     (∀ u, u ∈ r → thread_priority (threads a) u ≤ thread_priority (threads a) t) →
     Q (waiter_elem t) a) →
  awp (k_list_max (cond_waiters cond) cond_sema_priority_cmp) Q a.
Proof.
  intros Hs Hne HQ. eapply awp_list_max; [apply Hs|by destruct ts| |].
  - intros s Hobs x y Hx Hy. by eapply cond_cmp_priority.
  - intros m Hm. apply first_max_fmap in Hm as (t & -> & Hm). cbn in Hm.
    apply first_max_split in Hm as (l & r & Hts & Hlt & Hle). by eapply HQ.
Qed.

Lemma unwaiting_can_up cond l t r q cur a :
  cond_sleepers cond (l ++ t :: r) a → sched_ok a q cur →
  can_up (sema_of_waiter t) q [t] 0 cur (unwaiting cond l r a).
Proof.
  intros [Hc Hw] (Hcur & Hp & Hr & Hu & Hv). destruct (Hw t) as (Hl & Hval & Ht); [set_solver|].
  split_and!; [split_and!; [done..| | |done]|done|done|done| |exact Ht].
  - by apply ready_insert_other.
  - cbn. apply unlinked_insert; [done|]. by intros (x & [=] & _)%list_elem_of_fmap.
  - cbn. by rewrite lookup_insert_ne.
Qed.

(** [t] is the first of the waiters [l ++ t :: r] of the highest priority. *)
Definition foremost (a : aview) (l : list tptr) (t : tptr) (r : list tptr) : Prop :=
  (∀ u, u ∈ l → thread_priority (threads a) u < thread_priority (threads a) t) ∧
  (∀ u, u ∈ r → thread_priority (threads a) u ≤ thread_priority (threads a) t).

(** Signalling, followed by [k]. *)
Lemma apwp_cond_signal_bind {A} (k : unit → prog A) (C : list tptr → aview → Prop)
    (R : list tptr → aview → out A → aview → Prop) cond lock ts q cur (a : aview) :
  can_signal cond lock ts q cur a → ts ≠ [] →
  (∀ l t r a1 q1, ts = l ++ t :: r →
     upped (unwaiting cond l r a) (sema_of_waiter t) 0 [t] q a1 q1 → C (l ++ r) (intr_off a1)) →
  (∀ l t r b bcur, ts = l ++ t :: r → current_ok b bcur → iv_level (intr b) = iv_level (intr a) →
     C (l ++ r) (intr_off b) → apwp (k ()) (R (l ++ r) b) b) →
  apwp (cond_signal cond lock ≫= k) (λ o a', ∃ l t r a1 q1, ts = l ++ t :: r ∧ foremost a l t r ∧
    upped (unwaiting cond l r a) (sema_of_waiter t) 0 [t] q a1 q1 ∧
    checked (C (l ++ r)) a1 q1 (R (l ++ r)) o a') a.
Proof.
  intros (Hs & Hctx & Hh & Hw) Hne HC Hk. pose proof Hs as (Hc & _). pose proof Hw as (Hl & _).
  apply apwp_Act, awp_assert_not_intr_context; [done|].
  apply apwp_Act. eapply awp_lock_held; [done..|]. rewrite bool_decide_true by done.
  apply apwp_Act, awp_ASSERT; [done|]. apply apwp_Act. eapply awp_list_empty; [done|].
  rewrite bool_decide_false by (by destruct ts). apply apwp_Act.
  eapply awp_cond_max; [done..|]. intros l t r -> Hlt Hle.
  apply apwp_Act. rewrite fmap_app in Hl.
  eapply (awp_list_remove _ (waiter_elem <$> l) (waiter_elem <$> r)); [exact Hl|].
  rewrite <- fmap_app. fold (unwaiting cond l r a). apply apwp_Act. kstep.
  eapply apwp_mono; [eapply (apwp_sema_up_bind k (C (l ++ r)) (R (l ++ r)))|].
  - by eapply unwaiting_can_up.
  - intros a1 q1 Hup. split; [by eapply HC|]. intros Hx. exfalso.
    rewrite (upped_intr _ _ _ _ _ _ _ Hup) in Hx. cbn in Hx. congruence.
  - intros b bcur Hb Hlv HCb. by eapply Hk.
  - intros o a' (a1 & q1 & Hup & Hch). by exists l, t, r, a1, q1.
Qed.

(** After a signal the others still wait. *)
Lemma upped_can_signal cond lock l t r q q1 cur (a a1 : aview) :
  can_signal cond lock (l ++ t :: r) q cur a → NoDup (l ++ t :: r) →
  upped (unwaiting cond l r a) (sema_of_waiter t) 0 [t] q a1 q1 →
  can_signal cond lock (l ++ r) q1 cur a1.
Proof.
  intros (Hs & Hctx & Hh & Hw) Hd Hup.
  pose proof (unwaiting_can_up cond l t r q cur a Hw Hs) as Hcu.
  pose proof (upped_sched_ok _ _ _ _ _ _ _ _ Hcu Hup) as Hs1.
  destruct Hup as (th & Ht & Ha1 & Hq1 & Hr1 & Hws & Hl1 & Hu1). destruct Hw as [Hc Hw].
  split_and!; [exact Hs1|by rewrite Ha1|by rewrite Ha1|].
  split; [rewrite Hl1 by done; cbn; apply lookup_insert_eq|].
  intros u Hu. assert (Hne : u ≠ t).
  { intros ->. apply NoDup_app in Hd as (_ & Hd & Hr). apply NoDup_cons in Hr as [Hr _].
    apply elem_of_app in Hu as [Hu|Hu]; [|done]. apply (Hd t Hu). by left. }
  destruct (Hw u) as (Hlu & Hvu & uth & Huth & Hu3); [set_solver|]. split_and!.
  - rewrite Hl1 by (done || congruence). cbn. by rewrite lookup_insert_ne.
  - rewrite Ha1. cbn. rewrite lookup_insert_ne; [done|congruence].
  - exists uth. rewrite Ha1. cbn. by rewrite lookup_insert_ne.
Qed.

Lemma can_signal_intr cond lock ts q cur (a : aview) v :
  iv_context v = false → can_signal cond lock ts q cur a →
  can_signal cond lock ts q cur (set_intr v a).
Proof.
  intros Hv ((Hc & Hp & Hr & Hu & Hval) & _ & Hh & Hw).
  refine (conj (conj Hc (conj Hp (conj _ (conj Hu Hval)))) (conj Hv (conj Hh Hw))).
  by eapply (rq_ext (rq := ready) a).
Qed.
End awp_cond.

(** * Properties *)
Section properties.
Context {E : Env} {EL : EnvLaws E}.

(** C29: Signalling wakes exactly one of the threads that sleep on the condition,
    the one that has waited longest among those of the highest priority; it
    leaves the waiters and becomes ready, and the processor is handed over if
    it has a higher priority than the caller.  With no waiter nothing happens.
    Only the holder of the lock may signal. *)
Theorem cond_signal_spec cond lock ts q cur (a : aview) :
  can_signal cond lock ts q cur a →
  apwp (cond_signal cond lock) (λ o a',
    (ts = [] ∧ o = ODone () ∧ a' = a) ∨
    ∃ l t r a1 q1, ts = l ++ t :: r ∧ foremost a l t r ∧
      upped (unwaiting cond l r a) (sema_of_waiter t) 0 [t] q a1 q1 ∧
      checked anything a1 q1 returns o a') a.
Proof.
  intros Hcs. destruct (decide (ts = [])) as [->|Hne].
  - pose proof Hcs as ((Hc & _) & Hctx & Hh & Hl & _).
    apply apwp_Act, awp_assert_not_intr_context; [done|].
    apply apwp_Act. eapply awp_lock_held; [done..|]. rewrite bool_decide_true by done.
    apply apwp_Act, awp_ASSERT; [done|]. apply apwp_Act. eapply awp_list_empty; [done|].
    apply apwp_ret. by left.
  - rewrite <- (prog_bind_ret_r (cond_signal _ _)). eapply apwp_mono;
      [eapply (apwp_cond_signal_bind Ret (λ _, anything) (λ _, returns)); [exact Hcs|done|done|]|].
    + intros l t r b bcur _ _ _ _. by apply apwp_ret.
    + intros o a' H. by right.
Qed.

(** The waiters [ts] are woken one after the other, the foremost first.  Each time
    the processor is handed over, the thread goes on with the next one when it
    is resumed, provided the condition has been left alone: the caller holds the
    lock. *)
Fixpoint wakes (cond : cond_ptr) (lock : lock_ptr) (n : nat) (ts : list tptr) (a : aview)
    (o : out unit) (a' : aview) : Prop :=
  match n with
  | O => ts = [] ∧ o = ODone () ∧ a' = a
  | S n =>
      ∃ q cur l t r a1 q1, can_signal cond lock ts q cur a ∧ ts = l ++ t :: r ∧ foremost a l t r ∧
        upped (unwaiting cond l r a) (sema_of_waiter t) 0 [t] q a1 q1 ∧
        checked (λ c, ∃ q cur, can_signal cond lock (l ++ r) q cur c) a1 q1
          (wakes cond lock n (l ++ r)) o a'
  end.

Lemma restored_can_signal cond lock ts q cur (b : aview) :
  iv_context (intr b) = false → can_signal cond lock ts q cur (intr_off b) →
  can_signal cond lock ts q cur b.
Proof.
  intros Hctx H. apply (can_signal_intr _ _ _ _ _ _ (intr b)) in H; [|done].
  replace (set_intr (intr b) (intr_off b)) with b in H; [done|]. by destruct b.
Qed.

Lemma apwp_broadcast_loop cond lock n ts q cur (a : aview) :
  length ts = n → NoDup ts → can_signal cond lock ts q cur a →
  apwp (cond_broadcast cond lock) (wakes cond lock n ts a) a.
Proof.
  revert ts q cur a. induction n as [|n IH]; intros ts q cur a Hn Hd Hcs; apply apwp_loop;
    pose proof Hcs as (_ & _ & _ & Hl & _); apply apwp_Act; (eapply awp_list_empty; [exact Hl|]).
  - apply nil_length_inv in Hn as ->. by apply apwp_ret.
  - rewrite bool_decide_false by (by destruct ts). apply apwp_assoc.
    eapply apwp_mono; [eapply (apwp_cond_signal_bind _
      (λ ts' c, ∃ q cur, can_signal cond lock ts' q cur c) (wakes cond lock n)); [exact Hcs|by destruct ts| |]|].
    + intros l t r a1 q1 -> Hup. exists q1, cur. apply can_signal_intr.
      * rewrite (upped_intr _ _ _ _ _ _ _ Hup). apply Hcs.
      * by eapply upped_can_signal.
    + intros l t r b bcur -> Hb _ (q' & cur' & Hcs'). apply (IH (l ++ r) q' cur').
      * rewrite !length_app in *. simpl in Hn. lia.
      * apply NoDup_app in Hd as (H1 & H2 & H3%NoDup_cons). apply NoDup_app.
        split_and!; [done| |apply H3]. intros x Hx Hr. apply (H2 x Hx). by right.
      * apply restored_can_signal; [apply Hcs'|done].
    + intros o a' (l & t & r & a1 & q1 & Hts & Hf & Hup & Hch).
      by exists q, cur, l, t, r, a1, q1.
Qed.

(** C31: A broadcast wakes all waiters, as many as there are and no more, each time
    the one that has waited longest among those of the highest priority left;
    after each of them the processor is handed over if a woken thread has a
    higher priority than the caller.  It ends with no waiter left. *)
Theorem cond_broadcast_spec cond lock ts q cur (a : aview) :
  NoDup ts → can_signal cond lock ts q cur a →
  apwp (cond_broadcast cond lock) (wakes cond lock (length ts) ts a) a.
Proof. intros Hd Hcs. by eapply apwp_broadcast_loop. Qed.

(** ** Waiting *)

Lemma sched_ok_lists (a b : aview) q cur :
  sched_ok a q cur → thread_mlfqs b = thread_mlfqs a → threads b = threads a →
  running b = running a → (∀ l, sched_list l = true → lists b !! l = lists a !! l) →
  unlinked (lists b) (thread_elem (running a)) → sched_ok b q cur.
Proof.
  intros ((Hc & Hok & Hst) & Hp & Hr & _ & Hv) Hm Ht Hrun Hl Hu.
  unfold sched_ok, current_ok, valid. rewrite Ht, Hrun. split_and!; try done; try apply Hp.
  eapply (rq_ext (rq := ready) a); [done..|]. intros u _. by rewrite Ht.
Qed.

(** What a thread that has been waiting needs to take the lock again: its
    semaphore has been upped, and the lock is free. *)
Definition can_reacquire (sm : sema_ptr) (lock : lock_ptr) (v w : Z) (ls : list lock_ptr)
    (q : list tptr) (cur : thread) (c : aview) : Prop :=
  sched_ok c q cur ∧ iv_context (intr c) = false ∧ thread_mlfqs c = false ∧
  semas c !! sm = Some v ∧ 0 < v ≤ UINT_MAX ∧
  holders c !! lock = Some None ∧ semas c !! sema_of_lock lock = Some w ∧ 0 < w ≤ UINT_MAX ∧
  lists c !! locks_held (running c) = Some (lock_elem <$> ls) ∧
  unlinked (lists c) (lock_elem lock).

(** The thread holds the lock again, at interrupt level [l]. *)
Definition reacquired (sm : sema_ptr) (lock : lock_ptr) (l : intr_level) (v w : Z)
    (ls : list lock_ptr) (c : aview) : aview :=
  locked lock w ls (restored l (set_semas (<[sm := v - 1]> (semas c)) c)).

Lemma reacquired_sched_ok sm lock l v w ls q cur c :
  can_reacquire sm lock v w ls q cur c → sched_ok (reacquired sm lock l v w ls c) q cur.
Proof.
  intros (Hs & _ & _ & _ & _ & _ & _ & _ & Hls & _). pose proof Hs as (_ & _ & _ & Hself & _).
  apply (sched_ok_lists c); [done..| |].
  - intros l' Hl. cbn. by rewrite lookup_insert_ne by (by intros <-).
  - apply unlinked_insert; [exact Hself|].
    intros [(? & ? & _)%list_elem_of_fmap|?%list_elem_of_singleton]%elem_of_app; done.
Qed.

(** The way back from the semaphore: the lock, then the preemption check. *)
Lemma apwp_cond_reacquire sm lock l v w ls q cur c :
  can_reacquire sm lock v w ls q cur c → sm ≠ sema_of_lock lock →
  apwp (lock_acquire lock;; check_preemption)
    (checked anything (reacquired sm lock l v w ls c) q returns)
    (restored l (set_semas (<[sm := v - 1]> (semas c)) c)).
Proof.
  intros Hcr Hne. pose proof (reacquired_sched_ok _ _ l _ _ _ _ _ _ Hcr) as Hs1.
  destruct Hcr as ((Hc & _) & Hctx & Hm & _ & _ & Hh & Hw & Hr & Hls & Hu).
  apply apwp_bind. eapply (apwp_lock_acquire_free lock w ls cur).
  - refine (conj Hc (conj Hctx (conj Hh (conj _ (conj Hr (conj Hls Hu)))))).
    cbn. by rewrite lookup_insert_ne.
  - rewrite <- (prog_bind_ret_r check_preemption). pose proof Hs1 as (Hc1 & _ & Hr1 & _ & Hv1).
    eapply apwp_check_preemption_bind; [exact Hc1| |exact Hv1|].
    + destruct Hr1 as [[_ Hr1]|[Hm1 _]]; [exact Hr1|]. cbn in Hm1. congruence.
    + eapply apwp_checked_bind; [exact Hs1|done|done|]. intros b bcur _ _ _. by apply apwp_ret.
Qed.

End properties.

(** * Witnesses *)
Section witnesses.
#[local] Existing Instances concrete_env concrete_env_laws.

(** Threads 4 (priority 31) and 5 (priority 40) wait on condition 1. *)
Definition wit_cond : kstate :=
  set_semas (<[sema_of_waiter 4 := 0]> {[sema_of_waiter 5 := 0]})
  (set_holders {[lock_at 1 := Some 1%positive]}
  (set_threads (<[5%positive := sample_thread 5 THREAD_BLOCKED 40]>
      (list_to_map (sched_threads 50)))
    (sample_state false []
      [(ready_list, elems [3]%positive);
       (cond_waiters 1, [waiter_elem 4; waiter_elem 5]);
       (sema_waiters (sema_of_waiter 4), elems [4]%positive);
       (sema_waiters (sema_of_waiter 5), elems [5]%positive)]))).

Lemma wit_can_signal :
  can_signal 1 (lock_at 1) [4; 5]%positive [3]%positive (sample_thread 1 THREAD_RUNNING 50)
    (obs wit_cond).
Proof.
  refine (conj _ (conj eq_refl (conj eq_refl (conj eq_refl _)))); [sched_by_test|].
  intros t [->| ->%list_elem_of_singleton]%elem_of_cons;
    (split_and!; [reflexivity..|eexists; split_and!; by_test]).
Defined.

Lemma wit_foremost l t r :
  [4; 5]%positive = l ++ t :: r → foremost (obs wit_cond) l t r → t = 5%positive.
Proof.
  intros Hts [Hlt Hle]. destruct l as [|x [|y l]].
  - injection Hts as <- <-. specialize (Hle 5%positive ltac:(by left)). by vm_compute in Hle.
  - by injection Hts as <- <- <-.
  - injection Hts as _ _ Hts. by destruct l.
Defined.

Lemma cond_signal_spec_witness :
  ends_at (cond_signal 1 (lock_at 1)) (λ o a', ∃ l r, [4; 5]%positive = l ++ 5%positive :: r)
    wit_cond.
Proof.
  eapply ends_mono.
  - exact (apwp_ends _ _ _ (cond_signal_spec 1 (lock_at 1) _ _ _ _ wit_can_signal)).
  - intros o a' [(? & _)|(l & t & r & a1 & q1 & Hts & Hf & _)]; [done|].
    pose proof (wit_foremost l t r Hts Hf) as ->. by exists l, r.
Defined.

(** Thread 5 comes first; the caller's priority is 50. *)
Lemma cond_broadcast_spec_witness :
  ends_at (cond_broadcast 1 (lock_at 1)) (λ o a', ∃ l r a1 q1,
      [4; 5]%positive = l ++ 5%positive :: r ∧
      upped (unwaiting 1 l r (obs wit_cond)) (sema_of_waiter 5) 0 [5]%positive [3]%positive a1 q1)
    wit_cond.
Proof.
  eapply ends_mono.
  - refine (apwp_ends _ _ _ (cond_broadcast_spec 1 (lock_at 1) _ _ _ _ _ wit_can_signal)).
    apply (bool_decide_eq_true_1 _). vm_compute. reflexivity.
  - intros o a' (q & cur & l & t & r & a1 & q1 & Hcs & Hts & Hf & Hup & _).
    pose proof (wit_foremost l t r Hts Hf) as ->. exists l, r, a1, q1. split; [done|].
    assert (q = [3]%positive) as ->; [|done].
    destruct Hcs as ((_ & _ & [[_ Hr]|[? _]] & _) & _); [|done].
    change (Some (elems [3]%positive) = Some (elems q)) in Hr. injection Hr as Hr.
    by destruct q as [|x [|y q]]; simplify_eq/=.
Defined.

End witnesses.
