(* ===== verification/CondWait.v ===== *)
(** threads/synch.c: the properties of [cond_wait]. *)
From Stdlib Require Import FunctionalExtensionality.
From S2P Require Import Prelude Env Kernel Thread Mlfqs Ready Donation Sched Wait Synch SemaSpec LockSpec CondSpec SampleSched.

(** ** A thread on its way to sleep on a condition

    [t] has freed the lock and has not yet consumed the signal. *)
Section waiting.
Context {E : Env} {EL : EnvLaws E} (cond : cond_ptr) (lock : lock_ptr) (t : tptr).

#[local] Notation sm := (sema_of_waiter t).

(** [t] runs: it could wait for its semaphore, and its locks are in order. *)
Definition between (a : aview) : Prop :=
  running a = t ∧ ∃ q cur ls W v ws, can_wait sm q ws v cur a ∧ thread_mlfqs a = false ∧
    PRI_MIN ≤ base_priority cur ≤ PRI_MAX ∧ held_waiters ls W a.

(** What the other threads owe it whenever they switch back to it. *)
Definition owed (c : aview) : Prop := iv_level (intr c) = INTR_OFF ∧ between c.

(** A stretch that began in [s] has not changed anything that others see. *)
Definition untouched (s c : aview) : Prop :=
  running c = running s ∧ holders c = holders s ∧ semas c = semas s ∧ lists c = lists s.

(** It gives up the processor to [n], asleep on its semaphore or to a ready
    thread of higher priority, and leaves locks, semaphores and the condition's
    waiters alone. *)
Definition gives_way (s : aview) (n : tptr) (b : aview) : Prop :=
  n ≠ running b ∧ running b = running s ∧ holders b = holders s ∧ semas b = semas s ∧
  lists b !! cond_waiters cond = lists s !! cond_waiters cond ∧
  (asleep sm n b ∨
   status <$> threads b !! running b = Some THREAD_READY ∧
   thread_priority (threads b) (running b) < thread_priority (threads b) n).

(** It has consumed a signal, in state [c] of the stretch that began in [s], and
    its interrupt level is [l] again.  If it then finds the lock free it takes
    it, and makes the preemption check. *)
Definition signalled (l : intr_level) (s : aview) (_ : unit) (b : aview) : Prop :=
  ∃ c v, between c ∧ untouched s c ∧ semas c !! sm = Some v ∧ 0 < v ∧
    b = restored l (set_semas (<[sm := v - 1]> (semas c)) c) ∧
    ∀ w ls q cur, can_reacquire sm lock v w ls q cur c →
      apwp (lock_acquire lock;; check_preemption)
        (checked anything (reacquired sm lock l v w ls c) q returns) b.

#[local] Notation wait := (swp gives_way owed).

Definition under_way (s a : aview) : Prop :=
  iv_level (intr a) = INTR_OFF ∧ between a ∧ untouched s a.

Lemma off_intr_off (a : aview) : iv_level (intr a) = INTR_OFF → intr_off a = a.
Proof. destruct a as [? [lv ? ?]]. cbn. by intros ->. Qed.

Lemma under_way_back (c : aview) : owed c → under_way c c.
Proof. by intros [? ?]. Qed.

Lemma between_sched (a : aview) :
  between a → running a = t ∧ ∃ q cur, sched_ok a q cur ∧ iv_context (intr a) = false ∧
    lists a !! ready_list = Some (elems q).
Proof.
  intros (Hrun & q & cur & ls & W & v & ws & (Hs & Hctx & _) & Hm & _). split; [done|].
  exists q, cur. split_and!; [done..|]. destruct Hs as (_ & _ & [[_ Hr]|[? _]] & _); [done|congruence].
Qed.

Lemma between_level l (a : aview) : between a → between (restored l a).
Proof.
  intros (Hrun & q & cur & ls & W & v & ws & (Hs & Hctx & Hw) & Hm & Hb & Hh). split; [done|].
  exists q, cur, ls, W, v, ws. split_and!; try done; try apply Hb.
Qed.

(** A yield to a thread of higher priority. *)
Lemma yield_gives s q cur n (a b : aview) :
  under_way s a → sched_ok a q cur → preempts a q = true → next_of a (requeue a q) = Some n →
  sched_frame (marked THREAD_READY (intr_off a)) b → gives_way s n b.
Proof.
  intros (_ & (Hrun & _) & (Hr & Hh & Hsem & Hl)) Hs Hpre Hn [-> Hf].
  destruct (preempts_next a q cur Hs Hpre) as (n' & Hn' & Hne & _ & Hlt).
  rewrite Hn in Hn'. injection Hn' as <-. destruct Hs as ((Ht & _) & _).
  split_and!; [done..| |right; split]; cbn in *.
  - rewrite Hf by done. by rewrite Hl.
  - by rewrite lookup_alter_eq, Ht.
  - by rewrite !(thread_priority_marked THREAD_READY a).
Qed.

Lemma swp_yield_under_way {A} (k : unit → prog A) Q s q cur (a : aview) :
  under_way s a → sched_ok a q cur → iv_context (intr a) = false → preempts a q = true →
  (∀ s' a', under_way s' a' → wait s' (k ()) Q a') → wait s (thread_yield ≫= k) Q a.
Proof.
  intros Hg Hs Hctx Hpre Hk. apply swp_fold. pose proof Hg as (Hl & _).
  destruct (preempts_next a q cur Hs Hpre) as (n & Hn & Hne & _).
  eapply apwp_mono; [eapply (apwp_yielded_bind k owed (λ b,
    stretch gives_way owed (λ s p, wait s p Q) Q (intr_off b)) a q cur Hs Hctx)|].
  - congruence.
  - intros b bcur _ Hlb Hb. apply swp_unfold, Hk. rewrite off_intr_off in * by congruence.
    by apply under_way_back.
  - intros out b (n' & a1 & Hn' & Hr1 & Hf & Hu & Ho).
    assert (n' = n) as -> by (change (next_of a (requeue a q) = Some n') in Hn'; congruence).
    rewrite decide_False in Ho by done. destruct Ho as (k' & -> & -> & Hres).
    split; [by eapply yield_gives|].
    intros prev c Hc HC. apply swp_fold. specialize (Hres prev c Hc HC). cbv beta in Hres.
    replace (intr_off _) with (resumed (Some prev) c) in Hres; [done|].
    rewrite Hl. destruct HC as [Hlc _]. destruct (resumed (Some prev) c) as [? [lv ? ?]].
    cbn in Hlc |- *. by rewrite Hlc.
Qed.
(** The checks for preemption. *)
Lemma swp_check_under_way {A} (k : unit → prog A) Q s q cur (a : aview) :
  under_way s a → sched_ok a q cur → iv_context (intr a) = false →
  (∀ s' a', under_way s' a' → wait s' (k ()) Q a') →
  wait s ((if preempts a q then thread_yield else mret ()) ≫= k) Q a ∧
  wait s ((if preempts a q then yield_or_return else mret ()) ≫= k) Q a.
Proof.
  intros Hg Hs Hctx Hk. destruct (preempts a q) eqn:Hpre; [|by split; apply Hk].
  assert (Hy : wait s (thread_yield ≫= k) Q a) by by eapply swp_yield_under_way.
  split; [done|]. apply swp_assoc, swp_act_bind, awp_intr_context. by rewrite Hctx.
Qed.

Lemma swp_preempt_under_way {A} (k : unit → prog A) Q s (a : aview) :
  under_way s a → (∀ s' a', under_way s' a' → wait s' (k ()) Q a') →
  wait s (preempt ≫= k) Q a.
Proof.
  intros Hg Hk. pose proof Hg as (_ & (_ & q & cur & Hs & Hctx & _)%between_sched & _).
  pose proof Hs as (Hc & Hp & Hr & _ & Hv). apply swp_fold.
  eapply apwp_preempt_bind; [done..|]. apply swp_unfold. by eapply swp_check_under_way.
Qed.

(** The donations received are given back. *)
Lemma under_way_refreshed s q cur ls W v ws p (a : aview) :
  under_way s a → can_wait sm q ws v cur a → thread_mlfqs a = false →
  PRI_MIN ≤ base_priority cur ≤ PRI_MAX → held_waiters ls W a →
  fresh (threads a) (running a) cur ls W p → under_way s (with_current (with_priority p cur) a).
Proof.
  intros (Hl & (Hrun & _) & Hu) (Hs & Hctx & Hw) Hm Hb Hh Hp.
  pose proof (fresh_priority_ok _ _ _ _ _ Hh Hb Hp) as Hpr.
  destruct Hh as (Hls & HW & Hwt).
  refine (conj Hl (conj (conj Hrun _) Hu)).
  exists q, (with_priority p cur), ls, W, v, ws. split_and!; try done; try apply Hb.
  - destruct Hw as (Hi & Hq & Hw). refine (conj _ (conj Hctx (conj Hi (conj _ Hw)))).
    { by apply (sched_ok_with_current a q cur). }
    intros Hnil. destruct (Hq Hnil) as (i & Hii & th & Hth & Hok). exists i. split; [done|].
    unfold valid. cbn. destruct (decide (i = running a)) as [->|Hne].
    + rewrite lookup_insert_eq. eexists. split; [done|]. by apply Hs.
    + rewrite lookup_insert_ne by done. by exists th.
  - split_and!; [done..|].
    intros l w Hin Hww. cbn. destruct (decide (w = running a)) as [->|Hne].
    + rewrite lookup_insert_eq. by eexists.
    + rewrite lookup_insert_ne by done. by eapply Hwt.
Qed.

Lemma swp_release_rest {A} (k : unit → prog A) Q l s (a : aview) :
  under_way s a →
  (∀ s' a', under_way s' a' → wait s' (k ()) Q (restored l a')) →
  wait s (release_rest t l ≫= k) Q a.
Proof.
  intros Hg Hk. pose proof Hg as (_ & (Hrun & q & cur & ls & W & v & ws & Hw & Hm & Hb & Hh) & _).
  pose proof Hh as (Hls & HW & Hwt). pose proof Hw as (((Ht & _) & _) & _).
  apply swp_assoc, swp_act_bind. rewrite <- Hrun at 1. eapply awp_refresh_fresh; [done..| |].
  { intros l' w Hl' Hin. destruct (Hwt l' w Hl' Hin) as (? & ? & _). eauto. }
  intros p Hp. fold (with_current (with_priority p cur) a).
  assert (Hg1 : under_way s (with_current (with_priority p cur) a)) by by eapply under_way_refreshed.
  generalize dependent (with_current (with_priority p cur) a). intros a1 Hg1.
  pose proof Hg1 as (_ & (_ & q1 & cur1 & Hs1 & Hctx1 & Hq1)%between_sched & _).
  pose proof Hs1 as (Hc1 & _ & _ & _ & Hv1). apply swp_assoc, swp_fold.
  eapply apwp_yield_if_necessary; [done..|]. apply swp_unfold.
  eapply swp_check_under_way; [done..|]. intros s2 a2 Hg2. by apply swp_act_bind, awp_intr_set_level, Hk.
Qed.

(** The signal is awaited. *)
Lemma untouched_gives s a n b : untouched s a → gives_way a n b → gives_way s n b.
Proof.
  intros (Hr & Hh & Hs & Hl) (H1 & H2 & H3 & H4 & H5 & H6).
  split_and!; [done|congruence..|by rewrite H5, Hl|done].
Qed.

Lemma untouched_signalled l s a x b : untouched s a → signalled l a x b → signalled l s x b.
Proof.
  intros (Hr & Hh & Hs & Hl) (c & v & Hc & (Hr' & Hh' & Hs' & Hl') & H). exists c, v.
  split; [done|]. split; [|done]. split_and!; congruence.
Qed.

Lemma between_waitable (a : aview) : between a → waitable sm (intr_off a).
Proof.
  intros (_ & q & cur & ls & W & v & ws & Hw & _)%(between_level INTR_OFF). split; [done|].
  by exists q, ws, v, cur.
Qed.

Lemma swp_down_under_way s (a : aview) :
  between a → untouched s a → wait s (sema_down sm) (signalled (iv_level (intr a))) a.
Proof.
  intros Hb Hu. apply (swp_start _ _ s a); [by eauto using untouched_gives|
    by eauto using untouched_signalled|].
  assert (Hc : ∀ c, c = a ∨ owed c → between c) by (intros c [->|[_ ?]]; done).
  apply swp_sema_down.
  - intros c q ws cur n b Hca Hw (Hn & Hne & Hr & Hf & Hul).
    pose proof (asleep_scheduled _ _ _ _ _ _ _ _ Hw eq_refl eq_refl Hne Hf) as Has.
    destruct Hf as [Hbe Hf].
    assert (Hsame : running b = running c ∧ holders b = holders c ∧ semas b = semas c)
      by (by rewrite Hbe).
    destruct Hsame as (H1 & H2 & H3). split_and!; [by rewrite H1|done..| |by left].
    rewrite Hf by done. cbn. by rewrite lookup_insert_ne.
  - intros c [Hl Hbc]. rewrite <- (off_intr_off c Hl). by apply between_waitable.
  - by apply between_waitable.
  - intros c v Hca Hw Hv Hp. exists c, v. split_and!; [by apply Hc|done..|].
    intros w ls q cur Hr. by eapply apwp_cond_reacquire.
Qed.
End waiting.

(** ** The release of the lock *)
Section releasing.
Context {E : Env} {EL : EnvLaws E}.

(** The state in which [cond_wait] releases the lock: the thread waits on the
    condition, with a semaphore of its own at zero. *)
Definition enlisted (cond : cond_ptr) (ts : list tptr) (a : aview) : aview :=
  let sm := sema_of_waiter (running a) in
  set_lists (<[cond_waiters cond := (waiter_elem <$> ts) ++ [waiter_elem (running a)]]>
      (<[sema_waiters sm := []]> (lists a)))
    (set_semas (<[sm := 0]> (semas a)) a).

Lemma enlisted_release_pre cond lock ls1 ls2 W ts q ws v cur (a : aview) :
  release_pre lock ls1 ls2 W q ws v cur a → unlinked (lists a) (waiter_elem (running a)) →
  release_pre lock ls1 ls2 W q ws v cur (enlisted cond ts a).
Proof.
  intros (Hh & Hm & Hctx & (Hs & Hv & Hrange & Hws & Hw) & Hb & (Hls & HW & Hwt)) Hu.
  refine (conj Hh (conj Hm (conj Hctx (conj (conj _ (conj _ (conj Hrange (conj _ Hw))))
    (conj Hb (conj _ (conj _ Hwt))))))).
  - apply (sched_ok_lists a); [done..| |].
    + intros l Hl. cbn. rewrite !lookup_insert_ne by (by intros <-). done.
    + pose proof Hs as (_ & _ & _ & Hself & _). cbn.
      apply unlinked_insert; [apply unlinked_insert; [done|apply not_elem_of_nil]|].
      intros [(? & ? & _)%list_elem_of_fmap|?%list_elem_of_singleton]%elem_of_app; done.
  - cbn. by rewrite lookup_insert_ne.
  - cbn. by rewrite !lookup_insert_ne.
  - cbn. by rewrite !lookup_insert_ne.
  - intros l Hl. cbn. rewrite !lookup_insert_ne by done. by apply HW.
Qed.

(** An up leaves other semaphores, other lists and the records' validity alone. *)
Lemma upped_rest (a : aview) sm v ws q a1 q1 :
  upped a sm v ws q a1 q1 →
  idle_thread a1 = idle_thread a ∧ holders a1 = holders a ∧
  (∀ sm', sm' ≠ sm → semas a1 !! sm' = semas a !! sm') ∧
  (∀ l, sched_list l = false → l ≠ sema_waiters sm → lists a1 !! l = lists a !! l) ∧
  ∀ u, valid a u → valid a1 u.
Proof.
  destruct ws as [|t ws]; simpl.
  - intros [-> _]. split_and!; try done. intros sm' Hne. cbn. by rewrite lookup_insert_ne.
  - intros (th & Ht & Ha1 & _ & _ & _ & Hl & _).
    split_and!; [by rewrite Ha1|by rewrite Ha1| |done|].
    + intros sm' Hne. rewrite Ha1. cbn. by rewrite lookup_insert_ne.
    + intros u (uth & Hu & Hok). unfold valid. rewrite Ha1. cbn.
      destruct (decide (u = t)) as [->|Hne]; [|rewrite lookup_insert_ne by done; by exists uth].
      rewrite lookup_insert_eq. eexists. split; [done|]. rewrite Ht in Hu. injection Hu as ->.
      unfold thread_ok. by destruct (unblocked_fields a t uth) as [-> _].
Qed.

Lemma upped_between cond lock ls1 ls2 W ts q ws v cur (a a1 : aview) q1 :
  let e := enlisted cond ts a in
  release_pre lock ls1 ls2 W q ws v cur e → Some (running a) ≠ idle_thread a →
  (∃ i, idle_thread a = Some i ∧ valid a i) →
  upped (released lock (ls1 ++ ls2) (intr_off e)) (sema_of_lock lock) v ws q a1 q1 →
  between (running a) a1 ∧ holders a1 !! lock = Some None ∧
  semas a1 !! sema_of_waiter (running a) = Some 0 ∧
  lists a1 !! cond_waiters cond = Some (waiter_elem <$> (ts ++ [running a])).
Proof.
  intros e Hpre Hi (i & Hii & Hv) Hup.
  assert (Hok : release_ok (running a) a1)
    by (eapply (upped_release_ok lock ls1 ls2 W _ _ _ _ (intr_off e)); [exact Hpre|exact Hup]).
  destruct (upped_rest _ _ _ _ _ _ _ Hup) as (H1 & H2 & H3 & H4 & H5).
  assert (Hsm : semas a1 !! sema_of_waiter (running a) = Some 0)
    by (rewrite H3 by done; apply lookup_insert_eq).
  split_and!; [|rewrite H2; apply lookup_insert_eq|done|].
  - destruct Hok as (Hrun & q2 & cur2 & ls & W2 & Hs & Hm & Hctx & Hb & Hh).
    split; [done|]. exists q2, cur2, ls, W2, 0, []. split_and!; try done; try apply Hb.
    refine (conj Hs (conj Hctx (conj _ (conj _ (conj Hsm (conj _ _)))))).
    + rewrite Hrun, H1. exact Hi.
    + intros _. exists i. split; [by rewrite H1|]. apply H5. exact Hv.
    + done.
    + rewrite H4 by done. cbn. rewrite !lookup_insert_ne by done. apply lookup_insert_eq.
  - rewrite H4 by done. cbn. rewrite lookup_insert_ne by done.
    by rewrite lookup_insert_eq, fmap_app.
Qed.
End releasing.

(** The wait proper: what [cond_wait] does from the check for preemption in the
    release of the lock until it has consumed a signal. *)
Definition wait_rest `{E : Env} (t : tptr) (l : intr_level) : prog unit :=
  preempt;; release_rest t l;; sema_down (sema_of_waiter t).

Lemma wait_rest_bind `{E : Env} {A} t l (f : unit → prog A) :
  wait_rest t l ≫= f =
  preempt ≫= λ _, release_rest t l ≫= λ _, sema_down (sema_of_waiter t) ≫= f.
Proof.
  unfold wait_rest, mbind, prog_mbind. rewrite prog_bind_assoc. f_equal.
  apply functional_extensionality. intros _. by rewrite prog_bind_assoc.
Qed.

(** * Properties *)
Section properties.
Context {E : Env} {EL : EnvLaws E}.

Lemma swp_wait_rest cond lock t l (a : aview) :
  iv_level (intr a) = INTR_OFF → between t a →
  swp (gives_way cond t) (owed t) a (wait_rest t l) (signalled lock t l) a.
Proof.
  intros Hl Hb. apply swp_preempt_under_way; [by split_and!|]. intros s1 a1 Hg1.
  apply swp_release_rest; [done|]. intros s2 a2 (Hl2 & Hb2 & Hu2).
  pose proof (swp_down_under_way cond lock t s2 (restored l a2)) as H. apply H; [|done].
  by apply between_level.
Qed.

(** C30: [cond_wait] puts the caller at the back of the condition's waiters, with a
    new semaphore of value zero, and releases the lock, waking its first waiter.
    It gives up the processor, for the first time before it has returned, only
    to a ready thread of higher priority or asleep on its semaphore, with the
    lock released; however often it has to, if the other threads leave it each
    time in a state in which it could wait for its semaphore and recompute its
    priority, it does not fault, and gets to [lock_acquire] only having consumed
    an up of its semaphore, at the interrupt level it was called with.  If it
    then finds the lock free it holds it when it returns, after the check for
    preemption.  (If another thread holds it, [lock_acquire] is going to link the
    thread into two lists; nothing is claimed about that.) *)
Theorem cond_wait_spec cond lock W ts ls1 ls2 ws q v cur (a : aview) :
  let t := running a in
  release_pre lock ls1 ls2 W q ws v cur a →
  Some t ≠ idle_thread a → (∃ i, idle_thread a = Some i ∧ valid a i) →
  lists a !! cond_waiters cond = Some (waiter_elem <$> ts) →
  unlinked (lists a) (waiter_elem t) →
  apwp (cond_wait cond lock) (λ o b, ∃ a1 q1 n k,
    upped (released lock (ls1 ++ ls2) (intr_off (enlisted cond ts a))) (sema_of_lock lock) v ws q a1 q1 ∧
    o = OSwitch n (λ prev, k prev ≫= λ _, lock_acquire lock;; check_preemption) ∧
    gives_way cond t a1 n b ∧ holders b !! lock = Some None ∧
    semas b !! sema_of_waiter t = Some 0 ∧
    lists b !! cond_waiters cond = Some (waiter_elem <$> (ts ++ [t])) ∧
    ∀ prev c, can_resume prev c → owed t (resumed (Some prev) c) →
      swp (gives_way cond t) (owed t) (resumed (Some prev) c) (k prev)
        (signalled lock t (iv_level (intr a))) c) a.
Proof.
  intros t Hpre Hi Hidle Hts Hu. pose proof (enlisted_release_pre cond _ _ _ _ ts _ _ _ _ _ Hpre Hu) as Hpre1.
  pose proof Hpre as (Hh & _ & Hctx & ((Hcur & _) & _) & _).
  apply apwp_Act. unfold running_thread. kstep.
  apply apwp_Act, awp_assert_not_intr_context; [done|].
  apply apwp_Act. eapply awp_lock_held; [done..|]. rewrite bool_decide_true by done.
  apply apwp_Act, awp_ASSERT; [done|]. apply apwp_Act, awp_sema_init.
  apply apwp_Act. eapply (awp_list_push_back _ (waiter_elem <$> ts)).
  { cbn. by rewrite lookup_insert_ne. }
  { apply unlinked_insert; [exact Hu|apply not_elem_of_nil]. }
  fold (enlisted cond ts a). eapply apwp_lock_release_start; [exact Hpre1|]. intros Hcu.
  eapply apwp_sema_up_start; [exact Hcu|]. intros a1 q1 Hup _. rewrite <- wait_rest_bind.
  destruct (upped_between _ _ _ _ _ _ _ _ _ _ _ _ _ Hpre1 Hi Hidle Hup) as (Hb & Hfree & Hsm & Hcw).
  assert (Hl : iv_level (intr a1) = INTR_OFF) by by rewrite (upped_intr _ _ _ _ _ _ _ Hup).
  apply apwp_bind. eapply apwp_mono;
    [exact (swp_unfold _ _ _ _ _ _ (swp_wait_rest cond lock t (iv_level (intr a)) a1 Hl Hb))|].
  intros [x|n k|e] b; simpl; [|intros [Hg Hk]|done].
  - intros (c & z & _ & (_ & _ & Hc & _) & Hz & Hp & _). rewrite Hc in Hz.
    fold t in Hsm. rewrite Hsm in Hz. injection Hz as <-. lia.
  - pose proof Hg as (_ & _ & Hhb & Hsb & Hlb & _). exists a1, q1, n, k.
    split_and!; [done|done|done|by rewrite Hhb|by rewrite Hsb|by rewrite Hlb|exact Hk].
Qed.
End properties.

(** * Witness *)
Section witness.
#[local] Existing Instances concrete_env concrete_env_laws.

(** Thread 1 holds lock 1 and has been donated the priority of thread 2, which
    waits for the lock; thread 3 (priority 20) is ready, 4 and 5 wait on the
    condition. *)
Definition wit_donated : thread := with_priority 55 (sample_thread 1 THREAD_RUNNING 25).

Definition wit_waiter : kstate :=
  set_semas (<[sema_of_lock (lock_at 1) := 0]> (semas wit_cond))
  (set_threads (<[1%positive := wit_donated]>
    (<[2%positive := sample_thread 2 THREAD_BLOCKED 55]> (threads wit_cond)))
  (set_lists (<[locks_held 1 := [lock_elem (lock_at 1)]]> (<[lock_waiters (lock_at 1) := []]>
     (<[sema_waiters (sema_of_lock (lock_at 1)) := elems [2%positive]]>
        (lists wit_cond : lview)))) wit_cond)).

Lemma wit_release_pre :
  release_pre (lock_at 1) [] [] (λ _, []) [3]%positive [2]%positive 0 wit_donated (obs wit_waiter).
Proof.
  refine (conj eq_refl (conj eq_refl (conj eq_refl (conj (conj _ (conj eq_refl (conj _
    (conj eq_refl _)))) (conj _ (conj eq_refl (conj _ _))))))).
  - sched_by_test.
  - by vm_compute.
  - exists (sample_thread 2 THREAD_BLOCKED 55). by split_and!.
  - done.
  - by intros l ->%list_elem_of_singleton.
  - by intros l w _ ?%elem_of_nil.
Defined.

(** The release makes thread 2 ready and takes its priority from thread 1, which
    gives way to it before it sleeps. *)
Lemma cond_wait_spec_witness :
  ends_at (cond_wait 1 (lock_at 1)) (λ o b, ∃ n k, o = OSwitch n k ∧
    holders b !! lock_at 1 = Some None ∧
    lists b !! cond_waiters 1 = Some (waiter_elem <$> [4; 5; 1]%positive)) wit_waiter.
Proof.
  eapply ends_mono.
  - apply apwp_ends, (cond_wait_spec 1 (lock_at 1) _ [4; 5]%positive _ _ _ _ _ _ _ wit_release_pre);
      [done| |done|by_test]. exists 9%positive. split; [done|]. by eexists.
  - intros o b (a1 & q1 & n & k & _ & -> & _ & Hh & _ & Hl & _). eexists n, _. by split_and!.
Defined.
End witness.
