(* ===== verification/Lifecycle.v ===== *)
(** threads/thread.c: the life of a thread, from [thread_create] to
    [thread_exit]; starting the thread system; the idle thread; and the
    semaphore self-test of synch.c, which creates a thread.

    The stack of a new thread holds three frames.  Of these the model keeps the
    arguments of [kernel_thread]; the other two belong to switch.h, whose frame
    sizes are parameters.  The functions a thread may run besides those of
    src/ are a parameter too. *)
From S2P Require Import Prelude Env Kernel Thread Mlfqs Ready.
From S2P Require Import Sched Donation Synch SemaSpec LockSpec SampleSched.

(** threads/switch.h and threads/vaddr.h. *)
Class SwitchFrames : Type := {
  sizeof_switch_entry_frame : Z;
  sizeof_switch_threads_frame : Z
}.

Definition PGSIZE : Z := 4096.

(** [struct kernel_thread_frame]: three words. *)
Definition sizeof_kernel_thread_frame : Z := 12.

(** [memset (t, 0, sizeof *t)]: [THREAD_RUNNING] is the first status. *)
Definition zero_thread : thread :=
  Thread 0 0 THREAD_RUNNING "" 0 0 0 0 None 0 0 0 None.

Definition with_name (x : string) (t : thread) : thread :=
  Thread (wakeup_tick t) (tid t) (status t) x (stack t) (priority t) (base_priority t)
    (effective_priority t) (waiting_lock t) (nice t) (recent_cpu t) (magic t) (kframe t).
Definition with_magic (x : Z) (t : thread) : thread :=
  Thread (wakeup_tick t) (tid t) (status t) (name t) (stack t) (priority t) (base_priority t)
    (effective_priority t) (waiting_lock t) (nice t) (recent_cpu t) x (kframe t).

Section code.
Context {E : Env} {F : SwitchFrames} (user_code : positive → aux_ptr → prog unit).

Definition k_zero_thread (t : tptr) : K unit :=
  modify (λ s, set_threads (<[t := zero_thread]> (threads s)) s).

(** [strlcpy (t->name, name, sizeof t->name)], with [char name[16]]. *)
Definition strlcpy_name (name : string) : string := String.substring 0 15 name.

Definition init_thread (t : tptr) (name : string) (prio : Z) : K unit :=
  ASSERT ((PRI_MIN <=? prio) && (prio <=? PRI_MAX))
    "init_thread: PRI_MIN <= priority && priority <= PRI_MAX";;
  k_zero_thread t;;
  store t (with_status THREAD_BLOCKED);;
  store t (with_name (strlcpy_name name));;
  store t (with_stack PGSIZE);;
  store t (with_priority prio);;
  store t (with_base_priority prio);;
  store t (with_waiting_lock None);;
  k_list_init (locks_held t);;
  store t (with_magic THREAD_MAGIC);;
  m ← get_thread_mlfqs;
  (if (m : bool) then
     initial ← get_initial_thread;
     (if bool_decide (Some t = initial) then
        store t (with_nice NICE_DEFAULT);;
        store t (with_recent_cpu RECENT_CPU_DEFAULT)
      else
        parent ← thread_current;
        pth ← deref parent;
        store t (with_nice (nice pth));;
        store t (with_recent_cpu (recent_cpu pth)));;
     mlfqs_update_priority t
   else mret ());;
  old_level ← k_intr_disable;
  k_list_push_back all_list (thread_allelem t);;
  k_intr_set_level old_level.

Definition alloc_frame (t : tptr) (size : Z) : K Z :=
  b ← is_thread (Some t);
  ASSERT b "alloc_frame: is_thread (t)";;
  ASSERT (size mod 4 =? 0) "alloc_frame: size % sizeof (uint32_t) == 0";;
  th ← deref t;
  store t (with_stack (stack th - size));;
  mret (stack th - size).

Definition allocate_tid : prog Z :=
  lock_acquire tid_lock;;
  tid ← act get_next_tid;
  act (put_next_tid (int32 (tid + 1)));;
  lock_release tid_lock;;
  mret tid.

Definition thread_create (name : string) (prio : Z) (function : fn_ptr) (aux : aux_ptr)
    : prog Z :=
  page ← act k_palloc_get_page;
  match page with
  | None => mret TID_ERROR
  | Some t =>
      act (init_thread t name prio);;
      act (store t (with_base_priority prio));;
      act (store t (with_effective_priority prio));;
      tid ← allocate_tid;
      act (store t (with_tid tid));;
      act (alloc_frame t sizeof_kernel_thread_frame);;
      act (store t (with_kframe (Some (KFrame function aux))));;
      act (alloc_frame t sizeof_switch_entry_frame);;
      act (alloc_frame t sizeof_switch_threads_frame);;
      act (thread_unblock t);;
      preempt;;
      mret tid
  end.

Definition thread_init : prog unit :=
  act (assert_intr_off "thread_init: intr_get_level () == INTR_OFF");;
  act (lock_init tid_lock);;
  act (k_list_init ready_list);;
  act (k_list_init all_list);;
  m ← act get_thread_mlfqs;
  act (if (m : bool) then mlfqs_init else mret ());;
  initial ← act running_thread;
  act (put_initial_thread (Some initial));;
  act (init_thread initial "main" PRI_DEFAULT);;
  act (store initial (with_status THREAD_RUNNING));;
  tid ← allocate_tid;
  act (store initial (with_tid tid)).

Definition thread_start : prog unit :=
  act (sema_init idle_started 0);;
  thread_create "idle" PRI_MIN fn_idle (aux_sema idle_started);;
  act k_intr_enable;;
  sema_down idle_started.

(** One round of the loop of [idle]; [sti; hlt] lets the next interrupt in and
    waits for it. *)
Definition idle_round : prog unit :=
  act k_intr_disable;;
  thread_block;;
  act (k_intr_set_level INTR_ON).

(** The thread that runs when no other can. *)
Definition idle (aux : aux_ptr) : prog unit :=
  match aux with
  | aux_sema idle_started_ =>
      cur ← act thread_current;
      act (put_idle_thread (Some cur));;
      sema_up idle_started_;;
      loop (λ _ : unit, idle_round;; mret (inl ())) ()
  | _ => act (fail EBadPtr)
  end.

Definition thread_exit : prog unit :=
  act (assert_not_intr_context "thread_exit: !intr_context ()");;
  act k_intr_disable;;
  cur ← act thread_current;
  act (k_list_remove (thread_allelem cur));;
  cur ← act thread_current;
  act (store cur (with_status THREAD_DYING));;
  schedule;;
  act (fail (EPanic "thread_exit: executed an unreachable statement")).

(** [n] rounds of a loop body. *)
Fixpoint times (n : nat) (body : prog unit) : prog unit :=
  match n with O => mret () | S n => body;; times n body end.

(** The array [struct semaphore sema[2]] is [sema_at n] and the next one. *)
Definition sema_test_helper (aux : aux_ptr) : prog unit :=
  match aux with
  | aux_sema (sema_at n) =>
      times 10 (sema_down (sema_at n);; sema_up (sema_at (Pos.succ n)))
  | _ => act (fail EBadPtr)
  end.

Definition sema_self_test (n : positive) : prog unit :=
  act (sema_init (sema_at n) 0);;
  act (sema_init (sema_at (Pos.succ n)) 0);;
  thread_create "sema-test" PRI_DEFAULT fn_sema_test_helper (aux_sema (sema_at n));;
  times 10 (sema_up (sema_at n);; sema_down (sema_at (Pos.succ n))).

(** [function (aux)] *)
Definition call (function : fn_ptr) (aux : aux_ptr) : prog unit :=
  match function with
  | fn_idle => idle aux
  | fn_sema_test_helper => sema_test_helper aux
  | fn_user n => user_code n aux
  end.

Definition kernel_thread (function : fn_ptr) (aux : aux_ptr) : prog unit :=
  act k_intr_enable;;
  call function aux;;
  thread_exit.
End code.

(** * What the pieces do *)

(** The thread [init_thread] makes. *)
Definition born (mlfqs : bool) (idle : option tptr) (t : tptr) (name : string) (prio n rc : Z)
    : thread :=
  let th := Thread 0 0 THREAD_BLOCKED (strlcpy_name name) PGSIZE prio prio 0 None n rc
              THREAD_MAGIC None in
  if mlfqs && bool_decide (Some t ≠ idle) then with_priority (mlfqs_priority_raw th) th else th.

(** The niceness and recent_cpu it inherits under the feedback scheduler. *)
Definition inherits (a : aview) (t : tptr) (n rc : Z) : Prop :=
  if thread_mlfqs a then
    if bool_decide (Some t = initial_thread a) then n = NICE_DEFAULT ∧ rc = RECENT_CPU_DEFAULT
    else t ≠ running a ∧ ∃ cur, current_ok a cur ∧ n = nice cur ∧ rc = recent_cpu cur
  else n = 0 ∧ rc = 0.

Section awp_lifecycle.
Context {E : Env} {EL : EnvLaws E} {F : SwitchFrames}.

Lemma awp_store_at t f th ts Q (a : aview) :
  threads a = <[t := th]> ts → Q () (set_threads (<[t := f th]> ts) a) → awp (store t f) Q a.
Proof.
  intros Ha HQ. eapply awp_store; [rewrite Ha; apply lookup_insert_eq|].
  by rewrite Ha, insert_insert_eq.
Qed.

Lemma awp_init_inherit m t th ts n rc Q (a : aview) :
  thread_mlfqs a = m → threads a = <[t := th]> ts → inherits (set_threads ts a) t n rc → nice th = 0 → recent_cpu th = 0 →
  Q () (set_threads (<[t := 
    let th' := with_recent_cpu rc (with_nice n th) in
    if thread_mlfqs a && bool_decide (Some t ≠ idle_thread a)
    then with_priority (mlfqs_priority_raw th') th' else th']> ts) a) →
  awp (if m then
       initial ← get_initial_thread;
       (if bool_decide (Some t = initial) then
          store t (with_nice NICE_DEFAULT);;
          store t (with_recent_cpu RECENT_CPU_DEFAULT)
        else
          parent ← thread_current;
          pth ← deref parent;
          store t (with_nice (nice pth));;
          store t (with_recent_cpu (recent_cpu pth)));;
       mlfqs_update_priority t
     else mret ()) Q a.
Proof.
  intros Hm Ha Hin Hn0 Hr0 HQ. unfold inherits in Hin. cbn in Hin. rewrite Hm in *.
  destruct m.
  2:{ apply awp_ret. destruct Hin as [-> ->]. cbn in HQ.
      replace (with_recent_cpu 0 (with_nice 0 th)) with th in HQ
        by (destruct th; simpl in *; by subst).
      rewrite <- Ha in HQ. by destruct a. }
  assert (Hupd : awp (mlfqs_update_priority t) Q
    (set_threads (<[t := with_recent_cpu rc (with_nice n th)]> ts) a)).
  { eapply awp_mlfqs_update_priority; [apply lookup_insert_eq|]. cbn [idle_thread set_threads].
    cbn [andb] in HQ. destruct (decide (Some t = idle_thread a)) as [Hi|Hi].
    - rewrite bool_decide_true by done. by rewrite bool_decide_false in HQ by tauto.
    - rewrite bool_decide_false by done. rewrite bool_decide_true in HQ by done.
      ksimpl. by rewrite insert_insert_eq. }
  kstep. kstep. kstep. destruct (bool_decide (Some t = initial_thread a)).
  - destruct Hin as [-> ->]. kstep. eapply awp_store_at; [done|]. by eapply awp_store_at.
  - destruct Hin as (Hne & cur & (Hc & Hok & Hst) & -> & ->). cbn in Hc, Hne. kstep.
    eapply (awp_thread_current cur).
    { split_and!; [|done..]. by rewrite Ha, lookup_insert_ne. }
    kstep. eapply awp_deref; [by rewrite Ha, lookup_insert_ne|]. kstep.
    eapply awp_store_at; [done|]. by eapply awp_store_at.
Qed.

Lemma awp_init_thread t name prio n rc all Q (a : aview) :
  PRI_MIN ≤ prio ≤ PRI_MAX → inherits a t n rc →
  lists a !! all_list = Some (thread_allelem <$> all) →
  unlinked (lists a) (thread_allelem t) →
  Q () (set_lists (<[all_list := thread_allelem <$> (all ++ [t])]>
          (<[locks_held t := []]> (lists a)))
       (set_threads (<[t := born (thread_mlfqs a) (idle_thread a) t name prio n rc]> (threads a)) a)) →
  awp (init_thread t name prio) Q a.
Proof.
  intros Hp Hin Hall Hu HQ. unfold init_thread. kstep.
  apply awp_ASSERT; [apply andb_true_iff; lia|]. kstep.
  apply (awp_modify _ (set_threads (<[t := zero_thread]> (threads a)) a)); [by intros s <-|].
  do 6 (kstep; eapply awp_store_at; [done|]). kstep. kstep. kstep.
  eapply awp_store_at; [done|]. do 3 kstep.
  eapply (awp_init_inherit _ t _ (threads a) n rc); [done|done|exact Hin|done|done|].
  kstep. kstep. kstep. eapply (awp_list_push_back _ (thread_allelem <$> all)).
  - ksimpl. by rewrite lookup_insert_ne.
  - ksimpl. apply unlinked_insert; [done|]. apply not_elem_of_nil.
  - kstep. rewrite fmap_app in HQ. unfold born in HQ.
    replace (set_intr _ _) with (set_lists (<[all_list := (thread_allelem <$> all) ++ [thread_allelem t]]>
          (<[locks_held t := []]> (lists a)))
       (set_threads (<[t := born (thread_mlfqs a) (idle_thread a) t name prio n rc]> (threads a)) a));
      [exact HQ|]. unfold born. by destruct a as [? []].
Qed.

(** The tid lock is free and nobody is in a hurry: the caller holds no lock, its
    priority is its base priority, and no ready thread has a higher one. *)
Definition tid_ok (q : list tptr) (cur : thread) (a : aview) : Prop :=
  sched_ok a q cur ∧ lock_free tid_lock 1 [] cur a ∧ thread_mlfqs a = false ∧
  preempts a q = false ∧ base_priority cur = priority cur ∧
  lists a !! lock_waiters tid_lock = Some [] ∧
  lists a !! sema_waiters (sema_of_lock tid_lock) = Some [].

Lemma locked_released l (a : aview) :
  holders a !! l = Some None → semas a !! sema_of_lock l = Some 1 →
  lists a !! locks_held (running a) = Some [] →
  set_semas (<[sema_of_lock l := 0 + 1]> (semas (locked l 1 [] a))) (released l [] (locked l 1 [] a))
  = a.
Proof.
  intros Hh Hv Hls. unfold released, locked. cbn. rewrite !insert_insert_eq.
  rewrite !insert_id by done. by destruct a.
Qed.

(** The tid lock is free; whatever the priorities, it can be taken and released. *)
Definition tid_free (q : list tptr) (cur : thread) (a : aview) : Prop :=
  sched_ok a q cur ∧ lock_free tid_lock 1 [] cur a ∧ thread_mlfqs a = false ∧
  PRI_MIN ≤ base_priority cur ≤ PRI_MAX ∧
  lists a !! lock_waiters tid_lock = Some [] ∧
  lists a !! sema_waiters (sema_of_lock tid_lock) = Some [].

Lemma tid_ok_free q cur (a : aview) : tid_ok q cur a → tid_free q cur a.
Proof.
  intros (Hs & Hf & Hm & _ & Hb & HW & Hws). pose proof Hs as (_ & Hp & _).
  exact (conj Hs (conj Hf (conj Hm (conj (eq_ind_r (λ p, PRI_MIN ≤ p ≤ PRI_MAX) Hp Hb) (conj HW Hws))))).
Qed.

Lemma tid_release_pre q cur (a : aview) :
  tid_free q cur a →
  release_pre tid_lock [] [] (λ _, []) q [] 0 cur (locked tid_lock 1 [] a).
Proof.
  intros ((Hc & Hp & Hr & Hu & Hv) & (_ & Hctx & Hh & Hsv & _ & Hls & Hul) & Hm & Hb & HW & Hws).
  unfold release_pre, can_up, held_waiters. split_and!; try done.
  - cbn. apply lookup_insert_eq.
  - unfold sched_ok. split_and!; [done..| | |done].
    + destruct Hr as [[_ Hr]|[? _]]; [|congruence]. left. split; [done|]. cbn.
      by rewrite lookup_insert_ne.
    + cbn. apply unlinked_insert; [done|]. by intros ?%list_elem_of_singleton.
  - cbn. apply lookup_insert_eq.
  - cbn. by rewrite lookup_insert_ne.
  - apply Hb.
  - apply Hb.
  - cbn. apply lookup_insert_eq.
  - intros l ->%list_elem_of_singleton. cbn. by rewrite lookup_insert_ne.
  - by intros l w _ ?%elem_of_nil.
Qed.

(** [allocate_tid], up to the check for preemption of [sema_up]. *)
Lemma apwp_allocate_tid_start {A} (k : Z → prog A) q cur Q (a : aview) :
  tid_free q cur a →
  (let b := intr_off (set_next_tid (int32 (next_tid a + 1)) a) in
   sched_ok b q cur →
   apwp (preempt ≫= λ _, release_rest (running a) (iv_level (intr a)) ≫= λ _, k (next_tid a)) Q b) →
  apwp (allocate_tid ≫= k) Q a.
Proof.
  intros Hok HQ. pose proof Hok as (Hs & Hf & Hm & Hb & HW & Hws).
  unfold allocate_tid. apply apwp_assoc, apwp_bind. eapply apwp_lock_acquire_free; [exact Hf|].
  apply apwp_Act, awp_get_next_tid. apply apwp_Act, awp_put_next_tid. apply apwp_assoc.
  set (x := int32 _) in *. set (a1 := set_next_tid x a) in *. change (set_next_tid _ _) with (locked tid_lock 1 [] a1).
  eapply (apwp_lock_release_start _ tid_lock [] [] (λ _, []) q [] 0 cur);
    [by apply (tid_release_pre q cur a1)|]. intros Hcu.
  eapply apwp_sema_up_start; [exact Hcu|]. intros b q1 Hup Hsb. destruct Hup as [-> ->].
  assert (Heq : set_semas (<[sema_of_lock tid_lock := 0 + 1]> (semas (released tid_lock ([] ++ [])
      (intr_off (locked tid_lock 1 [] a1))))) (released tid_lock ([] ++ []) (intr_off (locked tid_lock 1 [] a1)))
    = intr_off a1).
  { destruct Hf as (_ & _ & Hh & Hsv & _ & Hls & _). by apply (locked_released tid_lock (intr_off a1)). }
  rewrite Heq in Hsb |- *. exact (HQ Hsb).
Qed.

Lemma apwp_allocate_tid {A} (k : Z → prog A) q cur Q (a : aview) :
  tid_ok q cur a → apwp (k (next_tid a)) Q (set_next_tid (int32 (next_tid a + 1)) a) →
  apwp (allocate_tid ≫= k) Q a.
Proof.
  intros Hok HQ. pose proof Hok as (Hs & Hf & Hm & Hq & Hb & HW & Hws).
  unfold allocate_tid. apply apwp_assoc, apwp_bind. eapply apwp_lock_acquire_free; [exact Hf|].
  set (a1 := locked tid_lock 1 [] a). apply apwp_Act, awp_get_next_tid.
  apply apwp_Act, awp_put_next_tid. apply apwp_assoc.
  set (x := int32 _). 
  eapply (apwp_lock_release_quiet _ tid_lock (λ _, []) q 0 cur).
  - pose proof (tid_release_pre q cur (set_next_tid x a)) as Hpre. apply Hpre. exact (tid_ok_free _ _ _ Hok).
  - exact Hq.
  - done.
  - destruct Hf as (_ & _ & Hh & Hsv & _ & Hls & _).
    pose proof (locked_released tid_lock (set_next_tid x a) Hh Hsv Hls) as Heq.
    unfold a1. match goal with |- apwp _ _ ?s => change s with
      (set_semas (<[sema_of_lock tid_lock := 0 + 1]> (semas (locked tid_lock 1 [] (set_next_tid x a))))
        (released tid_lock [] (locked tid_lock 1 [] (set_next_tid x a)))) end.
    rewrite Heq. exact HQ.
Qed.

(** A page that is not in use holds no thread, and no list links into it. *)
Definition pages_clean (a : aview) : Prop :=
  ∀ t, t ∉ pages a → threads a !! t = None ∧ unlinked (lists a) (thread_elem t) ∧
    unlinked (lists a) (thread_allelem t).

(** The state in which [init_thread] has made a thread of page [t]. *)
Definition with_born (t : tptr) (th : thread) (all : list tptr) (a : aview) : aview :=
  set_lists (<[all_list := thread_allelem <$> (all ++ [t])]>
      (<[locks_held t := []]> (lists a)))
    (set_threads (<[t := th]> (threads a)) (set_pages ({[t]} ∪ pages a) a)).

Lemma unlinked_born t th all (a : aview) e :
  unlinked (lists a) e → (∀ u, e ≠ thread_allelem u) → unlinked (lists (with_born t th all a)) e.
Proof.
  intros Hu He. cbn. apply unlinked_insert; [|intros (u & -> & _)%list_elem_of_fmap; by eapply He].
  apply unlinked_insert; [done|]. apply not_elem_of_nil.
Qed.

Lemma tid_ok_born q cur t th all (a : aview) :
  tid_ok q cur a → pages_clean a → t ∉ pages a → tid_ok q cur (with_born t th all a).
Proof.
  intros (Hs & Hf & Hm & Hq & Hb & HW & Hws) Hcl Ht. destruct (Hcl t Ht) as (Hth & Hel & _).
  destruct Hs as ((Hc & Hok & Hst) & Hp & Hr & Hu & Hv).
  destruct Hf as (_ & Hctx & Hh & Hsv & Hrange & Hls & Hul).
  assert (Hne : t ≠ running a) by (intros ->; congruence).
  assert (Hpri : ∀ u, valid a u →
    thread_priority (threads (with_born t th all a)) u = thread_priority (threads a) u).
  { intros u (uth & Hu' & _). unfold thread_priority. cbn. rewrite lookup_insert_ne; [done|].
    intros ->. congruence. }
  assert (Hcur : current_ok (with_born t th all a) cur).
  { split_and!; [|done..]. cbn. by rewrite lookup_insert_ne. }
  assert (Hself : valid a (running a)) by by exists cur.
  assert (Hr' : ready (with_born t th all a) q).
  { destruct Hr as [[_ Hr]|[? _]]; [|congruence]. left. split; [done|]. cbn.
    by rewrite !lookup_insert_ne. }
  unfold tid_ok, lock_free. split_and!; try done; try apply Hrange; cbn.
  - refine (conj Hcur (conj Hp (conj Hr' (conj _ _)))); [by apply unlinked_born|].
    intros u Hu'. destruct (Hv u Hu') as (uth & Huth & ?). exists uth. split; [|done]. cbn.
    rewrite lookup_insert_ne; [done|]. intros ->. congruence.
  - rewrite !lookup_insert_ne; [done|congruence|done].
  - by apply (unlinked_born t th all a).
  - destruct q as [|u q]; [done|]. unfold preempts in *. cbn in Hpri. cbn.
    rewrite !Hpri; [done|done|]. apply Hv. by left.
  - by rewrite !lookup_insert_ne.
  - by rewrite !lookup_insert_ne.
Qed.

(** The thread that [thread_create] makes ready. *)
Definition created_stack : Z :=
  PGSIZE - sizeof_kernel_thread_frame - sizeof_switch_entry_frame - sizeof_switch_threads_frame.

Definition created (name : string) (prio : Z) (function : fn_ptr) (aux : aux_ptr) (id : Z) : thread :=
  Thread 0 id THREAD_READY (strlcpy_name name) created_stack prio prio prio None 0 0
    THREAD_MAGIC (Some (KFrame function aux)).

Definition frames_aligned : Prop :=
  sizeof_switch_entry_frame mod 4 = 0 ∧ sizeof_switch_threads_frame mod 4 = 0.

Lemma awp_alloc_frame t size th ts Q (a : aview) :
  threads a = <[t := th]> ts → thread_ok th → size mod 4 = 0 →
  Q (stack th - size) (set_threads (<[t := with_stack (stack th - size) th]> ts) a) →
  awp (alloc_frame t size) Q a.
Proof.
  intros Ha Hok Hs HQ. unfold alloc_frame. kstep.
  eapply awp_is_thread; [rewrite Ha; apply lookup_insert_eq|done|]. kstep. kstep. kstep.
  apply awp_ASSERT; [by apply Z.eqb_eq|]. kstep.
  eapply awp_deref; [rewrite Ha; apply lookup_insert_eq|]. kstep.
  eapply awp_store_at; [done|]. by kstep.
Qed.
End awp_lifecycle.

(** * Properties *)
Section properties.
Context {E : Env} {EL : EnvLaws E} {F : SwitchFrames}.

Lemma apwp_created {A} (b : aview) t th q cur (x : A) Q :
  threads b !! t = Some th → thread_ok th → status th = THREAD_BLOCKED → priority_ok th →
  sched_ok b q cur ∧ thread_mlfqs b = false → unlinked (lists b) (thread_elem t) →
  (∀ a1 o a', threads a1 = <[t := with_status THREAD_READY th]> (threads b) →
     sched_frame (set_threads (<[t := with_status THREAD_READY th]> (threads b)) b) a1 →
     sched_ok a1 (enqueue (threads a1) t q) cur →
     (∀ e, unlinked (lists b) e → e ≠ thread_elem t → unlinked (lists a1) e) →
     checked anything a1 (enqueue (threads a1) t q) (λ c o c', o = ODone x ∧ c' = c) o a' →
     Q o a') →
  apwp (act (thread_unblock t);; preempt;; mret x) Q b.
Proof.
  intros Ht Hok Hst Hp [(Hc & Hpc & Hr & Hself & Hv) Hm] Hu HQ. apply apwp_Act.
  eapply (awp_thread_unblock b t th q); [done..|]. intros b1 a1 -> Hr1 [Hf1 Hu1].
  assert (Hun : unblocked b t th = with_status THREAD_READY th)
    by (unfold unblocked, reprioritised; by rewrite Hm).
  rewrite Hun in *. pose proof (proj1 Hf1) as Ha1. pose proof Hc as (Hcur & Hcok & Hcst).
  assert (Hne : t ≠ running b) by (intros ->; congruence).
  assert (Hts : threads a1 = <[t := with_status THREAD_READY th]> (threads b)) by by rewrite Ha1.
  assert (Hrun : running a1 = running b) by by rewrite Ha1.
  assert (Hs1 : sched_ok a1 (enqueue (threads a1) t q) cur).
  { refine (conj _ (conj Hpc (conj _ (conj _ _)))).
    - split_and!; [|done..]. by rewrite Hts, Hrun, lookup_insert_ne.
    - by rewrite Hts.
    - rewrite Hrun. apply Hu1; [exact Hself|congruence].
    - intros u Hu'. unfold valid. rewrite Hts. destruct (decide (u = t)) as [->|Hut].
      + rewrite lookup_insert_eq. by eexists.
      + rewrite lookup_insert_ne by done. apply elem_of_enqueue in Hu' as [?|?]; [done|by apply Hv]. }
  pose proof Hs1 as (Hc1 & _ & Hr1' & _ & Hv1).
  eapply apwp_mono; [|intros o a'; eapply HQ; [done..|exact Hu1]].
  eapply (apwp_preempt_bind (λ _, Ret x)); [done..|].
  eapply (apwp_checked_bind (λ _, Ret x)); [done..|]. intros c ccur _ _ _. by apply apwp_ret.
Qed.

Lemma thread_creates name prio function aux q cur all (a : aview) :
  tid_ok q cur a → pages_clean a → frames_aligned → PRI_MIN ≤ prio ≤ PRI_MAX →
  lists a !! all_list = Some (thread_allelem <$> all) →
  apwp (thread_create name prio function aux) (λ o a',
    (o = ODone TID_ERROR ∧ a' = a) ∨
    ∃ t a1, t ∉ pages a ∧
      (let th := created name prio function aux (next_tid a) in
       threads a1 = <[t := th]> (threads a) ∧
       sched_frame (set_next_tid (int32 (next_tid a + 1)) (with_born t th all a)) a1) ∧
      sched_ok a1 (enqueue (threads a1) t q) cur ∧
      (∀ e th, unlinked (lists (with_born t th all a)) e → e ≠ thread_elem t →
         unlinked (lists a1) e) ∧
      checked anything a1 (enqueue (threads a1) t q)
        (λ b o b', o = ODone (next_tid a) ∧ b' = b) o a') a.
Proof.
  intros Hok Hcl Hal Hp Hall. pose proof Hok as (((Hc & Hcok & Hst) & _) & _ & Hm & _).
  apply apwp_Act, awp_palloc_get_page; [by apply apwp_ret; left|]. intros t Ht.
  destruct (Hcl t Ht) as (Hth & Hel & Hale). apply apwp_Act.
  eapply (awp_init_thread t name prio 0 0 all); [done| |exact Hall|exact Hale|].
  { unfold inherits. cbn. by rewrite Hm. }
  unfold born. cbn [thread_mlfqs set_pages]. rewrite Hm. cbn [andb].
  match goal with |- context [<[t := ?th]> _] => set (th0 := th) end.
  change (set_lists _ _) with (with_born t th0 all a).
  apply apwp_Act. eapply awp_store_at; [done|]. apply apwp_Act. eapply awp_store_at; [done|].
  match goal with |- context [<[t := ?th]> _] => set (th2 := th) end.
  change (set_threads _ _) with (with_born t th2 all a).
  eapply apwp_allocate_tid; [by apply tid_ok_born|].
  destruct Hal as [Hal1 Hal2].
  apply apwp_Act. eapply awp_store_at; [done|].
  apply apwp_Act. eapply awp_alloc_frame; [done..|]. apply apwp_Act. eapply awp_store_at; [done|].
  apply apwp_Act. eapply awp_alloc_frame; [done..|]. apply apwp_Act. eapply awp_alloc_frame; [done..|].
  match goal with |- context [<[t := ?th]> _] => set (th8 := th) end.
  set (b := set_next_tid (int32 (next_tid a + 1)) (with_born t th8 all a)).
  change (set_threads _ _) with b.
  pose proof (tid_ok_born q cur t th8 all a Hok Hcl Ht) as Hokb.
  eapply (apwp_created b t th8 q cur (next_tid a));
    [apply lookup_insert_eq|done|done|exact Hp|split; apply Hokb|by apply (unlinked_born t th8 all a)|].
  intros a1 o a' Hts Hf1 Hs1 Hu1 Hch. right. exists t, a1.
  assert (Heq : <[t := with_status THREAD_READY th8]> (threads b) =
    <[t := created name prio function aux (next_tid a)]> (threads a)) by apply insert_insert_eq.
  rewrite Heq in Hts, Hf1. split_and!; try done. intros e ? He Het. by apply Hu1.
Qed.

(** C19: [thread_create] fails with [TID_ERROR], changing nothing, when there is no
    free page.  Otherwise the new thread gets a page that was not in use, the
    next thread identifier, its name cut to 15 characters, the given priority
    as current, base and effective priority, and a stack that starts it in
    [kernel_thread (function, aux)]; it is listed among all threads and ready
    to run behind the ready threads of at least its priority; then the
    processor is handed over if it has a higher priority than its creator.  No
    list element of another thread enters a list. *)
Theorem thread_create_spec name prio function aux q cur all (a : aview) :
  tid_ok q cur a → pages_clean a → frames_aligned → PRI_MIN ≤ prio ≤ PRI_MAX →
  lists a !! all_list = Some (thread_allelem <$> all) →
  apwp (thread_create name prio function aux) (λ o a',
    (o = ODone TID_ERROR ∧ a' = a) ∨
    ∃ t a1, t ∉ pages a ∧
      (let th := created name prio function aux (next_tid a) in
       threads a1 = <[t := th]> (threads a) ∧
       sched_frame (set_next_tid (int32 (next_tid a + 1)) (with_born t th all a)) a1) ∧
      sched_ok a1 (enqueue (threads a1) t q) cur ∧
      (∀ e, unlinked (lists a) e → (∀ u, e ≠ thread_allelem u) → e ≠ thread_elem t →
         unlinked (lists a1) e) ∧
      checked anything a1 (enqueue (threads a1) t q)
        (λ b o b', o = ODone (next_tid a) ∧ b' = b) o a') a.
Proof.
  intros Hok Hcl Hal Hp Hall. eapply apwp_mono; [by apply (thread_creates name prio function aux q cur all)|].
  intros o a' [?|(t & a1 & Ht & Hth & Hs & Hu & Hch)]; [by left|right].
  exists t, a1. split_and!; try done; try apply Hth. intros e He Hea Het.
  by apply (Hu e (zero_thread)), Het; apply unlinked_born.
Qed.

(** [a] with the running thread [t] off the list of all threads. *)
Definition exited (l r : list tptr) (a : aview) : aview :=
  set_lists (<[all_list := thread_allelem <$> (l ++ r)]> (lists a)) (intr_off a).

Lemma thread_exits l r q cur n (a : aview) :
  current_ok a cur → iv_context (intr a) = false → ready a q → next_of a q = Some n →
  valid a n → lists a !! all_list = Some (thread_allelem <$> (l ++ running a :: r)) →
  apwp thread_exit
    (scheduled anything (marked THREAD_DYING (exited l r a)) q
       (λ b o b', o = OFault (EPanic "thread_exit: executed an unreachable statement") ∧ b' = b)) a.
Proof.
  intros Hc Hctx Hr Hn Hv Hall. pose proof Hc as (Ht & Hok & Hst).
  apply apwp_Act, awp_assert_not_intr_context; [done|]. apply apwp_Act, awp_intr_disable.
  fold (intr_off a). apply apwp_Act. eapply awp_thread_current; [exact Hc|].
  rewrite fmap_app in Hall. apply apwp_Act.
  eapply (awp_list_remove _ (thread_allelem <$> l) (thread_allelem <$> r)); [exact Hall|].
  rewrite <- fmap_app. change (set_lists _ _) with (exited l r a).
  apply apwp_Act. eapply (awp_thread_current cur); [exact Hc|].
  apply apwp_Act. eapply awp_store; [exact Ht|].
  rewrite <- (lookup_alter_insert _ _ cur) by exact Ht.
  change (set_threads _ _) with (marked THREAD_DYING (exited l r a)).
  apply (valid_marked THREAD_DYING) in Hv as (nth & Hnth & Hnok).
  eapply (apwp_schedule_bind _ anything _ (marked THREAD_DYING (exited l r a)) q
    (with_status THREAD_DYING cur)); [done| |done..| |exact Hn|exact Hnth|exact Hnok| |done].
  - cbn. by rewrite lookup_alter_eq, Ht.
  - eapply (rq_ext (rq := ready) (exited l r a)); [|done..|].
    + by apply (ready_insert_other (intr_off a)).
    + intros u _. by rewrite thread_priority_marked.
  - intros b bcur _ _ _ s <-. eexists _, s. split; [by constructor|done].
Qed.

(** A thread that exits is taken off the list of all threads, marked dying and
    put into no queue; the processor goes to the next ready thread, which will
    free its page.  Should it ever run again, it panics. *)
Lemma thread_exit_spec l r q cur n (a : aview) :
  current_ok a cur → iv_context (intr a) = false → ready a q → next_of a q = Some n →
  valid a n → lists a !! all_list = Some (thread_allelem <$> (l ++ running a :: r)) →
  apwp thread_exit
    (scheduled anything (marked THREAD_DYING (exited l r a)) q
       (λ b o b', o = OFault (EPanic "thread_exit: executed an unreachable statement") ∧ b' = b)) a.
Proof. apply thread_exits. Qed.

Lemma unlinked_empty e : unlinked ∅ e.
Proof. apply map_Forall_empty. Qed.

(** The thread [thread_init] makes of the code that is running. *)
Definition main_thread (id : Z) : thread :=
  Thread 0 id THREAD_RUNNING "main" PGSIZE PRI_DEFAULT PRI_DEFAULT 0 None 0 0 THREAD_MAGIC None.

(** The lists at the end of [thread_init]. *)
Definition boot_lists (r : tptr) : lview :=
  <[all_list := [thread_allelem r]]> (<[locks_held r := []]> (<[all_list := []]>
    (<[ready_list := []]> (<[lock_waiters tid_lock := []]>
      (<[sema_waiters (sema_of_lock tid_lock) := []]> ∅))))).

Lemma unlinked_boot_lists r e : e ≠ thread_allelem r → unlinked (boot_lists r) e.
Proof.
  intros He. apply unlinked_insert; [|by intros ?%list_elem_of_singleton].
  repeat (apply unlinked_insert; [|apply not_elem_of_nil]). apply unlinked_empty.
Qed.

(** Nothing is ready, and the tid lock is free. *)
Lemma boot_tid_ok cur (b : aview) :
  current_ok b cur → priority_ok cur → base_priority cur = priority cur →
  iv_context (intr b) = false → thread_mlfqs b = false →
  (∀ l, l ∈ [ready_list; lock_waiters tid_lock; sema_waiters (sema_of_lock tid_lock);
     locks_held (running b)] → lists b !! l = Some []) →
  unlinked (lists b) (thread_elem (running b)) → unlinked (lists b) (lock_elem tid_lock) →
  holders b !! tid_lock = Some None → semas b !! sema_of_lock tid_lock = Some 1 →
  tid_ok [] cur b.
Proof.
  intros Hc Hp Hb Hctx Hm Hls Hu Hul Hh Hv. unfold tid_ok, lock_free, sched_ok.
  split_and!; try done; try apply Hp; try (apply Hls; set_solver).
  - left. split; [done|]. apply Hls. set_solver.
  - by intros ? ?%elem_of_nil.
Qed.

Lemma boot_lists_empty r l :
  l ∈ [ready_list; lock_waiters tid_lock; sema_waiters (sema_of_lock tid_lock); locks_held r] →
  boot_lists r !! l = Some [].
Proof.
  unfold boot_lists. rewrite !elem_of_cons, elem_of_nil.
  by intros [->|[->|[->|[->|[]]]]]; rewrite ?lookup_insert_ne, ?lookup_insert_eq by done.
Qed.

(** The state at the end of [thread_init]. *)
Definition booted (a : aview) : aview :=
  set_lists (boot_lists (running a))
    (set_threads (<[running a := main_thread (next_tid a)]> (threads a))
      (set_semas (<[sema_of_lock tid_lock := 1]> (semas a))
        (set_holders (<[tid_lock := None]> (holders a))
          (set_initial_thread (Some (running a)) (set_next_tid (int32 (next_tid a + 1)) a))))).

Lemma thread_inits (a : aview) :
  iv_level (intr a) = INTR_OFF → iv_context (intr a) = false → thread_mlfqs a = false →
  lists a = ∅ →
  apwp thread_init (λ o a', o = ODone () ∧ a' = booted a ∧
    tid_ok [] (main_thread (next_tid a)) a' ∧
    lists a' !! all_list = Some [thread_allelem (running a)]) a.
Proof.
  intros Hl Hctx Hm Hls. apply apwp_Act, awp_assert_intr_off; [done|].
  apply apwp_Act. unfold lock_init. kstep. kstep. kstep. apply awp_sema_init. kstep. ksimpl.
  do 2 (apply apwp_Act; kstep). apply apwp_Act, awp_get_thread_mlfqs. ksimpl. rewrite Hm.
  apply apwp_Act, awp_ret. apply apwp_Act, awp_get_running. ksimpl.
  apply apwp_Act, awp_put_initial_thread. rewrite Hls. apply apwp_Act.
  eapply (awp_init_thread _ _ _ 0 0 []).
  { split; discriminate. }
  { unfold inherits. cbn. by rewrite Hm. }
  { apply lookup_insert_eq. }
  { ksimpl. repeat (apply unlinked_insert; [|apply not_elem_of_nil]). apply unlinked_empty. }
  unfold born. ksimpl. rewrite Hm. cbn [andb]. apply apwp_Act. eapply awp_store_at; [done|].
  match goal with |- apwp _ _ ?s => set (b := s) end.
  assert (Hok : ∀ id c, lists c = lists b → running c = running b → holders c = holders b →
    semas c = semas b → intr c = intr b → thread_mlfqs c = thread_mlfqs b →
    threads c = <[running a := main_thread id]> (threads a) → tid_ok [] (main_thread id) c).
  { intros id c Hlc Hrc Hhc Hsc Hic Hmc Htc. apply boot_tid_ok.
    - split_and!; [rewrite Htc, Hrc; apply lookup_insert_eq|done..].
    - split; discriminate.
    - done.
    - rewrite Hic. exact Hctx.
    - rewrite Hmc. exact Hm.
    - intros l. rewrite Hlc, Hrc. apply boot_lists_empty.
    - rewrite Hlc, Hrc. by apply unlinked_boot_lists.
    - rewrite Hlc. by apply unlinked_boot_lists.
    - rewrite Hhc. apply lookup_insert_eq.
    - rewrite Hsc. apply lookup_insert_eq. }
  eapply apwp_allocate_tid; [by apply (Hok 0)|].
  apply apwp_act. eapply awp_store_at; [done|]. split_and!; [done..|by apply Hok|].
  cbn. apply lookup_insert_eq.
Qed.

(** [thread_init], run at boot with interrupts off and no list initialised,
    turns the running code into the thread "main", with the first thread
    identifier: it is running, the only thread, with the default priority and
    no locks; the ready list is empty and the tid lock is free. *)
Lemma thread_init_spec (a : aview) :
  iv_level (intr a) = INTR_OFF → iv_context (intr a) = false → thread_mlfqs a = false →
  lists a = ∅ →
  apwp thread_init (λ o a', o = ODone () ∧ a' = booted a ∧
    tid_ok [] (main_thread (next_tid a)) a' ∧
    lists a' !! all_list = Some [thread_allelem (running a)]) a.
Proof. apply thread_inits. Qed.
End properties.

(** * Witnesses *)
Section witnesses.
#[local] Existing Instances concrete_env concrete_env_laws.

(** The frame sizes of the 32-bit switch.h. *)
#[local] Instance word_frames : SwitchFrames := {
  sizeof_switch_entry_frame := 4;
  sizeof_switch_threads_frame := 28
}.

Definition elem_page (e : elem_ptr) : option tptr :=
  match e with thread_elem t | thread_allelem t => Some t | _ => None end.

Definition pages_check (a : aview) : bool :=
  bool_decide (dom (threads a) ⊆ pages a) &&
  bool_decide (map_Forall (λ _ xs, Forall (λ t, t ∈ pages a) (omap elem_page xs)) (lists a)).

Lemma pages_check_ok (a : aview) : pages_check a = true → pages_clean a.
Proof.
  intros [Hd%bool_decide_eq_true_1 Hl%bool_decide_eq_true_1]%andb_true_iff t Ht.
  assert (Hu : ∀ e, elem_page e = Some t → unlinked (lists a) e).
  { intros e He l xs Hxs Hin. specialize (Hl l xs Hxs). rewrite Forall_forall in Hl.
    apply Ht, Hl, list_elem_of_omap. eauto. }
  split_and!; [|by apply Hu..].
  apply not_elem_of_dom. set_solver.
Qed.

(** Thread 1, at priority [p], with the tid lock free and no lock held. *)
Definition wit_life (p : Z) (th : thread) : kstate :=
  set_holders {[tid_lock := None]}
  (set_semas {[sema_of_lock tid_lock := 1]}
  (sample_state false ((1%positive, th) :: tail (sched_threads p))
     [(ready_list, elems [2; 3]%positive);
      (all_list, thread_allelem <$> [9; 1; 2; 3; 4]%positive);
      (locks_held 1, []); (lock_waiters tid_lock, []);
      (sema_waiters (sema_of_lock tid_lock), [])])).

Lemma thread_create_spec_witness :
  ends_at (thread_create "child" 10 (fn_user 1) aux_null)
    (λ o a', o = ODone TID_ERROR ∨ o = ODone 10)
    (wit_life 31 (sample_thread 1 THREAD_RUNNING 31)).
Proof.
  eapply ends_mono.
  - apply apwp_ends, (thread_create_spec "child" 10 (fn_user 1) aux_null [2; 3]%positive
      (sample_thread 1 THREAD_RUNNING 31) [9; 1; 2; 3; 4]%positive); try by_test.
    + split; [sched_by_test|]. split; [|by_test]. split_and!; by_test.
    + apply pages_check_ok. vm_compute. reflexivity.
  - intros o a' [[-> _]|(t & a1 & Ht & [Hts Hf] & _ & _ & Hch)]; [by left|right].
    assert (Hp : ∀ u, u ∈ pages (obs (wit_life 31 (sample_thread 1 THREAD_RUNNING 31))) →
      thread_priority (threads a1) u = thread_priority (threads (wit_life 31
        (sample_thread 1 THREAD_RUNNING 31))) u).
    { intros u Hu. unfold thread_priority. rewrite Hts, lookup_insert_ne; [done|].
      intros ->. by apply Ht. }
    assert (Ht10 : thread_priority (threads a1) t = 10)
      by (unfold thread_priority; by rewrite Hts, lookup_insert_eq).
    assert (Hr : running a1 = 1%positive) by (destruct Hf as [-> _]; done).
    assert (Hno : preempts a1 (enqueue (threads a1) t [2; 3]%positive) = false).
    { assert (Hp1 : thread_priority (threads a1) 1 = 31) by (rewrite Hp by by_test; reflexivity).
      assert (Hp2 : thread_priority (threads a1) 2 = 31) by (rewrite Hp by by_test; reflexivity).
      unfold preempts, enqueue. cbn [insert_before]. rewrite Ht10, Hp2. simpl.
      by rewrite Hr, Hp1, Hp2. }
    unfold checked in Hch. rewrite Hno in Hch. by destruct Hch as [-> _].
Defined.

Lemma thread_exit_spec_witness :
  ends_at thread_exit (λ o a', ∃ k, o = OSwitch 2 k)
    (wit_life 31 (sample_thread 1 THREAD_RUNNING 31)).
Proof.
  eapply ends_mono.
  - apply apwp_ends, (thread_exit_spec [9]%positive [2; 3; 4]%positive [2; 3]%positive
      (sample_thread 1 THREAD_RUNNING 31) 2); try by_test. eexists. by split.
  - intros o a'. apply scheduled_switches; by vm_compute.
Defined.

Lemma thread_init_spec_witness :
  ends_at thread_init (λ o a', o = ODone () ∧ initial_thread a' = Some 1%positive)
    (sample_state false [(1%positive, sample_thread 1 THREAD_BLOCKED 0)] []).
Proof.
  eapply ends_mono; [apply apwp_ends, thread_init_spec; by_test|].
  by intros o a' (-> & -> & _).
Defined.
End witnesses.
