(* ===== verification/Timer.v ===== *)
(** devices/timer.c: the tick counter, sleeping threads, the timer interrupt,
    the calibration of delays and the delays.

    The interval timer devices/pit.h, the registration of interrupt handlers and
    [printf] are outside the repository: the first two are parameters of
    [timer_init], and console output is left out.  [barrier] is the point in a
    busy loop at which the hardware may take an interrupt; the loops get it as a
    parameter. *)
From S2P Require Import Prelude Env Kernel Thread Mlfqs Ready Sched.

Definition TIMER_FREQ : Z := 100.

(** The comparison function of [sleep_list]. *)
Definition thread_wakeup (ts : gmap tptr thread) (t : tptr) : Z :=
  match ts !! t with Some th => wakeup_tick th | None => 0 end.

Definition wakeup_less (ts : gmap tptr thread) (a b : elem_ptr) : bool :=
  match entry_sleep_elem a, entry_sleep_elem b with
  | Some ta, Some tb => thread_wakeup ts ta <? thread_wakeup ts tb
  | _, _ => false
  end.

Section code.
Context {E : Env}.

Definition timer_ticks : K Z :=
  old_level ← k_intr_disable;
  t ← get_ticks;
  k_intr_set_level old_level;;
  mret t.

Definition timer_elapsed (then_ : Z) : K Z :=
  t ← timer_ticks; mret (int64 (t - then_)).

Definition timer_sleep (ticks : Z) : prog unit :=
  start ← act timer_ticks;
  l ← act k_intr_get_level;
  act (ASSERT (bool_decide (l = INTR_ON)) "timer_sleep: intr_get_level () == INTR_ON");;
  if ticks <=? 0 then mret ()
  else
    old_level ← act k_intr_disable;
    cur ← act thread_current;
    act (store cur (with_wakeup_tick (int64 (start + ticks))));;
    act (k_list_insert_ordered sleep_list (thread_sleep_elem cur) wakeup_less);;
    thread_block;;
    act (k_intr_set_level old_level).

(** One round of the loop of [timer_wakeup]. *)
Definition timer_wakeup_round (now : Z) (_ : unit) : prog (unit + unit) :=
  b ← act (k_list_empty sleep_list);
  if (b : bool) then mret (inr ())
  else
    e ← act (k_list_front sleep_list);
    t ← act (lift_opt EBadPtr (entry_sleep_elem e));
    th ← act (deref t);
    if wakeup_tick th >? now then mret (inr ())
    else
      act (k_list_pop_front sleep_list);;
      act (thread_unblock t);;
      c ← act k_intr_context;
      (if negb c then thread_yield else mret ());;
      mret (inl ()).

Definition timer_wakeup : prog unit :=
  now ← act timer_ticks;
  loop (timer_wakeup_round now) ().

(** The part of the handler for the feedback scheduler. *)
Definition timer_mlfqs : prog unit :=
  t ← act timer_ticks;
  (if Z.rem t 4 =? 0 then
     act mlfqs_update_priority_all;;
     mlfqs_check_preemption
   else mret ());;
  t ← act timer_ticks;
  (if Z.rem t TIMER_FREQ =? 0 then act mlfqs_update_rcpu_la else mret ()).

Definition timer_interrupt : prog unit :=
  t ← act get_ticks;
  act (put_ticks (int64 (t + 1)));;
  act thread_tick;;
  timer_wakeup;;
  m ← act get_thread_mlfqs;
  if (m : bool) then timer_mlfqs else mret ().

(** devices/pit.h and threads/interrupt.h. *)
Definition timer_init (pit_configure_channel : Z → Z → Z → K unit)
    (intr_register_ext : Z → prog unit → string → K unit) : K unit :=
  pit_configure_channel 0 2 TIMER_FREQ;;
  intr_register_ext 0x20 timer_interrupt "8254 Timer";;
  k_list_init sleep_list.

Section delays.
Context (barrier : K unit).

(** [while (loops-- > 0) barrier ();] *)
Definition busy_wait (loops : Z) : prog unit :=
  loop (λ loops : Z,
    if loops >? 0 then act barrier;; mret (inl (int64 (loops - 1)))
    else mret (inr ())) loops.

Definition too_many_loops (loops : Z) : prog bool :=
  start ← act get_ticks;
  loop (λ _ : unit,
    t ← act get_ticks;
    if t =? start then act barrier;; mret (inl ()) else mret (inr ())) ();;
  start ← act get_ticks;
  busy_wait loops;;
  act barrier;;
  t ← act get_ticks;
  mret (negb (start =? t)).

(** The first loop of [timer_calibrate]: doubles [loops_per_tick]. *)
Definition calibrate_double (_ : unit) : prog (unit + unit) :=
  n ← act get_loops_per_tick;
  b ← too_many_loops (uint32 (Z.shiftl n 1));
  if negb b then
    act (put_loops_per_tick (uint32 (Z.shiftl n 1)));;
    act (ASSERT (negb (uint32 (Z.shiftl n 1) =? 0)) "timer_calibrate: loops_per_tick != 0");;
    mret (inl ())
  else mret (inr ()).

(** The second loop: adds lower bits. *)
Definition calibrate_refine (high_bit test_bit : Z) : prog (Z + unit) :=
  if negb (test_bit =? Z.shiftr high_bit 10) then
    n ← act get_loops_per_tick;
    b ← too_many_loops (Z.lor n test_bit);
    (if negb b then act (put_loops_per_tick (Z.lor n test_bit)) else mret ());;
    mret (inl (Z.shiftr test_bit 1))
  else mret (inr ()).

Definition timer_calibrate : prog unit :=
  l ← act k_intr_get_level;
  act (ASSERT (bool_decide (l = INTR_ON)) "timer_calibrate: intr_get_level () == INTR_ON");;
  act (put_loops_per_tick (Z.shiftl 1 10));;
  loop calibrate_double ();;
  high_bit ← act get_loops_per_tick;
  loop (calibrate_refine high_bit) (Z.shiftr high_bit 1).

(** [loops_per_tick * num / 1000 * TIMER_FREQ / (denom / 1000)], in [int64_t]. *)
Definition delay_loops (loops_per_tick num denom : Z) : Z :=
  int64 (int64 (int64 (loops_per_tick * num) ÷ 1000 * TIMER_FREQ) ÷ (denom ÷ 1000)).

(** A division by zero is a fault. *)
Definition check_divisor (d : Z) : K unit := if d =? 0 then fail EDivide else mret ().

Definition real_time_delay (num denom : Z) : prog unit :=
  act (ASSERT (Z.rem denom 1000 =? 0) "real_time_delay: denom % 1000 == 0");;
  n ← act get_loops_per_tick;
  act (check_divisor (denom ÷ 1000));;
  busy_wait (delay_loops n num denom).

Definition real_time_sleep (num denom : Z) : prog unit :=
  act (check_divisor denom);;
  let ticks := int64 (num * TIMER_FREQ) ÷ denom in
  l ← act k_intr_get_level;
  act (ASSERT (bool_decide (l = INTR_ON)) "real_time_sleep: intr_get_level () == INTR_ON");;
  if ticks >? 0 then timer_sleep ticks else real_time_delay num denom.

Definition timer_msleep (ms : Z) : prog unit := real_time_sleep ms 1000.
Definition timer_usleep (us : Z) : prog unit := real_time_sleep us (1000 * 1000).
Definition timer_nsleep (ns : Z) : prog unit := real_time_sleep ns (1000 * 1000 * 1000).
Definition timer_mdelay (ms : Z) : prog unit := real_time_delay ms 1000.
Definition timer_udelay (us : Z) : prog unit := real_time_delay us (1000 * 1000).
Definition timer_ndelay (ns : Z) : prog unit := real_time_delay ns (1000 * 1000 * 1000).
End delays.
End code.
