(* ===== verification/TimerSpec.v ===== *)
(** devices/timer.c: the properties of sleeping threads and of the timer
    interrupt. *)
From S2P Require Import Prelude FixedPoint Env Kernel Thread Mlfqs.
From S2P Require Import Ready Sched SampleSched SchedSpec Timer.
Import FixedPoint.

(** * Sleeping threads *)

(** The threads on [sleep_list] are blocked, in no other queue, and in the order
    in which they are to wake up. *)
Definition sleeper (a : aview) (t : tptr) : Prop :=
  ∃ th, threads a !! t = Some th ∧ thread_ok th ∧ status th = THREAD_BLOCKED ∧
        priority_ok th ∧ unlinked (lists a) (thread_elem t).

Definition sleeping (a : aview) (ss : list tptr) : Prop :=
  lists a !! sleep_list = Some (thread_sleep_elem <$> ss) ∧
  sorted_on (thread_wakeup (threads a)) ss ∧ ∀ t, t ∈ ss → sleeper a t.

(** The running thread has just been added, to wake up at [tick]. *)
Definition sleep_until (tick : Z) (ss : list tptr) (a : aview) : aview :=
  let ts := alter (with_wakeup_tick tick) (running a) (threads a) in
  set_lists (<[sleep_list := thread_sleep_elem <$>
      insert_before (λ t, tick <? thread_wakeup ts t) (running a) ss]> (lists a))
    (set_threads ts a).

(** Waking up the threads [l] one after the other. *)
Definition wake (a : aview) (p : gmap tptr thread * list tptr) (t : tptr)
    : gmap tptr thread * list tptr :=
  match p.1 !! t with
  | Some th => let ts := <[t := unblocked a t th]> p.1 in (ts, enqueue ts t p.2)
  | None => p
  end.

Definition woken (a : aview) (l q : list tptr) : gmap tptr thread * list tptr :=
  foldl (wake a) (threads a, q) l.

Definition woke (l r q : list tptr) (a a' : aview) : Prop :=
  a' = set_lists (lists a') (set_threads (woken a l q).1 a) ∧ ready a' (woken a l q).2 ∧
  sleeping a' r ∧
  (∀ k, sched_list k = false → k ≠ sleep_list → lists a' !! k = lists a !! k) ∧
  (∀ e, (unlinked (lists a) e ∧ e ∉ elems l) ∨ e ∈ thread_sleep_elem <$> l →
     unlinked (lists a') e).

Section awp_timer.
Context {E : Env} {EL : EnvLaws E}.

Lemma set_intr_back l (a : aview) :
  set_intr (iv_set_level (iv_level (intr a)) (iv_set_level l (intr a))) a = a.
Proof. by destruct a as [? []]. Qed.

Lemma awp_timer_ticks Q (a : aview) : Q (ticks a) a → awp timer_ticks Q a.
Proof.
  intros HQ. unfold timer_ticks. ksteps. by destruct a as [? []].
Qed.

Lemma woke_nil r q (a : aview) : ready a q → sleeping a r → woke [] r q a a.
Proof.
  intros Hr Hs. split_and!; [by destruct a|done..|].
  by intros e [[? _]|?%elem_of_nil].
Qed.

Lemma woke_trans t l r q q1 (a a1 a' : aview) :
  woke [t] (l ++ r) q a a1 → q1 = (woken a [t] q).2 → woke l r q1 a1 a' →
  woke (t :: l) r q a a'.
Proof.
  intros (Ha1 & _ & _ & Hl1 & Hu1) -> (Ha' & Hr & Hs & Hl & Hu).
  assert (Hw : woken a1 l (woken a [t] q).2 = woken a (t :: l) q).
  { unfold woken. simpl. rewrite Ha1. cbn [threads set_lists set_threads].
    unfold woken. simpl. by destruct (wake a _ t). }
  rewrite Hw in *. split_and!; [by rewrite Ha', Ha1|done|done| |].
  - intros k ? ?. by rewrite Hl, Hl1.
  - intros e He. apply Hu. rewrite !fmap_cons, !elem_of_cons in He.
    destruct He as [[He Hne]|[->|He]].
    + left. split; [|tauto]. apply Hu1. left. split; [done|].
      intros ->%list_elem_of_singleton. tauto.
    + left. split; [apply Hu1; right; by left|]. by intros (? & ? & _)%list_elem_of_fmap.
    + by right.
Qed.

Lemma woke_one t ss q (a a1 : aview) th :
  threads a !! t = Some th → sleeping a (t :: ss) →
  (let a0 := set_lists (<[sleep_list := thread_sleep_elem <$> ss]> (lists a)) a in
   let a2 := set_threads (<[t := unblocked a t th]> (threads a)) a0 in
   ready a1 (enqueue (threads a2) t q) ∧ pushed a2 t a1) →
  lists_wf (lists a) → woke [t] ss q a a1.
Proof.
  intros Ht (Hl & Hsort & Hss) [Hr [[Ha1 Hl1] Hu1]] Hwf. cbn in Hr, Ha1, Hl1, Hu1.
  pose proof (lists_wf_NoDup _ _ _ Hwf Hl) as Hd. rewrite NoDup_fmap in Hd by apply _.
  apply NoDup_cons in Hd as [Hnt _].
  assert (Hw : woken a [t] q = (<[t := unblocked a t th]> (threads a),
    enqueue (<[t := unblocked a t th]> (threads a)) t q)).
  { unfold woken, wake. simpl. by rewrite Ht. }
  assert (Hp : unlinked (<[sleep_list := thread_sleep_elem <$> ss]> (lists a)) (thread_sleep_elem t)).
  { by apply unlinked_pop. }
  assert (Hk : ∀ e, unlinked (lists a) e →
    unlinked (<[sleep_list := thread_sleep_elem <$> ss]> (lists a)) e).
  { intros e He. apply unlinked_insert; [done|]. intros Hin. eapply He; [exact Hl|by right]. }
  unfold woke. rewrite Hw. split_and!; [done|done| |..].
  - split_and!.
    + rewrite Hl1 by done. apply lookup_insert_eq.
    + apply sorted_on_cons in Hsort as [_ Hsort].
      eapply sorted_on_ext; [|exact Hsort]. intros u Hu. unfold thread_wakeup. rewrite Ha1. cbn.
      rewrite lookup_insert_ne; [done|]. by intros ->.
    + intros u Hu. destruct (Hss u) as (uth & Huth & ? & ? & ? & Hun); [by right|].
      exists uth. split_and!; [|done..|apply Hu1; [by apply Hk|congruence]].
      rewrite Ha1. cbn. rewrite lookup_insert_ne; [done|]. by intros ->.
  - intros k ? ?. rewrite Hl1 by done. by rewrite lookup_insert_ne.
  - intros e [[He Hne]|He].
    + apply Hu1; [by apply Hk|]. intros ->. apply Hne. by left.
    + apply list_elem_of_singleton in He as ->. by apply Hu1.
Qed.

(** The loop of [timer_wakeup] in the interrupt handler. *)
Lemma apwp_wakeup_loop {A} (k : unit → prog A) now l r q Q (a : aview) :
  iv_context (intr a) = true → ready a q → sleeping a (l ++ r) →
  (∀ t, t ∈ l → thread_wakeup (threads a) t ≤ now) →
  (∀ t, t ∈ r → now < thread_wakeup (threads a) t) →
  (∀ a', woke l r q a a' → apwp (k ()) Q a') →
  apwp (Loop (timer_wakeup_round now) () k) Q a.
Proof.
  revert q a. induction l as [|t l IH]; intros q a Hctx Hr Hs Hle Hgt HQ; apply apwp_Loop.
  - pose proof Hs as (Hl & _ & Hss). apply apwp_assoc, apwp_Act.
    eapply awp_list_empty; [exact Hl|]. destruct r as [|t r]; [by apply HQ, woke_nil|].
    apply apwp_assoc, apwp_Act. eapply awp_list_front; [exact Hl|].
    apply apwp_assoc, apwp_Act. kstep. destruct (Hss t) as (th & Ht & _); [by left|].
    apply apwp_assoc, apwp_Act. kstep. specialize (Hgt t ltac:(by left)).
    unfold thread_wakeup in Hgt. rewrite Ht in Hgt.
    destruct (Z.gtb_spec (wakeup_tick th) now); [|lia]. by apply HQ, woke_nil.
  - pose proof Hs as (Hl & _ & Hss). apply apwp_assoc, apwp_Act.
    eapply awp_list_empty; [exact Hl|].
    apply apwp_assoc, apwp_Act. eapply awp_list_front; [exact Hl|].
    apply apwp_assoc, apwp_Act. kstep.
    destruct (Hss t) as (th & Ht & Hok & Hst & Hp & Hu); [by left|].
    apply apwp_assoc, apwp_Act. kstep. pose proof (Hle t ltac:(by left)) as Hlt.
    unfold thread_wakeup in Hlt. rewrite Ht in Hlt.
    destruct (Z.gtb_spec (wakeup_tick th) now); [lia|].
    apply apwp_assoc, apwp_Act, awp_wf. intros Hwf. eapply awp_list_pop_front; [exact Hl|].
    apply apwp_assoc, apwp_Act. fold (app l r).
    eapply (awp_thread_unblock _ t th q);
      [exact Ht|done|done|done|by apply ready_insert_other|..].
    { cbn. apply unlinked_insert; [done|]. by intros (? & ? & _)%list_elem_of_fmap. }
    intros b1 a1 -> Hr1 Hp1.
    assert (Hw : woke [t] (l ++ r) q a a1) by by eapply (woke_one t (l ++ r) q a a1 th).
    pose proof Hw as (Ha1 & _ & Hs1 & _).
    assert (Hq1 : (woken a [t] q).2 = enqueue (<[t := unblocked a t th]> (threads a)) t q)
      by (unfold woken, wake; simpl; by rewrite Ht).
    assert (Hts : threads a1 = <[t := unblocked a t th]> (threads a))
      by (rewrite Ha1; unfold woken, wake; simpl; by rewrite Ht).
    assert (Htk : ∀ u, thread_wakeup (threads a1) u = thread_wakeup (threads a) u).
    { intros u. unfold thread_wakeup. rewrite Hts. destruct (decide (u = t)) as [->|].
      - rewrite lookup_insert_eq, Ht. unfold unblocked, reprioritised. by case_match.
      - by rewrite lookup_insert_ne. }
    apply apwp_assoc, apwp_Act, awp_intr_context.
    replace (iv_context (intr a1)) with true by (by rewrite Ha1).
    eapply IH; [by rewrite Ha1|exact Hr1|exact Hs1|..].
    + intros u Hu'. rewrite Htk. apply Hle. by right.
    + intros u Hu'. rewrite Htk. by apply Hgt.
    + intros a' Hw'. apply HQ. eapply woke_trans; [exact Hw|symmetry; exact Hq1|exact Hw'].
Qed.
End awp_timer.

(** * What the interrupt keeps *)

(** A thread changed in its statistics only. *)
Definition keeps (th th' : thread) : Prop :=
  magic th' = magic th ∧ status th' = status th ∧ wakeup_tick th' = wakeup_tick th ∧
  (priority_ok th → priority_ok th').

Definition keeps_all (ts ts' : gmap tptr thread) : Prop :=
  ∀ t th, ts !! t = Some th → ∃ th', ts' !! t = Some th' ∧ keeps th th'.

Lemma keeps_refl th : keeps th th.
Proof. by split_and!. Qed.

Lemma keeps_all_insert ts t th th' :
  ts !! t = Some th → keeps th th' → keeps_all ts (<[t := th']> ts).
Proof.
  intros Ht Hk u uth Hu. destruct (decide (u = t)) as [->|Hne].
  - rewrite lookup_insert_eq. exists th'. split; [done|]. congruence.
  - rewrite lookup_insert_ne by done. exists uth. split; [done|apply keeps_refl].
Qed.

Lemma keeps_all_update f ts m :
  (∀ t th, keeps th (f t th)) → keeps_all m (update_all f ts m).
Proof.
  intros Hf t th Ht. rewrite (update_all_lookup _ _ _ _ th) by done. eexists.
  split; [done|]. case_bool_decide; [apply Hf|apply keeps_refl].
Qed.

Lemma keeps_reprioritise idle t th : keeps th (reprioritise idle t th).
Proof.
  unfold reprioritise. case_bool_decide; [apply keeps_refl|].
  split_and!; [done..|]. intros _. apply mlfqs_priority_raw_range.
Qed.

Lemma keeps_decay idle la t th : keeps th (decay idle la t th).
Proof. unfold decay. case_bool_decide; [apply keeps_refl|by split_and!]. Qed.

Section keeps.
Context (a b : aview) (Hk : keeps_all (threads a) (threads b)).

Lemma keeps_sched_ok q q' cur :
  sched_ok a q cur → running b = running a → ready b q' → (∀ t, t ∈ q' → t ∈ q) →
  unlinked (lists b) (thread_elem (running a)) →
  ∃ cur', sched_ok b q' cur' ∧ keeps cur cur'.
Proof.
  intros ((Hc & Hok & Hst) & Hp & _ & _ & Hv) Hrun Hr Hq Hu.
  destruct (Hk _ _ Hc) as (cur' & Hc' & Hkc). exists cur'. split; [|done].
  destruct Hkc as (Hm & Hs & _ & Hpk). unfold sched_ok, current_ok, thread_ok.
  rewrite Hrun, Hm, Hs. split_and!; [done..|by apply Hpk|done|done|].
  intros t Ht. destruct (Hv t (Hq t Ht)) as (th & Hth & Htok).
  destruct (Hk _ _ Hth) as (th' & Hth' & Hm' & _). exists th'. split; [done|].
  unfold thread_ok in *. by rewrite Hm'.
Qed.

Lemma keeps_sleeping ss :
  sleeping a ss → lists b !! sleep_list = lists a !! sleep_list →
  (∀ t, t ∈ ss → unlinked (lists a) (thread_elem t) → unlinked (lists b) (thread_elem t)) →
  sleeping b ss.
Proof.
  intros (Hl & Hs & Hss) Hlb Hu. split_and!; [by rewrite Hlb| |].
  - eapply sorted_on_ext; [|exact Hs]. intros t Ht. destruct (Hss t Ht) as (th & Hth & _).
    destruct (Hk _ _ Hth) as (th' & Hth' & _ & _ & Hw & _). unfold thread_wakeup.
    by rewrite Hth, Hth'.
  - intros t Ht. destruct (Hss t Ht) as (th & Hth & Hok & Hst & Hp & Hun).
    destruct (Hk _ _ Hth) as (th' & Hth' & Hm & Hst' & _ & Hpk). exists th'.
    unfold thread_ok in *. split_and!; [done|congruence|congruence|by apply Hpk|by apply Hu].
Qed.
End keeps.

(** What waking up does to the threads and to the queue. *)
Lemma woken_spec (a : aview) l : ∀ ts q,
  NoDup l → (∀ t, t ∈ l → is_Some (ts !! t)) →
  let p := foldl (wake a) (ts, q) l in
  Permutation p.2 (l ++ q) ∧
  (∀ t, t ∉ l → p.1 !! t = ts !! t) ∧
  (∀ t th, t ∈ l → ts !! t = Some th → p.1 !! t = Some (unblocked a t th)).
Proof.
  induction l as [|t l IH]; intros ts q Hd Hl; simpl.
  { split_and!; [done..|]. by intros t th ?%elem_of_nil. }
  apply NoDup_cons in Hd as [Hnt Hd]. destruct (Hl t) as [th Ht]; [by left|].
  unfold wake at 2 4 6. simpl. rewrite Ht.
  destruct (IH (<[t := unblocked a t th]> ts) (enqueue (<[t := unblocked a t th]> ts) t q))
    as (Hp & Ho & Hu); [done| |split_and!].
  - intros u Hu. destruct (decide (u = t)) as [->|]; [by rewrite lookup_insert_eq|].
    rewrite lookup_insert_ne by done. apply Hl. by right.
  - rewrite Hp, enqueue_perm. symmetry. apply Permutation_middle.
  - intros u Hn. rewrite Ho by set_solver. apply lookup_insert_ne. set_solver.
  - intros u uth [->|Hin]%elem_of_cons Huth.
    + rewrite Ho, lookup_insert_eq by done. congruence.
    + apply Hu; [done|]. rewrite lookup_insert_ne; [done|]. by intros ->.
Qed.

Lemma sleeping_NoDup (a : aview) ss : lists_wf (lists a) → sleeping a ss → NoDup ss.
Proof.
  intros Hwf (Hl & _). pose proof (lists_wf_NoDup _ _ _ Hwf Hl) as Hd.
  by rewrite NoDup_fmap in Hd by apply _.
Qed.

Lemma woken_sleeping (a : aview) l r q :
  lists_wf (lists a) → sleeping a (l ++ r) →
  Permutation (woken a l q).2 (l ++ q) ∧
  (∀ t, t ∉ l → (woken a l q).1 !! t = threads a !! t) ∧
  (∀ t th, t ∈ l → threads a !! t = Some th → (woken a l q).1 !! t = Some (unblocked a t th)).
Proof.
  intros Hwf Hs. apply woken_spec.
  - apply (sleeping_NoDup a (l ++ r)), NoDup_app in Hs as [? _]; [done|done].
  - intros t Ht. destruct Hs as (_ & _ & Hss). destruct (Hss t) as (th & -> & _); [set_solver|done].
Qed.

Section properties.
Context {E : Env} {EL : EnvLaws E}.

Lemma woke_sched_ok l r q cur (a a' : aview) :
  lists_wf (lists a) → sleeping a (l ++ r) → sched_ok a q cur → woke l r q a a' →
  sched_ok a' (woken a l q).2 cur.
Proof.
  intros Hwf Hs Hok (Ha' & Hr & _ & _ & Hu).
  destruct (woken_sleeping a l r q Hwf Hs) as (Hp & Ho & Hw).
  destruct Hok as ((Hc & Hcok & Hst) & Hpc & _ & Hself & Hv). destruct Hs as (_ & _ & Hss).
  assert (Hrun : running a' = running a) by (by rewrite Ha').
  assert (Hts : threads a' = (woken a l q).1) by (by rewrite Ha').
  assert (Hne : running a ∉ l).
  { intros Hin. destruct (Hss (running a)) as (th & Hth & _ & ? & _); [set_solver|congruence]. }
  unfold sched_ok, current_ok. rewrite Hts, Hrun, Ho by done. split_and!; [done..| |].
  - apply Hu. left. split; [done|]. by intros (? & [= <-] & ?)%list_elem_of_fmap.
  - intros t Ht. rewrite Hp in Ht. unfold valid. rewrite Hts.
    destruct (decide (t ∈ l)) as [Hin|Hn].
    + destruct (Hss t) as (th & Hth & Htok & _); [set_solver|]. exists (unblocked a t th).
      split; [by apply Hw|]. unfold thread_ok, unblocked, reprioritised in *. by case_match.
    + rewrite Ho by done. apply Hv. set_solver.
Qed.

Lemma apwp_timer_wakeup_bind {A} (k : unit → prog A) q ss Q (a : aview) :
  iv_context (intr a) = true → ready a q → sleeping a ss →
  (∀ l r a', lists_wf (lists a) → ss = l ++ r →
     (∀ t, t ∈ l → thread_wakeup (threads a) t ≤ ticks a) →
     (∀ t, t ∈ r → ticks a < thread_wakeup (threads a) t) →
     woke l r q a a' → apwp (k ()) Q a') →
  apwp (timer_wakeup ≫= k) Q a.
Proof.
  intros Hctx Hr Hs HQ. apply apwp_Act, awp_wf. intros Hwf. apply awp_timer_ticks.
  destruct (sorted_on_span (thread_wakeup (threads a)) ss (ticks a)) as (l & r & -> & Hl & Hr');
    [apply Hs|].
  eapply apwp_wakeup_loop; [done..|]. intros a' Hw. by eapply HQ.
Qed.

(** C18: The handler of a timer tick wakes up exactly the sleeping threads whose
    time has come: they are the first ones of the sleep list, and they become
    ready in that order, each behind the ready threads of at least its
    priority; the others stay asleep.  Nothing else changes: in particular no
    yield is requested, whatever the priorities of the threads woken up. *)
Theorem timer_wakeup_spec q ss cur (a : aview) :
  sched_ok a q cur → iv_context (intr a) = true → sleeping a ss →
  apwp timer_wakeup (λ o a', o = ODone () ∧ ∃ l r, ss = l ++ r ∧
    (∀ t, t ∈ l → thread_wakeup (threads a) t ≤ ticks a ∧
                  status <$> threads a' !! t = Some THREAD_READY) ∧
    (∀ t, t ∈ r → ticks a < thread_wakeup (threads a) t) ∧
    (∀ t, t ∉ l → threads a' !! t = threads a !! t) ∧
    woke l r q a a' ∧ sched_ok a' (woken a l q).2 cur ∧
    Permutation (woken a l q).2 (l ++ q)) a.
Proof.
  intros Hok Hctx Hs. pose proof Hok as (_ & _ & Hr & _).
  rewrite <- (prog_bind_ret_r timer_wakeup). eapply (apwp_timer_wakeup_bind Ret); [done..|].
  intros l r a' Hwf -> Hle Hgt Hw. apply apwp_ret. split; [done|]. exists l, r.
  destruct (woken_sleeping a l r q Hwf Hs) as (Hp & Ho & Hwk).
  assert (Hts : threads a' = (woken a l q).1) by (destruct Hw as [-> _]; done).
  rewrite Hts. split_and!; [done| |done|done|done| |done].
  - intros t Ht. split; [by apply Hle|]. destruct Hs as (_ & _ & Hss).
    destruct (Hss t) as (th & Hth & _); [set_solver|]. rewrite (Hwk t th) by done.
    unfold unblocked, reprioritised. by case_match.
  - by eapply woke_sched_ok.
Qed.

Lemma sleep_until_sleeping tick ss q cur (a : aview) :
  sleeping a ss → sched_ok a q cur → running a ∉ ss →
  sleeping (marked THREAD_BLOCKED (sleep_until tick ss a))
    (insert_before (λ t, tick <? thread_wakeup (threads a) t) (running a) ss).
Proof.
  intros (Hl & Hs & Hss) ((Hc & Hok & Hst) & Hp & _ & Hu & _) Hn.
  set (b := marked _ _).
  assert (Hne : ∀ t, t ∈ ss → t ≠ running a) by (by intros t Ht ->).
  assert (Hts : ∀ t, t ≠ running a →
    threads b !! t = threads a !! t).
  { intros t Ht. cbn. by rewrite !lookup_alter_ne. }
  assert (Hself : threads b !! running a =
    Some (with_status THREAD_BLOCKED (with_wakeup_tick tick cur))).
  { cbn. by rewrite !lookup_alter_eq, Hc. }
  assert (Hw : ∀ t, t ≠ running a → thread_wakeup (threads b) t = thread_wakeup (threads a) t).
  { intros t Ht. unfold thread_wakeup. by rewrite Hts. }
  assert (Hunl : ∀ t, unlinked (lists a) (thread_elem t) →
    unlinked (lists b) (thread_elem t)).
  { intros t Ht. cbn. apply unlinked_insert; [done|]. by intros (? & ? & _)%list_elem_of_fmap. }
  split_and!.
  - cbn. rewrite lookup_insert_eq. do 2 f_equal. apply insert_before_ext. intros t Ht.
    unfold thread_wakeup. by rewrite lookup_alter_ne by (symmetry; auto).
  - rewrite (insert_before_ext _ (λ t, thread_wakeup (threads b) (running a) <? thread_wakeup (threads b) t)).
    + apply insert_before_sorted. eapply sorted_on_ext; [|exact Hs]. intros t Ht.
      symmetry. by apply Hw, Hne.
    + intros t Ht. rewrite (Hw t) by by apply Hne. unfold thread_wakeup. by rewrite Hself.
  - intros t [->|Ht]%elem_of_insert_before; unfold sleeper.
    + rewrite Hself. eexists. split_and!; [done..|by apply Hunl].
    + rewrite Hts by by apply Hne. destruct (Hss t Ht) as (th & ? & ? & ? & ? & ?). exists th.
      split_and!; auto.
Qed.
(** What [timer_sleep] needs: interrupts on, and some other thread to run. *)
Definition can_sleep (n : Z) (q ss : list tptr) (cur : thread) (a : aview) : Prop :=
  sched_ok a q cur ∧ iv_context (intr a) = false ∧ iv_level (intr a) = INTR_ON ∧
  Some (running a) ≠ idle_thread a ∧ (q = [] → ∃ i, idle_thread a = Some i ∧ valid a i) ∧
  sleeping a ss ∧ unlinked (lists a) (thread_sleep_elem (running a)) ∧ in_int64 (ticks a + n).

Lemma can_sleep_next n q ss cur (a : aview) :
  can_sleep n q ss cur a → ∃ t, next_of a q = Some t ∧ valid a t ∧ t ≠ running a.
Proof.
  intros ((_ & _ & Hr & Hu & Hv) & _ & _ & Hi & Hq & _). destruct q as [|t q].
  - destruct (Hq eq_refl) as (i & Hii & Hvi). exists i. split_and!; [done..|]. congruence.
  - exists t. split_and!; [done|apply Hv; by left|]. intros ->.
    by eapply (rq_linked (rq := ready)) in Hu; [|done|left].
Qed.

Lemma apwp_timer_sleep n q ss cur (a : aview) :
  can_sleep n q ss cur a →
  apwp (timer_sleep n) (λ o a',
    if n <=? 0 then o = ODone () ∧ a' = a
    else
      let b := marked THREAD_BLOCKED (sleep_until (ticks a + n) ss (intr_off a)) in
      let ss' := insert_before (λ t, ticks a + n <? thread_wakeup (threads a) t) (running a) ss in
      sleeping b ss' ∧ thread_wakeup (threads b) (running a) = ticks a + n ∧
      (∃ t k, o = OSwitch t k ∧ t ≠ running a) ∧
      scheduled anything b q (λ c o c', o = ODone () ∧ c' = restored INTR_ON c) o a') a.
Proof.
  intros Hcs. pose proof Hcs as (Hok & Hctx & Hl & Hi & _ & Hs & Hu & Hn).
  pose proof Hok as (Hc & Hp & Hr & Hself & Hv). pose proof Hc as (Ht & Htok & Hst).
  apply apwp_Act, awp_timer_ticks, apwp_Act, awp_intr_get_level.
  apply apwp_Act, awp_ASSERT; [by rewrite Hl|].
  destruct (n <=? 0); [by apply apwp_ret|].
  apply apwp_Act, awp_intr_disable. fold (intr_off a). apply apwp_Act.
  eapply awp_thread_current; [exact Hc|]. apply apwp_Act. eapply awp_store; [exact Ht|].
  rewrite <- (lookup_alter_insert _ _ cur), int64_id by done. apply apwp_Act.
  eapply awp_list_insert_ordered; [apply Hs|exact Hu|].
  rewrite insert_before_fmap.
  set (ts := alter _ _ _). erewrite (insert_before_ext (λ y, wakeup_less _ _ _)
    (λ t, ticks a + n <? thread_wakeup ts t)).
  2:{ intros t _. unfold wakeup_less. simpl. f_equal. unfold thread_wakeup, ts. cbn.
      by rewrite lookup_alter_eq, Ht. }
  change (set_lists _ _) with (sleep_until (ticks a + n) ss (intr_off a)).
  destruct (can_sleep_next _ _ _ _ _ Hcs) as (t & Hnext & Hvt & Hne).
  assert (Hnss : running a ∉ ss).
  { intros Hin. destruct Hs as (_ & _ & Hss). destruct (Hss _ Hin) as (th & Hth & _ & ? & _).
    congruence. }
  eapply apwp_mono.
  - eapply (apwp_thread_block_bind _ anything (λ c o c', o = ODone () ∧ c' = restored INTR_ON c)
      (sleep_until (ticks a + n) ss (intr_off a)) q (with_wakeup_tick (ticks a + n) cur) t);
      [| done|done| |exact Hnext| | |done].
    + split_and!; [|done..]. cbn. by rewrite lookup_alter_eq, Ht.
    + eapply (rq_ext (rq := ready) a); [done..| |].
      * intros l Hsl. cbn. rewrite lookup_insert_ne; [done|]. by intros <-.
      * intros u _. unfold thread_priority. cbn. destruct (decide (u = running a)) as [->|].
        -- by rewrite lookup_alter_eq, Ht.
        -- by rewrite lookup_alter_ne.
    + destruct Hvt as (th & Hth & Hthok). exists th. split; [|done]. cbn.
      by rewrite lookup_alter_ne.
    + intros c ccur _ _ _. apply apwp_act, awp_intr_set_level. by rewrite Hl.
  - intros o a' Ho. cbv zeta. split_and!; [..|exact Ho].
    + by apply (sleep_until_sleeping _ _ q cur (intr_off a)).
    + unfold thread_wakeup. cbn. by rewrite !lookup_alter_eq, Ht.
    + exists t. eapply scheduled_switches in Ho; [|exact Hnext|exact Hne].
      destruct Ho as [k ->]. by exists k.
Qed.

(** C17: [timer_sleep (n)] returns at once for [n <= 0].  Otherwise the thread is
    put on the sleep list, which stays in the order of wake-up ticks, to be
    woken [n] ticks from now, behind the threads due at the same tick; it is
    blocked, and the processor goes to the next ready thread with interrupts
    off.  When it runs again it returns with interrupts on. *)
Theorem timer_sleep_spec n q ss cur (a : aview) :
  can_sleep n q ss cur a →
  apwp (timer_sleep n) (λ o a',
    if n <=? 0 then o = ODone () ∧ a' = a
    else
      let b := marked THREAD_BLOCKED (sleep_until (ticks a + n) ss (intr_off a)) in
      let ss' := insert_before (λ t, ticks a + n <? thread_wakeup (threads a) t) (running a) ss in
      sleeping b ss' ∧ thread_wakeup (threads b) (running a) = ticks a + n ∧
      (∃ t k, o = OSwitch t k ∧ t ≠ running a) ∧
      scheduled anything b q (λ c o c', o = ODone () ∧ c' = restored INTR_ON c) o a') a.
Proof. exact (apwp_timer_sleep n q ss cur a). Qed.
(** The two recomputations of the feedback scheduler, as the handler makes them. *)
Definition reprioritised_all (all q : list tptr) (a : aview) (q' : list tptr) (a' : aview)
    : Prop :=
  if Z.rem (ticks a) 4 =? 0 then
    ∃ b, b = set_lists (lists b)
               (set_threads (update_all (reprioritise (idle_thread a)) all (threads a)) a) ∧
      ready b q' ∧ Permutation q' q ∧
      (∀ l, sched_list l = false → l ≠ temp_list → lists b !! l = lists a !! l) ∧
      a' = if preempts b q' then yield_requested b else b
  else q' = q ∧ a' = a.

Definition aged_all (all q : list tptr) (a a' : aview) : Prop :=
  a' = if Z.rem (ticks a) TIMER_FREQ =? 0 then
         set_load_avg (load_avg_step (load_avg a) (Z.of_nat (length q) +
             if bool_decide (Some (running a) ≠ idle_thread a) then 1 else 0))
           (set_threads (update_all (decay (idle_thread a) (load_avg a)) all (threads a)) a)
       else a.

(** The statistics of all threads are within their bounds. *)
Definition all_stats (n : Z) (all : list tptr) (a : aview) : Prop :=
  lists a !! all_list = Some (thread_allelem <$> all) ∧ 0 ≤ n ≤ 545 ∧ load_ok n (load_avg a) ∧
  ∀ t, t ∈ all → ∃ th, threads a !! t = Some th ∧ nice_ok th ∧
                       Z.abs (recent_cpu th) ≤ recent_cpu_bound n.

(** The threads of the queues of [q] are sorted by priority, in range. *)
Lemma sched_ok_queues q cur (a : aview) :
  sched_ok a q cur → thread_mlfqs a = true →
  ∃ QS, queues a QS ∧ q = mlfqs_order QS ∧
    ∀ t, t ∈ queued QS → ∃ th, threads a !! t = Some th ∧ PRI_MIN ≤ priority th ≤ PRI_MAX.
Proof.
  intros (_ & _ & Hr & _ & Hv) Hm. destruct Hr as [[? _]|(_ & QS & HQ & Hok & ->)]; [congruence|].
  exists QS. split_and!; [done..|]. intros t Ht.
  destruct (Hv t) as (th & Hth & _); [by rewrite mlfqs_order_perm|]. exists th. split; [done|].
  apply elem_of_concat_queues in Ht as (i & Hi & Ht).
  rewrite <- (thread_priority_at _ _ _ Hth), (Hok i t) by done. by apply elem_of_priorities.
Qed.

Lemma laid_ready (a : aview) QS a' :
  thread_mlfqs a = true → laid a [] (requeued (threads a) QS) a' →
  ready a' (mlfqs_order (requeued (threads a) QS)).
Proof.
  intros Hm [Ha Hl]. right. split; [by rewrite Ha|]. eexists. split_and!; [| |done].
  - intros i Hi. rewrite Hl. by rewrite decide_True.
  - intros i t Hi Ht. unfold requeued in Ht. apply list_elem_of_filter in Ht as [Ht _].
    by rewrite Ha.
Qed.

Lemma laid_unlinked (a : aview) QS a' e :
  queues a QS → Permutation (queued (requeued (threads a) QS)) (queued QS) →
  laid a [] (requeued (threads a) QS) a' → unlinked (lists a) e → unlinked (lists a') e.
Proof.
  intros Hq Hp [_ Hl] Hu l xs. rewrite Hl. intros Hxs Hin.
  destruct l; try by eapply Hu. 2:{ simplify_eq. by apply elem_of_nil in Hin. }
  case_decide as Hi; [|by eapply Hu]. injection Hxs as <-.
  apply list_elem_of_fmap in Hin as (t & -> & Ht).
  assert (Hin : t ∈ queued QS).
  { rewrite <- Hp. apply elem_of_concat_queues. by exists i. }
  apply elem_of_concat_queues in Hin as (j & Hj & Hin). eapply Hu; [by apply Hq|].
  by apply list_elem_of_fmap_2.
Qed.
(** A change of the interrupt state is none for the scheduler. *)
Lemma sched_ok_intr q cur (a : aview) v :
  sched_ok a q cur → sched_ok (set_intr v a) q cur.
Proof.
  intros (Hc & Hp & Hr & Hu & Hv). refine (conj Hc (conj Hp (conj _ (conj Hu Hv)))).
  by eapply (rq_ext (rq := ready) a).
Qed.

(** One round of the recomputation of the priorities. *)
Lemma apwp_repri_bind {A} (k : unit → prog A) n all q ss cur Q (a : aview) :
  thread_mlfqs a = true → iv_level (intr a) = INTR_OFF → iv_context (intr a) = true →
  sched_ok a q cur → sleeping a ss → all_stats n all a →
  (∀ q' a' cur', reprioritised_all all q a q' a' → sched_ok a' q' cur' → sleeping a' ss →
     all_stats n all a' → Permutation q' q → apwp (k ()) Q a') →
  apwp ((if Z.rem (ticks a) 4 =? 0 then act mlfqs_update_priority_all;; mlfqs_check_preemption
         else mret ()) ≫= k) Q a.
Proof.
  intros Hm Hoff Hctx Hok Hs Hall HQ. unfold reprioritised_all in HQ.
  destruct (Z.rem (ticks a) 4 =? 0); [|by eapply HQ].
  destruct (sched_ok_queues q cur a Hok Hm) as (QS & HQS & -> & HT).
  pose proof Hall as (Hl & Hn & Hla & Hts).
  apply apwp_assoc, apwp_Act. eapply (awp_mlfqs_update_priority_all QS all); [done|done| |done|done|].
  { intros t Ht. by destruct (Hts t Ht) as (th & -> & _). }
  intros b m HL Hperm. pose proof HL as [Hb Hlb].
  assert (Hkeep : keeps_all (threads a) (threads b)).
  { rewrite Hb. apply keeps_all_update. intros. apply keeps_reprioritise. }
  set (q' := mlfqs_order (requeued m QS)).
  assert (Hr : ready b q') by by apply (laid_ready (set_threads m a)).
  assert (Hpq : Permutation q' (mlfqs_order QS)) by (unfold q'; by rewrite !mlfqs_order_perm).
  assert (Hun : ∀ e, unlinked (lists a) e → unlinked (lists b) e).
  { intros e. by apply (laid_unlinked (set_threads m a) QS b). }
  assert (Hlo : ∀ l, sched_list l = false → l ≠ temp_list → lists b !! l = lists a !! l)
    by (intros l Hsl Hlt; rewrite Hlb; by destruct l).
  destruct (keeps_sched_ok a b Hkeep (mlfqs_order QS) q' cur) as (cur' & Hok' & _);
    [done|by rewrite Hb|done|by intros t; rewrite Hpq|apply Hun, Hok|].
  assert (Hs' : sleeping b ss).
  { eapply (keeps_sleeping a b Hkeep); [done|by apply Hlo|auto]. }
  assert (Hall' : all_stats n all b).
  { split_and!; [by rewrite Hlo|apply Hn|apply Hn|by rewrite Hb..|].
    intros t Ht. destruct (Hts t Ht) as (th & Hth & Hst). rewrite Hb. cbn. unfold m.
    rewrite (update_all_lookup _ _ _ _ th) by done. eexists. split; [done|].
    unfold reprioritise. by repeat case_bool_decide. }
  pose proof Hok' as (Hc' & Hp' & _).
  assert (Hready : mlfqs_ready b q').
  { destruct Hr as [[Hm' _]|Hr]; [|done]. rewrite Hb in Hm'. cbn in Hm'. congruence. }
  eapply apwp_mlfqs_check_preemption_bind; [done..| |].
  { unfold priority_ok, PRI_MIN in Hp'. lia. }
  assert (HQ' : apwp (k ()) Q (if preempts b q' then yield_requested b else b)).
  { eapply (HQ q' _ cur'); [exists b; by split_and!|..|done].
    - destruct (preempts b q'); [by apply sched_ok_intr|done].
    - by destruct (preempts b q').
    - by destruct (preempts b q'). }
  destruct (preempts b q'); [|exact HQ'].
  apply apwp_assoc, apwp_Act, awp_intr_context.
  replace (iv_context (intr b)) with true by (by rewrite Hb).
  apply apwp_Act, awp_intr_yield_on_return; [by rewrite Hb|]. exact HQ'.
Qed.
(** Updates that leave the priorities alone. *)
Lemma thread_priority_update f ts m u :
  (∀ t th, priority (f t th) = priority th) →
  thread_priority (update_all f ts m) u = thread_priority m u.
Proof.
  intros Hf. unfold thread_priority, update_all. rewrite map_lookup_imap.
  destruct (m !! u) as [th|]; [|done]. simpl. by case_bool_decide.
Qed.

Lemma priority_decay idle la t th : priority (decay idle la t th) = priority th.
Proof. unfold decay. by case_bool_decide. Qed.

(** The recomputation of the statistics. *)
Lemma apwp_aged n all q ss cur Q (a : aview) :
  thread_mlfqs a = true → iv_level (intr a) = INTR_OFF →
  sched_ok a q cur → sleeping a ss → all_stats n all a → Z.of_nat (length q) < n →
  (∀ a' cur', aged_all all q a a' → sched_ok a' q cur' → sleeping a' ss → Q (ODone ()) a') →
  apwp (if Z.rem (ticks a) TIMER_FREQ =? 0 then act mlfqs_update_rcpu_la else mret ()) Q a.
Proof.
  intros Hm Hoff Hok Hs (Hl & Hn & Hla & Hts) Hlen HQ. unfold aged_all in HQ.
  destruct (Z.rem (ticks a) TIMER_FREQ =? 0); [|by apply apwp_ret; eapply HQ].
  destruct (sched_ok_queues q cur a Hok Hm) as (QS & HQS & Hq & _).
  assert (Hcount : ready_count a QS = Z.of_nat (length q) +
    if bool_decide (Some (running a) ≠ idle_thread a) then 1 else 0).
  { unfold ready_count. by rewrite Hq, mlfqs_order_perm. }
  pose proof Hok as (Hc & Hp & Hr & Hu & Hv). apply apwp_act.
  eapply (awp_mlfqs_update_rcpu_la n QS all cur); [done|done|lia|done| |done|done| |].
  { intros t Ht. destruct (Hts t Ht) as (th & Hth & Hni & Hrc). exists th. split; [done|].
    by apply stats_ok_bound. }
  { rewrite Hcount. case_bool_decide; lia. }
  rewrite Hcount. set (b := set_load_avg _ _).
  assert (Hkeep : keeps_all (threads a) (threads b)).
  { apply keeps_all_update. intros. apply keeps_decay. }
  destruct (keeps_sched_ok a b Hkeep q q cur) as (cur' & Hok' & _); [done..| |done|done|].
  { eapply (rq_ext (rq := ready) a); [done..|]. intros u _. apply thread_priority_update.
    apply priority_decay. }
  eapply HQ; [done|exact Hok'|]. by eapply (keeps_sleeping a b Hkeep).
Qed.

(** The first statements of the handler. *)
Lemma tick_keeps ss q cur (a : aview) :
  sched_ok a q cur → sleeping a ss →
  ∃ cur', sched_ok (ticked a cur) q cur' ∧ sleeping (ticked a cur) ss.
Proof.
  intros Hok Hs. pose proof Hok as ((Hc & _) & _ & Hr & Hu & _).
  assert (Hkeep : keeps_all (threads a) (threads (ticked a cur))).
  { unfold ticked. cbn. case_match; [|by intros t th Ht; exists th; split; [|apply keeps_refl]].
    eapply keeps_all_insert; [exact Hc|by split_and!]. }
  destruct (keeps_sched_ok a (ticked a cur) Hkeep q q cur) as (cur' & Hok' & _);
    [done..| |done|done|].
  { eapply (rq_ext (rq := ready) a); [done..|]. intros u _. unfold ticked. cbn.
    case_match; [|done]. by apply (thread_priority_insert _ _ cur). }
  exists cur'. split; [done|]. by eapply (keeps_sleeping a _ Hkeep).
Qed.

Lemma tick_stats n all cur (a : aview) :
  current_ok a cur → all_stats n all a → Z.abs (recent_cpu cur) + F ≤ recent_cpu_bound n →
  all_stats n all (ticked a cur).
Proof.
  intros (Hc & _) (Hl & Hn & Hla & Hts) Hrc. refine (conj Hl (conj Hn (conj Hla _))).
  intros t Ht. destruct (Hts t Ht) as (th & Hth & Hni & Habs). unfold ticked. cbn.
  case_match; [|by exists th]. destruct (decide (t = running a)) as [->|Hne].
  - rewrite lookup_insert_eq. eexists. split; [done|]. assert (th = cur) as -> by congruence.
    assert (Habs' : Z.abs (recent_cpu cur + 1 * F) ≤ recent_cpu_bound n)
      by (rewrite F_val in *; lia).
    split; [done|]. cbn. rewrite fp_add_int_exact; [done|by split; discriminate|].
    unfold recent_cpu_bound in *. rewrite F_val in *. bounds.
  - rewrite lookup_insert_ne by done. by exists th.
Qed.

Lemma woke_stats n all l r q (a a' : aview) :
  lists_wf (lists a) → sleeping a (l ++ r) → woke l r q a a' → all_stats n all a →
  all_stats n all a'.
Proof.
  intros Hwf Hs (Ha' & _ & _ & Hlo & _) (Hl & Hn & Hla & Hts).
  destruct (woken_sleeping a l r q Hwf Hs) as (_ & Ho & Hw).
  refine (conj _ (conj Hn (conj _ _))); [by rewrite Hlo|by rewrite Ha'|].
  intros t Ht. destruct (Hts t Ht) as (th & Hth & Hni & Habs). rewrite Ha'. cbn.
  destruct (decide (t ∈ l)).
  - rewrite (Hw t th) by done. eexists. split; [done|].
    unfold unblocked, reprioritised. by case_match.
  - rewrite Ho by done. by exists th.
Qed.
(** The state the timer interrupt finds: the processor has turned interrupts off
    and is in an external interrupt.  The last clause is for the feedback
    scheduler: the statistics are within bounds for [n] threads. *)
Definition can_interrupt (n : Z) (all q ss : list tptr) (cur : thread) (a : aview) : Prop :=
  sched_ok a q cur ∧ sleeping a ss ∧ iv_level (intr a) = INTR_OFF ∧ iv_context (intr a) = true ∧
  can_tick a ∧ in_int64 (ticks a + 1) ∧
  (thread_mlfqs a = true → all_stats n all a ∧ Z.abs (recent_cpu cur) + F ≤ recent_cpu_bound n ∧
     Z.of_nat (length q + length ss) < n).

Lemma apwp_timer_interrupt n all q ss cur (a : aview) :
  can_interrupt n all q ss cur a →
  apwp timer_interrupt (λ o a', o = ODone () ∧ ∃ l r a1 a2 q2 a3 cur',
    a1 = ticked (set_ticks (ticks a + 1) a) cur ∧ ss = l ++ r ∧
    (∀ t, t ∈ l → thread_wakeup (threads a1) t ≤ ticks a + 1) ∧
    (∀ t, t ∈ r → ticks a + 1 < thread_wakeup (threads a1) t) ∧
    woke l r q a1 a2 ∧
    (if thread_mlfqs a
     then reprioritised_all all (woken a1 l q).2 a2 q2 a3 ∧ aged_all all q2 a3 a'
     else q2 = (woken a1 l q).2 ∧ a3 = a2 ∧ a' = a2) ∧
    sched_ok a' q2 cur' ∧ sleeping a' r) a.
Proof.
  intros (Hok & Hs & Hoff & Hctx & Htick & Hnow & Hm). apply apwp_Act, awp_get_ticks.
  apply apwp_Act, awp_put_ticks. rewrite int64_id by done.
  set (a0 := set_ticks (ticks a + 1) a).
  assert (Hok0 : sched_ok a0 q cur).
  { destruct Hok as (Hc & Hp & Hr & Hu & Hv). refine (conj Hc (conj Hp (conj _ (conj Hu Hv)))).
    by eapply (rq_ext (rq := ready) a). }
  apply apwp_Act. eapply (awp_thread_tick cur); [apply Hok0|exact Hctx|exact Htick|].
  destruct (tick_keeps ss q cur a0 Hok0 Hs) as (cur1 & Hok1 & Hs1).
  assert (Hm1 : thread_mlfqs a = true → all_stats n all (ticked a0 cur)).
  { intros Hx. destruct (Hm Hx) as (Hst & Hrc & _). apply tick_stats; [apply Hok0|exact Hst|done]. }
  set (a1 := ticked a0 cur) in *. pose proof Hok1 as (_ & _ & Hr1 & _).
  eapply apwp_timer_wakeup_bind; [done|exact Hr1|exact Hs1|].
  intros l r a2 Hwf -> Hle Hgt Hw.
  pose proof (woke_sched_ok l r q cur1 a1 a2 Hwf Hs1 Hok1 Hw) as Hok2.
  destruct (woken_sleeping a1 l r q Hwf Hs1) as (Hp2 & _).
  pose proof Hw as (Ha2 & Hr2 & Hs2 & _).
  apply apwp_Act, awp_get_thread_mlfqs.
  replace (thread_mlfqs a2) with (thread_mlfqs a) by (by rewrite Ha2).
  destruct (thread_mlfqs a) eqn:Hx.
  2:{ apply apwp_ret. split; [done|]. exists l, r, a1, a2, (woken a1 l q).2, a2, cur1.
      by split_and!. }
  destruct (Hm eq_refl) as (_ & _ & Hlen).
  pose proof (woke_stats n all l r q a1 a2 Hwf Hs1 Hw (Hm1 eq_refl)) as Hst2.
  apply apwp_Act, awp_timer_ticks.
  eapply (apwp_repri_bind _ n all (woken a1 l q).2 r cur1);
    [rewrite Ha2; exact Hx|rewrite Ha2; exact Hoff|by rewrite Ha2|exact Hok2|exact Hs2|exact Hst2|].
  intros q3 a3 cur3 Hrep Hok3 Hs3 Hst3 Hp3. apply apwp_Act, awp_timer_ticks.
  assert (Hsame : thread_mlfqs a3 = true ∧ iv_level (intr a3) = INTR_OFF).
  { assert (H2 : thread_mlfqs a2 = true ∧ iv_level (intr a2) = INTR_OFF)
      by (rewrite Ha2; exact (conj Hx Hoff)).
    unfold reprioritised_all in Hrep. case_match; [|by destruct Hrep as [_ ->]].
    destruct Hrep as (b & Hb & _ & _ & _ & ->).
    assert (thread_mlfqs b = true ∧ iv_level (intr b) = INTR_OFF) by (by rewrite Hb).
    by destruct (preempts _ _). }
  eapply (apwp_aged n all q3 r cur3); [apply Hsame..|done|done|done| |].
  { rewrite Hp3, Hp2, length_app. rewrite length_app in Hlen. lia. }
  intros a' cur' Hag Hok' Hs'. split; [done|].
  exists l, r, a1, a2, q3, a3, cur'. by split_and!.
Qed.

(** C13: The timer interrupt advances the tick counter, does the accounting of the
    tick, and wakes up the sleeping threads that are due at the new tick.
    Under the feedback scheduler it then, every 4th tick, recomputes the
    priorities of all threads and requests a yield if a ready thread has a
    higher one than the running thread, and, every [TIMER_FREQ]th tick, decays
    the statistics.  It never faults or blocks, and it leaves the scheduler's
    and the sleep list's invariants intact. *)
Theorem timer_interrupt_spec n all q ss cur (a : aview) :
  can_interrupt n all q ss cur a →
  apwp timer_interrupt (λ o a', o = ODone () ∧ ∃ l r a1 a2 q2 a3 cur',
    a1 = ticked (set_ticks (ticks a + 1) a) cur ∧ ss = l ++ r ∧
    (∀ t, t ∈ l → thread_wakeup (threads a1) t ≤ ticks a + 1) ∧
    (∀ t, t ∈ r → ticks a + 1 < thread_wakeup (threads a1) t) ∧
    woke l r q a1 a2 ∧
    (if thread_mlfqs a
     then reprioritised_all all (woken a1 l q).2 a2 q2 a3 ∧ aged_all all q2 a3 a'
     else q2 = (woken a1 l q).2 ∧ a3 = a2 ∧ a' = a2) ∧
    sched_ok a' q2 cur' ∧ sleeping a' r) a.
Proof. exact (apwp_timer_interrupt n all q ss cur a). Qed.
End properties.

(** * Witnesses *)
Section witnesses.
#[local] Existing Instances concrete_env concrete_env_laws.

(** Thread 4 sleeps until tick 50. *)
Definition wit_sleeper : thread :=
  with_wakeup_tick 50 (sample_thread 4 THREAD_BLOCKED 31).

Definition wit_asleep (now : Z) (v : iview) (s : kstate) : kstate :=
  set_ticks now
    (set_threads (<[4%positive := wit_sleeper]> (threads s))
      (set_lists (<[sleep_list := [thread_sleep_elem 4]]>
         (<[all_list := thread_allelem <$> [9; 1; 2; 3; 4]%positive]> (lists s)) : lview)
        (set_intr (v : istate) s))).

Definition wit_prio (now : Z) (v : iview) : kstate := wit_asleep now v (sched_state 31).
Definition wit_mlfqs (now : Z) (v : iview) : kstate := wit_asleep now v (mlfqs_state 31).

Lemma wit_sleeping now v (s : kstate) :
  bool_decide (unlinked (lists (obs (wit_asleep now v s))) (thread_elem 4)) = true →
  lists (obs (wit_asleep now v s)) !! sleep_list = Some [thread_sleep_elem 4] →
  sleeping (obs (wit_asleep now v s)) [4]%positive.
Proof.
  intros Hu%bool_decide_eq_true_1 Hl. split_and!; [done| |].
  - apply sorted_on_cons. split; [by intros ? ?%elem_of_nil|constructor].
  - intros t ->%list_elem_of_singleton. exists wit_sleeper. split_and!; try done.
    cbn. apply lookup_insert_eq.
Defined.

Lemma timer_sleep_spec_witness :
  ends_at (timer_sleep 10) (λ o a', ∃ t k, o = OSwitch t k ∧ t ≠ 1%positive)
    (wit_prio 30 (IView INTR_ON false false)).
Proof.
  eapply ends_mono.
  - apply apwp_ends, (timer_sleep_spec 10 [2; 3]%positive [4]%positive
      (sample_thread 1 THREAD_RUNNING 31)).
    refine (conj _ (conj _ (conj _ (conj _ (conj _ (conj _ (conj _ _))))))); try by_test.
    + sched_by_test.
    + apply wit_sleeping; vm_compute; reflexivity.
  - intros o a' (_ & _ & H & _). exact H.
Defined.

Lemma timer_wakeup_spec_witness :
  ends_at timer_wakeup (λ o a', o = ODone () ∧ status <$> threads a' !! 4%positive = Some THREAD_READY)
    (wit_prio 60 (IView INTR_OFF true false)).
Proof.
  eapply ends_mono.
  - apply apwp_ends, (timer_wakeup_spec [2; 3]%positive [4]%positive
      (sample_thread 1 THREAD_RUNNING 31)); [sched_by_test|by_test|].
    apply wit_sleeping; vm_compute; reflexivity.
  - intros o a' (-> & l & r & Hss & Hl & Hr & _). split; [done|]. apply Hl.
    destruct l as [|t l]; [|injection Hss as <- _; by left].
    simpl in Hss. subst r. specialize (Hr 4%positive ltac:(by left)). by vm_compute in Hr.
Defined.

(** Tick 52 is divisible by 4: the priorities are recomputed. *)
Lemma timer_interrupt_spec_witness :
  ends_at timer_interrupt (λ o a', o = ODone ()) (wit_mlfqs 51 (IView INTR_OFF true false)).
Proof.
  eapply ends_mono.
  - apply apwp_ends, (timer_interrupt_spec 10 [9; 1; 2; 3; 4]%positive [2; 3]%positive [4]%positive
      (sample_thread 1 THREAD_RUNNING 31)).
    refine (conj _ (conj _ (conj eq_refl (conj eq_refl (conj _ (conj _ _)))))).
    + refine (conj _ (conj _ (conj _ (conj _ _)))); [by_test|by_test| |by_test|by_test].
      right. split; [done|]. exists sched_queues. split_and!.
      * apply sample_queues_ok. vm_compute. reflexivity.
      * apply sample_queues_sorted. vm_compute. reflexivity.
      * vm_compute. reflexivity.
    + apply wit_sleeping; vm_compute; reflexivity.
    + refine (conj (conj _ _) (conj (conj _ _) (conj _ _))); by_test.
    + by_test.
    + intros _. split; [|split; [by_test|by_test]].
      refine (conj _ (conj _ (conj _ _))); [by_test..|].
      intros t Ht. repeat (apply elem_of_cons in Ht as [->|Ht];
        [eexists; split; [vm_compute; reflexivity|by_test]|]).
      by apply elem_of_nil in Ht.
  - by intros o a' [-> _].
Defined.
End witnesses.
