(* ===== verification/Delay.v ===== *)
(** devices/timer.c: the properties of the calibration of delays and of the
    delays, on an ideal processor. *)
From S2P Require Import Prelude Env Kernel Thread Mlfqs Ready Sched SampleSched Timer.

(** An ideal processor: a timer tick every [P] barriers.  [clk] counts the
    barriers since the last tick. *)
Section calibration.
Context {E : Env} {EL : EnvLaws E} (barrier : K unit) (clk : aview → Z) (P : Z).

Definition age (a : aview) : Z := ticks a * P + clk a.

Definition regular : Prop :=
  (∀ a, 0 ≤ clk a < P) ∧
  ∀ a, awp barrier (λ _ a', age a' = age a + 1 ∧ loops_per_tick a' = loops_per_tick a) a.

Context (Hreg : regular).

Lemma apwp_barrier {A} (k : unit → prog A) Q (a : aview) :
  (∀ a', age a' = age a + 1 → loops_per_tick a' = loops_per_tick a → apwp (k ()) Q a') →
  apwp (Act barrier k) Q a.
Proof.
  intros HQ. apply apwp_Act. eapply awp_mono; [apply Hreg|].
  intros [] a' [Hage Hl]. by apply HQ.
Qed.

(** One more barrier. *)
Lemma age_succ (a a' : aview) :
  age a' = age a + 1 →
  if clk a + 1 <? P then ticks a' = ticks a ∧ clk a' = clk a + 1
  else ticks a' = ticks a + 1 ∧ clk a' = 0.
Proof.
  destruct Hreg as [Hclk _]. unfold age. intros Ha. pose proof (Hclk a). pose proof (Hclk a').
  destruct (Z.ltb_spec (clk a + 1) P).
  - assert (ticks a' = ticks a) by nia. split; [done|nia].
  - assert (ticks a' = ticks a + 1) by nia. split; [done|nia].
Qed.

Lemma busy_loop_unfold {A} n (k : unit → prog A) Q (a : aview) :
  0 ≤ n ≤ INT64_MAX →
  (∀ a', age a' = age a + n → loops_per_tick a' = loops_per_tick a → apwp (k ()) Q a') →
  apwp (busy_wait barrier n ≫= k) Q a.
Proof.
  intros Hn. rewrite <- (Z2Nat.id n) in * by lia. revert a Hn. induction (Z.to_nat n) as [|m IH];
    intros a Hn HQ; apply apwp_Loop; cbn beta.
  - apply HQ; [lia|done].
  - destruct (Z.gtb_spec (Z.of_nat (S m)) 0); [|lia]. apply apwp_assoc, apwp_barrier.
    intros a1 H1 Hl1. replace (int64 _) with (Z.of_nat m) by (rewrite int64_id; bounds).
    apply IH; [lia|]. intros a2 H2 Hl2. apply HQ; [lia|congruence].
Qed.

(** Waiting for the next tick, just after which [clk] is 0. *)
Lemma apwp_wait_tick {A} (k : unit → prog A) start Q (a : aview) :
  ticks a = start →
  (∀ a', clk a' = 0 → loops_per_tick a' = loops_per_tick a → apwp (k ()) Q a') →
  apwp (loop (λ _ : unit,
      t ← act get_ticks;
      if t =? start then act barrier;; mret (inl ()) else mret (inr ())) () ≫= k) Q a.
Proof.
  destruct Hreg as [Hclk _].
  intros Ht HQ. pose proof (Hclk a) as Ha. remember (Z.to_nat (P - 1 - clk a)) as m eqn:Hm.
  revert a Ht Ha HQ Hm. induction m as [|m IH]; intros a Ht Ha HQ Hm;
    apply apwp_Loop, apwp_assoc, apwp_Act, awp_get_ticks; rewrite Ht, Z.eqb_refl;
    apply apwp_assoc, apwp_barrier; intros a1 H1%age_succ Hl1;
    destruct (Z.ltb_spec (clk a + 1) P); destruct H1 as [H1 Hc1]; try lia.
  - apply apwp_Loop, apwp_assoc, apwp_Act, awp_get_ticks.
    destruct (Z.eqb_spec (ticks a1) start); [lia|]. by apply HQ.
  - eapply (IH a1); [lia|lia| |lia]. intros a2 H2 Hl2. apply HQ; [done|congruence].
Qed.

Lemma apwp_too_many_loops {A} n (k : bool → prog A) Q (a : aview) :
  0 ≤ n < INT64_MAX →
  (∀ a', loops_per_tick a' = loops_per_tick a → apwp (k (P - 2 <? n)) Q a') →
  apwp (too_many_loops barrier n ≫= k) Q a.
Proof.
  destruct Hreg as [Hclk _].
  intros Hn HQ. apply apwp_Act, awp_get_ticks. apply apwp_assoc, apwp_wait_tick; [done|].
  intros a1 H1 Hl1. apply apwp_Act, awp_get_ticks. apply apwp_assoc, busy_loop_unfold; [lia|].
  intros a2 H2 Hl2. apply apwp_barrier. intros a3 H3 Hl3. apply apwp_Act, awp_get_ticks.
  unfold age in *. pose proof (Hclk a3).
  replace (negb (ticks a1 =? ticks a3)) with (P - 2 <? n); [apply HQ; congruence|].
  destruct (Z.ltb_spec (P - 2) n), (Z.eqb_spec (ticks a1) (ticks a3)); simpl; nia.
Qed.
End calibration.

(** [T] with all but its highest ten bits cleared, from bit [i] on. *)
Definition clear_low (T i : Z) : Z := T - T mod 2 ^ i.

Lemma clear_low_step T i :
  0 ≤ T → 0 ≤ i →
  Z.lor (clear_low T (i + 1)) (2 ^ i) = clear_low T (i + 1) + 2 ^ i ∧
  clear_low T i = if T <? clear_low T (i + 1) + 2 ^ i then clear_low T (i + 1)
                  else clear_low T (i + 1) + 2 ^ i.
Proof.
  intros HT Hi. unfold clear_low. assert (Hp : 0 < 2 ^ i) by (apply Z.pow_pos_nonneg; lia).
  assert (H2 : 2 ^ (i + 1) = 2 * 2 ^ i) by (by rewrite Z.pow_add_r, Z.mul_comm by lia).
  pose proof (Z.div_mod T (2 ^ (i + 1)) ltac:(lia)) as Hd.
  pose proof (Z.mod_pos_bound T (2 ^ (i + 1)) ltac:(lia)) as Hm.
  set (q := T / 2 ^ (i + 1)) in *. set (r := T mod 2 ^ (i + 1)) in *. split.
  - replace (T - r) with (Z.shiftl q (i + 1)) by (rewrite Z.shiftl_mul_pow2 by lia; lia).
    rewrite <- Z.lxor_lor, <- Z.add_nocarry_lxor; [done|..]; apply Z.bits_inj'; intros j Hj;
      rewrite Z.land_spec, Z.shiftl_spec, Z.pow2_bits_eqb, Z.bits_0 by lia;
      (destruct (Z.eqb_spec i j) as [<-|]; [|by rewrite andb_false_r]);
      by rewrite Z.testbit_neg_r by lia.
  - destruct (Z.ltb_spec T (T - r + 2 ^ i)) as [Hlt|Hge].
    + rewrite <- (Z.mod_unique_pos T (2 ^ i) (2 * q) r); nia.
    + rewrite <- (Z.mod_unique_pos T (2 ^ i) (2 * q + 1) (r - 2 ^ i)); nia.
Qed.

Lemma clear_low_error T i : 0 ≤ i → clear_low T i ≤ T < clear_low T i + 2 ^ i.
Proof.
  intros Hi. unfold clear_low.
  pose proof (Z.mod_pos_bound T (2 ^ i) ltac:(apply Z.pow_pos_nonneg; lia)). lia.
Qed.

Section calibrate.
Context {E : Env} {EL : EnvLaws E} (barrier : K unit) (clk : aview → Z) (P : Z).
Context (Hreg : regular barrier clk P).

(** Doubling stops at the highest power of two that is not too many, unless
    [unsigned] cannot hold the one after it. *)
Lemma apwp_calibrate_double {A} (k : unit → prog A) j Q (a : aview) :
  0 ≤ j ≤ 31 → 2 ^ j ≤ P - 2 → loops_per_tick a = 2 ^ j →
  (P - 2 < 2 ^ 31 → ∀ a', loops_per_tick a' = 2 ^ Z.log2 (P - 2) → apwp (k ()) Q a') →
  (2 ^ 31 ≤ P - 2 → ∀ a', Q (OFault (EAssert "timer_calibrate: loops_per_tick != 0")) a') →
  apwp (loop (calibrate_double barrier) () ≫= k) Q a.
Proof.
  intros Hj HT Hl HQ HF. remember (Z.to_nat (31 - j)) as m eqn:Hm. revert j a Hj HT Hl Hm.
  induction m as [|m IH]; intros j a Hj HT Hl Hm; apply apwp_Loop, apwp_assoc, apwp_Act,
    awp_get_loops_per_tick; rewrite Hl, Z.shiftl_mul_pow2, <- Z.pow_add_r by lia.
  - assert (j = 31) as -> by lia. change (uint32 (2 ^ (31 + 1))) with 0. apply apwp_assoc.
    eapply (apwp_too_many_loops _ clk P Hreg); [bounds|]. intros a1 Hl1.
    destruct (Z.ltb_spec (P - 2) 0); [lia|]. apply apwp_assoc, apwp_Act, awp_put_loops_per_tick.
    apply apwp_assoc, apwp_ASSERT_fault; [done|]. by apply HF.
  - assert (H32 : 2 ^ (j + 1) < 4294967296)
      by (apply (Z.lt_le_trans _ (2 ^ 32)); [apply Z.pow_lt_mono_r; lia|lia]).
    assert (Hpos : 0 < 2 ^ (j + 1)) by (apply Z.pow_pos_nonneg; lia).
    rewrite uint32_id by lia. apply apwp_assoc.
    eapply (apwp_too_many_loops _ clk P Hreg); [bounds|]. intros a1 Hl1.
    destruct (Z.ltb_spec (P - 2) (2 ^ (j + 1))) as [Hlt|Hge].
    + assert (Hlog : Z.log2 (P - 2) = j) by (apply Z.log2_unique; lia).
      apply HQ; [|by rewrite Hlog, Hl1].
      apply (Z.lt_le_trans _ (2 ^ (j + 1))); [done|]. apply Z.pow_le_mono_r; lia.
    + apply apwp_assoc, apwp_Act, awp_put_loops_per_tick.
      apply apwp_assoc, apwp_Act, awp_ASSERT.
      { apply negb_true_iff, Z.eqb_neq. lia. }
      eapply (IH (j + 1)); [lia|done|done|lia].
Qed.

(** The bits below the highest, down to the tenth. *)
Lemma apwp_calibrate_refine {A} (k : unit → prog A) n h m Q (a : aview) :
  n = Z.log2 (P - 2) → 10 ≤ n ≤ 30 → n - 10 ≤ h < n → m = Z.to_nat (h - (n - 10)) →
  loops_per_tick a = clear_low (P - 2) (h + 1) →
  (∀ a', loops_per_tick a' = clear_low (P - 2) (n - 9) → apwp (k ()) Q a') →
  apwp (loop (calibrate_refine barrier (2 ^ n)) (2 ^ h) ≫= k) Q a.
Proof.
  intros Hn Hr Hh Hm Hl HQ. revert h a Hh Hm Hl.
  assert (HT : 2 ^ n ≤ P - 2 < 2 ^ (n + 1)).
  { rewrite Hn. apply Z.log2_spec. assert (P - 2 ≤ 0 → False); [|lia].
    intros H0%Z.log2_nonpos. lia. }
  assert (Hend : Z.shiftr (2 ^ n) 10 = 2 ^ (n - 10)).
  { rewrite Z.shiftr_div_pow2, <- Z.pow_sub_r by lia. done. }
  assert (H31 : 2 ^ (n + 1) ≤ 2 ^ 31) by (apply Z.pow_le_mono_r; lia).
  induction m as [|m IH]; intros h a Hh Hm Hl; apply apwp_Loop;
    unfold calibrate_refine at 2; rewrite Hend.
  - assert (h = n - 10) as -> by lia. rewrite Z.eqb_refl. apply HQ. rewrite Hl. f_equal. lia.
  - assert (Hne : 2 ^ h ≠ 2 ^ (n - 10)).
    { intros He%Z.pow_inj_r; lia. }
    apply Z.eqb_neq in Hne. rewrite Hne. apply apwp_assoc, apwp_Act, awp_get_loops_per_tick.
    destruct (clear_low_step (P - 2) h) as [Hor Hstep]; [lia|lia|].
    pose proof (clear_low_error (P - 2) (h + 1) ltac:(lia)) as Herr.
    assert (Hpow : 2 ^ (h + 1) = 2 * 2 ^ h) by (by rewrite Z.pow_add_r, Z.mul_comm by lia).
    assert (Hpos : 0 < 2 ^ h) by (apply Z.pow_pos_nonneg; lia).
    assert (Hsmall : 2 ^ h ≤ 2 ^ n) by (apply Z.pow_le_mono_r; lia).
    assert (Hcl : 0 ≤ clear_low (P - 2) (h + 1)).
    { unfold clear_low. pose proof (Z.mod_le (P - 2) (2 ^ (h + 1)) ltac:(lia) ltac:(lia)). lia. }
    rewrite Hl, Hor. apply apwp_assoc.
    eapply (apwp_too_many_loops _ clk P Hreg); [bounds|]. intros a1 Hl1.
    assert (Hnext : Z.shiftr (2 ^ h) 1 = 2 ^ (h - 1))
      by (rewrite Z.shiftr_div_pow2, <- Z.pow_sub_r by lia; done).
    assert (Hgo : ∀ b, loops_per_tick b = clear_low (P - 2) h →
      apwp (Loop (calibrate_refine barrier (2 ^ n)) (Z.shiftr (2 ^ h) 1) k) Q b).
    { intros b Hb. rewrite Hnext. apply (IH (h - 1)); [lia|lia|]. rewrite Hb. f_equal. lia. }
    destruct (P - 2 <? _).
    + apply Hgo. congruence.
    + apply apwp_assoc, apwp_Act, awp_put_loops_per_tick. apply Hgo. by rewrite Hstep.
Qed.
End calibrate.

(** * Delays *)

Section delay_properties.
Context {E : Env} {EL : EnvLaws E} (barrier : K unit) (clk : aview → Z) (P : Z).
Context (Hreg : regular barrier clk P).

(** C35: On a processor that makes [P] rounds of a delay loop per timer tick,
    calibration finds the largest number of rounds that fit into a tick, rounded
    down to ten significant bits: the error is less than one part in 512.  If
    2^31 rounds fit, the doubling overflows and the assertion catches it. *)
Theorem timer_calibrate_spec (a : aview) :
  iv_level (intr a) = INTR_ON → 1024 ≤ P - 2 →
  apwp (timer_calibrate barrier) (λ o a',
    if P - 2 <? 2 ^ 31 then
      o = ODone () ∧ loops_per_tick a' = clear_low (P - 2) (Z.log2 (P - 2) - 9) ∧
      loops_per_tick a' ≤ P - 2 ∧ 512 * (P - 2 - loops_per_tick a') < P - 2
    else o = OFault (EAssert "timer_calibrate: loops_per_tick != 0")) a.
Proof.
  intros Hl HT. apply apwp_Act, awp_intr_get_level. apply apwp_Act, awp_ASSERT; [by rewrite Hl|].
  apply apwp_Act, awp_put_loops_per_tick.
  eapply (apwp_calibrate_double barrier clk P Hreg _ 10); [lia|exact HT|done| |].
  2:{ intros H31 a'. by destruct (Z.ltb_spec (P - 2) (2 ^ 31)); [lia|]. }
  intros H31 a1 Ha1. destruct (Z.ltb_spec (P - 2) (2 ^ 31)); [|lia].
  apply apwp_Act, awp_get_loops_per_tick. rewrite Ha1.
  set (n := Z.log2 (P - 2)) in *.
  assert (Hn : 10 ≤ n ≤ 30).
  { split; [by apply (Z.log2_le_mono 1024)|]. cut (n < 31); [lia|]. apply Z.log2_lt_pow2; lia. }
  assert (Hlog : 2 ^ n ≤ P - 2 < 2 ^ (n + 1)) by (apply Z.log2_spec; lia).
  replace (Z.shiftr (2 ^ n) 1) with (2 ^ (n - 1))
    by (rewrite Z.shiftr_div_pow2, <- Z.pow_sub_r by lia; done).
  rewrite <- (prog_bind_ret_r (loop _ _)).
  eapply (apwp_calibrate_refine barrier clk P Hreg Ret n (n - 1)); [done|exact Hn|lia|done| |].
  { rewrite Ha1. replace (n - 1 + 1) with n by lia. unfold clear_low.
    rewrite <- (Z.mod_unique_pos (P - 2) (2 ^ n) 1 (P - 2 - 2 ^ n)); [lia| |lia].
    rewrite Z.pow_add_r in Hlog by lia. lia. }
  intros a2 Ha2. apply apwp_ret. rewrite Ha2. split; [done|]. split; [done|].
  pose proof (clear_low_error (P - 2) (n - 9) ltac:(lia)) as Herr. split; [apply Herr|].
  assert (512 * 2 ^ (n - 9) = 2 ^ n).
  { change 512 with (2 ^ 9). rewrite <- Z.pow_add_r by lia. f_equal. lia. }
  unfold clear_low in *.
  assert (Hex : P - 2 - (P - 2 - (P - 2) mod 2 ^ (n - 9)) < 2 ^ (n - 9)) by lia. lia.
Qed.

(** The rounds a delay of [num / denom] seconds takes. *)
Lemma delay_loops_exact lpt num denom :
  0 < denom → denom mod 1000 = 0 → 0 ≤ num → 0 ≤ lpt → lpt * num * TIMER_FREQ ≤ INT64_MAX →
  delay_loops lpt num denom = (lpt * num / 1000 * TIMER_FREQ) / (denom / 1000).
Proof.
  unfold delay_loops, TIMER_FREQ. intros Hd Hm Hn Hl Hmax.
  assert (H0 : 0 ≤ lpt * num) by nia.
  assert (Hk : 0 < denom / 1000).
  { apply Z.mod_divide in Hm as [q ->]; [|lia]. rewrite Z.div_mul by lia. lia. }
  rewrite (int64_id (lpt * num)) by bounds. rewrite (Z.quot_div_nonneg (lpt * num)) by lia.
  assert (Hq : 0 ≤ lpt * num / 1000 ≤ lpt * num).
  { split; [apply Z.div_pos; lia|]. apply Z.div_le_upper_bound; lia. }
  rewrite (int64_id (_ * 100)) by bounds. rewrite (Z.quot_div_nonneg denom) by lia.
  rewrite Z.quot_div_nonneg by lia. apply int64_id.
  assert (0 ≤ lpt * num / 1000 * 100 / (denom / 1000) ≤ lpt * num / 1000 * 100).
  { split; [apply Z.div_pos; lia|]. apply Z.div_le_upper_bound; nia. }
  bounds.
Qed.

Lemma delay_bound lpt num denom :
  0 < denom → denom mod 1000 = 0 → 0 ≤ num → 0 ≤ lpt → lpt * num * TIMER_FREQ ≤ INT64_MAX →
  delay_loops lpt num denom = (lpt * num / 1000 * TIMER_FREQ) / (denom / 1000) ∧
  Z.max 0 (delay_loops lpt num denom) * denom ≤ lpt * TIMER_FREQ * num.
Proof.
  intros Hd Hm Hn Hl Hmax. rewrite delay_loops_exact by done. split; [done|].
  assert (Hk : 0 < denom / 1000 ∧ denom = 1000 * (denom / 1000)).
  { apply Z.mod_divide in Hm as [q ->]; [|lia]. rewrite Z.div_mul by lia. lia. }
  assert (Hq : 0 ≤ lpt * num / 1000) by (apply Z.div_pos; nia).
  unfold TIMER_FREQ in *. set (x := lpt * num / 1000) in *.
  assert (Hx : 0 ≤ x * 100 / (denom / 1000)) by (apply Z.div_pos; lia).
  rewrite Z.max_r by done.
  pose proof (Z.mul_div_le (x * 100) (denom / 1000) ltac:(lia)) as H1.
  pose proof (Z.mul_div_le (lpt * num) 1000 ltac:(lia)) as H2. fold x in H2.
  set (y := x * 100 / (denom / 1000)) in *. nia.
Qed.

(** Shorter than a tick: no intermediate result leaves [int64_t], whatever the
    calibration has found. *)
Lemma short_delay_fits lpt num denom :
  0 ≤ lpt ≤ UINT_MAX → denom ≤ INT_MAX → 0 ≤ num → num * TIMER_FREQ < denom →
  lpt * num * TIMER_FREQ ≤ INT64_MAX.
Proof.
  intros Hl Hd Hn Hlt. rewrite <- Z.mul_assoc. transitivity (UINT_MAX * INT_MAX); [|by vm_compute].
  assert (0 ≤ num * TIMER_FREQ) by (unfold TIMER_FREQ in *; lia).
  apply Z.mul_le_mono_nonneg; lia.
Qed.

Lemma delay_loops_range lpt num denom : INT64_MIN ≤ delay_loops lpt num denom ≤ INT64_MAX.
Proof. apply int64_range. Qed.

(** A delay of no rounds at all. *)
Lemma busy_loop_skip {A} n (k : unit → prog A) Q (a : aview) :
  n ≤ 0 → apwp (k ()) Q a → apwp (busy_wait barrier n ≫= k) Q a.
Proof.
  intros Hn HQ. apply apwp_Loop. cbn beta. by destruct (Z.gtb_spec n 0); [lia|].
Qed.

(** C36: A delay of [num / denom] seconds makes as many rounds of the delay loop as
    [delay_loops] says, or none if that is negative, and returns.  [delay_loops]
    computes modulo [2 ^ 64].  Its result is
    [loops_per_tick * num / 1000 * TIMER_FREQ / (denom / 1000)], and not more
    than the exact number of rounds, if the delay is shorter than a timer tick,
    as those of the sleep functions are, whatever the calibration has found; and
    if it is longer, as those of [timer_mdelay] may be, as long as
    [loops_per_tick * num * TIMER_FREQ] fits: the scaling by 1000 comes too late
    to help there. *)
Theorem real_time_delay_spec num denom (a : aview) :
  0 < denom ≤ INT_MAX → denom mod 1000 = 0 → 0 ≤ loops_per_tick a ≤ UINT_MAX →
  apwp (real_time_delay barrier num denom) (λ o a', o = ODone () ∧
    let n := delay_loops (loops_per_tick a) num denom in
    age clk P a' = age clk P a + Z.max 0 n ∧
    (0 ≤ num →
     num * TIMER_FREQ < denom ∨ loops_per_tick a * num * TIMER_FREQ ≤ INT64_MAX →
       n = (loops_per_tick a * num / 1000 * TIMER_FREQ) / (denom / 1000) ∧
       (age clk P a' - age clk P a) * denom ≤ loops_per_tick a * TIMER_FREQ * num)) a.
Proof.
  intros Hd Hm Hl. apply apwp_Act, awp_ASSERT.
  { rewrite Z.rem_mod_nonneg, Hm by lia. done. }
  apply apwp_Act, awp_get_loops_per_tick. apply apwp_Act.
  assert (Hk : 0 < denom / 1000 ∧ denom = 1000 * (denom / 1000)).
  { apply Z.mod_divide in Hm as [q ->]; [|lia]. rewrite Z.div_mul by lia. lia. }
  unfold check_divisor. rewrite Z.quot_div_nonneg by lia.
  destruct (Z.eqb_spec (denom / 1000) 0); [lia|]. apply awp_ret.
  pose proof (delay_loops_range (loops_per_tick a) num denom) as Hr.
  rewrite <- (prog_bind_ret_r (busy_wait _ _)).
  assert (HQ : ∀ a', age clk P a' = age clk P a + Z.max 0 (delay_loops (loops_per_tick a) num denom) →
    0 ≤ num → num * TIMER_FREQ < denom ∨ loops_per_tick a * num * TIMER_FREQ ≤ INT64_MAX →
    delay_loops (loops_per_tick a) num denom =
      (loops_per_tick a * num / 1000 * TIMER_FREQ) / (denom / 1000) ∧
    (age clk P a' - age clk P a) * denom ≤ loops_per_tick a * TIMER_FREQ * num).
  { intros a' -> Hn Hf. replace (_ + _ - _)
      with (Z.max 0 (delay_loops (loops_per_tick a) num denom)) by lia.
    apply delay_bound; try lia. destruct Hf; [|done]. by apply (short_delay_fits _ _ denom); lia. }
  destruct (Z.le_gt_cases (delay_loops (loops_per_tick a) num denom) 0).
  - apply busy_loop_skip; [done|]. apply apwp_ret. split_and!; [done|lia|apply HQ; lia].
  - eapply (busy_loop_unfold barrier clk P Hreg); [bounds|]. intros a' Ha' _. apply apwp_ret.
    split_and!; [done|lia|apply HQ; lia].
Qed.
End delay_properties.

(** * Witnesses *)
Section witnesses.
#[local] Existing Instances concrete_env concrete_env_laws.

Definition wit_delay : kstate := set_intr (IView INTR_ON false false : istate) (sched_state 31).

(** A processor that makes 5003 rounds per tick, counting them in [user_ticks]. *)
Definition wit_barrier : K unit :=
  modify (λ s, set_ticks (ticks s + if user_ticks s mod 5003 =? 5002 then 1 else 0)
                 (set_user_ticks (user_ticks s + 1) s)).

Lemma wit_regular : regular wit_barrier (λ a, user_ticks a mod 5003) 5003.
Proof.
  split; [intros a; apply Z.mod_pos_bound; lia|]. intros a. unfold wit_barrier.
  apply (awp_modify _ (set_ticks (ticks a + if user_ticks a mod 5003 =? 5002 then 1 else 0)
    (set_user_ticks (user_ticks a + 1) a))); [by intros s <-|]. split; [|done]. unfold age. cbn.
  pose proof (Z.div_mod (user_ticks a) 5003 ltac:(lia)).
  pose proof (Z.mod_pos_bound (user_ticks a) 5003 ltac:(lia)).
  destruct (Z.eqb_spec (user_ticks a mod 5003) 5002).
  - rewrite <- (Z.mod_unique_pos (user_ticks a + 1) 5003 (user_ticks a / 5003 + 1) 0); lia.
  - rewrite <- (Z.mod_unique_pos (user_ticks a + 1) 5003 (user_ticks a / 5003)
      (user_ticks a mod 5003 + 1)); lia.
Defined.

Lemma timer_calibrate_spec_witness :
  ends_at (timer_calibrate wit_barrier) (λ o a', o = ODone () ∧ loops_per_tick a' = 5000)
    wit_delay.
Proof.
  eapply ends_mono.
  - apply apwp_ends, (timer_calibrate_spec wit_barrier _ 5003 wit_regular); by_test.
  - by intros o a' (-> & -> & _).
Defined.

(** A millisecond at 5000 rounds per tick of 10 milliseconds. *)
Lemma real_time_delay_spec_witness :
  ends_at (timer_mdelay wit_barrier 1) (λ o a', o = ODone () ∧
      age (λ a, user_ticks a mod 5003) 5003 a' = 500)
    (set_loops_per_tick 5000 wit_delay).
Proof.
  eapply ends_mono.
  - apply apwp_ends, (real_time_delay_spec wit_barrier _ 5003 wit_regular 1 1000); by_test.
  - by intros o a' (-> & -> & H).
Defined.
End witnesses.
