(* ===== verification/Boot.v ===== *)
(** threads/init.c: the kernel command line.

    The loader leaves the number of arguments and the arguments, one after the
    other and each ended by a NUL, in a buffer of [LOADER_ARGS_LEN] bytes.
    [read_command_line] finds them, [parse_options] acts on the leading options,
    and [run_actions] runs the rest.  A pointer into the buffer is an offset.
    What is compiled for FILESYS, VM and USERPROG kernels only depends on [Build].
    Library and device functions are parameters ([Services]). *)
From S2P Require Import Prelude Env Kernel Thread Mlfqs Ready Sched Wait SampleSched.
From Stdlib Require Import Ascii.
From stdpp Require Import pretty.
#[local] Open Scope Z_scope.

Definition NUL : ascii := zero.

(** * Strings in memory *)

(** [strnlen (p, end - p)] at the start of [mem]. *)
Fixpoint strnlen (mem : list ascii) : nat :=
  match mem with
  | [] => O
  | c :: mem' => if decide (c = NUL) then O else S (strnlen mem')
  end.

(** The string at offset [p]; reading past the buffer is out of bounds. *)
Definition c_string (mem : list ascii) (p : nat) : res string :=
  let n := strnlen (drop p mem) in
  if bool_decide (p + n < length mem)%nat
  then Ok (String.string_of_list_ascii (take n (drop p mem)))
  else Err EOutOfBounds.

(** The loop over [argv[i] = p]; [i] counts from [i] up to [i + n]. *)
Fixpoint scan_args (n i : nat) (p : nat) (mem : list ascii) : res (list nat) :=
  match n with
  | O => if bool_decide (i < length mem / 2 + 1)%nat then Ok [] else Err EOutOfBounds
  | S n =>
      if bool_decide (length mem ≤ p)%nat
      then Err (EPanic "command line arguments overflow")
      else if bool_decide (i < length mem / 2 + 1)%nat then
        ps ← scan_args n (S i) (p + strnlen (drop p mem) + 1) mem;
        Ok (p :: ps)
      else Err EOutOfBounds
  end.

Fixpoint c_strings (mem : list ascii) (ps : list nat) : res (list string) :=
  match ps with
  | [] => Ok []
  | p :: ps => s ← c_string mem p; ss ← c_strings mem ps; Ok (s :: ss)
  end.

(** The command line is printed, which reads every argument to its end. *)
Definition read_command_line (argc : nat) (mem : list ascii) : res (list string) :=
  argv ← scan_args argc 0 0 mem; c_strings mem argv.

(** * Options *)

(** [strtok_r (s, "=", &save_ptr)] and then [strtok_r (NULL, "", &save_ptr)], for
    a string that does not start with a delimiter. *)
Fixpoint split_option (s : string) : string * option string :=
  match s with
  | EmptyString => (EmptyString, None)
  | String c s' =>
      if decide (c = "="%char) then
        (EmptyString, match s' with EmptyString => None | _ => Some s' end)
      else let '(name, value) := split_option s' in (String c name, value)
  end.

Inductive shutdown_type : Type := SHUTDOWN_POWER_OFF | SHUTDOWN_REBOOT.

Definition is_option (s : string) : bool :=
  match s with String c _ => bool_decide (c = "-"%char) | EmptyString => false end.

(** ** The build and the services *)

(** The symbols that [#ifdef] asks for. *)
Class Build : Type := { FILESYS : bool; VM : bool; USERPROG : bool }.

(** Functions of the devices, the library, the tests, the user programs and the
    file system. *)
Class Services {E : Env} : Type := {
  shutdown_configure : shutdown_type → K unit;
  shutdown_power_off : K unit;
  random_init : Z → K unit;
  rtc_get_time : K Z;
  atoi : string → Z;
  run_test : string → prog unit;
  process_execute : string → prog Z;
  process_wait : Z → prog unit;
  fsutil_ls : list string → prog unit;
  fsutil_cat : list string → prog unit;
  fsutil_rm : list string → prog unit;
  fsutil_extract : list string → prog unit;
  fsutil_append : list string → prog unit
}.

(** The static variables of init.c that options set; [size_t] has 32 bits. *)
Record settings : Type := Settings {
  format_filesys : bool;
  filesys_bdev_name : option string;
  scratch_bdev_name : option string;
  swap_bdev_name : option string;
  user_page_limit : Z
}.

Definition SIZE_MAX : Z := 4294967295.
Definition unset : settings := Settings false None None None SIZE_MAX.

Section code.
Context {E : Env} {B : Build} {SV : Services}.

(** [usage], less the message it prints. *)
Definition usage : K unit := shutdown_power_off.

Definition parse_option (arg : string) (st : settings) : K settings :=
  let '(name, value) := split_option arg in
  let '(Settings f fs sc sw ul) := st in
  if String.eqb name "-h" then usage;; mret st
  else if String.eqb name "-q" then shutdown_configure SHUTDOWN_POWER_OFF;; mret st
  else if String.eqb name "-r" then shutdown_configure SHUTDOWN_REBOOT;; mret st
  else if FILESYS && String.eqb name "-f" then mret (Settings true fs sc sw ul)
  else if FILESYS && String.eqb name "-filesys" then mret (Settings f value sc sw ul)
  else if FILESYS && String.eqb name "-scratch" then mret (Settings f fs value sw ul)
  else if FILESYS && VM && String.eqb name "-swap" then mret (Settings f fs sc value ul)
  else if String.eqb name "-rs" then
    v ← lift_opt EBadPtr value; random_init (atoi v);; mret st
  else if String.eqb name "-mlfqs" then modify (set_thread_mlfqs true);; mret st
  else if USERPROG && String.eqb name "-ul" then
    v ← lift_opt EBadPtr value; mret (Settings f fs sc sw (uint32 (atoi v)))
  else fail (EPanic ("unknown option `" ++ name ++ "' (use -h for help)")).

Fixpoint parse_argv (argv : list string) (st : settings) : K (list string * settings) :=
  match argv with
  | [] => mret ([], st)
  | arg :: argv' =>
      if is_option arg then st ← parse_option arg st; parse_argv argv' st else mret (argv, st)
  end.

Definition parse_options (argv : list string) : K (list string * settings) :=
  r ← parse_argv argv unset;
  t ← rtc_get_time;
  random_init t;;
  mret r.

(** * Actions *)

Definition run_task (argv : list string) : prog unit :=
  match argv !! 1%nat with
  | Some task =>
      if USERPROG then (pid ← process_execute task; process_wait pid) else run_test task
  | None => act (fail EBadPtr)
  end.

(** [{"run", 2, run_task}] *)
Record action : Type := Action {
  a_name : string;
  a_argc : nat;
  a_function : list string → prog unit
}.

Definition actions : list action :=
  Action "run" 2 run_task ::
  if FILESYS then
    [Action "ls" 1 fsutil_ls; Action "cat" 2 fsutil_cat; Action "rm" 2 fsutil_rm;
     Action "extract" 1 fsutil_extract; Action "append" 2 fsutil_append]
  else [].

Definition find_action (name : string) : option action :=
  List.find (λ a, String.eqb name (a_name a)) actions.

(** One round of the loop over [argv]. *)
Definition run_action (argv : list string) : prog (list string + unit) :=
  match argv with
  | [] => mret (inr ())
  | arg :: _ =>
      match find_action arg with
      | None => act (fail (EPanic ("unknown action `" ++ arg ++ "' (use -h for help)")))
      | Some a =>
          (if bool_decide (a_argc a ≤ length argv)%nat then mret ()
           else act (fail (EPanic ("action `" ++ arg ++ "' requires " ++
                 pretty (a_argc a - 1)%nat ++ " argument(s)"))));;
          a_function a argv;;
          mret (inl (drop (a_argc a) argv))
      end
  end.

Definition run_actions (argv : list string) : prog unit := loop run_action argv.
End code.

(** * The command line the loader stores *)

Definition no_nul (s : string) : Prop := NUL ∉ String.list_ascii_of_string s.

Definition encode_arg (s : string) : list ascii := String.list_ascii_of_string s ++ [NUL].
Definition encode (args : list string) : list ascii := concat (encode_arg <$> args).

Lemma strnlen_encode s mem : no_nul s → strnlen (encode_arg s ++ mem) = String.length s.
Proof.
  unfold no_nul, encode_arg. rewrite <- (assoc_L (++)). induction s as [|c s IH]; simpl; intros Hs.
  - done.
  - rewrite decide_False by (intros ->; apply Hs; by left). f_equal. apply IH. set_solver.
Qed.

Lemma length_encode_arg s : length (encode_arg s) = (String.length s + 1)%nat.
Proof.
  unfold encode_arg. rewrite length_app. simpl. f_equal. by induction s; simpl; f_equal.
Qed.

Lemma encode_cons s args : encode (s :: args) = encode_arg s ++ encode args.
Proof. done. Qed.

(** Arguments that are not empty take at least two bytes each. *)
Lemma length_encode args :
  Forall (.≠ EmptyString) args → (2 * length args ≤ length (encode args))%nat.
Proof.
  induction 1 as [|s args Hs _ IH]; [done|].
  rewrite encode_cons, length_app, length_encode_arg. destruct s; [done|]. simpl in *. lia.
Qed.

(** Where the arguments start. *)
Fixpoint offsets (p : nat) (args : list string) : list nat :=
  match args with
  | [] => []
  | s :: args => p :: offsets (p + length (encode_arg s)) args
  end.

Lemma scan_args_encode mem pad args : ∀ n i pre,
  n = length args → mem = pre ++ encode args ++ pad → Forall no_nul args →
  (i + n ≤ length mem / 2)%nat →
  scan_args n i (length pre) mem = Ok (offsets (length pre) args).
Proof.
  induction args as [|s args IH]; intros n i pre -> Hmem Hf Hi; simpl in *.
  - by rewrite bool_decide_true by lia.
  - apply Forall_cons in Hf as [Hs Hf]. rewrite encode_cons, <- (assoc_L (++)) in Hmem.
    assert (Hlen : (length pre < length mem)%nat).
    { rewrite Hmem, !length_app, length_encode_arg. lia. }
    rewrite bool_decide_false by lia. rewrite bool_decide_true by lia.
    assert (Hdrop : drop (length pre) mem = encode_arg s ++ encode args ++ pad)
      by (by rewrite Hmem, drop_app_length).
    rewrite Hdrop, strnlen_encode by done.
    replace (length pre + String.length s + 1)%nat with (length (pre ++ encode_arg s))
      by (rewrite length_app, length_encode_arg; lia).
    rewrite (IH _ _ (pre ++ encode_arg s)); [|done|by rewrite <- (assoc_L (++))|done|lia].
    by rewrite length_app.
Qed.

Lemma c_strings_encode mem pad args : ∀ pre,
  mem = pre ++ encode args ++ pad → Forall no_nul args →
  c_strings mem (offsets (length pre) args) = Ok args.
Proof.
  induction args as [|s args IH]; intros pre Hmem Hf; simpl; [done|].
  apply Forall_cons in Hf as [Hs Hf]. rewrite encode_cons, <- (assoc_L (++)) in Hmem.
  assert (Hdrop : drop (length pre) mem = encode_arg s ++ encode args ++ pad)
    by (by rewrite Hmem, drop_app_length).
  unfold c_string. rewrite Hdrop, strnlen_encode by done.
  rewrite bool_decide_true by (rewrite Hmem, !length_app, length_encode_arg; lia).
  assert (Htake : take (String.length s) (encode_arg s ++ encode args ++ pad) =
    String.list_ascii_of_string s).
  { unfold encode_arg. rewrite <- (assoc_L (++)). apply take_app_length'.
    by clear; induction s; simpl; f_equal. }
  rewrite Htake, String.string_of_list_ascii_of_string. simpl.
  rewrite <- length_app, (IH (pre ++ encode_arg s)); [done| |done].
  by rewrite <- (assoc_L (++)).
Qed.

(** * What the options mean *)

(** The leading arguments that are options, and the others. *)
Fixpoint leading_options (argv : list string) : list string :=
  match argv with
  | [] => []
  | arg :: argv => if is_option arg then arg :: leading_options argv else []
  end.
Definition operands (argv : list string) : list string := drop (length (leading_options argv)) argv.

Lemma leading_options_split argv :
  argv = leading_options argv ++ operands argv ∧
  Forall (λ s, is_option s = true) (leading_options argv) ∧
  match operands argv with [] => True | s :: _ => is_option s = false end.
Proof.
  unfold operands. induction argv as [|arg argv (IH1 & IH2 & IH3)]; simpl; [done|].
  destruct (is_option arg) eqn:Ha; simpl; [|done].
  split_and!; [by f_equal|by constructor|done].
Qed.

Definition named (name arg : string) : bool := String.eqb (split_option arg).1 name.

Section meaning.
Context {E : Env} {B : Build} {SV : Services}.

(** The options of the build, those whose value may be missing and those whose
    value is used. *)
Definition options_known : list string :=
  ["-q"; "-r"; "-mlfqs"] ++
  if FILESYS then ["-f"; "-filesys"; "-scratch"] ++ (if VM then ["-swap"] else []) else [].
Definition options_valued : list string := "-rs" :: if USERPROG then ["-ul"] else [].

(** What is wrong with an option. *)
Definition option_error (arg : string) : option error :=
  let '(name, value) := split_option arg in
  if String.eqb name "-h" then Some EPowerOff
  else if existsb (String.eqb name) options_known then None
  else if existsb (String.eqb name) options_valued then
    match value with Some _ => None | None => Some EBadPtr end
  else Some (EPanic ("unknown option `" ++ name ++ "' (use -h for help)")).

Fixpoint first_error (opts : list string) : option error :=
  match opts with
  | [] => None
  | arg :: opts => match option_error arg with Some e => Some e | None => first_error opts end
  end.

(** The value of the last option of the name, or [d] if there is none. *)
Definition last_value {X} (f : option string → X) (name : string) (d : X) (opts : list string) : X :=
  foldl (λ d arg, if named name arg then f (split_option arg).2 else d) d opts.

Definition settings_of (opts : list string) (st : settings) : settings :=
  Settings (format_filesys st || existsb (named "-f") opts)
    (last_value id "-filesys" (filesys_bdev_name st) opts)
    (last_value id "-scratch" (scratch_bdev_name st) opts)
    (last_value id "-swap" (swap_bdev_name st) opts)
    (last_value (λ v, uint32 (atoi (default "" v))) "-ul" (user_page_limit st) opts).

(** What the command line says: the remaining arguments, the settings, and
    whether the feedback scheduler is chosen. *)
Definition meaning_from (st : settings) (argv : list string) : res (list string * settings * bool) :=
  let opts := leading_options argv in
  match first_error opts with
  | Some e => Err e
  | None => Ok (operands argv, settings_of opts st, existsb (named "-mlfqs") opts)
  end.
Definition options_meaning : list string → res (list string * settings * bool) := meaning_from unset.

Lemma settings_of_cons arg opts st :
  settings_of (arg :: opts) st = settings_of opts (settings_of [arg] st).
Proof. unfold settings_of. simpl. by rewrite orb_false_r, orb_assoc. Qed.
End meaning.

Section properties.
Context {E : Env} {EL : EnvLaws E}.

(** C38: The arguments the loader stores, none of them empty or containing a NUL,
    are read back exactly: neither the check for overflow of the buffer nor the
    bound of [argv] is hit, and every argument is terminated. *)
Theorem read_command_line_roundtrip args pad :
  Forall no_nul args → Forall (.≠ EmptyString) args →
  read_command_line (length args) (encode args ++ pad) = Ok args.
Proof.
  intros Hn He. unfold read_command_line.
  rewrite (scan_args_encode _ pad args _ _ []); [|done..|].
  - by apply (c_strings_encode _ pad args []).
  - pose proof (length_encode args He). rewrite length_app.
    apply Nat.div_le_lower_bound; lia.
Qed.

Context {B : Build} {SV : Services}.

(** The devices do not touch the memory of the kernel; [shutdown_power_off] does
    not return. *)
Definition devices_ok : Prop :=
  (∀ x Q (a : aview), Q () a → awp (shutdown_configure x) Q a) ∧
  (∀ s, shutdown_power_off s = Err EPowerOff) ∧
  (∀ x Q (a : aview), Q () a → awp (random_init x) Q a) ∧
  (∀ Q (a : aview), (∀ t, Q t a) → awp rtc_get_time Q a).

(** [m] does what the reference says, in every state that looks like [a]. *)
Definition follows {A} (m : K A) (r : res (A * bool)) (a : aview) : Prop :=
  ∀ s, obs s = a →
    match r with
    | Ok (x, b) => holds_at m (λ y a', y = x ∧ a' = set_thread_mlfqs (thread_mlfqs a || b) a) s
    | Err e => m s = Err e
    end.

Lemma set_thread_mlfqs_false (a : aview) : set_thread_mlfqs (thread_mlfqs a || false) a = a.
Proof. rewrite orb_false_r. by destruct a. Qed.

(** Cases on the name of the option. *)
Ltac name_cases name :=
  repeat match goal with
  | |- context [String.eqb name ?n] => destruct (String.eqb_spec name n) as [->|?]
  end.

Ltac name_differs :=
  repeat match goal with
  | H : ?x ≠ ?n |- context [String.eqb ?x ?n] => rewrite (proj2 (String.eqb_neq x n) H)
  end.

Ltac build_cases :=
  repeat (match goal with
  | |- context [@FILESYS ?b] => destruct (@FILESYS b)
  | |- context [@VM ?b] => destruct (@VM b)
  | |- context [@USERPROG ?b] => destruct (@USERPROG b)
  end; simpl).

Lemma awp_set_mlfqs Q (a : aview) :
  Q () (set_thread_mlfqs true a) → awp (modify (set_thread_mlfqs true)) Q a.
Proof. intros HQ. eapply awp_modify; [|exact HQ]. by intros s <-. Qed.

Lemma parse_option_means arg st (a : aview) :
  devices_ok →
  match option_error arg with
  | Some e => ∀ s, parse_option arg st s = Err e
  | None => awp (parse_option arg st) (λ st' b,
      st' = settings_of [arg] st ∧ b = set_thread_mlfqs (thread_mlfqs a || named "-mlfqs" arg) a) a
  end.
Proof.
  intros (Hcfg & Hoff & Hrnd & _).
  unfold option_error, parse_option, usage, settings_of, last_value, named,
    options_known, options_valued.
  destruct st as [f fs sc sw ul]. destruct (split_option arg) as [name value] eqn:Hs. cbn [foldl existsb].
  rewrite Hs. cbn [fst snd]. name_cases name.
  all: name_differs; simpl; rewrite ?andb_false_r, ?orb_false_r, ?orb_true_r; simpl; build_cases;
    name_differs; simpl.
  all: try by (intros s; unfold mbind, K_bind; rewrite Hoff).
  all: try by (intros s; reflexivity).
  all: destruct value as [v|]; simpl; try by (intros s; reflexivity).
  all: try (apply awp_bind, Hcfg).
  all: try (apply awp_bind, awp_ret, awp_bind, Hrnd).
  all: try (apply awp_bind, awp_set_mlfqs).
  all: try (apply awp_bind, awp_ret).
  all: apply awp_ret; split; [done|]; by destruct a.
Qed.

(** One step, in a state that the step before it has left. *)
Lemma follows_step {A} (m : K settings) (k : settings → K A) st' b r (a a' : aview) :
  awp m (λ st x, st = st' ∧ x = a') a → a' = set_thread_mlfqs (thread_mlfqs a || b) a →
  follows (k st') r a' →
  follows (m ≫= k) (match r with Ok (x, c) => Ok (x, b || c) | Err e => Err e end) a.
Proof.
  intros Hm -> Hk s Hs. specialize (Hm s Hs). unfold holds_at, mbind, K_bind in *.
  destruct (m s) as [[st s1]|]; [|done]. destruct Hm as [-> Hm]. specialize (Hk s1 Hm).
  destruct r as [[x c]|e]; [|done]. unfold holds_at in *. destruct (k st' s1) as [[y s2]|]; [|done].
  destruct Hk as [-> ->]. cbn. by rewrite orb_assoc.
Qed.

Lemma follows_same {A} (x : A) (a : aview) : follows (mret x) (Ok (x, false)) a.
Proof. intros s Hs. split; [done|]. by rewrite set_thread_mlfqs_false. Qed.

Lemma parse_argv_follows argv : ∀ st (a : aview),
  devices_ok → follows (parse_argv argv st) (meaning_from st argv) a.
Proof.
  unfold meaning_from, operands.
  induction argv as [|arg argv IH]; intros st a Hd; simpl.
  { pose proof (follows_same ([] : list string, st) a) as H. destruct st as [[] ? ? ? ?]; apply H. }
  destruct (is_option arg); simpl.
  2:{ pose proof (follows_same (arg :: argv, st) a) as H. destruct st as [[] ? ? ? ?]; apply H. }
  pose proof (parse_option_means arg st a Hd) as Ho. destruct (option_error arg) as [e|].
  { intros s _. unfold mbind, K_bind. by rewrite Ho. }
  pose proof (follows_step _ (parse_argv argv) _ _ _ a _ Ho eq_refl (IH (settings_of [arg] st) _ Hd)) as H.
  destruct (first_error (leading_options argv)); [exact H|].
  by rewrite settings_of_cons.
Qed.

Lemma parse_options_follows argv (a : aview) :
  devices_ok → follows (parse_options argv) (options_meaning argv) a.
Proof.
  intros Hd s Hs. pose proof (parse_argv_follows argv unset a Hd s Hs) as H.
  destruct Hd as (_ & _ & Hrnd & Hrtc). unfold options_meaning.
  unfold parse_options, mbind, K_bind, holds_at in *.
  destruct (meaning_from unset argv) as [[r m]|e']; [|by rewrite H].
  destruct (parse_argv argv unset s) as [[r' s1]|e]; [|done].
  destruct H as [-> H]. rewrite <- H.
  assert (Haw : awp (t ← rtc_get_time; random_init t;; mret r)
    (λ x b, x = r ∧ b = obs s1) (obs s1)).
  { apply awp_bind, Hrtc. intros t. apply awp_bind, Hrnd. by apply awp_ret. }
  exact (Haw s1 eq_refl).
Qed.

(** C39: Parsing the options does what the command line says, in every build.  The
    leading arguments that begin with "-" are the options.  If none of them is
    wrong, the feedback scheduler is selected if and only if "-mlfqs" is among
    them, the file system is to be formatted if "-f" is, each device name and
    the page limit are those of the last option that gives them, what is
    returned are the remaining arguments, and nothing else of the kernel's
    memory changes.  Otherwise the first wrong option stops the kernel: "-h"
    powers off, one that the build does not have panics, and "-rs" or "-ul"
    without a value dereferences NULL. *)
Theorem parse_options_spec argv (a : aview) :
  devices_ok →
  let opts := leading_options argv in
  (argv = opts ++ operands argv ∧ Forall (λ s, is_option s = true) opts ∧
   match operands argv with [] => True | s :: _ => is_option s = false end) ∧
  ∀ s, obs s = a →
    match first_error opts with
    | None => holds_at (parse_options argv) (λ r a',
        r = (operands argv, settings_of opts unset) ∧
        a' = set_thread_mlfqs (thread_mlfqs a || existsb (named "-mlfqs") opts) a) s
    | Some e => parse_options argv s = Err e
    end.
Proof.
  intros Hd opts. split; [apply leading_options_split|]. intros s Hs.
  pose proof (parse_options_follows argv a Hd s Hs) as H. unfold options_meaning, meaning_from in H.
  subst opts. by destruct (first_error (leading_options argv)).
Qed.

(** The actions "run t1 run t2 ..." run the tests in order, each once, and then
    stop; [Inv ts] is any property that holds once the tests [ts] have run.  A
    test may give up the processor as often as it likes. *)
Lemma run_actions_spec G C tests (Inv : list string → aview → Prop) (s a : aview) :
  USERPROG = false →
  (∀ pre t post s b, tests = pre ++ t :: post → Inv pre b →
     swp G C s (run_test t) (λ _ _, Inv (pre ++ [t])) b) →
  Inv [] a →
  swp G C s (run_actions (concat ((λ t, ["run"; t]) <$> tests))) (λ _ _, Inv tests) a.
Proof.
  intros Hu Ht Ha. assert (Hgen : ∀ post pre s b, tests = pre ++ post → Inv pre b →
    swp G C s (run_actions (concat ((λ t, ["run"; t]) <$> post))) (λ _ _, Inv tests) b);
    [|by apply (Hgen tests [])].
  induction post as [|t post IH]; intros pre s1 b Hts Hb; apply swp_unroll.
  - rewrite app_nil_r in Hts. subst pre. by apply swp_ret.
  - simpl. apply swp_assoc. simpl. unfold run_task. simpl. rewrite Hu. apply swp_bind.
    eapply swp_mono; [by eapply Ht|]. intros s2 [] c Hc.
    apply (IH (pre ++ [t])); [by rewrite <- (assoc_L (++))|done].
Qed.
End properties.

(** * Witnesses *)
Section witnesses.
#[local] Existing Instances concrete_env concrete_env_laws.

Lemma read_command_line_roundtrip_witness :
  read_command_line 3 (encode ["-mlfqs"; "run"; "alarm-multiple"] ++ replicate 100 NUL) =
    Ok ["-mlfqs"; "run"; "alarm-multiple"].
Proof.
  apply (read_command_line_roundtrip ["-mlfqs"; "run"; "alarm-multiple"]).
  - repeat constructor; apply (bool_decide_eq_true_1 _); vm_compute; reflexivity.
  - by repeat constructor.
Defined.

(** A kernel with a file system; devices that do nothing; the clock stands still;
    tests count themselves in [load_avg]. *)
#[local] Instance wit_build : Build := {| FILESYS := true; VM := false; USERPROG := false |}.
#[local] Instance wit_services : Services := {|
  shutdown_configure _ := mret ();
  shutdown_power_off := fail EPowerOff;
  random_init _ := mret ();
  rtc_get_time := mret 0;
  atoi _ := 7;
  run_test t := act (put_load_avg (Z.of_nat (String.length t)));
  process_execute _ := mret (-1);
  process_wait _ := mret ();
  fsutil_ls _ := mret ();
  fsutil_cat _ := mret ();
  fsutil_rm _ := mret ();
  fsutil_extract _ := mret ();
  fsutil_append _ := mret ()
|}.

Definition wit_argv : list string :=
  ["-q"; "-filesys=hda2"; "-rs=42"; "-mlfqs"; "-filesys=hdb1"; "run"; "mlfqs-load-1"].

Lemma parse_options_spec_witness :
  holds_at (parse_options wit_argv)
    (λ r a', r.1 = ["run"; "mlfqs-load-1"] ∧ filesys_bdev_name r.2 = Some "hdb1" ∧
       thread_mlfqs a' = true) (sched_state 31).
Proof.
  destruct (parse_options_spec wit_argv (obs (sched_state 31))) as [_ H].
  { split_and!; [intros; by apply awp_ret|done|intros; by apply awp_ret|intros; by apply awp_ret]. }
  specialize (H (sched_state 31) eq_refl).
  assert (He : first_error (leading_options wit_argv) = None) by (vm_compute; reflexivity).
  rewrite He in H. eapply holds_mono; [exact H|].
  intros r a' [-> ->]. split_and!; vm_compute; reflexivity.
Defined.

Lemma run_actions_spec_witness :
  ends_at (run_actions ["run"; "a"; "run"; "bcd"])
    (λ o a', ∃ r, o = ODone r ∧ load_avg a' = 3) (sched_state 31).
Proof.
  eapply ends_mono.
  - apply apwp_ends, swp_unfold, (run_actions_spec (λ _ _ _, False) (λ _, False) ["a"; "bcd"]
      (λ ts a, load_avg a = Z.of_nat (default 0%nat (String.length <$> last ts)))
      (obs (sched_state 31))); [done| |done].
    intros pre t post s b _ _. apply swp_act, awp_put_load_avg. by rewrite last_snoc.
  - intros [r|n k|e] a' Ho; simpl in Ho; [by exists r|by destruct Ho|done].
Defined.
End witnesses.
