(* ===== verification/Paging.v ===== *)
(** threads/init.c: [paging_init], the kernel's page tables.

    The page directory and the page tables are pages of 1024 words.  They come
    from the page allocator, so that they are known by the same addresses as the
    pages of threads; the contents of a page that holds words is in [tables].
    The encoding of entries (threads/pte.h), the layout of addresses
    (threads/vaddr.h), the amount of memory (start.S) and the extent of the
    kernel's text (kernel.lds) are not part of the repository: they are
    parameters, with the documented laws.  The properties compare the tables
    with a reference that says what each of the 2^20 entries holds. *)
From S2P Require Import Prelude Env Lifecycle Sample.

Class PageTables : Type := {
  init_ram_pages : Z;                      (* pages of physical memory *)
  ptov : Z → Z;                            (* physical to virtual address *)
  vtop : tptr → Z;                         (* physical address of a page *)
  pd_no : Z → Z;                           (* index into the page directory *)
  pt_no : Z → Z;                           (* index into a page table *)
  pde_create : tptr → Z;
  pte_create_kernel : Z → bool → Z;        (* address, writable *)
  start_kernel_text : Z;                   (* &_start *)
  end_kernel_text : Z                      (* &_end_kernel_text *)
}.

(** Entries per table. *)
Definition entries : nat := 1024.

(** Physical memory is mapped from [ptov 0] on and fits into the address space;
    bits 22 to 31 of an address are its [pd_no], bits 12 to 21 its [pt_no]; an
    entry of the directory is present, hence not 0. *)
Class PageTableLaws (T : PageTables) : Type := {
  ptov_linear p : 0 ≤ p < init_ram_pages * PGSIZE → ptov p = ptov 0 + p;
  ptov_base : ∃ b, 0 ≤ b ∧ ptov 0 = b * PGSIZE ∧ (b + init_ram_pages) * PGSIZE ≤ 2 ^ 32;
  ram_nonneg : 0 ≤ init_ram_pages;
  pd_no_bits va : 0 ≤ va < 2 ^ 32 → pd_no va = va / 2 ^ 22;
  pt_no_bits va : 0 ≤ va < 2 ^ 32 → pt_no va = va / 2 ^ 12 mod 2 ^ 10;
  pde_present t : pde_create t ≠ 0
}.

Section code.
Context {E : Env} {T : PageTables}.

(** The state [paging_init] works on. *)
Record pgstate : Type := PgState {
  allocator : pstate;
  tables : gmap tptr (list Z);
  init_page_dir : option tptr;
  cr3 : option Z
}.

Definition P (A : Type) : Type := pgstate → res (A * pgstate).

#[global] Instance P_ret : MRet P := λ A a s, Ok (a, s).
#[global] Instance P_bind : MBind P :=
  λ A B f m s, match m s with Ok (a, s') => f a s' | Err e => Err e end.

(** [palloc_get_page (PAL_ASSERT | PAL_ZERO)] *)
Definition palloc_zeroed : P tptr := λ s,
  match palloc_get_page (allocator s) with
  | (Some t, p) => Ok (t, PgState p (<[t := replicate entries 0]> (tables s)) (init_page_dir s) (cr3 s))
  | (None, _) => Err (EPanic "palloc_get: out of pages")
  end.

(** [pd[i]] and [pd[i] = x] *)
Definition read_entry (pd : tptr) (i : Z) : P Z := λ s,
  match tables s !! pd with
  | Some tb => match tb !! Z.to_nat i with Some x => Ok (x, s) | None => Err EOutOfBounds end
  | None => Err EBadPtr
  end.

Definition write_entry (pd : tptr) (i x : Z) : P unit := λ s,
  match tables s !! pd with
  | Some tb =>
      if bool_decide (Z.to_nat i < length tb)%nat then
        Ok ((), PgState (allocator s) (<[pd := <[Z.to_nat i := x]> tb]> (tables s))
                  (init_page_dir s) (cr3 s))
      else Err EOutOfBounds
  | None => Err EBadPtr
  end.

Definition put_init_page_dir (t : tptr) : P unit := λ s,
  Ok ((), PgState (allocator s) (tables s) (Some t) (cr3 s)).
(** [movl %0, %%cr3] *)
Definition put_cr3 (x : Z) : P unit := λ s,
  Ok ((), PgState (allocator s) (tables s) (init_page_dir s) (Some x)).

Definition in_kernel_text (vaddr : Z) : bool :=
  (start_kernel_text <=? vaddr) && (vaddr <? end_kernel_text).

(** One round of the loop over the pages; [pt] is the current page table, NULL
    before the first. *)
Definition map_page (pd : tptr) (page : Z) (pt : option tptr) : P (option tptr) :=
  let paddr := uint32 (page * PGSIZE) in
  let vaddr := ptov paddr in
  let pde_idx := pd_no vaddr in
  let pte_idx := pt_no vaddr in
  pde ← read_entry pd pde_idx;
  pt ← (if pde =? 0 then
          t ← palloc_zeroed;
          write_entry pd pde_idx (pde_create t);;
          mret (Some t)
        else mret pt);
  match pt with
  | Some t =>
      write_entry t pte_idx (pte_create_kernel vaddr (negb (in_kernel_text vaddr)));;
      mret (Some t)
  | None => λ _, Err EBadPtr
  end.

(** The [n] pages from [page] on. *)
Fixpoint map_pages (n : nat) (pd : tptr) (page : Z) (pt : option tptr) : P unit :=
  match n with
  | O => mret ()
  | S n => pt ← map_page pd page pt; map_pages n pd (page + 1) pt
  end.

Definition paging_init : P unit :=
  pd ← palloc_zeroed;
  put_init_page_dir pd;;
  map_pages (Z.to_nat init_ram_pages) pd 0 None;;
  put_cr3 (vtop pd).

(** * The reference *)

(** The page number of the virtual address that physical memory starts at. *)
Definition base_page : Z := ptov 0 / PGSIZE.

(** Entry [j] of page table [i] once [n] pages are mapped: the page with that
    virtual address, read-only if it is in the kernel's text; no other page. *)
Definition mapped (n i j : Z) : Z :=
  let k := i * 1024 + j - base_page in
  let vaddr := ptov (k * PGSIZE) in
  if (0 <=? k) && (k <? n) then pte_create_kernel vaddr (negb (in_kernel_text vaddr)) else 0.

(** Page table [i] is needed for the first [n] pages. *)
Definition needed (n i : Z) : bool :=
  (0 <? n) && (base_page / 1024 <=? i) && (i <=? (base_page + n - 1) / 1024).

(** A page of words with the given contents. *)
Definition words (f : Z → Z) : list Z := (λ k : nat, f (Z.of_nat k)) <$> seq 0 entries.

(** The directory [pd] and the tables [tab i] map the first [n] pages and
    nothing else; they are different pages and none of the pages [old]. *)
Definition maps (pd : tptr) (tab : Z → tptr) (old : gset tptr) (n : Z) (s : pgstate) : Prop :=
  (pd ∉ old) ∧
  tables s !! pd = Some (words (λ i, if needed n i then pde_create (tab i) else 0)) ∧
  (∀ i, needed n i = true →
     tables s !! tab i = Some (words (mapped n i)) ∧ tab i ≠ pd ∧ tab i ∉ old) ∧
  ∀ i j, needed n i = true → needed n j = true → tab i = tab j → i = j.
End code.

(** * Pages of words *)

Lemma words_lookup f i : 0 ≤ i < 1024 → words f !! Z.to_nat i = Some (f i).
Proof.
  intros Hi. unfold words. rewrite list_lookup_fmap, lookup_seq_lt by (unfold entries; lia).
  simpl. f_equal. f_equal. lia.
Qed.

Lemma words_ext f g : (∀ i, 0 ≤ i < 1024 → f i = g i) → words f = words g.
Proof.
  intros H. apply list_fmap_ext. intros k n Hn%lookup_seq. apply H. unfold entries in Hn. lia.
Qed.

Lemma words_insert f i x :
  0 ≤ i < 1024 → <[Z.to_nat i := x]> (words f) = words (λ j, if decide (j = i) then x else f j).
Proof.
  intros Hi. apply list_eq. intros k. destruct (decide (k < 1024)%nat) as [Hk|Hk].
  - replace k with (Z.to_nat (Z.of_nat k)) by lia. rewrite words_lookup by lia.
    case_decide as Hd; [rewrite Hd|].
    + apply list_lookup_insert_eq. unfold words. rewrite length_fmap, length_seq.
      unfold entries. lia.
    + rewrite list_lookup_insert_ne by lia. apply words_lookup. lia.
  - rewrite !lookup_ge_None_2; [done|..]; rewrite ?length_insert; unfold words;
      rewrite length_fmap, length_seq; unfold entries; lia.
Qed.

Lemma words_zero : replicate entries 0 = words (λ _, 0).
Proof. reflexivity. Qed.

Lemma length_words f : length (words f) = 1024%nat.
Proof. unfold words. by rewrite length_fmap, length_seq. Qed.

Section paging.
Context {E : Env} {EL : EnvLaws E} {T : PageTables} {TL : PageTableLaws T}.

(** ** Addresses *)

Lemma base_page_ok :
  0 ≤ base_page ∧ ptov 0 = base_page * PGSIZE ∧ base_page + init_ram_pages ≤ 1048576.
Proof.
  destruct ptov_base as (b & Hb & Hp & Hle). unfold base_page.
  rewrite Hp. unfold PGSIZE in *. rewrite Z.div_mul by done. lia.
Qed.

Lemma page_address n :
  0 ≤ n < init_ram_pages →
  ptov (uint32 (n * PGSIZE)) = (base_page + n) * PGSIZE ∧ ptov (n * PGSIZE) = (base_page + n) * PGSIZE.
Proof.
  intros Hn. destruct base_page_ok as (Hb & Hp & Hle). unfold PGSIZE in *.
  rewrite uint32_id by lia. assert (Hl : ptov (n * 4096) = ptov 0 + n * 4096)
    by (apply ptov_linear; unfold PGSIZE; lia). rewrite Hl, Hp. lia.
Qed.

Lemma page_indices n :
  0 ≤ n < init_ram_pages →
  let va := (base_page + n) * PGSIZE in
  pd_no va = (base_page + n) / 1024 ∧ pt_no va = (base_page + n) mod 1024 ∧
  0 ≤ pd_no va < 1024 ∧ 0 ≤ pt_no va < 1024.
Proof.
  intros Hn va. destruct base_page_ok as (Hb & _ & Hle). unfold va, PGSIZE in *.
  rewrite pd_no_bits, pt_no_bits by lia.
  change (2 ^ 22) with (4096 * 1024). change (2 ^ 12) with 4096. change (2 ^ 10) with 1024.
  rewrite <- Z.div_div, Z.div_mul by lia.
  split_and!; [done|done|apply Z.div_pos; lia|apply Z.div_lt_upper_bound; lia|apply Z.mod_pos_bound; lia..].
Qed.

(** ** The reference, one page further *)

Lemma needed_succ n i :
  0 ≤ n → needed (n + 1) i = needed n i || (i =? (base_page + n) / 1024).
Proof.
  intros Hn. unfold needed. apply eq_true_iff_eq.
  rewrite orb_true_iff, !andb_true_iff, Z.eqb_eq, !Z.leb_le, !Z.ltb_lt.
  pose proof (Z.div_le_mono base_page (base_page + n) 1024 eq_refl).
  destruct (decide (n = 0)) as [->|]; [|pose proof (Z.div_le_mono base_page (base_page + n - 1) 1024 eq_refl)].
  - replace (base_page + (0 + 1) - 1) with (base_page + 0) by lia. rewrite Z.add_0_r in *. lia.
  - replace (base_page + (n + 1) - 1) with (base_page + n) by lia.
    assert ((base_page + n) / 1024 ≤ (base_page + n - 1) / 1024 + 1) by
      (rewrite <- Z.div_add by done; apply Z.div_le_mono; lia).
    pose proof (Z.div_le_mono (base_page + n - 1) (base_page + n) 1024 eq_refl). lia.
Qed.

Lemma mapped_succ n i j :
  mapped (n + 1) i j = if decide (0 ≤ n ∧ i * 1024 + j = base_page + n)
    then pte_create_kernel (ptov (n * PGSIZE)) (negb (in_kernel_text (ptov (n * PGSIZE))))
    else mapped n i j.
Proof.
  unfold mapped. cbv zeta. set (k := i * 1024 + j - base_page). case_decide as Hd.
  - replace k with n by lia. by rewrite (proj2 (Z.leb_le 0 n)), (proj2 (Z.ltb_lt n (n + 1))) by lia.
  - destruct (Z.leb_spec 0 k); [|done]. simpl.
    destruct (Z.ltb_spec k (n + 1)), (Z.ltb_spec k n); [done|lia|lia|done].
Qed.

Lemma mapped_unneeded n i j : needed n i = false → 0 ≤ j < 1024 → mapped n i j = 0.
Proof.
  unfold needed, mapped. cbv zeta. intros Hn Hj. set (k := i * 1024 + j - base_page).
  destruct ((0 <=? k) && (k <? n)) eqn:Hk; [|done]. subst k. apply andb_true_iff in Hk as [H1%Z.leb_le H2%Z.ltb_lt].
  assert (H3 : base_page / 1024 ≤ i).
  { apply Z.lt_succ_r, Z.div_lt_upper_bound; lia. }
  assert (H4 : i ≤ (base_page + n - 1) / 1024) by (apply Z.div_le_lower_bound; lia).
  apply Z.leb_le in H3, H4. rewrite H3, H4, (proj2 (Z.ltb_lt 0 n)) in Hn by lia. done.
Qed.
(** ** The loop *)

(** Rules for the operations; out of pages, the allocator's own assertion fails. *)
Definition ends_well {A} (m : res (A * pgstate)) (Q : A → pgstate → Prop) : Prop :=
  match m with
  | Ok (x, s) => Q x s
  | Err e => e = EPanic "palloc_get: out of pages"
  end.

Lemma ends_well_bind {A B} (m : P A) (f : A → P B) Q R s :
  ends_well (m s) R → (∀ x s', R x s' → ends_well (f x s') Q) → ends_well ((m ≫= f) s) Q.
Proof. intros Hm Hf. unfold mbind, P_bind. destruct (m s) as [[x s']|e]; [by apply Hf|exact Hm]. Qed.

Lemma ends_well_mono {A} (m : res (A * pgstate)) (Q R : A → pgstate → Prop) :
  ends_well m Q → (∀ x s, Q x s → R x s) → ends_well m R.
Proof. intros Hm HQ. destruct m as [[x s]|e]; [by apply HQ|exact Hm]. Qed.

Lemma read_entry_ok pd i f s :
  tables s !! pd = Some (words f) → 0 ≤ i < 1024 → read_entry pd i s = Ok (f i, s).
Proof. intros Hpd Hi. unfold read_entry. by rewrite Hpd, words_lookup. Qed.

Lemma write_entry_ok pd i x f s :
  tables s !! pd = Some (words f) → 0 ≤ i < 1024 →
  ends_well (write_entry pd i x s) (λ _ s', s' = PgState (allocator s)
    (<[pd := words (λ j, if decide (j = i) then x else f j)]> (tables s)) (init_page_dir s) (cr3 s)).
Proof.
  intros Hpd Hi. unfold write_entry. rewrite Hpd, length_words, bool_decide_true by lia.
  by rewrite words_insert.
Qed.

Lemma palloc_zeroed_ok s :
  ends_well (palloc_zeroed s) (λ t s', (t ∉ pages_in_use (allocator s)) ∧
    pages_in_use (allocator s') = {[t]} ∪ pages_in_use (allocator s) ∧
    tables s' = <[t := words (λ _, 0)]> (tables s) ∧
    init_page_dir s' = init_page_dir s ∧ cr3 s' = cr3 s).
Proof.
  unfold palloc_zeroed. destruct (palloc_get_page (allocator s)) as [[t|] p] eqn:Hp; [|done].
  destruct (palloc_get_fresh _ _ _ Hp) as [H1 H2]. by rewrite words_zero.
Qed.

(** What stays the same: only the pages [old] may already hold something. *)
Definition loop_ok (s0 : pgstate) (pd : tptr) (tab : Z → tptr) (n : Z) (pt : option tptr)
    (s : pgstate) : Prop :=
  let old := pages_in_use (allocator s0) in
  maps pd tab old n s ∧
  (0 < n → pt = Some (tab ((base_page + n - 1) / 1024))) ∧
  (∀ t, t ∈ pages_in_use (allocator s) ↔ t ∈ old ∨ t = pd ∨ ∃ i, needed n i = true ∧ t = tab i) ∧
  (∀ t, t ∈ old → tables s !! t = tables s0 !! t) ∧ init_page_dir s = Some pd.

(** Writing the entry of page [n], once its table is there. *)
Lemma write_mapped s0 pd tab n s :
  0 ≤ n < init_ram_pages →
  let va := (base_page + n) * PGSIZE in
  let t := tab (pd_no va) in
  (pd ∉ pages_in_use (allocator s0)) →
  tables s !! pd = Some (words (λ i, if needed (n + 1) i then pde_create (tab i) else 0)) →
  (∀ i, needed (n + 1) i = true →
     tables s !! tab i = Some (words (mapped n i)) ∧ tab i ≠ pd ∧ tab i ∉ pages_in_use (allocator s0)) →
  (∀ i j, needed (n + 1) i = true → needed (n + 1) j = true → tab i = tab j → i = j) →
  (∀ u, u ∈ pages_in_use (allocator s) ↔ u ∈ pages_in_use (allocator s0) ∨ u = pd ∨
     ∃ i, needed (n + 1) i = true ∧ u = tab i) →
  (∀ u, u ∈ pages_in_use (allocator s0) → tables s !! u = tables s0 !! u) → init_page_dir s = Some pd →
  ends_well ((write_entry t (pt_no va) (pte_create_kernel va (negb (in_kernel_text va)));;
     mret (Some t)) s) (loop_ok s0 pd tab (n + 1)).
Proof.
  intros Hn va t Hpd Hdir Htab Hinj Huse Hold Hinit.
  destruct (page_indices n Hn) as (Hi & Hj & Hir & Hjr). fold va in Hi, Hj, Hir, Hjr.
  assert (Hneed : needed (n + 1) (pd_no va) = true).
  { rewrite needed_succ by lia. rewrite Hi, Z.eqb_refl. apply orb_true_r. }
  destruct (Htab _ Hneed) as (Ht & Htpd & Htold). fold t in Ht, Htpd, Htold.
  assert (Hva : va / PGSIZE = base_page + n) by (unfold va; apply Z.div_mul; done).
  eapply ends_well_bind; [by apply (write_entry_ok _ _ _ _ _ Ht)|]. intros [] s1 ->.
  refine (conj (conj Hpd (conj _ (conj _ Hinj))) (conj _ (conj Huse (conj _ Hinit)))); cbn [tables].
  - by rewrite lookup_insert_ne.
  - intros i Hni. destruct (Htab i Hni) as (Hti & Hne & Ho). split; [|done].
    destruct (decide (i = pd_no va)) as [->|Hii].
    + rewrite lookup_insert_eq. f_equal. apply words_ext. intros j Hjj.
      rewrite mapped_succ. destruct (page_address n Hn) as [_ ->]. fold va.
      assert (Hd : base_page + n = pd_no va * 1024 + pt_no va)
        by (rewrite Hi, Hj; rewrite (Z.mul_comm _ 1024); apply Z.div_mod; lia).
      repeat case_decide; [done|lia|lia|done].
    + rewrite lookup_insert_ne by (intros Heq; apply Hii; by apply Hinj).
      rewrite Hti. f_equal. apply words_ext. intros j Hjj. rewrite mapped_succ.
      rewrite decide_False; [done|]. intros [_ Heq]. apply Hii. rewrite Hi, <- Heq.
      rewrite Z.div_add_l by done. rewrite Z.div_small by done. lia.
  - intros _. replace (base_page + (n + 1) - 1) with (base_page + n) by lia. by rewrite <- Hi.
  - intros u Hu. rewrite lookup_insert_ne by (intros ->; done). by apply Hold.
Qed.

(** The current table has room for the next page: nothing is allocated. *)
Lemma map_page_same s0 pd tab n s :
  0 ≤ n < init_ram_pages → loop_ok s0 pd tab n (Some (tab ((base_page + n) / 1024))) s →
  needed n ((base_page + n) / 1024) = true →
  let va := (base_page + n) * PGSIZE in
  ends_well ((write_entry (tab (pd_no va)) (pt_no va) (pte_create_kernel va (negb (in_kernel_text va)));;
     mret (Some (tab (pd_no va)))) s) (loop_ok s0 pd tab (n + 1)).
Proof.
  intros Hn ((Hpd & Hdir & Htab & Hinj) & _ & Huse & Hold & Hinit) Hneed va.
  assert (Hsame : ∀ i, needed (n + 1) i = needed n i).
  { intros i. rewrite needed_succ by lia. destruct (Z.eqb_spec i ((base_page + n) / 1024)) as [->|];
      [by rewrite Hneed|by rewrite orb_false_r]. }
  apply write_mapped; try done.
  - rewrite Hdir. f_equal. apply words_ext. intros i _. by rewrite Hsame.
  - intros i. rewrite Hsame. apply Htab.
  - intros i j. rewrite !Hsame. apply Hinj.
  - intros u. rewrite Huse. by setoid_rewrite Hsame.
Qed.

(** The first page of a table: the table is allocated. *)
Lemma map_page_fresh s0 pd tab n pt s :
  0 ≤ n < init_ram_pages → loop_ok s0 pd tab n pt s →
  let va := (base_page + n) * PGSIZE in
  needed n (pd_no va) = false →
  ends_well ((t ← palloc_zeroed; write_entry pd (pd_no va) (pde_create t);; mret (Some t)) s) (λ pt' s1,
    ∃ t, pt' = Some t ∧ ends_well
      ((write_entry t (pt_no va) (pte_create_kernel va (negb (in_kernel_text va)));;
        mret (Some t)) s1)
      (loop_ok s0 pd (λ i, if decide (i = pd_no va) then t else tab i) (n + 1))).
Proof.
  intros Hn ((Hpd & Hdir & Htab & Hinj) & _ & Huse & Hold & Hinit) va Hneed.
  destruct (page_indices n Hn) as (Hi & Hj & Hir & Hjr). fold va in Hi, Hj, Hir, Hjr.
  eapply ends_well_bind; [apply palloc_zeroed_ok|]. intros t s1 (Hfresh & Huse1 & Hts1 & Hin1 & _).
  rewrite Huse in Hfresh.
  assert (Htpd : t ≠ pd) by (intros ->; apply Hfresh; auto).
  assert (Hdir1 : tables s1 !! pd = Some (words (λ i, if needed n i then pde_create (tab i) else 0)))
    by by rewrite Hts1, lookup_insert_ne.
  eapply ends_well_bind; [by apply (write_entry_ok _ _ _ _ _ Hdir1)|].
  intros [] s2 ->. exists t. split; [done|].
  assert (Hsucc : ∀ i, needed (n + 1) i = needed n i || (i =? pd_no va))
    by (intros i; rewrite Hi; apply needed_succ; lia).
  set (tab' := λ i, if decide (i = pd_no va) then t else tab i).
  assert (Ht : t = tab' (pd_no va)) by (unfold tab'; by rewrite decide_True).
  match goal with |- ends_well (_ ?st) _ => pose proof (write_mapped s0 pd tab' n st Hn) as Hw end.
  cbv zeta in Hw. fold va in Hw. rewrite <- Ht in Hw.
  apply Hw; clear Hw Ht; cbn [tables allocator init_page_dir]; try done.
  - rewrite lookup_insert_eq. f_equal. apply words_ext. intros i _. rewrite Hsucc. unfold tab'.
    destruct (Z.eqb_spec i (pd_no va)) as [->|Hne]; case_decide; try done.
    + by rewrite orb_true_r.
    + by rewrite orb_false_r.
  - intros i. rewrite Hsucc. unfold tab'. case_decide as Hd; [intros _|].
    + subst i. split_and!; [|done|by intros ?; apply Hfresh; left].
      rewrite lookup_insert_ne, Hts1, lookup_insert_eq by done. f_equal.
      apply words_ext. intros j Hjj. by rewrite mapped_unneeded.
    + rewrite (proj2 (Z.eqb_neq i _)), orb_false_r by done. intros Hni.
      destruct (Htab i Hni) as (Hti & Hne & Ho). split; [|done].
      rewrite lookup_insert_ne by done. rewrite Hts1, lookup_insert_ne; [done|].
      intros ->. apply Hfresh. right. right. by exists i.
  - intros i j. rewrite !Hsucc, !orb_true_iff, !Z.eqb_eq. unfold tab'.
    repeat case_decide; subst; try done.
    + intros _ [Hnj|?] ->; [|done]. destruct Hfresh. right. right. by exists j.
    + intros [Hni|?] _ <-; [|done]. destruct Hfresh. right. right. by exists i.
    + intros [?|?] [?|?]; try done. by apply Hinj.
  - intros u. rewrite Huse1, elem_of_union, elem_of_singleton, Huse. unfold tab'. split.
    + intros [->|[?|[?|(i & Hni & ->)]]]; [|by auto|by auto|].
      * right. right. exists (pd_no va). by rewrite Hsucc, Z.eqb_refl, orb_true_r, decide_True.
      * right. right. exists i. rewrite Hsucc, Hni. split; [done|]. rewrite decide_False; [done|].
        intros ->. congruence.
    + intros [?|[?|(i & Hni & ->)]]; [by auto|by auto|]. case_decide as Hd; [by left|].
      right. right. right. exists i. split; [|done]. rewrite Hsucc in Hni.
      by rewrite (proj2 (Z.eqb_neq i _)), orb_false_r in Hni.
  - intros u Hu. assert (u ≠ t) by (intros ->; apply Hfresh; by left).
    assert (u ≠ pd) by (by intros ->). rewrite lookup_insert_ne by done.
    rewrite Hts1, lookup_insert_ne by done. by apply Hold.
  - congruence.
Qed.

Lemma map_page_ok s0 pd tab n pt s :
  0 ≤ n < init_ram_pages → loop_ok s0 pd tab n pt s →
  ends_well (map_page pd n pt s) (λ pt' s', ∃ tab', loop_ok s0 pd tab' (n + 1) pt' s').
Proof.
  intros Hn Hok. destruct (page_indices n Hn) as (Hi & Hj & Hir & Hjr).
  pose proof Hok as ((Hpd & Hdir & Htab & Hinj) & Hpt & _).
  unfold map_page. destruct (page_address n Hn) as [-> _]. set (va := (base_page + n) * PGSIZE) in *.
  eapply (ends_well_bind _ _ _ (λ x s', x = (if needed n (pd_no va) then pde_create (tab (pd_no va)) else 0)
    ∧ s' = s)); [by rewrite (read_entry_ok _ _ _ _ Hdir Hir)|].
  intros x ? [-> ->]. destruct (needed n (pd_no va)) eqn:Hneed.
  - rewrite (proj2 (Z.eqb_neq _ 0)) by apply pde_present.
    rewrite Hi in Hneed. assert (Hsame : (base_page + n - 1) / 1024 = (base_page + n) / 1024).
    { pose proof Hneed as Hneed'. unfold needed in Hneed'.
      rewrite !andb_true_iff, !Z.leb_le in Hneed'.
      pose proof (Z.div_le_mono (base_page + n - 1) (base_page + n) 1024 eq_refl). lia. }
    assert (Hpt' : pt = Some (tab (pd_no va))).
    { rewrite Hi, <- Hsame. apply Hpt. unfold needed in Hneed.
      rewrite !andb_true_iff, Z.ltb_lt in Hneed. lia. }
    subst pt. eapply (ends_well_bind _ _ _ (λ x s', x = Some (tab (pd_no va)) ∧ s' = s)); [done|].
    intros x ? [-> ->]. eapply ends_well_mono; [apply (map_page_same s0 pd tab n s Hn); [|done]|eauto].
    by rewrite <- Hi.
  - eapply ends_well_bind; [by apply (map_page_fresh s0 pd tab n pt s Hn Hok)|].
    intros pt' s1 (t & -> & Ht). eapply ends_well_mono; [exact Ht|eauto].
Qed.

Lemma map_pages_ok s0 pd k : ∀ tab n pt s,
  0 ≤ n → n + Z.of_nat k = init_ram_pages → loop_ok s0 pd tab n pt s →
  ends_well (map_pages k pd n pt s) (λ _ s', ∃ tab' pt', loop_ok s0 pd tab' init_ram_pages pt' s').
Proof.
  induction k as [|k IH]; intros tab n pt s Hn Hk Hok; simpl.
  - replace init_ram_pages with n by lia. eauto.
  - eapply ends_well_bind; [apply (map_page_ok s0 pd tab n pt s); [lia|done]|].
    intros pt' s' [tab' Hok']. eapply IH; [lia|lia|done].
Qed.

Lemma paging_init_builds s :
  ends_well (paging_init s) (λ _ s', ∃ pd tab,
    let old := pages_in_use (allocator s) in
    init_page_dir s' = Some pd ∧ cr3 s' = Some (vtop pd) ∧
    maps pd tab old init_ram_pages s' ∧
    (∀ t, t ∈ pages_in_use (allocator s') ↔
       t ∈ old ∨ t = pd ∨ ∃ i, needed init_ram_pages i = true ∧ t = tab i) ∧
    ∀ t, t ∈ old → tables s' !! t = tables s !! t).
Proof.
  eapply ends_well_bind; [apply palloc_zeroed_ok|]. intros pd s1 (Hfresh & Huse & Hts & _).
  eapply (ends_well_bind _ _ _ (λ _ s', s' = PgState (allocator s1) (tables s1) (Some pd) (cr3 s1)));
    [done|]. intros [] s2 ->. pose proof (ram_nonneg : 0 ≤ init_ram_pages).
  assert (Hno : ∀ i, needed 0 i = false) by done.
  eapply ends_well_bind; [apply (map_pages_ok s pd _ (λ _, pd) 0); [done|lia|]|].
  - refine (conj (conj Hfresh (conj _ (conj _ _))) (conj _ (conj _ (conj _ _)))); try done.
    + cbn. by rewrite Hts, lookup_insert_eq.
    + intros t. cbn. rewrite Huse, elem_of_union, elem_of_singleton. split; [intros [?|?]; auto|].
      intros [?|[?|(i & Hi & _)]]; [by right|by left|done].
    + intros t Ht. cbn. rewrite Hts, lookup_insert_ne; [done|by intros ->].
  - intros [] s3 (tab & pt & Hm & _ & Hu & Ho & Hi). simpl. exists pd, tab. by split_and!.
Qed.

(** C37: [paging_init] builds exactly the reference page tables, whatever the
    amount of memory: if the allocator does not run out of pages (in which case
    its own assertion fails), CR3 and [init_page_dir] are set to a directory in
    which every page of physical memory is mapped at its kernel virtual
    address, read-only if it belongs to the kernel's text and writable
    otherwise, and all other entries are 0.  The directory and the tables are
    different, newly allocated pages, one for each 4 MB that hold memory, and
    no other page is written. *)
Theorem paging_init_spec s :
  ends_well (paging_init s) (λ _ s', ∃ pd tab,
    let old := pages_in_use (allocator s) in
    init_page_dir s' = Some pd ∧ cr3 s' = Some (vtop pd) ∧
    maps pd tab old init_ram_pages s' ∧
    (∀ t, t ∈ pages_in_use (allocator s') ↔
       t ∈ old ∨ t = pd ∨ ∃ i, needed init_ram_pages i = true ∧ t = tab i) ∧
    ∀ t, t ∈ old → tables s' !! t = tables s !! t).
Proof. apply paging_init_builds. Qed.
End paging.

(** * Witness *)
Section witness.
#[local] Existing Instances concrete_env concrete_env_laws.

(** 1030 pages of memory at 0xc0000000, the text in pages 32 to 63: the memory
    ends in the second page table. *)
#[local] Instance wit_tables : PageTables := {|
  init_ram_pages := 1030;
  ptov p := 0xc0000000 + p;
  vtop t := Z.pos t * 4096;
  pd_no va := va / 2 ^ 22;
  pt_no va := va / 2 ^ 12 mod 2 ^ 10;
  pde_create t := Z.pos t * 4096 + 7;
  pte_create_kernel va w := va - 0xc0000000 + (if w then 3 else 1);
  start_kernel_text := 0xc0020000;
  end_kernel_text := 0xc0040000
|}.

#[local] Instance wit_tables_laws : PageTableLaws wit_tables.
Proof.
  split; cbn.
  - lia.
  - exists 786432. unfold PGSIZE. lia.
  - lia.
  - done.
  - done.
  - lia.
Defined.

Definition wit_pages : pgstate := PgState (PagePool 20 40 {[1%positive]}) ∅ None None.

Lemma paging_init_spec_witness :
  match paging_init wit_pages with Ok _ => true | Err _ => false end = true ∧
  ends_well (paging_init wit_pages) (λ _ s', ∃ pd,
    init_page_dir s' = Some pd ∧
    ∃ dir pt tb, tables s' !! pd = Some dir ∧ dir !! 769%nat = Some (pde_create pt) ∧
      tables s' !! pt = Some tb ∧ tb !! 5%nat = Some (1029 * 4096 + 3) ∧ tb !! 6%nat = Some 0).
Proof.
  split; [vm_compute; reflexivity|].
  eapply ends_well_mono; [apply paging_init_spec|]. intros [] s (pd & tab & Hpd & _ & Hm & _).
  destruct Hm as (_ & Hdir & Htab & _). exists pd. split; [done|].
  destruct (Htab 769) as [Ht _]; [done|]. exists (words (λ i, if needed init_ram_pages i then pde_create (tab i) else 0)).
  exists (tab 769), (words (mapped init_ram_pages 769)). split_and!; [done| |done|..].
  - by rewrite (words_lookup _ 769).
  - by rewrite (words_lookup _ 5).
  - by rewrite (words_lookup _ 6).
Defined.
End witness.
