(* ===== verification/Init.v ===== *)
(** threads/init.c: [main], [bss_init] and the choice of block devices.

    [main] puts the parts of the kernel together.  The devices, the memory
    allocators' initialisation, the file system and what the loader has left in
    memory are parameters ([Platform], [Blocks]); the laws of BootSpec say that
    those before [thread_start] do not touch the modelled memory. *)
From S2P Require Import Prelude Env Kernel Thread Sched Wait Lifecycle Timer Boot Paging SampleSched.
From Stdlib Require Import Ascii.

(** * The platform *)

Class Platform {E : Env} : Type := {
  services :: Services;
  loader_argc : nat;                       (* at LOADER_ARG_CNT *)
  loader_args : list ascii;                (* at LOADER_ARGS *)
  console_init : K unit;
  palloc_init : Z → K unit;
  malloc_init : K unit;
  tss_init : K unit;
  gdt_init : K unit;
  intr_init : K unit;
  intr_register_ext : Z → prog unit → string → K unit;
  pit_configure_channel : Z → Z → Z → K unit;
  kbd_init : K unit;
  input_init : K unit;
  exception_init : K unit;
  syscall_init : K unit;
  serial_init_queue : K unit;
  barrier : K unit;
  ide_init : prog unit;
  filesys_init : bool → prog unit;
  shutdown : K unit;
  switch_entry : tptr → prog unit → prog unit    (* threads/switch.S *)
}.

(** devices/block.h: the roles, which are also types of devices, the devices in
    probe order, and who plays which role. *)
Class Blocks {E : Env} : Type := {
  block : Type;
  block_role : Type;
  block_role_eq_dec :: EqDecision block_role;
  BLOCK_FILESYS : block_role;
  BLOCK_SCRATCH : block_role;
  BLOCK_SWAP : block_role;
  block_type : block → K block_role;
  block_get_by_name : string → K (option block);
  block_first : K (option block);
  block_next : block → K (option block);
  block_set_role : block_role → block → K unit
}.

(** * Block devices *)

Section devices.
Context {E : Env} {BL : Blocks}.

Definition no_such_device (name : string) : string :=
  let quote := String "034" EmptyString in "No such block device " ++ quote ++ name ++ quote.

(** [for (block = block_first (); block != NULL; block = block_next (block))] *)
Definition find_block (role : block_role) (b : option block) : prog (option block) :=
  loop (λ b : option block,
    match b with
    | None => mret (inr None)
    | Some x =>
        ty ← act (block_type x);
        if decide (ty = role) then mret (inr (Some x))
        else next ← act (block_next x); mret (inl next)
    end) b.

Definition locate_block_device (role : block_role) (name : option string) : prog unit :=
  block ← (match name with
           | Some name =>
               b ← act (block_get_by_name name);
               match b with
               | None => act (fail (EPanic (no_such_device name)))
               | Some x => mret (Some x)
               end
           | None => b ← act block_first; find_block role b
           end);
  match block with
  | Some x => act (block_set_role role x)
  | None => mret ()
  end.

Definition locate_block_devices {B : Build} (st : settings) : prog unit :=
  locate_block_device BLOCK_FILESYS (filesys_bdev_name st);;
  locate_block_device BLOCK_SCRATCH (scratch_bdev_name st);;
  if VM then locate_block_device BLOCK_SWAP (swap_bdev_name st) else mret ().
End devices.

Section code.
Context {E : Env} {B : Build} {F : SwitchFrames} {T : PageTables} {PF : Platform} {BL : Blocks}.

(** The static variables that the linker puts into the BSS are those without an
    initial value; of these the state has the following.  List heads in the BSS
    are not lists before [list_init]. *)
Definition bss_init : K unit :=
  modify (λ s, set_idle_thread None (set_initial_thread None (set_idle_ticks 0
    (set_kernel_ticks 0 (set_user_ticks 0 (set_thread_ticks 0 (set_thread_mlfqs false
      (set_load_avg 0 (set_ticks 0 (set_loops_per_tick 0 s)))))))))).

(** [paging_init] on the kernel's page allocator.  The tables' contents are the
    subject of Paging; no other code reads them. *)
Definition k_paging_init : K unit := λ s,
  match paging_init (PgState (pages s) ∅ None None) with
  | Ok (_, p) => Ok ((), set_pages (allocator p) s)
  | Err e => Err e
  end.

(** [if] in place of [#ifdef]. *)
Definition ifdef (b : bool) (p : prog unit) : prog unit := if b then p else mret ().

Definition main : prog unit :=
  act bss_init;;
  argv ← act (lift_res (read_command_line loader_argc loader_args));
  '(argv, st) ← act (parse_options argv);
  thread_init;;
  act console_init;;
  act (palloc_init (user_page_limit st));;
  act malloc_init;;
  act k_paging_init;;
  ifdef USERPROG (act tss_init;; act gdt_init);;
  act intr_init;;
  act (timer_init pit_configure_channel intr_register_ext);;
  act kbd_init;;
  act input_init;;
  ifdef USERPROG (act exception_init;; act syscall_init);;
  thread_start;;
  act serial_init_queue;;
  timer_calibrate barrier;;
  ifdef FILESYS (ide_init;; locate_block_devices st;; filesys_init (format_filesys st));;
  run_actions argv;;
  act shutdown;;
  thread_exit.
End code.

(** * Who plays which role *)

(** The block layer with the devices [bs], of types [ty], named [name_of], in
    probe order. *)
Class BlockLaws {E : Env} {EL : EnvLaws E} (BL : Blocks) (bs : list block) (ty : block → block_role)
    (name_of : block → string) : Prop := {
  first_is Q (a : aview) : Q (head bs) a → awp block_first Q a;
  next_is x pre post Q (a : aview) :
    bs = pre ++ x :: post → Q (head post) a → awp (block_next x) Q a;
  type_is x Q (a : aview) : x ∈ bs → Q (ty x) a → awp (block_type x) Q a;
  by_name m Q (a : aview) :
    Q (List.find (λ x, String.eqb (name_of x) m) bs) a → awp (block_get_by_name m) Q a
}.

Section roles.
Context {E : Env} {EL : EnvLaws E} {BL : Blocks} (bs : list block) (ty : block → block_role)
  (name_of : block → string) {BW : BlockLaws BL bs ty name_of}.

Lemma apwp_find_block {A} role (k : option block → prog A) Q (a : aview) : ∀ post pre,
  bs = pre ++ post →
  apwp (k (List.find (λ x, bool_decide (ty x = role)) post)) Q a →
  apwp (find_block role (head post) ≫= k) Q a.
Proof.
  induction post as [|x post IH]; intros pre Hbs HQ; apply apwp_Loop; simpl in *; [exact HQ|].
  apply apwp_Act. eapply type_is; [rewrite Hbs; set_solver|]. case_decide as Hd.
  - by rewrite bool_decide_true in HQ.
  - rewrite bool_decide_false in HQ by done. apply apwp_Act. eapply next_is; [exact Hbs|].
    apply (IH (pre ++ [x])); [by rewrite <- (assoc_L (++))|done].
Qed.

(** The device for a role: the one of the given name, or else the first of the
    type. *)
Definition role_block (role : block_role) (name : option string) : option block :=
  match name with
  | Some m => List.find (λ x, String.eqb (name_of x) m) bs
  | None => List.find (λ x, bool_decide (ty x = role)) bs
  end.

(** A role is given to the device of the given name, and to the first device of
    its type in probe order when no name is given; when there is no such device
    a name is an error and no name leaves the role free. *)
Lemma apwp_locate_block_device {A} role name (k : unit → prog A) Q (a : aview) :
  match role_block role name, name with
  | Some x, _ => awp (block_set_role role x) (λ u b, apwp (k u) Q b) a
  | None, Some m => Q (OFault (EPanic (no_such_device m))) a
  | None, None => apwp (k ()) Q a
  end → apwp (locate_block_device role name ≫= k) Q a.
Proof.
  unfold role_block, locate_block_device. intros H. apply apwp_assoc. destruct name as [m|].
  - apply apwp_assoc, apwp_Act, by_name. destruct (List.find _ bs) as [x|].
    + apply apwp_Act. exact H.
    + intros s <-. exists (OFault (EPanic (no_such_device m))), s. split; [by constructor|exact H].
  - apply apwp_assoc, apwp_Act, first_is. apply (apwp_find_block role _ _ _ bs []); [done|].
    destruct (List.find _ bs) as [x|]; [by apply apwp_Act|exact H].
Qed.

(** Who is given a role, in turn, up to the first name that no device has. *)
Fixpoint given (rs : list (block_role * option string)) : list (block_role * block) * option string :=
  match rs with
  | [] => ([], None)
  | (role, name) :: rs =>
      match role_block role name, name with
      | Some x, _ => ((role, x) :: (given rs).1, (given rs).2)
      | None, Some m => ([], Some m)
      | None, None => given rs
      end
  end.

Definition roles {B : Build} (st : settings) : list (block_role * option string) :=
  [(BLOCK_FILESYS, filesys_bdev_name st); (BLOCK_SCRATCH, scratch_bdev_name st)] ++
  if VM then [(BLOCK_SWAP, swap_bdev_name st)] else [].

(** [Inv] is any property of the roles given out that giving one keeps. *)
Context (Inv : list (block_role * block) → aview → Prop)
  (set_keeps : ∀ xs role x (a : aview), Inv xs a →
     awp (block_set_role role x) (λ _ b, Inv (xs ++ [(role, x)]) b) a).

Definition given_out (xs : list (block_role * block)) (rs : list (block_role * option string))
    (o : out unit) (b : aview) : Prop :=
  Inv (xs ++ (given rs).1) b ∧
  o = match (given rs).2 with None => ODone () | Some m => OFault (EPanic (no_such_device m)) end.

Lemma given_step xs role name rs (k : unit → prog unit) (a : aview) :
  Inv xs a → (∀ ys u b, Inv ys b → apwp (k u) (given_out ys rs) b) →
  apwp (locate_block_device role name ≫= k) (given_out xs ((role, name) :: rs)) a.
Proof.
  intros Ha Hk. apply apwp_locate_block_device. unfold given_out. simpl.
  destruct (role_block role name) as [x|]; [|destruct name as [m|]].
  - eapply awp_mono; [exact (set_keeps xs role x a Ha)|]. intros u b Hb. eapply apwp_mono; [exact (Hk _ u b Hb)|].
    intros o c [Hc ->]. by rewrite <- (assoc_L (++)) in Hc.
  - by rewrite app_nil_r.
  - by apply Hk.
Qed.

(** Each role gets the device that the command line names, or else the first of
    its type, in every build; the first name that no device has stops the
    kernel. *)
Lemma locate_block_devices_spec {B : Build} st (a : aview) :
  Inv [] a → apwp (locate_block_devices st) (given_out [] (roles st)) a.
Proof.
  intros Ha. apply given_step; [done|]. intros ys _ b Hb. apply given_step; [done|].
  intros zs _ c Hc. destruct VM.
  - unfold locate_block_devices. rewrite <- (prog_bind_ret_r (locate_block_device BLOCK_SWAP _)).
    apply given_step; [done|]. intros zs' [] d Hd. apply apwp_ret. split; [by rewrite app_nil_r|done].
  - apply apwp_ret. split; [by rewrite app_nil_r|done].
Qed.
End roles.

(** * Witness *)
Section witness.
#[local] Existing Instances concrete_env concrete_env_laws.

(** Devices 1 and 2 are of type 1, device 3 of type 2; the load average holds who
    plays which role. *)
Definition wit_type (x : nat) : nat := if decide (x = 3%nat) then 2%nat else 1%nat.
Definition wit_name (x : nat) : string := if decide (x = 2%nat) then "hdb1" else "hda".

#[local] Instance wit_blocks : Blocks := {|
  block := nat;
  block_role := nat;
  BLOCK_FILESYS := 1%nat;
  BLOCK_SCRATCH := 2%nat;
  BLOCK_SWAP := 3%nat;
  block_type x := mret (wit_type x);
  block_get_by_name m := mret (List.find (λ x, String.eqb (wit_name x) m) [1; 2; 3]%nat);
  block_first := mret (Some 1%nat);
  block_next x := mret (if decide (x = 3%nat) then None else Some (S x));
  block_set_role r x := modify (λ s, set_load_avg (load_avg s * 100 + Z.of_nat (r * 10 + x)) s)
|}.

#[local] Instance wit_block_laws : BlockLaws wit_blocks [1; 2; 3]%nat wit_type wit_name.
Proof.
  split.
  - intros Q a HQ. by apply awp_ret.
  - intros x pre post Q a Hbs HQ. apply awp_ret.
    apply (f_equal length) in Hbs as Hlen. rewrite length_app in Hlen.
    destruct pre as [|? [|? [|? pre]]]; simplify_eq/=; [exact HQ..|lia].
  - intros x Q a _ HQ. by apply awp_ret.
  - intros m Q a HQ. by apply awp_ret.
Qed.

Definition wit_plays (xs : list (nat * nat)) (a : aview) : Prop :=
  load_avg a = foldl (λ n p, n * 100 + Z.of_nat (p.1 * 10 + p.2)) 0 xs.

(** "-filesys=hdb1" makes the second device that of the file system; the first
    device of its type is the scratch device. *)
Lemma locate_block_devices_witness :
  apwp (locate_block_devices (B := {| FILESYS := true; VM := false; USERPROG := false |})
      (Settings false (Some "hdb1") None None SIZE_MAX))
    (λ o b, o = ODone () ∧ load_avg b = 1223) (obs (sched_state 31)).
Proof.
  eapply apwp_mono.
  - apply (locate_block_devices_spec (BL := wit_blocks) [1; 2; 3]%nat wit_type wit_name wit_plays); [|done].
    intros xs r x a Ha. eapply (awp_modify _ (set_load_avg (load_avg a * 100 + Z.of_nat (r * 10 + x)) a)).
    + by intros s <-.
    + unfold wit_plays in *. cbn [load_avg set_load_avg]. rewrite foldl_app, <- Ha. reflexivity.
  - intros o b [Hb ->]. split; [reflexivity|]. exact Hb.
Qed.
End witness.
