(* ===== verification/Places.v ===== *)
(** Where the threads are: the invariant of the scheduler's and the
    synchronisation code's data structures that every switch, wake-up and timer
    tick preserves.  Each thread but the running one is in exactly one place,
    and its status says which. *)
From Stdlib Require Import FunctionalExtensionality.
From S2P Require Import Prelude Env Kernel Thread Mlfqs Ready Sched.
From S2P Require Import Wait Synch SemaSpec Timer TimerSpec.

Definition has_status (a : aview) (t : tptr) (st : thread_status) : Prop :=
  status <$> threads a !! t = Some st.

Definition well_made (th : thread) : Prop :=
  thread_ok th ∧ priority_ok th ∧ PRI_MIN ≤ base_priority th ≤ PRI_MAX.

(** [t] is not among the waiters of any of the semaphores [D]. *)
Definition waits_not (D : gset sema_ptr) (W : sema_ptr → list tptr) (t : tptr) : Prop :=
  ∀ sm, sm ∈ D → t ∉ W sm.

(** [t] is neither in the hands of the processor ([X]) nor the idle thread, and
    has status [st]. *)
Definition stays (X : list tptr) (a : aview) (st : thread_status) (t : tptr) : Prop :=
  (t ∉ X) ∧ Some t ≠ idle_thread a ∧ has_status a t st.

(** [t] is in no list and not in the hands of the processor: it has not been made
    ready yet, or it is dying. *)
Definition aside (D : gset sema_ptr) (X ss : list tptr) (W : sema_ptr → list tptr) (a : aview)
    (t : tptr) : Prop :=
  (t ∉ X) ∧ Some t ≠ idle_thread a ∧
  (has_status a t THREAD_BLOCKED ∨ has_status a t THREAD_DYING) ∧ (t ∉ ss) ∧ waits_not D W t.

(** [placed D Y X q ss W a]: apart from the threads [X], which are in no list, and
    the idle thread, the threads of [q] are ready, those of [ss] asleep, those
    of [W sm] wait for the semaphore [sm], for the semaphores [D], those of [Y]
    have not started or have ended, and there are no others.  The ready threads
    and the waiters of each semaphore are in the order of their priorities, the
    sleeping ones in the order of their wake-up ticks. *)
Record placed (D : gset sema_ptr) (Y : gset tptr) (X q ss : list tptr) (W : sema_ptr → list tptr)
    (a : aview) : Prop := Placed {
  pl_prio : thread_mlfqs a = false;
  pl_idle : ∃ i, idle_thread a = Some i ∧ is_Some (threads a !! i) ∧
    (i ∉ X → has_status a i THREAD_READY ∨ has_status a i THREAD_BLOCKED);
  pl_self : ∀ t, t ∈ X → is_Some (threads a !! t);
  pl_threads : ∀ t th, threads a !! t = Some th → well_made th;
  pl_nodup : NoDup q;
  pl_sorted : queue_sorted (threads a) q;
  pl_semas : ∀ sm, sm ∈ D ↔ is_Some (semas a !! sm);
  pl_values : ∀ sm v, semas a !! sm = Some v → 0 ≤ v < UINT_MAX;
  pl_waiters : ∀ sm, sm ∈ D → lists a !! sema_waiters sm = Some (elems (W sm));
  pl_sleep : lists a !! sleep_list = Some (thread_sleep_elem <$> ss);
  pl_wakeup : sorted_on (thread_wakeup (threads a)) ss;
  pl_q : ∀ t, t ∈ q → stays X a THREAD_READY t;
  pl_ss : ∀ t, t ∈ ss → stays X a THREAD_BLOCKED t ∧ waits_not D W t;
  pl_W : ∀ sm t, sm ∈ D → t ∈ W sm → stays X a THREAD_BLOCKED t;
  pl_all : ∀ t, is_Some (threads a !! t) →
    t ∈ X ∨ Some t = idle_thread a ∨ t ∈ q ∨ t ∈ ss ∨ (∃ sm, sm ∈ D ∧ t ∈ W sm) ∨ t ∈ Y;
  pl_Y : ∀ t, t ∈ Y → aside D X ss W a t;
  pl_elem : ∀ t, t ∉ q → waits_not D W t → unlinked (lists a) (thread_elem t);
  pl_sleep_elem : ∀ t, t ∉ ss → unlinked (lists a) (thread_sleep_elem t);
  pl_order : ∀ sm, sm ∈ D → queue_sorted (threads a) (W sm)
}.
Arguments pl_prio {D Y X q ss W a} _.
Arguments pl_idle {D Y X q ss W a} _.
Arguments pl_self {D Y X q ss W a} _.
Arguments pl_Y {D Y X q ss W a} _.
Arguments pl_threads {D Y X q ss W a} _.
Arguments pl_nodup {D Y X q ss W a} _.
Arguments pl_sorted {D Y X q ss W a} _.
Arguments pl_semas {D Y X q ss W a} _.
Arguments pl_values {D Y X q ss W a} _.
Arguments pl_waiters {D Y X q ss W a} _.
Arguments pl_sleep {D Y X q ss W a} _.
Arguments pl_wakeup {D Y X q ss W a} _.
Arguments pl_q {D Y X q ss W a} _.
Arguments pl_ss {D Y X q ss W a} _.
Arguments pl_W {D Y X q ss W a} _.
Arguments pl_all {D Y X q ss W a} _.
Arguments pl_elem {D Y X q ss W a} _.
Arguments pl_sleep_elem {D Y X q ss W a} _.
Arguments pl_order {D Y X q ss W a} _.


Section placed.
Context {E : Env} {EL : EnvLaws E} (D : gset sema_ptr) (Y : gset tptr).

(** The elements that link a thread into its place, and the lists of the places
    other than the schedulers'. *)
Definition place_elem (e : elem_ptr) : bool :=
  match e with thread_elem _ | thread_sleep_elem _ => true | _ => false end.
Definition place_list (l : list_ptr) : bool :=
  match l with sema_waiters _ | sleep_list => true | _ => false end.

(** Only some fields count, and the schedulers' lists only through [q]. *)
Lemma placed_view X q ss W (a b : aview) :
  placed D Y X q ss W a → thread_mlfqs b = thread_mlfqs a → idle_thread b = idle_thread a →
  threads b = threads a → semas b = semas a →
  (∀ l, place_list l = true → lists b !! l = lists a !! l) →
  (∀ e, place_elem e = true → unlinked (lists a) e → e ∉ elems q → unlinked (lists b) e) →
  placed D Y X q ss W b.
Proof.
  intros [] Hm Hi Ht Hs Hl Hu.
  split; unfold stays, aside, has_status in *; rewrite ?Hm, ?Hi, ?Ht, ?Hs; try done.
  - intros sm Hsm. rewrite Hl by done. by apply pl_waiters0.
  - by rewrite Hl.
  - intros t Hq HW. apply Hu; [done|by apply pl_elem0|]. by intros (? & [= <-] & ?)%list_elem_of_fmap.
  - intros t Hss. apply Hu; [done|by apply pl_sleep_elem0|].
    by intros (? & ? & _)%list_elem_of_fmap.
Qed.

Lemma placed_frame X q ss W (a b : aview) :
  placed D Y X q ss W a → thread_mlfqs b = thread_mlfqs a → idle_thread b = idle_thread a →
  threads b = threads a → semas b = semas a →
  (∀ l, sched_list l = false → lists b !! l = lists a !! l) →
  (∀ e, unlinked (lists a) e → e ∉ elems q → unlinked (lists b) e) → placed D Y X q ss W b.
Proof.
  intros Ha Hm Hi Ht Hs Hl Hu. apply (placed_view _ _ _ _ a); try done; [|by auto].
  intros l Hp. apply Hl. by destruct l.
Qed.

Lemma placed_ext X q ss W (a b : aview) :
  placed D Y X q ss W a → thread_mlfqs b = thread_mlfqs a → idle_thread b = idle_thread a →
  threads b = threads a → semas b = semas a → lists b = lists a → placed D Y X q ss W b.
Proof. intros Ha Hm Hi Ht Hs Hl. eapply placed_frame; try done; rewrite Hl; [done|]. by intros. Qed.

(** Changing the record of a thread in the processor's hands. *)
Lemma placed_self X q ss W t th (a : aview) :
  placed D Y X q ss W a → t ∈ X → well_made th →
  placed D Y X q ss W (set_threads (<[t := th]> (threads a)) a).
Proof.
  intros [] Ht Hok.
  assert (Hne : ∀ u st, stays X a st u → stays X (set_threads (<[t := th]> (threads a)) a) st u).
  { intros u st (Hx & Hi & Hst). split_and!; [done..|]. unfold has_status. cbn.
    rewrite lookup_insert_ne; [done|]. by intros ->. }
  assert (Hsome : ∀ u, is_Some (threads a !! u) → is_Some (<[t := th]> (threads a) !! u)).
  { intros u Hu. destruct (decide (u = t)) as [->|].
    - by rewrite lookup_insert_eq.
    - by rewrite lookup_insert_ne. }
  split; cbn; try done.
  - destruct pl_idle0 as (i & Hi & Hv & Hst). exists i. split_and!; [done|by apply Hsome|].
    intros Hx. unfold has_status. cbn. rewrite lookup_insert_ne; [by apply Hst|]. by intros <-.
  - auto.
  - intros u uth [[<- <-]|[_ Hu]]%lookup_insert_Some; [done|by eapply pl_threads0].
  - eapply sorted_on_ext; [|exact pl_sorted0]. intros u Hu. unfold thread_priority.
    rewrite lookup_insert_ne; [done|]. intros <-. by destruct (pl_q0 t Hu).
  - eapply sorted_on_ext; [|exact pl_wakeup0]. intros u Hu. unfold thread_wakeup.
    rewrite lookup_insert_ne; [done|]. intros <-. by destruct (pl_ss0 t Hu) as [[? _] _].
  - auto.
  - intros u Hu. destruct (pl_ss0 u Hu). auto.
  - eauto.
  - intros u Hu. apply pl_all0. apply lookup_insert_is_Some in Hu as [->|[_ Hu]]; [|done].
    by apply pl_self0.
  - intros u Hu. destruct (pl_Y0 u Hu) as (Hx & Hi & Hst & Hr). split_and!; [done..| |apply Hr|apply Hr].
    unfold has_status in *. cbn. by rewrite lookup_insert_ne by by intros ->.
  - intros sm Hsm. eapply sorted_on_ext; [|exact (pl_order0 sm Hsm)]. intros u Hu.
    unfold thread_priority. rewrite lookup_insert_ne; [done|]. intros <-.
    by destruct (pl_W0 sm t Hsm Hu).
Qed.

Lemma stays_cons t X (a : aview) st u :
  stays (t :: X) a st u → stays X a st u ∧ u ≠ t.
Proof. intros (Hx & Hi & Hst). split; [split_and!; [|done..]|]; set_solver. Qed.

Lemma aside_cons t X ss W (a : aview) u :
  aside D (t :: X) ss W a u → aside D X ss W a u ∧ u ≠ t.
Proof. intros (Hx & H). split; [split; [|done]|]; set_solver. Qed.

Lemma aside_sub X X' ss ss' W W' (a b : aview) u :
  aside D X ss W a u → (u ∉ X → u ∉ X') → (u ∉ ss → u ∉ ss') →
  (waits_not D W u → waits_not D W' u) → idle_thread b = idle_thread a → threads b = threads a →
  aside D X' ss' W' b u.
Proof. unfold aside, has_status. intros (?&?&?&?&?) ??? -> ->. auto 10. Qed.

(** ** Putting a thread into its place *)

(** A new thread. *)
Lemma placed_fresh t th X q ss W (a : aview) :
  placed D Y X q ss W a → threads a !! t = None → well_made th →
  placed D Y (t :: X) q ss W (set_threads (<[t := th]> (threads a)) a).
Proof.
  intros [] Ht Hok. set (b := set_threads _ a).
  assert (Hnew : ∀ u st, has_status a u st → u ≠ t)
    by (intros u st Hu ->; unfold has_status in Hu; by rewrite Ht in Hu).
  assert (Hst : ∀ u st, has_status a u st → has_status b u st).
  { intros u st Hu. pose proof (Hnew u st Hu). unfold has_status, b in *. cbn.
    by rewrite lookup_insert_ne. }
  assert (Hstays : ∀ u st, stays X a st u → stays (t :: X) b st u).
  { intros u st (Hx & Hi & Hu). split_and!; [|done|by apply Hst].
    rewrite elem_of_cons. pose proof (Hnew u st Hu). tauto. }
  split; try done; cbn.
  - destruct pl_idle0 as (i & Hi & Hv & Hs). exists i. split_and!; [done| |].
    + apply lookup_insert_is_Some. destruct (decide (t = i)); auto.
    + intros [Hne Hx]%not_elem_of_cons. destruct (Hs Hx); [left|right]; by apply Hst.
  - intros u Hu. apply lookup_insert_is_Some. destruct (decide (t = u)); [by left|right].
    split; [done|]. apply pl_self0. by apply elem_of_cons in Hu as [->|?].
  - intros u uth [[<- <-]|[_ Hu]]%lookup_insert_Some; [done|by eapply pl_threads0].
  - eapply sorted_on_ext; [|exact pl_sorted0]. intros u Hu. unfold thread_priority.
    destruct (pl_q0 u Hu) as (_ & _ & Hs). by rewrite lookup_insert_ne by (symmetry; eauto).
  - eapply sorted_on_ext; [|exact pl_wakeup0]. intros u Hu. unfold thread_wakeup.
    destruct (pl_ss0 u Hu) as ((_ & _ & Hs) & _). by rewrite lookup_insert_ne by (symmetry; eauto).
  - auto.
  - intros u Hu. destruct (pl_ss0 u Hu). auto.
  - eauto.
  - intros u Hu. rewrite elem_of_cons. apply lookup_insert_is_Some in Hu as [->|[_ Hu]]; [tauto|].
    destruct (pl_all0 u Hu); tauto.
  - intros u Hu. destruct (pl_Y0 u Hu) as (Hx & Hi & Hs & Hr).
    assert (Hne : u ≠ t) by (destruct Hs; by eapply Hnew).
    split_and!; [rewrite elem_of_cons; tauto|done| |apply Hr|apply Hr].
    destruct Hs; [left|right]; by apply Hst.
  - intros sm Hsm. eapply sorted_on_ext; [|exact (pl_order0 sm Hsm)]. intros u Hu.
    unfold thread_priority. destruct (pl_W0 sm u Hsm Hu) as (_ & _ & Hs).
    by rewrite lookup_insert_ne by (symmetry; eauto).
Qed.

Lemma placed_to_q t X q ss W (a : aview) :
  placed D Y (t :: X) q ss W a → stays X a THREAD_READY t →
  placed D Y X (enqueue (threads a) t q) ss W a.
Proof.
  intros [] Ht. split; try done.
  - destruct pl_idle0 as (i & Hi & Hv & Hst). exists i. split_and!; [done..|]. intros Hx. apply Hst.
    intros [->|?]%elem_of_cons; [|done]. by destruct Ht as (_ & ? & _).
  - intros u Hu. apply pl_self0. by right.
  - rewrite enqueue_perm. apply NoDup_cons. split; [|done]. intros Hin.
    destruct (pl_q0 t Hin) as [Hx _]. apply Hx. by left.
  - by apply enqueue_sorted.
  - intros u [->|Hu]%elem_of_enqueue; [done|]. by apply stays_cons with t, pl_q0.
  - intros u Hu. destruct (pl_ss0 u Hu) as [Hs HW]. by apply stays_cons in Hs as [? _].
  - intros sm u Hsm Hu. by eapply stays_cons with t, pl_W0.
  - intros u Hu. destruct (pl_all0 u Hu) as [[->|Hx]%elem_of_cons|[Hi|[Hq|H]]];
      rewrite ?elem_of_enqueue; tauto.
  - intros u Hu. by apply (aside_cons t), pl_Y0.
  - intros u Hu HW. apply pl_elem0; [|done]. rewrite elem_of_enqueue in Hu. tauto.
Qed.

Lemma placed_to_idle i X q ss W (a : aview) :
  placed D Y (i :: X) q ss W a → idle_thread a = Some i →
  has_status a i THREAD_READY ∨ has_status a i THREAD_BLOCKED → placed D Y X q ss W a.
Proof.
  intros [] Hi Hst. split; try done.
  - exists i. split_and!; [done| |done]. apply pl_self0. by left.
  - intros u Hu. apply pl_self0. by right.
  - intros u Hu. by apply stays_cons with i, pl_q0.
  - intros u Hu. destruct (pl_ss0 u Hu) as [Hs HW]. by apply stays_cons in Hs as [? _].
  - intros sm u Hsm Hu. by eapply stays_cons with i, pl_W0.
  - intros u Hu. destruct (pl_all0 u Hu) as [[->|Hx]%elem_of_cons|[H|H]]; [|by left|tauto..].
    right. by left.
  - intros u Hu. by apply (aside_cons i), pl_Y0.
Qed.

Definition with_waiters (sm : sema_ptr) (ws : list tptr) (W : sema_ptr → list tptr)
    (sm' : sema_ptr) : list tptr :=
  if decide (sm' = sm) then ws else W sm'.

Lemma placed_to_sema t sm ws X q ss W (a : aview) :
  placed D Y (t :: X) q ss W a → sm ∈ D → (∀ u, u ∈ ws ↔ u = t ∨ u ∈ W sm) →
  queue_sorted (threads a) ws → stays X a THREAD_BLOCKED t →
  placed D Y X q ss (with_waiters sm ws W)
    (set_lists (<[sema_waiters sm := elems ws]> (lists a)) a).
Proof.
  intros [] Hsm Hws Hsort Ht.
  assert (HW : ∀ u, u ≠ t → waits_not D W u → waits_not D (with_waiters sm ws W) u).
  { intros u Hne HW sm' Hsm'. unfold with_waiters. case_decide as Hd; [|by apply HW].
    rewrite Hws. intros [?|?]; [done|by eapply (HW sm)]. }
  assert (HWn : ∀ u, waits_not D (with_waiters sm ws W) u → u ≠ t ∧ waits_not D W u).
  { intros u Hn. split.
    - intros ->. apply (Hn sm Hsm). unfold with_waiters. rewrite decide_True by done.
      apply Hws. by left.
    - intros sm' Hsm' Hu. apply (Hn sm' Hsm'). unfold with_waiters. case_decide; [|done].
      subst sm'. apply Hws. by right. }
  split; try done.
  - destruct pl_idle0 as (i & Hi & Hv & Hst). exists i. split_and!; [done..|]. intros Hx. apply Hst.
    intros [->|?]%elem_of_cons; [|done]. by destruct Ht as (_ & ? & _).
  - intros u Hu. apply pl_self0. by right.
  - intros sm' Hsm'. cbn. unfold with_waiters. case_decide as Hd.
    + subst sm'. apply lookup_insert_eq.
    + rewrite lookup_insert_ne by congruence. by apply pl_waiters0.
  - cbn. by rewrite lookup_insert_ne.
  - intros u Hu. by apply stays_cons with t, pl_q0.
  - intros u Hu. destruct (pl_ss0 u Hu) as [Hs Hn]. apply stays_cons in Hs as [? ?]. auto.
  - intros sm' u Hsm' Hu. unfold with_waiters in Hu. case_decide as Hd.
    + apply Hws in Hu as [->|Hu]; [done|]. by eapply stays_cons with t, (pl_W0 sm).
    + by eapply stays_cons with t, pl_W0.
  - intros u Hu. destruct (pl_all0 u Hu) as [[->|Hx]%elem_of_cons|[H|[H|[H|[(sm' & H1 & H2)|H]]]]];
      [|tauto..| |tauto]; do 4 right; left.
    + exists sm. split; [done|]. unfold with_waiters. rewrite decide_True by done.
      apply Hws. by left.
    + exists sm'. split; [done|]. unfold with_waiters. case_decide; [|done]. subst sm'.
      apply Hws. by right.
  - intros u Hu. destruct (aside_cons _ _ _ _ _ _ (pl_Y0 u Hu)) as [Ha Hne].
    apply (aside_sub _ _ _ _ _ _ _ _ _ Ha); auto.
  - intros u Hq [Hne Hn]%HWn. cbn. apply unlinked_insert; [by apply pl_elem0|].
    intros (? & [= <-] & [?|?]%Hws)%list_elem_of_fmap; [done|]. by apply (Hn sm).
  - intros u Hu. cbn. apply unlinked_insert; [by apply pl_sleep_elem0|].
    by intros (? & ? & _)%list_elem_of_fmap.
  - intros sm' Hsm'. unfold with_waiters. case_decide; [done|]. by apply pl_order0.
Qed.

Lemma placed_to_sleep t ss' X q ss W (a : aview) :
  placed D Y (t :: X) q ss W a → (∀ u, u ∈ ss' ↔ u = t ∨ u ∈ ss) → waits_not D W t →
  sorted_on (thread_wakeup (threads a)) ss' → stays X a THREAD_BLOCKED t →
  placed D Y X q ss' W (set_lists (<[sleep_list := thread_sleep_elem <$> ss']> (lists a)) a).
Proof.
  intros [] Hss' HWt Hsort Ht. split; try done.
  - destruct pl_idle0 as (i & Hi & Hv & Hst). exists i. split_and!; [done..|]. intros Hx. apply Hst.
    intros [->|?]%elem_of_cons; [|done]. by destruct Ht as (_ & ? & _).
  - intros u Hu. apply pl_self0. by right.
  - intros sm Hsm. cbn. rewrite lookup_insert_ne by done. by apply pl_waiters0.
  - cbn. apply lookup_insert_eq.
  - intros u Hu. by apply stays_cons with t, pl_q0.
  - intros u [->|Hu]%Hss'; [done|]. destruct (pl_ss0 u Hu) as [Hs Hn].
    by apply stays_cons in Hs as [? _].
  - intros sm u Hsm Hu. by eapply stays_cons with t, pl_W0.
  - intros u Hu. destruct (pl_all0 u Hu) as [[->|Hx]%elem_of_cons|[H|[H|[H|H]]]];
      rewrite ?Hss'; tauto.
  - intros u Hu. destruct (aside_cons _ _ _ _ _ _ (pl_Y0 u Hu)) as [Ha Hne].
    apply (aside_sub _ _ _ _ _ _ _ _ _ Ha); try done. rewrite Hss'. tauto.
  - intros u Hq Hn. cbn. apply unlinked_insert; [by apply pl_elem0|].
    by intros (? & ? & _)%list_elem_of_fmap.
  - intros u Hu. rewrite Hss' in Hu. cbn. apply unlinked_insert; [apply pl_sleep_elem0; tauto|].
    intros (? & [= <-] & ?%Hss')%list_elem_of_fmap. tauto.
Qed.

(** ** Taking a thread from its place *)

Lemma stays_take t X (a : aview) st u : stays X a st u → u ≠ t → stays (t :: X) a st u.
Proof. intros (Hx & Hi & Hst) Hne. split_and!; [|done..]. set_solver. Qed.

(** Taking the next thread to run off the ready queue. *)
Lemma placed_take n X q ss W (a : aview) (v : lview) :
  placed D Y X q ss W a → next_of a q = Some n →
  (∀ l, sched_list l = false → v !! l = lists a !! l) →
  (∀ e, unlinked (lists a) e ∨ e ∈ elems q → e ∉ elems (tail q) → unlinked v e) →
  placed D Y (n :: X) (tail q) ss W (set_lists v a).
Proof.
  intros [] Hn Hl Hu.
  assert (Hne : ∀ u, u ∈ tail q ∨ (Some u ≠ idle_thread a ∧ u ∉ q) → u ≠ n).
  { intros u Hx ->. destruct q as [|t q]; simpl in *; [by destruct Hx as [?%elem_of_nil|[? _]]|].
    injection Hn as ->. apply NoDup_cons in pl_nodup0 as [Hd _]. destruct Hx as [?|[_ Hx]]; [done|].
    apply Hx. by left. }
  assert (Htl : ∀ u, u ∈ tail q → u ∈ q) by (destruct q; [done|]; intros u ?; by right).
  assert (Hhd : ∀ u, u ∈ q → u = n ∨ u ∈ tail q).
  { destruct q as [|t q]; [by intros ? ?%elem_of_nil|]. injection Hn as ->. intros u ?%elem_of_cons.
    done. }
  assert (Hnr : ∀ t st, has_status a t st → st ≠ THREAD_READY → t ∉ q).
  { intros t st Ht Hst Hin. destruct (pl_q0 t Hin) as (_ & _ & Hr). unfold has_status in *. congruence. }
  assert (Hbl : ∀ t, has_status a t THREAD_BLOCKED → t ∉ q) by (intros t Ht; by eapply Hnr).
  assert (Hnv : is_Some (threads a !! n)).
  { destruct q as [|t q]; simpl in Hn.
    - destruct pl_idle0 as (i & Hi & Hv & _). congruence.
    - injection Hn as ->. destruct (pl_q0 n) as (_ & _ & Hst); [by left|].
      unfold has_status in Hst. by destruct (threads a !! n). }
  split; unfold stays, has_status in *; cbn; try done.
  - destruct pl_idle0 as (i & Hi & Hv & Hst). exists i. split_and!; [done..|].
    intros Hx. apply Hst. set_solver.
  - intros t [->|Ht]%elem_of_cons; auto.
  - destruct q; [done|]. by apply NoDup_cons in pl_nodup0 as [_ ?].
  - destruct q; [done|]. by apply sorted_on_cons in pl_sorted0 as [_ ?].
  - intros sm Hsm. rewrite Hl by done. auto.
  - by rewrite Hl.
  - intros t Ht. destruct (pl_q0 t (Htl t Ht)) as (Hx & Hi & Hst). split_and!; [|done..].
    rewrite elem_of_cons. pose proof (Hne t (or_introl Ht)). tauto.
  - intros t Ht. destruct (pl_ss0 t Ht) as ((Hx & Hi & Hst) & HW). split_and!; [|done..].
    rewrite elem_of_cons. pose proof (Hne t (or_intror (conj Hi (Hbl t Hst)))). tauto.
  - intros sm t Hsm Ht. destruct (pl_W0 sm t Hsm Ht) as (Hx & Hi & Hst). split_and!; [|done..].
    rewrite elem_of_cons. pose proof (Hne t (or_intror (conj Hi (Hbl t Hst)))). tauto.
  - intros t Ht. rewrite elem_of_cons. destruct (pl_all0 t Ht) as [H|[H|[H|H]]]; try tauto.
    apply Hhd in H. tauto.
  - intros t Ht. destruct (pl_Y0 t Ht) as (Hx & Hi & Hst & Hr). split_and!; [|done|done|apply Hr|apply Hr].
    assert (Hq : t ∉ q) by (destruct Hst as [Hst|Hst]; by eapply Hnr).
    rewrite elem_of_cons. pose proof (Hne t (or_intror (conj Hi Hq))). tauto.
  - intros t Ht HW. apply Hu.
    + destruct (decide (t ∈ q)); [right; by apply list_elem_of_fmap_2|left; auto].
    + by intros (? & [= <-] & ?)%list_elem_of_fmap.
  - intros t Ht. apply Hu; [left; auto|]. by intros (? & ? & _)%list_elem_of_fmap.
Qed.

(** Taking the first waiter of a semaphore. *)
Lemma placed_take_waiter t ws sm X q ss W (a : aview) :
  placed D Y X q ss W a → lists_wf (lists a) → sm ∈ D → W sm = t :: ws →
  placed D Y (t :: X) q ss (with_waiters sm ws W)
    (set_lists (<[sema_waiters sm := elems ws]> (lists a)) a).
Proof.
  intros [] Hwf Hsm HW. assert (Ht : t ∈ W sm) by (rewrite HW; by left).
  pose proof (pl_waiters0 sm Hsm) as Hl. rewrite HW in Hl.
  destruct (pl_W0 sm t Hsm Ht) as (HtX & Hti & Hts).
  assert (Hsub : ∀ sm' u, sm' ∈ D → u ∈ with_waiters sm ws W sm' → u ∈ W sm' ∧ u ≠ t).
  { intros sm' u Hsm' Hu. unfold with_waiters in Hu. case_decide as Hd.
    - subst sm'. rewrite HW. split; [by right|]. intros ->.
      pose proof (lists_wf_NoDup _ _ _ Hwf Hl) as Hnd. rewrite NoDup_fmap in Hnd by apply _.
      by apply NoDup_cons in Hnd as [? _].
    - split; [done|]. intros ->. apply Hd.
      enough (sema_waiters sm' = sema_waiters sm) by congruence.
      eapply (lists_wf_unique _ _ _ _ _ (thread_elem t) Hwf (pl_waiters0 sm' Hsm') Hl).
      + by apply list_elem_of_fmap_2.
      + by left. }
  assert (HWn : ∀ u, waits_not D (with_waiters sm ws W) u → u = t ∨ waits_not D W u).
  { intros u Hn. destruct (decide (u = t)) as [|Hne]; [by left|right]. intros sm' Hsm' Hu.
    apply (Hn sm' Hsm'). unfold with_waiters. case_decide; [|done]. subst sm'.
    rewrite HW in Hu. by apply elem_of_cons in Hu as [?|?]. }
  assert (Hunl : ∀ e, unlinked (lists a) e → unlinked (<[sema_waiters sm := elems ws]> (lists a)) e).
  { intros e He. apply unlinked_insert; [done|]. intros Hin. eapply He; [exact Hl|by right]. }
  split; try done.
  - destruct pl_idle0 as (i & Hi & Hv & Hst). exists i. split_and!; [done..|].
    intros Hx. apply Hst. set_solver.
  - intros u [->|Hu]%elem_of_cons; [|auto]. unfold has_status in Hts. cbn.
    by destruct (threads a !! t).
  - intros sm' Hsm'. cbn. unfold with_waiters. case_decide as Hd.
    + subst sm'. apply lookup_insert_eq.
    + rewrite lookup_insert_ne by congruence. auto.
  - cbn. by rewrite lookup_insert_ne.
  - intros u Hu. apply (stays_take t); [by apply pl_q0|]. intros ->.
    destruct (pl_q0 t Hu) as (_ & _ & Hst). unfold has_status in *. congruence.
  - intros u Hu. destruct (pl_ss0 u Hu) as [Hs Hn]. split.
    + apply (stays_take t); [done|]. intros ->. by apply (Hn sm).
    + intros sm' Hsm' Hin. apply Hsub in Hin as [? _]; [|done]. by apply (Hn sm').
  - intros sm' u Hsm' Hu. apply Hsub in Hu as [Hu Hne]; [|done].
    apply (stays_take t); [by apply (pl_W0 sm')|done].
  - intros u Hu. destruct (decide (u = t)) as [->|Hne]; [left; by left|].
    destruct (pl_all0 u Hu) as [H|[H|[H|[H|[(sm' & H1 & H2)|H]]]]]; rewrite ?elem_of_cons; try tauto.
    do 4 right. left. exists sm'. split; [done|]. unfold with_waiters. case_decide; [|done]. subst sm'.
    rewrite HW in H2. by apply elem_of_cons in H2 as [?|?].
  - intros u Hu. pose proof (pl_Y0 u Hu) as Ha. apply (aside_sub _ _ _ _ _ _ _ _ _ Ha); try done.
    + rewrite elem_of_cons. destruct Ha as (_ & _ & _ & _ & Hn). intros ? [->|?]; [|done]. by apply (Hn sm).
    + intros Hn sm' Hsm' Hin. apply Hsub in Hin as [? _]; [|done]. by apply (Hn sm').
  - intros u Hq [->|Hn]%HWn; cbn; [by apply unlinked_pop|by apply Hunl, pl_elem0].
  - intros u Hu. cbn. by apply Hunl, pl_sleep_elem0.
  - intros sm' Hsm'. unfold with_waiters. case_decide; [|by apply pl_order0].
    pose proof (pl_order0 sm Hsm) as Hs. rewrite HW in Hs. by apply sorted_on_cons in Hs as [_ ?].
Qed.

(** ** The operations, one by one *)

Lemma placed_value sm v X q ss W (a : aview) :
  placed D Y X q ss W a → sm ∈ D → 0 ≤ v < UINT_MAX →
  placed D Y X q ss W (set_semas (<[sm := v]> (semas a)) a).
Proof.
  intros [] Hsm Hv. split; try done; cbn.
  - intros sm'. rewrite lookup_insert_is_Some, pl_semas0. split; [|intros [<-|[_ ?]]].
    + intros ?. destruct (decide (sm = sm')); [by left|by right].
    + by apply pl_semas0.
    + done.
  - intros sm' v' [[<- <-]|[_ Hv']]%lookup_insert_Some; eauto.
Qed.

Lemma placed_intr v X q ss W (a : aview) : placed D Y X q ss W a → placed D Y X q ss W (set_intr v a).
Proof. intros H. by eapply placed_ext. Qed.

(** Marking the running thread, which is then put into its place. *)
Lemma placed_marked st q ss W (a : aview) :
  placed D Y [running a] q ss W a →
  placed D Y [running a] q ss W (marked st a) ∧ has_status (marked st a) (running a) st.
Proof.
  intros Hpl. destruct (pl_self Hpl (running a)) as [th Hth]; [by left|].
  unfold marked, has_status. cbn. rewrite lookup_alter_eq, Hth. split; [|done].
  rewrite (lookup_alter_insert _ _ th) by done. apply placed_self; [done|by left|].
  exact (pl_threads Hpl _ _ Hth).
Qed.

Lemma stays_nil st (a : aview) t :
  Some t ≠ idle_thread a → has_status a t st → stays [] a st t.
Proof. intros. split_and!; [apply not_elem_of_nil|done..]. Qed.

Lemma enqueue_marked st t q (a : aview) :
  enqueue (threads (marked st a)) t q = enqueue (threads a) t q.
Proof. apply enqueue_ext, thread_priority_marked. Qed.

Lemma placed_requeue q ss W (a : aview) :
  placed D Y [running a] q ss W a →
  placed D Y [] (requeue a q) ss W (marked THREAD_READY (intr_off a)).
Proof.
  intros Hpl. destruct (placed_marked THREAD_READY q ss W (intr_off a)) as [Hpl' Hst];
    [by apply placed_intr|]. unfold requeue. case_bool_decide as Hi.
  - by apply (placed_to_idle (running a)); [..|left].
  - pose proof (placed_to_q _ _ _ _ _ _ Hpl' (stays_nil _ (marked _ (intr_off a)) _ Hi Hst)) as H.
    rewrite enqueue_marked in H. exact H.
Qed.

Lemma placed_block_sema sm q ss W (a : aview) :
  placed D Y [running a] q ss W a → sm ∈ D → Some (running a) ≠ idle_thread a →
  placed D Y [] q ss (with_waiters sm (enqueue (threads a) (running a) (W sm)) W)
    (marked THREAD_BLOCKED (queued_on sm (W sm) a)).
Proof.
  intros Hpl Hsm Hi. destruct (placed_marked THREAD_BLOCKED q ss W a Hpl) as [Hpl' Hst].
  eapply placed_ext; [eapply (placed_to_sema (running a) sm); [exact Hpl'|exact Hsm| | |]|done..].
  - intros u. apply elem_of_enqueue.
  - rewrite <- (enqueue_marked THREAD_BLOCKED). by apply enqueue_sorted, (pl_order Hpl').
  - by apply stays_nil.
Qed.

Lemma placed_block_idle q ss W (a : aview) :
  placed D Y [running a] q ss W a → Some (running a) = idle_thread a →
  placed D Y [] q ss W (marked THREAD_BLOCKED a).
Proof.
  intros Hpl Hi. destruct (placed_marked THREAD_BLOCKED q ss W a Hpl) as [Hpl' Hst].
  by apply (placed_to_idle (running a)); [..|right].
Qed.

Lemma placed_block_sleep tick ss' q ss W (a : aview) :
  placed D Y [running a] q ss W a → Some (running a) ≠ idle_thread a →
  ss' = insert_before (λ t, tick <? thread_wakeup (threads a) t) (running a) ss →
  sleeping (marked THREAD_BLOCKED (sleep_until tick ss a)) ss' →
  placed D Y [] q ss' W (marked THREAD_BLOCKED (sleep_until tick ss a)).
Proof.
  intros Hpl Hi -> (Hl & Hsort & _). set (ss' := insert_before _ _ _) in *.
  destruct (pl_self Hpl (running a)) as [th Hth]; [by left|].
  set (b := set_threads (<[running a := with_wakeup_tick tick th]> (threads a)) a).
  assert (Hb : placed D Y [running b] q ss W b).
  { apply placed_self; [done|by left|]. exact (pl_threads Hpl _ _ Hth). }
  destruct (placed_marked THREAD_BLOCKED q ss W b Hb) as [Hpl' Hst].
  assert (Hts : threads (marked THREAD_BLOCKED (sleep_until tick ss a)) =
    threads (marked THREAD_BLOCKED b)).
  { cbn. by rewrite (lookup_alter_insert (threads a) _ th). }
  eapply placed_ext; [eapply (placed_to_sleep (running a) ss'); [exact Hpl'|..]|done..| |].
  - intros u. apply elem_of_insert_before.
  - intros sm Hsm Hw. destruct (pl_W Hpl sm _ Hsm Hw) as [Hx _]. apply Hx. by left.
  - by rewrite <- Hts.
  - by apply stays_nil.
  - done.
  - cbn in Hl |- *. rewrite lookup_insert_eq in Hl. injection Hl as Hl. by rewrite Hl.
Qed.

(** [sema_up]: the first waiter becomes ready. *)
Lemma placed_upped sm v ws q ss W (a a1 : aview) q1 :
  placed D Y [running a] q ss W a → lists_wf (lists a) → sm ∈ D → semas a !! sm = Some v →
  v < UINT_MAX - 1 → W sm = ws → upped a sm v ws q a1 q1 →
  placed D Y [running a] q1 ss (with_waiters sm (tail ws) W) a1.
Proof.
  intros Hpl Hwf Hsm Hv Hr HW Hup. pose proof (pl_values Hpl _ _ Hv) as Hv0.
  assert (Hid : with_waiters sm (W sm) W = W).
  { apply functional_extensionality. intros sm'. unfold with_waiters. by case_decide; subst. }
  destruct ws as [|t ws]; simpl in Hup.
  - destruct Hup as [-> ->]. simpl. rewrite HW in Hid. rewrite Hid. apply placed_value; [done|done|lia].
  - destruct Hup as (th & Ht & Ha1 & -> & Hr1 & Hws & Hl & Hu).
    pose proof (placed_take_waiter t ws sm _ _ _ _ a Hpl Hwf Hsm HW) as H1.
    set (b := set_lists _ a) in H1.
    assert (Hun : unblocked a t th = with_status THREAD_READY th).
    { unfold unblocked, reprioritised. by rewrite (pl_prio Hpl). }
    apply (placed_self _ _ _ _ t (unblocked a t th)) in H1; [|by left|].
    2:{ rewrite Hun. exact (pl_threads Hpl _ _ Ht). }
    pose proof (pl_W Hpl sm t Hsm ltac:(rewrite HW; by left)) as (Htx & Hti & _).
    apply placed_to_q in H1.
    2:{ split_and!; [done|done|]. unfold has_status. cbn. by rewrite lookup_insert_eq, Hun. }
    apply (placed_value sm (v + 1)) in H1; [|done|lia].
    assert (Hth : threads a1 = <[t := unblocked a t th]> (threads a)) by (by rewrite Ha1).
    rewrite Hth. eapply placed_frame; [exact H1|by rewrite Ha1..| |].
    + intros l Hsl. cbn. destruct (decide (l = sema_waiters sm)) as [->|Hne].
      * by rewrite Hws, lookup_insert_eq.
      * by rewrite lookup_insert_ne, Hl.
    + intros e He Hnq. cbn in He, Hnq. apply Hu. intros l xs Hxs Hin.
      destruct (decide (l = sema_waiters sm)) as [->|Hne].
      * rewrite (pl_waiters Hpl sm Hsm), HW in Hxs. injection Hxs as <-.
        apply elem_of_cons in Hin as [->|Hin].
        -- apply Hnq, list_elem_of_fmap_2, elem_of_enqueue. by left.
        -- eapply He; [apply lookup_insert_eq|done].
      * eapply He; [by rewrite lookup_insert_ne|done].
Qed.

Lemma woken_sorted (a : aview) l : ∀ ts q,
  thread_mlfqs a = false → queue_sorted ts q → NoDup l → (∀ t, t ∈ l → t ∉ q) →
  let p := foldl (wake a) (ts, q) l in
  queue_sorted p.1 p.2 ∧ ∀ u, thread_priority p.1 u = thread_priority ts u.
Proof.
  intros ts q Hm. revert ts q. induction l as [|t l IH]; intros ts q Hs Hd Hn; [done|].
  apply NoDup_cons in Hd as [Htl Hd]. cbn [foldl].
  assert (Hw : wake a (ts, q) t = match ts !! t with
    | Some th => let ts' := <[t := unblocked a t th]> ts in (ts', enqueue ts' t q)
    | None => (ts, q) end) by done.
  rewrite Hw. clear Hw. cbv zeta. destruct (ts !! t) as [th|] eqn:Hth.
  - assert (Hp : ∀ u, thread_priority (<[t := unblocked a t th]> ts) u = thread_priority ts u).
    { intros u. apply (thread_priority_insert _ _ th); [done|].
      unfold unblocked, reprioritised. by rewrite Hm. }
    destruct (IH (<[t := unblocked a t th]> ts) (enqueue (<[t := unblocked a t th]> ts) t q))
      as [Hs' Hp'].
    + apply enqueue_sorted. eapply sorted_on_ext; [|exact Hs]. intros u _. by rewrite Hp.
    + done.
    + intros u Hu [->|Hq]%elem_of_enqueue; [done|]. by apply (Hn u ltac:(by right)).
    + split; [exact Hs'|]. intros u. by rewrite Hp', Hp.
  - apply IH; [done..|]. intros u Hu. apply Hn. by right.
Qed.

Lemma placed_sleeping X q ss W (a : aview) : placed D Y X q ss W a → sleeping a ss.
Proof.
  intros []. split_and!; [done..|]. intros t Ht. destruct (pl_ss0 t Ht) as ((Hx & Hi & Hst) & HW).
  unfold has_status in Hst. destruct (threads a !! t) as [th|] eqn:Hth; [|done].
  injection Hst as Hst. destruct (pl_threads0 _ _ Hth) as (? & ? & _). exists th. split_and!; [done..|].
  apply pl_elem0; [|done]. intros Hq. destruct (pl_q0 t Hq) as (_ & _ & Hr).
  unfold has_status in Hr. rewrite Hth in Hr. injection Hr as Hr. congruence.
Qed.

(** A timer tick: the threads [l] are woken up. *)
Lemma placed_woke l r q W (a a1 : aview) :
  placed D Y [running a] q (l ++ r) W a → lists_wf (lists a) → woke l r q a a1 →
  placed D Y [running a] (woken a l q).2 r W a1.
Proof.
  intros Hpl Hwf (Ha1 & Hr & Hs & Hl & Hu).
  pose proof (placed_sleeping _ _ _ _ _ Hpl) as Hsl. destruct Hpl.
  destruct (woken_sleeping a l r q Hwf Hsl) as (Hperm & Ho & Hwk).
  pose proof (sleeping_NoDup a (l ++ r) Hwf Hsl) as Hnd.
  pose proof Hnd as (Hdl & Hlr & _)%NoDup_app.
  assert (Hlq : ∀ t, t ∈ l → t ∉ q).
  { intros t Ht Hq. destruct (pl_ss0 t) as ((_ & _ & Hst) & _); [set_solver|].
    destruct (pl_q0 t Hq) as (_ & _ & Hst'). unfold has_status in *. congruence. }
  destruct (woken_sorted a l (threads a) q) as [Hsort Hprio]; [done..|].
  assert (Hts : threads a1 = (woken a l q).1) by (by rewrite Ha1).
  assert (Hsem : semas a1 = semas a ∧ idle_thread a1 = idle_thread a ∧ thread_mlfqs a1 = false)
    by (by rewrite Ha1).
  destruct Hsem as (Hsem & Hidle & Hm).
  assert (Hun : ∀ t th, unblocked a t th = with_status THREAD_READY th).
  { intros t th. unfold unblocked, reprioritised. by rewrite pl_prio0. }
  assert (Hst : ∀ t st, t ∉ l → stays [running a] a st t → stays [running a] a1 st t).
  { intros t st Ht (Hx & Hi & Hs'). split_and!; [done|by rewrite Hidle|].
    unfold has_status. by rewrite Hts, Ho. }
  assert (Hsome : ∀ t, is_Some (threads a1 !! t) ↔ is_Some (threads a !! t)).
  { intros t. rewrite Hts. destruct (decide (t ∈ l)) as [Hin|Hn]; [|by rewrite Ho].
    destruct (pl_ss0 t) as ((_ & _ & Hx) & _); [set_solver|]. unfold has_status in Hx.
    destruct (threads a !! t) as [th|] eqn:Hth; [|done]. by rewrite (Hwk t th). }
  split; try done.
  - destruct pl_idle0 as (i & Hi & Hv & Hx). exists i. split_and!; [by rewrite Hidle|by apply Hsome|].
    intros Hne. unfold has_status. rewrite Hts, Ho; [by apply Hx|]. intros Hin.
    by destruct (pl_ss0 i ltac:(set_solver)) as ((_ & ? & _) & _).
  - intros t Ht. by apply Hsome, pl_self0.
  - intros t th Hth. rewrite Hts in Hth. destruct (decide (t ∈ l)) as [Hin|Hn].
    + destruct (pl_ss0 t) as ((_ & _ & Hx) & _); [set_solver|]. unfold has_status in Hx.
      destruct (threads a !! t) as [th0|] eqn:Hth0; [|done].
      rewrite (Hwk t th0) in Hth by done. injection Hth as <-. rewrite Hun.
      exact (pl_threads0 _ _ Hth0).
    + rewrite Ho in Hth by done. by eapply pl_threads0.
  - rewrite Hperm. apply NoDup_app. split_and!; [done|exact Hlq|done].
  - by rewrite Hts.
  - by rewrite Hsem.
  - by rewrite Hsem.
  - intros sm Hsm. rewrite Hl by done. auto.
  - apply Hs.
  - apply Hs.
  - intros t Ht. rewrite Hperm in Ht. apply elem_of_app in Ht as [Ht|Ht].
    + destruct (pl_ss0 t) as ((Hx & Hi & Hs') & _); [set_solver|].
      split_and!; [done|by rewrite Hidle|]. unfold has_status in *. rewrite Hts.
      destruct (threads a !! t) as [th|] eqn:Hth; [|done]. by rewrite (Hwk t th), Hun.
    + apply Hst; [|by apply pl_q0]. intros Hin. by apply (Hlq t).
  - intros t Ht. destruct (pl_ss0 t) as [Hs' Hn]; [set_solver|]. split; [|done].
    apply Hst; [|done]. intros Hin. by apply (Hlr t).
  - intros sm t Hsm Ht. apply Hst; [|by eapply pl_W0]. intros Hin.
    destruct (pl_ss0 t) as [_ Hn]; [set_solver|]. by apply (Hn sm).
  - intros t Ht%Hsome. rewrite Hidle, Hperm. destruct (pl_all0 t Ht) as [H|[H|[H|[H|H]]]];
      rewrite ?elem_of_app in *; tauto.
  - intros t Ht. destruct (pl_Y0 t Ht) as (Hx & Hi & Hs' & Hn & HW). rewrite elem_of_app in Hn.
    split_and!; [done|by rewrite Hidle| |tauto|done]. unfold has_status in *. rewrite Hts, Ho by tauto.
    done.
  - intros t Ht Hn. rewrite Hperm in Ht. apply Hu. left. rewrite elem_of_app in Ht.
    split; [apply pl_elem0; tauto|]. intros (? & [= <-] & ?)%list_elem_of_fmap. tauto.
  - intros t Ht. apply Hu. destruct (decide (t ∈ l)).
    + right. by apply list_elem_of_fmap_2.
    + left. split; [apply pl_sleep_elem0; rewrite elem_of_app; tauto|].
      by intros (? & ? & _)%list_elem_of_fmap.
  - intros sm Hsm. eapply sorted_on_ext; [|exact (pl_order0 sm Hsm)]. intros u _. cbv beta.
    f_equal. rewrite Hts. symmetry. apply Hprio.
Qed.

End placed.

(** Threads that come and go. *)
Lemma placed_to_aside (D : gset sema_ptr) t Y X q ss W (a : aview) :
  placed D Y (t :: X) q ss W a → (t ∉ X) → Some t ≠ idle_thread a →
  has_status a t THREAD_BLOCKED ∨ has_status a t THREAD_DYING →
  placed D ({[t]} ∪ Y) X q ss W a.
Proof.
  intros [] Hx Hi Hst. split; try done.
  - destruct pl_idle0 as (i & Hii & Hv & Hs). exists i. split_and!; [done..|]. intros Hn. apply Hs.
    rewrite elem_of_cons. intros [->|?]; congruence.
  - intros u Hu. apply pl_self0. by right.
  - intros u Hu. by apply stays_cons with t, pl_q0.
  - intros u Hu. destruct (pl_ss0 u Hu) as [Hs HW]. by apply stays_cons in Hs as [? _].
  - intros sm u Hsm Hu. by eapply stays_cons with t, pl_W0.
  - intros u Hu. rewrite elem_of_union, elem_of_singleton.
    destruct (pl_all0 u Hu) as [[->|?]%elem_of_cons|?]; tauto.
  - intros u [->%elem_of_singleton|Hu]%elem_of_union; [|by apply (aside_cons D t), pl_Y0].
    split_and!; [done..| |].
    + intros Hs. destruct (pl_ss0 t Hs) as [(Hn & _) _]. apply Hn. by left.
    + intros sm Hsm Hs. destruct (pl_W0 sm t Hsm Hs) as (Hn & _). apply Hn. by left.
Qed.

Lemma placed_take_aside (D : gset sema_ptr) t Y X q ss W (a : aview) :
  placed D Y X q ss W a → t ∈ Y → placed D (Y ∖ {[t]}) (t :: X) q ss W a.
Proof.
  intros [] Ht. destruct (pl_Y0 t Ht) as (Hx & Hi & Hst & Hss & HW).
  assert (Hq : t ∉ q).
  { intros Hin. destruct (pl_q0 t Hin) as (_ & _ & Hs). unfold has_status in *.
    destruct Hst; congruence. }
  split; try done.
  - destruct pl_idle0 as (i & Hii & Hv & Hs). exists i. split_and!; [done..|].
    intros [_ Hn]%not_elem_of_cons. auto.
  - intros u [->|Hu]%elem_of_cons; [|auto]. unfold has_status in Hst.
    destruct (threads a !! t); [done|by destruct Hst].
  - intros u Hu. apply stays_take; [auto|]. by intros ->.
  - intros u Hu. destruct (pl_ss0 u Hu). split; [|done]. apply stays_take; [done|]. by intros ->.
  - intros sm u Hsm Hu. apply stays_take; [eauto|]. intros ->. by apply (HW sm).
  - intros u Hu. rewrite elem_of_cons, elem_of_difference, elem_of_singleton.
    destruct (decide (u = t)); [tauto|]. destruct (pl_all0 u Hu); tauto.
  - intros u [Hu Hne]%elem_of_difference. rewrite elem_of_singleton in Hne.
    destruct (pl_Y0 u Hu) as (Hx' & Hr). split; [rewrite elem_of_cons; tauto|done].
Qed.

(** Changing the record of a thread that is aside. *)
Lemma placed_aside_record (D : gset sema_ptr) t th Y X q ss W (a : aview) :
  placed D Y X q ss W a → t ∈ Y → well_made th → status th = THREAD_BLOCKED →
  placed D Y X q ss W (set_threads (<[t := th]> (threads a)) a).
Proof.
  intros Hpl Ht Hok Hst. destruct (pl_Y Hpl t Ht) as (Hx & Hi & _).
  apply (placed_take_aside _ t) in Hpl; [|done].
  apply (placed_self _ _ _ _ _ _ t th) in Hpl; [|by left|done].
  apply placed_to_aside in Hpl; [|done|done|].
  - by rewrite <- union_difference_singleton_L in Hpl.
  - left. unfold has_status. cbn. by rewrite lookup_insert_eq, <- Hst.
Qed.

(** * The running thread *)
Section in_hand.
Context {E : Env} {EL : EnvLaws E} (D : gset sema_ptr) (Y : gset tptr).

(** [n] is the thread in the processor's hands. *)
Definition in_hand (n : tptr) (a : aview) : Prop :=
  ∃ q ss W, placed D Y [n] q ss W a ∧ ready a q.

(** The running thread is between two actions of its own, with interrupts at
    level [l]. *)
Definition running_ok (l : intr_level) (a : aview) : Prop :=
  iv_level (intr a) = l ∧ iv_context (intr a) = false ∧ in_hand (running a) a ∧
  has_status a (running a) THREAD_RUNNING ∧ 0 ≤ thread_ticks a < TIME_SLICE.

(** No ready thread has a higher priority than [n]. *)
Definition highest (n : tptr) (a : aview) : Prop :=
  ∀ u, has_status a u THREAD_READY → Some u ≠ idle_thread a →
    thread_priority (threads a) u ≤ thread_priority (threads a) n.

(** The thread that ran in [s] has handed the processor to [n]. *)
Definition handover (s : aview) (n : tptr) (b : aview) : Prop :=
  running b = running s ∧ n ≠ running b ∧ iv_level (intr b) = INTR_OFF ∧
  iv_context (intr b) = false ∧ in_hand n b ∧ highest n b ∧ ¬ has_status b n THREAD_DYING.

Lemma placed_current q ss W (a : aview) :
  placed D Y [running a] q ss W a → has_status a (running a) THREAD_RUNNING →
  ∃ cur, current_ok a cur ∧ priority_ok cur.
Proof.
  intros [] Hst. unfold has_status in Hst.
  destruct (threads a !! running a) as [cur|] eqn:Hc; [|done]. injection Hst as Hst.
  destruct (pl_threads0 _ _ Hc) as (Hok & Hp & _). by exists cur.
Qed.

Lemma placed_unlinked q ss W (a : aview) :
  placed D Y [running a] q ss W a →
  unlinked (lists a) (thread_elem (running a)) ∧ unlinked (lists a) (thread_sleep_elem (running a)).
Proof.
  intros []. split; [apply pl_elem0|apply pl_sleep_elem0].
  - intros Hq. destruct (pl_q0 _ Hq) as [Hx _]. apply Hx. by left.
  - intros sm Hsm Hw. destruct (pl_W0 _ _ Hsm Hw) as [Hx _]. apply Hx. by left.
  - intros Hs. destruct (pl_ss0 _ Hs) as [[Hx _] _]. apply Hx. by left.
Qed.

Lemma placed_valid X q ss W (a : aview) t : placed D Y X q ss W a → t ∈ q → valid a t.
Proof.
  intros [] Ht. destruct (pl_q0 t Ht) as (_ & _ & Hst). unfold has_status in Hst.
  destruct (threads a !! t) as [th|] eqn:Hth; [|done]. exists th. split; [done|].
  by eapply pl_threads0.
Qed.

Lemma placed_idle_valid X q ss W (a : aview) :
  placed D Y X q ss W a → ∃ i, idle_thread a = Some i ∧ valid a i.
Proof.
  intros []. destruct pl_idle0 as (i & Hi & [th Hth] & _). exists i. split; [done|].
  exists th. split; [done|]. by eapply pl_threads0.
Qed.

Lemma placed_sched_ok q ss W (a : aview) :
  placed D Y [running a] q ss W a → ready a q → has_status a (running a) THREAD_RUNNING →
  ∃ cur, sched_ok a q cur.
Proof.
  intros Hpl Hr Hst. destruct (placed_current _ _ _ _ Hpl Hst) as (cur & Hc & Hp). exists cur.
  split_and!; [apply Hc..|done|done|by eapply placed_unlinked|].
  intros t. by eapply placed_valid.
Qed.

(** ** Handing over and taking over *)

Lemma in_hand_handed q ss W (a : aview) n (a1 : aview) :
  placed D Y [] q ss W a → next_of a q = Some n → ready a1 (tail q) → sched_frame a a1 →
  (∀ e, unlinked (lists a) e ∨ e ∈ elems q → e ∉ elems (tail q) → unlinked (lists a1) e) →
  in_hand n a1.
Proof.
  intros Hpl Hn Hr [Ha1 Hl] Hu. exists (tail q), ss, W. split; [|done]. rewrite Ha1.
  by eapply placed_take.
Qed.

Lemma highest_next q ss W (a : aview) n (a1 : aview) :
  placed D Y [] q ss W a → next_of a q = Some n → sched_frame a a1 → highest n a1.
Proof.
  intros Hpl Hn [-> _] u Hu Hi. unfold has_status in Hu. cbn in Hu, Hi |- *.
  assert (Hv : is_Some (threads a !! u)) by (by destruct (threads a !! u)).
  destruct (pl_all Hpl u Hv) as [?%elem_of_nil|[?|[Hq|[Hs|[(sm & Hsm & Hw)|HY]]]]]; [done|done| |..].
  - pose proof (pl_sorted Hpl) as Hsort. destruct q as [|t q]; [by apply elem_of_nil in Hq|].
    injection Hn as ->. apply sorted_on_cons in Hsort as [Hle _].
    apply elem_of_cons in Hq as [->|Hq]; [done|]. specialize (Hle u Hq). lia.
  - destruct (pl_ss Hpl u Hs) as ((_ & _ & Hst) & _). unfold has_status in Hst. congruence.
  - destruct (pl_W Hpl sm u Hsm Hw) as (_ & _ & Hst). unfold has_status in Hst. congruence.
  - destruct (pl_Y Hpl u HY) as (_ & _ & [Hst|Hst] & _); unfold has_status in Hst; congruence.
Qed.

(** The running thread is ahead of the ready ones if it is ahead of the first. *)
Lemma highest_front q ss W (a : aview) :
  placed D Y [running a] q ss W a →
  (∀ t, head q = Some t → thread_priority (threads a) t ≤ thread_priority (threads a) (running a)) →
  highest (running a) a.
Proof.
  intros Hpl Hhd u Hu Hi. assert (Hv : is_Some (threads a !! u)).
  { unfold has_status in Hu. by destruct (threads a !! u). }
  destruct (pl_all Hpl u Hv) as [->%list_elem_of_singleton|[?|[Hq|[Hs|[(sm & Hsm & Hw)|HY]]]]];
    [done|done|..].
  - pose proof (pl_sorted Hpl) as Hsort. destruct q as [|t q]; [by apply elem_of_nil in Hq|].
    specialize (Hhd t eq_refl). apply sorted_on_cons in Hsort as [Hle _].
    apply elem_of_cons in Hq as [->|Hq]; [done|]. specialize (Hle u Hq). lia.
  - destruct (pl_ss Hpl u Hs) as ((_ & _ & Hst) & _). unfold has_status in *. congruence.
  - destruct (pl_W Hpl sm u Hsm Hw) as (_ & _ & Hst). unfold has_status in *. congruence.
  - destruct (pl_Y Hpl u HY) as (_ & _ & [Hst|Hst] & _); unfold has_status in *; congruence.
Qed.

(** No new ready threads, and the same priorities. *)
Lemma highest_ext n (a b : aview) :
  highest n a → idle_thread b = idle_thread a →
  (∀ u, has_status b u THREAD_READY → has_status a u THREAD_READY ∧
     thread_priority (threads b) u = thread_priority (threads a) u) →
  thread_priority (threads b) n = thread_priority (threads a) n → highest n b.
Proof.
  intros Hh Hi Hu Hn u Hub Hne. destruct (Hu u Hub) as [Hua ->]. rewrite Hn.
  apply Hh; [done|congruence].
Qed.

Lemma next_not_dying q ss W (a : aview) n (a1 : aview) :
  placed D Y [] q ss W a → next_of a q = Some n → sched_frame a a1 →
  ¬ has_status a1 n THREAD_DYING.
Proof.
  intros [] Hn [-> _]. change (¬ has_status a n THREAD_DYING). intros Hd. destruct q as [|t q].
  - destruct pl_idle0 as (i & Hi & _ & Hs). simpl in Hn. rewrite Hi in Hn. injection Hn as ->.
    destruct (Hs ltac:(apply not_elem_of_nil)); unfold has_status in *; congruence.
  - injection Hn as ->. destruct (pl_q0 n) as (_ & _ & Hs); [by left|].
    unfold has_status in *. congruence.
Qed.

Lemma well_made_with_status st th : well_made th → well_made (with_status st th).
Proof. done. Qed.

Lemma in_hand_self n f (a : aview) :
  in_hand n a → (∀ th, well_made th → well_made (f th)) →
  (∀ th, priority (f th) = priority th) →
  in_hand n (set_threads (alter f n (threads a)) a).
Proof.
  intros (q & ss & W & Hpl & Hr) Hf Hp.
  destruct (pl_self Hpl n) as [th Hth]; [by left|].
  rewrite (lookup_alter_insert _ _ th) by done. exists q, ss, W. split.
  - apply placed_self; [done|by left|]. apply Hf. by eapply pl_threads.
  - eapply (rq_ext (rq := ready) a); [done..|]. intros u _.
    apply (thread_priority_insert _ _ th); auto.
Qed.
End in_hand.

(** ** The thread in hand starts, or starts again, to run *)

Section resuming.
Context {E : Env} {EL : EnvLaws E} (D : gset sema_ptr).

(** A dying thread is forgotten. *)
Lemma placed_reap Y X q ss W p us (a : aview) :
  placed D Y X q ss W a → p ∈ Y → has_status a p THREAD_DYING →
  placed D (Y ∖ {[p]}) X q ss W (set_threads (delete p (threads a)) (set_pages us a)).
Proof.
  intros [] Hp Hst. destruct (pl_Y0 p Hp) as (HpX & Hpi & _ & Hpss & HpW).
  assert (Hpq : p ∉ q).
  { intros Hq. destruct (pl_q0 p Hq) as (_ & _ & Hr). unfold has_status in *. congruence. }
  assert (Hne : ∀ u st, u ≠ p → has_status a u st →
    has_status (set_threads (delete p (threads a)) (set_pages us a)) u st).
  { intros u st Hup Hu. unfold has_status in *. cbn. by rewrite lookup_delete_ne. }
  assert (Hstays : ∀ u st, u ≠ p → stays X a st u →
    stays X (set_threads (delete p (threads a)) (set_pages us a)) st u).
  { intros u st Hup (Hx & Hi & Hs). split_and!; [done..|]. by apply Hne. }
  assert (Hsome : ∀ u, u ≠ p → is_Some (threads a !! u) → is_Some (delete p (threads a) !! u))
    by (intros u Hu; by rewrite lookup_delete_ne).
  split; try done.
  - destruct pl_idle0 as (i & Hi & Hv & Hs). exists i. assert (i ≠ p) by (intros ->; congruence).
    split_and!; [done|by apply Hsome|]. intros Hx. destruct (Hs Hx); [left|right]; by apply Hne.
  - intros u Hu. apply Hsome; [by intros ->|by apply pl_self0].
  - intros u th Hu. cbn in Hu. apply lookup_delete_Some in Hu as [_ Hu]. by eapply pl_threads0.
  - eapply sorted_on_ext; [|exact pl_sorted0]. intros u Hu. unfold thread_priority. cbn.
    rewrite lookup_delete_ne; [done|]. by intros ->.
  - eapply sorted_on_ext; [|exact pl_wakeup0]. intros u Hu. unfold thread_wakeup. cbn.
    rewrite lookup_delete_ne; [done|]. by intros ->.
  - intros u Hu. apply Hstays; [by intros ->|auto].
  - intros u Hu. destruct (pl_ss0 u Hu). split; [|done]. apply Hstays; [by intros ->|done].
  - intros sm u Hsm Hu. apply Hstays; [|by eapply pl_W0]. intros ->. by apply (HpW sm).
  - intros u [th Hu]. cbn in Hu. apply lookup_delete_Some in Hu as [Hup Hu].
    destruct (pl_all0 u ltac:(by eexists)) as [H|[H|[H|[H|[H|H]]]]];
      try tauto. do 5 right. set_solver.
  - intros u [Hu Hup]%elem_of_difference. rewrite elem_of_singleton in Hup.
    destruct (pl_Y0 u Hu) as (Hx & Hi & Hs & Hr). split_and!; [done..| |apply Hr|apply Hr].
    destruct Hs; [left|right]; by apply Hne.
  - intros sm Hsm. eapply sorted_on_ext; [|exact (pl_order0 sm Hsm)]. intros u Hu.
    unfold thread_priority. cbn. rewrite lookup_delete_ne; [done|]. intros ->. by apply (HpW sm).
Qed.

Lemma thread_priority_alter st ts t u :
  thread_priority (alter (with_status st) t ts) u = thread_priority ts u.
Proof.
  unfold thread_priority. destruct (decide (u = t)) as [->|Hne].
  - rewrite lookup_alter_eq. by destruct (ts !! t).
  - by rewrite lookup_alter_ne.
Qed.

(** Going on changes no priorities. *)
Lemma highest_resumed prev (a : aview) :
  highest (running a) a → (∀ p, prev = Some p → p ≠ running a) →
  highest (running (resumed prev a)) (resumed prev a).
Proof.
  intros Hh Hp. set (b := set_thread_ticks 0 (set_threads
    (alter (with_status THREAD_RUNNING) (running a) (threads a)) a)).
  assert (Hb : highest (running b) b).
  { apply (highest_ext _ a); [done|done| |exact (thread_priority_alter _ _ _ _)].
    intros u Hu. unfold has_status in *. cbn in *. destruct (decide (u = running a)) as [->|Hne].
    - rewrite lookup_alter_eq in Hu. by destruct (threads a !! running a).
    - rewrite lookup_alter_ne in Hu by done. split; [done|]. exact (thread_priority_alter _ _ _ _). }
  unfold resumed. fold b. destruct prev as [p|]; [|done]. destruct (reaps b p) eqn:Hr; [|done].
  specialize (Hp p eq_refl). apply (highest_ext _ b); [done|done|..].
  - intros u Hu. unfold has_status in *. cbn in *. destruct (decide (u = p)) as [->|Hne].
    + by rewrite lookup_delete_eq in Hu.
    + rewrite lookup_delete_ne in Hu by done. split; [done|].
      unfold thread_priority. cbn. by rewrite lookup_delete_ne.
  - unfold thread_priority. cbn. by rewrite lookup_delete_ne.
Qed.

(** The threads aside after a switch from [prev]. *)
Definition reaped (prev : option tptr) (a : aview) (Y : gset tptr) : gset tptr :=
  match prev with Some p => if reaps a p then Y ∖ {[p]} else Y | None => Y end.

Lemma reaps_dying (a : aview) p : reaps a p = true → has_status a p THREAD_DYING.
Proof.
  unfold reaps, has_status. destruct (threads a !! p) as [th|]; [|done].
  intros [H%bool_decide_eq_true_1 _]%andb_true_iff. cbn. by rewrite H.
Qed.

Lemma not_reaped (a : aview) p st : has_status a p st → st ≠ THREAD_DYING → reaps a p = false.
Proof.
  intros Hst Hne. destruct (reaps a p) eqn:Hr; [|done]. apply reaps_dying in Hr.
  unfold has_status in *. congruence.
Qed.

Lemma dying_aside Y X q ss W p (a : aview) :
  placed D Y X q ss W a → has_status a p THREAD_DYING → (p ∉ X) → p ∈ Y.
Proof.
  intros [] Hst Hx. assert (Hv : is_Some (threads a !! p)).
  { unfold has_status in Hst. by destruct (threads a !! p). }
  unfold has_status in *.
  destruct (pl_all0 p Hv) as [H|[H|[H|[H|[(sm & Hsm & H)|H]]]]]; [done|..|done].
  - destruct pl_idle0 as (i & Hi & _ & Hs). rewrite <- H in Hi. injection Hi as ->.
    destruct (Hs Hx); unfold has_status in *; congruence.
  - destruct (pl_q0 p H) as (_ & _ & Hs). unfold has_status in Hs. congruence.
  - destruct (pl_ss0 p H) as [(_ & _ & Hs) _]. unfold has_status in Hs. congruence.
  - destruct (pl_W0 sm p Hsm H) as (_ & _ & Hs). unfold has_status in Hs. congruence.
Qed.

Lemma in_hand_resumed Y prev (a : aview) :
  in_hand D Y (running a) a → (∀ p, prev = Some p → p ≠ running a ∧ is_Some (threads a !! p)) →
  in_hand D (reaped prev a Y) (running a) (resumed prev a).
Proof.
  intros Hin Hp.
  pose proof (in_hand_self D Y _ (with_status THREAD_RUNNING) a Hin (well_made_with_status _)
    (λ _, eq_refl)) as (q & ss & W & Hpl & Hr).
  set (a0 := set_threads _ a) in *.
  assert (H0 : placed D Y [running a] q ss W (set_thread_ticks 0 a0)) by by eapply placed_ext.
  assert (Hr0 : ready (set_thread_ticks 0 a0) q) by by eapply (rq_ext (rq := ready) a0).
  unfold resumed. fold a0. destruct prev as [p|]; simpl; [|by exists q, ss, W].
  destruct (Hp p eq_refl) as [Hne Hv].
  assert (Hsame : reaps (set_thread_ticks 0 a0) p = reaps a p).
  { unfold reaps, a0. cbn. by rewrite lookup_alter_ne. }
  rewrite Hsame. destruct (reaps a p) eqn:Hreap; [|by exists q, ss, W].
  exists q, ss, W. split.
  - apply placed_reap; [exact H0| |by apply reaps_dying].
    eapply dying_aside; [exact H0|by apply reaps_dying|]. by intros ->%list_elem_of_singleton.
  - eapply (rq_ext (rq := ready)); [exact Hr0|done..|]. intros u Hu. unfold thread_priority. cbn.
    rewrite lookup_delete_ne; [done|]. intros <-. destruct (pl_q H0 _ Hu) as (_ & _ & Hst).
    apply reaps_dying in Hsame. unfold has_status in *. congruence.
Qed.

Lemma resumed_fields prev (a : aview) :
  running (resumed prev a) = running a ∧ idle_thread (resumed prev a) = idle_thread a ∧
  semas (resumed prev a) = semas a ∧ lists (resumed prev a) = lists a ∧
  intr (resumed prev a) = intr a ∧ thread_ticks (resumed prev a) = 0 ∧
  ticks (resumed prev a) = ticks a ∧ holders (resumed prev a) = holders a ∧
  initial_thread (resumed prev a) = initial_thread a.
Proof. unfold resumed. by repeat case_match. Qed.

Lemma resumed_self prev (a : aview) th :
  threads a !! running a = Some th → prev ≠ Some (running a) →
  threads (resumed prev a) !! running a = Some (with_status THREAD_RUNNING th).
Proof.
  intros Hth Hne. unfold resumed. destruct prev as [p|]; [case_match|]; cbn;
    rewrite ?lookup_delete_ne by congruence; by rewrite lookup_alter_eq, Hth.
Qed.

Lemma running_ok_resumed Y prev (a : aview) :
  in_hand D Y (running a) a → iv_level (intr a) = INTR_OFF → iv_context (intr a) = false →
  (∀ p, prev = Some p → p ≠ running a ∧ is_Some (threads a !! p)) →
  running_ok D (reaped prev a Y) INTR_OFF (resumed prev a) ∧
  ∀ p, prev = Some p → (∀ t, is_Some (threads a !! t) → t ∈ pages a) → can_resume p a.
Proof.
  intros Hin Hl Hctx Hp. pose proof (in_hand_resumed Y prev a Hin Hp) as Hin'.
  destruct (resumed_fields prev a) as (H1 & _ & _ & _ & H5 & H6 & _).
  destruct Hin as (q & ss & W & Hpl & _).
  destruct (pl_self Hpl (running a)) as [th Hth]; [by left|]. split.
  - split_and!; rewrite ?H1, ?H5, ?H6; try done. unfold has_status.
    rewrite (resumed_self _ _ th); [done|done|]. intros ->. by destruct (Hp (running a) eq_refl).
  - intros p -> Hpages. destruct (Hp p eq_refl) as [Hne Hv]. split_and!; [done| |done|done|auto].
    exists th. split; [done|]. by apply (pl_threads Hpl _ _ Hth).
Qed.
End resuming.
