(* ===== verification/Roster.v ===== *)
(** Which threads there are: the list of all threads, their pages and the lock of
    their identifiers, and what the code that neither creates nor ends threads
    leaves alone. *)
From S2P Require Import Prelude Env Kernel Thread Mlfqs Ready Sched Synch SemaSpec LockSpec Lifecycle Places.

(** What a thread keeps from its creation to its end: the call its stack starts
    with, and that it has not ended. *)
Definition ident (th : thread) : option kernel_thread_frame * bool :=
  (kframe th, bool_decide (status th = THREAD_DYING)).

Definition idents (a : aview) : gmap tptr (option kernel_thread_frame * bool) := ident <$> threads a.

(** [t] exists and has not ended. *)
Definition live (a : aview) (t : tptr) : Prop := ∃ f, idents a !! t = Some (f, false).

Lemma live_status (a : aview) t st : has_status a t st → st ≠ THREAD_DYING → live a t.
Proof.
  unfold has_status, live, idents. rewrite lookup_fmap. destruct (threads a !! t) as [th|]; [|done].
  intros [= <-] Hne. exists (kframe th). cbn. unfold ident. by rewrite bool_decide_false.
Qed.

Lemma live_not_dying (a : aview) t : live a t → has_status a t THREAD_DYING → False.
Proof.
  intros [f Hf]. unfold has_status, idents in *. rewrite lookup_fmap in Hf.
  destruct (threads a !! t) as [th|]; [|done]. injection Hf as _ Hd%bool_decide_eq_false.
  by intros [= ?].
Qed.

Lemma idents_is_Some (a : aview) t : is_Some (idents a !! t) ↔ is_Some (threads a !! t).
Proof. unfold idents. by rewrite lookup_fmap, fmap_is_Some. Qed.

(** The lists of all threads, of the locks held and of the threads that wait for
    locks; and the elements that link into them. *)
Definition roster_list (l : list_ptr) : bool :=
  match l with all_list | locks_held _ | lock_waiters _ => true | _ => false end.
Definition roster_elem (e : elem_ptr) : bool :=
  match e with thread_allelem _ | lock_elem _ => true | _ => false end.

Definition persist (a b : aview) : Prop :=
  pages b = pages a ∧ holders b = holders a ∧ initial_thread b = initial_thread a ∧
  idents b = idents a ∧ (∀ l, roster_list l = true → lists b !! l = lists a !! l) ∧
  ∀ e, roster_elem e = true → unlinked (lists a) e → unlinked (lists b) e.

#[global] Instance persist_preorder : PreOrder persist.
Proof.
  split; [by intros a; split_and!|]. intros a b c (H1 & H2 & H3 & H4 & H5 & H6) (G1 & G2 & G3 & G4 & G5 & G6).
  split_and!; try congruence; [|by auto]. intros l Hl. by rewrite G5, H5.
Qed.

(** All threads but the dying ones are on the list of all threads; they have pages
    of their own and hold no locks; and the lock of [allocate_tid] is free. *)
Record roster (a : aview) : Prop := Roster {
  ro_all : ∃ all, lists a !! all_list = Some (thread_allelem <$> all) ∧ ∀ t, t ∈ all ↔ live a t;
  ro_allelem : ∀ t, ¬ live a t → unlinked (lists a) (thread_allelem t);
  ro_pages : ∀ t, is_Some (threads a !! t) → t ∈ pages a;
  ro_locks : ∀ t, is_Some (threads a !! t) → lists a !! locks_held t = Some [];
  ro_holder : holders a !! tid_lock = Some None;
  ro_value : semas a !! sema_of_lock tid_lock = Some 1;
  ro_lock_waiters : lists a !! lock_waiters tid_lock = Some [];
  ro_waiters : lists a !! sema_waiters (sema_of_lock tid_lock) = Some [];
  ro_lock_elem : unlinked (lists a) (lock_elem tid_lock)
}.
Arguments ro_all {a} _.
Arguments ro_allelem {a} _.
Arguments ro_pages {a} _.
Arguments ro_locks {a} _.
Arguments ro_holder {a} _.
Arguments ro_value {a} _.
Arguments ro_lock_waiters {a} _.
Arguments ro_waiters {a} _.
Arguments ro_lock_elem {a} _.

Lemma persist_live (a b : aview) t : idents b = idents a → live b t ↔ live a t.
Proof. unfold live. by intros ->. Qed.

Lemma persist_some (a b : aview) t :
  idents b = idents a → is_Some (threads b !! t) ↔ is_Some (threads a !! t).
Proof. intros H. by rewrite <- !idents_is_Some, H. Qed.

(** What a roster depends on. *)
Lemma roster_by (a b : aview) :
  roster a → (∀ t, live b t ↔ live a t) →
  (∀ t, is_Some (threads b !! t) → is_Some (threads a !! t) ∧ (t ∈ pages a → t ∈ pages b)) →
  holders b = holders a → (∀ l, roster_list l = true → lists b !! l = lists a !! l) →
  (∀ e, roster_elem e = true → unlinked (lists a) e → unlinked (lists b) e) →
  semas b !! sema_of_lock tid_lock = semas a !! sema_of_lock tid_lock →
  lists b !! sema_waiters (sema_of_lock tid_lock) = lists a !! sema_waiters (sema_of_lock tid_lock) →
  roster b.
Proof.
  intros [] Hlive Hsome Hh Hl Hu Hs Hw.
  split; rewrite ?Hh, ?Hs, ?Hw, ?Hl by done; try done.
  - destruct ro_all0 as (all & Hall & Hin). exists all. split; [done|]. intros t. by rewrite Hin, Hlive.
  - intros t Ht. apply Hu; [done|]. apply ro_allelem0. by rewrite <- Hlive.
  - intros t [Ht Hp]%Hsome. auto.
  - intros t [Ht _]%Hsome. rewrite Hl by done. auto.
  - by apply Hu.
Qed.

Lemma persist_roster (a b : aview) :
  roster a → persist a b → semas b !! sema_of_lock tid_lock = semas a !! sema_of_lock tid_lock →
  lists b !! sema_waiters (sema_of_lock tid_lock) = lists a !! sema_waiters (sema_of_lock tid_lock) →
  roster b.
Proof.
  intros Hr (Hp & Hh & _ & Hid & Hl & Hu) Hs Hw. apply (roster_by a); try done.
  - intros t. by apply persist_live.
  - intros t Ht. rewrite Hp. split; [by apply (persist_some a b)|done].
Qed.

(** ** Changes that persist *)

Lemma idents_alter (f : thread → thread) t (a : aview) ts :
  ts = alter f t (threads a) → (∀ th, threads a !! t = Some th → ident (f th) = ident th) →
  ident <$> ts = idents a.
Proof.
  intros -> Hf. apply map_eq. intros u. unfold idents. rewrite !lookup_fmap.
  destruct (decide (u = t)) as [->|].
  - rewrite lookup_alter_eq. destruct (threads a !! t) as [th|] eqn:Hth; [|done].
    cbn. f_equal. auto.
  - by rewrite lookup_alter_ne.
Qed.

Lemma idents_insert t th th' (ts : gmap tptr thread) :
  ts !! t = Some th → ident th' = ident th → ident <$> <[t := th']> ts = ident <$> ts.
Proof.
  intros Ht Hi. rewrite fmap_insert, Hi. apply insert_id. by rewrite lookup_fmap, Ht.
Qed.

(** Only fields that no roster is kept of change. *)
Lemma persist_threads (a b : aview) :
  pages b = pages a → holders b = holders a → initial_thread b = initial_thread a →
  idents b = idents a → lists b = lists a → persist a b.
Proof. intros ???? Hl. split_and!; try done; by rewrite Hl. Qed.

(** A status other than that of a dying thread, for a thread that is not dying. *)
Lemma idents_status st u (a : aview) :
  st ≠ THREAD_DYING → ¬ has_status a u THREAD_DYING →
  ident <$> alter (with_status st) u (threads a) = idents a.
Proof.
  intros Hst Hu. eapply idents_alter; [done|]. intros th Hth. unfold ident. cbn. f_equal.
  rewrite !bool_decide_false; [done| |done]. intros Hd. apply Hu. unfold has_status.
  rewrite Hth. cbn. congruence.
Qed.

Lemma persist_lists (a b : aview) l xs :
  persist a b → roster_list l = false → (∀ e, roster_elem e = true → e ∉ xs) →
  persist a (set_lists (<[l := xs]> (lists b)) b).
Proof.
  intros (H1 & H2 & H3 & H4 & H5 & H6) Hl Hxs. split_and!; try done.
  - intros l' Hl'. cbn. rewrite lookup_insert_ne; [auto|]. congruence.
  - intros e He Hu. cbn. apply unlinked_insert; [by apply H6|by apply Hxs].
Qed.

(** The scheduler. *)
Lemma persist_sched (a b : aview) (es : list elem_ptr) :
  sched_frame a b → (∀ e, unlinked (lists a) e → e ∉ es → unlinked (lists b) e) →
  (∀ e, roster_elem e = true → e ∉ es) → persist a b.
Proof.
  intros [Ha Hl] Hu Hes. split_and!; try (by rewrite Ha).
  - intros l Hl'. apply Hl. by destruct l.
  - intros e He Hun. by apply Hu, Hes.
Qed.

Lemma roster_elems e (ts : list tptr) : roster_elem e = true → e ∉ elems ts.
Proof. intros He (u & -> & _)%list_elem_of_fmap. done. Qed.

(** ** Threads that come and go *)

Lemma idents_some (a : aview) t th : threads a !! t = Some th → idents a !! t = Some (ident th).
Proof. intros Ht. unfold idents. by rewrite lookup_fmap, Ht. Qed.

Lemma idents_none (a : aview) t : idents a !! t = None ↔ threads a !! t = None.
Proof. unfold idents. by rewrite lookup_fmap, fmap_None. Qed.

Lemma dying_ident (a : aview) t : has_status a t THREAD_DYING → ∃ f, idents a !! t = Some (f, true).
Proof.
  unfold has_status, idents. rewrite lookup_fmap. destruct (threads a !! t) as [th|]; [|done].
  intros [= Hst]. exists (kframe th). cbn. unfold ident. by rewrite bool_decide_true.
Qed.

Lemma ident_dying (a : aview) t f : idents a !! t = Some (f, true) → has_status a t THREAD_DYING.
Proof.
  unfold has_status, idents. rewrite lookup_fmap. destruct (threads a !! t) as [th|]; [|done].
  intros [= _ Hst%bool_decide_eq_true]. cbn. by rewrite Hst.
Qed.

Lemma roster_fresh (a : aview) t : roster a → t ∉ pages a → threads a !! t = None.
Proof.
  intros Hr Ht. apply eq_None_not_Some. intros Hs. by apply Ht, (ro_pages Hr).
Qed.

(** A thread is made. *)
Lemma idents_born t th all (a : aview) : idents (with_born t th all a) = <[t := ident th]> (idents a).
Proof. unfold idents. cbn. apply fmap_insert. Qed.

Lemma roster_born t th all (a : aview) :
  roster a → lists a !! all_list = Some (thread_allelem <$> all) → t ∉ pages a →
  status th ≠ THREAD_DYING → roster (with_born t th all a).
Proof.
  intros Hr Hall Ht Hst. pose proof (roster_fresh a t Hr Ht) as Hnew. destruct Hr.
  assert (Hin : ∀ u, u ∈ all ↔ live a u).
  { destruct ro_all0 as (all' & Hall' & Hin). rewrite Hall in Hall'.
    injection Hall' as <-%(inj (fmap thread_allelem)). done. }
  assert (Hlive : ∀ u, live (with_born t th all a) u ↔ u = t ∨ live a u).
  { intros u. unfold live. rewrite idents_born. destruct (decide (u = t)) as [->|Hne].
    - rewrite lookup_insert_eq. unfold ident. rewrite bool_decide_false by done. split; [by left|].
      intros _. by eexists.
    - rewrite lookup_insert_ne by done. tauto. }
  assert (Hsome : ∀ u, is_Some (threads (with_born t th all a) !! u) → u = t ∨ is_Some (threads a !! u)).
  { intros u Hu. cbn in Hu. apply lookup_insert_is_Some in Hu as [->|[_ ?]]; tauto. }
  split; cbn; try done.
  - exists (all ++ [t]). rewrite lookup_insert_eq. split; [done|]. intros u.
    rewrite Hlive, elem_of_app, Hin, list_elem_of_singleton. tauto.
  - intros u Hu. rewrite Hlive in Hu. apply unlinked_insert.
    + apply unlinked_insert; [|apply not_elem_of_nil]. apply ro_allelem0. tauto.
    + intros (v & [= <-] & Hv)%list_elem_of_fmap. rewrite elem_of_app, Hin, list_elem_of_singleton in Hv.
      tauto.
  - intros u [->|Hu]%Hsome; [set_solver|]. specialize (ro_pages0 u Hu). set_solver.
  - intros u Hu. rewrite lookup_insert_ne by done. destruct (decide (u = t)) as [->|Hne].
    + apply lookup_insert_eq.
    + rewrite lookup_insert_ne by congruence. apply ro_locks0. by destruct (Hsome u Hu).
  - by rewrite !lookup_insert_ne.
  - by rewrite !lookup_insert_ne.
  - apply unlinked_insert; [|by intros (v & ? & _)%list_elem_of_fmap].
    by apply unlinked_insert; [|apply not_elem_of_nil].
Qed.

Lemma roster_created id t th all (a a1 : aview) :
  roster a → lists a !! all_list = Some (thread_allelem <$> all) → t ∉ pages a →
  status th ≠ THREAD_DYING → sched_frame (set_next_tid id (with_born t th all a)) a1 →
  (∀ e, unlinked (lists (with_born t th all a)) e → e ≠ thread_elem t → unlinked (lists a1) e) →
  roster a1.
Proof.
  intros Hr Hall Ht Hst Hf Hu. pose proof (roster_born t th all a Hr Hall Ht Hst) as Hb.
  apply (persist_roster (set_next_tid id (with_born t th all a))).
  - by apply (persist_roster (with_born t th all a)); [|apply persist_threads|..].
  - apply (persist_sched _ _ [thread_elem t]); [done| |].
    + intros e He Hne. apply Hu; [done|]. intros ->. apply Hne. by left.
    + by intros e He ->%list_elem_of_singleton.
  - destruct Hf as [-> _]. done.
  - by apply Hf.
Qed.

(** A thread exits. *)
Lemma idents_exited l r (a : aview) :
  idents (marked THREAD_DYING (exited l r a)) = alter (λ p, (p.1, true)) (running a) (idents a).
Proof.
  apply map_eq. intros u. unfold idents. cbn. rewrite lookup_fmap.
  destruct (decide (u = running a)) as [->|Hne].
  - rewrite !lookup_alter_eq, lookup_fmap. by destruct (threads a !! running a).
  - by rewrite !lookup_alter_ne, lookup_fmap.
Qed.

Lemma roster_exited l r (a : aview) :
  roster a → lists_wf (lists a) →
  lists a !! all_list = Some (thread_allelem <$> (l ++ running a :: r)) →
  roster (marked THREAD_DYING (exited l r a)).
Proof.
  intros Hr Hwf Hall. pose proof (lists_wf_NoDup _ _ _ Hwf Hall) as Hnd.
  apply (NoDup_fmap_1 thread_allelem) in Hnd. destruct Hr. set (b := marked _ _).
  assert (Hin : ∀ u, u ∈ l ++ running a :: r ↔ live a u).
  { destruct ro_all0 as (all' & Hall' & Hin). rewrite Hall in Hall'.
    injection Hall' as <-%(inj (fmap thread_allelem)). done. }
  assert (Hnot : running a ∉ l ++ r).
  { rewrite <- Permutation_middle in Hnd. by apply NoDup_cons in Hnd as [? _]. }
  assert (Hlive : ∀ u, live b u ↔ u ∈ l ++ r).
  { intros u. unfold live, b. rewrite idents_exited. destruct (decide (u = running a)) as [->|Hne].
    - rewrite lookup_alter_eq. split; [|done]. intros [f Hf].
      destruct (idents a !! running a) as [[]|]; [by injection Hf|done].
    - rewrite lookup_alter_ne by done. change (∃ f, _) with (live a u). rewrite <- Hin. set_solver. }
  assert (Hsome : ∀ u, is_Some (threads b !! u) → is_Some (threads a !! u)).
  { intros u Hu. cbn in Hu. by apply lookup_alter_is_Some in Hu. }
  split; cbn; try done.
  - exists (l ++ r). rewrite lookup_insert_eq. split; [done|]. intros u. by rewrite Hlive.
  - intros u Hu. rewrite Hlive in Hu. destruct (decide (u = running a)) as [->|Hne].
    + intros l' xs [[<- <-]|[Hl' Hx]]%lookup_insert_Some.
      * intros (v & [= <-] & Hv)%list_elem_of_fmap. done.
      * intros Hv. apply Hl'.
        eapply (lists_wf_unique _ _ _ _ _ (thread_allelem (running a)) Hwf Hall Hx); [|done].
        apply list_elem_of_fmap_2. set_solver.
    + apply unlinked_insert; [|intros (v & [= <-] & Hv)%list_elem_of_fmap; done].
      apply ro_allelem0. rewrite <- Hin. set_solver.
  - intros u Hu%Hsome. auto.
  - intros u Hu%Hsome. rewrite lookup_insert_ne by done. auto.
  - by rewrite lookup_insert_ne.
  - by rewrite lookup_insert_ne.
  - apply unlinked_insert; [done|]. by intros (v & ? & _)%list_elem_of_fmap.
Qed.

(** A thread takes over from [prev]: if it has ended, it is gone. *)
Definition survivors {A} (prev : option tptr) (a : aview) (m : gmap tptr A) : gmap tptr A :=
  match prev with Some p => if reaps a p then delete p m else m | None => m end.

Lemma idents_resumed prev (a : aview) :
  prev ≠ Some (running a) → ¬ has_status a (running a) THREAD_DYING →
  idents (resumed prev a) = survivors prev a (idents a).
Proof.
  intros Hne Hd. unfold resumed. set (a1 := set_thread_ticks 0 _).
  assert (Hid : idents a1 = idents a) by by apply idents_status.
  destruct prev as [p|]; simpl; [|done].
  assert (Hsame : reaps a1 p = reaps a p).
  { unfold reaps, a1. cbn. rewrite lookup_alter_ne; [done|]. congruence. }
  rewrite Hsame. destruct (reaps a p); [|done]. unfold idents in *. cbn. rewrite fmap_delete.
  exact (f_equal (delete p) Hid).
Qed.

Lemma live_resumed prev (a : aview) t :
  prev ≠ Some (running a) → ¬ has_status a (running a) THREAD_DYING →
  live (resumed prev a) t ↔ live a t.
Proof.
  intros Hne Hd. unfold live. rewrite idents_resumed by done. destruct prev as [p|]; [|done]. simpl.
  destruct (reaps a p) eqn:Hr; [|done]. destruct (decide (t = p)) as [->|Htp].
  - rewrite lookup_delete_eq. split; [by intros []|]. intros [f Hf].
    apply reaps_dying, dying_ident in Hr as [f' Hf']. congruence.
  - by rewrite lookup_delete_ne.
Qed.

Lemma resumed_pages prev (a : aview) t :
  t ∈ pages a → prev ≠ Some t → t ∈ pages (resumed prev a).
Proof.
  intros Ht Hne. unfold resumed. destruct prev as [p|]; [|done]. case_match; [|done]. cbn. set_solver.
Qed.

Lemma resumed_some prev (a : aview) t :
  is_Some (threads (resumed prev a) !! t) → is_Some (threads a !! t).
Proof.
  unfold resumed. destruct prev as [p|]; [case_match|]; cbn.
  - rewrite lookup_delete_is_Some, lookup_alter_is_Some. tauto.
  - by rewrite lookup_alter_is_Some.
  - by rewrite lookup_alter_is_Some.
Qed.

Lemma roster_resumed prev (a : aview) :
  roster a → prev ≠ Some (running a) → ¬ has_status a (running a) THREAD_DYING →
  roster (resumed prev a).
Proof.
  intros Hr Hne Hd. destruct (resumed_fields prev a) as (_ & _ & Hs & Hl & _ & _ & _ & Hh & _).
  apply (roster_by a); rewrite ?Hs, ?Hl, ?Hh; try done.
  - intros t. by apply live_resumed.
  - intros t Ht. split; [by eapply resumed_some|]. intros Hp.
    unfold resumed in *. destruct prev as [p|]; [|done]. case_match; [|done]. cbn in *.
    apply lookup_delete_is_Some in Ht as [? _]. set_solver.
Qed.
