(* ===== verification/Machine.v ===== *)
(** The machine: threads that take turns on one processor.

    The other files follow one thread from one switch to the next.  Here all of
    them run.  A state of the machine is the kernel's memory, the suspended
    threads with the call each of them is in and the rest of that call, and what
    the processor is about to do.  The threads' own code is unknown: between two
    calls of the kernel a thread may make any call it is allowed to make, so that
    the runs of the machine include those of every client program.  The timer
    interrupt may come between two calls, when interrupts are on; within a call
    the processor is given up where the code switches.

    The interrupt's entry and exit are in threads/interrupt.h, outside the
    repository; what they do to the state is stated through the view of the
    interrupt state: in the handler, interrupts are off and the processor is in
    an external interrupt; if the handler has asked for it, the interrupted
    thread yields before it goes on with interrupts on. *)
From Stdlib Require Import FunctionalExtensionality.
From S2P Require Import Prelude Env Kernel Thread Mlfqs Ready Sched.
From S2P Require Import Synch SemaSpec Lifecycle Timer.

(** * Calls *)

(** What a thread may call.  [OIdle] is a round of the idle thread's loop;
    [OPreempt] is the yield of a thread that an interrupt has preempted.
    [thread_create] is the three calls [OMake], [OTid] and [OStart], one after
    the other ([thread_create_calls] below): other threads may run in between. *)
Inductive op : Type :=
  | OYield
  | ODown (sm : sema_ptr)
  | OUp (sm : sema_ptr)
  | OTryDown (sm : sema_ptr)
  | OSleep (n : Z)
  | OSetPriority (p : Z)
  | OMake (name : string) (prio : Z)
  | OTid
  | OStart (t : tptr) (id : Z) (function : fn_ptr) (aux : aux_ptr)
  | OExit
  | OIdle
  | OPreempt.

(** What it returns. *)
Inductive ret : Type :=
  | RUnit
  | RBool (b : bool)
  | RTid (id : Z)
  | RThread (t : option tptr).

Section code.
Context {E : Env} {F : SwitchFrames}.

(** [thread_create] up to [allocate_tid]. *)
Definition make_thread (name : string) (prio : Z) : prog (option tptr) :=
  page ← act k_palloc_get_page;
  match page with
  | None => mret None
  | Some t =>
      act (init_thread t name prio);;
      act (store t (with_base_priority prio));;
      act (store t (with_effective_priority prio));;
      mret (Some t)
  end.

(** And after it. *)
Definition start_thread (t : tptr) (id : Z) (function : fn_ptr) (aux : aux_ptr) : prog unit :=
  act (store t (with_tid id));;
  act (alloc_frame t sizeof_kernel_thread_frame);;
  act (store t (with_kframe (Some (KFrame function aux))));;
  act (alloc_frame t sizeof_switch_entry_frame);;
  act (alloc_frame t sizeof_switch_threads_frame);;
  act (thread_unblock t);;
  preempt.

Lemma thread_create_calls name prio function aux :
  thread_create name prio function aux =
    (r ← make_thread name prio;
     match r with
     | None => mret TID_ERROR
     | Some t => id ← allocate_tid; start_thread t id function aux;; mret id
     end).
Proof.
  refine (f_equal (Act k_palloc_get_page) _). apply functional_extensionality. by intros [t|].
Qed.

(** A call, with the value it returns. *)
Definition run_op (o : op) : prog ret :=
  match o with
  | OYield => thread_yield;; mret RUnit
  | ODown sm => sema_down sm;; mret RUnit
  | OUp sm => sema_up sm;; mret RUnit
  | OTryDown sm => b ← act (sema_try_down sm); mret (RBool b)
  | OSleep n => timer_sleep n;; mret RUnit
  | OSetPriority p => thread_set_priority p;; mret RUnit
  | OMake name prio => t ← make_thread name prio; mret (RThread t)
  | OTid => id ← allocate_tid; mret (RTid id)
  | OStart t id function aux => start_thread t id function aux;; mret RUnit
  | OExit => thread_exit;; mret RUnit
  | OIdle => idle_round;; mret RUnit
  | OPreempt => (thread_yield;; act (k_intr_set_level INTR_ON));; mret RUnit
  end.

(** The first code of a thread: [switch_entry] calls [thread_schedule_tail], and
    the frame on the stack leads to [kernel_thread], which turns interrupts on
    before it calls the thread's function. *)
Definition begin (prev : tptr) : prog ret :=
  cur ← act get_running;
  th ← act (deref cur);
  act (lift_opt EBadPtr (kframe th));;
  act (thread_schedule_tail (Some prev));;
  act k_intr_enable;;
  mret RUnit.
End code.

(** What the callers owe: only the idle thread idles, semaphores exist, are not
    those of locks and are not upped beyond their range, priorities are
    priorities, sleeps do not reach beyond the range of the tick counter, and
    [thread_create] starts the thread it has made; [making] says who is making
    which thread. *)
Definition allowed (o : op) (making : gmap tptr tptr) (a : aview) : Prop :=
  match o with
  | OPreempt => False
  | OIdle => Some (running a) = idle_thread a
  | _ => Some (running a) ≠ idle_thread a
  end ∧
  match o with
  | ODown sm | OTryDown sm => sm ≠ sema_of_lock tid_lock ∧ is_Some (semas a !! sm)
  | OUp sm => sm ≠ sema_of_lock tid_lock ∧ ∃ v, semas a !! sm = Some v ∧ v < UINT_MAX - 1
  | OSleep n => in_int64 (ticks a + n)
  | OSetPriority p | OMake _ p => PRI_MIN ≤ p ≤ PRI_MAX
  | OStart t _ _ _ => making !! t = Some (running a)
  | _ => True
  end.

(** * Steps *)

(** What the processor does next: the running thread makes a call; it yields
    because an interrupt preempted it; or it goes on where it was suspended, or
    begins, a switch from [prev] having just happened. *)
Inductive phase : Type :=
  | Calling
  | Preempted
  | Switched (prev : tptr).

(** How a stretch of a call ends. *)
Inductive outcome : Type :=
  | Returns (r : ret)
  | Yields (n : tptr).

(** The suspended threads, each with its call and the rest of it. *)
Abbreviation pool := (gmap tptr (op * (tptr → prog ret))).

Section machine.
Context {E : Env} {EL : EnvLaws E} {F : SwitchFrames}.

Record machine : Type := Machine {
  memory : kstate;
  suspended : pool;
  making : gmap tptr tptr;
  next : phase
}.

Inductive event : Type :=
  | Called (t : tptr) (o : op) (x : outcome)
  | Resumed (t : tptr) (o : op) (x : outcome)
  | Begun (t : tptr)
  | Ticked.

(** The threads being made after a stretch of [t]; [first] tells the stretch
    that begins with the call from those that begin with a switch back. *)
Definition made (first : bool) (o : op) (x : outcome) (t : tptr) (mk : gmap tptr tptr)
    : gmap tptr tptr :=
  match o, x with
  | OMake _ _, Returns (RThread (Some c)) => <[c := t]> mk
  | OStart c _ _ _, _ => if first then delete c mk else mk
  | _, _ => mk
  end.

(** The running thread's stretch, in call [o], has ended.  A thread that exits is
    not suspended: nothing is left of it. *)
Inductive ended (first : bool) (o : op) (p : pool) (mk : gmap tptr tptr) :
    out ret → kstate → outcome → machine → Prop :=
  | ended_returns r s :
      ended first o p mk (ODone r) s (Returns r)
        (Machine s p (made first o (Returns r) (running s) mk) Calling)
  | ended_yields n k s :
      o ≠ OExit →
      ended first o p mk (OSwitch n k) s (Yields n)
        (Machine (set_running n s) (<[running s := (o, k)]> p)
           (made first o (Yields n) (running s) mk) (Switched (running s)))
  | ended_exits n k s :
      o = OExit →
      ended first o p mk (OSwitch n k) s (Yields n)
        (Machine (set_running n s) p mk (Switched (running s))).

(** Counters that have not reached the end of their range. *)
Definition counters_ok (a : aview) : Prop :=
  in_int64 (ticks a + 1) ∧ in_int64 (idle_ticks a + 1) ∧ in_int64 (kernel_ticks a + 1).

Inductive step : machine → event → machine → Prop :=
  | step_call s p mk o out s' x m' :
      allowed o mk (obs s) → exec (run_op o) s out s' → ended true o p mk out s' x m' →
      step (Machine s p mk Calling) (Called (running s) o x) m'
  | step_preempted s p mk out s' x m' :
      exec (run_op OPreempt) s out s' → ended true OPreempt p mk out s' x m' →
      step (Machine s p mk Preempted) (Called (running s) OPreempt x) m'
  | step_resume s p mk prev o k out s' x m' :
      p !! running s = Some (o, k) → exec (k prev) s out s' →
      ended false o (delete (running s) p) mk out s' x m' →
      step (Machine s p mk (Switched prev)) (Resumed (running s) o x) m'
  | step_begin s p mk prev s' :
      p !! running s = None → exec (begin prev) s (ODone RUnit) s' →
      step (Machine s p mk (Switched prev)) (Begun (running s)) (Machine s' p mk Calling)
  | step_tick s p mk s1 s2 s3 :
      iv_level (intr (obs s)) = INTR_ON → counters_ok (obs s) →
      obs s1 = set_intr (IView INTR_OFF true false) (obs s) →
      exec timer_interrupt s1 (ODone ()) s2 →
      (let y := iv_yield (intr (obs s2)) in
       obs s3 = set_intr (IView (if y then INTR_OFF else INTR_ON) false false) (obs s2) →
       step (Machine s p mk Calling) Ticked
         (Machine s3 p mk (if y then Preempted else Calling))).

Inductive steps : machine → list event → machine → Prop :=
  | steps_nil m : steps m [] m
  | steps_cons m e m1 es m2 : step m e m1 → steps m1 es m2 → steps m (e :: es) m2.
End machine.
