(* ===== verification/Calls.v ===== *)
(** What the calls of the machine do, each from its entry to its return and over
    all the times it gives up the processor: they keep the threads in their
    places, and they change the values of semaphores as semaphores should.  This
    file has what a stretch of a call may change, and the calls that neither
    create nor end threads. *)
From S2P Require Import Prelude Env Kernel Thread Mlfqs Ready Sched SchedSpec Wait.
From S2P Require Import Synch SemaSpec LockSpec Lifecycle Timer TimerSpec Places Roster Machine.

(** What a stretch of a call does to the values of the semaphores; [first] tells
    the stretch that begins with the call from those that begin with a switch
    back. *)
Definition effect (first : bool) (o : op) (x : outcome) (m : gmap sema_ptr Z) : gmap sema_ptr Z :=
  match o, x with
  | OUp sm, _ => if first then alter Z.succ sm m else m
  | ODown sm, Returns _ => alter Z.pred sm m
  | OTryDown sm, Returns (RBool true) => if first then alter Z.pred sm m else m
  | _, _ => m
  end.

(** And to their waiters, when the stretch is one of the thread [t] and the
    threads are [ts]: an up takes the first waiter off, and a down that gives up
    the processor puts [t] behind the waiters of at least its priority. *)
Definition weffect (first : bool) (o : op) (x : outcome) (ts : gmap tptr thread) (t : tptr)
    (sm : sema_ptr) (ws : list tptr) : list tptr :=
  match o, x with
  | OUp sm', _ => if first && bool_decide (sm' = sm) then tail ws else ws
  | ODown sm', Yields _ => if bool_decide (sm' = sm) then enqueue ts t ws else ws
  | _, _ => ws
  end.

(** And to the threads, when it is one of the thread [t]. *)
Definition ids_after (first : bool) (o : op) (x : outcome) (t : tptr)
    (ids : gmap tptr (option kernel_thread_frame * bool)) :=
  match o, x with
  | OMake _ _, Returns (RThread (Some c)) => <[c := (None, false)]> ids
  | OStart c _ function aux, _ =>
      if first then <[c := (Some (KFrame function aux), false)]> ids else ids
  | OExit, Yields _ => alter (λ p, (p.1, true)) t ids
  | _, _ => ids
  end.

(** And to those that have not started or have ended. *)
Definition aside_after (first : bool) (o : op) (x : outcome) (t : tptr) (Y : gset tptr) : gset tptr :=
  match o, x with
  | OMake _ _, Returns (RThread (Some c)) => {[c]} ∪ Y
  | OStart c _ _ _, _ => if first then Y ∖ {[c]} else Y
  | OExit, Yields _ => {[t]} ∪ Y
  | _, _ => Y
  end.

Definition waits (a : aview) (sm : sema_ptr) (ws : list tptr) : Prop :=
  lists a !! sema_waiters sm = Some (elems ws).

(** [t] is on the sleep list. *)
Definition sleeps (a : aview) (t : tptr) : Prop :=
  ∃ ss, lists a !! sleep_list = Some (thread_sleep_elem <$> ss) ∧ t ∈ ss.

(** [t] is asleep until tick [w]. *)
Definition asleep (a : aview) (t : tptr) (w : Z) : Prop :=
  sleeps a t ∧ thread_wakeup (threads a) t = w.

(** The threads that sleep, and their times, are the same; and so is the time. *)
Definition sleep_frame (a b : aview) : Prop :=
  ticks b = ticks a ∧ lists b !! sleep_list = lists a !! sleep_list ∧
  ∀ t, sleeps a t → thread_wakeup (threads b) t = thread_wakeup (threads a) t.

Lemma sleeps_same (a b : aview) t :
  lists b !! sleep_list = lists a !! sleep_list → sleeps b t ↔ sleeps a t.
Proof. unfold sleeps. by intros ->. Qed.

#[global] Instance sleep_frame_preorder : PreOrder sleep_frame.
Proof.
  split; [by intros a|]. intros a b c (H1 & H2 & H3) (H1' & H2' & H3').
  split_and!; [congruence|congruence|]. intros t Ht. rewrite H3', H3; [done..|].
  by apply (sleeps_same a b).
Qed.

Lemma asleep_frame (a b : aview) t w : sleep_frame a b → asleep b t w ↔ asleep a t w.
Proof.
  intros (_ & Hl & Hw). unfold asleep. rewrite (sleeps_same a b) by done.
  split; intros [Hs Ht]; (split; [done|]); rewrite <- Ht; [symmetry|]; by apply Hw.
Qed.

Lemma wakeup_alter (f : thread → thread) u ts t :
  (∀ th, wakeup_tick (f th) = wakeup_tick th) →
  thread_wakeup (alter f u ts) t = thread_wakeup ts t.
Proof.
  intros Hf. unfold thread_wakeup. destruct (decide (t = u)) as [->|].
  - rewrite lookup_alter_eq. destruct (ts !! u); [apply Hf|done].
  - by rewrite lookup_alter_ne.
Qed.

Lemma wakeup_insert u th th' ts t :
  ts !! u = Some th → wakeup_tick th' = wakeup_tick th →
  thread_wakeup (<[u := th']> ts) t = thread_wakeup ts t.
Proof.
  intros Hu Hw. unfold thread_wakeup. destruct (decide (t = u)) as [->|].
  - by rewrite lookup_insert_eq, Hu.
  - by rewrite lookup_insert_ne.
Qed.

(** And the sleepers: a sleep that begins with this stretch puts its thread to
    sleep for as long as it says. *)
Definition falls_asleep (first : bool) (o : op) (s : aview) (t : tptr) (w : Z) : Prop :=
  match o with
  | OSleep n => first = true ∧ t = running s ∧ 0 < n ∧ w = ticks s + n
  | _ => False
  end.

Definition sleep_change (first : bool) (o : op) (s b : aview) : Prop :=
  ticks b = ticks s ∧ ∀ t w, asleep b t w ↔ asleep s t w ∨ falls_asleep first o s t w.

Lemma sleeps_in (a : aview) ss t :
  lists a !! sleep_list = Some (thread_sleep_elem <$> ss) → sleeps a t → t ∈ ss.
Proof.
  intros Ha (ss' & Hss & Ht). rewrite Ha in Hss. injection Hss as Hss.
  apply (list_fmap_eq_inj thread_sleep_elem) in Hss as ->; [done|]. by intros ?? [= ->].
Qed.

(** A down gives up the processor only if the semaphore is at 0; a try and the
    making of a thread never do. *)
Definition at_zero (o : op) (a : aview) : Prop :=
  match o with
  | ODown sm => semas a !! sm = Some 0
  | OTryDown _ | OMake _ _ => False
  | _ => True
  end.

(** Calls that do nothing to semaphores and threads once they have been switched
    back to. *)
Definition quiet (o : op) : Prop :=
  match o with ODown _ | OTryDown _ | OMake _ _ | OExit => False | _ => True end.

Lemma quiet_effect o x m : quiet o → effect false o x m = m.
Proof. by destruct o, x as [[|[]| |]|]. Qed.

Lemma quiet_weffect o x ts t sm ws : quiet o → weffect false o x ts t sm ws = ws.
Proof. by destruct o, x as [[]|]. Qed.

Lemma quiet_ids o x t ids : quiet o → ids_after false o x t ids = ids.
Proof. by destruct o, x as [[]|]. Qed.

Lemma quiet_aside o x t Y : quiet o → aside_after false o x t Y = Y.
Proof. by destruct o, x as [[]|]. Qed.

(** The calls that do not create or end threads. *)
Definition steady (o : op) : Prop :=
  match o with OMake _ _ | OStart _ _ _ _ | OExit => False | _ => True end.

Lemma steady_ids first o x t ids : steady o → ids_after first o x t ids = ids.
Proof. by destruct o, x as [[]|]. Qed.

Lemma steady_aside first o x t Y : steady o → aside_after first o x t Y = Y.
Proof. by destruct o, x as [[]|]. Qed.

Lemma alter_at {A} `{Countable B} (f : A → A) (m : gmap B A) i x :
  m !! i = Some x → alter f i m = <[i := f x]> m.
Proof.
  intros Hi. apply map_eq. intros j. destruct (decide (j = i)) as [->|].
  - by rewrite lookup_alter_eq, lookup_insert_eq, Hi.
  - by rewrite lookup_alter_ne, lookup_insert_ne.
Qed.

(** ** What a stretch does to the threads *)

(** A thread that is made is new. *)
Definition made_fresh (o : op) (x : outcome) (s : aview) : Prop :=
  match o, x with
  | OMake _ _, Returns (RThread (Some c)) => idents s !! c = None
  | _, _ => True
  end.

(** The pages in use. *)
Definition pages_after (o : op) (x : outcome) (us : gset tptr) : gset tptr :=
  match o, x with OMake _ _, Returns (RThread (Some c)) => {[c]} ∪ us | _, _ => us end.

Definition life_change (first : bool) (o : op) (x : outcome) (s b : aview) : Prop :=
  initial_thread b = initial_thread s ∧ (roster s → roster b) ∧
  idents b = ids_after first o x (running s) (idents s) ∧ made_fresh o x s ∧
  pages b = pages_after o x (pages s).

(** The semaphore of the lock of thread identifiers, and its waiters. *)
Definition tid_same (a b : aview) : Prop :=
  semas b !! sema_of_lock tid_lock = semas a !! sema_of_lock tid_lock ∧
  lists b !! sema_waiters (sema_of_lock tid_lock) = lists a !! sema_waiters (sema_of_lock tid_lock).

Lemma life_persist first o x (s b : aview) :
  persist s b → tid_same s b → (∀ t ids, ids_after first o x t ids = ids) → made_fresh o x s →
  (∀ us, pages_after o x us = us) → life_change first o x s b.
Proof.
  intros Hp [Hs Hw] Hids Hf Hpg. pose proof Hp as (Hp' & _ & Hi & Hid & _).
  split_and!; [done| |by rewrite Hids|done|by rewrite Hpg]. intros Hr. by apply (persist_roster s).
Qed.

Lemma life_then first o x (s b c : aview) :
  life_change first o x s b → persist b c → tid_same b c → life_change first o x s c.
Proof.
  intros (Hi & Hr & Hid & Hf & Hpg) Hp [Hs Hw]. pose proof Hp as (Hp' & _ & Hi' & Hid' & _).
  split_and!; [congruence| |congruence|done|congruence]. intros H. by apply (persist_roster b); auto.
Qed.

Lemma made_fresh_steady o x s : steady o → made_fresh o x s.
Proof. by destruct o. Qed.

Lemma steady_persist first o x (s b : aview) :
  steady o → persist s b → tid_same s b → life_change first o x s b.
Proof.
  intros Ho Hp Ht.
  apply life_persist; [done..|intros; by apply steady_ids|by apply made_fresh_steady|by destruct o].
Qed.

(** The running thread's status changes, and nothing else that counts. *)
Lemma persist_status st u (a b : aview) :
  st ≠ THREAD_DYING → ¬ has_status a u THREAD_DYING → pages b = pages a →
  holders b = holders a → initial_thread b = initial_thread a → lists b = lists a →
  threads b = alter (with_status st) u (threads a) → persist a b.
Proof.
  intros Hst Hd ???? Hts. apply persist_threads; try done. unfold idents at 1. rewrite Hts.
  by apply idents_status.
Qed.

Lemma persist_marked st (a : aview) :
  st ≠ THREAD_DYING → ¬ has_status a (running a) THREAD_DYING → persist a (marked st (intr_off a)).
Proof. intros. by apply (persist_status st (running a)). Qed.

Lemma tid_same_refl (a b : aview) : semas b = semas a → lists b = lists a → tid_same a b.
Proof. intros Hs Hl. split; [by rewrite Hs|by rewrite Hl]. Qed.

Lemma persist_handed (a a1 : aview) q :
  sched_frame a a1 →
  (∀ e, unlinked (lists a) e ∨ e ∈ elems q → e ∉ elems (tail q) → unlinked (lists a1) e) →
  persist a a1 ∧ tid_same a a1.
Proof.
  intros Hf Hu. split.
  - apply (persist_sched a a1 (elems (tail q))); [done| |intros e; apply roster_elems].
    intros e He Hne. apply Hu; [by left|done].
  - destruct Hf as [Ha Hl]. split; [by rewrite Ha|by apply Hl].
Qed.

Lemma running_not_dying (a : aview) t st :
  has_status a t st → st ≠ THREAD_DYING → ¬ has_status a t THREAD_DYING.
Proof. unfold has_status. intros -> Hst [= ->]. done. Qed.

Section calls.
Context {E : Env} {EL : EnvLaws E} {F : SwitchFrames} (D : gset sema_ptr).

(** What a stretch from [s] to [b] has done to the semaphores and the sleepers. *)
Definition sema_change (first : bool) (o : op) (x : outcome) (s b : aview) : Prop :=
  semas b = effect first o x (semas s) ∧
  (∀ sm ws, sm ∈ D → waits s sm ws →
    waits b sm (weffect first o x (threads s) (running s) sm ws)) ∧
  sleep_change first o s b.

Definition changes (first : bool) (o : op) (x : outcome) (s b : aview) : Prop :=
  sema_change first o x s b ∧ life_change first o x s b.

(** The calls that give way to a ready thread of higher priority before they
    return. *)
Definition checks (o : op) : Prop :=
  match o with
  | OYield | OUp _ | OSetPriority _ | OTid | OStart _ _ _ _ | OIdle | OPreempt => True
  | _ => False
  end.

#[global] Instance checks_dec o : Decision (checks o).
Proof. destruct o; apply _. Defined.

(** A call returns to a thread of the highest priority, if it checks for that or
    if no other was ahead when it began; one that does not check does not touch
    the time slice either. *)
Definition outranks (o : op) (s b : aview) : Prop :=
  (checks o ∨ highest (running s) s → highest (running b) b) ∧
  (checks o ∨ thread_ticks b = thread_ticks s).

Lemma outranks_now o (s b : aview) :
  highest (running b) b → checks o ∨ thread_ticks b = thread_ticks s → outranks o s b.
Proof. by split. Qed.

Lemma outranks_same o (s b : aview) :
  ¬ checks o → running b = running s → idle_thread b = idle_thread s → threads b = threads s →
  thread_ticks b = thread_ticks s → outranks o s b.
Proof.
  intros Ho Hr Hi Ht Htk. split; [|by right]. intros [?|Hh]; [done|]. rewrite Hr.
  apply (highest_ext _ s); [done|done| |by rewrite Ht]. unfold has_status. by rewrite Ht.
Qed.

(** Whenever a stretch begun in [s] gives up the processor, and whenever it
    returns from the call. *)
Definition gives (first : bool) (o : op) (s : aview) (n : tptr) (b : aview) : Prop :=
  (∃ Y, in_hand D Y (running s) s ∧
     handover D (aside_after first o (Yields n) (running s) Y) s n b) ∧
  idle_thread b = idle_thread s ∧ changes first o (Yields n) s b ∧ at_zero o s.
Definition gives_back (first : bool) (o : op) (s : aview) (r : ret) (b : aview) : Prop :=
  (∃ Y, in_hand D Y (running s) s ∧
     running_ok D (aside_after first o (Returns r) (running s) Y) INTR_ON b) ∧
  running b = running s ∧ idle_thread b = idle_thread s ∧ changes first o (Returns r) s b ∧
  outranks o s b.

(** A call that does not check and leaves all threads alone. *)
Lemma gives_back_same first o r (s b : aview) :
  ¬ checks o → running b = running s → idle_thread b = idle_thread s → threads b = threads s →
  thread_ticks b = thread_ticks s →
  (∃ Y, in_hand D Y (running s) s ∧
     running_ok D (aside_after first o (Returns r) (running s) Y) INTR_ON b) →
  changes first o (Returns r) s b → gives_back first o s r b.
Proof. intros. refine (conj _ (conj _ (conj _ (conj _ _)))); try done. by apply outranks_same. Qed.

(** What a thread may rely on when it is switched back to. *)
Definition back (t : tptr) (i : option tptr) (c : aview) : Prop :=
  running c = t ∧ idle_thread c = i ∧ roster c ∧ highest (running c) c ∧
  ∃ Y, running_ok D Y INTR_OFF c.

(** A call, begun in [a], up to the end of its first stretch, and the rest of it. *)
Definition call_ok (o : op) (a : aview) : Prop :=
  apwp (run_op o) (stretch (gives true o) (back (running a) (idle_thread a))
    (λ s p, swp (gives false o) (back (running a) (idle_thread a)) s p (gives_back false o))
    (gives_back true o) a) a.

(** A function that returns nothing. *)
Lemma swp_void G C s (p : prog unit) (Q : aview → ret → aview → Prop) a :
  swp G C s p (λ s _, Q s RUnit) a → swp G C s (p;; mret RUnit) Q a.
Proof.
  intros H. apply swp_bind. eapply swp_mono; [exact H|]. intros s' [] b Hb. by apply swp_ret.
Qed.

Lemma apwp_void G0 G C s (p : prog unit) (Q0 Q : aview → ret → aview → Prop) a :
  apwp p (stretch G0 C (λ s p, swp G C s p (λ s _, Q s RUnit)) (λ s _, Q0 s RUnit) s) a →
  apwp (p;; mret RUnit) (stretch G0 C (λ s p, swp G C s p Q) Q0 s) a.
Proof.
  intros H. apply apwp_bind. eapply apwp_mono; [exact H|]. intros [[]|n k|e] b Ho; simpl in *.
  - by apply apwp_ret.
  - destruct Ho as [HG Hk]. split; [done|]. intros prev c Hc HC. apply swp_void. by apply Hk.
  - done.
Qed.

Lemma restored_id l (a : aview) : iv_level (intr a) = l → restored l a = a.
Proof. intros <-. by destruct a as [? []]. Qed.

Lemma in_hand_intr Y v n (a : aview) : in_hand D Y n a → in_hand D Y n (set_intr v a).
Proof.
  intros (q & ss & W & Hpl & Hr). exists q, ss, W. split; [by apply placed_intr|].
  by eapply (rq_ext (rq := ready) a).
Qed.

Lemma running_ok_level Y l l' (a : aview) :
  running_ok D Y l a → running_ok D Y l' (restored l' a).
Proof.
  intros (Hl & Hctx & Hin & Hst & Ht). split_and!; try done; try apply Ht. by apply in_hand_intr.
Qed.

Lemma running_ok_in_hand Y l (a : aview) : running_ok D Y l a → in_hand D Y (running a) a.
Proof. by intros (_ & _ & ? & _). Qed.

Lemma running_ok_not_dying Y l (a : aview) :
  running_ok D Y l a → ¬ has_status a (running a) THREAD_DYING.
Proof. intros (_ & _ & _ & Hst & _). by eapply running_not_dying. Qed.

(** The thread goes on by itself or is switched back to, and returns. *)
Definition goes_back (b : aview) (o : out unit) (b' : aview) : Prop :=
  o = ODone () ∧ b' = restored INTR_ON b.

Lemma asleep_awake first o (s b : aview) :
  (first = true → ∀ n, o = OSleep n → n ≤ 0) → sleep_frame s b →
  sleep_change first o s b.
Proof.
  intros Hn Hf. split; [apply Hf|]. intros t w. rewrite (asleep_frame s b) by done.
  split; [by left|]. intros [H|H]; [done|]. destruct o as [| | | |n| | | | | | |]; try done.
  destruct H as (Hfirst & _ & Hpos & _). specialize (Hn Hfirst n eq_refl). lia.
Qed.

(** What the rest of a stretch leaves alone. *)
Lemma changes_ext first o x (s b c : aview) :
  changes first o x s b → semas c = semas b →
  (∀ sm, lists c !! sema_waiters sm = lists b !! sema_waiters sm) → sleep_frame b c →
  persist b c → changes first o x s c.
Proof.
  intros [(Hs & Hw & Ht & Hsl) Hlife] Hsem Hl Hf Hp. split.
  - refine (conj _ (conj _ (conj _ _))); [congruence|..].
    + intros sm ws Hsm H. unfold waits. rewrite Hl. by apply Hw.
    + rewrite <- Ht. apply Hf.
    + intros t w. by rewrite (asleep_frame b c).
  - apply (life_then _ _ _ _ b); [done..|]. split; [by rewrite Hsem|by apply Hl].
Qed.

(** A stretch that does nothing of all that. *)
Lemma changes_refl first o x (s : aview) :
  (∀ m, effect first o x m = m) → (∀ ts t sm ws, weffect first o x ts t sm ws = ws) →
  (first = true → ∀ n, o = OSleep n → n ≤ 0) → (∀ t ids, ids_after first o x t ids = ids) →
  made_fresh o x s → (∀ us, pages_after o x us = us) → changes first o x s s.
Proof.
  intros He Hw Hn Hids Hf Hpg. split.
  - refine (conj (eq_sym (He _)) (conj _ (asleep_awake _ _ _ _ Hn (reflexivity s)))).
    intros sm ws _ H. by rewrite Hw.
  - by apply life_persist.
Qed.

Lemma changes_same first o x (s b : aview) :
  quiet o →
  first = false ∨ (∀ m, effect first o x m = m) ∧
    (∀ ts t sm ws, weffect first o x ts t sm ws = ws) ∧ (∀ n, o = OSleep n → n ≤ 0) ∧ steady o →
  semas b = semas s → (∀ sm, lists b !! sema_waiters sm = lists s !! sema_waiters sm) →
  sleep_frame s b → persist s b → changes first o x s b.
Proof.
  intros Hq Hf Hs Hl Hfr Hp. apply (changes_ext _ _ _ _ s); [|done..].
  assert (Hfresh : made_fresh o x s) by by destruct o.
  destruct Hf as [->|(He & Hw & Hn & Ho)].
  - apply changes_refl; [intros m; by apply quiet_effect|intros; by apply quiet_weffect|done| |done|].
    + intros; by apply quiet_ids.
    + by destruct o.
  - apply changes_refl; [done..|intros; by apply steady_ids|done|by destruct o].
Qed.

(** The scheduler does nothing to semaphores. *)
Lemma changes_frame first o x (s a a1 : aview) q :
  changes first o x s a → sched_frame a a1 →
  (∀ e, unlinked (lists a) e ∨ e ∈ elems q → e ∉ elems (tail q) → unlinked (lists a1) e) →
  changes first o x s a1.
Proof.
  intros Hch Hf Hu. destruct (persist_handed _ _ _ Hf Hu) as [Hp _]. destruct Hf as [Ha Hl].
  apply (changes_ext _ _ _ _ a); [done|by rewrite Ha|by intros; apply Hl| |done].
  split_and!; [by rewrite Ha|by apply Hl|intros t _; by rewrite Ha].
Qed.

(** A semaphore's value changes, and nothing else. *)
Lemma changes_value first o x (s : aview) m :
  effect first o x (semas s) = m → (∀ ts t sm ws, weffect first o x ts t sm ws = ws) →
  (∀ n, o ≠ OSleep n) → steady o →
  m !! sema_of_lock tid_lock = semas s !! sema_of_lock tid_lock →
  changes first o x s (set_semas m s).
Proof.
  intros <- Hw Ho Hst Hm. split.
  - refine (conj eq_refl (conj _ _)); [intros sm ws _ H; by rewrite Hw|].
    apply asleep_awake; [by intros _ n ?%Ho|done].
  - by apply steady_persist.
Qed.

(** A change of status does nothing to sleepers. *)
Lemma sleep_frame_status st u (a b : aview) :
  ticks b = ticks a → lists b = lists a → threads b = alter (with_status st) u (threads a) →
  sleep_frame a b.
Proof.
  intros Ht Hl Hts. split_and!; [done|by rewrite Hl|]. intros t _. rewrite Hts.
  by apply wakeup_alter.
Qed.

Lemma handed_handover Y q ss W (s a : aview) n (b : aview) :
  running a = running s → iv_level (intr a) = INTR_OFF → iv_context (intr a) = false →
  placed D Y [] q ss W a → handed a q n b → handover D Y s n b.
Proof.
  intros Hrun Hlevel Hcontext Hplaced (Hn & Hne & Hr & Hf & Hu).
  assert (Hfr : running b = running a ∧ intr b = intr a) by (by destruct Hf as [-> _]).
  destruct Hfr as (H1 & H2).
  split_and!; [congruence|congruence|by rewrite H2..|by eapply in_hand_handed|by eapply highest_next|].
  by eapply next_not_dying.
Qed.

Lemma changes_marked st first o x (s a : aview) :
  st ≠ THREAD_DYING → ¬ has_status a (running a) THREAD_DYING →
  changes first o x s a → changes first o x s (marked st (intr_off a)).
Proof.
  intros Hst Hd H. apply (changes_ext _ _ _ _ a); [done..| |by apply persist_marked].
  by eapply sleep_frame_status.
Qed.

Section handing_over.
(** A stretch of [o] begun in [s] runs the scheduler in state [a]. *)
Context (first : bool) (o : op) (s a : aview) (Y0 Y : gset tptr).
Context (q ss : list tptr) (W : sema_ptr → list tptr).
Hypothesis Hstart : in_hand D Y0 (running s) s.
Hypothesis HY : ∀ x, aside_after first o x (running s) Y0 = Y.
Hypothesis Hrun : running a = running s.
Hypothesis Hidle : idle_thread a = idle_thread s.
Hypothesis Hlevel : iv_level (intr a) = INTR_OFF.
Hypothesis Hcontext : iv_context (intr a) = false.
Hypothesis Hplaced : placed D Y [] q ss W a.
Hypothesis Heffect : ∀ x, changes first o x s a.
Hypothesis Hquiet : quiet o.

Lemma scheduled_frames (a1 : aview) :
  sched_frame a a1 → running a1 = running a ∧ intr a1 = intr a ∧ semas a1 = semas a ∧
  idle_thread a1 = idle_thread a.
Proof. intros [-> _]. done. Qed.

Lemma handed_gives n (a1 : aview) : handed a q n a1 → gives first o s n a1.
Proof.
  intros Hh. split; [exists Y0; split; [done|]; rewrite HY; by eapply handed_handover|].
  destruct Hh as (_ & _ & _ & Hf & Hu). destruct (scheduled_frames a1 Hf) as (_ & _ & _ & H4).
  refine (conj _ (conj _ _)); [congruence|by eapply changes_frame|by destruct o].
Qed.

Hypothesis Hself : checks o ∨ next_of a q ≠ Some (running a).

Lemma self_gives_back (a1 : aview) :
  next_of a q = Some (running a) → ready a1 (tail q) → sched_frame a a1 →
  (∀ e, unlinked (lists a) e ∨ e ∈ elems q → e ∉ elems (tail q) → unlinked (lists a1) e) →
  gives_back first o s RUnit (restored INTR_ON (resumed None a1)).
Proof.
  intros Hn Hr Hf Hu. destruct (scheduled_frames a1 Hf) as (H1 & H2 & H3 & H4).
  assert (Hin : in_hand D Y (running a1) a1) by (rewrite H1; by eapply in_hand_handed).
  assert (Hd : ¬ has_status a1 (running a1) THREAD_DYING)
    by (rewrite H1; by eapply next_not_dying).
  destruct (running_ok_resumed D Y None a1 Hin) as [Hok _]; [by rewrite H2..|done|].
  refine (conj _ (conj _ (conj _ (conj _ _)))); [|cbn; congruence|cbn; congruence| |].
  { exists Y0. split; [done|]. rewrite HY. by eapply running_ok_level. }
  2:{ apply outranks_now; [|by destruct Hself; [left|]].
      apply (highest_resumed None a1); [|done]. rewrite H1. by eapply highest_next. }
  apply (changes_ext _ _ _ _ a1); [by apply (changes_frame first o _ s a _ q)|done..| |].
  - by eapply sleep_frame_status.
  - by apply (persist_status THREAD_RUNNING (running a1)).
Qed.

Lemma stretch_gives (out : out unit) (a' : aview) :
  scheduled anything a q goes_back out a' →
  stretch (gives first o) (back (running a) (idle_thread a))
    (λ s p, swp (gives false o) (back (running a) (idle_thread a)) s p
       (λ s _, gives_back false o s RUnit))
    (λ s _, gives_back first o s RUnit) s out a'.
Proof.
  intros Ho. refine (stretch_scheduled _ _ anything _ _ _ _ _ _ _ _ _ _ _ handed_gives _ Ho);
    [| |done].
  - intros a1 Hn Hr Hf Hu [-> ->]. exists (). split; [done|]. by apply self_gives_back.
  - intros c o' b [-> ->]. exists (). split; [done|]. intros (Hc & _ & _ & Hh & Y' & Hok).
    refine (conj _ (conj eq_refl (conj eq_refl (conj _ (outranks_now o c (restored INTR_ON c) Hh (or_intror eq_refl)))))).
    + exists Y'. split; [by eapply running_ok_in_hand|]. rewrite quiet_aside by done.
      by eapply running_ok_level.
    + apply changes_same; [done|by left|done|done|by split_and!|by apply persist_threads].
Qed.
End handing_over.

(** If nobody preempts the running thread nobody is ahead of it. *)
Lemma not_preempted Y q ss W (a : aview) :
  placed D Y [running a] q ss W a → preempts a q = false → highest (running a) a.
Proof.
  intros Hpl Hpre. eapply highest_front; [exact Hpl|]. intros t Ht. destruct q as [|u q]; [done|].
  injection Ht as ->. simpl in Hpre. lia.
Qed.

Section checking.
(** A stretch of [o] begun in [s] is in state [a] when it yields or checks for
    preemption. *)
Context (first : bool) (o : op) (s a : aview) (Y0 Y : gset tptr).
Context (q ss : list tptr) (W : sema_ptr → list tptr).
Hypothesis Hstart : in_hand D Y0 (running s) s.
Hypothesis HY : ∀ x, aside_after first o x (running s) Y0 = Y.
Hypothesis Hrun : running a = running s.
Hypothesis Hidle : idle_thread a = idle_thread s.
Hypothesis Hlevel : iv_level (intr a) = INTR_ON.
Hypothesis Hcontext : iv_context (intr a) = false.
Hypothesis Hplaced : placed D Y [running a] q ss W a.
Hypothesis Hready : ready a q.
Hypothesis Hstatus : has_status a (running a) THREAD_RUNNING.
Hypothesis Hticks : 0 ≤ thread_ticks a < TIME_SLICE.
Hypothesis Heffect : ∀ x, changes first o x s a.
Hypothesis Hquiet : quiet o.
Hypothesis Hchecks : checks o.

Lemma stretch_yielded (out : out unit) (a' : aview) :
  yielded anything a q returns out a' →
  stretch (gives first o) (back (running a) (idle_thread a))
    (λ s p, swp (gives false o) (back (running a) (idle_thread a)) s p
       (λ s _, gives_back false o s RUnit))
    (λ s _, gives_back first o s RUnit) s out a'.
Proof.
  unfold yielded. rewrite Hlevel.
  apply (stretch_gives first o s (marked THREAD_READY (intr_off a)) Y0 Y (requeue a q) ss W); try done;
    [by apply placed_requeue| |by left].
  intros x. apply changes_marked; [done| |apply Heffect]. by eapply running_not_dying.
Qed.

Lemma stretch_checked (out : out unit) (a' : aview) :
  checked anything a q returns out a' →
  stretch (gives first o) (back (running a) (idle_thread a))
    (λ s p, swp (gives false o) (back (running a) (idle_thread a)) s p
       (λ s _, gives_back false o s RUnit))
    (λ s _, gives_back first o s RUnit) s out a'.
Proof.
  unfold checked. rewrite Hcontext. destruct (preempts a q) eqn:Hpre; [apply stretch_yielded|].
  intros [-> ->]. simpl.
  refine (conj _ (conj Hrun (conj Hidle (conj (Heffect _)
    (outranks_now _ _ _ (not_preempted _ _ _ _ _ Hplaced Hpre) (or_introl Hchecks)))))).
  exists Y0.
  split; [done|]. rewrite HY. split_and!; [done..| |done|apply Hticks|apply Hticks]. by exists q, ss, W.
Qed.
End checking.

(** ** The calls *)

Ltac no_change :=
  intros ?; apply changes_same;
    [done|right; split_and!; [by intros ?|by intros ?|by intros ?|done]|done|done|
     first [reflexivity|by eapply sleep_frame_status|idtac]|
     first [reflexivity|apply persist_marked; [done|by eapply running_not_dying]|idtac]].

Lemma call_yield Y (a : aview) : running_ok D Y INTR_ON a → call_ok OYield a.
Proof.
  intros (Hl & Hctx & (q & ss & W & Hpl & Hr) & Hst & Ht). apply apwp_void.
  destruct (placed_sched_ok D Y _ _ _ _ Hpl Hr Hst) as [cur Hok].
  rewrite <- (prog_bind_ret_r thread_yield).
  eapply apwp_mono; [eapply (apwp_yielded_bind Ret anything returns); [exact Hok|exact Hctx|done|]|].
  { intros b bcur _ _ _. by apply apwp_ret. }
  intros out a'. apply (stretch_yielded true OYield a a Y Y q ss W); try done; [by exists q, ss, W|].
  no_change.
Qed.

(** A thread that an interrupt has preempted is about to yield. *)
Definition preempted_ok (Y : gset tptr) (a : aview) : Prop :=
  iv_level (intr a) = INTR_OFF ∧ iv_context (intr a) = false ∧ in_hand D Y (running a) a ∧
  has_status a (running a) THREAD_RUNNING.

Lemma call_preempt Y (a : aview) : preempted_ok Y a → call_ok OPreempt a.
Proof.
  intros (Hl & Hctx & (q & ss & W & Hpl & Hr) & Hst).
  apply (apwp_void _ _ _ a (thread_yield;; act (k_intr_set_level INTR_ON))).
  destruct (placed_sched_ok D Y _ _ _ _ Hpl Hr Hst) as [cur Hok].
  eapply apwp_mono; [eapply (apwp_yielded_bind _ anything goes_back); [exact Hok|exact Hctx|done|]|].
  { intros b bcur _ _ _. apply apwp_act, awp_intr_set_level. done. }
  intros out a'. unfold yielded. rewrite Hl.
  apply (stretch_gives true OPreempt a (marked THREAD_READY (intr_off a)) Y Y (requeue a q) ss W);
    try done; [by exists q, ss, W|by apply placed_requeue|no_change|by left].
Qed.

Lemma call_set_priority Y p (a : aview) :
  running_ok D Y INTR_ON a → PRI_MIN ≤ p ≤ PRI_MAX → call_ok (OSetPriority p) a.
Proof.
  intros (Hl & Hctx & (q & ss & W & Hpl & Hr) & Hst & Ht) Hp. apply apwp_void.
  destruct (placed_sched_ok D Y _ _ _ _ Hpl Hr Hst) as [cur Hok].
  eapply apwp_mono; [apply (apwp_thread_set_priority p a q cur); [done| |done]|].
  { by eapply pl_prio. }
  intros out a'. pose proof Hok as ((Hc & Hcok & Hcst) & _).
  pose proof (sched_ok_with_current a q cur (with_priority p cur) Hok eq_refl eq_refl Hp)
    as (_ & _ & Hr1 & _).
  apply (stretch_checked true (OSetPriority p) a (with_current (with_priority p cur) a) Y Y q ss W);
    try done.
  - by exists q, ss, W.
  - apply placed_self; [done|by left|]. destruct (pl_threads Hpl _ _ Hc) as (Hwm & _ & Hb).
    exact (conj Hwm (conj Hp Hb)).
  - unfold has_status. cbn. by rewrite lookup_insert_eq, <- Hcst.
  - no_change.
    + split_and!; [done..|]. intros t _. apply (wakeup_insert _ cur); [exact Hc|done].
    + apply persist_threads; [done..| |done]. by apply (idents_insert _ cur).
Qed.

Lemma call_idle Y (a : aview) :
  running_ok D Y INTR_ON a → Some (running a) = idle_thread a → call_ok OIdle a.
Proof.
  intros (Hl & Hctx & (q & ss & W & Hpl & Hr) & Hst & Ht) Hi. apply (apwp_void _ _ _ a idle_round).
  destruct (placed_sched_ok D Y _ _ _ _ Hpl Hr Hst) as [cur Hok].
  pose proof Hok as (Hc & _ & _ & _ & Hv). apply apwp_Act, awp_intr_disable. fold (intr_off a).
  assert (Hn : ∃ n, next_of a q = Some n ∧ valid a n).
  { destruct q as [|t q]; [|exists t; split; [done|apply Hv; by left]].
    destruct (placed_idle_valid D Y _ _ _ _ _ Hpl) as (i & ? & ?). by exists i. }
  destruct Hn as (n & Hn & Hvn).
  eapply apwp_mono; [eapply (apwp_thread_block_bind _ anything goes_back (intr_off a) q cur n)|];
    try done.
  - intros b bcur _ _ _. apply apwp_act, awp_intr_set_level. done.
  - intros out a'.
    apply (stretch_gives true OIdle a (marked THREAD_BLOCKED (intr_off a)) Y Y q ss W);
      try done; [by exists q, ss, W| |no_change|by left].
    by apply placed_block_idle, Hi; apply placed_intr.
Qed.

Lemma falls_asleep_sleep Y n q ss W cur ss' (a : aview) :
  placed D Y [running a] q ss W a → current_ok a cur → 0 < n →
  let b := marked THREAD_BLOCKED (sleep_until (ticks a + n) ss (intr_off a)) in
  ss' = insert_before (λ t, ticks a + n <? thread_wakeup (threads a) t) (running a) ss →
  lists b !! sleep_list = Some (thread_sleep_elem <$> ss') → sleep_change true (OSleep n) a b.
Proof.
  intros Hpl (Hc & _) Hn b Hss Hb. split; [done|]. intros t w.
  assert (Hrun : running a ∉ ss).
  { intros Hin. destruct (pl_ss Hpl _ Hin) as [(Hx & _) _]. apply Hx. by left. }
  assert (Hsl : ∀ u, sleeps b u ↔ u = running a ∨ sleeps a u).
  { intros u. split.
    - intros Hu. apply (sleeps_in _ _ _ Hb) in Hu. subst ss'.
      apply elem_of_insert_before in Hu as [->|Hu]; [by left|right].
      exists ss. split; [exact (pl_sleep Hpl)|done].
    - intros Hu. exists ss'. split; [done|]. subst ss'. apply elem_of_insert_before.
      destruct Hu as [->|Hu]; [by left|right]. by eapply sleeps_in; [exact (pl_sleep Hpl)|]. }
  assert (Hts : threads b = <[running a := with_status THREAD_BLOCKED (with_wakeup_tick (ticks a + n) cur)]>
    (threads a)).
  { cbn. rewrite (alter_at _ (threads a) _ cur) by done.
    rewrite (alter_at _ _ _ _ (lookup_insert_eq _ _ _)). apply insert_insert_eq. }
  unfold asleep. rewrite Hsl. unfold thread_wakeup. rewrite Hts. destruct (decide (t = running a)) as [->|Hne].
  - rewrite lookup_insert_eq. split.
    + intros [_ <-]. by right.
    + intros [[Hs _]|(_ & _ & _ & ->)]; [|split; [by left|done]].
      destruct Hrun. by eapply sleeps_in; [exact (pl_sleep Hpl)|].
  - rewrite lookup_insert_ne by done. split.
    + intros [[?|?] ?]; [done|by left].
    + intros [[? ?]|(_ & ? & _)]; [split; [by right|done]|done].
Qed.

(** Going to sleep changes nothing that the rosters are about. *)
Lemma persist_sleep tick ss (a : aview) :
  ¬ has_status a (running a) THREAD_DYING →
  persist a (marked THREAD_BLOCKED (sleep_until tick ss (intr_off a))).
Proof.
  intros Hd. set (b := set_threads (alter (with_wakeup_tick tick) (running a) (threads a)) (intr_off a)).
  assert (Hb : persist a b).
  { apply persist_threads; [done..| |done]. by eapply idents_alter. }
  assert (Hd' : ¬ has_status b (running b) THREAD_DYING).
  { contradict Hd. unfold has_status in *. cbn in Hd. rewrite lookup_alter_eq in Hd.
    by destruct (threads a !! running a). }
  etrans; [exact Hb|]. set (c := marked THREAD_BLOCKED b).
  assert (Hc : persist b c) by by apply (persist_status THREAD_BLOCKED (running b)).
  etrans; [exact Hc|]. refine (persist_lists c c sleep_list _ (reflexivity c) eq_refl _).
  by intros e He (u & -> & _)%list_elem_of_fmap.
Qed.

Lemma call_sleep Y n (a : aview) :
  running_ok D Y INTR_ON a → Some (running a) ≠ idle_thread a → in_int64 (ticks a + n) →
  call_ok (OSleep n) a.
Proof.
  intros (Hl & Hctx & (q & ss & W & Hpl & Hr) & Hst & Ht) Hi Hn. apply apwp_void.
  destruct (placed_sched_ok D Y _ _ _ _ Hpl Hr Hst) as [cur Hok].
  assert (Hcs : can_sleep n q ss cur a).
  { refine (conj Hok (conj Hctx (conj Hl (conj Hi (conj _ (conj _ (conj _ Hn))))))).
    - intros _. by eapply placed_idle_valid.
    - by eapply placed_sleeping.
    - by eapply placed_unlinked. }
  eapply apwp_mono; [by apply (apwp_timer_sleep n q ss cur)|]. intros out a'. cbv beta.
  destruct (n <=? 0) eqn:Hn0.
  - intros [-> ->]. simpl.
    apply gives_back_same; [exact id|done|done|done|done|..].
    + exists Y. split; [by exists q, ss, W|]. split_and!; [done..| |done|apply Ht|apply Ht].
      by exists q, ss, W.
    + apply changes_refl; [done|done|by intros _ m [= <-]; lia|done..].
  - intros (Hsl & _ & _ & Ho). revert Ho.
    apply (stretch_gives true (OSleep n) a
      (marked THREAD_BLOCKED (sleep_until (ticks a + n) ss (intr_off a))) Y Y q
      (insert_before (λ t, ticks a + n <? thread_wakeup (threads a) t) (running a) ss) W); try done.
    + by exists q, ss, W.
    + eapply (placed_block_sleep D Y (ticks a + n) _ q ss W (intr_off a)); [|done..].
      by apply placed_intr.
    + intros x. split; [refine (conj eq_refl (conj _ _))|].
      * intros sm ws _ H. unfold waits. cbn. by rewrite lookup_insert_ne.
      * eapply (falls_asleep_sleep Y n q ss W cur); [done|apply Hok|lia|reflexivity|apply Hsl].
      * apply steady_persist; [done| |by split; [|cbn; rewrite lookup_insert_ne]].
        by apply persist_sleep; eapply running_not_dying.
    + right. intros Hself. destruct q as [|u q]; [simpl in Hself; congruence|].
      injection Hself as ->. destruct (pl_q Hpl (running a)) as (Hx & _); [by left|]. apply Hx. by left.
Qed.

Lemma call_try_down Y sm (a : aview) :
  running_ok D Y INTR_ON a → sm ≠ sema_of_lock tid_lock → is_Some (semas a !! sm) →
  call_ok (OTryDown sm) a.
Proof.
  intros Hok Hne [v Hv]. pose proof Hok as (Hl & Hctx & (q & ss & W & Hpl & Hr) & Hst & Ht).
  pose proof (pl_values Hpl _ _ Hv) as Hrange.
  assert (Hsm : sm ∈ D) by (apply (pl_semas Hpl); by eexists).
  apply apwp_Act. eapply awp_sema_try_down; [exact Hv|unfold UINT_MAX in *; lia|]. apply apwp_ret.
  destruct (Z.ltb_spec 0 v); simpl.
  - apply gives_back_same; [exact id|done|done|done|done|..].
    + exists Y. split; [by exists q, ss, W|]. split_and!; try done; try apply Ht. exists q, ss, W.
      split; [apply placed_value; [done|done|unfold UINT_MAX in *; lia]|].
      by eapply (rq_ext (rq := ready) a).
    + apply changes_value; [simpl; by rewrite (alter_at _ _ _ v)|done..|].
      by rewrite lookup_insert_ne.
  - apply gives_back_same; [exact id|done|done|done|done|..]; [|by apply changes_refl].
    exists Y. split; [by exists q, ss, W|]. split_and!; try done; try apply Ht. by exists q, ss, W.
Qed.

Lemma apwp_wf {A} (p : prog A) Q (a : aview) :
  (lists_wf (lists a) → apwp p Q a) → apwp p Q a.
Proof. intros H s <-. apply H; [|done]. apply obs_lists_wf. Qed.

Lemma placed_can_up Y sm v q ss W cur (a : aview) :
  placed D Y [running a] q ss W a → sched_ok a q cur → semas a !! sm = Some v → v < UINT_MAX - 1 →
  can_up sm q (W sm) v cur a.
Proof.
  intros Hpl Hok Hv Hlt. pose proof (pl_values Hpl _ _ Hv) as Hrange.
  assert (Hsm : sm ∈ D) by (apply (pl_semas Hpl); by eexists).
  refine (conj Hok (conj Hv (conj (conj _ Hlt) (conj (pl_waiters Hpl _ Hsm) _))));
    [lia|]. destruct (W sm) as [|t ws] eqn:HW; [done|].
  destruct (pl_W Hpl sm t Hsm ltac:(rewrite HW; by left)) as (_ & _ & Hst).
  unfold has_status in Hst. destruct (threads a !! t) as [th|] eqn:Hth; [|done].
  injection Hst as Hst. destruct (pl_threads Hpl _ _ Hth) as (? & ? & _). by exists th.
Qed.

Lemma elems_inj (l k : list tptr) : elems l = elems k → l = k.
Proof. apply list_fmap_eq_inj. by intros ?? [= ->]. Qed.

Lemma upped_waits sm v q W x ts t (a a1 : aview) q1 sm' ws :
  upped a sm v W q a1 q1 → waits a sm W → waits a sm' ws →
  waits a1 sm' (weffect true (OUp sm) x ts t sm' ws).
Proof.
  intros Hup HW Hws. simpl. unfold waits in *. case_bool_decide as Hd.
  - subst sm'. rewrite HW in Hws. injection Hws as Hws%elems_inj. subst ws.
    destruct W as [|w W]; [by destruct Hup as [-> _]|]. by destruct Hup as (? & _ & _ & _ & _ & ? & _).
  - destruct W as [|w W]; [by destruct Hup as [-> _]|].
    destruct Hup as (? & _ & _ & _ & _ & _ & Hl & _). rewrite Hl; [done|done|congruence].
Qed.

Lemma upped_sleep_frame sm v ws q (a a1 : aview) q1 :
  upped a sm v ws q a1 q1 → sleep_frame a a1.
Proof.
  destruct ws as [|t ws]; [by intros [-> _]|]. intros (th & Hth & Ha1 & _ & _ & _ & Hl & _).
  split_and!; [by rewrite Ha1|by apply Hl|]. intros u _. rewrite Ha1. cbn.
  apply (wakeup_insert _ th); [done|]. unfold unblocked, reprioritised. by case_match.
Qed.

Lemma ident_unblocked (a : aview) t th :
  status th ≠ THREAD_DYING → ident (unblocked a t th) = ident th.
Proof.
  intros Hst. unfold ident, unblocked, reprioritised.
  case_match; cbn; by rewrite !bool_decide_false.
Qed.

Lemma persist_upped sm v ws q (a a1 : aview) q1 :
  upped a sm v ws q a1 q1 → (∀ t, t ∈ ws → has_status a t THREAD_BLOCKED) →
  sm ≠ sema_of_lock tid_lock → persist a a1 ∧ tid_same a a1.
Proof.
  intros Hup Hws Hne. destruct ws as [|t ws].
  - destruct Hup as [-> _]. split; [by apply persist_threads|]. split; [|done]. cbn.
    by rewrite lookup_insert_ne.
  - destruct Hup as (th & Hth & Ha1 & _ & _ & _ & Hl & Hu). split.
    + split_and!; try (by rewrite Ha1); [|by intros l Hr; apply Hl; destruct l|by auto].
      unfold idents at 1. rewrite Ha1. cbn. apply (idents_insert t th); [done|].
      apply ident_unblocked. specialize (Hws t ltac:(by left)). unfold has_status in Hws.
      rewrite Hth in Hws. injection Hws as ->. done.
    + split; [rewrite Ha1; cbn; by rewrite lookup_insert_ne|]. apply Hl; [done|congruence].
Qed.

(** [sema_up], with the check it ends in. *)
Lemma apwp_up_stretch Y sm v q ss W (a : aview) :
  running_ok D Y INTR_ON a → placed D Y [running a] q ss W a → ready a q →
  sm ≠ sema_of_lock tid_lock → semas a !! sm = Some v → v < UINT_MAX - 1 →
  apwp (sema_up sm) (λ out a',
    stretch (gives true (OUp sm)) (back (running a) (idle_thread a))
      (λ s p, swp (gives false (OUp sm)) (back (running a) (idle_thread a)) s p
         (λ s _, gives_back false (OUp sm) s RUnit))
      (λ s _, gives_back true (OUp sm) s RUnit) a out a' ∧
    ∃ a1 q1, upped a sm v (W sm) q a1 q1 ∧ checked anything a1 q1 returns out a') a.
Proof.
  intros (Hl & Hctx & Hin & Hst & Ht) Hpl Hr Hne Hv Hlt.
  destruct (placed_sched_ok D Y _ _ _ _ Hpl Hr Hst) as [cur Hok]. pose proof Hok as ((Hc & _) & _).
  assert (Hsm : sm ∈ D) by (apply (pl_semas Hpl); by eexists).
  pose proof (placed_can_up _ _ _ _ _ _ _ _ Hpl Hok Hv Hlt) as Hcu.
  apply apwp_wf. intros Hwf. rewrite <- (prog_bind_ret_r (sema_up sm)).
  eapply apwp_mono; [eapply (apwp_sema_up_bind Ret anything returns); [exact Hcu|done|]|].
  { intros b bcur _ _ _. by apply apwp_ret. }
  intros out a' (a1 & q1 & Hup & Hch). split; [|by exists a1, q1].
  pose proof (placed_upped D Y _ _ _ _ _ _ _ _ _ Hpl Hwf Hsm Hv Hlt eq_refl Hup) as Hpl1.
  pose proof (upped_sched_ok _ _ _ _ _ _ _ _ Hcu Hup) as (Hc1 & _ & Hr1 & _).
  assert (Hf : running a1 = running a ∧ idle_thread a1 = idle_thread a ∧ intr a1 = intr a ∧
    thread_ticks a1 = thread_ticks a ∧ semas a1 = <[sm := v + 1]> (semas a)).
  { destruct (W sm); [by destruct Hup as [-> _]|]. by destruct Hup as (? & _ & -> & _). }
  destruct Hf as (Hf1 & Hf2 & Hf3 & Hf4 & Hf5). rewrite <- Hf1 in Hpl1. rewrite <- Hf1, <- Hf2.
  revert Hch. eapply (stretch_checked true (OUp sm) a a1 Y Y q1 ss); rewrite ?Hf3, ?Hf4; try done.
  - unfold has_status. destruct Hc1 as (-> & _ & Hs1). cbn. by rewrite Hs1.
  - intros x. split; [refine (conj _ (conj _ _))|].
    + rewrite Hf5. simpl. rewrite (alter_at _ _ _ v Hv). by destruct x.
    + intros sm' ws Hsm' Hws.
      eapply upped_waits; [exact Hup|exact (pl_waiters Hpl sm Hsm)|exact Hws].
    + apply asleep_awake; [done|]. by eapply upped_sleep_frame.
    + destruct (persist_upped _ _ _ _ _ _ _ Hup) as [Hp Htid]; [|done|by apply steady_persist].
      intros t Hin'. by apply (pl_W Hpl sm).
Qed.

Lemma call_up Y sm v (a : aview) :
  running_ok D Y INTR_ON a → sm ≠ sema_of_lock tid_lock → semas a !! sm = Some v →
  v < UINT_MAX - 1 → call_ok (OUp sm) a.
Proof.
  intros Hok Hne Hv Hlt. pose proof Hok as (_ & _ & (q & ss & W & Hpl & Hr) & _). apply apwp_void.
  eapply apwp_mono; [by eapply (apwp_up_stretch Y sm v q ss W)|]. by intros out a' [Ho _].
Qed.

Lemma running_waitable Y l sm (a : aview) :
  running_ok D Y l a → Some (running a) ≠ idle_thread a → is_Some (semas a !! sm) →
  waitable sm (intr_off a).
Proof.
  intros (Hl & Hctx & (q & ss & W & Hpl & Hr) & Hst & Ht) Hi [v Hv].
  destruct (placed_sched_ok D Y _ _ _ _ Hpl Hr Hst) as [cur Hok].
  assert (Hsm : sm ∈ D) by (apply (pl_semas Hpl); by eexists).
  pose proof (pl_values Hpl _ _ Hv) as Hrange.
  split; [done|]. exists q, (W sm), v, cur.
  refine (conj (sched_ok_intr _ _ _ _ Hok) (conj Hctx (conj Hi (conj _ (conj Hv (conj _ _)))))).
  - intros _. exact (placed_idle_valid D Y _ _ _ _ _ Hpl).
  - unfold UINT_MAX in *. lia.
  - by apply (pl_waiters Hpl).
Qed.

Lemma ready_unique q q' (a : aview) : thread_mlfqs a = false → ready a q → ready a q' → q = q'.
Proof.
  intros Hm [[_ Hq]|[? _]] [[_ Hq']|[? _]]; [|congruence..].
  rewrite Hq in Hq'. injection Hq' as ?. by apply elems_inj.
Qed.

(** A wait for a semaphore, in terms of the places. *)
Lemma can_wait_places Y sm q ws cur l (s : aview) :
  running_ok D Y l s → can_wait sm q ws 0 cur (intr_off s) → sm ∈ D →
  ∃ ss W, placed D Y [running s] q ss W s ∧ W sm = ws.
Proof.
  intros (_ & Hctx & (q0 & ss & W & Hpl & Hr) & _) ((_ & _ & Hr' & _) & _ & Hi & _ & _ & _ & Hws) Hsm.
  assert (q0 = q) as ->.
  { apply (ready_unique _ _ (intr_off s)); [apply (pl_prio Hpl)| |done].
    by eapply (rq_ext (rq := ready) s). }
  exists ss, W. split; [done|]. change (lists s !! sema_waiters sm = Some (elems ws)) in Hws.
  rewrite (pl_waiters Hpl sm Hsm) in Hws. injection Hws as ?. by apply elems_inj.
Qed.

Lemma handed_sema_gives Y sm q ws cur n l (s b : aview) :
  running_ok D Y l s → can_wait sm q ws 0 cur (intr_off s) → sm ∈ D →
  handed (marked THREAD_BLOCKED (queued_on sm ws (intr_off s))) q n b → handover D Y s n b.
Proof.
  intros Hok Hcw Hsm Hh. destruct (can_wait_places _ _ _ _ _ _ _ Hok Hcw Hsm) as (ss & W & Hpl & <-).
  destruct Hok as (_ & Hctx & _). destruct Hcw as (_ & _ & Hi & _).
  eapply (handed_handover Y q ss (with_waiters sm (enqueue (threads s) (running s) (W sm)) W) s
    (marked THREAD_BLOCKED (queued_on sm (W sm) (intr_off s)))); try done.
  apply (placed_block_sema D Y sm q ss W (intr_off s)); [by apply placed_intr|done..].
Qed.

(** Joining the waiters of a semaphore changes nothing that the rosters are
    about. *)
Lemma persist_queued sm ws (s : aview) :
  ¬ has_status s (running s) THREAD_DYING →
  persist s (marked THREAD_BLOCKED (queued_on sm ws (intr_off s))).
Proof.
  intros Hd. set (c := marked THREAD_BLOCKED (intr_off s)).
  assert (Hc : persist s c) by by apply persist_marked.
  etrans; [exact Hc|].
  refine (persist_lists c c (sema_waiters sm) _ (reflexivity c) eq_refl _). intros e. apply roster_elems.
Qed.

(** [sema_down], from whatever state its stretches begin in. *)
Lemma down_gives Y first sm q ws cur n l (s b : aview) :
  running_ok D Y l s → sm ∈ D → sm ≠ sema_of_lock tid_lock → can_wait sm q ws 0 cur (intr_off s) →
  handed (marked THREAD_BLOCKED (queued_on sm ws (intr_off s))) q n b →
  gives first (ODown sm) s n b.
Proof.
  intros Hl Hsm Hne Hcw Hh.
  split; [exists Y; split; [by eapply running_ok_in_hand|by eapply handed_sema_gives]|].
  destruct Hh as (_ & _ & _ & Hf & Hu). destruct Hcw as (_ & _ & _ & _ & Hv & _ & Hws).
  refine (conj _ (conj _ Hv)); [by destruct Hf as [-> _]|].
  eapply changes_frame; [|exact Hf|exact Hu].
  split; [refine (conj eq_refl (conj _ (asleep_awake _ _ _ _ _ _))); [|done|]|].
  - intros sm' ws' _ Hws'.
    change (waits s sm ws) in Hws. unfold waits in *. simpl. case_bool_decide as Hd.
    + subst sm'. rewrite Hws in Hws'. injection Hws' as ->%elems_inj. apply lookup_insert_eq.
    + rewrite lookup_insert_ne by congruence. done.
  - split_and!; [done|cbn; by rewrite lookup_insert_ne|]. intros t _. by apply wakeup_alter.
  - apply steady_persist; [done| |].
    + apply persist_queued. by eapply running_ok_not_dying.
    + split; [done|]. cbn. by rewrite lookup_insert_ne by congruence.
Qed.

Lemma down_waitable Y sm l (c : aview) :
  running_ok D Y l c → sm ∈ D → Some (running c) ≠ idle_thread c → waitable sm (intr_off c).
Proof.
  intros Hc Hsm Hi. apply (running_waitable Y l); [done..|].
  destruct Hc as (_ & _ & (q & ss & W & Hpl & _) & _). by apply (pl_semas Hpl).
Qed.

Lemma down_gives_back Y first sm v l (s : aview) :
  running_ok D Y l s → sm ∈ D → sm ≠ sema_of_lock tid_lock → semas s !! sm = Some v → 0 < v →
  gives_back first (ODown sm) s RUnit
    (restored INTR_ON (set_semas (<[sm := v - 1]> (semas s)) s)).
Proof.
  intros Hok Hsm Hne Hv Hpos. pose proof Hok as (Hl & Hctx & (q & ss & W & Hpl & Hr) & Hst & Ht).
  pose proof (pl_values Hpl _ _ Hv) as Hrange.
  apply gives_back_same; [exact id|done|done|done|done|..].
  - exists Y. split; [by eapply running_ok_in_hand|].
    apply (running_ok_level Y l). split_and!; try done; try apply Ht. exists q, ss, W.
    split; [apply placed_value; [done|done|lia]|]. by eapply (rq_ext (rq := ready) s).
  - apply (changes_ext _ _ _ _ (set_semas (<[sm := v - 1]> (semas s)) s));
      [|done|done|by split_and!|by apply persist_threads].
    apply changes_value; [simpl; by rewrite (alter_at _ _ _ v)|done..|by rewrite lookup_insert_ne].
Qed.

(** A thread that is switched back to inside [sema_down]. *)
Lemma back_waitable sm t i (c : aview) :
  back t i c → sm ∈ D → Some t ≠ i → waitable sm c.
Proof.
  intros (<- & <- & _ & _ & Y & Hc) Hsm Hi. pose proof (down_waitable Y sm _ _ Hc Hsm Hi) as H.
  change (intr_off c) with (restored INTR_OFF c) in H. by rewrite restored_id in H by apply Hc.
Qed.

Lemma call_down Y sm (a : aview) :
  running_ok D Y INTR_ON a → Some (running a) ≠ idle_thread a → sm ≠ sema_of_lock tid_lock →
  sm ∈ D → call_ok (ODown sm) a.
Proof.
  intros Hok Hi Hne Hsm. apply apwp_void. set (C := back (running a) (idle_thread a)).
  assert (Hs : ∀ s, s = a ∨ C s → ∃ Y l, running_ok D Y l s).
  { intros s [->|(_ & _ & _ & _ & Y' & Hs)]; eauto. }
  apply swp_unfold, (swp_sema_down _ C).
  - intros s q ws cur n b Hsa Hcw Hh. destruct (Hs s Hsa) as (Y' & l & Hl).
    exact (down_gives Y' true sm q ws cur n l s b Hl Hsm Hne Hcw Hh).
  - intros c Hc. by eapply back_waitable.
  - by eapply down_waitable.
  - intros s v Hsa _ Hv Hpos. destruct (Hs s Hsa) as (Y' & l & Hl). destruct Hok as [-> _].
    exact (down_gives_back Y' true sm v l s Hl Hsm Hne Hv Hpos).
Qed.

(** ** The timer interrupt *)

(** The state after the interrupt: if the handler has asked for it, the
    interrupted thread yields next. *)
Definition interrupt_left (b : aview) : aview :=
  set_intr (IView (if iv_yield (intr b) then INTR_OFF else INTR_ON) false false) b.

Definition tick_ok (Y : gset tptr) (a : aview) (b : aview) : Prop :=
  let c := interrupt_left b in
  (if iv_yield (intr b) then preempted_ok Y c else running_ok D Y INTR_ON c) ∧
  running b = running a ∧ idle_thread b = idle_thread a ∧
  (semas b = semas a ∧ (∀ sm ws, waits a sm ws → waits b sm ws) ∧
   ∀ t w, asleep b t w ↔ asleep a t w ∧ ticks a + 1 < w) ∧
  (persist a b ∧ tid_same a b) ∧
  ticks b = ticks a + 1 ∧ (iv_yield (intr b) = true ↔ TIME_SLICE ≤ thread_ticks a + 1) ∧
  thread_ticks b = thread_ticks a + 1.

(** Those whose time has come are no longer asleep. *)
Lemma woke_asleep now l r q (a b : aview) :
  lists_wf (lists a) → sleeping a (l ++ r) → (∀ t, t ∈ l → thread_wakeup (threads a) t ≤ now) →
  (∀ t, t ∈ r → now < thread_wakeup (threads a) t) → woke l r q a b →
  ∀ t w, asleep b t w ↔ asleep a t w ∧ now < w.
Proof.
  intros Hwf Hs Hle Hgt (Hb & _ & (Hl & _) & _) t w.
  destruct (woken_sleeping a l r q Hwf Hs) as (_ & Ho & _).
  pose proof (sleeping_NoDup a _ Hwf Hs) as (_ & Hlr & _)%NoDup_app. destruct Hs as (Hla & _).
  assert (Hin : ∀ u, sleeps b u ↔ u ∈ r).
  { intros u. split; [by apply sleeps_in|]. intros Hu. by exists r. }
  assert (Hin' : ∀ u, sleeps a u ↔ u ∈ l ∨ u ∈ r).
  { intros u. rewrite <- elem_of_app. split; [by apply sleeps_in|]. intros Hu. by exists (l ++ r). }
  unfold asleep. rewrite Hin, Hin'.
  assert (Hr : t ∈ r → thread_wakeup (threads b) t = thread_wakeup (threads a) t).
  { intros Hu. unfold thread_wakeup. rewrite Hb. cbn. rewrite Ho; [done|]. intros Hl'. by apply (Hlr t). }
  split.
  - intros [Hu <-]. rewrite Hr by done. split; [by split; [right|]|by apply Hgt].
  - intros [[[Hu|Hu] <-] Hw]; [apply Hle in Hu; lia|]. by rewrite Hr.
Qed.

(** A wake-up is a change of status. *)
Lemma persist_woke l r q (a b : aview) :
  lists_wf (lists a) → sleeping a (l ++ r) → woke l r q a b → persist a b ∧ tid_same a b.
Proof.
  intros Hwf Hs (Hb & _ & _ & Hl & Hu).
  destruct (woken_sleeping a l r q Hwf Hs) as (_ & Ho & Hw). split.
  - split_and!; try (by rewrite Hb); [|by intros k Hk; apply Hl; destruct k|].
    + apply map_eq. intros t. unfold idents. rewrite !lookup_fmap, Hb. cbn.
      destruct (decide (t ∈ l)) as [Hin|Hn]; [|by rewrite Ho].
      destruct Hs as (_ & _ & Hss). destruct (Hss t) as (th & Hth & _ & Hst & _); [set_solver|].
      rewrite (Hw t th), Hth by done. cbn. f_equal. apply ident_unblocked. congruence.
    + intros e He Hun. apply Hu. left. split; [done|by apply roster_elems].
  - split; [by rewrite Hb|by apply Hl].
Qed.

Lemma running_can_interrupt Y (a : aview) :
  running_ok D Y INTR_ON a → counters_ok a → ∃ q ss W cur,
    placed D Y [running a] q ss W a ∧
    can_interrupt 0 [] q ss cur (set_intr (IView INTR_OFF true false) a).
Proof.
  intros (Hl & Hctx & (q & ss & W & Hpl & Hr) & Hst & Ht) (Hc1 & Hc2 & Hc3).
  set (a0 := set_intr _ a). destruct (placed_sched_ok D Y _ _ _ _ Hpl Hr Hst) as [cur Hok].
  assert (Hpl0 : placed D Y [running a0] q ss W a0) by by apply placed_intr.
  exists q, ss, W, cur. split; [done|].
  refine (conj (sched_ok_intr _ _ _ _ Hok) (conj (placed_sleeping D Y _ _ _ _ _ Hpl0)
    (conj eq_refl (conj eq_refl (conj (conj _ (conj Hc2 Hc3)) (conj Hc1 _)))))).
  - cbn. unfold TIME_SLICE in Ht. lia.
  - intros Hm. rewrite (pl_prio Hpl0) in Hm. done.
Qed.

Lemma tick_keeps_places Y (a : aview) :
  running_ok D Y INTR_ON a → counters_ok a →
  apwp timer_interrupt (λ o b, o = ODone () ∧ tick_ok Y a b)
    (set_intr (IView INTR_OFF true false) a).
Proof.
  intros Hrok Hcs. destruct (running_can_interrupt Y a Hrok Hcs) as (q & ss & W & cur & Hpl & Hci).
  pose proof Hrok as (_ & _ & _ & _ & Ht).
  set (a0 := set_intr _ a) in *. assert (Hpl0 : placed D Y [running a0] q ss W a0) by by apply placed_intr.
  apply apwp_wf. intros Hwf. eapply apwp_mono; [by apply (apwp_timer_interrupt 0 [] q ss cur)|].
  intros o b (-> & l & r & a1 & a2 & q2 & a3 & cur' & Ha1 & -> & Hle & Hgt & Hw & Hm & Hok' & _).
  split; [done|]. rewrite (pl_prio Hpl0) in Hm. destruct Hm as (-> & -> & ->).
  assert (Hpl1 : placed D Y [running a1] q (l ++ r) W a1).
  { rewrite Ha1. eapply placed_ext; [exact Hpl0|done..| |done|done]. unfold ticked. cbn.
    by rewrite (pl_prio Hpl). }
  assert (Hts1 : threads a1 = threads a)
    by (rewrite Ha1; unfold ticked; cbn; by rewrite (pl_prio Hpl)).
  assert (Hl1 : lists a1 = lists a) by (by rewrite Ha1).
  assert (Hwf1 : lists_wf (lists a1)) by (by rewrite Ha1).
  pose proof (placed_woke D Y l r q W a1 a2 Hpl1 Hwf1 Hw) as Hpl2.
  pose proof Hok' as ((Hc' & _ & Hst') & _ & Hr' & _).
  assert (Hf : running a2 = running a ∧ idle_thread a2 = idle_thread a ∧ semas a2 = semas a ∧
    ticks a2 = ticks a + 1 ∧ thread_ticks a2 = thread_ticks a + 1 ∧
    iv_yield (intr a2) = (TIME_SLICE <=? thread_ticks a + 1) ∧ running a1 = running a).
  { destruct Hw as (-> & _). by rewrite Ha1. }
  destruct Hf as (H1 & H2 & H3 & H4 & H5 & H6 & H7). rewrite H7, <- H1 in Hpl2.
  assert (Hwaits : ∀ sm ws, waits a sm ws → waits a2 sm ws).
  { intros sm ws H. destruct Hw as (_ & _ & _ & Hl2 & _). unfold waits. rewrite Hl2 by done.
    by rewrite Ha1. }
  assert (Hsleeps : ∀ t w, asleep a2 t w ↔ asleep a t w ∧ ticks a + 1 < w).
  { intros t w. rewrite (woke_asleep _ l r q a1 a2 Hwf1 (placed_sleeping D Y _ _ _ _ _ Hpl1) Hle Hgt Hw).
    unfold asleep, sleeps, thread_wakeup. by rewrite Hl1, Hts1. }
  assert (Hp1 : persist a a1 ∧ tid_same a a1).
  { split; [|by split; [rewrite Ha1|rewrite Hl1]].
    apply persist_threads; [by rewrite Ha1..| |done]. unfold idents. by rewrite Hts1. }
  assert (Hp : persist a a2 ∧ tid_same a a2).
  { destruct (persist_woke l r q a1 a2 Hwf1 (placed_sleeping D Y _ _ _ _ _ Hpl1) Hw) as [Hp2 [Ht1 Ht2]].
    destruct Hp1 as [Hp1 [Ht1' Ht2']]. split; [by etrans|]. split; congruence. }
  refine (conj _ (conj H1 (conj H2 (conj (conj H3 (conj Hwaits Hsleeps)) (conj Hp (conj H4 (conj _ H5)))))));
    [|by rewrite H6, Z.leb_le].
  set (c := interrupt_left a2).
  assert (Hin : in_hand D Y (running c) c).
  { exists (woken a1 l q).2, r, W. split; [by apply placed_intr|].
    by eapply (rq_ext (rq := ready) a2). }
  assert (Hstc : has_status c (running c) THREAD_RUNNING).
  { unfold has_status. change (threads c) with (threads a2). change (running c) with (running a2).
    by rewrite Hc', <- Hst'. }
  unfold c, interrupt_left in *. destruct (iv_yield (intr a2)) eqn:Hy; [by split_and!|].
  split_and!; [done|done|done|done|cbn; lia|]. symmetry in H6. apply Z.leb_gt in H6. cbn. lia.
Qed.
End calls.
