(* ===== verification/LifeCalls.v ===== *)
(** What the calls of the machine do that create and end threads: the parts of
    [thread_create], with the lock of the thread identifiers in between;
    [thread_exit]; and the first code of a new thread. *)
From Stdlib Require Import FunctionalExtensionality.
From S2P Require Import Prelude Env Kernel Thread Mlfqs Ready Sched SchedSpec Wait Donation.
From S2P Require Import Synch SemaSpec LockSpec Lifecycle Timer TimerSpec Places Roster Machine Calls.

Section calls.
Context {E : Env} {EL : EnvLaws E} {F : SwitchFrames} (D : gset sema_ptr).

Lemma prog_bind_unit (p : prog unit) : (p ≫= λ _, Ret ()) = p.
Proof.
  transitivity (prog_bind p Ret); [|apply prog_bind_ret_r].
  apply (f_equal (prog_bind p)), functional_extensionality. by intros [].
Qed.

(** ** Making a thread *)

Lemma ready_born t th all q (a : aview) :
  thread_mlfqs a = false → ready a q → (∀ u, u ∈ q → u ≠ t) → ready (with_born t th all a) q.
Proof.
  intros Hm [[_ Hr]|[? _]] Hq; [|congruence]. left. split; [done|]. cbn.
  by rewrite !lookup_insert_ne.
Qed.

Lemma in_hand_born Y n t th all (a : aview) :
  in_hand D Y n a → threads a !! t = None → well_made th → status th = THREAD_BLOCKED →
  in_hand D ({[t]} ∪ Y) n (with_born t th all a).
Proof.
  intros (q & ss & W & Hpl & Hr) Ht Hok Hst. exists q, ss, W.
  assert (Hne : ∀ u st, has_status a u st → u ≠ t)
    by (intros u st Hu ->; unfold has_status in Hu; by rewrite Ht in Hu).
  split.
  - pose proof (placed_fresh _ _ _ _ _ _ _ _ _ Hpl Ht Hok) as H.
    apply placed_to_aside in H.
    + apply (placed_view _ _ _ _ _ _ _ _ H); try done.
      * intros l Hl. cbn. by destruct l; rewrite ?lookup_insert_ne by done.
      * intros e He Hu _. by apply unlinked_born; [|destruct e].
    + intros Hx. destruct (pl_self Hpl t Hx). congruence.
    + intros Hi. destruct (pl_idle Hpl) as (i & Hi' & [x Hx] & _). cbn in Hi. congruence.
    + left. unfold has_status. cbn. by rewrite lookup_insert_eq, <- Hst.
  - apply ready_born; [by eapply pl_prio|done|]. intros u Hu.
    destruct (pl_q Hpl _ Hu) as (_ & _ & Hs). by eapply Hne.
Qed.

Lemma running_ok_born Y l t th all (a : aview) :
  running_ok D Y l a → threads a !! t = None → well_made th → status th = THREAD_BLOCKED →
  running_ok D ({[t]} ∪ Y) l (with_born t th all a).
Proof.
  intros (Hl & Hctx & Hin & Hst & Ht) Hn Hok Hs. split_and!; try done; try apply Ht.
  - by apply in_hand_born.
  - unfold has_status in *. cbn. rewrite lookup_insert_ne; [done|]. intros ->.
    by rewrite Hn in Hst.
Qed.

(** The threads that sleep are in their places. *)
Lemma sleeper_some Y n (a : aview) t : in_hand D Y n a → sleeps a t → is_Some (threads a !! t).
Proof.
  intros (q & ss & W & Hpl & _) Ht. pose proof (sleeps_in _ _ _ (pl_sleep Hpl) Ht) as Hin.
  destruct (pl_ss Hpl _ Hin) as [(_ & _ & Hst) _]. unfold has_status in Hst.
  by destruct (threads a !! t).
Qed.

Lemma changes_born Y name prio t th all (a : aview) :
  in_hand D Y (running a) a → roster a → lists a !! all_list = Some (thread_allelem <$> all) →
  t ∉ pages a → ident th = (None, false) →
  changes D true (OMake name prio) (Returns (RThread (Some t))) a (with_born t th all a).
Proof.
  intros Hin Hr Hall Ht Hid. pose proof (roster_fresh _ _ Hr Ht) as Hnew. split.
  - refine (conj eq_refl (conj _ (asleep_awake _ _ _ _ _ _))); [|done|].
    + intros sm ws _ H. unfold waits in *. cbn. by rewrite !lookup_insert_ne.
    + split_and!; [done|cbn; by rewrite !lookup_insert_ne|]. intros u Hu.
      destruct (sleeper_some _ _ _ _ Hin Hu) as [x Hx]. unfold thread_wakeup. cbn.
      rewrite lookup_insert_ne; [done|congruence].
  - split_and!; [done| | |by apply idents_none|done].
    + intros _. apply roster_born; try done. intros Hd. unfold ident in Hid.
      by rewrite bool_decide_true in Hid.
    + by rewrite idents_born, Hid.
Qed.

Lemma highest_born n t th all (a : aview) :
  highest n a → threads a !! t = None → is_Some (threads a !! n) → status th = THREAD_BLOCKED →
  highest n (with_born t th all a).
Proof.
  intros Hh Ht Hn Hst. assert (n ≠ t) by (intros ->; rewrite Ht in Hn; by destruct Hn).
  apply (highest_ext _ a); [done|done| |].
  - intros u Hu. unfold has_status, thread_priority in *. cbn in *. destruct (decide (u = t)) as [->|Hne].
    + rewrite lookup_insert_eq in Hu. cbn in Hu. congruence.
    + by rewrite lookup_insert_ne in * by done.
  - unfold thread_priority. cbn. by rewrite lookup_insert_ne.
Qed.

Lemma call_make Y name prio (a : aview) :
  running_ok D Y INTR_ON a → roster a → PRI_MIN ≤ prio ≤ PRI_MAX → call_ok D (OMake name prio) a.
Proof.
  intros Hok Hr Hp. pose proof (running_ok_in_hand _ _ _ _ Hok) as Hin.
  pose proof Hin as (q & ss & W & Hpl & _). pose proof (pl_prio Hpl) as Hm.
  apply apwp_Act, awp_palloc_get_page.
  - apply apwp_ret. apply gives_back_same; [exact id|done|done|done|done|..]; [by exists Y|].
    by apply changes_refl.
  - intros t Ht. destruct (ro_all Hr) as (all & Hall & Hlive). apply apwp_Act.
    assert (Hdead : ¬ live a t).
    { intros [f Hf]. apply Ht, (ro_pages Hr), idents_is_Some. by rewrite Hf. }
    eapply (awp_init_thread t name prio 0 0 all); [done| |exact Hall|by apply (ro_allelem Hr)|].
    { unfold inherits. cbn. by rewrite Hm. }
    unfold born. cbn [thread_mlfqs set_pages]. rewrite Hm. cbn [andb].
    apply apwp_Act. eapply awp_store_at; [done|]. apply apwp_Act. eapply awp_store_at; [done|].
    apply apwp_ret. match goal with |- context [<[t := ?th]> _] => set (th2 := th) end.
    change (set_threads _ _) with (with_born t th2 all a).
    refine (conj _ (conj eq_refl (conj eq_refl (conj _ _)))).
    3:{ split; [|by right]. intros [[]|Hh]. apply highest_born; [done|by apply roster_fresh| |done].
        destruct Hok as (_ & _ & _ & Hst & _). unfold has_status in Hst.
        change (running (with_born _ _ _ a)) with (running a). by destruct (threads a !! running a). }
    + exists Y. split; [done|]. apply running_ok_born; [done|by apply roster_fresh|by split_and!; try apply Hp|done].
    + by apply (changes_born Y).
Qed.

(** ** Thread identifiers *)

(** A stretch of a call that does nothing but give up the processor now and then
    is under way: it began in [s] and has come to [a], with interrupts at level
    [l]. *)
Definition under_way (o : op) (t : tptr) (i : option tptr) (l : intr_level) (s a : aview) : Prop :=
  running s = t ∧ running a = t ∧ idle_thread s = i ∧ idle_thread a = i ∧ roster a ∧
  (∃ Y, in_hand D Y t s ∧ running_ok D Y l a) ∧ ∀ x, changes D false o x s a.

Section under_way.
Context (o : op) (t : tptr) (i : option tptr).
Hypothesis Hquiet : quiet o.
Hypothesis Hsteady : steady o.

#[local] Notation going := (under_way o t i).

Lemma going_back (c : aview) : back D t i c → going INTR_OFF c c.
Proof.
  intros (Hrun & Hi & Hr & _ & Y & Hok). split_and!; try done.
  - exists Y. split; [|done]. rewrite <- Hrun. by eapply running_ok_in_hand.
  - intros x. apply changes_same; [done|by left|done..].
Qed.

(** The rest of a stretch does nothing of importance. *)
Lemma going_ext l l' (s a b : aview) :
  going l s a → (∀ Y, running_ok D Y l a → running_ok D Y l' b) → running b = running a →
  idle_thread b = idle_thread a → semas b = semas a →
  (∀ sm, lists b !! sema_waiters sm = lists a !! sema_waiters sm) → sleep_frame a b → persist a b →
  going l' s b.
Proof.
  intros (H1 & H2 & H3 & H4 & Hr & (Y & Hin & Hok) & Hch) Hok' Hrun Hi Hs Hw Hsl Hp.
  refine (conj H1 (conj _ (conj H3 (conj _ (conj _ (conj _ _)))))); [congruence|congruence|..].
  - by apply (persist_roster a); [| |rewrite Hs|].
  - exists Y. split; [done|by apply Hok'].
  - intros x. by apply (changes_ext _ _ _ _ _ a).
Qed.

Lemma going_level l l' (s a : aview) : going l s a → going l' s (restored l' a).
Proof.
  intros H. apply (going_ext l l' s a); [done|intros Y; apply running_ok_level|done..|].
  by apply persist_threads.
Qed.

Lemma going_sched l (s a : aview) :
  going l s a → ∃ q cur, sched_ok a q cur ∧ lists a !! ready_list = Some (elems q) ∧
    iv_context (intr a) = false ∧ PRI_MIN ≤ base_priority cur ≤ PRI_MAX.
Proof.
  intros (_ & _ & _ & _ & _ & (Y & _ & Hok) & _).
  destruct Hok as (_ & Hctx & (q & ss & W & Hpl & Hr) & Hst & _).
  destruct (placed_sched_ok D Y _ _ _ _ Hpl Hr Hst) as [cur Hs]. exists q, cur.
  pose proof Hs as ((Hc & _) & _). destruct (pl_threads Hpl _ _ Hc) as (_ & _ & Hb).
  split_and!; [done| |done|apply Hb|apply Hb]. destruct Hr as [[_ Hr]|[Hm _]]; [done|].
  rewrite (pl_prio Hpl) in Hm. done.
Qed.

Lemma off_restored l (a : aview) : iv_level (intr a) = INTR_OFF → intr_off (restored l a) = a.
Proof. destruct a as [? [lv ? ?]]. cbn. by intros ->. Qed.

Lemma restored_off l (a : aview) : iv_level (intr a) = l → restored l (intr_off a) = a.
Proof. destruct a as [? [lv ? ?]]. cbn. by intros ->. Qed.

(** A yield, when a ready thread has a higher priority. *)
Lemma going_gives l (s a : aview) q n (b : aview) :
  going l s a → ready a q → handed (marked THREAD_READY (intr_off a)) (requeue a q) n b →
  gives D false o s n b.
Proof.
  intros (H1 & H2 & H3 & H4 & _ & (Y & Hin & Hok) & Hch) Hr Hh.
  destruct Hok as (_ & Hctx & (q' & ss & W & Hpl & Hr') & Hst & _).
  rewrite <- (ready_unique q q' a) in Hpl; [|by eapply pl_prio|done..].
  eapply (handed_gives D false o s (marked THREAD_READY (intr_off a)) Y Y (requeue a q) ss W);
    try done.
  - by rewrite H1.
  - intros x. by apply quiet_aside.
  - by cbn; congruence.
  - by cbn; congruence.
  - by apply placed_requeue.
  - intros x. apply changes_marked; [done| |apply Hch]. by eapply running_not_dying.
Qed.

#[local] Notation wait := (swp (gives D false o) (back D t i)).

Lemma swp_yield_going {A} (k : unit → prog A) Q l s q cur (a : aview) :
  going l s a → sched_ok a q cur → iv_context (intr a) = false → preempts a q = true →
  (∀ s' a', going l s' a' → highest t a' → wait s' (k ()) Q a') → wait s (thread_yield ≫= k) Q a.
Proof.
  intros Hg Hs Hctx Hpre Hk. pose proof Hs as (_ & _ & Hr & _). apply swp_fold.
  assert (Hl : iv_level (intr a) = l)
    by (destruct Hg as (_ & _ & _ & _ & _ & (Y & _ & Hok) & _); apply Hok).
  destruct (preempts_next a q cur Hs Hpre) as (n & Hn & Hne & _).
  eapply apwp_mono; [eapply (apwp_yielded_bind k (back D t i) (λ b,
    stretch (gives D false o) (back D t i) (λ s p, wait s p Q) Q (intr_off b)) a q cur Hs Hctx)|].
  - congruence.
  - intros b bcur _ Hlb Hb. apply swp_unfold. apply Hk.
    + rewrite <- (restored_off l b) at 2 by congruence. by apply (going_level INTR_OFF), going_back.
    + by destruct Hb as (<- & _ & _ & Hh & _).
  - intros out b (n' & a1 & Hn' & Hr1 & Hf & Hu & Ho).
    assert (n' = n) as -> by (change (next_of a (requeue a q) = Some n') in Hn'; congruence).
    rewrite decide_False in Ho by done. destruct Ho as (k' & -> & -> & Hres). split.
    + apply (going_gives l s a q); [done|done|]. by split_and!.
    + intros prev c Hc HC. apply swp_fold. specialize (Hres prev c Hc HC).
      assert (Heq : intr_off (restored (iv_level (intr a)) (resumed (Some prev) c))
        = resumed (Some prev) c).
      { destruct HC as (_ & _ & _ & _ & Y & Hlc & _). by apply off_restored. }
      cbv beta in Hres. by rewrite Heq in Hres.
Qed.

(** The checks for preemption: after them no ready thread is ahead. *)
Lemma going_ahead l s q cur (a : aview) :
  going l s a → sched_ok a q cur → preempts a q = false → highest t a.
Proof.
  intros (_ & <- & _ & _ & _ & (Y & _ & Hok) & _) Hs Hpre. pose proof Hs as (_ & _ & Hr & _).
  destruct Hok as (_ & _ & (q' & ss & W & Hpl & Hr') & _).
  rewrite <- (ready_unique q q' a) in Hpl; [|by eapply pl_prio|done..]. by eapply not_preempted.
Qed.

Lemma swp_check_going {A} (k : unit → prog A) Q l s q cur (a : aview) :
  going l s a → sched_ok a q cur → iv_context (intr a) = false →
  (∀ s' a', going l s' a' → highest t a' → wait s' (k ()) Q a') →
  wait s ((if preempts a q then thread_yield else mret ()) ≫= k) Q a ∧
  wait s ((if preempts a q then yield_or_return else mret ()) ≫= k) Q a.
Proof.
  intros Hg Hs Hctx Hk. destruct (preempts a q) eqn:Hpre.
  2:{ pose proof (going_ahead _ _ _ _ _ Hg Hs Hpre). by split; apply Hk. }
  assert (Hy : wait s (thread_yield ≫= k) Q a) by by eapply swp_yield_going.
  split; [done|]. apply swp_assoc, swp_act_bind, awp_intr_context. by rewrite Hctx.
Qed.

Lemma swp_preempt_going {A} (k : unit → prog A) Q l s (a : aview) :
  going l s a → (∀ s' a', going l s' a' → highest t a' → wait s' (k ()) Q a') →
  wait s (preempt ≫= k) Q a.
Proof.
  intros Hg Hk. destruct (going_sched _ _ _ Hg) as (q & cur & Hs & _ & Hctx & _).
  pose proof Hs as (Hc & Hp & Hr & _ & Hv). apply swp_fold.
  eapply apwp_preempt_bind; [done..|]. apply swp_unfold. by eapply swp_check_going.
Qed.

Lemma swp_yield_if_necessary_going {A} (k : unit → prog A) Q l s (a : aview) :
  going l s a → (∀ s' a', going l s' a' → highest t a' → wait s' (k ()) Q a') →
  wait s (thread_yield_if_necessary ≫= k) Q a.
Proof.
  intros Hg Hk. destruct (going_sched _ _ _ Hg) as (q & cur & Hs & Hq & Hctx & _).
  pose proof Hs as (Hc & Hp & Hr & _ & Hv). apply swp_fold.
  eapply apwp_yield_if_necessary; [done..|]. apply swp_unfold. by eapply swp_check_going.
Qed.

(** A thread that holds no locks gets its base priority back. *)
Lemma swp_refresh_going {A} (k : unit → prog A) Q l s (a : aview) :
  going l s a → (∀ a', going l s a' → wait s (k ()) Q a') →
  wait s (act (refresh_priority (Some t)) ≫= k) Q a.
Proof.
  intros Hg Hk. destruct (going_sched _ _ _ Hg) as (q & cur & Hs & Hq & Hctx & Hb).
  pose proof Hs as ((Hc & Hcok & Hcst) & _). pose proof Hg as (_ & Hrun & _ & _ & Hr & _).
  pose proof (ro_locks Hr (running a) ltac:(by eexists)) as Hls.
  apply swp_act_bind. rewrite <- Hrun at 1.
  apply (awp_refresh_fresh (running a) cur [] (λ _, [])); [done|done|..].
  { by intros l' ?%elem_of_nil. } { by intros l' w ?%elem_of_nil. }
  intros p (_ & _ & [->|(l' & w & Hl' & _)]); [|by apply elem_of_nil in Hl'].
  apply Hk. set (b := with_priority (base_priority cur) cur).
  apply (going_ext l l s a); try done.
  - intros Y (Hl & Hctx' & (q' & ss & W & Hpl & Hr') & Hst & Ht). split_and!; try done; try apply Ht.
    + exists q', ss, W. split.
      * apply placed_self; [done|by left|]. destruct (pl_threads Hpl _ _ Hc) as (Hw & _ & _).
        exact (conj Hw (conj Hb Hb)).
      * pose proof (placed_sched_ok D Y _ _ _ _ Hpl Hr' Hst) as [cur' Hs'].
        pose proof Hs' as ((Hc' & _) & _). assert (cur' = cur) as -> by congruence.
        by pose proof (sched_ok_with_current a q' cur b Hs' eq_refl eq_refl Hb) as (_ & _ & Hr1 & _).
    + unfold has_status. cbn. by rewrite lookup_insert_eq, <- Hcst.
  - split_and!; [done..|]. intros u _. by apply (wakeup_insert _ cur).
  - apply persist_threads; [done..| |done]. by apply (idents_insert _ cur).
Qed.

Lemma swp_release_rest_going {A} (k : unit → prog A) Q l l' s (a : aview) :
  going l s a → (∀ s' a', going l' s' a' → highest t a' → wait s' (k ()) Q a') →
  wait s (release_rest t l' ≫= k) Q a.
Proof.
  intros Hg Hk. apply swp_assoc. apply (swp_refresh_going _ _ l); [done|].
  intros a1 Hg1. apply swp_assoc. apply (swp_yield_if_necessary_going _ _ l); [done|].
  intros s2 a2 Hg2 Hh. apply swp_act_bind, awp_intr_set_level. apply Hk; [by eapply going_level|exact Hh].
Qed.
End under_way.

Lemma running_tid_free Y q ss W cur (a : aview) :
  roster a → placed D Y [running a] q ss W a → sched_ok a q cur → iv_context (intr a) = false →
  tid_free q cur a.
Proof.
  intros Hr Hpl Hs Hctx. pose proof Hs as (Hc & _). pose proof Hc as (Ht & _).
  destruct (pl_threads Hpl _ _ Ht) as (_ & _ & Hb).
  unfold tid_free, lock_free. split_and!; try done; try apply Hb; try apply Hr.
  - by eexists.
  - by eapply pl_prio.
Qed.

(** A call of [allocate_tid] that has taken its number. *)
Definition numbered (a : aview) : aview := intr_off (set_next_tid (int32 (next_tid a + 1)) a).

(** The rest of it. *)
Definition tid_rest (a : aview) : prog ret :=
  preempt ≫= λ _, release_rest (running a) (iv_level (intr a)) ≫= λ _, mret (RTid (next_tid a)).

Lemma apwp_tid_rest Y (a : aview) :
  running_ok D Y INTR_ON a → roster a →
  apwp (tid_rest a) (stretch (gives D true OTid) (back D (running a) (idle_thread a))
    (λ s p, swp (gives D false OTid) (back D (running a) (idle_thread a)) s p (gives_back D false OTid))
    (gives_back D true OTid) a) (numbered a).
Proof.
  intros Hok Hr. pose proof Hok as (Hl & Hctx & (q & ss & W & Hpl & Hrd) & Hst & Ht).
  destruct (placed_sched_ok D Y _ _ _ _ Hpl Hrd Hst) as [cur Hs].
  unfold tid_rest. set (C := back D (running a) (idle_thread a)).
  apply swp_unfold. rewrite Hl. set (i := idle_thread a) in *. set (t := running a) in *.
  change (gives D true OTid) with (gives D false OTid).
  apply (swp_preempt_going OTid t i) with (l := INTR_OFF); [done|..].
  - apply (going_level OTid t i INTR_ON). split_and!; try done.
    + apply (persist_roster a); [done|by apply persist_threads|done..].
    + exists Y. split; [by exists q, ss, W|]. split_and!; try done; try apply Ht.
      exists q, ss, W. split; [by eapply placed_ext|]. by eapply (rq_ext (rq := ready) a).
    + intros x. apply changes_same; [done|by left|done|done|by split_and!|by apply persist_threads].
  - intros s1 a1 Hg1 _. apply (swp_release_rest_going OTid t i) with (l := INTR_OFF);
      [done..|].
    intros s2 a2 (H1 & H2 & H3 & H4 & _ & (Y' & Hin & Hok') & Hch) Hh. apply swp_ret.
    refine (conj _ (conj _ (conj _ (conj (Hch _) _)))); [|congruence..|by rewrite <- H2 in Hh; apply outranks_now; [|left]].
    exists Y'. rewrite H1. by split.
Qed.

Lemma apwp_call_tid Y Q (a : aview) :
  running_ok D Y INTR_ON a → roster a → apwp (tid_rest a) Q (numbered a) → apwp (run_op OTid) Q a.
Proof.
  intros Hok Hr HQ. pose proof Hok as (Hl & Hctx & (q & ss & W & Hpl & Hrd) & Hst & Ht).
  destruct (placed_sched_ok D Y _ _ _ _ Hpl Hrd Hst) as [cur Hs].
  eapply (apwp_allocate_tid_start _ q cur); [by eapply running_tid_free|]. by intros b _.
Qed.

Lemma call_tid Y (a : aview) : running_ok D Y INTR_ON a → roster a → call_ok D OTid a.
Proof.
  intros Hok Hr. eapply apwp_call_tid; [done..|]. by eapply apwp_tid_rest.
Qed.

(** ** Starting a thread *)

(** The record of a thread whose stack leads it to [function (aux)]. *)
Definition framed (id : Z) (function : fn_ptr) (aux : aux_ptr) (th : thread) : thread :=
  with_stack (stack th - sizeof_kernel_thread_frame - sizeof_switch_entry_frame
    - sizeof_switch_threads_frame) (with_kframe (Some (KFrame function aux)) (with_tid id th)).

Lemma apwp_start_thread c id function aux th Q (a : aview) :
  threads a !! c = Some th → thread_ok th → frames_aligned →
  apwp (act (thread_unblock c);; preempt) Q
    (set_threads (<[c := framed id function aux th]> (threads a)) a) →
  apwp (start_thread c id function aux) Q a.
Proof.
  intros Hth Hok [Hal1 Hal2] HQ.
  assert (Hid : threads a = <[c := th]> (threads a)) by by rewrite insert_id.
  apply apwp_Act. eapply awp_store_at; [exact Hid|].
  apply apwp_Act. eapply awp_alloc_frame; [done..|]. apply apwp_Act. eapply awp_store_at; [done|].
  apply apwp_Act. eapply awp_alloc_frame; [done..|]. apply apwp_Act.
  eapply awp_alloc_frame; [done..|]. exact HQ.
Qed.

(** A thread that is aside is not asleep. *)
Lemma aside_awake Y n (a : aview) t : in_hand D Y n a → t ∈ Y → ¬ sleeps a t.
Proof.
  intros (q & ss & W & Hpl & _) Ht Hs. destruct (pl_Y Hpl t Ht) as (_ & _ & _ & Hn & _).
  by apply Hn, (sleeps_in _ _ _ (pl_sleep Hpl)).
Qed.

Lemma aside_some Y n (a : aview) t :
  in_hand D Y n a → t ∈ Y → ∃ th, threads a !! t = Some th ∧ well_made th ∧
    (live a t → status th = THREAD_BLOCKED).
Proof.
  intros (q & ss & W & Hpl & _) Ht. destruct (pl_Y Hpl t Ht) as (_ & _ & Hst & _).
  unfold has_status in Hst. destruct (threads a !! t) as [th|] eqn:Hth; [|by destruct Hst].
  exists th. split_and!; [done|by eapply pl_threads|].
  intros Hl. destruct Hst as [[= ?]|[= Hd]]; [done|].
  destruct (live_not_dying a t Hl). unfold has_status. rewrite Hth. cbn. by rewrite Hd.
Qed.

(** A started thread joins the ready threads. *)
Lemma placed_started Y X q ss W c th (a a1 : aview) :
  placed D Y X q ss W a → c ∈ Y → well_made th → status th = THREAD_READY →
  threads a1 = <[c := th]> (threads a) →
  sched_frame (set_threads (<[c := th]> (threads a)) a) a1 →
  (∀ e, unlinked (lists a) e → e ≠ thread_elem c → unlinked (lists a1) e) →
  placed D (Y ∖ {[c]}) X (enqueue (threads a1) c q) ss W a1.
Proof.
  intros Hpl Hc Hok Hst Hts [Ha1 Hl] Hu. destruct (pl_Y Hpl c Hc) as (Hx & Hi & _).
  set (b := set_threads _ a) in *.
  pose proof (placed_take_aside _ c _ _ _ _ _ _ Hpl Hc) as H.
  apply (placed_self _ _ _ _ _ _ c th) in H; [|by left|done]. fold b in H.
  apply placed_to_q in H.
  2:{ split_and!; [done|done|]. unfold has_status, b. cbn. by rewrite lookup_insert_eq, <- Hst. }
  assert (Heq : enqueue (threads a1) c q = enqueue (threads b) c q) by by rewrite Hts.
  rewrite Heq. apply (placed_frame _ _ _ _ _ _ _ _ H); [by rewrite Ha1..|done|].
  intros e He Hne. apply Hu; [done|]. intros ->. apply Hne.
  apply list_elem_of_fmap_2, elem_of_enqueue. by left.
Qed.

Lemma changes_started Y c id function aux th x (a a1 : aview) :
  in_hand D Y (running a) a → c ∈ Y → live a c → kframe th = Some (KFrame function aux) →
  status th ≠ THREAD_DYING → threads a1 = <[c := th]> (threads a) →
  sched_frame (set_threads (<[c := th]> (threads a)) a) a1 →
  (∀ e, unlinked (lists a) e → e ≠ thread_elem c → unlinked (lists a1) e) →
  changes D true (OStart c id function aux) x a a1.
Proof.
  intros Hin Hc Hlive Hk Hst Hts [Ha1 Hl] Hu.
  assert (Hf : ticks a1 = ticks a ∧ semas a1 = semas a ∧ initial_thread a1 = initial_thread a ∧
    holders a1 = holders a ∧ pages a1 = pages a) by by rewrite Ha1.
  destruct Hf as (Htk & Hs & Hit & Hh & Hp).
  assert (Hid : idents a1 = <[c := (Some (KFrame function aux), false)]> (idents a)).
  { unfold idents. rewrite Hts, fmap_insert. unfold ident at 1. by rewrite Hk, bool_decide_false. }
  split.
  - refine (conj _ (conj _ (asleep_awake _ _ _ _ _ _))); [by rewrite Hs; destruct x|..|done|].
    + intros sm ws _ H. unfold waits in *. rewrite Hl by done. by destruct x.
    + split_and!; [done|by apply Hl|]. intros u Hus. unfold thread_wakeup.
      rewrite Hts, lookup_insert_ne; [done|]. intros ->. by eapply aside_awake.
  - split_and!; [done| |by rewrite Hid|done|done]. intros Hr.
    destruct (aside_some _ _ _ _ Hin Hc) as (th0 & Hth0 & _).
    apply (roster_by a); rewrite ?Hs, ?Hh, ?Hp; try done.
    + intros u. unfold live. rewrite Hid. destruct (decide (u = c)) as [->|Hne].
      * rewrite lookup_insert_eq. split; [done|]. intros _. by eexists.
      * by rewrite lookup_insert_ne.
    + intros u. rewrite Hts. intros [->|[_ ?]]%lookup_insert_is_Some; [|done].
      split; [by exists th0|done].
    + intros l Hr'. rewrite Hl; [done|]. by destruct l.
    + intros e He Hun. apply Hu; [done|]. by intros ->.
    + by apply Hl.
Qed.

Lemma call_start Y c id function aux (a : aview) :
  running_ok D Y INTR_ON a → c ∈ Y → live a c → frames_aligned →
  call_ok D (OStart c id function aux) a.
Proof.
  intros Hok Hc Hlive Hal. pose proof Hok as (Hl & Hctx & (q & ss & W & Hpl & Hr) & Hst & Ht).
  pose proof (running_ok_in_hand _ _ _ _ Hok) as Hin. apply apwp_void.
  destruct (placed_sched_ok D Y _ _ _ _ Hpl Hr Hst) as [cur Hs].
  destruct (aside_some _ _ _ _ Hin Hc) as (th & Hth & Hwm & Hbl). specialize (Hbl Hlive).
  pose proof Hwm as (Hmagic & Hprio & _). destruct (pl_Y Hpl c Hc) as (HcX & _ & _ & _ & HcW).
  assert (Hne : c ≠ running a) by (intros ->; apply HcX; by left).
  assert (Hcq : c ∉ q).
  { intros Hq. destruct (pl_q Hpl _ Hq) as (_ & _ & Hr'). unfold has_status in Hr'.
    rewrite Hth in Hr'. injection Hr' as Hr'. congruence. }
  apply (apwp_start_thread _ _ _ _ th); [done..|]. set (th8 := framed id function aux th).
  set (b := set_threads _ a).
  rewrite <- (prog_bind_unit preempt).
  eapply (apwp_created b c th8 q cur ()); [apply lookup_insert_eq|done|done|done| |by apply (pl_elem Hpl)|].
  { pose proof Hs as ((Hcur & Hcok & Hcst) & Hp & _ & Hu & Hv). split; [|by apply (pl_prio Hpl)].
    refine (conj _ (conj Hp (conj _ (conj Hu _)))).
    - split_and!; [|done..]. cbn. by rewrite lookup_insert_ne.
    - eapply (rq_ext (rq := ready) a); [done..|]. intros u _.
      by apply (thread_priority_insert _ _ th).
    - intros u Hu'. destruct (Hv u Hu') as (uth & Huth & ?). exists uth. cbn.
      rewrite lookup_insert_ne; [done|]. by intros <-. }
  intros a1 out a' Hts Hf Hs1 Hu1. cbn [threads b set_threads] in Hts, Hf.
  set (th9 := with_status THREAD_READY th8) in *.
  assert (Hts1 : threads a1 = <[c := th9]> (threads a)) by (rewrite Hts; apply insert_insert_eq).
  assert (Hf1 : sched_frame (set_threads (<[c := th9]> (threads a)) a) a1).
  { unfold b in Hf. cbn in Hf. by rewrite insert_insert_eq in Hf. }
  pose proof (placed_started Y _ _ _ _ c th9 a a1 Hpl Hc Hwm eq_refl Hts1 Hf1 Hu1) as Hpl1.
  assert (Hfields : running a1 = running a ∧ idle_thread a1 = idle_thread a ∧ intr a1 = intr a ∧
    thread_ticks a1 = thread_ticks a) by (destruct Hf1 as [-> _]; done).
  destruct Hfields as (H1 & H2 & H3 & H4). rewrite <- H1 in Hpl1. rewrite <- H1, <- H2.
  pose proof Hs1 as ((Hc1 & _ & Hst1) & _ & Hr1 & _).
  apply (stretch_checked D true (OStart c id function aux) a a1 Y (Y ∖ {[c]}) _ ss W);
    rewrite ?H3, ?H4; try done.
  - unfold has_status. by rewrite Hc1, <- Hst1.
  - intros x. by eapply (changes_started Y c id function aux th9).
Qed.

(** ** Exiting *)

Definition exit_ok (a : aview) : Prop :=
  apwp (run_op OExit) (λ out b, ∃ n k, out = OSwitch n k ∧ gives D true OExit a n b) a.

Lemma placed_exited Y q ss W l r (a : aview) :
  placed D Y [running a] q ss W a → Some (running a) ≠ idle_thread a →
  placed D ({[running a]} ∪ Y) [] q ss W (marked THREAD_DYING (exited l r a)).
Proof.
  intros Hpl Hi.
  assert (Hpl1 : placed D Y [running (exited l r a)] q ss W (exited l r a)).
  { apply (placed_view _ _ _ _ _ _ _ _ Hpl); try done.
    - intros l' Hl'. cbn. rewrite lookup_insert_ne; [done|]. by intros <-.
    - intros e He Hu _. cbn. apply unlinked_insert; [done|].
      by intros (u & -> & _)%list_elem_of_fmap. }
  destruct (placed_marked _ _ THREAD_DYING _ _ _ _ Hpl1) as [Hpl2 Hst2].
  apply (placed_to_aside _ (running a)); [exact Hpl2|apply not_elem_of_nil|exact Hi|by right].
Qed.

Lemma changes_exited Y x l r (a : aview) :
  in_hand D Y (running a) a → lists_wf (lists a) →
  lists a !! all_list = Some (thread_allelem <$> (l ++ running a :: r)) → 
  changes D true OExit (Yields x) a (marked THREAD_DYING (exited l r a)).
Proof.
  intros Hin Hwf Hall. split.
  - refine (conj eq_refl (conj _ (asleep_awake _ _ _ _ _ _))); [|done|].
    + intros sm ws _ H. unfold waits in *. cbn. by rewrite lookup_insert_ne.
    + split_and!; [done|cbn; by rewrite lookup_insert_ne|]. intros u _. cbn. by apply wakeup_alter.
  - split_and!; [done| |apply idents_exited|done|done]. intros Hr. by apply roster_exited.
Qed.

Lemma call_exit Y (a : aview) :
  running_ok D Y INTR_ON a → roster a → Some (running a) ≠ idle_thread a → exit_ok a.
Proof.
  intros Hok Hro Hi. pose proof Hok as (Hl & Hctx & (q & ss & W & Hpl & Hr) & Hst & Ht).
  pose proof (running_ok_in_hand _ _ _ _ Hok) as Hin.
  destruct (placed_sched_ok D Y _ _ _ _ Hpl Hr Hst) as [cur Hs]. pose proof Hs as (Hc & _ & _ & _ & Hv).
  assert (Hn : ∃ n, next_of a q = Some n ∧ valid a n ∧ n ≠ running a).
  { destruct q as [|u q].
    - destruct (placed_idle_valid D Y _ _ _ _ _ Hpl) as (i & Hi' & ?). exists i.
      split_and!; [done|done|]. congruence.
    - exists u. split_and!; [done|apply Hv; by left|]. intros ->.
      destruct (pl_q Hpl (running a)) as (Hx & _); [by left|]. apply Hx. by left. }
  destruct Hn as (n & Hn & Hvn & Hne). destruct (ro_all Hro) as (all & Hall & Hlive).
  assert (Hself : running a ∈ all) by (apply Hlive; by eapply live_status).
  apply list_elem_of_split in Hself as (l & r & ->). apply apwp_wf. intros Hwf.
  apply apwp_bind. eapply apwp_mono; [by apply (thread_exits l r q cur n)|].
  intros out b (n' & a1 & Hn' & Hr1 & Hf & Hu & Ho).
  assert (n' = n) as -> by (change (next_of a q = Some n') in Hn'; congruence).
  rewrite decide_False in Ho by done. destruct Ho as (k & -> & -> & _). cbn [out_bind].
  eexists n, _. split; [done|].
  assert (Hh : handed (marked THREAD_DYING (exited l r a)) q n a1) by by split_and!.
  split; [exists Y; split; [done|]|].
  - eapply (handed_handover D); [..|exact Hh]; try done. by apply placed_exited.
  - refine (conj _ (conj _ I)); [by destruct Hf as [-> _]|].
    eapply changes_frame; [|exact Hf|exact Hu]. by eapply (changes_exited Y).
Qed.

(** ** Beginning *)

Lemma begin_runs prev th kf Q (a : aview) :
  can_resume prev a → iv_context (intr a) = false → threads a !! running a = Some th →
  kframe th = Some kf → Q (ODone RUnit) (restored INTR_ON (resumed (Some prev) a)) →
  apwp (begin prev) Q a.
Proof.
  intros Hres Hctx Hth Hk HQ. apply apwp_Act, awp_get_running.
  apply apwp_Act. eapply awp_deref; [exact Hth|].
  apply apwp_Act. eapply awp_lift_opt; [exact Hk|].
  apply apwp_Act, awp_thread_schedule_tail; [done|].
  apply apwp_Act, awp_intr_enable; [by rewrite resumed_intr|]. by apply apwp_ret.
Qed.

(** ** Every allowed call is fine *)

Lemma call_allowed Y o mk (a : aview) :
  frames_aligned → running_ok D Y INTR_ON a → roster a →
  (∀ t u, mk !! t = Some u → t ∈ Y ∧ live a t) → allowed o mk a → o ≠ OExit → call_ok D o a.
Proof.
  intros Hal Hok Hr Hmk Ha Hne.
  assert (HD : ∀ sm, is_Some (semas a !! sm) → sm ∈ D).
  { intros sm Hs. destruct Hok as (_ & _ & (q & ss & W & Hpl & _) & _). by apply (pl_semas Hpl). }
  destruct o; simpl in Ha; destruct Ha as [Hi Ha]; try done.
  - by eapply call_yield.
  - destruct Ha as [Hs Hv]. apply (call_down D Y); auto.
  - destruct Ha as (Hs & v & Hv & Hlt). by eapply call_up.
  - destruct Ha as [Hs Hv]. by eapply call_try_down.
  - by eapply call_sleep.
  - by eapply call_set_priority.
  - by eapply call_make.
  - by eapply call_tid.
  - destruct (Hmk _ _ Ha). by eapply call_start.
  - by eapply call_idle.
Qed.
End calls.
