(* ===== verification/Tally.v ===== *)
(** Code that leaves the kernel's counters alone: the ticks, the ticks of the idle
    thread, of the kernel and of users, and the next thread identifier.  Only the
    timer interrupt and [allocate_tid] count; all other code of the machine
    spares the counters in every stretch, whatever state it runs in. *)
From S2P Require Import Prelude Env Kernel Thread Mlfqs Donation Ready Sched.
From S2P Require Import Synch LockSpec Lifecycle Timer Machine.

(** The counters. *)
Definition tally {L I P} (s : kst L I P) : Z * Z * Z * Z * Z :=
  (ticks s, idle_ticks s, kernel_ticks s, user_ticks s, next_tid s).

Create HintDb spares.

Section spares.
Context {E : Env}.

Definition spares_k {A} (m : K A) : Prop := ∀ s x s', m s = Ok (x, s') → tally s' = tally s.

(** By the structure of the code; [R] holds of what it returns. *)
Fixpoint spares {A} (R : A → Prop) (p : prog A) : Prop :=
  match p with
  | Ret a => R a
  | Act f k => spares_k f ∧ ∀ b, spares R (k b)
  | Switch n k => ∀ t, spares R (k t)
  | Loop body x k => (∀ y, spares (λ _, True) (body y)) ∧ ∀ b, spares R (k b)
  end.

Lemma spares_mono {A} (R R' : A → Prop) (p : prog A) :
  (∀ a, R a → R' a) → spares R p → spares R' p.
Proof.
  revert R R'. induction p as [A a|A B f k IH|A n k IH|A X B body _ x k IH]; simpl; intros R R' HR.
  - auto.
  - intros [? ?]. split; [done|]. eauto.
  - eauto.
  - intros [? ?]. split; [done|]. eauto.
Qed.

Lemma spares_bind {A B} (R : A → Prop) (R' : B → Prop) (p : prog A) (f : A → prog B) :
  spares R p → (∀ a, R a → spares R' (f a)) → spares R' (p ≫= f).
Proof.
  unfold mbind, prog_mbind. revert R f.
  induction p as [A a|A C g k IH|A n k IH|A X C body _ x k IH]; simpl; intros R f.
  - auto.
  - intros [? ?] Hf. split; [done|]. eauto.
  - eauto.
  - intros [? ?] Hf. split; [done|]. eauto.
Qed.

Lemma spares_then {A B} (R : B → Prop) (p : prog A) (f : A → prog B) :
  spares (λ _, True) p → (∀ a, spares R (f a)) → spares R (p ≫= f).
Proof. intros Hp Hf. by eapply spares_bind. Qed.

Lemma spares_act {A} (m : K A) : spares_k m → spares (λ _, True) (act m).
Proof. by split. Qed.

Lemma spares_Act {A B} (R : A → Prop) (f : K B) k :
  spares_k f → (∀ b, spares R (k b)) → spares R (Act f k).
Proof. by split. Qed.

Lemma spares_ret {A} (R : A → Prop) (x : A) : R x → spares R (mret x).
Proof. done. Qed.

Lemma spares_loop {X B} (body : X → prog (X + B)) x :
  (∀ y, spares (λ _, True) (body y)) → spares (λ _, True) (loop body x).
Proof. by split. Qed.

(** A stretch keeps the counters, and so does the rest. *)
Lemma spares_exec {A} (p : prog A) s o s' :
  exec p s o s' → ∀ R : A → Prop, spares R p → tally s' = tally s ∧
    match o with
    | ODone a => R a
    | OSwitch _ k => ∀ t, spares R (k t)
    | OFault _ => True
    end.
Proof.
  induction 1 as [a s|B f k s b s1 o s2 Hf _ IH|B f k s e Hf|n k s|X B body x k s o s' _ IH];
    simpl; intros R.
  - done.
  - intros [Hk Hr]. destruct (IH R (Hr b)) as [-> ?]. by rewrite (Hk _ _ _ Hf).
  - done.
  - done.
  - intros [Hb Hk]. apply IH. apply (spares_bind (λ _, True)); [apply Hb|].
    intros [y|b] _; [done|apply Hk].
Qed.

(** ** Actions *)

Lemma spares_k_ret {A} (x : A) : spares_k (mret x).
Proof. by intros s y s' [= _ <-]. Qed.

Lemma spares_k_bind {A B} (m : K A) (f : A → K B) :
  spares_k m → (∀ a, spares_k (f a)) → spares_k (m ≫= f).
Proof.
  intros Hm Hf s y s'. unfold mbind, K_bind. destruct (m s) as [[a s1]|] eqn:Ha; [|done].
  intros H. by rewrite (Hf a _ _ _ H), (Hm _ _ _ Ha).
Qed.

Lemma spares_k_fail {A} e : spares_k (fail e : K A).
Proof. done. Qed.

Lemma spares_k_gets {A} (f : kstate → A) : spares_k (gets f).
Proof. by intros s x s' [= _ <-]. Qed.

Lemma spares_k_modify (f : kstate → kstate) : (∀ s, tally (f s) = tally s) → spares_k (modify f).
Proof. intros Hf s x s' [= _ <-]. apply Hf. Qed.
End spares.

(** What an action does to the state can be read off its code. *)
Ltac by_stepping :=
  intros ? ? ?; intros;
  repeat match goal with
    | H : match ?x with _ => _ end = _ |- _ => destruct x; try discriminate
    | H : Ok _ = Ok _ |- _ => injection H as <- <-
    end; reflexivity.

Ltac spare_step :=
  cbv zeta;
  lazymatch goal with
  | |- spares_k _ =>
      first
        [ solve [auto 1 with spares nocore]
        | simple apply spares_k_bind; [|intros ?]
        | apply spares_k_ret | apply spares_k_fail | apply spares_k_gets
        | apply spares_k_modify; intros; reflexivity
        | match goal with |- spares_k (match ?x with _ => _ end) => destruct x end ]
  | |- spares _ _ =>
      first
        [ solve [auto 1 with spares nocore]
        | simple apply spares_ret; exact I
        | simple apply spares_act
        | simple apply spares_loop; intros ?
        | simple apply spares_then; [|intros ?]
        | simple apply spares_Act; [|intros ?]
        | match goal with |- spares _ (match ?x with _ => _ end) => destruct x end ]
  end.
Ltac spare := repeat spare_step.

Section actions.
Context {E : Env}.

Lemma deref_spares t : spares_k (deref t).
Proof. unfold deref. by_stepping. Qed.
Lemma store_spares t f : spares_k (store t f).
Proof. unfold store. by_stepping. Qed.
Lemma sema_value_spares sm : spares_k (sema_value sm).
Proof. unfold sema_value. by_stepping. Qed.
Lemma lock_holder_spares l : spares_k (lock_holder l).
Proof. unfold lock_holder. by_stepping. Qed.
Lemma pop_front_spares l : spares_k (k_list_pop_front l).
Proof. unfold k_list_pop_front. by_stepping. Qed.
Lemma intr_disable_spares : spares_k k_intr_disable.
Proof. unfold k_intr_disable. by_stepping. Qed.
Lemma intr_enable_spares : spares_k k_intr_enable.
Proof. unfold k_intr_enable. by_stepping. Qed.
Lemma palloc_get_spares : spares_k k_palloc_get_page.
Proof. unfold k_palloc_get_page. by_stepping. Qed.
Lemma assert_spares b site : spares_k (ASSERT b site).
Proof. unfold ASSERT. spare. Qed.
Lemma lift_opt_spares {A} e (o : option A) : spares_k (lift_opt e o).
Proof. unfold lift_opt. spare. Qed.
End actions.
#[export] Hint Resolve deref_spares store_spares sema_value_spares lock_holder_spares pop_front_spares
  intr_disable_spares intr_enable_spares palloc_get_spares assert_spares lift_opt_spares : spares.

(** ** The kernel's functions *)

Section loops.
Context {E : Env}.

Lemma list_for_spares l body : (∀ e, spares_k (body e)) → spares_k (list_for l body).
Proof.
  intros Hb. assert (H : ∀ n e, spares_k (list_for_from n e body)).
  { induction n as [|n IH]; intros [e|]; simpl; spare. }
  unfold list_for. spare.
Qed.

Lemma list_for_safe_spares l body : (∀ e, spares_k (body e)) → spares_k (list_for_safe l body).
Proof.
  intros Hb. assert (H : ∀ n e, spares_k (list_for_safe_from n e body)).
  { induction n as [|n IH]; intros [e|]; simpl; spare. }
  unfold list_for_safe. spare.
Qed.

Lemma for_each_spares {A} (xs : list A) body : (∀ x, spares_k (body x)) → spares_k (for_each xs body).
Proof. intros Hb. induction xs as [|x xs IH]; simpl; spare. Qed.

Lemma drain_spares l body : spares_k body → spares_k (drain l body).
Proof.
  intros Hb. assert (H : ∀ n, spares_k (while_nonempty n l body)).
  { induction n as [|n IH]; simpl; spare. }
  unfold drain. spare.
Qed.

Lemma is_thread_spares t : spares_k (is_thread t).
Proof. unfold is_thread. spare. Qed.
End loops.
#[export] Hint Resolve is_thread_spares : spares.

Section functions.
Context {E : Env}.

Lemma thread_current_spares : spares_k thread_current.
Proof. unfold thread_current. spare. Qed.
Hint Resolve thread_current_spares : spares.

Lemma lift_res_spares {A} (r : res A) : spares_k (lift_res r).
Proof. unfold lift_res. by_stepping. Qed.
Hint Resolve lift_res_spares : spares.

(** The feedback queues. *)
Lemma mlfqs_insert_spares t : spares_k (mlfqs_insert t).
Proof. unfold mlfqs_insert. spare. Qed.

Lemma mlfqs_update_priority_spares t : spares_k (mlfqs_update_priority t).
Proof. unfold mlfqs_update_priority. spare. Qed.

Lemma mlfqs_next_spares : spares_k mlfqs_next_thread_to_run.
Proof.
  unfold mlfqs_next_thread_to_run. induction (rev priorities) as [|i js IH]; simpl; spare.
Qed.
Hint Resolve mlfqs_insert_spares mlfqs_update_priority_spares mlfqs_next_spares : spares.

Lemma mlfqs_update_recent_cpu_spares t : spares_k (mlfqs_update_recent_cpu t).
Proof. unfold mlfqs_update_recent_cpu. spare. Qed.

Lemma thread_foreach_spares f : (∀ t, spares_k (f t)) → spares_k (thread_foreach f).
Proof. intros Hf. unfold thread_foreach. spare. apply list_for_spares. intros e. spare. Qed.

Lemma mlfqs_update_rcpu_la_spares : spares_k mlfqs_update_rcpu_la.
Proof.
  assert (H : ∀ js n, spares_k (mlfqs_count js n)).
  { induction js as [|i js IH]; intros n; simpl; spare. }
  unfold mlfqs_update_rcpu_la, mlfqs_update_load_avg, mlfqs_ready_threads. spare.
  apply thread_foreach_spares, mlfqs_update_recent_cpu_spares.
Qed.

Lemma mlfqs_update_priority_all_spares : spares_k mlfqs_update_priority_all.
Proof.
  unfold mlfqs_update_priority_all, mlfqs_reorganize_queues. spare.
  - apply thread_foreach_spares, mlfqs_update_priority_spares.
  - apply for_each_spares. intros i. apply drain_spares. spare.
  - apply drain_spares. spare.
Qed.
Hint Resolve mlfqs_update_rcpu_la_spares mlfqs_update_priority_all_spares : spares.

(** Donation. *)
Lemma donate_priority_spares from to : spares_k (donate_priority from to).
Proof.
  assert (H : ∀ n from to, spares_k (donate_priority_from n from to)).
  { induction n as [|n IH]; intros f t; simpl; spare. }
  unfold donate_priority. spare.
Qed.

Lemma refresh_priority_spares t : spares_k (refresh_priority t).
Proof.
  unfold refresh_priority. spare. apply list_for_spares. intros e. unfold refresh_lock. spare.
  apply list_for_spares. intros w. unfold refresh_waiter. spare.
Qed.
Hint Resolve donate_priority_spares refresh_priority_spares : spares.

(** The scheduler. *)
Lemma ready_insert_spares t : spares_k (ready_insert t).
Proof. unfold ready_insert. spare. Qed.

Lemma next_thread_to_run_spares : spares_k next_thread_to_run.
Proof. unfold next_thread_to_run, ready_list_next. spare. Qed.

Lemma assert_not_intr_context_spares site : spares_k (assert_not_intr_context site).
Proof. unfold assert_not_intr_context. spare. Qed.

Lemma assert_intr_off_spares site : spares_k (assert_intr_off site).
Proof. unfold assert_intr_off. spare. Qed.
Hint Resolve ready_insert_spares next_thread_to_run_spares assert_not_intr_context_spares
  assert_intr_off_spares : spares.

Lemma thread_schedule_tail_spares prev : spares_k (thread_schedule_tail prev).
Proof. unfold thread_schedule_tail. spare. Qed.
Hint Resolve thread_schedule_tail_spares : spares.

Lemma schedule_spares : spares (λ _, True) schedule.
Proof. unfold schedule. spare. by simpl. Qed.

Lemma thread_unblock_spares t : spares_k (thread_unblock t).
Proof. unfold thread_unblock. spare. Qed.
Hint Resolve schedule_spares thread_unblock_spares : spares.

Lemma thread_block_spares : spares (λ _, True) thread_block.
Proof. unfold thread_block. spare. Qed.

Lemma thread_yield_spares : spares (λ _, True) thread_yield.
Proof. unfold thread_yield. spare. Qed.
Hint Resolve thread_block_spares thread_yield_spares : spares.

Lemma check_preemption_spares : spares (λ _, True) check_preemption.
Proof. unfold check_preemption. spare. Qed.

Lemma mlfqs_check_preemption_spares : spares (λ _, True) mlfqs_check_preemption.
Proof.
  unfold mlfqs_check_preemption. spare. induction (rev priorities) as [|i js IH]; simpl mlfqs_highest; spare.
Qed.

Lemma thread_yield_if_necessary_spares : spares (λ _, True) thread_yield_if_necessary.
Proof. unfold thread_yield_if_necessary. spare. Qed.
Hint Resolve check_preemption_spares mlfqs_check_preemption_spares
  thread_yield_if_necessary_spares : spares.

Lemma preempt_spares : spares (λ _, True) preempt.
Proof. unfold preempt. spare. Qed.
Hint Resolve preempt_spares : spares.

Lemma thread_set_priority_spares p : spares (λ _, True) (thread_set_priority p).
Proof. unfold thread_set_priority. spare. Qed.

(** Semaphores and locks. *)
Lemma sema_down_spares sm : spares (λ _, True) (sema_down sm).
Proof. unfold sema_down, sema_wait. spare. Qed.

Lemma sema_try_down_spares sm : spares_k (sema_try_down sm).
Proof. unfold sema_try_down. spare. Qed.

Lemma sema_up_spares sm : spares (λ _, True) (sema_up sm).
Proof. unfold sema_up. spare. Qed.
Hint Resolve sema_down_spares sema_try_down_spares sema_up_spares : spares.

Lemma lock_held_spares l : spares_k (lock_held_by_current_thread l).
Proof. unfold lock_held_by_current_thread. spare. Qed.
Hint Resolve lock_held_spares : spares.

Lemma lock_acquire_spares l : spares (λ _, True) (lock_acquire l).
Proof. unfold lock_acquire, lock_donate. spare. Qed.

Lemma lock_release_spares l : spares (λ _, True) (lock_release l).
Proof.
  unfold lock_release. spare. apply list_for_safe_spares. intros e. unfold forget_waiter. spare.
Qed.
Hint Resolve lock_acquire_spares lock_release_spares : spares.

(** The timer, but for what the interrupt counts. *)
Lemma timer_ticks_spares : spares_k timer_ticks.
Proof. unfold timer_ticks. spare. Qed.
Hint Resolve timer_ticks_spares : spares.

Lemma timer_sleep_spares n : spares (λ _, True) (timer_sleep n).
Proof. unfold timer_sleep. spare. Qed.

Lemma timer_wakeup_spares : spares (λ _, True) timer_wakeup.
Proof. unfold timer_wakeup, timer_wakeup_round. spare. Qed.

Lemma timer_mlfqs_spares : spares (λ _, True) timer_mlfqs.
Proof. unfold timer_mlfqs. spare. Qed.
Hint Resolve thread_set_priority_spares timer_sleep_spares timer_wakeup_spares
  timer_mlfqs_spares : spares.

(** Threads. *)
Lemma init_thread_spares t name prio : spares_k (init_thread t name prio).
Proof. unfold init_thread, k_zero_thread. spare. Qed.

Lemma alloc_frame_spares t n : spares_k (alloc_frame t n).
Proof. unfold alloc_frame. spare. Qed.
Hint Resolve init_thread_spares alloc_frame_spares : spares.

Lemma make_thread_spares name prio : spares (λ _, True) (make_thread name prio).
Proof. unfold make_thread. spare. Qed.

Lemma start_thread_spares {F : SwitchFrames} t id fn aux : spares (λ _, True) (start_thread t id fn aux).
Proof. unfold start_thread. spare. Qed.

Lemma thread_exit_spares : spares (λ _, True) thread_exit.
Proof. unfold thread_exit. spare. Qed.

Lemma idle_round_spares : spares (λ _, True) idle_round.
Proof. unfold idle_round. spare. Qed.
Hint Resolve make_thread_spares start_thread_spares thread_exit_spares idle_round_spares : spares.

Lemma begin_spares prev : spares (λ _, True) (begin prev).
Proof. unfold begin. spare. Qed.

(** Every call but [allocate_tid]. *)
Lemma run_op_spares {F : SwitchFrames} o : o ≠ OTid → spares (λ _, True) (run_op o).
Proof. intros Ho. destruct o; try done; unfold run_op; spare. Qed.
End functions.
#[export] Hint Resolve refresh_priority_spares thread_yield_if_necessary_spares preempt_spares
  thread_schedule_tail_spares sema_up_spares lock_acquire_spares lock_release_spares timer_wakeup_spares
  timer_mlfqs_spares : spares.
