(* ===== verification/MachineInv.v ===== *)
(** The invariant of the machine, and what each of its steps does: the threads
    stay in their places, the suspended ones can go on, and the books of those
    that have not started or have ended are kept. *)
From S2P Require Import Prelude Env Kernel Thread Mlfqs Ready Sched SchedSpec Wait.
From S2P Require Import Synch SemaSpec Lifecycle Timer TimerSpec Places Roster Machine Calls LifeCalls.

(** ** The books: who has not started and who has ended *)

#[local] Notation ids_map := (gmap tptr (option kernel_thread_frame * bool)).

(** [Y] has the threads being made, which [mk] lists, and those that have ended. *)
Definition books (Y : gset tptr) (mk : gmap tptr tptr) (ids : ids_map) : Prop :=
  (∀ t, t ∈ Y ↔ is_Some (mk !! t) ∨ ∃ f, ids !! t = Some (f, true)) ∧
  ∀ t, is_Some (mk !! t) → ∃ f, ids !! t = Some (f, false).

Lemma books_after first o x t Y mk (s : aview) :
  books Y mk (idents s) → live s t → (t ∉ Y) →
  books (aside_after first o x t Y) (made first o x t mk) (ids_after first o x t (idents s)).
Proof.
  intros [HY Hmk] [f Ht] HtY. destruct o as [| | | | | |name prio| |c id function aux| | |]; try done.
  - destruct x as [[| | |[c|]]|]; try done. simpl in *. split; intros u.
    + rewrite elem_of_union, elem_of_singleton, HY. destruct (decide (u = c)) as [->|Hne].
      * rewrite !lookup_insert_eq. split; [left; by eexists|by left].
      * rewrite !lookup_insert_ne by done. tauto.
    + destruct (decide (u = c)) as [->|Hne].
      * rewrite !lookup_insert_eq. by eexists.
      * rewrite !lookup_insert_ne by done. apply Hmk.
  - destruct first; [|done]. simpl. split; intros u.
    + rewrite elem_of_difference, elem_of_singleton, HY. destruct (decide (u = c)) as [->|Hne].
      * rewrite lookup_delete_eq, lookup_insert_eq. split; [tauto|].
        intros [[? [=]]|[? [=]]].
      * rewrite lookup_delete_ne, lookup_insert_ne by done. tauto.
    + destruct (decide (u = c)) as [->|Hne].
      * rewrite lookup_insert_eq. by eexists.
      * rewrite lookup_delete_ne, lookup_insert_ne by done. apply Hmk.
  - destruct x as [r|n]; [done|]. simpl. split; intros u.
    + rewrite elem_of_union, elem_of_singleton, HY. destruct (decide (u = t)) as [->|Hne].
      * rewrite lookup_alter_eq, Ht. split; [right; by eexists|by left].
      * rewrite lookup_alter_ne by done. tauto.
    + intros Hu. destruct (decide (u = t)) as [->|Hne]; [|rewrite lookup_alter_ne by done; auto].
      destruct HtY. apply HY. by left.
Qed.

Lemma books_resumed Y mk p (a : aview) :
  books Y mk (idents a) →
  books (reaped (Some p) a Y) mk (survivors (Some p) a (idents a)).
Proof.
  intros [HY Hmk]. unfold reaped, survivors. destruct (reaps a p) eqn:Hr; [|done].
  apply reaps_dying, dying_ident in Hr as [f Hf]. split; intros t.
  - rewrite elem_of_difference, elem_of_singleton, HY. destruct (decide (t = p)) as [->|Hne].
    + rewrite lookup_delete_eq. split; [tauto|]. intros [Hm|[? [=]]].
      destruct (Hmk p Hm). congruence.
    + rewrite lookup_delete_ne by done. tauto.
  - intros Ht. destruct (decide (t = p)) as [->|Hne]; [destruct (Hmk p Ht); congruence|].
    rewrite lookup_delete_ne by done. auto.
Qed.

(** Whether a thread is live after a stretch of the thread [u]. *)
Lemma live_after first o x (s b : aview) t :
  life_change first o x s b → t ≠ running s →
  (live b t → live s t ∨ (∃ name prio, o = OMake name prio ∧ x = Returns (RThread (Some t))) ∨
    (first = true ∧ ∃ id function aux, o = OStart t id function aux)) ∧
  (live s t → live b t).
Proof.
  intros (_ & _ & Hid & _) Hne. unfold live. rewrite Hid.
  destruct o as [| | | | | |name prio| |c id function aux| | |]; try (split; [by left|done]).
  - destruct x as [[| | |[c|]]|]; simpl; try (split; [by left|done]).
    destruct (decide (t = c)) as [->|Htc].
    + rewrite lookup_insert_eq. split; [right; left; eauto|eauto].
    + rewrite lookup_insert_ne by done. split; [by left|done].
  - destruct first; [|split; [by left|done]]. simpl. destruct (decide (t = c)) as [->|Htc].
    + rewrite lookup_insert_eq. split; [right; right; eauto 10|eauto].
    + rewrite lookup_insert_ne by done. split; [by left|done].
  - destruct x; simpl; [split; [by left|done]|]. rewrite lookup_alter_ne by done. split; [by left|done].
Qed.

#[global] Instance exit_dec o : Decision (o = OExit).
Proof. by refine (match o with OExit => left eq_refl | _ => right _ end). Defined.

Section invariant.
Context {E : Env} {EL : EnvLaws E} {F : SwitchFrames} (D : gset sema_ptr).

(** The rest [k] of a call of [o] that the thread [t] is suspended in: it goes
    on as it should whenever it is switched back to. *)
Definition rest_ok (t : tptr) (i : option tptr) (o : op) (k : tptr → prog ret) : Prop :=
  ∀ prev c, can_resume prev c → back D t i (resumed (Some prev) c) →
    swp (gives D false o) (back D t i) (resumed (Some prev) c) (k prev) (gives_back D false o) c.

(** What the processor is about to do can be done; [Y] are the threads that have
    not started or have ended. *)
Definition phase_ok (Y : gset tptr) (p : phase) (a : aview) : Prop :=
  match p with
  | Calling => running_ok D Y INTR_ON a
  | Preempted => preempted_ok D Y a
  | Switched prev => (prev ≠ running a ∧ is_Some (threads a !! prev)) ∧
      iv_level (intr a) = INTR_OFF ∧ iv_context (intr a) = false ∧
      in_hand D Y (running a) a ∧ highest (running a) a ∧ ¬ has_status a (running a) THREAD_DYING
  end.

Definition off_processor (p : phase) (a : aview) (t : tptr) : Prop :=
  match p with Switched _ => True | _ => t ≠ running a end.

(** A thread that is off the processor is suspended in a call; or it begins, when
    it is its turn, at the function on its stack. *)
Definition rest_of (p : pool) (a : aview) (t : tptr) : Prop :=
  match p !! t with
  | Some (o, k) => rest_ok t (idle_thread a) o k
  | None => ∃ kf, idents a !! t = Some (Some kf, false)
  end.

(** Only the threads that are live, and not being made, are ever suspended.  The
    record of a thread that has ended goes when the next thread goes on (that of
    the initial thread stays). *)
Record machine_ok (m : machine) : Prop := MachineOk {
  mo_phase : ∃ Y, phase_ok Y (next m) (obs (memory m)) ∧ books Y (making m) (idents (obs (memory m)));
  mo_roster : roster (obs (memory m));
  mo_dying : ∀ t, has_status (obs (memory m)) t THREAD_DYING →
    next m = Switched t ∨ Some t = initial_thread (obs (memory m));
  mo_pool : ∀ t, is_Some (suspended m !! t) → live (obs (memory m)) t ∧ making m !! t = None ∧
    off_processor (next m) (obs (memory m)) t;
  mo_rest : ∀ t, live (obs (memory m)) t → making m !! t = None →
    off_processor (next m) (obs (memory m)) t → rest_of (suspended m) (obs (memory m)) t
}.

(** The semaphores after an event. *)
Definition event_effect (e : event) (m : gmap sema_ptr Z) : gmap sema_ptr Z :=
  match e with
  | Called _ o x => effect true o x m
  | Resumed _ o x => effect false o x m
  | Begun _ | Ticked => m
  end.

(** The suspended threads after a stretch of the thread [t], in call [o]. *)
Definition pool_after (o : op) (x : outcome) (t : tptr) (p p' : pool) : Prop :=
  match o, x with
  | _, Returns _ | OExit, Yields _ => p' = p
  | _, Yields _ => ∃ k, p' = <[t := (o, k)]> p
  end.

(** What a stretch of [o] begun in [s], when the other threads were suspended as
    in [p] and those of [mk] being made, has left behind. *)
Definition stretch_change (first : bool) (o : op) (x : outcome) (s : aview) (p : pool)
    (mk : gmap tptr tptr) (m' : machine) : Prop :=
  changes D first o x s (obs (memory m')) ∧ making m' = made first o x (running s) mk ∧
  pool_after o x (running s) p (suspended m') ∧
  match x with
  | Returns _ => next m' = Calling ∧ running (obs (memory m')) = running s ∧ outranks o s (obs (memory m'))
  | Yields n => at_zero o s ∧ next m' = Switched (running s) ∧ running (obs (memory m')) = n
  end.

(** Calls that block; the idle thread does not make them. *)
Definition blocks (o : op) : Prop :=
  match o with ODown _ | OSleep _ => True | _ => False end.

Definition may_wait (o : op) (a : aview) : Prop := blocks o → Some (running a) ≠ idle_thread a.

Definition event_change (e : event) (m m' : machine) : Prop :=
  let a := obs (memory m) in
  match e with
  | Called _ o x => (∀ prev, next m ≠ Switched prev) ∧ may_wait o a ∧
      stretch_change true o x a (suspended m) (making m) m'
  | Resumed _ o x => ∃ prev k, next m = Switched prev ∧ suspended m !! running a = Some (o, k) ∧
      let c := resumed (Some prev) a in
      sleep_frame a c ∧ idents c = survivors (Some prev) a (idents a) ∧
      stretch_change false o x c (delete (running a) (suspended m)) (making m) m'
  | Begun t => ∃ prev, next m = Switched prev ∧ suspended m !! running a = None ∧
      next m' = Calling ∧ t = running a ∧ suspended m' = suspended m ∧ making m' = making m ∧
      obs (memory m') = restored INTR_ON (resumed (Some prev) a) ∧
      sleep_frame a (obs (memory m')) ∧ idents (obs (memory m')) = survivors (Some prev) a (idents a)
  | Ticked => (∀ prev, next m ≠ Switched prev) ∧ (∀ prev, next m' ≠ Switched prev) ∧
      let b := obs (memory m') in
      suspended m' = suspended m ∧ making m' = making m ∧ running b = running a ∧
      semas b = semas a ∧ (persist a b ∧ ∀ sm ws, waits a sm ws → waits b sm ws) ∧
      ticks b = ticks a + 1 ∧ ∀ t w, asleep b t w ↔ asleep a t w ∧ ticks a + 1 < w
  end.

Lemma restored_semas l (a : aview) : semas (restored l a) = semas a.
Proof. reflexivity. Qed.

Lemma restored_same l (a c : aview) :
  idle_thread (restored l c) = idle_thread c ∧ idents (restored l c) = idents c ∧
  (sleep_frame a c → sleep_frame a (restored l c)).
Proof. by split_and!. Qed.

Lemma restored_running l (a : aview) : running (restored l a) = running a.
Proof. reflexivity. Qed.

Lemma resumed_semas prev (a : aview) : semas (resumed prev a) = semas a.
Proof. apply resumed_fields. Qed.

Lemma event_semas e m m' :
  event_change e m m' → semas (obs (memory m')) = event_effect e (semas (obs (memory m))).
Proof.
  destruct e as [t o x|t o x|t|]; cbn [event_change event_effect].
  - by intros (_ & _ & [[[] _] _]).
  - intros (prev & k & _ & _ & _ & _ & [[[Hs _] _] _]). rewrite Hs. f_equal. apply resumed_semas.
  - intros (prev & _ & _ & _ & _ & _ & _ & Hb & _). rewrite Hb, restored_semas.
    apply resumed_semas.
  - intros (_ & _ & _ & _ & _ & Hs & _). exact Hs.
Qed.

(** The invariant after an event, and what the event has done. *)
Definition step_ok (m : machine) (e : event) (m' : machine) : Prop :=
  machine_ok m' ∧ idle_thread (obs (memory m')) = idle_thread (obs (memory m)) ∧
  event_change e m m'.

(** ** The threads aside are determined *)

Lemma in_hand_unique n Y Y' (a : aview) : in_hand D Y n a → in_hand D Y' n a → Y = Y'.
Proof.
  assert (Hsub : ∀ Y Y', in_hand D Y n a → in_hand D Y' n a → ∀ t, t ∈ Y → t ∈ Y').
  { intros Y1 Y2 (q & ss & W & Hpl & Hr) (q' & ss' & W' & Hpl' & Hr') t Ht.
    rewrite <- (ready_unique q q' a (pl_prio Hpl) Hr Hr') in Hpl'.
    destruct (pl_Y Hpl t Ht) as (Hx & Hi & Hst & Hss & HW).
    assert (Hv : is_Some (threads a !! t))
      by (unfold has_status in Hst; destruct (threads a !! t); [done|by destruct Hst]).
    destruct (pl_all Hpl' t Hv) as [H|[H|[H|[H|[(sm & Hsm & H)|H]]]]]; try done.
    - destruct (pl_q Hpl' t H) as (_ & _ & Hs). unfold has_status in *. destruct Hst; congruence.
    - destruct Hss. apply (sleeps_in a); [exact (pl_sleep Hpl)|]. exists ss'.
      by rewrite (pl_sleep Hpl').
    - destruct (HW sm Hsm). pose proof (pl_waiters Hpl sm Hsm) as H1.
      rewrite (pl_waiters Hpl' sm Hsm) in H1. by injection H1 as <-%elems_inj. }
  intros H H'. apply set_eq. intros t. split; eauto.
Qed.

Lemma in_hand_aside n Y (a : aview) : in_hand D Y n a → (n ∉ Y) ∧ is_Some (threads a !! n).
Proof.
  intros (q & ss & W & Hpl & _). split.
  - intros Hn. destruct (pl_Y Hpl n Hn) as (Hx & _). apply Hx. by left.
  - apply (pl_self Hpl). by left.
Qed.

Lemma phase_in_hand Y p (a : aview) : phase_ok Y p a → in_hand D Y (running a) a.
Proof. destruct p; [intros (_ & _ & H & _)..|intros (_ & _ & _ & H & _)]; done. Qed.

Lemma live_or_dying (a : aview) t :
  is_Some (threads a !! t) → ¬ has_status a t THREAD_DYING → live a t.
Proof.
  intros [th Hth] Hd. apply (live_status a t (status th)); unfold has_status in *; rewrite Hth in *.
  - done.
  - contradict Hd. cbn. by rewrite Hd.
Qed.

(** ** The end of a stretch *)

(** A stretch begins in [s], while the other threads are suspended as in [p] and
    those of [mk] are being made. *)
Record begins (s : aview) (p : pool) (mk : gmap tptr tptr) : Prop := Begins {
  be_aside : ∃ Y, in_hand D Y (running s) s ∧ books Y mk (idents s);
  be_self : live s (running s);
  be_roster : roster s;
  be_dying : ∀ t, has_status s t THREAD_DYING → Some t = initial_thread s;
  be_pool : ∀ t, is_Some (p !! t) → live s t ∧ mk !! t = None ∧ t ≠ running s;
  be_rest : ∀ t, live s t → mk !! t = None → t ≠ running s → rest_of p s t
}.

Lemma begins_self s p mk : begins s p mk → mk !! running s = None.
Proof.
  intros [(Y & Hin & HY & _) _ _ _ _ _]. apply eq_None_not_Some. intros Hs.
  destruct (in_hand_aside _ _ _ Hin) as [Hn _]. apply Hn, HY. by left.
Qed.

(** How a stretch of [o], begun in [s], ends. *)
Definition stretch_end (first : bool) (o : op) (s : aview) (out : out ret) (b : aview) : Prop :=
  match out with
  | ODone r => gives_back D first o s r b
  | OSwitch n k => gives D first o s n b ∧ (o ≠ OExit → rest_ok (running s) (idle_thread s) o k)
  | OFault _ => False
  end.

(** Only a thread that is being made is started. *)
Definition starts_ok (first : bool) (o : op) (s : aview) (mk : gmap tptr tptr) : Prop :=
  match o with OStart c _ _ _ => first = true → mk !! c = Some (running s) | _ => True end.

Lemma made_other first o x (s : aview) mk t :
  mk !! t = None → made_fresh o x s → live s t → made first o x (running s) mk !! t = None.
Proof.
  intros Ht Hf [f Hlive]. destruct o as [| | | | | |name prio| |c id function aux| | |]; try done.
  - destruct x as [[| | |[c|]]|]; try done. simpl in *. rewrite lookup_insert_ne; [done|].
    intros ->. congruence.
  - destruct first; [|done]. simpl. destruct (decide (t = c)) as [->|]; [apply lookup_delete_eq|].
    by rewrite lookup_delete_ne.
Qed.

Lemma made_before first o x (s : aview) mk t :
  made first o x (running s) mk !! t = None →
  mk !! t = None ∨ (first = true ∧ ∃ id function aux, o = OStart t id function aux).
Proof.
  intros Ht. destruct o as [| | | | | |name prio| |c id function aux| | |]; try by left.
  - destruct x as [[| | |[c|]]|]; try by left. simpl in *. left.
    apply lookup_insert_None in Ht. tauto.
  - destruct first; [|by left]. simpl in *. apply lookup_delete_None in Ht as [->|?]; [right|by left].
    eauto.
Qed.

(** The other threads after a stretch. *)
Lemma others_after first o x (s b : aview) p mk t :
  begins s p mk → starts_ok first o s mk → changes D first o x s b →
  idle_thread b = idle_thread s → t ≠ running s →
  (is_Some (p !! t) → live b t ∧ made first o x (running s) mk !! t = None) ∧
  (live b t → made first o x (running s) mk !! t = None → rest_of p b t).
Proof.
  intros Hb Hst [_ Hlife] Hi Hne. destruct (live_after _ _ _ _ _ _ Hlife Hne) as [Hl1 Hl2].
  pose proof Hlife as (_ & _ & Hid & Hf & _). split.
  - intros Hp. destruct (be_pool _ _ _ Hb t Hp) as (Hlive & Hmk & _). split; [auto|].
    by eapply made_other.
  - intros Hlive Hmk. destruct (made_before _ _ _ _ _ _ Hmk) as [Hmk0|(-> & id & function & aux & ->)].
    + assert (Hs : live s t).
      { destruct (Hl1 Hlive) as [?|[(name & prio & -> & ->)|(-> & id & function & aux & ->)]]; [done|..].
        - simpl in Hmk. by rewrite lookup_insert_eq in Hmk.
        - simpl in Hst. rewrite (Hst eq_refl) in Hmk0. done. }
      pose proof (be_rest _ _ _ Hb t Hs Hmk0 Hne) as Hrest. unfold rest_of in *.
      destruct (p !! t) as [[o' k']|]; [by rewrite Hi|].
      destruct Hrest as [kf Hkf]. exists kf. rewrite Hid.
      destruct o as [| | | | | |name prio| |c id function aux| | |]; try done.
      * destruct x as [[| | |[c|]]|]; try done. simpl in *. rewrite lookup_insert_ne; [done|].
        intros ->. congruence.
      * destruct first; [|done]. simpl. rewrite lookup_insert_ne; [done|]. intros ->.
        simpl in Hst. rewrite (Hst eq_refl) in Hmk0. done.
      * destruct x; [done|]. simpl. by rewrite lookup_alter_ne.
    + simpl in Hst. assert (Hnone : p !! t = None).
      { apply eq_None_not_Some. intros Hp. destruct (be_pool _ _ _ Hb t Hp) as (_ & Hn & _).
        by rewrite (Hst eq_refl) in Hn. }
      unfold rest_of. rewrite Hnone, Hid. simpl. rewrite lookup_insert_eq. by eexists.
Qed.

(** A stretch ends no other thread. *)
Lemma dying_after first o x (s b : aview) t :
  changes D first o x s b → has_status b t THREAD_DYING →
  has_status s t THREAD_DYING ∨ (t = running s ∧ o = OExit ∧ ∃ n, x = Yields n).
Proof.
  intros [_ (_ & _ & Hid & _)] [f Hf]%dying_ident. rewrite Hid in Hf.
  destruct o as [| | | | | |name prio| |c id function aux| | |];
    try (left; by eapply ident_dying).
  - destruct x as [[| | |[c|]]|]; try (left; by eapply ident_dying). simpl in Hf.
    destruct (decide (t = c)) as [->|Htc]; [by rewrite lookup_insert_eq in Hf|].
    rewrite lookup_insert_ne in Hf by done. left. by eapply ident_dying.
  - destruct first; [|left; by eapply ident_dying]. simpl in Hf.
    destruct (decide (t = c)) as [->|Htc]; [by rewrite lookup_insert_eq in Hf|].
    rewrite lookup_insert_ne in Hf by done. left. by eapply ident_dying.
  - destruct x as [r|n]; [left; by eapply ident_dying|]. simpl in Hf.
    destruct (decide (t = running s)) as [->|Htc]; [right; eauto|].
    rewrite lookup_alter_ne in Hf by done. left. by eapply ident_dying.
Qed.

Lemma self_after first o x (s b : aview) :
  changes D first o x s b → live s (running s) → o ≠ OExit → live b (running s).
Proof.
  intros [_ (_ & _ & Hid & _)] [f Hf] Hne. unfold live. rewrite Hid.
  destruct o as [| | | | | |name prio| |c id function aux| | |]; try (by exists f); try done.
  - destruct x as [[| | |[c|]]|]; try (by exists f). simpl.
    destruct (decide (running s = c)) as [<-|?].
    + rewrite lookup_insert_eq. eauto.
    + rewrite lookup_insert_ne by done. eauto.
  - destruct first; [|by exists f]. simpl. destruct (decide (running s = c)) as [<-|?].
    + rewrite lookup_insert_eq. eauto.
    + rewrite lookup_insert_ne by done. eauto.
Qed.

Lemma exit_after first n (s b : aview) :
  changes D first OExit (Yields n) s b → live b (running s) → False.
Proof.
  intros [_ (_ & _ & Hid & _)] [f Hf]. rewrite Hid in Hf. simpl in Hf.
  rewrite lookup_alter_eq in Hf. by destruct (idents s !! running s) as [[]|].
Qed.

Lemma returned_ok first o s p mk r s' :
  begins s p mk → starts_ok first o s mk → gives_back D first o s r (obs s') →
  machine_ok (Machine s' p (made first o (Returns r) (running s) mk) Calling).
Proof.
  intros Hb Hst ((Y & Hin & Hok) & Hrun & Hi & Hch & _). pose proof Hch as [_ Hlife].
  pose proof Hlife as (Hit & Hr & Hid & Hf & _).
  destruct (be_aside _ _ _ Hb) as (Y0 & Hin0 & HY).
  rewrite (in_hand_unique _ _ _ _ Hin0 Hin) in HY. destruct (in_hand_aside _ _ _ Hin) as [Hself _].
  split; cbn [memory suspended making next off_processor].
  - eexists. split; [exact Hok|]. rewrite Hid. apply books_after; [done|apply Hb|done].
  - apply Hr, Hb.
  - intros t Hd. right. destruct (dying_after _ _ _ _ _ _ Hch Hd) as [H|(_ & _ & n & [=])].
    rewrite Hit. by apply (be_dying _ _ _ Hb).
  - intros t Hp. destruct (be_pool _ _ _ Hb t Hp) as (_ & _ & Hne). rewrite Hrun.
    destruct (others_after first o (Returns r) s (obs s') p mk t Hb Hst Hch Hi Hne) as [H _].
    destruct (H Hp). by split_and!.
  - intros t Hl Hm Hne. rewrite Hrun in Hne.
    by apply (others_after first o (Returns r) s (obs s') p mk t Hb Hst Hch Hi Hne).
Qed.

(** A stretch of [o] that gives up the processor to [n]; [p'] are the threads
    suspended afterwards. *)
Lemma yielded_ok first o s p p' mk n s' :
  begins s p mk → starts_ok first o s mk → gives D first o s n (obs s') →
  (∀ t, t ≠ running s → p' !! t = p !! t) →
  (o ≠ OExit → ∃ k, p' !! running s = Some (o, k) ∧ rest_ok (running s) (idle_thread s) o k) →
  (o = OExit → p' !! running s = None) →
  machine_ok (Machine (set_running n s') p' (made first o (Yields n) (running s) mk)
    (Switched (running s))).
Proof.
  intros Hb Hst ((Y & Hin & Hh) & Hi & Hch & _) Hp' Hrest Hexit.
  destruct Hh as (Hrun & Hne & Hl & Hctx & Hin' & Hhi & Hnd). pose proof Hch as [_ Hlife].
  pose proof Hlife as (Hit & Hr & Hid & Hf & _). pose proof (be_self _ _ _ Hb) as Hself.
  destruct (be_aside _ _ _ Hb) as (Y0 & Hin0 & HY).
  rewrite (in_hand_unique _ _ _ _ Hin0 Hin) in HY. destruct (in_hand_aside _ _ _ Hin) as [HnY Hsome].
  set (b := obs s') in *. split; cbn [memory suspended making next off_processor];
    change (obs (set_running n s')) with (set_running n b);
    change (idents (set_running n b)) with (idents b).
  - eexists. split; [|rewrite Hid; by apply books_after].
    refine (conj (conj _ _) (conj Hl (conj Hctx (conj _ (conj Hhi Hnd))))).
    + cbn. congruence.
    + change (is_Some (threads b !! running s)). apply idents_is_Some. rewrite Hid.
      apply idents_is_Some in Hsome. destruct o as [| | | | | |name prio| |c id function aux| | |]; try done.
      * destruct first; [|done]. simpl. apply lookup_insert_is_Some.
        destruct (decide (c = running s)); auto.
      * simpl. by apply lookup_alter_is_Some.
    + destruct Hin' as (q & ss & W & Hpl & Hrd). exists q, ss, W. split; [by eapply placed_ext|].
      by eapply (rq_ext (rq := ready) b).
  - assert (Hrb : roster b) by (apply Hr, Hb). destruct Hrb. by split.
  - intros t Hd. destruct (dying_after _ _ _ _ _ t Hch Hd) as [H|(-> & _)]; [right|by left].
    change (initial_thread _) with (initial_thread b). rewrite Hit. by apply (be_dying _ _ _ Hb).
  - intros t Hp. change (live (set_running n b) t) with (live b t).
    rewrite (right_id True and).
    destruct (decide (t = running s)) as [->|Hts].
    + assert (Ho : o ≠ OExit) by (intros ->; rewrite Hexit in Hp; [by destruct Hp|done]).
      split; [by eapply self_after|]. apply made_other; [by eapply begins_self|done|done].
    + rewrite Hp' in Hp by done.
      by apply (others_after first o (Yields n) s b p mk t Hb Hst Hch Hi Hts).
  - intros t Hlive Hm _. change (live (set_running n b) t) with (live b t) in Hlive.
    change (rest_of p' b t). unfold rest_of. destruct (decide (t = running s)) as [->|Hts].
    + assert (Ho : o ≠ OExit) by (intros ->; by eapply exit_after).
      destruct (Hrest Ho) as (k & -> & Hk). by rewrite Hi.
    + rewrite Hp' by done. by apply (others_after first o (Yields n) s b p mk t Hb Hst Hch Hi Hts).
Qed.

Lemma changes_running first o x (s b : aview) n :
  changes D first o x s b → changes D first o x s (set_running n b).
Proof.
  intros H. apply (changes_ext _ _ _ _ _ b); [done..|by split_and!|by apply persist_threads].
Qed.

Lemma ended_ok first o s p mk (out : out ret) s' :
  begins s p mk → starts_ok first o s mk → stretch_end first o s out (obs s') →
  p !! running s = None →
  ∃ x m', ended first o p mk out s' x m' ∧ machine_ok m' ∧
    idle_thread (obs (memory m')) = idle_thread s ∧ stretch_change first o x s p mk m'.
Proof.
  intros Hb Hst Hend Hnone. destruct out as [r|n k|e]; [| |done].
  - pose proof Hend as (_ & Hrun & Hi & Hch & Hrk). exists (Returns r). eexists.
    split; [constructor|]. change (running s') with (running (obs s')). rewrite Hrun.
    refine (conj (returned_ok _ _ _ _ _ _ _ Hb Hst Hend) (conj Hi (conj Hch (conj eq_refl (conj _ _))))).
    + by destruct o.
    + by split_and!.
  - destruct Hend as [Hg Hk]. pose proof Hg as ((Y & _ & Hrun & _) & Hi & Hch & Hz).
    apply (changes_running _ _ _ _ _ n) in Hch.
    exists (Yields n). destruct (decide (o = OExit)) as [->|Ho].
    + eexists. split; [by constructor|]. change (running s') with (running (obs s')). rewrite Hrun.
      refine (conj _ (conj Hi (conj Hch (conj eq_refl (conj eq_refl (conj Hz (conj eq_refl eq_refl))))))).
      by apply (yielded_ok first OExit s p p mk n s' Hb Hst Hg).
    + eexists. split; [by constructor|]. change (running s') with (running (obs s')). rewrite Hrun.
      refine (conj _ (conj Hi (conj Hch (conj eq_refl (conj _ (conj Hz (conj eq_refl eq_refl))))))).
      * apply (yielded_ok _ _ _ p); [done..| | |done].
        -- intros t Ht. by rewrite lookup_insert_ne.
        -- intros _. exists k. split; [apply lookup_insert_eq|by apply Hk].
      * destruct o; try done; by exists k.
Qed.

(** ** The steps that can be made *)

Lemma calling_begins s p mk ph Y :
  machine_ok (Machine s p mk ph) → ph = Calling ∨ ph = Preempted →
  in_hand D Y (running (obs s)) (obs s) → books Y mk (idents (obs s)) →
  has_status (obs s) (running (obs s)) THREAD_RUNNING → begins (obs s) p mk.
Proof.
  intros [_ Hr Hd Hp Hrest] Hph Hin HY Hst.
  assert (Hoff : ∀ t, off_processor ph (obs s) t ↔ t ≠ running (obs s)) by by destruct Hph as [->| ->].
  split; cbn [memory suspended making next] in *.
  - by exists Y.
  - by eapply live_status.
  - done.
  - intros t Ht. destruct (Hd t Ht) as [->|?]; [|done]. by destruct Hph.
  - intros t Ht. destruct (Hp t Ht) as (? & ? & ?%Hoff). by split_and!.
  - intros t ? ? ?%Hoff. by apply Hrest.
Qed.

Lemma begins_none s p mk : begins s p mk → p !! running s = None.
Proof.
  intros Hb. apply eq_None_not_Some. intros Hs. by destruct (be_pool _ _ _ Hb _ Hs) as (_ & _ & ?).
Qed.

Lemma stretch_ends first o s (out : out ret) b :
  stretch (gives D first o) (back D (running s) (idle_thread s))
    (λ s1 p, swp (gives D false o) (back D (running s) (idle_thread s)) s1 p (gives_back D false o))
    (gives_back D first o) s out b → stretch_end first o s out b.
Proof. destruct out; [done| |done]. by intros [Hg Hk]. Qed.

(** A call that is allowed runs up to its return or the switch. *)
Lemma call_steps s p mk o :
  frames_aligned → machine_ok (Machine s p mk Calling) → allowed o mk (obs s) →
  ∃ x m', step (Machine s p mk Calling) (Called (running s) o x) m' ∧
    step_ok (Machine s p mk Calling) (Called (running s) o x) m'.
Proof.
  intros Hal Hm Ha. pose proof Hm as [(Y & Hok & HY) Hr _ _ _]. cbn [next memory making] in *.
  pose proof (running_ok_in_hand _ _ _ _ Hok) as Hin. pose proof Hok as (_ & _ & _ & Hst & _).
  assert (Hb : begins (obs s) p mk) by (eapply calling_begins; [exact Hm|by left|done..]).
  assert (Hend : ∃ out s', exec (run_op o) s out s' ∧ stretch_end true o (obs s) out (obs s')).
  { destruct (decide (o = OExit)) as [->|Ho].
    - destruct (call_exit D Y (obs s) Hok Hr (proj1 Ha) s eq_refl) as (out & s' & Hex & n & k & -> & Hg).
      exists (OSwitch n k), s'. by split_and!.
    - assert (Hmk : ∀ t u, mk !! t = Some u → t ∈ Y ∧ live (obs s) t).
      { intros t u Htu. destruct HY as [HY Hlive]. split; [apply HY; left; by eexists|].
        apply Hlive. by eexists. }
      destruct (call_allowed D Y o mk (obs s) Hal Hok Hr Hmk Ha Ho s eq_refl) as (out & s' & Hex & Hend).
      exists out, s'. split; [done|]. by apply stretch_ends. }
  destruct Hend as (out & s' & Hex & Hend).
  destruct (ended_ok true o (obs s) p mk out s' Hb) as (x & m' & Hended & Hm' & Hi & Hch);
    [destruct o; try done; intros _; exact (proj2 Ha)|done|by eapply begins_none|].
  exists x, m'. split; [by econstructor|].
  refine (conj Hm' (conj Hi (conj _ (conj _ Hch)))); [done|].
  intros Hbl. by destruct o; try exact (proj1 Ha).
Qed.

(** A preempted thread yields. *)
Lemma preempted_steps s p mk :
  machine_ok (Machine s p mk Preempted) →
  ∃ x m', step (Machine s p mk Preempted) (Called (running s) OPreempt x) m' ∧
    step_ok (Machine s p mk Preempted) (Called (running s) OPreempt x) m'.
Proof.
  intros Hm. pose proof Hm as [(Y & Hok & HY) _ _ _ _]. cbn [next memory making] in *.
  pose proof Hok as (_ & _ & Hin & Hst).
  assert (Hb : begins (obs s) p mk) by (eapply calling_begins; [exact Hm|by right|done..]).
  destruct (call_preempt D Y _ Hok s eq_refl) as (out & s' & Hex & Hend).
  apply stretch_ends in Hend.
  destruct (ended_ok true OPreempt (obs s) p mk out s' Hb) as (x & m' & Hended & Hm' & Hi & Hch);
    [done|done|by eapply begins_none|].
  exists x, m'. split; [by econstructor|].
  refine (conj Hm' (conj Hi (conj _ (conj _ Hch)))); [done|by intros []].
Qed.

Lemma sleep_frame_resumed Y n prev (a : aview) :
  in_hand D Y n a → (∀ p, prev = Some p → has_status a p THREAD_DYING → p ∈ Y) →
  running a = n → prev ≠ Some n → sleep_frame a (resumed prev a).
Proof.
  intros Hin Hp Hrun Hne. destruct (resumed_fields prev a) as (_ & _ & _ & Hl & _ & _ & Ht & _).
  split_and!; [done|by rewrite Hl|]. intros t Hs. unfold resumed.
  assert (Ha : thread_wakeup (alter (with_status THREAD_RUNNING) (running a) (threads a)) t =
    thread_wakeup (threads a) t) by by apply wakeup_alter.
  destruct prev as [p|]; [|done]. case_match eqn:Hreap; [|done]. cbn.
  unfold thread_wakeup in *. rewrite lookup_delete_ne; [done|]. intros ->.
  apply reaps_dying in Hreap. unfold has_status in Hreap. cbn in Hreap.
  rewrite lookup_alter_ne in Hreap by congruence.
  by eapply aside_awake, Hs; [|apply Hp].
Qed.

(** The processor has just been handed over: what the new thread finds. *)
Lemma switched_resumes s p mk prev :
  machine_ok (Machine s p mk (Switched prev)) →
  let c := resumed (Some prev) (obs s) in
  can_resume prev (obs s) ∧ back D (running s) (idle_thread (obs s)) c ∧
  begins c (delete (running s) p) mk ∧ sleep_frame (obs s) c ∧
  idents c = survivors (Some prev) (obs s) (idents (obs s)) ∧ rest_of p (obs s) (running s).
Proof.
  intros [(Y & Hph & HY) Hr Hd Hp Hrest] c. cbn [memory suspended making next off_processor] in *.
  destruct Hph as ((Hne & Hprev) & Hl & Hctx & Hin & Hhi & Hnd).
  assert (Hpr : ∀ q, Some prev = Some q → q ≠ running (obs s) ∧ is_Some (threads (obs s) !! q))
    by by intros q [= <-].
  destruct (running_ok_resumed D Y (Some prev) (obs s) Hin Hl Hctx Hpr) as [Hok Hres].
  specialize (Hres prev eq_refl (ro_pages Hr)). fold c in Hok.
  destruct (resumed_fields (Some prev) (obs s)) as (H1 & H2 & _ & _ & _ & _ & _ & _ & H9).
  fold c in H1, H2, H9.
  destruct (in_hand_aside _ _ _ Hin) as [HnY Hself].
  assert (Hne' : Some prev ≠ Some (running (obs s))) by congruence.
  assert (Hlive : ∀ t, live c t ↔ live (obs s) t) by (intros t; by apply live_resumed).
  assert (Hlr : live (obs s) (running (obs s))) by by apply live_or_dying.
  assert (Hid : idents c = survivors (Some prev) (obs s) (idents (obs s))) by by apply idents_resumed.
  assert (Hmr : mk !! running (obs s) = None).
  { apply eq_None_not_Some. intros Hs. apply HnY, HY. by left. }
  assert (Hrc : roster c) by by apply roster_resumed.
  assert (Hhc : highest (running c) c) by by (apply highest_resumed; [|intros p0 [= <-]]).
  split_and!; try done.
  - split_and!; [done|done|done|done|by eexists].
  - split; try done.
    + exists (reaped (Some prev) (obs s) Y). split; [by eapply running_ok_in_hand|].
      rewrite Hid. by apply books_resumed.
    + apply Hlive. by rewrite H1.
    + intros t Hdt. apply dying_ident in Hdt as [f Hf]. rewrite Hid in Hf. unfold survivors in Hf.
      rewrite H9. destruct (reaps (obs s) prev) eqn:Hreap.
      * apply lookup_delete_Some in Hf as [Htp Hf]. apply ident_dying in Hf.
        destruct (Hd t Hf) as [[= ->]|?]; done.
      * apply ident_dying in Hf. destruct (Hd t Hf) as [[= ->]|?]; [|done].
        unfold reaps in Hreap. unfold has_status in Hf. destruct (threads (obs s) !! t) as [th|]; [|done].
        injection Hf as Hf. rewrite bool_decide_true in Hreap by done. simpl in Hreap.
        apply bool_decide_eq_false in Hreap. by apply dec_stable.
    + intros t Ht. apply lookup_delete_is_Some in Ht as [Htr Ht]. destruct (Hp t Ht) as (? & ? & _).
      split_and!; [by apply Hlive|done|]. rewrite H1. by intros ->.
    + intros t Ht%Hlive Hm Htr. rewrite H1 in Htr. pose proof (Hrest t Ht Hm I) as H.
      unfold rest_of in *. rewrite lookup_delete_ne by done. rewrite H2.
      destruct (p !! t) as [[o k]|]; [done|]. destruct H as [kf Hkf]. exists kf. rewrite Hid.
      unfold survivors. destruct (reaps (obs s) prev) eqn:Hreap; [|done].
      rewrite lookup_delete_ne; [done|]. intros ->. apply reaps_dying, dying_ident in Hreap as [? ?].
      congruence.
  - eapply sleep_frame_resumed; [exact Hin| |done|done]. intros q [= <-] Hdy. apply HY. right.
    by apply dying_ident.
  - by apply Hrest.
Qed.

(** A thread that is switched back to goes on. *)
Lemma resume_steps s p mk prev o k :
  machine_ok (Machine s p mk (Switched prev)) → p !! running s = Some (o, k) →
  ∃ x m', step (Machine s p mk (Switched prev)) (Resumed (running s) o x) m' ∧
    step_ok (Machine s p mk (Switched prev)) (Resumed (running s) o x) m'.
Proof.
  intros Hm Hk. destruct (switched_resumes s p mk prev Hm) as (Hres & Hback & Hb & Hfr & Hid & Hrest).
  set (c := resumed (Some prev) (obs s)) in *. unfold rest_of in Hrest. rewrite Hk in Hrest.
  specialize (Hrest prev (obs s) Hres Hback). apply swp_unfold in Hrest.
  destruct (Hrest s eq_refl) as (out & s' & Hex & Ho). destruct Hback as (Hc1 & Hc2 & _).
  fold c in Ho. rewrite <- Hc1, <- Hc2 in Ho. apply stretch_ends in Ho.
  destruct (ended_ok false o c (delete (running s) p) mk out s' Hb) as (x & m' & Hend & Hm' & Hi & Hch);
    [by destruct o|done|by rewrite Hc1, lookup_delete_eq|].
  exists x, m'. split; [by econstructor|]. refine (conj Hm' (conj _ _)); [by rewrite Hi, Hc2|].
  exists prev, k. by refine (conj eq_refl (conj Hk (conj Hfr (conj Hid Hch)))).
Qed.

(** A thread that has not run begins. *)
Lemma begun_ok (s s' : kstate) p mk (c : aview) :
  begins c (delete (running s) p) mk → running c = running s → p !! running s = None →
  (∃ Y, running_ok D Y INTR_OFF c) → obs s' = restored INTR_ON c →
  machine_ok (Machine s' p mk Calling).
Proof.
  intros Hb Hc1 Hk [Y1 Hok] Hs'. destruct (be_aside _ _ _ Hb) as (Y & Hin & HY).
  rewrite (in_hand_unique _ _ _ _ Hin (running_ok_in_hand _ _ _ _ Hok)) in HY.
  split; cbn [memory suspended making next off_processor]; rewrite Hs'.
  - exists Y1. split; [by eapply running_ok_level|exact HY].
  - apply (persist_roster c); [apply Hb|by apply persist_threads|done..].
  - intros t Hd. right. by apply (be_dying _ _ _ Hb).
  - intros t Ht. assert (Htr : t ≠ running s) by (intros ->; rewrite Hk in Ht; by destruct Ht).
    destruct (be_pool _ _ _ Hb t) as (? & ? & ?); [by rewrite lookup_delete_ne|]. by split_and!.
  - intros t Hl Hmk Htr.
    pose proof (be_rest _ _ _ Hb t Hl Hmk Htr) as H. unfold rest_of in *.
    rewrite lookup_delete_ne in H; [exact H|]. rewrite <- Hc1. by intros <-.
Qed.

Lemma begin_steps s p mk prev :
  machine_ok (Machine s p mk (Switched prev)) → p !! running s = None →
  ∃ s', step (Machine s p mk (Switched prev)) (Begun (running s)) (Machine s' p mk Calling) ∧
    step_ok (Machine s p mk (Switched prev)) (Begun (running s)) (Machine s' p mk Calling).
Proof.
  intros Hm Hk. destruct (switched_resumes s p mk prev Hm) as (Hres & Hback & Hb & Hfr & Hid & Hrest).
  unfold rest_of in Hrest. rewrite Hk in Hrest.
  destruct Hrest as [kf Hkf]. unfold idents in Hkf. rewrite lookup_fmap in Hkf.
  destruct (threads (obs s) !! running s) as [th|] eqn:Hth; [|done].
  injection Hkf as Hkf _. pose proof Hm as [(Y0 & (_ & _ & Hctx & _) & _) _ _ _ _].
  destruct (begin_runs prev th kf
    (λ o b, o = ODone RUnit ∧ b = restored INTR_ON (resumed (Some prev) (obs s))) (obs s)
    Hres Hctx Hth Hkf ltac:(done) s eq_refl) as (out & s' & Hex & -> & Hs').
  exists s'. split; [by constructor|].
  destruct Hback as (Hc1 & Hc2 & Hrc & _ & Hok).
  pose proof (begun_ok s s' p mk _ Hb Hc1 Hk Hok Hs') as Hm'.
  split; [exact Hm'|]. destruct (restored_same INTR_ON (obs s) (resumed (Some prev) (obs s))) as (Hi & Hid' & Hf).
  cbn [memory suspended making next event_change]. rewrite Hs'. split; [by rewrite Hi|]. exists prev.
  rewrite Hid'. exact (conj eq_refl (conj Hk (conj eq_refl (conj eq_refl (conj eq_refl (conj eq_refl
    (conj eq_refl (conj (Hf Hfr) Hid)))))))).
Qed.

(** A timer interrupt, if it comes, is handled. *)
Lemma tick_steps s Y s1 :
  running_ok D Y INTR_ON (obs s) → counters_ok (obs s) →
  obs s1 = set_intr (IView INTR_OFF true false) (obs s) →
  ∃ s2, exec timer_interrupt s1 (ODone ()) s2 ∧ tick_ok D Y (obs s) (obs s2).
Proof.
  intros Hok Hc Hs1. destruct (tick_keeps_places D Y _ Hok Hc s1 Hs1) as (o & b & Hex & -> & Ht).
  eauto.
Qed.

Lemma calling_ok s p mk :
  machine_ok (Machine s p mk Calling) → ∃ Y, running_ok D Y INTR_ON (obs s) ∧ books Y mk (idents (obs s)).
Proof. by intros [H _ _ _ _]. Qed.

(** ** Every step keeps the invariant *)

Lemma ended_det first o p mk out s x1 x2 m1 m2 :
  ended first o p mk out s x1 m1 → ended first o p mk out s x2 m2 → x1 = x2 ∧ m1 = m2.
Proof. intros H1 H2. by destruct H1; inversion H2. Qed.

Lemma tick_step_ok s p mk s1 s2 s3 y :
  machine_ok (Machine s p mk Calling) → counters_ok (obs s) →
  obs s1 = set_intr (IView INTR_OFF true false) (obs s) →
  exec timer_interrupt s1 (ODone ()) s2 → y = iv_yield (intr (obs s2)) →
  obs s3 = interrupt_left (obs s2) →
  step_ok (Machine s p mk Calling) Ticked (Machine s3 p mk (if y then Preempted else Calling)).
Proof.
  intros Hm Hc Hs1 Hex Hy Hs3. destruct (calling_ok _ _ _ Hm) as (Y & Hok & HY).
  destruct (tick_steps s Y s1 Hok Hc Hs1) as (s2' & Hex' & Ht).
  destruct (exec_det _ _ _ _ _ _ Hex Hex') as [_ <-].
  destruct Ht as (Hph & Hrun & Hi & (Hsem & Hw & Hsl) & (Hp & Htid) & Htk & _).
  pose proof Hp as (_ & _ & Hit & Hid & _). destruct Hm as [_ Hr Hd Hpool Hrest].
  cbn [memory suspended making next] in *. set (b := interrupt_left (obs s2)) in *.
  assert (Hlive : ∀ t, live b t ↔ live (obs s) t) by (intros t; by apply persist_live).
  assert (Hpb : persist (obs s) b) by (etrans; [exact Hp|by apply persist_threads]).
  assert (Hoff : ∀ t, off_processor (if y then Preempted else Calling) b t ↔ t ≠ running (obs s)).
  { intros t. change (running b) with (running (obs s2)). rewrite <- Hrun. by destruct y. }
  unfold step_ok. cbn [memory suspended making next event_change]. rewrite Hs3.
  refine (conj _ (conj Hi (conj _ (conj _ (conj eq_refl (conj eq_refl (conj Hrun (conj Hsem
    (conj (conj Hpb Hw) (conj Htk Hsl))))))))));
    [|done|by destruct y].
  split; cbn [memory suspended making next]; rewrite Hs3.
  - exists Y. change (idents b) with (idents (obs s2)). rewrite Hid. split; [|done].
    subst y. by destruct (iv_yield _).
  - by apply (persist_roster (obs s)); [done|done|apply Htid|apply Htid].
  - intros t [f Hf]%dying_ident. right. change (initial_thread b) with (initial_thread (obs s2)).
    rewrite Hit. destruct (Hd t) as [[=]|?]; [|done]. apply (ident_dying _ _ f). by rewrite <- Hid.
  - intros t Ht. destruct (Hpool t Ht) as (? & ? & ?). by rewrite Hlive, Hoff.
  - intros t Hl%Hlive Hmk Ht%Hoff. pose proof (Hrest t Hl Hmk Ht) as H. unfold rest_of in *.
    change (idle_thread b) with (idle_thread (obs s2)). change (idents b) with (idents (obs s2)).
    by rewrite Hi, Hid.
Qed.

Lemma step_keeps m e m' : frames_aligned → machine_ok m → step m e m' → step_ok m e m'.
Proof.
  intros Hal Hm Hstep. destruct Hstep as [s p mk o out s' x m' Ha Hex Hend|s p mk out s' x m' Hex Hend
    |s p mk prev o k out s' x m' Hk Hex Hend|s p mk prev s' Hk Hex|s p mk s1 s2 s3 Hl Hc Hs1 Hex y Hs3].
  - destruct (call_steps s p mk o Hal Hm Ha) as (x0 & m0 & Hst & Hok).
    inversion Hst as [? ? ? ? out0 s0 ? ? ? Hex0 Hend0| | | |]; subst.
    destruct (exec_det _ _ _ _ _ _ Hex Hex0) as [-> ->].
    by destruct (ended_det _ _ _ _ _ _ _ _ _ _ Hend Hend0) as [-> ->].
  - destruct (preempted_steps s p mk Hm) as (x0 & m0 & Hst & Hok).
    inversion Hst as [|? ? ? out0 s0 ? ? Hex0 Hend0| | |]; subst.
    destruct (exec_det _ _ _ _ _ _ Hex Hex0) as [-> ->].
    by destruct (ended_det _ _ _ _ _ _ _ _ _ _ Hend Hend0) as [-> ->].
  - destruct (resume_steps s p mk prev o k Hm Hk) as (x0 & m0 & Hst & Hok).
    inversion Hst as [| |? ? ? ? ? k0 out0 s0 ? ? Hk0 Hex0 Hend0| |]; subst.
    rewrite Hk in Hk0. injection Hk0 as <-.
    destruct (exec_det _ _ _ _ _ _ Hex Hex0) as [-> ->].
    by destruct (ended_det _ _ _ _ _ _ _ _ _ _ Hend Hend0) as [-> ->].
  - destruct (begin_steps s p mk prev Hm Hk) as (s0 & Hst & Hok).
    inversion Hst as [| | |? ? ? ? ? ? Hex0|]; subst.
    by destruct (exec_det _ _ _ _ _ _ Hex Hex0) as [_ ->].
  - by eapply (tick_step_ok s p mk s1 s2 s3 y).
Qed.

Lemma steps_keep m es m' :
  frames_aligned → machine_ok m → steps m es m' →
  machine_ok m' ∧ idle_thread (obs (memory m')) = idle_thread (obs (memory m)) ∧
  semas (obs (memory m')) = foldl (λ v e, event_effect e v) (semas (obs (memory m))) es.
Proof.
  intros Hal Hm Hs. induction Hs as [m|m e m1 es m2 Hst _ IH]; [done|].
  destruct (step_keeps _ _ _ Hal Hm Hst) as (Hm1 & Hi & Hsem). destruct (IH Hm1) as (H & Hi' & Hsem').
  refine (conj H (conj _ _)); [congruence|]. by rewrite Hsem', (event_semas _ _ _ Hsem).
Qed.
End invariant.
