(* ===== verification/MachineSpec.v ===== *)
(** The properties of the machine: in all runs of all programs the threads stay
    in their places, nothing faults, and semaphores count. *)
From S2P Require Import Prelude Env Kernel Thread Mlfqs Ready Sched SchedSpec Wait.
From S2P Require Import Synch SemaSpec Lifecycle Timer TimerSpec Places Roster Machine Calls LifeCalls.
From S2P Require Import MachineInv SampleSched.

Section sums.
Context {E : Env} {EL : EnvLaws E} {F : SwitchFrames} (D : gset sema_ptr).

(** ** What the events add up to *)

(** Up calls made, and down calls (and successful tries) that have returned. *)
Definition ups (sm : sema_ptr) (e : event) : Z :=
  match e with Called _ (OUp sm') _ => if decide (sm' = sm) then 1 else 0 | _ => 0 end.

Definition downs (sm : sema_ptr) (e : event) : Z :=
  match e with
  | Called _ (ODown sm') (Returns _) | Resumed _ (ODown sm') (Returns _)
  | Called _ (OTryDown sm') (Returns (RBool true)) => if decide (sm' = sm) then 1 else 0
  | _ => 0
  end.

Definition total (f : event → Z) (es : list event) : Z := foldr (λ e n, f e + n) 0 es.

Lemma alter_add (m : gmap sema_ptr Z) sm sm' v (d : Z) (f : Z → Z) :
  (∀ x, f x = x + d) → m !! sm = Some v →
  alter f sm' m !! sm = Some (v + if decide (sm' = sm) then d else 0).
Proof.
  intros Hf Hv. case_decide as Hd.
  - subst sm'. by rewrite lookup_alter_eq, Hv, <- Hf.
  - rewrite lookup_alter_ne by done. by rewrite Hv, Z.add_0_r.
Qed.

Lemma event_effect_value e (m : gmap sema_ptr Z) sm v :
  m !! sm = Some v → event_effect e m !! sm = Some (v + ups sm e - downs sm e).
Proof.
  intros Hv.
  assert (Hup : ∀ sm', alter Z.succ sm' m !! sm = Some (v + if decide (sm' = sm) then 1 else 0))
    by (intros sm'; apply alter_add; [lia|done]).
  assert (Hdn : ∀ sm', alter Z.pred sm' m !! sm = Some (v + if decide (sm' = sm) then -1 else 0))
    by (intros sm'; apply alter_add; [lia|done]).
  destruct e as [t o x|t o x|t|]; [destruct o, x as [[|[]| |]|w]..| |]; simpl; rewrite ?Hup, ?Hdn, ?Hv;
    f_equal; repeat case_decide; lia.
Qed.

Lemma effects_value es sm : ∀ (m : gmap sema_ptr Z) v,
  m !! sm = Some v →
  foldl (λ m e, event_effect e m) m es !! sm = Some (v + total (ups sm) es - total (downs sm) es).
Proof.
  induction es as [|e es IH]; intros m v Hv; simpl; [rewrite Hv; f_equal; lia|].
  rewrite (IH _ (v + ups sm e - downs sm e)); [f_equal; lia|]. by apply event_effect_value.
Qed.

(** ** Consecutive ticks *)

Lemma tick_step m m' :
  machine_ok D m → step m Ticked m' →
  next m = Calling ∧
  thread_ticks (obs (memory m')) = thread_ticks (obs (memory m)) + 1 ∧
  next m' = (if TIME_SLICE <=? thread_ticks (obs (memory m)) + 1 then Preempted else Calling) ∧
  running (obs (memory m')) = running (obs (memory m)).
Proof.
  intros Hm Hs. inversion Hs as [| | | |s p mk s1 s2 s3 Hl Hc Hs1 Hex y Hs3]; subst.
  destruct (calling_ok D _ _ _ Hm) as (Y & Hok & _).
  destruct (tick_steps D s Y s1 Hok Hc Hs1) as (s2' & Hex' & Ht).
  destruct (exec_det _ _ _ _ _ _ Hex Hex') as [_ <-].
  destruct Ht as (_ & Hrun & _ & _ & _ & _ & Hy & Hticks). cbn [memory next]. rewrite Hs3.
  split_and!; [done|exact Hticks| |exact Hrun]. destruct (Z.leb_spec TIME_SLICE (thread_ticks (obs s) + 1)).
  - subst y. by rewrite (proj2 Hy).
  - subst y. destruct (iv_yield _); [|done]. pose proof (proj1 Hy eq_refl). lia.
Qed.

Lemma ticks_steps n : ∀ m m',
  frames_aligned → machine_ok D m → next m = Calling → steps m (replicate n Ticked) m' → (0 < n)%nat →
  thread_ticks (obs (memory m')) = thread_ticks (obs (memory m)) + Z.of_nat n ∧
  thread_ticks (obs (memory m')) ≤ TIME_SLICE ∧
  next m' = (if TIME_SLICE <=? thread_ticks (obs (memory m')) then Preempted else Calling) ∧
  running (obs (memory m')) = running (obs (memory m)).
Proof.
  induction n as [|n IH]; intros m m' Hal Hm Hn Hs Hpos; [lia|].
  inversion Hs as [|? ? m1 ? ? Hst Hs1]; subst.
  destruct (tick_step _ _ Hm Hst) as (_ & Ht & Hn1 & Hrun). rewrite <- Ht in Hn1.
  destruct (step_keeps D _ _ _ Hal Hm Hst) as (Hm1 & _).
  destruct n as [|n].
  - inversion Hs1; subst. split_and!; [lia| |done|done].
    destruct (mo_phase _ _ Hm) as (Y & Hph & _). rewrite Hn in Hph. destruct Hph as (_ & _ & _ & _ & Hlt).
    lia.
  - assert (Hn2 : next m1 = Calling).
    { inversion Hs1 as [|? ? ? ? ? Hst1 _]; subst. by destruct (tick_step _ _ Hm1 Hst1). }
    destruct (IH m1 m' Hal Hm1 Hn2 Hs1 ltac:(lia)) as (H1 & H2 & H3 & H4).
    split_and!; [lia|done|done|congruence].
Qed.
End sums.

(** * Properties *)
Section properties.
Context {E : Env} {EL : EnvLaws E} {F : SwitchFrames} (D : gset sema_ptr).

(** C1: However the calls of the threads interleave at their switches, whichever
    threads are created and end, and whenever between two calls the timer
    interrupt comes, the machine never gets stuck and nothing faults: wherever a
    run has come to, every call the running thread may make runs to its return or
    to a switch, a preempted thread can yield, a thread that is switched to goes
    on with its call or, if it has not run, begins, and a timer interrupt is
    handled to its end.  (An interrupt inside a call, where the code has
    interrupts on, is not a step of the machine.) *)
Theorem machine_safe m es m' :
  frames_aligned → machine_ok D m → steps m es m' →
  let t := running (memory m') in
  match next m' with
  | Calling =>
      (∀ o, allowed o (making m') (obs (memory m')) → ∃ x m'', step m' (Called t o x) m'') ∧
      (∀ s1, counters_ok (obs (memory m')) →
         obs s1 = set_intr (IView INTR_OFF true false) (obs (memory m')) →
         ∃ s2, exec timer_interrupt s1 (ODone ()) s2)
  | Preempted => ∃ x m'', step m' (Called t OPreempt x) m''
  | Switched _ =>
      match suspended m' !! t with
      | Some (o, _) => ∃ x m'', step m' (Resumed t o x) m''
      | None => ∃ m'', step m' (Begun t) m''
      end
  end.
Proof.
  intros Hal Hm Hs. destruct (steps_keep D _ _ _ Hal Hm Hs) as (Hm' & _).
  destruct m' as [s p mk [| |prev]]; cbn [next memory suspended making].
  - split.
    + intros o Ho. destruct (call_steps D s p mk o Hal Hm' Ho) as (x & m'' & ? & _). eauto.
    + intros s1 Hc Hs1. destruct (calling_ok D _ _ _ Hm') as (Y & Hok & _).
      destruct (tick_steps D s Y s1 Hok Hc Hs1) as (s2 & ? & _). eauto.
  - destruct (preempted_steps D s p mk Hm') as (x & m'' & ? & _). eauto.
  - destruct (p !! running s) as [[o k]|] eqn:Hk.
    + destruct (resume_steps D s p mk prev o k Hm' Hk) as (x & m'' & ? & _). eauto.
    + destruct (begin_steps D s p mk prev Hm' Hk) as (s' & ? & _). eauto.
Qed.

(** C3: In every state of every run, each thread other than the running one and
    the idle one is in exactly one place: among the ready threads, asleep,
    waiting for one semaphore, being made, or ended; its status says so; and no
    other thread is marked as running.  The ready threads and the waiters of each
    semaphore are in the order of their priorities, the sleeping threads in that
    of their wake-up ticks.  Whenever the processor is handed over, no ready
    thread has a higher priority than the new one, which has not ended. *)
Theorem machine_places m es m' :
  frames_aligned → machine_ok D m → steps m es m' →
  let a := obs (memory m') in
  (∃ Y q ss W, placed D Y [running a] q ss W a ∧ ready a q ∧
     ∀ t, t ∈ Y ↔ is_Some (making m' !! t) ∨ has_status a t THREAD_DYING) ∧
  (∀ t, live a t → t ≠ running a → has_status a t THREAD_READY ∨ has_status a t THREAD_BLOCKED) ∧
  match next m' with
  | Switched _ => highest (running a) a ∧ live a (running a)
  | _ => has_status a (running a) THREAD_RUNNING
  end.
Proof.
  intros Hal Hm Hs a. destruct (steps_keep D _ _ _ Hal Hm Hs) as (Hm' & _).
  destruct (mo_phase _ _ Hm') as (Y & Hph & HY & _). fold a in Hph, HY.
  pose proof (phase_in_hand D Y _ _ Hph) as Hin. pose proof Hin as (q & ss & W & Hpl & Hr).
  refine (conj _ (conj _ _)).
  - exists Y, q, ss, W. split_and!; [done..|]. intros t. rewrite HY.
    split; (intros [?|Hd]; [by left|right]).
    + destruct Hd as [f Hf]. by eapply ident_dying.
    + by apply dying_ident.
  - intros t Ht Hne.
    assert (Hv : is_Some (threads a !! t)) by (apply idents_is_Some; destruct Ht as [f ->]; by eexists).
    destruct (pl_all Hpl t Hv) as [?%list_elem_of_singleton|[Hi|[Hq|[Hss|[(sm & Hsm & Hw)|HtY]]]]];
      [done|..].
    + destruct (pl_idle Hpl) as (i & Hi' & _ & Hst). rewrite <- Hi in Hi'. injection Hi' as ->.
      apply Hst. by intros ?%list_elem_of_singleton.
    + left. by apply (pl_q Hpl).
    + right. by apply (pl_ss Hpl).
    + right. by apply (pl_W Hpl sm).
    + destruct (pl_Y Hpl t HtY) as (_ & _ & [Hb|Hd] & _); [by right|].
      by destruct (live_not_dying a t).
  - destruct (next m'); [apply Hph..|]. destruct Hph as (_ & _ & _ & _ & Hh & Hd). split; [done|].
    apply live_or_dying; [|done]. by eapply in_hand_aside.
Qed.

(** C2: Semaphores count.  In every run the value of a semaphore is its initial
    value, plus the ups called, minus the downs that have returned (and the
    tries that have succeeded); so no more downs return than the initial value
    and the ups allow, in whatever order the threads run.  A semaphore that
    starts at 1 thus admits one thread at a time. *)
Theorem semaphores_count m es m' sm v :
  frames_aligned → machine_ok D m → steps m es m' → semas (obs (memory m)) !! sm = Some v →
  let v' := v + total (ups sm) es - total (downs sm) es in
  semas (obs (memory m')) !! sm = Some v' ∧ 0 ≤ v' < UINT_MAX ∧
  total (downs sm) es ≤ v + total (ups sm) es.
Proof.
  intros Hal Hm Hs Hv. destruct (steps_keep D _ _ _ Hal Hm Hs) as (Hm' & _ & Hsem).
  pose proof (effects_value es sm _ _ Hv) as Hv'. rewrite <- Hsem in Hv'.
  destruct (mo_phase _ _ Hm') as (Y & Hph & _).
  destruct (phase_in_hand D Y _ _ Hph) as (q & ss & W & Hpl & _).
  pose proof (pl_values Hpl _ _ Hv') as Hr. cbv zeta. split_and!; [done|lia..].
Qed.

(** C20: A thread that does not call the kernel is preempted by the tick that
    completes its time slice, and not before: after [n] consecutive ticks it
    still has the processor; it is running as long as its slice is not over, and
    once it is over it has been made to yield.  There cannot be more ticks than
    that. *)
Theorem slice_ends m n m' :
  frames_aligned → machine_ok D m → next m = Calling → steps m (replicate n Ticked) m' →
  (0 < n)%nat →
  0 ≤ thread_ticks (obs (memory m)) ∧
  thread_ticks (obs (memory m)) + Z.of_nat n ≤ TIME_SLICE ∧
  running (memory m') = running (memory m) ∧
  (thread_ticks (obs (memory m)) + Z.of_nat n < TIME_SLICE → next m' = Calling) ∧
  (thread_ticks (obs (memory m)) + Z.of_nat n = TIME_SLICE →
     next m' = Preempted ∧ ∃ x m'', step m' (Called (running (memory m')) OPreempt x) m'').
Proof.
  intros Hal Hm Hn Hs Hpos. destruct (ticks_steps D n m m' Hal Hm Hn Hs Hpos) as (H1 & H2 & H3 & Hrun).
  destruct (steps_keep D _ _ _ Hal Hm Hs) as (Hm' & _).
  split_and!; [|lia|exact Hrun|..].
  - destruct (mo_phase _ _ Hm) as (Y & Hph & _). rewrite Hn in Hph.
    by destruct Hph as (_ & _ & _ & _ & ? & _).
  - intros Hlt. rewrite H3, H1. by destruct (Z.leb_spec TIME_SLICE
      (thread_ticks (obs (memory m)) + Z.of_nat n)); [lia|].
  - intros Heq. assert (Hp : next m' = Preempted).
    { rewrite H3. destruct (Z.leb_spec TIME_SLICE (thread_ticks (obs (memory m')))); [done|lia]. }
    split; [done|]. destruct m' as [s p mk ph]. cbn in Hp. subst ph.
    destruct (preempted_steps D s p mk Hm') as (x & m'' & ? & _). eauto.
Qed.
End properties.

(** * Witnesses *)
Section initial.
Context {E : Env} {EL : EnvLaws E} {F : SwitchFrames} (D : gset sema_ptr).

(** The rest of a call of [thread_yield] (or of a round of [idle]) that has given
    up the processor. *)
Definition yield_rest (prev : tptr) : prog ret :=
  act (thread_schedule_tail (Some prev));; act (k_intr_set_level INTR_ON);; mret RUnit.

Lemma yield_rest_ok t i o : o = OYield ∨ o = OIdle → rest_ok D t i o yield_rest.
Proof.
  intros Ho prev c Hres (Hrun & Hi & Hr & Hh & Y & Hok).
  assert (Hq : quiet o) by by destruct Ho as [->| ->].
  apply swp_act_bind, awp_thread_schedule_tail; [done|].
  apply swp_act_bind, awp_intr_set_level. apply swp_ret.
  generalize dependent (resumed (Some prev) c). intros s Hrun Hi Hr Hh Hok.
  refine (conj _ (conj eq_refl (conj eq_refl (conj _ (outranks_now _ _ _ Hh (or_intror eq_refl)))))).
  - exists Y. split; [by eapply running_ok_in_hand|]. rewrite quiet_aside by done.
    by eapply running_ok_level.
  - apply changes_same; [done|by left|done|done|by split_and!|by apply persist_threads].
Qed.
End initial.

Section witnesses.
#[local] Existing Instances concrete_env concrete_env_laws word_frames.

(** Thread 1 runs, 2 and 3 are ready, 9 is the idle thread; nobody sleeps or
    waits for semaphore 1, whose value is 1; nobody is being made. *)
Definition wit_pool : pool :=
  list_to_map [(2%positive, (OYield, yield_rest)); (3%positive, (OYield, yield_rest));
               (9%positive, (OIdle, yield_rest))].

Definition wit_memory : kstate :=
  set_semas {[sema_at 1 := 1; sema_of_lock tid_lock := 1]}
    (set_holders {[tid_lock := None]} (set_intr (IView INTR_ON false false : istate)
      (sample_state false
        [(1%positive, sample_thread 1 THREAD_RUNNING 31); (2%positive, sample_thread 2 THREAD_READY 31);
         (3%positive, sample_thread 3 THREAD_READY 20); (9%positive, sample_thread 9 THREAD_BLOCKED 0)]
        [(ready_list, elems [2; 3]%positive); (sleep_list, []); (sema_waiters (sema_at 1), []);
         (all_list, thread_allelem <$> [1; 9; 2; 3]%positive); (lock_waiters tid_lock, []);
         (sema_waiters (sema_of_lock tid_lock), []); (locks_held 1, []); (locks_held 2, []);
         (locks_held 3, []); (locks_held 9, [])]))).

Definition wit_machine : machine := Machine wit_memory wit_pool ∅ Calling.

Definition wit_D : gset sema_ptr := {[sema_at 1; sema_of_lock tid_lock]}.

Lemma wit_threads (P : tptr → thread → Prop) :
  Forall (λ p, P p.1 p.2)
    [(1%positive, sample_thread 1 THREAD_RUNNING 31); (2%positive, sample_thread 2 THREAD_READY 31);
     (3%positive, sample_thread 3 THREAD_READY 20); (9%positive, sample_thread 9 THREAD_BLOCKED 0)] →
  ∀ t th, threads (obs wit_memory) !! t = Some th → P t th.
Proof.
  rewrite Forall_forall. intros H t th Hth. apply (H (t, th)).
  exact (elem_of_list_to_map_2 (M := gmap tptr) _ _ _ Hth).
Qed.

Lemma wit_unlinked e :
  e ∉ elems [2; 3]%positive → e ∉ thread_allelem <$> [1; 9; 2; 3]%positive →
  unlinked (lists (obs wit_memory)) e.
Proof.
  intros H1 H2 l xs Hl. apply (elem_of_list_to_map_2 (M := gmap list_ptr)) in Hl.
  assert (Hxs : xs = elems [2; 3]%positive ∨ xs = thread_allelem <$> [1; 9; 2; 3]%positive ∨ xs = []).
  { rewrite !elem_of_cons, elem_of_nil in Hl.
    repeat destruct Hl as [[= _ ->]|Hl]; auto. done. }
  destruct Hxs as [->|[->| ->]]; [done..|apply not_elem_of_nil].
Qed.

Lemma wit_semas : dom (semas (obs wit_memory)) = wit_D.
Proof. vm_compute. reflexivity. Qed.

Lemma wit_placed : placed wit_D ∅ [1]%positive [2; 3]%positive [] (λ _, []) (obs wit_memory).
Proof.
  split.
  - done.
  - exists 9%positive. split_and!; [done|by eexists|]. by right.
  - intros t ->%list_elem_of_singleton. by eexists.
  - apply wit_threads. repeat constructor; by_test.
  - apply (bool_decide_eq_true_1 _). vm_compute. reflexivity.
  - apply sorted_on_cons. split; [|by apply sorted_on_cons; split; [intros ? ?%elem_of_nil|constructor]].
    intros u ->%list_elem_of_singleton. by vm_compute.
  - intros sm. by rewrite <- elem_of_dom, wit_semas.
  - intros sm v Hv. change (semas (obs wit_memory)) with
      ({[sema_at 1 := 1; sema_of_lock tid_lock := 1]} : gmap sema_ptr Z) in Hv.
    unfold UINT_MAX. apply lookup_insert_Some in Hv as [[_ <-]|[_ [_ <-]%lookup_singleton_Some]]; lia.
  - intros sm [->%elem_of_singleton| ->%elem_of_singleton]%elem_of_union; done.
  - done.
  - constructor.
  - intros t [->| ->%list_elem_of_singleton]%elem_of_cons; (split_and!; [|done|done]);
      by intros ?%list_elem_of_singleton.
  - by intros t ?%elem_of_nil.
  - by intros sm t _ ?%elem_of_nil.
  - intros t [th Hth]. revert t th Hth. apply wit_threads. repeat constructor; simpl; set_solver.
  - by intros t ?%elem_of_empty.
  - intros t Ht _. apply wit_unlinked; [by intros (? & [= <-] & ?)%list_elem_of_fmap|].
    by intros (? & ? & _)%list_elem_of_fmap.
  - intros t _. by apply wit_unlinked; intros (? & ? & _)%list_elem_of_fmap.
  - constructor.
Qed.

Lemma wit_live t : live (obs wit_memory) t ↔ t ∈ [1; 9; 2; 3]%positive.
Proof.
  split.
  - intros [f Hf]. unfold idents in Hf. rewrite lookup_fmap in Hf.
    destruct (threads (obs wit_memory) !! t) as [th|] eqn:Hth; [|done]. clear Hf.
    revert t th Hth. apply wit_threads. repeat constructor; simpl; set_solver.
  - rewrite !elem_of_cons, elem_of_nil. intros Ht.
    assert (H : idents (obs wit_memory) !! t = Some (None, false)).
    { repeat destruct Ht as [->|Ht]; try (vm_compute; reflexivity). done. }
    by exists None.
Qed.

Lemma wit_roster : roster (obs wit_memory).
Proof.
  split; try done.
  - exists [1; 9; 2; 3]%positive. split; [done|]. intros t. symmetry. apply wit_live.
  - intros t Ht. rewrite wit_live in Ht. apply wit_unlinked.
    + by intros (? & ? & _)%list_elem_of_fmap.
    + by intros (? & [= <-] & ?)%list_elem_of_fmap.
  - intros t [th Hth]. revert t th Hth. apply wit_threads. repeat constructor; by_test.
  - intros t [th Hth]. revert t th Hth. apply wit_threads. repeat constructor.
  - by apply wit_unlinked; intros (? & ? & _)%list_elem_of_fmap.
Qed.

Lemma wit_machine_ok : machine_ok wit_D wit_machine.
Proof.
  assert (Hnd : ∀ t, ¬ has_status (obs wit_memory) t THREAD_DYING).
  { intros t Hd. unfold has_status in Hd.
    destruct (threads (obs wit_memory) !! t) as [th|] eqn:Hth; [|done]. revert t th Hth Hd.
    apply (wit_threads (λ t th, status <$> Some th = Some THREAD_DYING → False)).
    repeat constructor; discriminate. }
  split; cbn [memory suspended making next wit_machine].
  - exists ∅. split.
    + split_and!; [done|done| |done|done|done]. exists [2; 3]%positive, [], (λ _, []).
      split; [exact wit_placed|]. by left.
    + split; [|by intros t [? ?]]. intros t. split; [by intros ?%elem_of_empty|].
      intros [[? ?]|[f Hf]]; [done|]. by apply ident_dying, Hnd in Hf.
  - exact wit_roster.
  - by intros t ?%Hnd.
  - intros t [[o k] Hk]. apply (elem_of_list_to_map_2 (M := gmap tptr)) in Hk.
    assert (Ht : t ∈ [2; 3; 9]%positive).
    { rewrite !elem_of_cons, elem_of_nil in Hk. rewrite !elem_of_cons.
      destruct Hk as [[= -> _]|[[= -> _]|[[= -> _]|[]]]]; auto. }
    split_and!; [apply wit_live; set_solver|done|]. change (t ≠ 1%positive). set_solver.
  - intros t Ht%wit_live _ Hne. unfold rest_of. rewrite !elem_of_cons, elem_of_nil in Ht.
    repeat destruct Ht as [->|Ht]; try done; apply yield_rest_ok; auto.
Qed.

Lemma machine_safe_witness :
  ∃ x m'', step wit_machine (Called 1 (ODown (sema_at 1)) x) m''.
Proof.
  destruct (machine_safe wit_D _ _ _ (ltac:(done) : frames_aligned) wit_machine_ok (steps_nil _)) as [H _].
  apply (H (ODown (sema_at 1))). split; [done|]. split; [done|by eexists].
Defined.

(** The runs are computed up to what the witnesses say about them. *)
Definition ends_in {A} (o : out A → bool) (r : option (out A * kstate)) : bool :=
  match r with Some (x, _) => o x | None => false end.

Lemma run_ends {A} fuel (p : prog A) s o :
  ends_in o (run fuel p s) = true → ∃ x s', exec p s x s' ∧ o x = true.
Proof.
  intros H. destruct (run fuel p s) as [[x s']|] eqn:Hr; [|done].
  exists x, s'. split; [by eapply run_exec|exact H].
Qed.

(** Thread 1 yields to thread 2, of the same priority. *)
Lemma wit_yields : ∃ m', steps wit_machine [Called 1 OYield (Yields 2)] m' ∧
  (∃ prev, next m' = Switched prev) ∧ running (obs (memory m')) = 2%positive.
Proof.
  destruct (run_ends 60 (run_op OYield) wit_memory
    (λ x, match x with OSwitch n _ => bool_decide (n = 2%positive) | _ => false end))
    as ([r|n k|e] & s' & Hex & Ho); [vm_compute; reflexivity|done| |done].
  apply bool_decide_eq_true in Ho as ->.
  eexists. split; [eapply steps_cons, steps_nil|].
  - eapply step_call; [done|exact Hex|by constructor].
  - split; [by eexists|done].
Qed.

Lemma machine_places_witness : ∃ m',
  steps wit_machine [Called 1 OYield (Yields 2)] m' ∧ highest 2 (obs (memory m')).
Proof.
  destruct wit_yields as (m' & Hs & [prev Hn] & Hr). exists m'. split; [exact Hs|].
  pose proof (proj2 (proj2 (machine_places wit_D _ _ _ (ltac:(done) : frames_aligned)
    wit_machine_ok Hs))) as H.
  rewrite Hn, Hr in H. exact (proj1 H).
Defined.

Lemma wit_downs : ∃ m', steps wit_machine [Called 1 (ODown (sema_at 1)) (Returns RUnit)] m'.
Proof.
  destruct (run_ends 60 (run_op (ODown (sema_at 1))) wit_memory
    (λ x, match x with ODone RUnit => true | _ => false end))
    as ([[]|n k|e] & s' & Hex & Ho); [vm_compute; reflexivity|..]; try done.
  eexists. eapply steps_cons, steps_nil.
  eapply step_call; [split; [done|split; [done|by eexists]]|exact Hex|constructor].
Qed.

Lemma semaphores_count_witness : ∃ m',
  steps wit_machine [Called 1 (ODown (sema_at 1)) (Returns RUnit)] m' ∧
  semas (obs (memory m')) !! sema_at 1 = Some 0.
Proof.
  destruct wit_downs as [m' Hs]. exists m'. split; [exact Hs|].
  exact (proj1 (semaphores_count wit_D _ _ _ (sema_at 1) 1 (ltac:(done) : frames_aligned)
    wit_machine_ok Hs eq_refl)).
Defined.

(** A tick, and [n] ticks, as a function. *)
Definition tick (m : machine) : option machine :=
  let s := memory m in
  match next m with
  | Calling =>
      if decide (iv_level (intr (obs s)) = INTR_ON ∧ counters_ok (obs s)) then
        match run 60 timer_interrupt (set_intr (IView INTR_OFF true false : istate) s) with
        | Some (ODone _, s2) =>
            let y := iv_yield (intr (obs s2)) in
            Some (Machine
              (set_intr (IView (if y then INTR_OFF else INTR_ON) false false : istate) s2)
              (suspended m) (making m) (if y then Preempted else Calling))
        | _ => None
        end
      else None
  | _ => None
  end.

Fixpoint ticking (n : nat) (m : machine) : option machine :=
  match n with O => Some m | S n => m' ← tick m; ticking n m' end.

Lemma tick_is_step m m' : tick m = Some m' → step m Ticked m'.
Proof.
  destruct m as [s p mk []]; try done. unfold tick. cbn [memory next suspended making].
  case_decide as H; [|done]. destruct H as [Hl Hc].
  destruct (run 60 _ _) as [[[[]|n k|e] s2]|] eqn:Hr; try done. intros [= <-].
  by refine (step_tick s p mk _ s2 _ Hl Hc _ (run_exec _ _ _ _ _ Hr) _).
Qed.

Lemma ticking_steps n : ∀ m m', ticking n m = Some m' → steps m (replicate n Ticked) m'.
Proof.
  induction n as [|n IH]; intros m m' H; simpl in *; [injection H as <-; constructor|].
  apply bind_Some in H as (m1 & H1 & H2). eapply steps_cons; [by apply tick_is_step|by apply IH].
Qed.

(** Four ticks end the slice of thread 1. *)
Lemma wit_ticks : ∃ m', steps wit_machine (replicate 4 Ticked) m'.
Proof.
  assert (H : is_Some (ticking 4 wit_machine)) by
    (apply (bool_decide_eq_true_1 _); vm_compute; reflexivity).
  destruct H as [m' Hm']. exists m'. by apply ticking_steps.
Qed.

Lemma slice_ends_witness : ∃ m',
  steps wit_machine (replicate 4 Ticked) m' ∧ next m' = Preempted.
Proof.
  destruct wit_ticks as [m' Hs]. exists m'. split; [exact Hs|].
  destruct (slice_ends wit_D _ 4 _ (ltac:(done) : frames_aligned) wit_machine_ok eq_refl Hs)
    as (_ & _ & _ & _ & H); [lia|]. apply (H eq_refl).
Defined.
End witnesses.
