(* ===== verification/Wakeups.v ===== *)
(** No lost wake-ups: in all runs of the machine there are always as many threads
    on their way back from a wait for a semaphore as the semaphore has to give,
    as long as others still wait for it. *)
From S2P Require Import Prelude Env Kernel Thread Mlfqs Ready Sched SchedSpec Wait.
From S2P Require Import Synch SemaSpec Lifecycle Timer TimerSpec Places Roster Machine Calls LifeCalls.
From S2P Require Import MachineInv MachineSpec SampleSched.

Section wakeups.
Context {E : Env} {EL : EnvLaws E} {F : SwitchFrames} (D : gset sema_ptr).

(** [t] is suspended in a call of [o]. *)
Definition suspended_in (p : pool) (o : op) (t : tptr) : Prop := ∃ k, p !! t = Some (o, k).

(** The threads in [S] have been taken off the waiters of [sm], but have not gone
    on yet. *)
Definition woken_from (sm : sema_ptr) (ws : list tptr) (p : pool) (S : gset tptr) : Prop :=
  ∀ t, t ∈ S → (t ∉ ws) ∧ suspended_in p (ODown sm) t.

(** A semaphore of value [v] with the waiters [ws]. *)
Definition covered (sm : sema_ptr) (ws : list tptr) (v : Z) (p : pool) : Prop :=
  (∀ t, t ∈ ws → suspended_in p (ODown sm) t) ∧
  (ws ≠ [] → ∃ S, v ≤ Z.of_nat (size S) ∧ woken_from sm ws p S).

(** The calls in which the processor may be given up and taken back. *)
Definition gives_up (o : op) : Prop :=
  match o with OTryDown _ | OMake _ _ | OExit => False | _ => True end.

Record wakes_ok (m : machine) : Prop := WakesOk {
  wk_calls : ∀ o t, suspended_in (suspended m) o t →
    gives_up o ∧ (blocks o → Some t ≠ idle_thread (obs (memory m)));
  wk_sleeps : ∀ t, sleeps (obs (memory m)) t → ∃ n, suspended_in (suspended m) (OSleep n) t;
  wk_waits : ∀ sm ws v, sm ∈ D → waits (obs (memory m)) sm ws →
    semas (obs (memory m)) !! sm = Some v → covered sm ws v (suspended m)
}.

Lemma suspended_in_inj p o o' t : suspended_in p o t → suspended_in p o' t → o = o'.
Proof. intros [k H] [k' H']. congruence. Qed.

Lemma suspended_here p o k u : suspended_in (<[u := (o, k)]> p) o u.
Proof. exists k. apply lookup_insert_eq. Qed.

(** ** How the waiters stay covered *)

Lemma covered_mono sm ws v v' p p' :
  (∀ t, suspended_in p (ODown sm) t → suspended_in p' (ODown sm) t) → v' ≤ v →
  covered sm ws v p → covered sm ws v' p'.
Proof.
  intros Hp Hv [Hws HS]. split; [by eauto|]. intros Hne. destruct (HS Hne) as (S & Hn & HSw).
  exists S. split; [lia|]. intros t Ht. destruct (HSw t Ht). eauto.
Qed.

(** An up wakes the first waiter. *)
Lemma covered_up sm ws v p : NoDup ws → covered sm ws v p → covered sm (tail ws) (v + 1) p.
Proof.
  intros Hnd [Hws HS]. destruct ws as [|w ws]; [by split; [intros t ?%elem_of_nil|]|].
  apply NoDup_cons in Hnd as [Hw _]. simpl. split; [intros t Ht; apply Hws; by right|].
  intros _. destruct (HS ltac:(done)) as (S & Hn & HSw). exists ({[w]} ∪ S). split.
  - rewrite size_union, size_singleton; [lia|]. apply disjoint_singleton_l. intros HwS.
    destruct (HSw w HwS) as [Hno _]. apply Hno. by left.
  - intros t [->%elem_of_singleton|Ht]%elem_of_union; [split; [done|apply Hws; by left]|].
    destruct (HSw t Ht) as [Hno Hin]. split; [|done]. contradict Hno. by right.
Qed.

(** A woken thread goes on and takes its unit. *)
Lemma covered_taken sm ws v p p' u :
  u ∉ ws → (∀ t, t ≠ u → suspended_in p (ODown sm) t → suspended_in p' (ODown sm) t) →
  covered sm ws v p → covered sm ws (v - 1) p'.
Proof.
  intros Hu Hp [Hws HS]. split; [intros t Ht; apply Hp; [by intros ->|by apply Hws]|].
  intros Hne. destruct (HS Hne) as (S & Hn & HSw). exists (S ∖ {[u]}). split.
  - pose proof (size_difference_alt S {[u]}) as Hsz.
    pose proof (subseteq_size (S ∩ {[u]}) {[u]} ltac:(set_solver)) as Hle.
    rewrite size_singleton in Hle. lia.
  - intros t [Ht Htu]%elem_of_difference. rewrite elem_of_singleton in Htu.
    destruct (HSw t Ht). auto.
Qed.

(** A thread waits: the semaphore has nothing to give. *)
Lemma covered_wait sm ws p p' (ts : gmap tptr thread) u :
  (∀ t, t ≠ u → suspended_in p (ODown sm) t → suspended_in p' (ODown sm) t) →
  suspended_in p' (ODown sm) u → covered sm ws 0 p → covered sm (enqueue ts u ws) 0 p'.
Proof.
  intros Hp Hu [Hws _]. split.
  - intros t [->|Ht]%elem_of_insert_before; [done|].
    destruct (decide (t = u)) as [->|Hne]; [done|by apply Hp, Hws].
  - intros _. exists ∅. split; [by rewrite size_empty|]. by intros t ?%elem_of_empty.
Qed.

(** ** What the places say *)

Lemma machine_in_hand m :
  machine_ok D m → ∃ Y, in_hand D Y (running (obs (memory m))) (obs (memory m)) ∧
    books Y (making m) (idents (obs (memory m))).
Proof. intros [(Y & Hph & HY) _ _ _ _]. exists Y. split; [by eapply phase_in_hand|done]. Qed.

(** The running thread is suspended only while the processor is on its way. *)
Lemma running_not_suspended m :
  machine_ok D m → (∀ prev, next m ≠ Switched prev) →
  suspended m !! running (obs (memory m)) = None.
Proof.
  intros Hm Hn. apply eq_None_not_Some. intros (_ & _ & Hoff)%(mo_pool _ _ Hm).
  unfold off_processor in Hoff. destruct (next m); [done..|]. by eapply Hn.
Qed.

Lemma sleeper_off m t :
  machine_ok D m → sleeps (obs (memory m)) t → t ≠ running (obs (memory m)).
Proof.
  intros (Y & (q & ss & W & Hpl & _) & _)%machine_in_hand Ht.
  pose proof (sleeps_in _ _ _ (pl_sleep Hpl) Ht) as Hin.
  destruct (pl_ss Hpl _ Hin) as [(Hne & _) _]. intros ->. apply Hne. by left.
Qed.

Lemma waiter_off m sm ws t :
  machine_ok D m → sm ∈ D → waits (obs (memory m)) sm ws → t ∈ ws → t ≠ running (obs (memory m)).
Proof.
  intros (Y & (q & ss & W & Hpl & _) & _)%machine_in_hand Hsm Hws Ht.
  unfold waits in Hws. rewrite (pl_waiters Hpl _ Hsm) in Hws. injection Hws as <-%elems_inj.
  destruct (pl_W Hpl _ _ Hsm Ht) as (Hne & _). intros ->. apply Hne. by left.
Qed.

(** ** Every step keeps the waiters covered *)

(** What a step of the thread [u], which was suspended as in [p] and now is as in
    [p'], has left behind. *)
Definition went (first : bool) (o : op) (x : outcome) (m m' : machine) : Prop :=
  let a := obs (memory m) in let b := obs (memory m') in let u := running a in
  (∃ s, semas s = semas a ∧ lists s = lists a ∧ running s = u ∧ sleep_frame a s ∧
     changes D first o x s b ∧
     match x with Yields _ => at_zero o s | Returns _ => True end) ∧
  (if first then suspended m !! u = None else suspended_in (suspended m) o u) ∧
  may_wait o a ∧
  (∀ t, t ≠ u → suspended m' !! t = suspended m !! t) ∧
  match x with
  | Returns _ => suspended m' !! u = None ∧ running b = u
  | Yields _ => (if decide (o = OExit) then suspended m' !! u = None else suspended_in (suspended m') o u) ∧
      ∃ prev, next m' = Switched prev
  end.

Lemma pool_yields o n u (p p' : pool) :
  pool_after o (Yields n) u p p' → p !! u = None →
  (∀ t, t ≠ u → p' !! t = p !! t) ∧
  if decide (o = OExit) then p' !! u = None else suspended_in p' o u.
Proof.
  intros Hp Hu. case_decide as Ho; [subst o; by rewrite Hp|].
  assert (Hk : ∃ k, p' = <[u := (o, k)]> p) by by destruct o.
  destruct Hk as [k ->]. split; [|apply suspended_here]. intros t Ht. by rewrite lookup_insert_ne.
Qed.

(** A stretch begun in [s], when the other threads were suspended as in [p]. *)
Lemma stretch_went first o x s p mk m m' :
  let a := obs (memory m) in
  stretch_change D first o x s p mk m' → semas s = semas a → lists s = lists a →
  running s = running a → sleep_frame a s → p !! running a = None →
  (∀ t, t ≠ running a → p !! t = suspended m !! t) →
  (if first then suspended m !! running a = None else suspended_in (suspended m) o (running a)) →
  may_wait o a → went first o x m m'.
Proof.
  intros a (Hch & _ & Hp & Hx) Hs Hl Hrun Hfr Hu Hoth Hf Hmay. rewrite Hrun in Hp, Hx.
  unfold went. fold a. destruct x as [r|n].
  - assert (suspended m' = p) as -> by by destruct o.
    destruct Hx as (_ & Hr & _). by split_and!; [by exists s|..].
  - destruct Hx as (Hz & Hn & _). destruct (pool_yields _ _ _ _ _ Hp Hu) as [H1 H2].
    split_and!; [by exists s|done|done| |done|by eexists].
    intros t Ht. by rewrite H1, Hoth.
Qed.

Lemma event_went e m m' :
  machine_ok D m → wakes_ok m → event_change D e m m' → match e with
  | Called _ o x => went true o x m m'
  | Resumed _ o x => went false o x m m'
  | Begun _ | Ticked => True
  end.
Proof.
  intros Hm Hw He. destruct e as [t o x|t o x|t|]; [| |done..].
  - destruct He as (Hph & Hmay & Hch). pose proof (running_not_suspended _ Hm Hph) as Hr.
    by eapply stretch_went.
  - destruct He as (prev & k & _ & Hk & Hfr & _ & Hch).
    assert (Hin : suspended_in (suspended m) o (running (obs (memory m)))) by by exists k.
    destruct (resumed_fields (Some prev) (obs (memory m))) as (H1 & _ & H3 & H4 & _).
    refine (stretch_went _ _ _ _ _ _ _ _ Hch H3 H4 H1 Hfr _ _ Hin _).
    + apply lookup_delete_eq.
    + intros u Hu. by rewrite lookup_delete_ne.
    + exact (proj2 (wk_calls _ Hw _ _ Hin)).
Qed.

Section went.
Context (first : bool) (o : op) (x : outcome) (m m' : machine).
Hypothesis Hm : machine_ok D m.
Hypothesis Hm' : machine_ok D m'.
Hypothesis Hidle : idle_thread (obs (memory m')) = idle_thread (obs (memory m)).
Hypothesis Hwk : wakes_ok m.
Hypothesis Hwent : went first o x m m'.

#[local] Notation u := (running (obs (memory m))).

Lemma went_others o' t : t ≠ u → suspended_in (suspended m) o' t → suspended_in (suspended m') o' t.
Proof. intros Hne [k Hk]. destruct Hwent as (_ & _ & _ & Hp & _). exists k. by rewrite Hp. Qed.

Lemma went_back o' t :
  suspended_in (suspended m') o' t →
  (t = u ∧ o' = o ∧ ∃ n, x = Yields n) ∨ (t ≠ u ∧ suspended_in (suspended m) o' t).
Proof.
  destruct Hwent as (_ & _ & _ & Hp & Hx). intros [k Hk].
  destruct (decide (t = u)) as [->|Hne]; [left|right; split; [done|]; exists k; by rewrite <- Hp].
  destruct x as [r|n]; [by rewrite (proj1 Hx) in Hk|]. destruct Hx as [Hx _].
  case_decide; [by rewrite Hx in Hk|].
  split_and!; [done| |by eexists]. eapply suspended_in_inj; [by exists k|exact Hx].
Qed.

Lemma went_sleeps t :
  sleeps (obs (memory m')) t → ∃ n, suspended_in (suspended m') (OSleep n) t.
Proof.
  intros Ht. pose proof (sleeper_off _ _ Hm' Ht) as Hoff.
  destruct Hwent as ((s & _ & Hl & Hrun & Hfr & [(_ & _ & _ & Hs) _] & _) & _ & _ & _ & Hx).
  destruct (proj1 (Hs t _) (conj Ht eq_refl)) as [Hst|Hst].
  - rewrite (asleep_frame _ _ _ _ Hfr) in Hst.
    destruct (wk_sleeps _ Hwk _ (proj1 Hst)) as [n Hn]. exists n. apply went_others; [|done].
    by apply sleeper_off, Hst.
  - destruct o as [| | | |n| | | | | | |]; try done. destruct Hst as (_ & -> & _).
    rewrite Hrun in Hoff |- *. destruct x as [r|n']; [by rewrite (proj2 Hx) in Hoff|]. exists n.
    exact (proj1 Hx).
Qed.
(** A semaphore the call is not about. *)
Lemma went_keeps sm t :
  first = true ∨ o ≠ ODown sm →
  suspended_in (suspended m) (ODown sm) t → suspended_in (suspended m') (ODown sm) t.
Proof.
  intros Hf Ht. apply went_others; [|done]. intros ->. destruct Hwent as (_ & Hfirst & _).
  destruct Hf as [->|Hne]; [destruct Ht; congruence|].
  destruct first; [destruct Ht; congruence|]. apply Hne. by eapply suspended_in_inj.
Qed.

Lemma waits_functional (a : aview) sm ws ws' : waits a sm ws → waits a sm ws' → ws = ws'.
Proof. unfold waits. intros -> [= H]. by apply elems_inj. Qed.

Let ev : event := if first then Called u o x else Resumed u o x.

Lemma ev_effect (sems : gmap sema_ptr Z) : effect first o x sems = event_effect ev sems.
Proof. unfold ev. by destruct first. Qed.

Lemma went_covered sm ws v (ts : gmap tptr thread) :
  sm ∈ D → waits (obs (memory m)) sm ws → semas (obs (memory m)) !! sm = Some v →
  covered sm (weffect first o x ts u sm ws) (v + ups sm ev - downs sm ev) (suspended m').
Proof.
  intros Hsm Hws Hv. pose proof (wk_waits _ Hwk _ _ _ Hsm Hws Hv) as Hcov.
  pose proof (went_keeps sm) as Hkeep. pose proof (went_others (ODown sm)) as Hoth.
  pose proof (waiter_off m sm ws u Hm Hsm Hws) as Hu.
  destruct Hwent as ((s & Hs & _ & _ & _ & _ & Hz) & _ & _ & _ & Hx).
  assert (Hother : first = true ∨ o ≠ ODown sm → ∀ v', v' ≤ v → covered sm ws v' (suspended m')).
  { intros Hf v' Hle. apply (covered_mono sm ws v _ (suspended m)); [|done|done].
    intros t. by apply Hkeep. }
  unfold ev. destruct o as [|sm'|sm'|sm'|n|p|nm p| |c id fn aux| | |];
    try (destruct first; (apply Hother; [by right|cbn; lia])).
  - destruct x as [r|n]; simpl.
    + destruct first; simpl; destruct (decide (sm' = sm)) as [Hd|Hd];
        try (apply Hother; [by left|lia]).
      * subst sm'. replace (v + 0 - 1) with (v - 1) by lia.
        eapply covered_taken; [|exact Hoth|exact Hcov]. intros Hin. by apply (Hu Hin).
      * apply Hother; [right; congruence|lia].
    + match goal with |- covered _ _ ?w _ => assert (w = v) as -> by (destruct first; simpl; lia) end.
      case_bool_decide as Hd; [|apply Hother; [right; congruence|lia]]. subst sm'. simpl in Hz.
      rewrite Hs, Hv in Hz. injection Hz as ->. by eapply covered_wait; [exact Hoth|exact (proj1 Hx)|].
  - destruct first; simpl; [|apply Hother; [by right|lia]].
    destruct (decide (sm' = sm)) as [Hd|Hd];
      [|rewrite bool_decide_false by done; apply Hother; [by left|lia]].
    subst sm'. rewrite bool_decide_true by done. simpl.
    replace (v + 1 - 0) with (v + 1) by lia.
    apply (covered_mono _ _ (v + 1) _ (suspended m)); [intros t; apply Hkeep; by left|lia|].
    apply covered_up; [|done]. apply (NoDup_fmap_1 thread_elem).
    destruct (obs_lists_wf (memory m)) as [Hnd _]. exact (Hnd _ _ Hws).
  - clear Hx. destruct first, x as [[|[]| |]|]; simpl; try case_decide; (apply Hother; [by right|lia]).
Qed.

Lemma went_wakes : wakes_ok m'.
Proof.
  destruct Hwent as ((s & Hs & Hl & Hrun & _ & [(Hsem & Hws' & _) _] & Hz) & Hf & Hmay & Hp & Hx).
  destruct (machine_in_hand _ Hm) as (Y & (q & ss & W & Hpl & _) & _). split.
  - intros o' t Ht. rewrite Hidle. destruct (went_back _ _ Ht) as [(-> & -> & n & ->)|[_ Ht']];
      [|by eapply (wk_calls _ Hwk)].
    split; [|exact Hmay]. destruct Hx as [Hx _]. case_decide as Ho; [|by destruct o].
    destruct Ht. congruence.
  - exact went_sleeps.
  - intros sm ws v' Hsm Hws Hv'. pose proof (pl_waiters Hpl _ Hsm) as Hold.
    apply (pl_semas Hpl) in Hsm as Hv. destruct Hv as [v Hv].
    assert (Hmid : waits s sm (W sm)) by (unfold waits; by rewrite Hl).
    pose proof (waits_functional _ _ _ _ Hws (Hws' sm _ Hsm Hmid)) as ->.
    rewrite Hsem, ev_effect, (event_effect_value _ _ _ v) in Hv' by (by rewrite Hs).
    injection Hv' as <-. rewrite Hrun. by apply went_covered.
Qed.
End went.

(** A step that leaves the suspended threads and the semaphores alone, and puts
    nobody to sleep. *)
Lemma still_wakes m m' :
  machine_ok D m → idle_thread (obs (memory m')) = idle_thread (obs (memory m)) →
  suspended m' = suspended m → semas (obs (memory m')) = semas (obs (memory m)) →
  (∀ sm ws, waits (obs (memory m)) sm ws → waits (obs (memory m')) sm ws) →
  (∀ t, sleeps (obs (memory m')) t → sleeps (obs (memory m)) t) → wakes_ok m → wakes_ok m'.
Proof.
  intros Hm Hi Hp Hs Hws Hsl Hwk.
  destruct (machine_in_hand _ Hm) as (Y & (q & ss & W & Hpl & _) & _). split; rewrite ?Hp, ?Hi.
  - apply (wk_calls _ Hwk).
  - intros t Ht. by eapply (wk_sleeps _ Hwk), Hsl.
  - intros sm ws v Hsm Hw Hv. pose proof (pl_waiters Hpl _ Hsm) as Hold.
    pose proof (waits_functional _ _ _ _ Hw (Hws _ _ Hold)) as ->.
    apply (wk_waits _ Hwk); [done|done|by rewrite <- Hs].
Qed.

Lemma tick_wakes m m' :
  machine_ok D m → idle_thread (obs (memory m')) = idle_thread (obs (memory m)) →
  event_change D Ticked m m' → wakes_ok m → wakes_ok m'.
Proof.
  intros Hm Hi (_ & _ & Hp & _ & _ & Hs & [_ Hws] & _ & Hsl) Hwk.
  apply (still_wakes m); try done. intros t Ht. by eapply Hsl.
Qed.

Lemma begun_wakes m m' t :
  machine_ok D m → idle_thread (obs (memory m')) = idle_thread (obs (memory m)) →
  event_change D (Begun t) m m' → wakes_ok m → wakes_ok m'.
Proof.
  intros Hm Hi He Hwk. pose proof (event_semas _ _ _ _ He) as Hs.
  destruct He as (prev & _ & _ & _ & _ & Hp & _ & Hb & (_ & Hsl & _) & _).
  destruct (resumed_fields (Some prev) (obs (memory m))) as (_ & _ & _ & Hl & _).
  apply (still_wakes m); try done.
  - intros sm ws Hws. rewrite Hb. unfold waits in *. rewrite <- Hl in Hws. exact Hws.
  - intros u. by rewrite (sleeps_same (obs (memory m))).
Qed.

Lemma step_wakes m e m' :
  frames_aligned → machine_ok D m → step m e m' → wakes_ok m → wakes_ok m'.
Proof.
  intros Hal Hm Hst Hwk. destruct (step_keeps D _ _ _ Hal Hm Hst) as (Hm' & Hi & Hch).
  pose proof (event_went _ _ _ Hm Hwk Hch) as Hw. destruct e as [t o x|t o x|t|].
  - exact (went_wakes _ _ _ _ _ Hm Hm' Hi Hwk Hw).
  - exact (went_wakes _ _ _ _ _ Hm Hm' Hi Hwk Hw).
  - by apply (begun_wakes m m' t).
  - by apply (tick_wakes m).
Qed.

Lemma steps_wakes m es m' :
  frames_aligned → machine_ok D m → wakes_ok m → steps m es m' → machine_ok D m' ∧ wakes_ok m'.
Proof.
  intros Hal Hm Hwk Hs. induction Hs as [m|m e m1 es m2 Hst _ IH]; [done|].
  apply IH; [by apply (step_keeps D _ _ _ Hal Hm Hst)|by eapply step_wakes].
Qed.

(** Where a live thread can be that is not being made, is not the idle thread and
    neither waits nor sleeps. *)
Lemma up_where m t :
  machine_ok D m → live (obs (memory m)) t → making m !! t = None →
  Some t ≠ idle_thread (obs (memory m)) →
  ¬ sleeps (obs (memory m)) t → (∀ sm ws, sm ∈ D → waits (obs (memory m)) sm ws → t ∉ ws) →
  t = running (obs (memory m)) ∨ has_status (obs (memory m)) t THREAD_READY.
Proof.
  intros Hm Hlive Hmk Hi Hns Hnw.
  destruct (machine_in_hand _ Hm) as (Y & (q & ss & W & Hpl & _) & HY & _).
  assert (Hv : is_Some (threads (obs (memory m)) !! t)).
  { apply idents_is_Some. destruct Hlive as [f ->]. by eexists. }
  destruct (pl_all Hpl t Hv) as [Hr%list_elem_of_singleton|[?|[Hq|[Hss|[(sm & Hsm & Ht)|HtY]]]]].
  - by left.
  - done.
  - right. by apply (pl_q Hpl).
  - destruct Hns. exists ss. by rewrite (pl_sleep Hpl).
  - by destruct (Hnw sm (W sm) Hsm (pl_waiters Hpl _ Hsm)).
  - apply HY in HtY as [[u Hu]|[f Hf]]; [congruence|]. destruct Hlive. congruence.
Qed.

(** In particular one that is suspended in a call that blocks. *)
Lemma woken_where m o t :
  machine_ok D m → wakes_ok m → suspended_in (suspended m) o t → blocks o →
  ¬ sleeps (obs (memory m)) t → (∀ sm ws, sm ∈ D → waits (obs (memory m)) sm ws → t ∉ ws) →
  has_status (obs (memory m)) t THREAD_READY ∨
  (t = running (obs (memory m)) ∧ ∃ prev, next m = Switched prev).
Proof.
  intros Hm Hwk Hin Hb Hns Hnw. assert (Hp : is_Some (suspended m !! t)) by (destruct Hin; by eexists).
  destruct (mo_pool _ _ Hm t Hp) as (Hlive & Hmk & Hoff).
  destruct (up_where m t Hm Hlive Hmk (proj2 (wk_calls _ Hwk _ _ Hin) Hb) Hns Hnw) as [Hr|Hr];
    [right|by left].
  split; [done|]. unfold off_processor in Hoff. destruct (next m); [done..|by eexists].
Qed.

(** Only calls of [sema_down] wait, each for its own semaphore. *)
Lemma waiter_in m sm ws t :
  machine_ok D m → wakes_ok m → sm ∈ D → waits (obs (memory m)) sm ws → t ∈ ws →
  suspended_in (suspended m) (ODown sm) t.
Proof.
  intros (Y & (q & ss & W & Hpl & _) & _)%machine_in_hand Hwk Hsm Hws Ht.
  apply (pl_semas Hpl) in Hsm as Hv. destruct Hv as [v Hv].
  by apply (wk_waits _ Hwk _ _ _ Hsm Hws Hv).
Qed.
End wakeups.

(** * Properties *)
Section properties.
Context {E : Env} {EL : EnvLaws E} {F : SwitchFrames} (D : gset sema_ptr).

(** C5: No wake-up is lost.  In every run, while threads wait for a semaphore, as
    many threads as its value says have been taken off its waiters and are on
    their way back: each is in a call of [sema_down] on it, and is ready or the
    next to go on.  So a semaphore never has something to give that nobody is
    about to take while threads wait for it. *)
Theorem no_lost_wakeups m es m' sm ws v :
  frames_aligned → machine_ok D m → wakes_ok D m → steps m es m' →
  sm ∈ D → waits (obs (memory m')) sm ws → ws ≠ [] →
  semas (obs (memory m')) !! sm = Some v →
  ∃ S : gset tptr, v ≤ Z.of_nat (size S) ∧ ∀ t, t ∈ S →
    (t ∉ ws) ∧ (∃ k, suspended m' !! t = Some (ODown sm, k)) ∧
    (has_status (obs (memory m')) t THREAD_READY ∨
     (t = running (obs (memory m')) ∧ ∃ prev, next m' = Switched prev)).
Proof.
  intros Hal Hm Hwk Hs Hsm Hws Hne Hv. destruct (steps_wakes D _ _ _ Hal Hm Hwk Hs) as [Hm' Hwk'].
  destruct (wk_waits _ _ Hwk' _ _ _ Hsm Hws Hv) as [_ HS].
  destruct (HS Hne) as (S & Hn & HSw). exists S. split; [done|].
  intros t Ht. destruct (HSw t Ht) as [Hno Hin]. split_and!; [done|done|].
  apply (woken_where D m' (ODown sm)); [done..| |].
  - intros [n Hsl]%(wk_sleeps _ _ Hwk'). by pose proof (suspended_in_inj _ _ _ _ Hin Hsl).
  - intros sm' ws' Hsm' Hws' Ht'. pose proof (waiter_in D _ _ _ _ Hm' Hwk' Hsm' Hws' Ht') as Hin'.
    pose proof (suspended_in_inj _ _ _ _ Hin Hin') as [= <-].
    by pose proof (waits_functional _ _ _ _ Hws Hws') as <-.
Qed.
End properties.

(** * Witnesses *)
Section witnesses.
#[local] Existing Instances concrete_env concrete_env_laws word_frames.

#[local] Instance below_dec (m : gmap sema_ptr Z) sm b : Decision (∃ v, m !! sm = Some v ∧ v < b).
Proof.
  destruct (m !! sm) as [v|] eqn:Hv.
  - destruct (decide (v < b)); [left; by exists v|]. right. intros (? & [= <-] & ?). done.
  - right. by intros (? & ? & _).
Defined.

#[local] Instance allowed_dec o mk (a : aview) : Decision (allowed o mk a).
Proof. destruct o; unfold allowed; apply and_dec; apply _. Defined.

(** A run of the machine as a function of what happens: the running thread makes
    a call, a thread that is switched to goes on or begins, or a tick comes. *)
Inductive choice : Type := Makes (o : op) | GoesOn | Ticks.

Definition finish (first : bool) (o : op) (t : tptr) (p : pool) (mk : gmap tptr tptr)
    (r : option (out ret * kstate)) : option (event * machine) :=
  let e x := if first then Called t o x else Resumed t o x in
  match r with
  | Some (ODone r, s) =>
      Some (e (Returns r), Machine s p (made first o (Returns r) (running s) mk) Calling)
  | Some (OSwitch n k, s) =>
      Some (e (Yields n),
        if decide (o = OExit) then Machine (set_running n s) p mk (Switched (running s))
        else Machine (set_running n s) (<[running s := (o, k)]> p)
               (made first o (Yields n) (running s) mk) (Switched (running s)))
  | _ => None
  end.

Definition make_call (o : op) (m : machine) : option (event * machine) :=
  match next m with
  | Calling =>
      if decide (allowed o (making m) (obs (memory m))) then
        finish true o (running (memory m)) (suspended m) (making m) (run 100 (run_op o) (memory m))
      else None
  | _ => None
  end.

Definition go_on (m : machine) : option (event * machine) :=
  match next m with
  | Switched prev =>
      match suspended m !! running (memory m) with
      | Some ok =>
          finish false ok.1 (running (memory m)) (delete (running (memory m)) (suspended m))
            (making m) (run 100 (ok.2 prev) (memory m))
      | None =>
          match run 100 (begin prev) (memory m) with
          | Some (ODone RUnit, s) =>
              Some (Begun (running (memory m)), Machine s (suspended m) (making m) Calling)
          | _ => None
          end
      end
  | _ => None
  end.

Definition make (c : choice) (m : machine) : option (event * machine) :=
  match c with
  | Makes o => make_call o m
  | GoesOn => go_on m
  | Ticks => m' ← tick m; Some (Ticked, m')
  end.

Fixpoint makes (cs : list choice) (m : machine) : option (list event * machine) :=
  match cs with
  | [] => Some ([], m)
  | c :: cs => r ← make c m; r' ← makes cs r.2; Some (r.1 :: r'.1, r'.2)
  end.

Lemma finish_ended first o t p mk fuel (pr : prog ret) s e m' :
  finish first o t p mk (run fuel pr s) = Some (e, m') →
  ∃ out s' x, exec pr s out s' ∧ ended first o p mk out s' x m' ∧
    e = if first then Called t o x else Resumed t o x.
Proof.
  destruct (run fuel pr s) as [[[r|n k|er] s']|] eqn:Hr; try done; unfold finish;
    try case_decide; intros [= <- <-]; apply run_exec in Hr; eexists _, s', _;
    (split; [exact Hr|split; [by constructor|done]]).
Qed.

Lemma make_step c m e m' : make c m = Some (e, m') → step m e m'.
Proof.
  intros H. destruct c as [o| |]; simpl in H.
  - destruct m as [s p mk []]; try done. unfold make_call in H. cbn [next memory suspended making] in H.
    case_decide as Ha; [|done]. apply finish_ended in H as (out & s' & x & Hex & Hend & ->).
    by econstructor.
  - destruct m as [s p mk []]; try done. unfold go_on in H. cbn [next memory suspended making] in H.
    destruct (p !! running s) as [[o k]|] eqn:Hk.
    + apply finish_ended in H as (out & s' & x & Hex & Hend & ->). by econstructor.
    + destruct (run 100 (begin prev) s) as [[[[]| |] s']|] eqn:Hr; try done.
      injection H as <- <-. apply run_exec in Hr. by constructor.
  - apply bind_Some in H as (m1 & Ht & [= <- <-]). by apply tick_is_step.
Qed.

Lemma makes_steps cs : ∀ m es m', makes cs m = Some (es, m') → steps m es m'.
Proof.
  induction cs as [|c cs IH]; intros m es m' H; simpl in H; [injection H as <- <-; constructor|].
  apply bind_Some in H as ([e m1] & H1 & H). apply bind_Some in H as ([es' m2] & H2 & H).
  injection H as <- <-. eapply steps_cons; [by eapply make_step|by apply IH].
Qed.

(** What a computed run ends in can be computed. *)
Lemma makes_check (f : list event → machine → bool) cs m :
  match makes cs m with Some (es, m') => f es m' | None => false end = true →
  ∃ es m', steps m es m' ∧ f es m' = true.
Proof.
  destruct (makes cs m) as [[es m']|] eqn:Hr; [|done]. intros Hf. exists es, m'.
  split; [by eapply makes_steps|done].
Qed.

Lemma wit_wakes : wakes_ok wit_D wit_machine.
Proof.
  split.
  - intros o t [k Hk]. apply (elem_of_list_to_map_2 (M := gmap tptr)) in Hk.
    rewrite !elem_of_cons, elem_of_nil in Hk.
    by destruct Hk as [[= _ -> _]|[[= _ -> _]|[[= _ -> _]|[]]]]; (split; [|intros []]).
  - intros t Ht. pose proof (pl_sleep wit_placed) as Hnil. by apply (sleeps_in _ _ _ Hnil), elem_of_nil in Ht.
  - intros sm ws v Hsm Hws _. pose proof (pl_waiters wit_placed sm Hsm) as Hnil.
    pose proof (waits_functional _ _ _ [] Hws Hnil) as ->. split; [by intros t ?%elem_of_nil|done].
Qed.

(** Thread 1 takes the unit and waits for another; thread 2 waits behind it;
    thread 3 ups, and is preempted by thread 1. *)
Definition wit_calls : list choice :=
  [Makes (ODown (sema_at 1)); Makes (ODown (sema_at 1)); GoesOn; Makes (ODown (sema_at 1)); GoesOn;
   Makes (OUp (sema_at 1))].

Lemma wit_woken : ∃ es m', steps wit_machine es m' ∧
  waits (obs (memory m')) (sema_at 1) [2%positive] ∧ semas (obs (memory m')) !! sema_at 1 = Some 1.
Proof.
  destruct (makes_check (λ _ m', bool_decide (
    lists (obs (memory m')) !! sema_waiters (sema_at 1) = Some (elems [2%positive]) ∧
    semas (obs (memory m')) !! sema_at 1 = Some 1)) wit_calls wit_machine) as (es & m' & Hs & Hf);
    [vm_compute; reflexivity|].
  apply bool_decide_eq_true in Hf as [Hws Hv]. by exists es, m'.
Qed.

Lemma no_lost_wakeups_witness : ∃ es m' (S : gset tptr),
  steps wit_machine es m' ∧ 1 ≤ Z.of_nat (size S) ∧
  ∀ t, t ∈ S → (t ∉ [2%positive]) ∧ ∃ k, suspended m' !! t = Some (ODown (sema_at 1), k).
Proof.
  destruct wit_woken as (es & m' & Hs & Hws & Hv). exists es, m'.
  destruct (no_lost_wakeups wit_D _ es m' (sema_at 1) [2%positive] 1
    (ltac:(done) : frames_aligned) wit_machine_ok wit_wakes Hs) as (S & Hn & HS); [set_solver|exact Hws|done|exact Hv|].
  exists S. split_and!; [done|done|]. intros t Ht. destruct (HS t Ht) as (? & ? & _). by split.
Defined.
End witnesses.
