(* ===== verification/Births.v ===== *)
(** The lives of threads in the runs of the machine: a thread that has been started
    is ready until it begins, a thread that exits is gone once the next one goes
    on, and in between no thread is forgotten. *)
From S2P Require Import Prelude Env Kernel Thread Mlfqs Ready Sched SchedSpec Wait.
From S2P Require Import Synch SemaSpec Lifecycle Timer TimerSpec Places Roster Machine Calls LifeCalls.
From S2P Require Import MachineInv MachineSpec Wakeups SampleSched.

Section births.
Context {E : Env} {EL : EnvLaws E} {F : SwitchFrames} (D : gset sema_ptr).

(** The thread [t] has been started and has not begun; the frame [kf] is on its
    stack. *)
Definition to_begin (t : tptr) (kf : kernel_thread_frame) (m : machine) : Prop :=
  idents (obs (memory m)) !! t = Some (Some kf, false) ∧ suspended m !! t = None ∧
  making m !! t = None ∧ off_processor (next m) (obs (memory m)) t ∧
  Some t ≠ idle_thread (obs (memory m)).

(** A stretch of another thread leaves it so. *)
Lemma stretch_to_begin first o x (s : aview) p mk m' t kf :
  stretch_change D first o x s p mk m' → t ≠ running s → idents s !! t = Some (Some kf, false) →
  p !! t = None → mk !! t = None → (∀ id fn aux, o = OStart t id fn aux → first = false) →
  idents (obs (memory m')) !! t = Some (Some kf, false) ∧ suspended m' !! t = None ∧
  making m' !! t = None ∧ off_processor (next m') (obs (memory m')) t.
Proof.
  intros ((_ & _ & _ & Hid & Hfresh & _) & Hmk & Hp & Hx) Hne Ht Hpt Hmt Ho.
  assert (Hids : ids_after first o x (running s) (idents s) !! t = Some (Some kf, false)).
  { destruct o as [| | | | | |name prio| |c id fn aux| | |]; try done.
    - destruct x as [[| | |[c|]]|]; try done. simpl in *.
      rewrite lookup_insert_ne; [done|congruence].
    - destruct first; [|done]. simpl. destruct (decide (c = t)) as [->|].
      + by pose proof (Ho _ _ _ eq_refl).
      + by rewrite lookup_insert_ne.
    - destruct x; [done|]. simpl. by rewrite lookup_alter_ne. }
  rewrite Hid. split; [done|]. split; [|split].
  - destruct x as [r|n]; [assert (suspended m' = p) as -> by (by destruct o); done|].
    destruct (decide (o = OExit)) as [->|Hoe]; [by rewrite Hp|].
    assert (Hk : ∃ k, suspended m' = <[running s := (o, k)]> p) by by destruct o.
    destruct Hk as [k ->]. by rewrite lookup_insert_ne.
  - rewrite Hmk. eapply made_other; [done|exact Hfresh|by eexists].
  - destruct x as [r|n]; [destruct Hx as (-> & Hr & _); unfold off_processor; by rewrite Hr|].
    by destruct Hx as (_ & -> & _).
Qed.

(** So does the end of the thread that ran before. *)
Lemma survives prev (a : aview) t f :
  idents a !! t = Some (f, false) → survivors (Some prev) a (idents a) !! t = Some (f, false).
Proof.
  intros Ht. simpl. destruct (reaps a prev) eqn:Hr; [|done].
  rewrite lookup_delete_ne; [done|]. intros ->.
  apply reaps_dying, dying_ident in Hr as [g Hg]. congruence.
Qed.

Lemma step_to_begin m e m' t kf :
  frames_aligned → machine_ok D m → step m e m' → e ≠ Begun t → to_begin t kf m → to_begin t kf m'.
Proof.
  intros Hal Hm Hst Hne (Hid & Hp & Hmk & Hoff & Hi).
  destruct (step_keeps D _ _ _ Hal Hm Hst) as (_ & Hidle & Hch).
  unfold to_begin. rewrite Hidle. destruct e as [u o x|u o x|u|].
  - destruct Hch as (Hn & _ & Hch).
    assert (Hr : t ≠ running (obs (memory m))).
    { unfold off_processor in Hoff. destruct (next m); [done..|by destruct (Hn prev)]. }
    assert (Ho : ∀ id fn aux, o = OStart t id fn aux → true = false).
    { intros id fn aux ->. inversion Hst as [? ? ? ? ? ? ? ? [_ Ha]| | | |]; subst.
      cbn [making memory allowed] in *. congruence. }
    destruct (stretch_to_begin _ _ _ _ _ _ _ _ _ Hch Hr Hid Hp Hmk Ho) as (H1 & H2 & H3 & H4).
    by split_and!.
  - destruct Hch as (prev & k & _ & Hk & _ & Hidc & Hch).
    assert (Hr : t ≠ running (obs (memory m))) by congruence.
    destruct (resumed_fields (Some prev) (obs (memory m))) as (Hrun & _).
    revert Hch Hidc Hrun. generalize (resumed (Some prev) (obs (memory m))). intros c Hch Hidc Hrun.
    destruct (stretch_to_begin _ _ _ _ _ _ _ t kf Hch) as (H1 & H2 & H3 & H4); [congruence|..].
    + rewrite Hidc. by apply survives.
    + by rewrite lookup_delete_ne.
    + done.
    + done.
    + by split_and!.
  - destruct Hch as (prev & _ & _ & Hn & -> & Hp' & Hmk' & Hb & _ & Hidc).
    rewrite Hp', Hmk', Hidc, Hn. split_and!; [by apply survives|done..| |done].
    unfold off_processor. rewrite Hb, restored_running.
    rewrite (proj1 (resumed_fields (Some prev) (obs (memory m)))). intros ->. by apply Hne.
  - destruct Hch as (Hn & Hn' & Hp' & Hmk' & Hrun & _ & [(_ & _ & _ & Hid' & _) _] & _).
    rewrite Hp', Hmk', Hid'. split_and!; [done..| |done]. unfold off_processor in *.
    rewrite Hrun. destruct (next m'); [|..|by destruct (Hn' prev)];
      (destruct (next m); [done..|by destruct (Hn prev)]).
Qed.

Lemma steps_to_begin m es m' t kf :
  frames_aligned → machine_ok D m → steps m es m' → Forall (λ e, e ≠ Begun t) es →
  to_begin t kf m → to_begin t kf m'.
Proof.
  intros Hal Hm Hs. induction Hs as [m|m e m1 es m2 Hst _ IH]; [done|].
  intros [Hne Hnes]%Forall_cons Ht.
  apply IH; [by apply (step_keeps D _ _ _ Hal Hm Hst)|done|by eapply step_to_begin].
Qed.

(** The call that starts a thread. *)
Lemma start_to_begin m u t id function aux x m' :
  frames_aligned → machine_ok D m → step m (Called u (OStart t id function aux) x) m' →
  to_begin t (KFrame function aux) m'.
Proof.
  intros Hal Hm Hst. destruct (step_keeps D _ _ _ Hal Hm Hst) as (_ & Hidle & Hch).
  assert (Hmt : making m !! t = Some (running (obs (memory m)))).
  { inversion Hst as [? ? ? ? ? ? ? ? [_ Ha]| | | |]; subst. exact Ha. }
  destruct Hch as (_ & _ & ((_ & _ & _ & Hid & _) & Hmk & Hp & Hx)).
  destruct (machine_in_hand D m Hm) as (Y & Hin & HY & _).
  assert (HtY : t ∈ Y) by (apply HY; left; by eexists).
  destruct (in_hand_aside _ _ _ _ Hin) as [Hrun _].
  assert (Hne : t ≠ running (obs (memory m))) by by intros ->.
  assert (Hpt : suspended m !! t = None).
  { apply eq_None_not_Some. intros (_ & Hn & _)%(mo_pool _ _ Hm). congruence. }
  destruct Hin as (q & ss & W & Hpl & _). destruct (pl_Y Hpl t HtY) as (_ & Hi & _).
  unfold to_begin. rewrite Hid, Hmk, Hidle. simpl. rewrite lookup_insert_eq, lookup_delete_eq.
  split_and!; [done| |done| |done].
  - destruct x; simpl in Hp; [by rewrite Hp|]. destruct Hp as [k ->]. by rewrite lookup_insert_ne.
  - destruct x as [r|n]; [destruct Hx as (-> & Hr & _); unfold off_processor; by rewrite Hr|].
    by destruct Hx as (_ & -> & _).
Qed.

(** A thread that is to begin is ready, or the next to run. *)
Lemma to_begin_ready m t kf :
  machine_ok D m → wakes_ok D m → to_begin t kf m →
  has_status (obs (memory m)) t THREAD_READY ∨
  (t = running (obs (memory m)) ∧ ∃ prev, next m = Switched prev).
Proof.
  intros Hm Hwk (Hid & Hp & Hmk & Hoff & Hi).
  assert (Hno : ∀ o, ¬ suspended_in (suspended m) o t) by (intros o [k Hk]; congruence).
  destruct (up_where D m t Hm) as [Hr|Hr]; [by eexists|done|done|..].
  - intros [n Hn]%(wk_sleeps _ _ Hwk). by eapply Hno.
  - intros sm ws Hsm Hws Ht. eapply Hno. by eapply (waiter_in D m sm ws t).
  - right. split; [done|]. unfold off_processor in Hoff. destruct (next m); [done..|by eexists].
  - by left.
Qed.
End births.

(** * Properties *)
Section properties.
Context {E : Env} {EL : EnvLaws E} {F : SwitchFrames} (D : gset sema_ptr).

Lemma idents_kframe (a : aview) t f b : idents a !! t = Some (f, b) → kframe <$> threads a !! t = Some f.
Proof.
  unfold idents. rewrite lookup_fmap. destruct (threads a !! t) as [th|]; [|done]. by intros [= <- _].
Qed.

(** C7: A created thread is not lost before it has run.  Once [thread_create] has
    started it, it is ready, or the next to run, with the call [function (aux)]
    on its stack, whatever the other threads do, until it begins. *)
Theorem started_thread_ready m u t id function aux x m1 es m' :
  frames_aligned → machine_ok D m → wakes_ok D m →
  step m (Called u (OStart t id function aux) x) m1 → steps m1 es m' →
  Forall (λ e, e ≠ Begun t) es →
  let a := obs (memory m') in
  kframe <$> threads a !! t = Some (Some (KFrame function aux)) ∧ suspended m' !! t = None ∧
  (has_status a t THREAD_READY ∨ (t = running a ∧ ∃ prev, next m' = Switched prev)).
Proof.
  intros Hal Hm Hwk Hst Hs Hno a. pose proof (start_to_begin D _ _ _ _ _ _ _ _ Hal Hm Hst) as H1.
  destruct (step_keeps D _ _ _ Hal Hm Hst) as (Hm1 & _).
  pose proof (step_wakes D _ _ _ Hal Hm Hst Hwk) as Hwk1.
  destruct (steps_wakes D _ _ _ Hal Hm1 Hwk1 Hs) as [Hm' Hwk'].
  pose proof (steps_to_begin D _ _ _ _ _ Hal Hm1 Hs Hno H1) as Ht.
  split_and!; [by eapply idents_kframe, Ht|apply Ht|by eapply to_begin_ready].
Qed.

(** C8: No thread is forgotten.  In every state of every run, each thread that has
    not ended, other than the running one and the idle thread, is being made, or
    ready, inside a call of the kernel or about to begin, or asleep in
    [timer_sleep], or among the waiters of a semaphore, in [sema_down] on it. *)
Theorem no_thread_forgotten m es m' t :
  frames_aligned → machine_ok D m → wakes_ok D m → steps m es m' →
  let a := obs (memory m') in
  live a t → t ≠ running a → Some t ≠ idle_thread a →
  (is_Some (making m' !! t) ∧ has_status a t THREAD_BLOCKED) ∨
  (has_status a t THREAD_READY ∧
     ((∃ o k, suspended m' !! t = Some (o, k)) ∨
      ∃ kf, kframe <$> threads a !! t = Some (Some kf))) ∨
  (sleeps a t ∧ ∃ n, suspended_in (suspended m') (OSleep n) t) ∨
  ∃ sm ws, sm ∈ D ∧ waits a sm ws ∧ t ∈ ws ∧ suspended_in (suspended m') (ODown sm) t.
Proof.
  intros Hal Hm Hwk Hs a Hlive Hne Hi. destruct (steps_wakes D _ _ _ Hal Hm Hwk Hs) as [Hm' Hwk'].
  destruct (machine_in_hand D m' Hm') as (Y & (q & ss & W & Hpl & _) & HY & _). fold a in Hpl, HY.
  assert (Hv : is_Some (threads a !! t)) by (apply idents_is_Some; destruct Hlive as [f ->]; by eexists).
  destruct (pl_all Hpl t Hv) as [Hr%list_elem_of_singleton|[?|[Hq|[Hss|[(sm & Hsm & Ht)|HtY]]]]];
    [done|done|..].
  - right; left. destruct (pl_q Hpl t Hq) as (_ & _ & Hst). split; [done|].
    assert (Hmk : making m' !! t = None).
    { apply eq_None_not_Some. intros Hmk. destruct (pl_Y Hpl t) as (_ & _ & Hd & _);
        [apply HY; by left|]. unfold has_status in *. destruct Hd; congruence. }
    pose proof (mo_rest _ _ Hm' t Hlive Hmk) as H. unfold rest_of in H.
    assert (Hoff : off_processor (next m') a t) by by destruct (next m'). specialize (H Hoff).
    destruct (suspended m' !! t) as [[o k]|]; [left; by eexists _, _|right].
    destruct H as [kf Hkf]. exists kf. by eapply idents_kframe.
  - right; right; left. assert (Hsl : sleeps a t) by (exists ss; by rewrite (pl_sleep Hpl)).
    split; [done|]. by apply (wk_sleeps _ _ Hwk').
  - right; right; right. exists sm, (W sm).
    pose proof (pl_waiters Hpl sm Hsm) as Hws. split_and!; try done.
    by eapply (waiter_in D m' sm (W sm)).
  - left. pose proof HtY as [Hmk|[f Hf]]%HY; [|destruct Hlive; congruence]. split; [done|].
    destruct (pl_Y Hpl t HtY) as (_ & _ & [?|Hd] & _); [done|]. by destruct (live_not_dying a t).
Qed.

(** What a call that has given up the processor does to the books once it has it
    back: nothing. *)
Lemma gives_up_books o x t ids mk :
  gives_up o → ids_after false o x t ids = ids ∧ made false o x t mk = mk.
Proof. by destruct o, x as [[]|]. Qed.

Lemma dying_reaps (a : aview) t :
  has_status a t THREAD_DYING → Some t ≠ initial_thread a → reaps a t = true.
Proof.
  unfold has_status, reaps. destruct (threads a !! t) as [th|]; [|done]. intros [= ->] Hi.
  by rewrite !bool_decide_true.
Qed.

(** The call: the processor is handed over, the thread is dying and in no pool. *)
Lemma exit_step m t x m1 :
  frames_aligned → machine_ok D m → step m (Called t OExit x) m1 →
  (∃ n, x = Yields n ∧ next m1 = Switched t) ∧ has_status (obs (memory m1)) t THREAD_DYING ∧
  initial_thread (obs (memory m1)) = initial_thread (obs (memory m)) ∧ suspended m1 !! t = None ∧
  making m1 !! t = None.
Proof.
  intros Hal Hm Hst. destruct (step_keeps D _ _ _ Hal Hm Hst) as (_ & _ & _ & _ & Hch).
  destruct Hch as ((_ & Hit & _ & Hid & _) & Hmk & Hp & _).
  inversion Hst as [s p mk o out s' ? ? Ha Hex Hend| | | |]; subst. cbn [memory suspended making] in *.
  destruct (mo_phase _ _ Hm) as (Y & Hok & HY & _). cbn [memory making next phase_ok] in *.
  destruct (call_exit D Y (obs s) Hok (mo_roster _ _ Hm) (proj1 Ha) s eq_refl)
    as (out0 & s0 & Hex0 & n & k & -> & Hg).
  destruct (exec_det _ _ _ _ _ _ Hex Hex0) as [-> ->]. pose proof Hg as ((_ & _ & Hrun & _) & _).
  inversion Hend as [|? ? ? Hno|]; subst; [done|]. cbn [memory suspended making next] in *.
  assert (Hl : live (obs s) (running (obs s))).
  { destruct Hok as (_ & _ & _ & Hs & _). by eapply live_status. }
  assert (Hnone : p !! running (obs s) = None) by (by apply (running_not_suspended D _ Hm)).
  split_and!.
  - exists n. split; [done|]. f_equal. exact Hrun.
  - destruct Hl as [f Hf]. apply (ident_dying _ _ f). rewrite Hid. simpl.
    change (running s) with (running (obs s)). by rewrite lookup_alter_eq, Hf.
  - exact Hit.
  - exact Hnone.
  - apply eq_None_not_Some. intros Hs.
    destruct (in_hand_aside _ _ _ _ (running_ok_in_hand _ _ _ _ Hok)) as [HnY _].
    apply HnY, HY. by left.
Qed.

(** The step after it: the thread that is switched to frees the record. *)
Lemma next_frees m1 t e m2 :
  frames_aligned → machine_ok D m1 → wakes_ok D m1 → step m1 e m2 → next m1 = Switched t →
  reaps (obs (memory m1)) t = true → suspended m1 !! t = None → making m1 !! t = None →
  idents (obs (memory m2)) !! t = None ∧ suspended m2 !! t = None ∧ making m2 !! t = None.
Proof.
  intros Hal Hm1 Hwk1 Hst2 Hn Hr Hp1 Hmk1.
  destruct (step_keeps D _ _ _ Hal Hm1 Hst2) as (_ & _ & Hch).
  destruct e as [u o y|u o y|u|].
  - destruct Hch as (Hno & _). by destruct (Hno t).
  - destruct Hch as (prev & k & Hn' & Hk & _ & Hidc & Hch).
    assert (prev = t) as -> by congruence.
    destruct (wk_calls _ _ Hwk1 o (running (obs (memory m1)))) as [Hg _]; [by exists k|].
    destruct Hch as ((_ & _ & _ & Hid & _) & Hmk & Hp & _).
    rewrite (proj1 (resumed_fields (Some t) (obs (memory m1)))) in Hid, Hmk, Hp.
    destruct (gives_up_books o y (running (obs (memory m1)))
      (idents (resumed (Some t) (obs (memory m1)))) (making m1) Hg) as [H1 H2].
    rewrite Hid, Hmk, H1, H2, Hidc. unfold survivors. rewrite Hr. split; [apply lookup_delete_eq|].
    split; [|done].
    assert (Hne : running (obs (memory m1)) ≠ t) by (intros Heq; rewrite Heq in Hk; congruence).
    destruct y as [r|n'].
    + assert (suspended m2 = delete (running (obs (memory m1))) (suspended m1)) as -> by by destruct o.
      by rewrite lookup_delete_ne.
    + assert (Hk' : ∃ k', suspended m2 =
        <[running (obs (memory m1)) := (o, k')]> (delete (running (obs (memory m1))) (suspended m1)))
        by by destruct o.
      destruct Hk' as [k' ->]. by rewrite lookup_insert_ne, lookup_delete_ne.
  - destruct Hch as (prev & Hn' & _ & _ & _ & -> & -> & _ & _ & Hidc).
    assert (prev = t) as -> by congruence. rewrite Hidc. unfold survivors. rewrite Hr.
    by rewrite lookup_delete_eq.
  - destruct Hch as (Hno & _). by destruct (Hno t).
Qed.

(** C9: A thread that exits never returns: the processor is handed over at once.
    As soon as the next thread has gone on, or begun, the record of the thread
    is gone (that of the initial thread stays), and nothing is left of it among
    the suspended threads and those being made. *)
Theorem exited_thread_gone m t x m1 e m2 :
  frames_aligned → machine_ok D m → wakes_ok D m →
  step m (Called t OExit x) m1 → step m1 e m2 → Some t ≠ initial_thread (obs (memory m)) →
  (∃ n, x = Yields n ∧ next m1 = Switched t ∧ has_status (obs (memory m1)) t THREAD_DYING) ∧
  threads (obs (memory m2)) !! t = None ∧ suspended m2 !! t = None ∧ making m2 !! t = None.
Proof.
  intros Hal Hm Hwk Hst Hst2 Hit. pose proof (step_wakes D _ _ _ Hal Hm Hst Hwk) as Hwk1.
  destruct (step_keeps D _ _ _ Hal Hm Hst) as (Hm1 & _).
  destruct (exit_step m t x m1 Hal Hm Hst) as ((n & -> & Hn) & Hd & Hit1 & Hp1 & Hmk1).
  assert (Hr : reaps (obs (memory m1)) t = true) by (apply dying_reaps; [done|by rewrite Hit1]).
  split; [by exists n|].
  destruct (next_frees m1 t e m2) as (H1 & H2 & H3); [done..|].
  split_and!; [by apply idents_none|done..].
Qed.
End properties.

(** * Witnesses *)
Section witnesses.
#[local] Existing Instances concrete_env concrete_env_laws word_frames.

(** Thread 1 creates a thread: [thread_create ("child", prio, function, NULL)]. *)
Definition wit_creates (prio : Z) : list choice :=
  [Makes (OMake "child" prio); Makes OTid; Makes (OStart 20 4 (fn_user 1) aux_null)].

Lemma steps_split (m m' : machine) es1 es2 :
  steps m (es1 ++ es2) m' → ∃ m1, steps m es1 m1 ∧ steps m1 es2 m'.
Proof.
  revert m. induction es1 as [|e es1 IH]; intros m H; [exists m; split; [constructor|done]|].
  inversion H as [|? ? m0 ? ? H0 H1]; subst. destruct (IH m0 H1) as (m1 & Hs1 & Hs2).
  exists m1. split; [by eapply steps_cons|done].
Qed.

(** The events of its creation by thread 1. *)
Definition wit_created (e : list event) : bool :=
  match e with
  | [Called _ (OMake _ _) _; Called _ OTid _; Called _ (OStart t id (fn_user 1) aux_null) _] =>
      bool_decide (t = 20%positive ∧ id = 4)
  | _ => false
  end.

Lemma wit_created_spec es :
  wit_created es = true →
  ∃ e1 e2 u x, es = [e1; e2; Called u (OStart 20 4 (fn_user 1) aux_null) x].
Proof.
  unfold wit_created. intros H. repeat case_match; try done; subst.
  apply bool_decide_eq_true in H as [-> ->]. eauto 10.
Qed.

(** With priority 10 it is ready; thread 1 yields to thread 2. *)
Lemma wit_ready : ∃ m u x m1 es m', machine_ok wit_D m ∧ wakes_ok wit_D m ∧
  step m (Called u (OStart 20 4 (fn_user 1) aux_null) x) m1 ∧ steps m1 es m' ∧
  Forall (λ e, e ≠ Begun 20) es ∧
  running (obs (memory m')) = 2%positive ∧ idle_thread (obs (memory m')) = Some 9%positive ∧
  bool_decide (Some THREAD_READY = status <$> threads (obs (memory m')) !! 20%positive) = true ∧
  ∃ es0, steps wit_machine es0 m'.
Proof.
  destruct (makes_check (λ es m', wit_created (take 3 es) &&
    match drop 3 es with [Called _ _ _] => true | _ => false end &&
    bool_decide (running (obs (memory m')) = 2%positive ∧
      idle_thread (obs (memory m')) = Some 9%positive ∧
      Some THREAD_READY = status <$> threads (obs (memory m')) !! 20%positive))
    (wit_creates 10 ++ [Makes OYield]) wit_machine) as (es & m' & Hs & Hf); [vm_compute; reflexivity|].
  rewrite !andb_true_iff in Hf. destruct Hf as [[Hc Hd] (Hr & Hi & Hst)%bool_decide_eq_true].
  apply wit_created_spec in Hc as (e1 & e2 & u & x & Hes). pose proof Hs as Hs0.
  rewrite <- (take_drop 3 es), Hes in Hs. apply (steps_split _ _ [e1; e2]) in Hs as (m & H1 & H2).
  inversion H2 as [|? ? m1 ? ? Hst1 H3]; subst.
  assert (Hm : machine_ok wit_D m ∧ wakes_ok wit_D m)
    by exact (steps_wakes wit_D _ _ _ ltac:(done) wit_machine_ok wit_wakes H1).
  exists m, u, x, m1, (drop 3 es), m'. split_and!; try apply Hm; try done.
  - destruct (drop 3 es) as [|[] [|]]; try done. by repeat constructor.
  - by rewrite bool_decide_true.
  - by exists es.
Qed.

Lemma started_thread_ready_witness : ∃ m',
  kframe <$> threads (obs (memory m')) !! 20%positive = Some (Some (KFrame (fn_user 1) aux_null)) ∧
  suspended m' !! 20%positive = None ∧ has_status (obs (memory m')) 20 THREAD_READY.
Proof.
  destruct wit_ready as (m & u & x & m1 & es & m' & Hm & Hwk & Hst & Hs & Hno & Hr & _). exists m'.
  destruct (started_thread_ready wit_D m u 20 4 (fn_user 1) aux_null x m1 es m'
    (ltac:(done) : frames_aligned) Hm Hwk Hst Hs Hno) as (H1 & H2 & [H3|[H3 _]]);
    [split; [exact H1|split; [exact H2|exact H3]]|]. rewrite Hr in H3. discriminate H3.
Defined.

(** Nobody in that state is forgotten; thread 20 waits for nothing. *)
Lemma no_thread_forgotten_witness : ∃ m',
  has_status (obs (memory m')) 20 THREAD_READY ∧
  ((∃ o k, suspended m' !! 20%positive = Some (o, k)) ∨
   ∃ kf, kframe <$> threads (obs (memory m')) !! 20%positive = Some (Some kf)).
Proof.
  destruct wit_ready as (m & u & x & m1 & es & m' & Hm & Hwk & Hst & Hs & Hno & Hr & Hi & Hb & es0 & Hs0).
  exists m'. apply bool_decide_eq_true in Hb. split; [exact (eq_sym Hb)|].
  assert (Hp : suspended m' !! 20%positive = None).
  { pose proof (start_to_begin wit_D _ _ _ _ _ _ _ _ (ltac:(done) : frames_aligned) Hm Hst) as Ht.
    destruct (step_keeps wit_D _ _ _ (ltac:(done) : frames_aligned) Hm Hst) as (Hm1 & _).
    apply (steps_to_begin wit_D _ _ _ _ _ (ltac:(done) : frames_aligned) Hm1 Hs Hno Ht). }
  assert (Hlive : live (obs (memory m')) 20) by (eapply live_status; [exact (eq_sym Hb)|done]).
  destruct (no_thread_forgotten wit_D wit_machine es0 m' 20 (ltac:(done) : frames_aligned) wit_machine_ok
    wit_wakes Hs0 Hlive) as [[_ H]|[[_ H]|[(_ & n & k & H)|(sm & ws & _ & _ & _ & k & H)]]].
  - by rewrite Hr.
  - by rewrite Hi.
  - pose proof (eq_trans Hb H) as Hbad. discriminate Hbad.
  - exact H.
  - pose proof (eq_trans (eq_sym H) Hp) as Hbad. discriminate Hbad.
  - pose proof (eq_trans (eq_sym H) Hp) as Hbad. discriminate Hbad.
Defined.

(** With priority 40 it runs at once; it exits, and thread 2 goes on. *)
Definition wit_exits (es : list event) : bool :=
  match es with [Called u OExit _; _] => bool_decide (u = 20%positive) | _ => false end.

Lemma wit_exits_spec es : wit_exits es = true → ∃ x e, es = [Called 20 OExit x; e].
Proof. destruct es as [|[t [] x| | |] [|e []]]; try done. intros ->%bool_decide_eq_true. eauto. Qed.

Lemma wit_exited : ∃ m x m1 e m2, machine_ok wit_D m ∧ wakes_ok wit_D m ∧
  step m (Called 20 OExit x) m1 ∧ step m1 e m2 ∧
  initial_thread (obs (memory m)) = Some 1%positive.
Proof.
  destruct (makes_check (λ _ m, bool_decide (initial_thread (obs (memory m)) = Some 1%positive) &&
      match makes [Makes OExit; GoesOn] m with Some (es, _) => wit_exits es | None => false end)
    (wit_creates 40 ++ [GoesOn]) wit_machine) as (es0 & m & Hs0 & Hf); [vm_compute; reflexivity|].
  apply andb_true_iff in Hf as [Hi%bool_decide_eq_true Hf].
  destruct (makes [Makes OExit; GoesOn] m) as [[es m2]|] eqn:Hr; [|done]. apply makes_steps in Hr.
  apply wit_exits_spec in Hf as (x & e & ->).
  inversion Hr as [|? ? m1 ? ? H1 Hs1]; subst. inversion Hs1 as [|? ? m3 ? ? H2 Hs2]; subst.
  inversion Hs2; subst. exists m, x, m1, e, m2.
  destruct (steps_wakes wit_D _ _ _ ltac:(done) wit_machine_ok wit_wakes Hs0). by split_and!.
Qed.

Lemma exited_thread_gone_witness : ∃ m x m1 e m2, step m (Called 20 OExit x) m1 ∧ step m1 e m2 ∧
  threads (obs (memory m2)) !! 20%positive = None.
Proof.
  destruct wit_exited as (m & x & m1 & e & m2 & Hm & Hwk & H1 & H2 & Hi). exists m, x, m1, e, m2.
  split; [exact H1|]. split; [exact H2|].
  refine (proj1 (proj2 (exited_thread_gone wit_D m 20 x m1 e m2 (ltac:(done) : frames_aligned) Hm Hwk
    H1 H2 _))).
  by rewrite Hi.
Defined.
End witnesses.
