(* ===== verification/Counters.v ===== *)
(** What the counters count in the runs of the machine: [ticks] the timer
    interrupts, [idle_ticks] and [kernel_ticks] those that interrupt the idle
    thread and the others, and [next_tid] the calls of [allocate_tid]. *)
From S2P Require Import Prelude Env Kernel Thread Mlfqs Ready Sched SchedSpec Wait.
From S2P Require Import Synch SemaSpec LockSpec Lifecycle Timer TimerSpec Places Roster Machine Calls LifeCalls.
From S2P Require Import Tally MachineInv MachineSpec Wakeups SampleSched.

#[global] Instance tid_dec o : Decision (o = OTid).
Proof. by refine (match o with OTid => left eq_refl | _ => right _ end). Defined.

Section counting.
Context {E : Env} {EL : EnvLaws E} {F : SwitchFrames}.

(** What a stretch that spares the counters leaves of them. *)
Lemma apwp_spares {A} (R : A → Prop) (p : prog A) Q (a : aview) :
  apwp p Q a → spares R p →
  apwp p (λ o b, Q o b ∧ tally b = tally a ∧
    match o with ODone r => R r | OSwitch _ k => ∀ t, spares R (k t) | OFault _ => True end) a.
Proof.
  intros Hp HR s <-. destruct (Hp s eq_refl) as (o & s' & Hex & HQ).
  exists o, s'. split; [exact Hex|]. split; [exact HQ|]. exact (spares_exec p s o s' Hex R HR).
Qed.

(** ** Events and the counters *)

(** The counters after an event in [a]. *)
Definition tally_after (e : event) (a : aview) : Z * Z * Z * Z * Z :=
  match e with
  | Ticked =>
      let idle := bool_decide (Some (running a) = idle_thread a) in
      (ticks a + 1, idle_ticks a + (if idle then 1 else 0),
       kernel_ticks a + (if idle then 0 else 1), user_ticks a, next_tid a)
  | Called _ OTid _ => (ticks a, idle_ticks a, kernel_ticks a, user_ticks a, int32 (next_tid a + 1))
  | _ => tally a
  end.

(** Who is in a call of [allocate_tid] that has its number but has not returned,
    when the number before the event is [n]. *)
Definition pending_after (e : event) (n : Z) (g : gmap tptr Z) : gmap tptr Z :=
  match e with
  | Called t OTid (Yields _) => <[t := n]> g
  | Resumed t OTid (Returns _) => delete t g
  | _ => g
  end.

(** What the thread [t] returns, if it is in such a call. *)
Definition given (g : gmap tptr Z) (t : tptr) (o : op) (r : ret) : Prop :=
  o = OTid → ∃ id, g !! t = Some id ∧ r = RTid id.

(** No suspended call has anything left to count. *)
Definition spare_pool (g : gmap tptr Z) (p : pool) : Prop :=
  ∀ t o k, p !! t = Some (o, k) → ∀ prev, spares (given g t o) (k prev).

(** What an event returns. *)
Definition returned_ok (g : gmap tptr Z) (e : event) (a : aview) : Prop :=
  match e with
  | Called _ OTid (Returns r) => r = RTid (next_tid a)
  | Resumed t OTid (Returns r) => ∃ id, g !! t = Some id ∧ r = RTid id
  | _ => True
  end.

Lemma spare_pool_set g g' t p o k :
  spare_pool g p → (∀ u, u ≠ t → g' !! u = g !! u) → (∀ prev, spares (given g' t o) (k prev)) →
  spare_pool g' (<[t := (o, k)]> p).
Proof.
  intros Hp Hg Hk u o' k' [[<- [= <- <-]]|[Hne Hu]]%lookup_insert_Some prev; [apply Hk|].
  eapply spares_mono; [|by apply (Hp u o')]. intros r Hr Ho. by rewrite Hg; [apply Hr|].
Qed.

Lemma spare_pool_delete g g' t p :
  spare_pool g p → (∀ u, u ≠ t → g' !! u = g !! u) → spare_pool g' (delete t p).
Proof.
  intros Hp Hg u o' k' [Hne Hu]%lookup_delete_Some prev.
  eapply spares_mono; [|by apply (Hp u o')]. intros r Hr Ho. by rewrite Hg; [apply Hr|].
Qed.

(** The end of a stretch of the thread [t]. *)
Lemma ended_spares first o p mk out (s : kstate) x m' g g' t :
  ended first o p mk out s x m' → pool_after o x t p (suspended m') → spare_pool g p → p !! t = None →
  (∀ u, u ≠ t → g' !! u = g !! u) →
  match out with OSwitch _ k => ∀ prev, spares (given g' t o) (k prev) | _ => True end →
  spare_pool g' (suspended m') ∧ tally (memory m') = tally s ∧
  match x with Returns r => out = ODone r | Yields n => ∃ k, out = OSwitch n k end.
Proof.
  intros Hend Hpa Hp Hn Hg Hk.
  assert (Hp' : spare_pool g' p) by (rewrite <- (delete_id p t Hn); by eapply spare_pool_delete).
  destruct Hend as [r s|n k s Ho|n k s ->]; cbn [suspended memory] in *.
  - by split_and!.
  - assert (running s = t) as ->.
    { assert (∃ k', <[running s := (o, k)]> p = <[t := (o, k')]> p) as [k' Heq] by by destruct o.
      destruct (decide (running s = t)) as [|Hne]; [done|].
      apply (f_equal (lookup t)) in Heq. rewrite lookup_insert_eq, lookup_insert_ne in Heq by done.
      congruence. }
    split_and!; [by eapply spare_pool_set|by destruct s|by eexists].
  - split_and!; [done|by destruct s|by eexists].
Qed.
End counting.

Section machine.
Context {E : Env} {EL : EnvLaws E} {F : SwitchFrames} (D : gset sema_ptr).

Lemma tid_rest_spares (a : aview) : spares (λ r, r = RTid (next_tid a)) (tid_rest a).
Proof.
  unfold tid_rest. apply spares_then; [apply preempt_spares|]. intros _.
  apply spares_then; [|done]. unfold release_rest. spare.
Qed.

(** A call of [allocate_tid] takes the next number at once, and returns it. *)
Lemma apwp_tid_counts Y (a : aview) :
  running_ok D Y INTR_ON a → roster a →
  apwp (run_op OTid) (λ o b,
    tally b = (ticks a, idle_ticks a, kernel_ticks a, user_ticks a, int32 (next_tid a + 1)) ∧
    match o with
    | ODone r => r = RTid (next_tid a)
    | OSwitch _ k => ∀ t, spares (λ r, r = RTid (next_tid a)) (k t)
    | OFault _ => True
    end) a.
Proof.
  intros Hok Hr. eapply apwp_call_tid; [done..|].
  eapply apwp_mono; [eapply apwp_spares; [by eapply apwp_tid_rest|apply tid_rest_spares]|].
  intros o b (_ & Ht & Ho). by split.
Qed.

(** The timer interrupt counts itself. *)
Lemma apwp_tick_counts Y (a : aview) :
  running_ok D Y INTR_ON a → counters_ok a →
  apwp timer_interrupt (λ _ b, tally b = tally_after Ticked a) (set_intr (IView INTR_OFF true false) a).
Proof.
  intros Hok Hc. destruct (running_can_interrupt D Y a Hok Hc) as (q & ss & W & cur & Hpl & Hci).
  eapply apwp_mono; [by apply (apwp_timer_interrupt 0 [] q ss cur)|].
  intros o b (_ & l & r & a1 & a2 & q2 & a3 & cur' & -> & _ & _ & _ & (Hw & _) & Hm & _).
  change (thread_mlfqs (set_intr _ a)) with (thread_mlfqs a) in Hm. rewrite (pl_prio Hpl) in Hm.
  destruct Hm as (_ & -> & ->). by rewrite Hw.
Qed.

(** ** Every step counts what it should *)

Definition counts (g : gmap tptr Z) (m : machine) (e : event) (m' : machine) : Prop :=
  let a := obs (memory m) in
  spare_pool (pending_after e (next_tid a) g) (suspended m') ∧
  tally (obs (memory m')) = tally_after e a ∧ returned_ok g e a.

Lemma call_counts g s p mk o out s' x m' :
  machine_ok D (Machine s p mk Calling) → spare_pool g p →
  exec (run_op o) s out s' → ended true o p mk out s' x m' →
  pool_after o x (running s) p (suspended m') →
  counts g (Machine s p mk Calling) (Called (running s) o x) m'.
Proof.
  intros Hm Hg Hex Hend Hp. pose proof (running_not_suspended D _ Hm) as Hn.
  cbn [next memory suspended] in Hn. specialize (Hn ltac:(done)).
  unfold counts. cbn [memory suspended]. destruct (decide (o = OTid)) as [->|Ho].
  - destruct (mo_phase _ _ Hm) as (Y & Hok & _).
    destruct (apwp_tid_counts Y (obs s) Hok (mo_roster _ _ Hm) s eq_refl) as (out0 & s0 & Hex0 & Ht & Hr).
    destruct (exec_det _ _ _ _ _ _ Hex Hex0) as [<- <-].
    destruct (ended_spares true OTid p mk out s' x m' g (<[running s := next_tid s]> g) (running s))
      as (H1 & H2 & H3); [done..|intros; by rewrite lookup_insert_ne| |].
    + destruct out as [r|n k|e]; [done| |done]. intros prev. eapply spares_mono; [|apply Hr].
      intros r -> _. exists (next_tid s). by rewrite lookup_insert_eq.
    + change (tally (obs (memory m'))) with (tally (memory m')). rewrite H2. split_and!; [|exact Ht|].
      * destruct x as [r|n]; [|exact H1]. inversion Hend; subst. exact Hg.
      * destruct x as [r|n]; [|done]. subst out. exact Hr.
  - destruct (spares_exec _ _ _ _ Hex _ (run_op_spares o Ho)) as [Ht Hr].
    destruct (ended_spares true o p mk out s' x m' g g (running s)) as (H1 & H2 & H3); [done..| |].
    + destruct out as [r|n k|e]; [done| |done]. intros prev. eapply spares_mono; [|apply Hr].
      by intros r _ ?.
    + change (tally (obs (memory m'))) with (tally (memory m')). rewrite H2.
      split_and!; [by destruct o|by destruct o|by destruct o].
Qed.

Lemma resume_counts g s p mk prev o k out s' x m' :
  spare_pool g p → p !! running s = Some (o, k) → exec (k prev) s out s' →
  ended false o (delete (running s) p) mk out s' x m' →
  pool_after o x (running s) (delete (running s) p) (suspended m') →
  counts g (Machine s p mk (Switched prev)) (Resumed (running s) o x) m'.
Proof.
  intros Hg Hk Hex Hend Hp. destruct (spares_exec _ _ _ _ Hex _ (Hg _ _ _ Hk prev)) as [Ht Hr].
  assert (Hd : spare_pool g (delete (running s) p)) by by apply (spare_pool_delete g).
  destruct (ended_spares false o (delete (running s) p) mk out s' x m' g g (running s))
    as (H1 & H2 & H3); [done..|by rewrite lookup_delete_eq|done|by destruct out|].
  unfold counts. cbn [memory suspended].
  change (tally (obs (memory m'))) with (tally (memory m')). rewrite H2. split_and!.
  - destruct x as [r|n]; destruct o; try exact H1. cbn. inversion Hend; subst.
    rewrite <- (delete_delete_eq p). eapply spare_pool_delete; [exact Hd|].
    intros u Hu. by rewrite lookup_delete_ne.
  - by destruct o.
  - destruct x as [r|n]; [|by destruct o]. subst out. destruct o; try done. by apply Hr.
Qed.

Lemma step_counts g m e m' :
  frames_aligned → machine_ok D m → spare_pool g (suspended m) → step m e m' → counts g m e m'.
Proof.
  intros Hal Hm Hg Hst. pose proof (step_keeps D _ _ _ Hal Hm Hst) as (_ & _ & Hch).
  destruct Hst as [s p mk o out s' x m' Ha Hex Hend|s p mk out s' x m' Hex Hend
    |s p mk prev o k out s' x m' Hk Hex Hend|s p mk prev s' Hk Hex|s p mk s1 s2 s3 Hl Hc Hs1 Hex y Hs3].
  - destruct Hch as (_ & _ & _ & _ & Hp & _). by eapply call_counts.
  - destruct Hch as (_ & _ & _ & _ & Hp & _).
    pose proof (running_not_suspended D _ Hm) as Hn. cbn [next memory suspended] in *.
    specialize (Hn ltac:(done)).
    destruct (spares_exec _ _ _ _ Hex _ (run_op_spares OPreempt ltac:(done))) as [Ht Hr].
    destruct (ended_spares true OPreempt p mk out s' x m' g g (running s)) as (H1 & H2 & H3); [done..| |].
    + destruct out as [r|n k|e]; [done| |done]. intros prev. eapply spares_mono; [|apply Hr].
      by intros r _ ?.
    + unfold counts. cbn [memory suspended].
      change (tally (obs (memory m'))) with (tally (memory m')). rewrite H2. by split_and!.
  - destruct Hch as (prev0 & k0 & _ & _ & _ & _ & _ & _ & Hp & _).
    rewrite (proj1 (resumed_fields (Some prev0) _)) in Hp. by eapply resume_counts.
  - destruct (spares_exec _ _ _ _ Hex _ (begin_spares prev)) as [Ht _].
    by split_and!.
  - destruct (calling_ok D _ _ _ Hm) as (Y & Hok & _). cbn [memory] in Hok.
    destruct (apwp_tick_counts Y (obs s) Hok Hc s1 Hs1) as (o & s2' & Hex' & Ht).
    destruct (exec_det _ _ _ _ _ _ Hex Hex') as [_ <-].
    split_and!; [done| |done]. cbn [memory]. rewrite Hs3. exact Ht.
Qed.
End machine.

(** ** Runs *)

Definition interrupts (e : event) : Z := match e with Ticked => 1 | _ => 0 end.
Definition tid_calls (e : event) : Z := match e with Called _ OTid _ => 1 | _ => 0 end.

(** The thread an event is of, and the one that runs after it, [r] having run
    before. *)
Definition event_thread (e : event) : option tptr :=
  match e with Called t _ _ | Resumed t _ _ | Begun t => Some t | Ticked => None end.
Definition runner (r : tptr) (e : event) : tptr :=
  match e with
  | Called _ _ (Yields n) | Resumed _ _ (Yields n) => n
  | Called t _ _ | Resumed t _ _ | Begun t => t
  | Ticked => r
  end.

(** The timer interrupts that interrupt the idle thread [i]. *)
Definition idle_interrupt (i : option tptr) (r : tptr) (e : event) : Z :=
  match e with Ticked => if bool_decide (Some r = i) then 1 else 0 | _ => 0 end.
Fixpoint idle_interrupts (i : option tptr) (r : tptr) (es : list event) : Z :=
  match es with
  | [] => 0
  | e :: es => idle_interrupt i r e + idle_interrupts i (runner r e) es
  end.

Section runs.
Context {E : Env} {EL : EnvLaws E} {F : SwitchFrames} (D : gset sema_ptr).

Lemma tally_step e (a b : aview) :
  tally b = tally_after e a →
  ticks b = ticks a + interrupts e ∧
  idle_ticks b = idle_ticks a + idle_interrupt (idle_thread a) (running a) e ∧
  kernel_ticks b = kernel_ticks a + (interrupts e - idle_interrupt (idle_thread a) (running a) e) ∧
  user_ticks b = user_ticks a ∧
  next_tid b = (if decide (tid_calls e = 1) then int32 (next_tid a + 1) else next_tid a).
Proof.
  destruct e as [t o x|t o x|t|]; [destruct o|..]; simpl; intros [= -> Hi Hk -> ->]; rewrite ?Hi, ?Hk;
    try case_bool_decide; split_and!; lia.
Qed.

(** The thread that runs after an event. *)
Lemma step_runner m e m' :
  frames_aligned → machine_ok D m → step m e m' →
  running (obs (memory m')) = runner (running (obs (memory m))) e ∧
  idle_thread (obs (memory m')) = idle_thread (obs (memory m)).
Proof.
  intros Hal Hm Hst. pose proof (step_keeps D _ _ _ Hal Hm Hst) as (_ & Hi & Hch). split; [|done].
  assert (Ht : event_thread e = None ∨ event_thread e = Some (running (obs (memory m)))).
  { destruct Hst; [by right..|by left]. }
  destruct e as [t o x|t o x|t|]; cbn [runner event_thread event_change] in *.
  - destruct Ht as [?|[= ->]]; [done|]. destruct Hch as (_ & _ & _ & _ & _ & Hx).
    destruct x as [r|n]; [by destruct Hx as (_ & ? & _)|by destruct Hx as (_ & _ & ?)].
  - destruct Ht as [?|[= ->]]; [done|]. destruct Hch as (prev & k & _ & _ & _ & _ & _ & _ & _ & Hx).
    destruct x as [r|n]; [|by destruct Hx as (_ & _ & ?)]. destruct Hx as (_ & -> & _).
    apply resumed_fields.
  - destruct Ht as [?|[= ->]]; [done|]. destruct Hch as (prev & _ & _ & _ & _ & _ & _ & -> & _).
    rewrite restored_running. apply resumed_fields.
  - by destruct Hch as (_ & _ & _ & _ & ? & _).
Qed.

(** What the counters of ticks count. *)
Lemma counts_ticks g m es m' :
  frames_aligned → machine_ok D m → spare_pool g (suspended m) → steps m es m' →
  let a := obs (memory m) in
  let b := obs (memory m') in
  let i := idle_interrupts (idle_thread a) (running a) es in
  ticks b = ticks a + total interrupts es ∧ idle_ticks b = idle_ticks a + i ∧
  kernel_ticks b = kernel_ticks a + (total interrupts es - i) ∧ user_ticks b = user_ticks a.
Proof.
  intros Hal Hm Hg Hs. revert g Hg. induction Hs as [m|m e m1 es m2 Hst _ IH]; intros g Hg.
  { cbn. split_and!; lia. }
  destruct (step_counts D g m e m1 Hal Hm Hg Hst) as (Hg1 & Ht & _).
  destruct (step_keeps D m e m1 Hal Hm Hst) as (Hm1 & _).
  destruct (step_runner m e m1 Hal Hm Hst) as [Hr Hi].
  destruct (tally_step e _ _ Ht) as (H1 & H2 & H3 & H4 & _).
  destruct (IH Hm1 _ Hg1) as (I1 & I2 & I3 & I4). rewrite Hr, Hi in I2, I3.
  change (total interrupts (e :: es)) with (interrupts e + total interrupts es).
  cbn [idle_interrupts]. cbv zeta. split_and!; [lia..|congruence].
Qed.
End runs.

(** * Witnesses *)
Section witnesses.
#[local] Existing Instances concrete_env concrete_env_laws word_frames.

Lemma yield_rest_spares (R : ret → Prop) prev : R RUnit → spares R (yield_rest prev).
Proof.
  intros HR. unfold yield_rest. apply spares_Act; [apply thread_schedule_tail_spares|].
  intros _. by apply spares_Act; [spare|].
Qed.

Lemma wit_spare : spare_pool ∅ (suspended wit_machine).
Proof.
  intros t o k H prev. apply (elem_of_list_to_map_2 (M := gmap tptr)) in H.
  rewrite !elem_of_cons, elem_of_nil in H.
  repeat destruct H as [[= -> -> ->]|H]; try done; by apply yield_rest_spares.
Qed.

(** Threads 1 and 2 each allocate an identifier; a tick comes in between. *)
Definition wit_allocs : list choice :=
  [Makes OTid; Ticks; Makes OYield; GoesOn; Makes OTid].

Definition wit_counted (es : list event) (m' : machine) : bool :=
  bool_decide (total interrupts es = 1 ∧ idle_interrupts (Some 9%positive) 1 es = 0 ∧
    total tid_calls es = 2).

Lemma wit_counts : ∃ es m', steps wit_machine es m' ∧ wit_counted es m' = true.
Proof. apply (makes_check wit_counted wit_allocs). vm_compute. reflexivity. Qed.

End witnesses.
