(* ===== verification/Stats.v ===== *)
(** The statistics that the kernel prints when it shuts down (the caller is in
    devices/shutdown.c, outside the repository), and that they add up. *)
From Stdlib Require Import Ascii.
From S2P Require Import Prelude Env Kernel Lifecycle Timer TimerSpec Roster Machine MachineInv MachineSpec Wakeups.
From S2P Require Import Tally Counters SampleSched.

Definition newline : string := String (ascii_of_nat 10) "".

(** The format strings; [PRId64] is of <inttypes.h>. *)
Definition thread_stats : string :=
  "Thread: %lld idle ticks, %lld kernel ticks, %lld user ticks" ++ newline.
Definition timer_stats (PRId64 : string) : string := "Timer: %" ++ PRId64 ++ " ticks" ++ newline.

Section code.
(** <stdio.h>: the format and the integers it formats. *)
Context {E : Env} (printf : string → list Z → K unit) (PRId64 : string).

Definition thread_print_stats : K unit :=
  i ← gets idle_ticks;
  k ← gets kernel_ticks;
  u ← gets user_ticks;
  printf thread_stats [i; k; u].

Definition timer_print_stats : K unit :=
  t ← timer_ticks;
  printf (timer_stats PRId64) [t].
End code.

Section printed.
Context {E : Env} {EL : EnvLaws E} (printf : string → list Z → K unit) (PRId64 : string).

Lemma awp_thread_print_stats Q (a : aview) :
  awp (printf thread_stats [idle_ticks a; kernel_ticks a; user_ticks a]) Q a →
  awp (thread_print_stats printf) Q a.
Proof.
  intros H. apply awp_bind. apply (awp_gets _ (idle_ticks a)); [by intros s <-|].
  apply awp_bind. apply (awp_gets _ (kernel_ticks a)); [by intros s <-|].
  apply awp_bind. apply (awp_gets _ (user_ticks a)); [by intros s <-|]. exact H.
Qed.

Lemma awp_timer_print_stats Q (a : aview) :
  awp (printf (timer_stats PRId64) [ticks a]) Q a → awp (timer_print_stats printf PRId64) Q a.
Proof. intros H. apply awp_bind, awp_timer_ticks. exact H. Qed.

(** C21: The statistics printed are true and add up.  In every state of every run
    [timer_print_stats] prints the count of the timer interrupts, and
    [thread_print_stats] how many of them interrupted the idle thread, the
    kernel and users (none): those counted when the run begins and those of the
    run.  If the three numbers of the second line have the number of the first
    as their sum when the run begins (all are 0 at boot), they always have.
    Nothing else is printed, and the state is as [printf] leaves it. *)
Theorem printed_stats {F : SwitchFrames} D g m es m' :
  frames_aligned → machine_ok D m → spare_pool g (suspended m) → steps m es m' →
  let a := obs (memory m) in
  let b := obs (memory m') in
  ∃ t i k u,
    t = ticks a + total interrupts es ∧
    i = idle_ticks a + idle_interrupts (idle_thread a) (running a) es ∧
    (ticks a = idle_ticks a + kernel_ticks a + user_ticks a → t = i + k + u) ∧ u = user_ticks a ∧
    (∀ Q, awp (printf (timer_stats PRId64) [t]) Q b → awp (timer_print_stats printf PRId64) Q b) ∧
    (∀ Q, awp (printf thread_stats [i; k; u]) Q b → awp (thread_print_stats printf) Q b).
Proof.
  intros Hal Hm Hg Hs a b.
  destruct (counts_ticks D g m es m' Hal Hm Hg Hs) as (H1 & H2 & H3 & H4).
  fold a b in H1, H2, H3, H4. exists (ticks b), (idle_ticks b), (kernel_ticks b), (user_ticks b).
  split_and!; [done|done|lia|done|intros Q; apply awp_timer_print_stats|intros Q; apply awp_thread_print_stats].
Qed.
End printed.

Section witness.
#[local] Existing Instances concrete_env concrete_env_laws word_frames.

(** A [printf] that stores what it is to print, in the load average. *)
Definition wit_printf (format : string) (xs : list Z) : K unit :=
  modify (λ s, set_load_avg (foldl (λ n x, 100 * n + x) 0 xs) s).

Lemma awp_wit_printf f xs Q (a : aview) :
  Q () (set_load_avg (foldl (λ n x, 100 * n + x) 0 xs) a) → awp (wit_printf f xs) Q a.
Proof. intros HQ. eapply awp_modify; [|exact HQ]. by intros s <-. Qed.

(** After a run with one tick, which interrupts the kernel. *)
Lemma printed_stats_witness : ∃ es m', steps wit_machine es m' ∧
  holds_at (timer_print_stats wit_printf "lld") (λ _ b, load_avg b = 1) (memory m') ∧
  holds_at (thread_print_stats wit_printf) (λ _ b, load_avg b = 100) (memory m').
Proof.
  destruct wit_counts as (es & m' & Hs & (Hn & Hi & _)%bool_decide_eq_true). exists es, m'.
  destruct (printed_stats wit_printf "lld" wit_D ∅ wit_machine es m' (ltac:(done) : frames_aligned)
    wit_machine_ok wit_spare Hs) as (t & i & k & u & Ht & Hi' & Hsum & Hu & Htp & Hp).
  rewrite Hn in Ht. change (i = 0 + idle_interrupts (Some 9%positive) 1 es) in Hi'.
  rewrite Hi in Hi'. specialize (Hsum eq_refl).
  split; [exact Hs|]. split.
  - refine (Htp (λ _ b, load_avg b = 1) _ _ eq_refl).
    apply awp_wit_printf. cbn in *. lia.
  - refine (Hp (λ _ b, load_avg b = 100) _ _ eq_refl).
    apply awp_wit_printf. cbn in *. lia.
Defined.
End witness.
