(* ===== verification/Priority.v ===== *)
(** Priority scheduling in the machine: between two ticks no ready thread is ahead
    of the running one, and one that a tick readies waits for less than a time
    slice. *)
From S2P Require Import Prelude Env Kernel Thread Mlfqs Ready Sched SchedSpec Wait Synch SemaSpec Lifecycle Timer TimerSpec Places Roster Machine Calls LifeCalls MachineInv MachineSpec SampleSched Wakeups.

Section ahead.
Context {E : Env} {EL : EnvLaws E} {F : SwitchFrames} (D : gset sema_ptr).

(** The ticks that have come since the running thread went on, or last made a
    call that checks for preemption; [n] had come when the events began. *)
Definition waited (n : Z) (es : list event) : Z :=
  foldl (λ n e, match e with
    | Ticked => n + 1
    | Called _ o _ => if decide (checks o) then 0 else n
    | Resumed _ _ _ | Begun _ => 0
    end) n es.

(** Nothing but the ticks puts a ready thread ahead of the running one. *)
Definition in_front (n : Z) (m : machine) : Prop :=
  0 ≤ n ∧ (next m = Calling →
    n ≤ thread_ticks (obs (memory m)) ∧ (n = 0 → highest (running (obs (memory m))) (obs (memory m)))).

Lemma slice_of m : machine_ok D m → next m = Calling → 0 ≤ thread_ticks (obs (memory m)) < TIME_SLICE.
Proof. intros Hm Hn. destruct (mo_phase _ _ Hm) as (Y & Hph & _). rewrite Hn in Hph. apply Hph. Qed.

(** A thread that goes on is ahead. *)
Lemma goes_on m prev :
  machine_ok D m → next m = Switched prev →
  let c := resumed (Some prev) (obs (memory m)) in highest (running c) c.
Proof.
  intros Hm Hn. destruct (mo_phase _ _ Hm) as (Y & Hph & _). rewrite Hn in Hph.
  destruct Hph as ((Hne & _) & _ & _ & _ & Hh & _). apply highest_resumed; [done|]. by intros p [= <-].
Qed.

Lemma highest_restored l (a : aview) :
  highest (running a) a → highest (running (restored l a)) (restored l a).
Proof. done. Qed.

Lemma step_front m e m' n :
  frames_aligned → machine_ok D m → step m e m' → in_front n m → in_front (waited n [e]) m'.
Proof.
  intros Hal Hm Hs [H0 Hf]. destruct (step_keeps D _ _ _ Hal Hm Hs) as (Hm' & _ & He).
  pose proof (slice_of m' Hm') as Hsl.
  destruct Hs as [s p mk o out s' x m' Ha Hex Hend|s p mk out s' x m' Hex Hend
    |s p mk prev o k out s' x m' Hk Hex Hend|s p mk prev s' Hk Hex|s p mk s1 s2 s3 Hl Hc Hs1 Hex y Hs3];
    cbn [waited foldl memory] in *.
  - destruct He as (_ & _ & _ & _ & _ & Hx). split; [by case_decide|]. intros Hn. specialize (Hsl Hn).
    destruct x as [r|w]; [|destruct Hx as (_ & Hx & _); congruence]. destruct Hx as (_ & _ & Hh & Htk).
    destruct (Hf eq_refl) as [Hle Hhi]. case_decide as Hck; split; [apply Hsl|auto| |auto].
    destruct Htk as [?|Htk]; [done|]. rewrite Htk. exact Hle.
  - destruct He as (_ & _ & _ & _ & _ & Hx). rewrite decide_True by done. split; [done|].
    intros Hn. specialize (Hsl Hn). split; [apply Hsl|intros _].
    destruct x as [r|w]; [|destruct Hx as (_ & Hx & _); congruence]. apply Hx. by left.
  - destruct He as (prev' & k' & [= <-] & _ & _ & _ & _ & _ & _ & Hx). split; [done|].
    intros Hn. specialize (Hsl Hn). split; [apply Hsl|intros _].
    destruct x as [r|w]; [|destruct Hx as (_ & Hx & _); congruence]. apply Hx. right.
    by apply (goes_on _ prev Hm).
  - split; [done|]. intros Hn. specialize (Hsl Hn). split; [apply Hsl|intros _].
    destruct He as (prev' & [= <-] & _ & _ & _ & _ & _ & -> & _).
    apply highest_restored. by apply (goes_on _ prev Hm).
  - split; [lia|]. intros _. split; [|lia].
    assert (Hst : step (Machine s p mk Calling) Ticked
      (Machine s3 p mk (if y then Preempted else Calling))) by by eapply step_tick.
    destruct (tick_step D _ _ Hm Hst) as (_ & Ht & _).
    destruct (Hf eq_refl) as [Hle _]. rewrite Ht. cbn [memory]. lia.
Qed.

Lemma steps_front m es m' n :
  frames_aligned → machine_ok D m → steps m es m' → in_front n m → in_front (waited n es) m'.
Proof.
  intros Hal Hm Hs. revert n. induction Hs as [m|m e m1 es m2 Hst _ IH]; intros n Hf; [done|].
  destruct (step_keeps D _ _ _ Hal Hm Hst) as (Hm1 & _).
  apply (IH Hm1 (waited n [e])). by apply (step_front m).
Qed.
End ahead.

(** * Properties *)
Section properties.
Context {E : Env} {EL : EnvLaws E} {F : SwitchFrames} (D : gset sema_ptr).

(** C4: Priority scheduling.  In every run that begins with no ready thread ahead
    of the running one, whenever a thread is running no ready thread has a higher
    priority, unless ticks have come since it went on or last made a call that
    checks for preemption (a yield, an up, a change of priority, the allocation of
    an identifier, the start of a new thread); and of those there are fewer than
    [TIME_SLICE].  So only a thread that a tick has readied is ever ahead of the
    running one, and for less than a time slice. *)
Theorem highest_runs m es m' :
  frames_aligned → machine_ok D m → steps m es m' →
  (next m = Calling → highest (running (memory m)) (obs (memory m))) →
  next m' = Calling →
  0 ≤ waited 0 es < TIME_SLICE ∧
  (waited 0 es = 0 → highest (running (memory m')) (obs (memory m'))).
Proof.
  intros Hal Hm Hs Hh Hn. destruct (steps_keep D _ _ _ Hal Hm Hs) as (Hm' & _).
  destruct (steps_front D _ _ _ 0 Hal Hm Hs) as [H0 Hf].
  { split; [done|]. intros Hc. split; [apply (slice_of D _ Hm Hc)|intros _; exact (Hh Hc)]. }
  destruct (Hf Hn) as [Hle Hhi]. pose proof (slice_of D _ Hm' Hn). split; [lia|exact Hhi].
Qed.
End properties.

(** * Witnesses *)
Section witnesses.
#[local] Existing Instances concrete_env concrete_env_laws word_frames.

Lemma wit_ahead : highest (running wit_memory) (obs wit_memory).
Proof.
  apply (highest_front wit_D ∅ [2; 3]%positive [] (λ _, []) (obs wit_memory)); [exact wit_placed|].
  intros t [= <-]. by vm_compute.
Qed.

(** Threads 1 and 2 go to sleep; two ticks later thread 3 runs and thread 1, of a
    higher priority, is ready.  When thread 3 ups, thread 1 preempts it. *)
Definition wit_late : list choice :=
  [Makes (OSleep 2); GoesOn; Makes (OSleep 9); GoesOn; Ticks; Ticks].

Lemma wit_overtakes : ∃ es m', steps wit_machine es m' ∧ next m' = Calling ∧
  running (memory m') = 1%positive ∧ waited 0 es = 0.
Proof.
  destruct (makes_check (λ es m', bool_decide (
    running (memory m') = 1%positive ∧ waited 0 es = 0) &&
    match next m' with Calling => true | _ => false end)
    (wit_late ++ [Makes (OUp (sema_at 1)); GoesOn]) wit_machine) as (es & m' & Hs & Hf);
    [vm_compute; reflexivity|].
  apply andb_true_iff in Hf as [[Hr Hw]%bool_decide_eq_true Hn]. exists es, m'.
  split_and!; [done| |done..]. by destruct (next m').
Qed.

Lemma highest_runs_witness : ∃ es m',
  steps wit_machine es m' ∧ 0 ≤ waited 0 es < TIME_SLICE ∧ highest 1 (obs (memory m')).
Proof.
  destruct wit_overtakes as (es & m' & Hs & Hn & Hr & Hw). exists es, m'.
  destruct (highest_runs wit_D _ _ _ (ltac:(done) : frames_aligned) wit_machine_ok Hs
    (λ _, wit_ahead) Hn) as [Ht Hh].
  split_and!; [done|apply Ht..|]. rewrite <- Hr. exact (Hh Hw).
Defined.
End witnesses.
