(* ===== verification/Sleepers.v ===== *)
(** Sleepers wake on time: in all runs of the machine a thread in [timer_sleep] is
    asleep until its tick comes, and is ready from that tick on. *)
From S2P Require Import Prelude Env Kernel Thread Mlfqs Ready Sched SchedSpec Wait.
From S2P Require Import Synch SemaSpec Lifecycle Timer TimerSpec Places Roster Machine Calls LifeCalls.
From S2P Require Import MachineInv MachineSpec Wakeups SampleSched.

Section sleepers.
Context {E : Env} {EL : EnvLaws E} {F : SwitchFrames} (D : gset sema_ptr).

(** The thread [t] sleeps until tick [w], in a call of [timer_sleep (n)]. *)
Definition sleeping_till (t : tptr) (n w : Z) (m : machine) : Prop :=
  suspended_in (suspended m) (OSleep n) t ∧
  if w <=? ticks (obs (memory m)) then ¬ sleeps (obs (memory m)) t
  else asleep (obs (memory m)) t w.

Definition resumes_thread (t : tptr) (e : event) : Prop :=
  match e with Resumed u _ _ => u = t | _ => False end.

Lemma asleep_functional (a : aview) t w w' : asleep a t w → asleep a t w' → w = w'.
Proof. by intros [_ <-] [_ <-]. Qed.

Lemma sleeps_asleep (a : aview) t : sleeps a t → ∃ w, asleep a t w.
Proof. intros H. by eexists. Qed.

(** A stretch of another thread leaves it where it is. *)
Lemma went_sleeping first o x m m' t n w :
  went D first o x m m' → t ≠ running (obs (memory m)) →
  sleeping_till t n w m → sleeping_till t n w m'.
Proof.
  intros Hw Hne [Hin Hs]. pose proof (went_others D _ _ _ _ _ Hw _ _ Hne Hin) as Hin'.
  destruct Hw as ((s & _ & _ & Hrun & Hfr & [(_ & _ & Ht & Hsl) _] & _) & _).
  split; [done|]. destruct Hfr as (Hfr & Hfr'). rewrite Ht, Hfr.
  assert (Hother : ∀ w, ¬ falls_asleep first o s t w).
  { intros w' Hf. destruct o; try done. destruct Hf as (_ & -> & _). congruence. }
  assert (Has : ∀ w, asleep (obs (memory m')) t w ↔ asleep (obs (memory m)) t w).
  { intros w'. rewrite Hsl, (asleep_frame (obs (memory m)) s) by by split.
    split; [by intros [|?%Hother]|by left]. }
  destruct (w <=? ticks (obs (memory m))); [|by apply Has].
  intros (w' & Hw')%sleeps_asleep. apply Hs. by apply Has in Hw' as [? _].
Qed.

(** So does a tick before its time. *)
Lemma tick_sleeping m m' t n w :
  event_change D Ticked m m' → sleeping_till t n w m → sleeping_till t n w m'.
Proof.
  intros (_ & _ & Hp & _ & _ & _ & _ & Ht & Hsl) [Hin Hs]. split; [by rewrite Hp|]. rewrite Ht.
  destruct (Z.leb_spec w (ticks (obs (memory m)) + 1)) as [Hle|Hgt].
  - intros (w' & Hw')%sleeps_asleep. apply Hsl in Hw' as [Hw' Hlt].
    destruct (Z.leb_spec w (ticks (obs (memory m)))) as [_|_]; [by apply Hs, Hw'|].
    pose proof (asleep_functional _ _ _ _ Hs Hw'). lia.
  - destruct (Z.leb_spec w (ticks (obs (memory m)))) as [?|_]; [lia|]. by apply Hsl.
Qed.

(** And a thread that begins. *)
Lemma begun_sleeping m m' u t n w :
  event_change D (Begun u) m m' → sleeping_till t n w m → sleeping_till t n w m'.
Proof.
  intros (prev & _ & _ & _ & _ & Hp & _ & _ & Hfr & _) [Hin Hs]. split; [by rewrite Hp|].
  pose proof (asleep_frame _ _ t w Hfr) as Has. destruct Hfr as (Ht & Hl & _). rewrite Ht.
  destruct (w <=? ticks (obs (memory m))); [|by apply Has]. contradict Hs.
  by apply (sleeps_same (obs (memory m)) (obs (memory m'))).
Qed.

Lemma step_sleeping m e m' t n w :
  frames_aligned → machine_ok D m → wakes_ok D m → step m e m' → ¬ resumes_thread t e →
  sleeping_till t n w m → sleeping_till t n w m'.
Proof.
  intros Hal Hm Hwk Hst Hno Hs. destruct (step_keeps D _ _ _ Hal Hm Hst) as (_ & _ & Hch).
  pose proof (event_went D _ _ _ Hm Hwk Hch) as Hw. destruct e as [u o x|u o x|u|].
  - apply (went_sleeping true o x m); [done| |done]. intros ->.
    destruct Hw as (_ & Hnone & _), Hs as ([k Hk] & _). congruence.
  - apply (went_sleeping false o x m); [done| |done]. intros ->. apply Hno. simpl.
    by inversion Hst.
  - by apply (begun_sleeping m m' u).
  - by apply (tick_sleeping m).
Qed.

Lemma steps_sleeping m es m' t n w :
  frames_aligned → machine_ok D m → wakes_ok D m → steps m es m' →
  Forall (λ e, ¬ resumes_thread t e) es →
  sleeping_till t n w m → sleeping_till t n w m'.
Proof.
  intros Hal Hm Hwk Hs. induction Hs as [m|m e m1 es m2 Hst _ IH]; [done|].
  intros [Hno Hnos]%Forall_cons Hsl.
  apply IH; [by apply (step_keeps D _ _ _ Hal Hm Hst)|by eapply step_wakes|done|by eapply step_sleeping].
Qed.
End sleepers.

(** * Properties *)
Section properties.
Context {E : Env} {EL : EnvLaws E} {F : SwitchFrames} (D : gset sema_ptr).

(** C6: Sleepers wake on time.  A thread that has called [timer_sleep (n)] at tick
    [w - n] is asleep as long as the tick counter is below [w], whatever the
    other threads do; from the tick [w] on it is ready, or the next to go on,
    until it has gone on. *)
Theorem sleepers_on_time m t n x m1 es m' :
  frames_aligned → machine_ok D m → wakes_ok D m → 0 < n →
  step m (Called t (OSleep n) (Yields x)) m1 → steps m1 es m' →
  Forall (λ e, ¬ resumes_thread t e) es →
  let a := obs (memory m') in let w := ticks (obs (memory m)) + n in
  (∃ k, suspended m' !! t = Some (OSleep n, k)) ∧
  (ticks a < w → asleep a t w) ∧
  (w ≤ ticks a → has_status a t THREAD_READY ∨ (t = running a ∧ ∃ prev, next m' = Switched prev)).
Proof.
  intros Hal Hm Hwk Hn Hst Hs Hno a w. pose proof (step_wakes D _ _ _ Hal Hm Hst Hwk) as Hwk1.
  destruct (step_keeps D _ _ _ Hal Hm Hst) as (Hm1 & _ & Hch).
  pose proof (event_went D _ _ _ Hm Hwk Hch) as Hw.
  assert (Ht : t = running (obs (memory m))) by by inversion Hst.
  assert (Hs1 : sleeping_till t n w m1).
  { destruct Hw as ((s & _ & _ & Hrun & (Hfr & _) & [(_ & _ & Htk & Hsl) _] & _) & _ & _ & _ & Hin & _).
    rewrite <- Ht in *. split; [done|]. rewrite Htk, Hfr.
    destruct (Z.leb_spec w (ticks (obs (memory m)))); [lia|]. apply Hsl. right.
    split_and!; [done|congruence|done|]. by rewrite Hfr. }
  destruct (steps_sleeping D _ _ _ _ _ _ Hal Hm1 Hwk1 Hs Hno Hs1) as [Hin Hsl].
  destruct (steps_wakes D _ _ _ Hal Hm1 Hwk1 Hs) as [Hm' Hwk'].
  refine (conj Hin (conj _ _)); intros Hcmp; subst a.
  { by rewrite (proj2 (Z.leb_gt _ _) Hcmp) in Hsl. }
  rewrite (proj2 (Z.leb_le _ _) Hcmp) in Hsl. apply (woken_where D m' (OSleep n)); [done..|].
  intros sm ws Hsm Hws Ht'. pose proof (waiter_in D _ _ _ _ Hm' Hwk' Hsm Hws Ht') as Hin'.
  by pose proof (suspended_in_inj _ _ _ _ Hin Hin').
Qed.
End properties.

(** * Witness *)
Section witnesses.
#[local] Existing Instances concrete_env concrete_env_laws word_frames.

(** Thread 1 sleeps for a tick; thread 2 goes on; the tick comes. *)
Definition wit_sleep_events (es : list event) : bool :=
  match es with
  | [Called t (OSleep n) (Yields _); Resumed u _ _; Ticked] =>
      bool_decide (t = 1%positive ∧ n = 1 ∧ u = 2%positive)
  | _ => false
  end.

Lemma wit_sleep_events_spec es :
  wit_sleep_events es = true →
  ∃ x o r, es = [Called 1 (OSleep 1) (Yields x); Resumed 2 o r; Ticked].
Proof.
  unfold wit_sleep_events. intros H. repeat case_match; try done; subst.
  apply bool_decide_eq_true in H as (-> & -> & ->). eauto.
Qed.

Lemma wit_slept : ∃ x o r m1 m', step wit_machine (Called 1 (OSleep 1) (Yields x)) m1 ∧
  steps m1 [Resumed 2 o r; Ticked] m' ∧
  (ticks (obs wit_memory) + 1 ≤ ticks (obs (memory m')) ∧ running (obs (memory m')) = 2%positive).
Proof.
  destruct (makes_check (λ es m', wit_sleep_events es &&
    bool_decide (ticks (obs wit_memory) + 1 ≤ ticks (obs (memory m')) ∧
      running (obs (memory m')) = 2%positive))
    [Makes (OSleep 1); GoesOn; Ticks] wit_machine) as (es & m' & Hs & Hf); [vm_compute; reflexivity|].
  apply andb_true_iff in Hf as [He Hf%bool_decide_eq_true].
  apply wit_sleep_events_spec in He as (x & o & r & ->).
  inversion Hs as [|? ? m1 ? ? Hst Hs1]; subst. by exists x, o, r, m1, m'.
Qed.

Lemma sleepers_on_time_witness : ∃ x o r m1 m',
  step wit_machine (Called 1 (OSleep 1) (Yields x)) m1 ∧ steps m1 [Resumed 2 o r; Ticked] m' ∧
  has_status (obs (memory m')) 1 THREAD_READY.
Proof.
  destruct wit_slept as (x & o & r & m1 & m' & Hst & Hs & Hle & Hrun). exists x, o, r, m1, m'.
  split; [exact Hst|]. split; [exact Hs|].
  destruct (sleepers_on_time wit_D _ 1 1 x m1 [Resumed 2 o r; Ticked] m'
    (ltac:(done) : frames_aligned) wit_machine_ok wit_wakes) as (_ & _ & H);
    [lia|exact Hst|exact Hs|by rewrite !Forall_cons, Forall_nil; simpl; split_and!; [intros ?|intros ?|]|].
  destruct (H Hle) as [Hr|[Heq _]]; [exact Hr|]. rewrite Hrun in Heq. done.
Defined.
End witnesses.
