(* ===== verification/BootSpec.v ===== *)
(** Booting: from the memory the loader leaves to the machine of Machine.v.

    [main] runs up to [sema_down (&idle_started)] in [thread_start], which
    switches to the new idle thread; that thread runs up to [sema_up
    (&idle_started)], which lets [main] go on.  From there on the two threads
    are in a state of the machine that satisfies its invariant, so that the
    properties of MachineSpec hold of everything the kernel does afterwards. *)
From S2P Require Import Prelude Env Kernel Thread Mlfqs Ready Sched Wait Synch SemaSpec LockSpec.
From S2P Require Import Lifecycle Timer TimerSpec Boot Paging Init Places Roster Machine Calls LifeCalls.
From S2P Require Import MachineInv MachineSpec Wakeups Tally Counters Sample.

(** What the parameters of [main] are documented to do: apart from the page
    allocator, which is set up with the page of the running code in use, the
    devices do not touch the modelled memory; and a thread that runs for the
    first time calls [thread_schedule_tail] before its function. *)
Class PlatformLaws `{E : Env} {EL : EnvLaws E} (PF : Platform) : Prop := {
  devices_keep : devices_ok;
  inits_keep m : m ∈ [console_init; malloc_init; intr_init; kbd_init; input_init] →
    ∀ Q (a : aview), Q () a → awp m Q a;
  pit_keeps x y z : ∀ Q (a : aview), Q () a → awp (pit_configure_channel x y z) Q a;
  register_keeps n h nm : ∀ Q (a : aview), Q () a → awp (intr_register_ext n h nm) Q a;
  palloc_init_sets n : ∀ Q (a : aview),
    (∀ us, running a ∈ us → Q () (set_pages us a)) → awp (palloc_init n) Q a;
  switch_entry_tail prev p : switch_entry prev p = (act (thread_schedule_tail (Some prev));; p)
}.

Section boot.
Context {E : Env} {EL : EnvLaws E} {BD : Build} {F : SwitchFrames} {T : PageTables} {PF : Platform}
  {PL : PlatformLaws PF} {BL : Blocks} (user_code : positive → aux_ptr → prog unit).

(** What [main] does after [thread_start]. *)
Definition main_rest (argv : list string) (st : settings) : prog unit :=
  act serial_init_queue;;
  timer_calibrate barrier;;
  ifdef FILESYS (ide_init;; locate_block_devices st;; filesys_init (format_filesys st));;
  run_actions argv;;
  act shutdown;;
  thread_exit.

(** The first code of a thread: the frames on its stack lead it through
    [switch_entry] to [kernel_thread] and the arguments there. *)
Definition first_run (prev : tptr) : prog unit :=
  t ← act get_running;
  th ← act (deref t);
  kf ← act (lift_opt EBadPtr (kframe th));
  switch_entry prev (kernel_thread user_code (kf_function kf) (kf_aux kf)).

(** What the idle thread does after [sema_up]. *)
Definition idle_rest : prog unit :=
  loop (λ _ : unit, idle_round;; mret (inl () : unit + unit)) ();; thread_exit.

(** ** Up to [thread_start] *)

Definition bss_cleared (a : aview) : aview :=
  set_idle_thread None (set_initial_thread None (set_idle_ticks 0
    (set_kernel_ticks 0 (set_user_ticks 0 (set_thread_ticks 0 (set_thread_mlfqs false
      (set_load_avg 0 (set_ticks 0 (set_loops_per_tick 0 a))))))))).

(** The state in which [thread_start] creates the idle thread, with the pages
    [us] in use. *)
Definition prepared_from (us : gset tptr) (b : aview) : aview :=
  let c := set_lists (<[sleep_list := []]> (lists b)) (set_pages us b) in
  set_lists (<[sema_waiters idle_started := []]> (lists c))
    (set_semas (<[idle_started := 0]> (semas c)) c).

Definition prepared (us : gset tptr) (a : aview) : aview :=
  prepared_from us (booted (bss_cleared a)).

(** The loader has left the kernel: interrupts are off, and nothing is
    initialised. *)
Definition loaded (a : aview) : Prop :=
  iv_level (intr a) = INTR_OFF ∧ iv_context (intr a) = false ∧ lists a = ∅ ∧ threads a = ∅ ∧
  semas a = ∅.

Lemma awp_bss_init Q (a : aview) : Q () (bss_cleared a) → awp bss_init Q a.
Proof. apply awp_modify. by intros s <-. Qed.

(** Action that may fail. *)
Lemma apwp_Act_fault {A B} (f : K B) (k : B → prog A) Q (a : aview) :
  (∀ s, obs s = a → match f s with
     | Ok (x, s') => apwp (k x) Q (obs s')
     | Err e => Q (OFault e) a
     end) → apwp (act f ≫= k) Q a.
Proof.
  intros H s Hs. specialize (H s Hs). destruct (f s) as [[x s1]|e] eqn:Hf.
  - destruct (H s1 eq_refl) as (o & s' & ? & ?). exists o, s'. split; [|done]. by eapply exec_act.
  - exists (OFault e), s. rewrite Hs. split; [by constructor|done].
Qed.

Definition out_of_pages : error := EPanic "palloc_get: out of pages".

Lemma apwp_paging_init {TL : PageTableLaws T} {A} (k : unit → prog A) Q (a : aview) :
  Q (OFault out_of_pages) a →
  (∀ us, pages a ⊆ us → apwp (k ()) Q (set_pages us a)) → apwp (act k_paging_init ≫= k) Q a.
Proof.
  intros Hf Hk. apply apwp_Act_fault. intros s <-. unfold k_paging_init.
  pose proof (paging_init_builds (PgState (pages s) ∅ None None)) as H. unfold ends_well in H.
  destruct (paging_init _) as [[[] p]|e]; [|by subst e].
  destruct H as (pd & tab & _ & _ & _ & Hin & _). apply (Hk (pages_in_use (allocator p))).
  intros t Ht. apply Hin. by left.
Qed.

Lemma prepared_threads us (a : aview) :
  threads (prepared us a) = <[running a := main_thread (next_tid a)]> (threads a).
Proof. reflexivity. Qed.

Lemma prepared_lists us (a : aview) :
  lists (prepared us a) =
    <[sema_waiters idle_started := []]> (<[sleep_list := []]> (boot_lists (running a))).
Proof. reflexivity. Qed.

Lemma prepared_semas us (a : aview) :
  semas (prepared us a) = <[idle_started := 0]> (<[sema_of_lock tid_lock := 1]> (semas a)).
Proof. reflexivity. Qed.

Lemma prepared_after us (a b : aview) :
  b = booted (bss_cleared a) → prepared_from us b = prepared us a.
Proof. intros ->. unfold prepared. reflexivity. Qed.

Lemma prepared_fields us (a : aview) :
  running (prepared us a) = running a ∧ intr (prepared us a) = intr a ∧
  idle_thread (prepared us a) = None ∧ thread_mlfqs (prepared us a) = false ∧
  pages (prepared us a) = us ∧ holders (prepared us a) = <[tid_lock := None]> (holders a).
Proof. split_and!; reflexivity. Qed.
#[local] Opaque prepared.

Lemma prepared_unlinked us (a : aview) e :
  e ≠ thread_allelem (running a) → unlinked (lists (prepared us a)) e.
Proof.
  intros He. rewrite prepared_lists. do 2 (apply unlinked_insert; [|apply not_elem_of_nil]).
  by apply unlinked_boot_lists.
Qed.

Lemma prepared_empty us (a : aview) l :
  l ∈ [ready_list; lock_waiters tid_lock; sema_waiters (sema_of_lock tid_lock);
    locks_held (running a); sleep_list; sema_waiters idle_started] →
  lists (prepared us a) !! l = Some [].
Proof.
  intros Hl. rewrite prepared_lists. destruct (decide (l = sema_waiters idle_started)) as [->|H1];
    [by rewrite lookup_insert_eq|rewrite lookup_insert_ne by done].
  destruct (decide (l = sleep_list)) as [->|H2];
    [by rewrite lookup_insert_eq|rewrite lookup_insert_ne by done].
  apply boot_lists_empty. set_solver.
Qed.

Lemma prepared_all us (a : aview) :
  lists (prepared us a) !! all_list = Some (thread_allelem <$> [running a]).
Proof.
  rewrite prepared_lists. unfold boot_lists. by rewrite !lookup_insert_ne, lookup_insert_eq by done.
Qed.

Lemma prepared_tid_ok us (a : aview) :
  loaded a → tid_ok [] (main_thread (next_tid a)) (prepared us a).
Proof.
  intros (Hl & Hctx & Hls & Hts & Hs).
  destruct (prepared_fields us a) as (Hr & Hi & _ & Hm & _ & Hh). apply boot_tid_ok; rewrite ?Hr, ?Hi.
  - split_and!; [|done..]. by rewrite prepared_threads, Hr, lookup_insert_eq.
  - done.
  - done.
  - done.
  - done.
  - intros l Hin. apply prepared_empty. set_solver.
  - by apply prepared_unlinked.
  - by apply prepared_unlinked.
  - by rewrite Hh, lookup_insert_eq.
  - by rewrite prepared_semas, lookup_insert_ne, lookup_insert_eq.
Qed.

Lemma prepared_clean us (a : aview) :
  loaded a → running a ∈ us → pages_clean (prepared us a).
Proof.
  intros (_ & _ & _ & Hts & _) Hr t Ht. destruct (prepared_fields us a) as (_ & _ & _ & _ & Hp & _).
  rewrite Hp in Ht. assert (t ≠ running a) by (by intros ->).
  split_and!; [|apply prepared_unlinked; congruence..].
  by rewrite prepared_threads, lookup_insert_ne, Hts.
Qed.

Lemma prepared_idents us (a : aview) :
  loaded a → idents (prepared us a) = {[running a := (None, false)]}.
Proof.
  intros (_ & _ & _ & Hts & _). unfold idents. rewrite prepared_threads, Hts, insert_empty.
  exact (map_fmap_singleton ident _ _).
Qed.

Lemma prepared_roster us (a : aview) : loaded a → running a ∈ us → roster (prepared us a).
Proof.
  intros Hload Hr. destruct (prepared_fields us a) as (_ & _ & _ & _ & Hp & Hh).
  pose proof (prepared_idents us a Hload) as Hid.
  assert (Hlive : ∀ t, live (prepared us a) t ↔ t = running a).
  { intros t. unfold live. rewrite Hid. split; [by intros [f [<- _]%lookup_singleton_Some]|].
    intros ->. exists None. by rewrite lookup_singleton_eq. }
  assert (Hsome : ∀ t, is_Some (threads (prepared us a) !! t) → t = running a).
  { intros t Ht. apply idents_is_Some in Ht as [f Hf]. rewrite Hid in Hf.
    by apply lookup_singleton_Some in Hf as [<- _]. }
  split.
  - exists [running a]. split; [apply prepared_all|]. intros t.
    by rewrite Hlive, list_elem_of_singleton.
  - intros t Ht. apply prepared_unlinked. intros [= ->]. by apply Ht, Hlive.
  - intros t ->%Hsome. by rewrite Hp.
  - intros t ->%Hsome. apply prepared_empty. set_solver.
  - by rewrite Hh, lookup_insert_eq.
  - by rewrite prepared_semas, lookup_insert_ne, lookup_insert_eq.
  - apply prepared_empty. set_solver.
  - apply prepared_empty. set_solver.
  - by apply prepared_unlinked.
Qed.

Lemma set_pages_twice (us us' : gset tptr) (a : aview) : set_pages us' (set_pages us a) = set_pages us' a.
Proof. reflexivity. Qed.

Lemma apwp_ifdef_off {A} (b : bool) p (k : unit → prog A) Q (a : aview) :
  b = false → apwp (k ()) Q a → apwp (ifdef b p ≫= k) Q a.
Proof. by intros ->. Qed.

(** [main] from [thread_init] on, up to [thread_start]. *)
Lemma apwp_main_inits {TL : PageTableLaws T} rest st Q (b : aview) :
  USERPROG = false → (∀ c, Q (OFault out_of_pages) c) →
  (∀ us, running b ∈ us → apwp (thread_start;; main_rest rest st) Q
     (set_lists (<[sleep_list := []]> (lists b)) (set_pages us b))) →
  apwp (act console_init;; act (palloc_init (user_page_limit st));; act malloc_init;;
    act k_paging_init;; ifdef USERPROG (act tss_init;; act gdt_init);; act intr_init;;
    act (timer_init pit_configure_channel intr_register_ext);; act kbd_init;; act input_init;;
    ifdef USERPROG (act exception_init;; act syscall_init);; thread_start;; main_rest rest st) Q b.
Proof.
  intros Hu HQf HQ. apply apwp_Act, inits_keep; [set_solver|].
  apply apwp_Act, palloc_init_sets. intros us Hus.
  apply apwp_Act, inits_keep; [set_solver|].
  apply apwp_paging_init; [apply HQf|]. intros us' Hsub. rewrite set_pages_twice.
  apply apwp_ifdef_off; [exact Hu|]. apply apwp_Act, inits_keep; [set_solver|].
  apply apwp_Act. unfold timer_init. apply awp_bind, pit_keeps. apply awp_bind, register_keeps.
  kstep. do 2 (apply apwp_Act, inits_keep; [set_solver|]).
  apply apwp_ifdef_off; [exact Hu|]. apply (HQ us'). by apply Hsub.
Qed.

(** The code before [thread_start], from the parts' specifications. *)
Lemma apwp_main_start {TL : PageTableLaws T} argv rest st Q (a : aview) :
  USERPROG = false → loaded a → read_command_line loader_argc loader_args = Ok argv →
  options_meaning argv = Ok (rest, st, false) → (∀ b, Q (OFault out_of_pages) b) →
  (∀ us b, running a ∈ us → b = booted (bss_cleared a) →
     apwp (thread_start;; main_rest rest st) Q
       (set_lists (<[sleep_list := []]> (lists b)) (set_pages us b))) →
  apwp main Q a.
Proof.
  intros Hu (Hl & Hctx & Hls & Hts & Hs) Hcmd Hopts HQf HQ.
  apply apwp_Act, awp_bss_init. apply apwp_Act. eapply awp_lift_res; [exact Hcmd|].
  apply apwp_Act. intros s Ha.
  pose proof (parse_options_follows argv (bss_cleared a) devices_keep) as Hp.
  specialize (Hp s Ha). rewrite Hopts in Hp. eapply holds_mono; [exact Hp|]. clear Hp.
  intros argv' b [-> Hb]. rewrite set_thread_mlfqs_false in Hb. subst b.
  apply apwp_bind. eapply apwp_mono; [by apply (thread_inits (bss_cleared a))|].
  intros o b (-> & Hb & _). assert (Hr : running b = running a) by (by rewrite Hb).
  apply apwp_main_inits; [exact Hu|exact HQf|]. intros us Hus. apply HQ; [by rewrite <- Hr|exact Hb].
Qed.

(** ** The idle thread is created *)

(** The page [t] holds the new thread, which is ready; nothing else is in the
    scheduler's lists, and interrupts are at level [l]. *)
Definition idle_created (l : intr_level) (t : tptr) (a c : aview) : Prop :=
  (t ≠ running a ∧ running c = running a ∧ intr c = IView l false (iv_yield (intr a)) ∧
   idle_thread c = None ∧ thread_mlfqs c = false) ∧
  (∃ id, threads c = <[t := created "idle" PRI_MIN fn_idle (aux_sema idle_started) id]>
     {[running a := main_thread (next_tid a)]}) ∧
  semas c = <[idle_started := 0]> {[sema_of_lock tid_lock := 1]} ∧
  sched_ok c [t] (main_thread (next_tid a)) ∧
  (∀ s, s ∈ [sleep_list; sema_waiters (sema_of_lock tid_lock); sema_waiters idle_started] →
     lists c !! s = Some []) ∧
  (∀ e, (∀ u, e ≠ thread_allelem u) → e ≠ thread_elem t → unlinked (lists c) e) ∧ roster c.

Lemma born_fields id t th all (a b : aview) :
  b = set_lists (lists b) (set_next_tid id (with_born t th all a)) →
  running b = running a ∧ intr b = intr a ∧ idle_thread b = idle_thread a ∧
  thread_mlfqs b = thread_mlfqs a ∧ semas b = semas a.
Proof. by intros ->. Qed.

Lemma born_lists id t th all (a : aview) l :
  l ≠ all_list → l ≠ locks_held t →
  lists (set_next_tid id (with_born t th all a)) !! l = lists a !! l.
Proof. intros. cbn. by rewrite !lookup_insert_ne. Qed.

Lemma apwp_create_idle us (a : aview) :
  loaded a → frames_aligned → running a ∈ us →
  apwp (thread_create "idle" PRI_MIN fn_idle (aux_sema idle_started)) (λ o c,
    (o = ODone TID_ERROR ∧ c = prepared us a) ∨
    ∃ t id, o = ODone id ∧ idle_created INTR_OFF t a c) (prepared us a).
Proof.
  intros Hload Hal Hr. pose proof Hload as (Hl & Hctx & Hls & Hts & Hs).
  destruct (prepared_fields us a) as (Hpr & Hpi & Hpt & Hpm & Hpp & _).
  eapply apwp_mono; [eapply (thread_creates _ _ _ _ [] (main_thread (next_tid a)) [running a])|].
  - by apply prepared_tid_ok.
  - by apply prepared_clean.
  - done.
  - by split.
  - apply prepared_all.
  - intros o c [?|(t & a1 & Ht & [Hth Hf] & Hok & Hu & Hch)]; [by left|right].
    rewrite Hpp in Ht. assert (Htr : t ≠ running a) by (by intros ->).
    assert (Hro : roster a1).
    { eapply (roster_created _ t _ [running a] (prepared us a) a1);
        [by apply prepared_roster|by apply prepared_all|by rewrite Hpp| |exact Hf|intros e; apply Hu].
      done. }
    destruct Hf as [Ha1 Hl1].
    destruct (born_fields _ _ _ _ _ _ Ha1) as (H1 & H2 & H3 & H4 & H5). clear Ha1.
    rewrite Hpr in H1. rewrite Hpi in H2. rewrite Hpt in H3. rewrite Hpm in H4.
    assert (Hno : preempts a1 (enqueue (threads a1) t []) = false).
    { simpl. unfold thread_priority. rewrite Hth, H1, lookup_insert_eq, lookup_insert_ne by done.
      by rewrite prepared_threads, lookup_insert_eq. }
    unfold checked in Hch. rewrite Hno in Hch. destruct Hch as [-> ->].
    eexists t, _. split; [done|].
    refine (conj _ (conj _ (conj _ (conj Hok (conj _ (conj _ Hro)))))).
    + split_and!; [done|done| |done..]. rewrite H2. destruct (intr a). simpl in *. by subst.
    + eexists. rewrite Hth, prepared_threads, Hts. reflexivity.
    + by rewrite H5, prepared_semas, Hs.
    + intros s Hin. rewrite !elem_of_cons, elem_of_nil in Hin.
      destruct Hin as [->|[->|[->|[]]]]; rewrite Hl1, born_lists by done;
        apply prepared_empty; rewrite !elem_of_cons; auto 10.
    + intros e He Het. apply (Hu e zero_thread), Het. by apply unlinked_born; [apply prepared_unlinked|].
Qed.

(** ** [main] waits for the idle thread *)

(** Without an idle thread there is nothing to switch to. *)
Lemma apwp_down_alone {A} (k : unit → prog A) sm cur Q (a : aview) :
  sched_ok a [] cur → iv_context (intr a) = false → idle_thread a = None →
  semas a !! sm = Some 0 → lists a !! sema_waiters sm = Some [] →
  (∀ b, Q (OFault (EAssert "schedule: is_thread (next)")) b) →
  apwp (sema_down sm ≫= k) Q a.
Proof.
  intros (Hc & Hp & Hr & Hu & Hv) Hctx Hi Hval Hws HQ. pose proof Hc as (Ht & Hok & Hst).
  apply apwp_Act, awp_assert_not_intr_context; [done|]. apply apwp_Act, awp_intr_disable.
  fold (intr_off a). apply apwp_Loop, apwp_assoc, apwp_Act.
  eapply awp_sema_value; [done|]. apply apwp_assoc, apwp_Act. eapply awp_thread_current; [exact Hc|].
  apply apwp_assoc, apwp_Act, (awp_sema_enqueue sm []); [exact Hws|exact Hu|]. apply apwp_assoc.
  apply apwp_Act, awp_assert_not_intr_context; [done|]. apply apwp_Act, awp_assert_intr_off; [done|].
  apply apwp_Act. eapply awp_thread_current; [exact Hc|]. apply apwp_Act.
  eapply awp_store; [exact Ht|]. apply apwp_Act. unfold running_thread. kstep. apply apwp_Act.
  eapply (rq_pop (rq := ready) _ []); [|intros _|done].
  { apply (rq_ext (rq := ready) a); [done..| |by intros ? ?%elem_of_nil].
    intros l Hl. cbn. rewrite lookup_insert_ne; [done|]. by intros <-. }
  cbn [idle_thread]. change (idle_thread _) with (idle_thread a). rewrite Hi.
  apply apwp_Act, awp_assert_intr_off; [done|]. apply apwp_Act.
  eapply awp_deref; [cbn; apply lookup_insert_eq|].
  apply apwp_Act, awp_ASSERT; [done|]. apply apwp_Act, awp_ret.
  by apply apwp_ASSERT_fault.
Qed.

(** The semaphores there are. *)
Definition boot_semas : gset sema_ptr := {[sema_of_lock tid_lock; idle_started]}.

(** The idle thread [t] is switched to while [main] waits for it. *)
Definition main_waits (t : tptr) (a c b : aview) : Prop :=
  handed (marked THREAD_BLOCKED (queued_on idle_started [] (intr_off c))) [t] t b.

Lemma apwp_main_waits t (a c : aview) :
  idle_created INTR_ON t a c →
  apwp (sema_down idle_started) (λ o b, ∃ k, o = OSwitch t k ∧ main_waits t a c b ∧
    rest_ok boot_semas (running a) (Some t) (ODown idle_started) (λ prev, k prev;; mret RUnit)) c.
Proof.
  intros ((Htr & Hrun & Hin & Hi & Hm) & _ & Hsem & Hok & Hls & Hu).
  set (D := boot_semas). assert (HD : idle_started ∈ D) by set_solver.
  assert (Hne : idle_started ≠ sema_of_lock tid_lock) by done.
  assert (Hval : semas c !! idle_started = Some 0) by by rewrite Hsem, lookup_insert_eq.
  assert (Hws : lists c !! sema_waiters idle_started = Some []) by (apply Hls; set_solver).
  set (C := back D (running a) (Some t)).
  assert (HnC : ¬ C c) by (intros (_ & Hic & _); congruence).
  set (G := λ s n b, (s = c ∧ ∃ q ws cur, can_wait idle_started q ws 0 cur (intr_off s) ∧
    handed (marked THREAD_BLOCKED (queued_on idle_started ws (intr_off s))) q n b) ∨
    (C s ∧ gives D false (ODown idle_started) s n b)).
  assert (Hsw : swp G C c (sema_down idle_started)
    (λ s _ b, C s ∧ gives_back D false (ODown idle_started) s RUnit b) c).
  { apply swp_sema_down.
    - intros s q ws cur n b [->|Hs] Hcw Hh; [left; split; [done|by exists q, ws, cur]|right].
      split; [done|]. destruct Hs as (_ & _ & _ & _ & Y & Hs).
      exact (down_gives D Y false idle_started q ws cur n _ s b Hs HD Hne Hcw Hh).
    - intros d Hd. eapply back_waitable; [exact Hd|done|congruence].
    - split; [done|]. exists [t], [], 0, (main_thread (next_tid a)).
      refine (conj (sched_ok_intr _ _ _ _ Hok) (conj _ (conj _ (conj _ (conj Hval (conj _ Hws)))))).
      + cbn. by rewrite Hin.
      + cbn. by rewrite Hi.
      + done.
      + by unfold UINT_MAX.
    - intros s v [->|Hs] _ Hv Hpos; [rewrite Hval in Hv; injection Hv as <-; lia|].
      split; [done|]. rewrite Hin. destruct Hs as (_ & _ & _ & _ & Y & Hs).
      exact (down_gives_back D Y false idle_started v _ s Hs HD Hne Hv Hpos). }
  eapply apwp_mono; [by apply swp_unfold|]. intros [x|n k|e] b Ho; simpl in Ho; [by destruct Ho| |done].
  destruct Ho as [[(_ & q & ws & cur & Hcw & Hh)|[? _]] Hk]; [|done].
  destruct Hcw as ((_ & _ & Hr' & _) & _ & _ & _ & _ & _ & Hws').
  destruct Hok as (_ & _ & Hr & _).
  assert (q = [t]) as ->.
  { apply (ready_unique _ _ (intr_off c)); [done|done|]. by eapply (rq_ext (rq := ready) c). }
  change (lists c !! sema_waiters idle_started = Some (elems ws)) in Hws'.
  rewrite Hws in Hws'. destruct ws; [|done]. clear Hws'.
  assert (n = t) as -> by (destruct Hh as ([= ->] & _); done).
  exists k. split; [done|]. split; [exact Hh|].
  intros prev d Hres HC. apply swp_void. eapply (swp_guarantee G); [|exact HC|].
  - intros s n' b' Hs [[-> _]|[_ Hg]]; [done|exact Hg].
  - eapply swp_mono; [exact (Hk prev d Hres HC)|]. by intros s [] b' [_ Hb].
Qed.

(** ** The idle thread starts *)

(** The state in which the idle thread calls [sema_up]. *)
Definition idle_starts (t : tptr) (a b : aview) : aview :=
  let d := resumed (Some (running a)) (set_running t b) in
  set_idle_thread (Some t) (set_intr (iv_set_level INTR_ON (intr d)) d).

(** What is known of it. *)
Definition idle_at_up (t : tptr) (a e : aview) : Prop :=
  (running e = t ∧ idle_thread e = Some t ∧ thread_mlfqs e = false ∧
   intr e = IView INTR_ON false (iv_yield (intr a)) ∧ thread_ticks e = 0) ∧
  (∃ id, threads e =
     <[t := with_status THREAD_RUNNING (created "idle" PRI_MIN fn_idle (aux_sema idle_started) id)]>
       {[running a := with_status THREAD_BLOCKED (main_thread (next_tid a))]}) ∧
  semas e = <[idle_started := 0]> {[sema_of_lock tid_lock := 1]} ∧ ready e [] ∧
  lists e !! sleep_list = Some [] ∧ lists e !! sema_waiters (sema_of_lock tid_lock) = Some [] ∧
  lists e !! sema_waiters idle_started = Some (elems [running a]) ∧
  (∀ x, (∀ u, x ≠ thread_allelem u) → x ≠ thread_elem (running a) → unlinked (lists e) x) ∧
  roster e.

Lemma main_waits_threads t id (a c b : aview) :
  idle_created INTR_ON t a c → main_waits t a c b →
  threads c = <[t := created "idle" PRI_MIN fn_idle (aux_sema idle_started) id]>
     {[running a := main_thread (next_tid a)]} →
  threads b = <[t := created "idle" PRI_MIN fn_idle (aux_sema idle_started) id]>
     {[running a := with_status THREAD_BLOCKED (main_thread (next_tid a))]}.
Proof.
  intros ((Htr & Hrun & _) & _) (_ & _ & _ & [-> _] & _) Hc. cbn. rewrite Hc, Hrun.
  rewrite alter_insert_ne by done. by rewrite alter_singleton_eq.
Qed.

Lemma resumed_waits t mth (a b : aview) :
  t ≠ running a → threads b !! running a = Some mth → status mth = THREAD_BLOCKED →
  resumed (Some (running a)) (set_running t b) = set_thread_ticks 0
    (set_threads (alter (with_status THREAD_RUNNING) t (threads b)) (set_running t b)).
Proof.
  intros Htr Hm Hst. unfold resumed, reaps. cbn. rewrite lookup_alter_ne by done. rewrite Hm.
  by rewrite Hst.
Qed.

(** The rosters are kept up to there. *)
Lemma idle_starts_roster t (a c b : aview) :
  idle_created INTR_ON t a c → main_waits t a c b → roster (idle_starts t a b).
Proof.
  intros Hc Hw. pose proof Hc as ((Htr & Hrun & _) & [id Hid] & _ & ((Hcur & _ & Hst) & _) & _ & _ & Hro).
  pose proof (main_waits_threads t id a c b Hc Hw Hid) as Hts.
  destruct Hw as (_ & _ & _ & Hf & Hu). set (d := marked _ _) in Hf.
  assert (Hd : persist c d).
  { apply persist_queued. unfold has_status. by rewrite Hcur. }
  destruct (persist_handed d b [t] Hf Hu) as [Hp [Hs Hl]].
  assert (Hb : roster b).
  { apply (persist_roster d); [|done..]. apply (persist_roster c); [done..|].
    cbn. by rewrite lookup_insert_ne. }
  assert (Hr : roster (resumed (Some (running a)) (set_running t b))).
  { apply roster_resumed; [by apply (roster_by b)|cbn; congruence|]. unfold has_status. cbn.
    rewrite Hts, lookup_insert_eq. done. }
  by apply (persist_roster (resumed (Some (running a)) (set_running t b))); [|apply persist_threads|..].
Qed.

Lemma idle_starts_ok t (a c b : aview) :
  idle_created INTR_ON t a c → main_waits t a c b → idle_at_up t a (idle_starts t a b).
Proof.
  intros Hc Hw. pose proof Hc as ((Htr & Hrun & Hin & Hi & Hm) & [id Hid] & Hsem & Hok & Hls & Hu & Hro).
  pose proof (main_waits_threads t id a c b Hc Hw Hid) as Hts.
  pose proof (idle_starts_roster t a c b Hc Hw) as Hre.
  destruct Hw as (_ & _ & Hr & [Hb Hl] & Hub). cbn [tail] in Hr.
  assert (Hf : running b = running a ∧ intr b = intr (intr_off c) ∧ thread_mlfqs b = false ∧
    semas b = semas c) by (rewrite Hb; split_and!; [exact Hrun|done|exact Hm|done]).
  destruct Hf as (H1 & H2 & H3 & H4). clear Hb.
  assert (Hmt : threads b !! running a = Some (with_status THREAD_BLOCKED (main_thread (next_tid a))))
    by by rewrite Hts, lookup_insert_ne, lookup_singleton_eq.
  revert Hre. unfold idle_starts. cbv zeta. rewrite (resumed_waits t _ a b Htr Hmt eq_refl).
  intros Hre. split_and!; cbn; try done.
  - rewrite H2. cbn. by rewrite Hin.
  - exists id. rewrite Hts. by rewrite alter_insert_eq.
  - by rewrite H4.
  - eapply (rq_ext (rq := ready) b); [exact Hr|done|done|by intros ? ?%elem_of_nil].
  - rewrite Hl by done. cbn. rewrite lookup_insert_ne by done. apply Hls. rewrite !elem_of_cons; auto.
  - rewrite Hl by done. cbn. rewrite lookup_insert_ne by done. apply Hls. rewrite !elem_of_cons; auto.
  - rewrite Hl by done. cbn. rewrite lookup_insert_eq. simpl. by rewrite Hrun.
  - intros x Hx Hxr. apply Hub; [|apply not_elem_of_nil].
    destruct (decide (x = thread_elem t)) as [->|Hne]; [right; by left|left].
    cbn. apply unlinked_insert; [by apply Hu|]. simpl. rewrite Hrun.
    by intros ->%list_elem_of_singleton.
Qed.

Definition main_waiting (a : aview) : sema_ptr → list tptr :=
  with_waiters idle_started [running a] (λ _, []).

Lemma idle_placed t (a e : aview) :
  t ≠ running a → idle_at_up t a e →
  placed boot_semas ∅ [t] [] [] (main_waiting a) e.
Proof.
  intros Htr ((Hrun & Hi & Hm & Hin & Htk) & [id Hts] & Hsem & Hr & Hsl & Hwl & Hwi & Hu & _).
  set (th := with_status THREAD_RUNNING _) in Hts. set (mth := with_status THREAD_BLOCKED _) in Hts.
  assert (Hcase : ∀ u uth, threads e !! u = Some uth →
    (u = t ∧ uth = th) ∨ (u = running a ∧ uth = mth)).
  { intros u uth. rewrite Hts.
    intros [[<- <-]|[_ [<- <-]%lookup_singleton_Some]]%lookup_insert_Some; auto. }
  assert (Ht : threads e !! t = Some th) by by rewrite Hts, lookup_insert_eq.
  assert (Hmt : threads e !! running a = Some mth)
    by by rewrite Hts, lookup_insert_ne, lookup_singleton_eq.
  assert (Hwait : ∀ sm u, u ∈ main_waiting a sm → sm = idle_started ∧ u = running a).
  { intros sm u. unfold main_waiting, with_waiters. case_decide; [|by intros ?%elem_of_nil].
    by intros ->%list_elem_of_singleton. }
  assert (Hself : running a ∈ main_waiting a idle_started)
    by (unfold main_waiting, with_waiters; rewrite decide_True by done; by left).
  split; try done.
  - exists t. split_and!; [done|by eexists|]. intros Hn. destruct Hn. by left.
  - intros u ->%list_elem_of_singleton. by eexists.
  - intros u uth [[_ ->]|[_ ->]]%Hcase; (split; [done|split; by vm_compute]).
  - constructor.
  - constructor.
  - intros sm. unfold boot_semas. rewrite Hsem, <- elem_of_dom, dom_insert, dom_singleton. set_solver.
  - intros sm v. rewrite Hsem. unfold UINT_MAX.
    intros [[_ <-]|[_ [_ <-]%lookup_singleton_Some]]%lookup_insert_Some; lia.
  - intros sm [->%elem_of_singleton| ->%elem_of_singleton]%elem_of_union; done.
  - constructor.
  - by intros u ?%elem_of_nil.
  - by intros u ?%elem_of_nil.
  - intros sm u _ [_ ->]%Hwait. split_and!; [by intros ?%list_elem_of_singleton|congruence|].
    unfold has_status. by rewrite Hmt.
  - intros u [uth [[-> _]|[-> _]]%Hcase]; [left; by left|]. do 4 right. left.
    exists idle_started. split; [set_solver|done].
  - intros u _ Hn. apply Hu; [done|]. intros [= ->]. eapply Hn; [|exact Hself]. set_solver.
  - intros u _. by apply Hu.
  - intros sm _. unfold main_waiting, with_waiters. case_decide; [|constructor].
    apply sorted_on_cons. split; [by intros ? ?%elem_of_nil|constructor].
Qed.

Lemma idle_running t (a e : aview) :
  t ≠ running a → idle_at_up t a e →
  running_ok boot_semas ∅ INTR_ON e ∧
  placed boot_semas ∅ [running e] [] [] (main_waiting a) e ∧ ready e [].
Proof.
  intros Htr He. pose proof (idle_placed t a e Htr He) as Hpl.
  destruct He as ((Hrun & Hi & Hm & Hin & Htk) & [id Hts] & _ & Hr & _).
  rewrite Hrun. refine (conj _ (conj Hpl Hr)). unfold running_ok. rewrite Hin, Htk, Hrun.
  split_and!; try done.
  - by exists [], [], (main_waiting a).
  - unfold has_status. by rewrite Hts, lookup_insert_eq.
Qed.

(** The idle thread goes on in [sema_up] as it should. *)
Definition up_rest (t : tptr) (a : aview) (k : tptr → prog unit) : Prop :=
  ∀ prev c, can_resume prev c → back boot_semas t (Some t) (resumed (Some prev) c) →
    swp (gives boot_semas false (OUp idle_started))
      (back boot_semas t (Some t)) (resumed (Some prev) c) (k prev)
      (λ s _, gives_back boot_semas false (OUp idle_started) s RUnit) c.

(** [sema_up] makes [main] ready, which has the higher priority. *)
Lemma apwp_idle_ups t (a e : aview) :
  t ≠ running a → idle_at_up t a e →
  apwp (sema_up idle_started) (λ o b, ∃ k, o = OSwitch (running a) k ∧
    gives boot_semas true (OUp idle_started) e (running a) b ∧
    up_rest t a k) e.
Proof.
  intros Htr He. destruct (idle_running t a e Htr He) as (Hok & Hpl & Hr).
  destruct He as ((Hrun & Hi & Hm & Hin & Htk) & [id Hts] & Hsem & _).
  assert (Hv : semas e !! idle_started = Some 0) by by rewrite Hsem, lookup_insert_eq.
  eapply apwp_mono; [apply (apwp_up_stretch _ _ idle_started 0 [] [] _ e Hok Hpl Hr ltac:(done) Hv)|].
  { by unfold UINT_MAX. }
  intros o b [Ho (a1 & q1 & Hup & Hch)]. rewrite Hrun, Hi in Ho.
  assert (HW : main_waiting a idle_started = [running a])
    by (unfold main_waiting, with_waiters; by rewrite decide_True).
  rewrite HW in Hup. destruct Hup as (th & Hth & Ha1 & -> & _).
  assert (Hf : running a1 = t ∧ idle_thread a1 = Some t ∧ intr a1 = intr e ∧
    threads a1 = <[running a := unblocked e (running a) th]> (threads e)) by
    (rewrite Ha1; split_and!; [exact Hrun|exact Hi|done..]).
  destruct Hf as (H1 & H2 & H3 & H4). clear Ha1.
  rewrite Hts, lookup_insert_ne, lookup_singleton_eq in Hth by done. injection Hth as <-.
  assert (Hpre : preempts a1 (enqueue (threads a1) (running a) []) = true).
  { simpl. unfold thread_priority. rewrite H1, H4, lookup_insert_eq, lookup_insert_ne by done.
    rewrite Hts, lookup_insert_eq. unfold unblocked, reprioritised. by rewrite Hm. }
  unfold checked in Hch. rewrite Hpre, H3, Hin in Hch. cbn [iv_context] in Hch.
  unfold yielded in Hch. apply (scheduled_switches _ _ _ _ _ _ (running a)) in Hch as [k ->].
  - destruct Ho as [Hg Hk]. exists k. by split_and!.
  - unfold requeue. by rewrite H1, H2, bool_decide_true.
  - cbn. by rewrite H1.
Qed.

(** The idle thread, from its first instruction to the switch in [sema_up]. *)
Lemma apwp_first_run t (a c b : aview) :
  idle_created INTR_ON t a c → main_waits t a c b →
  apwp (first_run (running a)) (λ o d, ∃ (k : tptr → prog unit) e,
    o = OSwitch (running a) (λ prev, k prev;; idle_rest) ∧
    idle_at_up t a e ∧
    gives boot_semas true (OUp idle_started) e (running a) d ∧
    up_rest t a k ∧ ∀ prev, spares (λ _, True) (k prev))
    (set_running t b).
Proof.
  intros Hc Hw. pose proof (idle_starts_ok t a c b Hc Hw) as He.
  pose proof Hc as ((Htr & Hrun & Hin & _) & [id Hid] & _).
  pose proof (main_waits_threads t id a c b Hc Hw Hid) as Hts.
  assert (Hib : intr b = IView INTR_OFF false (iv_yield (intr a))).
  { destruct Hw as (_ & _ & _ & [-> _] & _). cbn. by rewrite Hin. }
  assert (Ht : threads b !! t = Some (created "idle" PRI_MIN fn_idle (aux_sema idle_started) id))
    by by rewrite Hts, lookup_insert_eq.
  assert (Hm : threads b !! running a = Some (with_status THREAD_BLOCKED (main_thread (next_tid a))))
    by by rewrite Hts, lookup_insert_ne, lookup_singleton_eq.
  apply apwp_Act, awp_get_running. apply apwp_Act. eapply awp_deref; [exact Ht|].
  apply apwp_Act. eapply awp_lift_opt; [reflexivity|]. rewrite switch_entry_tail.
  apply apwp_Act, awp_thread_schedule_tail.
  { split_and!; cbn.
    - by rewrite Hib.
    - by eexists.
    - by eexists.
    - congruence.
    - unfold reaps. cbn. by rewrite Hm. }
  cbn [kf_function kf_aux]. unfold kernel_thread. cbn [call idle].
  destruct He as [Hf Hrest]. pose proof Hf as (Hre & _ & _ & Hie & _).
  set (d := resumed (Some (running a)) (set_running t b)) in *.
  assert (Hid' : intr d = intr b) by (unfold d, resumed; by case_match).
  apply apwp_Act, awp_intr_enable; [by rewrite Hid', Hib|].
  apply apwp_assoc, apwp_Act. eapply (awp_thread_current
    (with_status THREAD_RUNNING (created "idle" PRI_MIN fn_idle (aux_sema idle_started) id))).
  { pose proof Hrest as ([id' Hte] & _). change (threads (idle_starts t a b)) with (threads d) in Hte.
    change (running (idle_starts t a b)) with (running d) in Hre.
    assert (Hd : threads d !! t = Some (with_status THREAD_RUNNING
      (created "idle" PRI_MIN fn_idle (aux_sema idle_started) id))).
    { unfold d. rewrite (resumed_waits t _ a b Htr Hm eq_refl). cbn.
      by rewrite lookup_alter_eq, Ht. }
    split_and!; [|done..]. change (threads d !! running d = Some (with_status THREAD_RUNNING
      (created "idle" PRI_MIN fn_idle (aux_sema idle_started) id))). by rewrite Hre. }
  apply apwp_assoc, apwp_Act, awp_put_idle_thread. apply apwp_assoc.
  change (running (set_intr _ d)) with (running (idle_starts t a b)). rewrite Hre.
  change (set_idle_thread _ _) with (idle_starts t a b). apply apwp_bind.
  eapply apwp_mono; [eapply apwp_spares;
    [exact (apwp_idle_ups t a _ Htr (conj Hf Hrest))|apply sema_up_spares]|].
  intros o x ((k & -> & Hg & Hk) & _ & Hsp). cbn [out_bind]. exists k, (idle_starts t a b). split_and!; try done.
Qed.

(** The machine as [sema_up] finds it: [main] waits, nobody is being made and
    nobody has ended. *)
Lemma boot_begins t (a e : aview) k1 :
  t ≠ running a → idle_at_up t a e →
  rest_ok boot_semas (running a) (Some t) (ODown idle_started) k1 →
  begins boot_semas e {[running a := (ODown idle_started, k1)]} ∅.
Proof.
  intros Htr He Hk. destruct (idle_running t a e Htr He) as (Hok & _).
  destruct He as ((Hrun & Hi & _) & [id Hts] & _ & _ & _ & _ & _ & _ & Hro).
  assert (Hid : ∃ f, idents e = <[t := (f, false)]> {[running a := (None, false)]}).
  { eexists. unfold idents. rewrite Hts, fmap_insert. f_equal. exact (map_fmap_singleton ident _ _). }
  destruct Hid as [f Hid].
  assert (Hlive : ∀ u, live e u ↔ u = t ∨ u = running a).
  { intros u. unfold live. rewrite Hid. split.
    - intros [g [[<- _]|[_ [<- _]%lookup_singleton_Some]]%lookup_insert_Some]; auto.
    - intros [->| ->]; [rewrite lookup_insert_eq|rewrite lookup_insert_ne, lookup_singleton_eq by done];
        by eexists. }
  assert (Hnd : ∀ u g, idents e !! u ≠ Some (g, true)).
  { intros u g. rewrite Hid. by intros [[_ ?]|[_ [_ ?]%lookup_singleton_Some]]%lookup_insert_Some. }
  split.
  - exists ∅. split; [by eapply running_ok_in_hand|]. split; [|by intros u [? ?]].
    intros u. split; [by intros ?%elem_of_empty|]. intros [[? ?]|[g Hg]]; [done|by destruct (Hnd u g)].
  - apply Hlive. by left.
  - done.
  - intros u [g Hg]%dying_ident. by destruct (Hnd u g).
  - intros u [[o k] [<- _]%lookup_singleton_Some]. split_and!; [apply Hlive; by right|done|congruence].
  - intros u Hu _ Hne. apply Hlive in Hu as [->| ->]; [congruence|]. unfold rest_of.
    rewrite lookup_singleton_eq, Hi. exact Hk.
Qed.

(** Nobody waits or sleeps once [main] has been taken off the waiters. *)
Lemma boot_wakes t (a e : aview) s o1 k1 k2 :
  t ≠ running a → idle_at_up t a e →
  gives boot_semas true (OUp idle_started) e (running a) (obs s) →
  wakes_ok boot_semas (Machine (set_running (running a) s)
    (<[t := (OUp idle_started, k2)]> {[running a := (ODown o1, k1)]}) ∅ (Switched t)).
Proof.
  intros Htr ((Hrun & Hi & _) & _ & _ & _ & Hsl & Hwl & Hwi & _) (_ & Hid & [(_ & Hws & Hsleep) _] & _).
  split; cbn [memory suspended next].
  - intros o u [k Hk]. change (idle_thread _) with (idle_thread (obs s)). rewrite Hid, Hi.
    apply lookup_insert_Some in Hk as [[<- [= <- _]]|[_ [<- [= <- _]]%lookup_singleton_Some]];
      (split; [done|]); [by intros []|congruence].
  - intros u Hu. destruct (proj1 (proj2 Hsleep u _) (conj Hu eq_refl)) as [[He _]|[]].
    by apply (sleeps_in e []), elem_of_nil in He.
  - intros sm ws v Hsm Hw _. change (waits (obs s) sm ws) in Hw.
    assert (Hnil : waits (obs s) sm []).
    { apply elem_of_union in Hsm as [->%elem_of_singleton| ->%elem_of_singleton].
      - pose proof (Hws (sema_of_lock tid_lock) [] ltac:(set_solver) Hwl) as H. cbn [weffect andb] in H.
        by destruct (bool_decide _) in H.
      - pose proof (Hws idle_started [running a] ltac:(set_solver) Hwi) as H. cbn [weffect andb] in H.
        by rewrite bool_decide_true in H. }
    pose proof (waits_functional _ _ _ _ Hw Hnil) as ->. split; [by intros u ?%elem_of_nil|done].
Qed.

(** Neither of the two has anything left to count. *)
Lemma boot_spare t u (k1 k2 : tptr → prog unit) :
  (∀ prev, spares (λ _, True) (k1 prev)) → (∀ prev, spares (λ _, True) (k2 prev)) →
  spare_pool ∅ (<[t := (OUp idle_started, λ prev, k2 prev;; mret RUnit)]>
    {[u := (ODown idle_started, λ prev, k1 prev;; mret RUnit)]}).
Proof.
  intros H1 H2 v o k Hv prev.
  assert (Hk : o ≠ OTid ∧ spares (λ _, True) (k prev)).
  { apply lookup_insert_Some in Hv as [[_ [= <- <-]]|[_ [_ [= <- <-]]%lookup_singleton_Some]];
      (split; [done|]); by apply spares_then. }
  destruct Hk as [Ho Hk]. eapply spares_mono; [|exact Hk]. by intros r _ ?.
Qed.

(** ** All of it *)

Lemma idle_created_on t (a c : aview) :
  idle_created INTR_OFF t a c → idle_created INTR_ON t a (set_intr (iv_set_level INTR_ON (intr c)) c).
Proof.
  intros ((Htr & Hrun & Hin & Hi & Hm) & Hts & Hsem & Hok & Hls & Hu & Hro).
  refine (conj (conj Htr (conj Hrun (conj _ (conj Hi Hm)))) (conj Hts (conj Hsem (conj _ (conj Hls (conj Hu _)))))).
  - cbn. by rewrite Hin.
  - by apply sched_ok_intr.
  - by apply (persist_roster c); [|apply persist_threads|..].
Qed.

(** [main] is in [sema_down (&idle_started)] and has switched to the idle thread
    [t]; [k] is the rest of [sema_down]. *)
Definition main_sleeps (rest : list string) (st : settings) (a : aview) (t : tptr) (k : tptr → prog unit)
    (o : out unit) (b : aview) : Prop :=
  o = OSwitch t (λ prev, k prev;; main_rest rest st) ∧
  (∃ c, idle_created INTR_ON t a c ∧ main_waits t a c b) ∧
  rest_ok boot_semas (running a) (Some t) (ODown idle_started) (λ prev, k prev;; mret RUnit) ∧
  ∀ prev, spares (λ _, True) (k prev).

Definition no_idle_thread : error := EAssert "schedule: is_thread (next)".

Lemma apwp_start_alone cur (k : unit → prog unit) Q (p : aview) :
  sched_ok p [] cur → iv_context (intr p) = false → idle_thread p = None →
  semas p !! idle_started = Some 0 → lists p !! sema_waiters idle_started = Some [] →
  (∀ b, Q (OFault no_idle_thread) b) →
  apwp (act k_intr_enable ≫= λ _, (sema_down idle_started ≫= k)) Q p.
Proof.
  intros Hok Hctx Hi Hv Hws HQ. apply apwp_Act, awp_intr_enable; [done|].
  by apply (apwp_down_alone _ idle_started cur); [apply sched_ok_intr|..].
Qed.

Lemma apwp_main {TL : PageTableLaws T} argv rest st (a : aview) :
  USERPROG = false → loaded a → frames_aligned → read_command_line loader_argc loader_args = Ok argv →
  options_meaning argv = Ok (rest, st, false) →
  apwp main (λ o b, o = OFault out_of_pages ∨ o = OFault no_idle_thread ∨
    ∃ t k, main_sleeps rest st a t k o b) a.
Proof.
  intros Hu Hload Hal Hcmd Hopts. eapply apwp_main_start; [done..|by left|].
  intros us b Hus Hb. unfold thread_start. apply apwp_assoc, apwp_Act, awp_sema_init.
  pose proof (prepared_after us a b Hb) as Hp. unfold prepared_from in Hp. cbv zeta in Hp.
  rewrite Hp. clear Hp. apply apwp_assoc, apwp_bind.
  eapply apwp_mono; [by apply (apwp_create_idle us a)|]. cbv beta.
  intros o c [[-> ->]|(t & id & -> & Hc)]; cbn [out_bind]; apply apwp_assoc.
  - destruct (prepared_fields us a) as (Hr & Hi & Hit & _). destruct Hload as (Hl & Hctx & Hload).
    apply (apwp_start_alone (main_thread (next_tid a))).
    + apply (prepared_tid_ok us a (conj Hl (conj Hctx Hload))).
    + by rewrite Hi.
    + exact Hit.
    + by rewrite prepared_semas, lookup_insert_eq.
    + apply prepared_empty. rewrite !elem_of_cons. auto 10.
    + by right; left.
  - pose proof Hc as ((_ & _ & Hin & _) & _). apply apwp_Act, awp_intr_enable; [by rewrite Hin|].
    apply idle_created_on in Hc. apply apwp_bind.
    eapply apwp_mono; [eapply apwp_spares; [by apply apwp_main_waits|apply sema_down_spares]|].
    intros o d ((k & -> & Hw & Hrest) & _ & Hsp).
    cbn [out_bind]. right. right. exists t, k. split; [done|]. split; [by eexists|done].
Qed.

(** C10: The kernel boots, if it is built without user programs.  From the memory the
    loader leaves, with a command line that parses and does not choose the
    feedback scheduler, [main] runs without a fault until it waits for the idle thread
    that it has created, unless the memory is too small: it panics if there
    are no pages for the page tables, and an assertion of the scheduler fails
    if there is none for the idle thread.  The idle thread in turn runs until
    it has let [main] go on.  At that point the machine's invariants hold, and
    neither thread's call has anything left to count: so
    whatever [main] and the tests do with the calls of the machine, all that is
    proved of its runs holds of the booted kernel. *)
Theorem main_boots {TL : PageTableLaws T} argv rest st (s : kstate) :
  USERPROG = false → loaded (obs s) → frames_aligned → read_command_line loader_argc loader_args = Ok argv →
  options_meaning argv = Ok (rest, st, false) →
  ∃ o s1, exec main s o s1 ∧
    (o = OFault out_of_pages ∨ o = OFault no_idle_thread ∨
     ∃ t (k1 k2 : tptr → prog unit) s2,
       o = OSwitch t (λ prev, k1 prev;; main_rest rest st) ∧
       exec (first_run (running s)) (set_running t s1)
         (OSwitch (running s) (λ prev, k2 prev;; idle_rest)) s2 ∧
       let m := Machine (set_running (running s) s2)
           (<[t := (OUp idle_started, λ prev, k2 prev;; mret RUnit)]>
             {[running s := (ODown idle_started, λ prev, k1 prev;; mret RUnit)]})
           ∅ (Switched t) in
       machine_ok boot_semas m ∧ wakes_ok boot_semas m ∧ spare_pool ∅ (suspended m)).
Proof.
  intros Hu Hload Hal Hcmd Hopts.
  destruct (apwp_main argv rest st (obs s) Hu Hload Hal Hcmd Hopts s eq_refl) as (o & s1 & Hex & Ho).
  exists o, s1. split; [exact Hex|]. destruct Ho as [Ho|[Ho|(t & k1 & -> & (c & Hc & Hw) & Hrest & Hsp1)]];
    [by left|by right; left|right; right].
  destruct (apwp_first_run t (obs s) c (obs s1) Hc Hw (set_running t s1) eq_refl)
    as (o2 & s2 & Hex2 & k2 & e & -> & He & Hg & Hk & Hsp2).
  exists t, k1, k2, s2. split; [done|]. split; [exact Hex2|].
  pose proof Hc as ((Htr & _) & _). pose proof He as ((Hrun & Hi & _) & _).
  destruct (ended_ok boot_semas true (OUp idle_started) e
    {[running s := (ODown idle_started, λ prev, k1 prev;; mret RUnit)]} ∅
    (OSwitch (running s) (λ prev, k2 prev;; mret RUnit)) s2) as (x & m' & Hend & Hok & _).
  - by apply (boot_begins t (obs s)).
  - done.
  - unfold stretch_end. rewrite Hrun, Hi. split; [exact Hg|]. intros _ prev f Hf Hback. apply swp_void. by apply Hk.
  - rewrite Hrun. by rewrite lookup_singleton_ne.
  - assert (Hr2 : running s2 = t) by (destruct Hg as ((Y & _ & Hr2 & _) & _); by rewrite Hrun in Hr2).
    inversion Hend as [|n k st1|]; [|done]. subst n k st1 x m'. rewrite Hr2 in Hok. split; [exact Hok|].
    split; [exact (boot_wakes t _ e s2 _ _ _ Htr He Hg)|]. by apply boot_spare.
Qed.
End boot.

(** * Witness *)
Section witness.
#[local] Existing Instances concrete_env concrete_env_laws word_frames wit_tables wit_tables_laws.

(** The command line "-q -f run alarm-single"; devices that do nothing; pages 20 to
    39 are free. *)
#[local] Instance wit_platform : Platform := {|
  services := {|
    shutdown_configure _ := mret ();
    shutdown_power_off := fail EPowerOff;
    random_init _ := mret ();
    rtc_get_time := mret 0;
    atoi _ := 0;
    run_test _ := mret ();
    process_execute _ := mret (-1);
    process_wait _ := mret ();
    fsutil_ls _ := mret ();
    fsutil_cat _ := mret ();
    fsutil_rm _ := mret ();
    fsutil_extract _ := mret ();
    fsutil_append _ := mret ()
  |};
  loader_argc := 4;
  loader_args := encode ["-q"; "-f"; "run"; "alarm-single"] ++ replicate 100 NUL;
  console_init := mret ();
  palloc_init _ := modify (λ s, set_pages (PagePool 20 40 {[running s]} : pstate) s);
  malloc_init := mret ();
  tss_init := mret ();
  gdt_init := mret ();
  intr_init := mret ();
  intr_register_ext _ _ _ := mret ();
  pit_configure_channel _ _ _ := mret ();
  kbd_init := mret ();
  input_init := mret ();
  exception_init := mret ();
  syscall_init := mret ();
  serial_init_queue := mret ();
  barrier := mret ();
  ide_init := mret ();
  filesys_init _ := mret ();
  shutdown := mret ();
  switch_entry prev p := act (thread_schedule_tail (Some prev));; p
|}.

(** A kernel with a file system, and a machine without block devices. *)
#[local] Instance wit_build : Build := {| FILESYS := true; VM := false; USERPROG := false |}.
#[local] Instance wit_no_blocks : Blocks := {|
  block := Empty_set;
  block_role := nat;
  BLOCK_FILESYS := 1%nat;
  BLOCK_SCRATCH := 2%nat;
  BLOCK_SWAP := 3%nat;
  block_type x := match x with end;
  block_get_by_name _ := mret None;
  block_first := mret None;
  block_next _ := mret None;
  block_set_role _ _ := mret ()
|}.

Definition wit_settings : settings := Settings true None None None SIZE_MAX.

#[local] Instance wit_platform_laws : PlatformLaws wit_platform.
Proof.
  split.
  - split_and!; [intros; by apply awp_ret|done|intros; by apply awp_ret|].
    intros Q a H. by apply awp_ret.
  - intros m Hm Q a HQ. rewrite !elem_of_cons, elem_of_nil in Hm.
    destruct Hm as [->|[->|[->|[->|[->|[]]]]]]; by apply awp_ret.
  - intros. by apply awp_ret.
  - intros. by apply awp_ret.
  - intros n Q a HQ. eapply (awp_modify _ (set_pages {[running a]} a)); [by intros s <-|].
    apply HQ. set_solver.
  - done.
Defined.

Definition wit_loaded : kstate :=
  KSt (∅ : lview) (IView INTR_OFF false false) (PagePool 1 1 ∅) ∅ ∅ ∅ 1%positive None None
    0 0 0 0 true 0 1 0 0.

Lemma main_boots_witness :
  ∃ t (k1 k2 : tptr → prog unit) s1 s2,
    exec main wit_loaded (OSwitch t (λ prev, k1 prev;; main_rest ["run"; "alarm-single"] wit_settings)) s1 ∧
    machine_ok boot_semas
      (Machine (set_running 1 s2)
         (<[t := (OUp idle_started, λ prev : tptr, k2 prev;; mret RUnit)]>
            {[1%positive := (ODown idle_started, λ prev : tptr, k1 prev;; mret RUnit)]})
         ∅ (Switched t)).
Proof.
  destruct (main_boots (λ _ _, mret ()) ["-q"; "-f"; "run"; "alarm-single"] ["run"; "alarm-single"]
    wit_settings wit_loaded) as (o & s1 & Hex & Ho); [done|done|done|vm_compute; reflexivity|vm_compute; reflexivity|].
  destruct (run_ends 2000 main wit_loaded (λ x, match x with OSwitch _ _ => true | _ => false end))
    as (x & s' & Hx & Hsw); [vm_compute; reflexivity|].
  destruct (exec_det _ _ _ _ _ _ Hex Hx) as [-> _].
  destruct Ho as [->|[->|(t & k1 & k2 & s2 & -> & _ & Hok & _)]]; [done|done|].
  by exists t, k1, k2, s1, s2.
Defined.
End witness.
